(* ===== verification/_CoqProject ===== *)
-Q . S2P
Prelude.v
Float.v
FloatError.v
Layout.v
Partition.v
Tiling.v
Ledger.v
Projection.v
Keys.v
State.v
Backend.v
Snapshot.v
Visible.v
Authority.v
Hoare.v
AuthorityInv.v
Session.v
Reduce.v
Replay.v
SessionInv.v
Finalize.v
Turns.v
Actions.v
SessionSafety.v
BackendTurn.v
Persistence.v
Utf8.v
Text.v
Modules.v
Sampler.v
Timers.v
Ipc.v
Control.v
ControlInv.v
ControlConn.v
Client.v
ClientSafety.v
Worker.v
WorkerSafety.v
Server.v
ServerConn.v
ServerInv.v
ServerOps.v
ServerSafety.v
Dispatch.v
Runtime.v
RuntimeControl.v
Pipeline.v
RuntimeInv.v
RuntimeOps.v
RuntimeSteps.v
RuntimeServices.v
RuntimeSafety.v
Handoff.v
Startup.v
GenRecords.v
GenFormats.v
GenStore.v
GenJournals.v
GenSteps.v
GenTrees.v
GenProtocol.v
GenCommits.v
GenRecovery.v
GenPublish.v
GenCalls.v
GenCalm.v
GenCollect.v
GenGarbage.v
GenSafety.v
