(* ===== verification/Prelude.v ===== *)
(** * realm: a verification library for the realm desktop environment

    ** The program

    realm is a keyboard-driven desktop built around one daemon.  The daemon owns
    an ordered [Ledger] of windows per orbit, projects it onto the screen with
    pure layout functions, speaks to a compositor through a backend, publishes
    the visible state to a bar and to a control socket, and persists the ledger.
    Its crates are under [src/crates]: [realm-core] holds the data and the pure
    functions, [realm-session] the daemon, [realm-control] the control socket,
    [realm-theme] the generations of rendered configuration that programs are
    started with.

    ** Files and what they model

    Shared: [Prelude] (results, the state-and-error monad, record update, machine
    integers, UTF-8 strings, vectors), [Hoare] (a weakest precondition for
    fallible methods), [Float] and [FloatError] (the [f32] operators and their
    rounding error), [Utf8] ([str::from_utf8]).

    realm-core: [Ledger] ([ledger.rs]); [Layout], [Partition], [Tiling] and
    [Projection] ([layout.rs]: rectangles and [partition], its exactness, the
    grids, and [project]); [Keys] ([keys.rs]); [State] ([state.rs]); [Ipc]
    ([ipc.rs]: messages and frames).

    realm-session: [Backend] ([backend.rs]: the compositor contract, the class
    [WmBackend]); [Snapshot], [Visible], [Authority] and [Session]
    ([session.rs]: the persisted snapshot, bounded text, the data of the state
    machine, and the state machine); [BackendTurn] ([turn.rs]); [Persistence]
    ([persistence.rs]); [Worker] and [WorkerSafety] ([worker.rs]: the owner, the
    worker thread and the reaper, and every interleaving of them); [Text],
    [Modules] and [Sampler] ([modules.rs]: parsing, the samples and their texts,
    and the sampler thread with its mailbox); [Timers] ([timers.rs]); [Dispatch]
    and [Runtime] ([runtime.rs]: one request, and the daemon with its services
    and poll loop).  The invariant of the session is in [AuthorityInv] and
    [SessionInv]; [Reduce], [Replay], [Finalize], [Turns] and [Actions] show that
    each method keeps it; [SessionSafety] states what every run guarantees.  The
    invariant of the daemon, which joins those of its owners, is in [RuntimeInv];
    [RuntimeControl] and [Pipeline] say what the server and the worker do to it,
    [RuntimeOps], [RuntimeSteps] and [RuntimeServices] that each part of a turn
    keeps it; [RuntimeSafety] states what every run of the daemon guarantees.
    [Handoff] and [Startup] ([runtime.rs], [snapshot.rs]) are the way to the loop:
    the degradation handoff, the snapshot read, the backend's recovery and the
    start of the services.

    realm-control: [Control] ([protocol.rs]: [ConnectionMachine]), [ControlInv]
    (its invariant) and [ControlConn] (a connection beside its peer); [Server]
    ([server.rs]), [ServerConn] and [ServerInv] (what a machine call means to the
    server, and the server's invariant), [ServerOps] (each method keeps it) and
    [ServerSafety] (what every run guarantees); [Client] and [ClientSafety]
    ([client.rs]: the framed transport, the client's calls and its subscription
    over any answers of the socket and the clock).

    realm-theme ([generation.rs]): [GenRecords] (leases, the publication order,
    manifests, as text) and [GenFormats] (what their parsers accept); [GenStore]
    (the three directories of the store and every operation on them).  The theorems
    are built up in [GenJournals] (the six inventories of the pointer), [GenSteps]
    (what a method leaves on the disk, call by call, and the trees), [GenTrees]
    (what was written can be read), [GenProtocol] and [GenCommits] (the pointer
    transaction, through every failure), [GenRecovery], [GenPublish] and [GenCalls]
    (recovery, publication, each operation from its lock to its answer), [GenCalm]
    (recovery that nothing disturbs), [GenCollect] and [GenGarbage] (leases and
    collection); [GenSafety] states what the store guarantees.

    ** How the code is rendered

    A struct is a record and an enum an inductive type with the source's
    constructors.  A method on [&mut self] is a function from the state to its
    result and the state it leaves; in the session it is an [stm], the state
    monad whose errors keep the state written so far, and a panic ([expect],
    [unreachable]) is the error [Panic], so that its absence is a theorem.  The
    session calls the ledger, the projection and the snapshot directly; it calls
    the compositor through [WmBackend], a class without laws, so every theorem
    about it holds for every backend, failing ones included.  Integers keep their
    width; instants are nanoseconds in [N], which do not overflow.  Text is a
    list of Unicode scalar values; its bytes are computed where the code counts
    them.  Private helpers that split a long method carry the lines of the part
    they translate.

    The generation store runs on a [Disk]: the entries of its root, generations and
    leases directories.  Each system call takes the next of a list of faults; a call
    that fails changes nothing, except a write, which may leave a prefix.  Every
    state of the disk is kept in a [trail], since a process that dies leaves one of
    them; what a power failure does to calls that were not synced is not modelled.
    The reads of one function are one call, so nobody else writes between them: the
    lock of the store is taken to exclude that.

    ** What is shown

    Ledger: every reachable ledger is well formed (ids in place, windows unique,
    focus in range, bounded history), and each mutation is described exactly;
    undo and redo are inverse.  Layout: [partition] adds up to its total and the
    layouts tile the region, whatever the [f32] rounding does; a projection shows
    every visible window once.  Keymap, state and text: resolution is unambiguous
    for keymaps without conflicts, redraws are suppressed exactly when nothing
    drawn changes, titles fit their budget.  Snapshot: validation decides exactly
    the well-formed snapshots and the JSON schema round-trips.  Session: no run
    panics or leaves the invariant; failed events and actions roll back; turns
    fail only for an admission verdict, ticket exhaustion or a backend refusal;
    phases, tickets and revisions only advance; replay reconciles the persisted
    order; the repeat timer, the responses and the published states agree with
    the session.  Persistence: the coordinator implements a cell with the latest
    snapshot and writes it in bounded time.  Worker: capacity is never exceeded,
    no result is lost, and the fence is acknowledged only after all earlier work.
    Control: frames round-trip within their limit; a connection is bounded, never
    panics, waits only with a deadline, sends whole frames, answers each request
    once and brings each subscriber to the latest state; the server runs every
    connection as it would run alone, bounds their number, lets nothing pass a
    response barrier and drains on shutdown; the client's calls end and wait within
    bounds, and a subscription yields what the server wrote.  Bar modules: what is shown is what
    was sampled.  Start-up: the handoff is accepted exactly when it is private and
    well formed, and whatever the environment answers the daemon fails or enters its
    loop in the state its guarantees start from.  Daemon: a turn of its loop fails only for the backend, the
    children, the operating system or the listener, never for one of its own
    invariants; a live daemon remembers every connection that waits; its timer,
    its persistence and the file agree with its session; a quit reaches the
    shutdown, a shutdown the exit within [SHUTDOWN_BOUND], and the exit leaves no
    connection, job or unsaved snapshot behind.  Generation store: an operation
    moves the pointer to the generation it was asked for or not at all, and its
    answer is the truth, at every state a dying process can leave; recovery then
    answers the old generation or the new one, unless the journal itself was cut off
    while it was written, which stops the store; a collection spares what is pointed
    at, leased, or among the two newest; records and trees are read back as they were
    written, and in one spelling.

    ** Bounds and fuel

    [partition_sums_exactly] needs [(total + 1) * (length + 2) <= 2^24], which
    screens satisfy and beyond which [f32] cannot represent every total.  Loops
    over data are structural.  [from_utf8] takes the length of its input as fuel:
    each character consumes a byte.  The loops of the client take as many rounds as
    there are answers, each round taking one, and the theorems say that the rounds
    are never used up; the loops of the start-up run over the answers themselves.
    The store tries 64 random names, as the source does; the random bytes are a list.
    The worker
    thread and the reaper run between the service calls of the event loop; that
    they might also run inside one is not modelled.

    ** What is third-party

    serde_json enters as the class [Wire] (the chunks it writes, the values it
    reads) and, for the snapshot, as the ordered [Json] value it hands to the
    visitors.  The laws used are its documented behaviour: [WireText] (it writes
    UTF-8), [written_as] (a value is written as one line and read back),
    [JsonErrorsLaws] (how it classifies a writer's error).  Channels, the event
    counter and child processes in [Worker] follow the standard library and the
    kernel: bounded queues, a counter that a read resets, spawns that may fail.
    SHA-256 is the parameter [digest_hex] of the store, whose one law is that it
    writes 64 lowercase hexadecimal digits; that a digest tells contents apart is
    used nowhere.

    ** Not modelled

    The river backend and the vendored wayland library (protocol objects and
    descriptors; the session is verified against every backend instead); the
    functions that open sockets, directories and descriptors; the bar's drawing
    and the command line; of the generation store, opening it, the difference of the
    current generation, the transfer of a selected lease to a supervisor and the
    reading of /proc; of the theme, rendering, reloading, the lifecycle registry and
    the launcher.  They are listed with
    their reason in the manifest.  The session's plain getters are not modelled. *)

From Stdlib Require Import ZArith Lia Ascii String.
From stdpp Require Import prelude gmap list fin_maps sorting.
Export Stdlib.Strings.String.StringSyntax.

(** ** Results and the state-and-error monad *)

(** [std::result::Result]: success first, as in the source. *)
Inductive result (A E : Type) : Type :=
| Ok (a : A)
| Err (e : E).
Arguments Ok {A E} a.
Arguments Err {A E} e.

Definition map_err {A E F : Type} (f : E → F) (r : result A E) : result A F :=
  match r with Ok a => Ok a | Err e => Err (f e) end.

Definition is_ok {A E : Type} (r : result A E) : bool :=
  match r with Ok _ => true | Err _ => false end.

#[export] Instance result_eq_dec {A E} `{EqDecision A, EqDecision E} :
  EqDecision (result A E).
Proof. solve_decision. Defined.

(** The [?] operator on a pure result. *)
Definition rbind {A B E : Type} (r : result A E) (k : A → result B E) : result B E :=
  match r with Ok a => k a | Err e => Err e end.

Definition require {E : Type} (c : bool) (e : E) : result unit E :=
  if c then Ok tt else Err e.

Lemma rbind_Ok {A B E} (r : result A E) (k : A → result B E) (c : B) :
  rbind r k = Ok c ↔ ∃ a, r = Ok a ∧ k a = Ok c.
Proof.
  destruct r as [a|e]; cbn; split; [by eauto|by intros (? & [= ->] & ?)|done|by intros (? & ? & _)].
Qed.

Lemma require_Ok {E} (c : bool) (e : E) u : require c e = Ok u ↔ c = true.
Proof. destruct c, u; cbn; naive_solver. Qed.

Lemma ensure_Ok {A E} (c : bool) (e : E) (k : result A E) (x : A) :
  rbind (require c e) (λ _, k) = Ok x ↔ c = true ∧ k = Ok x.
Proof. destruct c; cbn; naive_solver. Qed.

Lemma rbind_unit_Ok {A E} (r : result unit E) (k : result A E) (x : A) :
  rbind r (λ _, k) = Ok x ↔ r = Ok tt ∧ k = Ok x.
Proof. destruct r as [[]|]; cbn; naive_solver. Qed.

(** A [&mut self] method returning [Result<A, E>]: it maps the state to the
    result together with the state it leaves behind.  The state survives an
    error, as it does in Rust: what was assigned before the early return
    stays assigned. *)
Definition stm (S E A : Type) : Type := S → result A E * S.

#[export] Instance stm_ret {S E} : MRet (stm S E) := λ A a s, (Ok a, s).

#[export] Instance stm_bind {S E} : MBind (stm S E) := λ A B k m s,
  match m s with
  | (Ok a, s') => k a s'
  | (Err e, s') => (Err e, s')
  end.

Definition throw {S E A} (e : E) : stm S E A := λ s, (Err e, s).
Definition getS {S E} : stm S E S := λ s, (Ok s, s).
Definition gets {S E A} (f : S → A) : stm S E A := λ s, (Ok (f s), s).
Definition modify {S E} (f : S → S) : stm S E unit := λ s, (Ok tt, f s).

(** [Option::or] *)
Definition option_or {A} (o d : option A) : option A := match o with Some _ => o | None => d end.

(** ** Record update

    [set field f r] replaces one field of a record.  [Settable] lists the
    constructor and the fields once; the setter of each field is computed
    from it by abstracting the projection. *)
Class Settable (T : Type) := eta : T → T.
Arguments eta : clear implicits.

Class Setter {R F : Type} (proj : R → F) := set : (F → F) → R → R.
Arguments set {R F} proj {_} f r.

Ltac solve_setter :=
  match goal with
  | |- @Setter ?R ?F ?proj =>
      let inst := constr:(ltac:(typeclasses eauto) : Settable R) in
      let e := eval unfold eta in (@eta R inst) in
      let e := eval hnf in e in
      let p := eval pattern proj in e in
      match p with
      | ?g _ =>
          let t := constr:(fun (f : F → F) (r : R) => g (fun r' => f (proj r')) r) in
          let t := eval cbv beta in t in
          exact t
      end
  end.
#[export] Hint Extern 1 (Setter _) => solve_setter : typeclass_instances.

Declare Scope realm_scope.
Delimit Scope realm_scope with realm.
Notation "r <| p := v |>" := (set p (λ _, v) r)
  (at level 12, left associativity, p at level 11, v at level 200) : realm_scope.
Notation "'try' x ':=' m 'in' k" := (rbind m (λ x, k))
  (at level 10, x name, m at level 150, k at level 200) : realm_scope.
Notation "'ensure' c 'else' e ';' k" := (rbind (require c e) (λ _, k))
  (at level 10, c at level 150, e at level 150, k at level 200) : realm_scope.
Open Scope realm_scope.

(** ** Machine integers

    An integer keeps its Rust width: the unsigned types are [N] with the
    checked and saturating operations the source calls, [i32] is a [Z] whose
    additions wrap as a release build's do. *)
Definition u32_max : N := 4294967295.
Definition u64_max : N := 18446744073709551615.

Definition u64_checked_add (a b : N) : option N :=
  if (a + b <=? u64_max)%N then Some (a + b)%N else None.

Definition u64_saturating_add (a b : N) : N := N.min (a + b) u64_max.

Definition i32_min : Z := -2147483648.
Definition i32_max : Z := 2147483647.
Definition in_i32 (z : Z) : Prop := (i32_min <= z <= i32_max)%Z.

Definition wrap_i32 (z : Z) : Z :=
  ((z + 2147483648) mod 4294967296 - 2147483648)%Z.

Definition i32_add (a b : Z) : Z := wrap_i32 (a + b).
Definition i32_sub (a b : Z) : Z := wrap_i32 (a - b).

Lemma wrap_i32_id (z : Z) : in_i32 z → wrap_i32 z = z.
Proof.
  unfold in_i32, wrap_i32, i32_min, i32_max. intros [? ?].
  rewrite Z.mod_small; lia.
Qed.

Lemma wrap_i32_range (z : Z) : in_i32 (wrap_i32 z).
Proof.
  unfold in_i32, wrap_i32, i32_min, i32_max.
  pose proof (Z.mod_pos_bound (z + 2147483648) 4294967296). lia.
Qed.

Lemma u64_checked_add_Some (a b c : N) :
  u64_checked_add a b = Some c ↔ c = (a + b)%N ∧ (a + b <= u64_max)%N.
Proof.
  unfold u64_checked_add. destruct (N.leb_spec (a + b) u64_max);
    split; intros; destruct_and?; simplify_eq; auto; lia.
Qed.

(** ** Strings

    A Rust [String] or [&str] is a sequence of Unicode scalar values; its
    [len] is the number of bytes of its UTF-8 encoding. *)
Abbreviation rstring := (list N) (only parsing).

Definition lit (s : String.string) : rstring :=
  N_of_ascii <$> list_ascii_of_string s.
Arguments lit s%_string_scope.

(** The decimal rendering of an unsigned integer ([{}] and [to_string]). *)
Fixpoint uint_chars (d : Decimal.uint) : rstring :=
  match d with
  | Decimal.Nil => []
  | Decimal.D0 d => 48%N :: uint_chars d | Decimal.D1 d => 49%N :: uint_chars d
  | Decimal.D2 d => 50%N :: uint_chars d | Decimal.D3 d => 51%N :: uint_chars d
  | Decimal.D4 d => 52%N :: uint_chars d | Decimal.D5 d => 53%N :: uint_chars d
  | Decimal.D6 d => 54%N :: uint_chars d | Decimal.D7 d => 55%N :: uint_chars d
  | Decimal.D8 d => 56%N :: uint_chars d | Decimal.D9 d => 57%N :: uint_chars d
  end.

Definition decimal (n : N) : rstring := uint_chars (N.to_uint n).

Definition len_utf8 (c : N) : nat :=
  if (c <? 128)%N then 1
  else if (c <? 2048)%N then 2
  else if (c <? 65536)%N then 3 else 4.

(** [char::encode_utf8]. *)
Definition encode_utf8 (c : N) : list N :=
  if (c <? 128)%N then [c]
  else if (c <? 2048)%N then [192 + c / 64; 128 + c mod 64]%N
  else if (c <? 65536)%N then
    [224 + c / 4096; 128 + (c / 64) mod 64; 128 + c mod 64]%N
  else [240 + c / 262144; 128 + (c / 4096) mod 64;
        128 + (c / 64) mod 64; 128 + c mod 64]%N.

(** [str::as_bytes] and [str::len]. *)
Definition str_bytes (s : rstring) : list N := s ≫= encode_utf8.
Definition str_len (s : rstring) : nat := sum_list_with len_utf8 s.

Lemma length_encode_utf8 (c : N) : length (encode_utf8 c) = len_utf8 c.
Proof. unfold encode_utf8, len_utf8. by repeat case_match. Qed.

Lemma length_str_bytes (s : rstring) : length (str_bytes s) = str_len s.
Proof.
  unfold str_bytes, str_len. induction s as [|c s IH]; [done|].
  cbn [mbind list_bind sum_list_with]. rewrite length_app, length_encode_utf8. lia.
Qed.

Lemma len_utf8_pos (c : N) : 1 ≤ len_utf8 c ≤ 4.
Proof. unfold len_utf8. repeat case_match; lia. Qed.

Lemma str_len_app (s t : rstring) : str_len (s ++ t) = str_len s + str_len t.
Proof. apply sum_list_with_app. Qed.

(** The hint database of the development: the preservation and preservation-like
    lemmas every component adds its own to. *)
Create HintDb realm.

(** ** Vectors

    [Vec::insert], [Vec::remove], [Iterator::position] and [slice::swap].
    The first two and the last panic out of range; every call in the source
    is in range, and the component invariants prove so where it matters. *)
Section vec.
Context {A : Type}.
Implicit Types (l : list A) (x y : A).

Definition vec_insert (at_ : nat) (x : A) (l : list A) : list A :=
  take at_ l ++ x :: drop at_ l.

Definition vec_remove (at_ : nat) (l : list A) : list A :=
  take at_ l ++ drop (S at_) l.

Definition vec_swap (i j : nat) (l : list A) : list A :=
  match l !! i, l !! j with
  | Some x, Some y => <[i := y]> (<[j := x]> l)
  | _, _ => l
  end.

Definition position `{EqDecision A} (x : A) (l : list A) : option nat :=
  fst <$> list_find (x =.) l.

Lemma vec_insert_Permutation (at_ : nat) (x : A) l : vec_insert at_ x l ≡ₚ x :: l.
Proof.
  unfold vec_insert. rewrite <-Permutation_middle. by rewrite take_drop.
Qed.

Lemma vec_remove_delete (at_ : nat) l : vec_remove at_ l = delete at_ l.
Proof. symmetry. apply delete_take_drop. Qed.

Lemma vec_remove_Permutation (at_ : nat) (x : A) l :
  l !! at_ = Some x → l ≡ₚ x :: vec_remove at_ l.
Proof. intros. rewrite vec_remove_delete. by apply delete_Permutation. Qed.

Lemma length_vec_insert (at_ : nat) (x : A) l :
  length (vec_insert at_ x l) = S (length l).
Proof. apply (Permutation_length (vec_insert_Permutation at_ x l)). Qed.

Lemma length_vec_remove (at_ : nat) l :
  at_ < length l → length (vec_remove at_ l) = length l - 1.
Proof. intros. rewrite vec_remove_delete. apply length_delete. by apply lookup_lt_is_Some. Qed.

Lemma vec_insert_lookup (at_ : nat) (x : A) l :
  at_ ≤ length l → vec_insert at_ x l !! at_ = Some x.
Proof.
  intros. unfold vec_insert. rewrite lookup_app_r; rewrite length_take; [|lia].
  by replace (at_ - at_ `min` length l) with 0 by lia.
Qed.

Lemma vec_swap_Permutation i j l : vec_swap i j l ≡ₚ l.
Proof.
  unfold vec_swap. destruct (l !! i) as [x|] eqn:Hi; [|done].
  destruct (l !! j) as [y|] eqn:Hj; [|done].
  apply Permutation_inj. rewrite !length_insert. split; [done|].
  exists (λ k, if decide (k = i) then j else if decide (k = j) then i else k).
  split.
  - intros a b. repeat case_decide; naive_solver.
  - intros k. cbn beta. pose proof (lookup_lt_Some _ _ _ Hi). pose proof (lookup_lt_Some _ _ _ Hj).
    destruct (decide (k = i)) as [->|].
    + rewrite list_lookup_insert_eq by (by rewrite length_insert). done.
    + rewrite list_lookup_insert_ne by done. destruct (decide (k = j)) as [->|].
      * by rewrite list_lookup_insert_eq by done.
      * by rewrite list_lookup_insert_ne by done.
Qed.

Lemma length_vec_swap i j l : length (vec_swap i j l) = length l.
Proof. apply Permutation_length, vec_swap_Permutation. Qed.

Lemma vec_swap_lookup_r i j l :
  i < length l → j < length l → vec_swap i j l !! j = l !! i.
Proof.
  intros Hi Hj. unfold vec_swap.
  destruct (lookup_lt_is_Some_2 l i Hi) as [x Hx].
  destruct (lookup_lt_is_Some_2 l j Hj) as [y Hy]. rewrite Hx, Hy.
  destruct (decide (i = j)) as [->|].
  - rewrite list_lookup_insert_eq by (by rewrite length_insert). congruence.
  - rewrite list_lookup_insert_ne by done. by rewrite list_lookup_insert_eq.
Qed.

Context `{EqDecision A}.

Lemma position_Some (x : A) l i : position x l = Some i → l !! i = Some x.
Proof.
  unfold position. intros ([i' y] & Hf & ->)%fmap_Some. simpl in *.
  apply list_find_Some in Hf as (Hl & -> & _). done.
Qed.

Lemma position_lt (x : A) l i : position x l = Some i → i < length l.
Proof. intros H%position_Some. by apply lookup_lt_Some in H. Qed.

Lemma position_is_Some (x : A) l : x ∈ l → is_Some (position x l).
Proof.
  intros Hin. unfold position. apply fmap_is_Some.
  by apply (list_find_elem_of _ _ x Hin).
Qed.

Lemma position_None (x : A) l : position x l = None ↔ x ∉ l.
Proof.
  split.
  - intros Hn Hin. destruct (position_is_Some x l Hin). congruence.
  - intros Hn. destruct (position x l) as [i|] eqn:E; [|done].
    apply position_Some, list_elem_of_lookup_2 in E. done.
Qed.

Lemma position_NoDup (x : A) l i :
  NoDup l → l !! i = Some x → position x l = Some i.
Proof.
  intros Hnd Hi. destruct (position_is_Some x l) as [j Hj].
  { by eapply list_elem_of_lookup_2. }
  rewrite Hj. f_equal. apply position_Some in Hj. by eapply NoDup_lookup.
Qed.
End vec.
