(* ===== verification/Float.v ===== *)
(** * IEEE 754 arithmetic as the layout code uses it

    [f32] and [f64] are the executable [spec_float] of the Standard Library at
    the two precisions.  The arithmetic operators are the library's correctly
    rounded ones; this file adds the methods of the Rust primitive types the
    source calls ([max], [clamp], [floor], [ceil], [as i32], [as usize] and
    integer-to-float casts). *)

From Stdlib Require Import ZArith Lia SpecFloat.
From stdpp Require Import prelude.
From S2P Require Import Prelude.

Section float.
Context (prec emax : Z).

(** An [as] cast from an integer rounds to nearest, ties to even. *)
Definition float_of_Z (z : Z) : spec_float := binary_normalize prec emax z 0 false.

(** [f.floor()], [f.ceil()]: exact on integers, infinities and NaN. *)
Definition float_floor (x : spec_float) : spec_float :=
  match x with
  | S754_finite s m e =>
      if (0 <=? e)%Z then x
      else binary_normalize prec emax (Z.shiftr (cond_Zopp s (Zpos m)) (- e)) 0 s
  | _ => x
  end.

Definition float_ceil (x : spec_float) : spec_float := SFopp (float_floor (SFopp x)).

(** Truncation of a finite value to an integer. *)
Definition float_trunc (s : bool) (m : positive) (e : Z) : Z :=
  cond_Zopp s (if (0 <=? e)%Z then Z.shiftl (Zpos m) e else Z.shiftr (Zpos m) (- e)).

(** [f as T] saturates at the bounds of [T] and sends NaN to zero. *)
Definition float_as_int (lo hi : Z) (x : spec_float) : Z :=
  match x with
  | S754_nan | S754_zero _ => 0
  | S754_infinity s => if s then lo else hi
  | S754_finite s m e => Z.max lo (Z.min hi (float_trunc s m e))
  end.

(** [a.max(b)]: the other operand when one is NaN. *)
Definition float_max (a b : spec_float) : spec_float :=
  match SFcompare a b with
  | Some Lt => b
  | Some _ => a
  | None => match a with S754_nan => b | _ => a end
  end.

(** [x.clamp(lo, hi)]: a NaN stays a NaN. *)
Definition float_clamp (lo hi x : spec_float) : spec_float :=
  let x := if SFltb x lo then lo else x in
  if SFltb hi x then hi else x.
End float.

(** ** [f32] *)
Definition f32_of_Z := float_of_Z 24 128.
Definition f32_add := SFadd 24 128.
Definition f32_sub := SFsub 24 128.
Definition f32_mul := SFmul 24 128.
Definition f32_div := SFdiv 24 128.
Definition f32_floor := float_floor 24 128.
Definition f32_as_i32 := float_as_int i32_min i32_max.
Definition f32_zero : spec_float := S754_zero false.
Definition f32_one : spec_float := f32_of_Z 1.

(** The literal [n.0 / d.0], or the decimal literal whose exact value is
    [n / d]: one correctly rounded division of two exact integers. *)
Definition f32_ratio (n d : Z) : spec_float := f32_div (f32_of_Z n) (f32_of_Z d).

(** ** [f64] *)
Definition f64_of_Z := float_of_Z 53 1024.
Definition f64_sqrt := SFsqrt 53 1024.
Definition f64_ceil := float_ceil 53 1024.
Definition f64_one : spec_float := f64_of_Z 1.
Definition f64_as_usize := float_as_int 0 (2 ^ 64 - 1).

Lemma float_as_int_range (lo hi : Z) (x : spec_float) :
  (lo <= 0 <= hi)%Z → (lo <= float_as_int lo hi x <= hi)%Z.
Proof. intros. destruct x as [|[]| |]; simpl; lia. Qed.

Lemma f32_as_i32_range (x : spec_float) : in_i32 (f32_as_i32 x).
Proof. apply float_as_int_range. unfold i32_min, i32_max. lia. Qed.
