(* ===== verification/FloatError.v ===== *)
(** * Rounding error of the [f32] operators

    What the partition proof needs of IEEE 754: in the normal range a correctly
    rounded product, quotient or sum of non-negative single-precision numbers is
    within one part in [2^24] of the exact value.  Everything is stated over the
    integers, with powers of two cleared, so no real numbers are involved. *)

From Stdlib Require Import ZArith Lia Znumtheory SpecFloat.
From stdpp Require Import prelude.
From S2P Require Import Prelude Float.

Local Open Scope Z_scope.

Abbreviation U := 16777216 (only parsing).

Lemma Z_pow2_pos k : 0 <= k → 0 < 2 ^ k.
Proof. intros. by apply Z.pow_pos_nonneg. Qed.

Lemma Z_pow2_le a b : 0 <= a <= b → 2 ^ a <= 2 ^ b.
Proof. intros. apply Z.pow_le_mono_r; lia. Qed.

Lemma Z_pow2_add a b : 0 <= a → 0 <= b → 2 ^ (a + b) = 2 ^ a * 2 ^ b.
Proof. intros. by apply Z.pow_add_r. Qed.

(** ** Digits *)

Lemma digits2_pos_bounds (p : positive) :
  2 ^ (Zpos (digits2_pos p) - 1) <= Zpos p < 2 ^ Zpos (digits2_pos p).
Proof.
  assert (∀ q d : positive, 2 ^ (Zpos d - 1) <= Zpos q < 2 ^ Zpos d →
    2 ^ (Zpos (Pos.succ d) - 1) <= 2 * Zpos q ∧ 2 * Zpos q + 1 < 2 ^ Zpos (Pos.succ d)) as Hs.
  { intros q d H. rewrite Pos2Z.inj_succ. unfold Z.succ.
    replace (Zpos d + 1 - 1) with ((Zpos d - 1) + 1) by lia.
    rewrite !(Z.pow_add_r 2 _ 1) by lia. lia. }
  induction p as [p IH|p IH|]; cbn [digits2_pos].
  - specialize (Hs _ _ IH). lia.
  - specialize (Hs _ _ IH). lia.
  - cbn. lia.
Qed.

Lemma Zdigits2_bounds (z : Z) :
  0 < z → 0 < Zdigits2 z ∧ 2 ^ (Zdigits2 z - 1) <= z < 2 ^ Zdigits2 z.
Proof. destruct z as [|p|p]; try lia. intros _. split; [done|]. apply digits2_pos_bounds. Qed.

Lemma Zdigits2_unique (z d : Z) : 0 < d → 2 ^ (d - 1) <= z < 2 ^ d → Zdigits2 z = d.
Proof.
  intros Hd [Hl Hu].
  assert (0 < z) as Hz by (pose proof (Z_pow2_pos (d - 1)); lia).
  destruct (Zdigits2_bounds z Hz) as (Hp & Hl' & Hu').
  assert (2 ^ (d - 1) < 2 ^ Zdigits2 z) as H1 by lia.
  assert (2 ^ (Zdigits2 z - 1) < 2 ^ d) as H2 by lia.
  apply Z.pow_lt_mono_r_iff in H1; [|lia..]. apply Z.pow_lt_mono_r_iff in H2; lia.
Qed.

Lemma Zdigits2_le (z d : Z) : 0 < z → 0 <= d → z < 2 ^ d → Zdigits2 z <= d.
Proof.
  intros Hz Hd Hu. destruct (Zdigits2_bounds z Hz) as (Hp & Hl & _).
  assert (2 ^ (Zdigits2 z - 1) < 2 ^ d) as H by lia. apply Z.pow_lt_mono_r_iff in H; lia.
Qed.

Lemma Zdigits2_ge (z d : Z) : 0 < z → 0 <= d → 2 ^ d <= z → d < Zdigits2 z.
Proof.
  intros Hz Hd Hl. destruct (Zdigits2_bounds z Hz) as (Hp & _ & Hu).
  apply (Z.pow_lt_mono_r_iff 2); lia.
Qed.

Lemma Zdigits2_shift (z k : Z) : 0 < z → 0 <= k → Zdigits2 (z * 2 ^ k) = Zdigits2 z + k.
Proof.
  intros Hz Hk. destruct (Zdigits2_bounds z Hz) as (Hp & Hl & Hu).
  pose proof (Z_pow2_pos k Hk).
  apply Zdigits2_unique; [lia|].
  replace (Zdigits2 z + k - 1) with ((Zdigits2 z - 1) + k) by lia.
  rewrite !Z_pow2_add by lia. nia.
Qed.

(** ** The shift loop *)

Lemma iter_pos_iter {A} (f : A → A) (n : positive) (x : A) :
  SpecFloat.iter_pos f n x = Nat.iter (Pos.to_nat n) f x.
Proof.
  revert x. induction n as [n IH|n IH|]; intros x; cbn [SpecFloat.iter_pos].
  - rewrite !IH. rewrite <-Nat.iter_add. replace (f x) with (Nat.iter 1 f x) by done.
    rewrite <-Nat.iter_add. f_equal. lia.
  - rewrite !IH. rewrite <-Nat.iter_add. f_equal. lia.
  - done.
Qed.

Section rounding.
(** The exact value being rounded is [num / den] in units of the exponent. *)
Context (num den : Z) (Hden : 0 < den).

Definition bit (b : bool) : Z := if b then 1 else 0.

(** After [j] one-bit shifts the record brackets the value: twice the mantissa
    plus the round bit is its integer part in half units, the sticky bit says
    whether something is left. *)
Definition rec_ok (j : Z) (mrs : shr_record) : Prop :=
  let c := 2 * shr_m mrs + bit (shr_r mrs) in
  0 <= shr_m mrs
  ∧ 2 ^ j * c * den <= 2 * num < 2 ^ j * (c + 1) * den
  ∧ (shr_s mrs = false → 2 * num = 2 ^ j * c * den).

Lemma shr_1_ok j mrs : 0 <= j → rec_ok j mrs → rec_ok (j + 1) (shr_1 mrs)
  ∧ shr_m (shr_1 mrs) = shr_m mrs / 2.
Proof.
  intros Hj (Hm & [Hl Hu] & Hs). destruct mrs as [m r s]. cbn [shr_m shr_r shr_s] in *.
  assert (shr_1 (Build_shr_record m r s)
    = Build_shr_record (m / 2) (Z.odd m) (r || s)) as ->.
  { destruct m as [|[p|p|]|p]; try lia; cbn [shr_1]; f_equal; try done;
      symmetry; [change (p~1)%positive with (2 * p + 1)%positive|
                 change (p~0)%positive with (2 * p)%positive];
      rewrite ?Pos2Z.inj_add, ?Pos2Z.inj_mul.
    - replace (2 * Zpos p + 1) with (1 + Zpos p * 2) by lia. by rewrite Z.div_add by lia.
    - rewrite Z.mul_comm. by apply Z.div_mul. }
  split; [|done]. unfold rec_ok. cbn [shr_m shr_r shr_s].
  assert (2 * (m / 2) + bit (Z.odd m) = m) as ->.
  { pose proof (Z.div2_odd m) as E. rewrite Z.div2_div in E. unfold bit, Z.b2z in *.
    destruct (Z.odd m); lia. }
  pose proof (Z_pow2_pos j Hj). rewrite Z.pow_add_r by lia. change (2 ^ 1) with 2.
  split; [apply Z.div_pos; lia|].
  destruct r, s; cbn [bit orb] in *; (split; [nia|]); intros; try discriminate.
  rewrite Hs by done. ring.
Qed.

Lemma shr_iter_ok (n : nat) mrs :
  rec_ok 0 mrs →
  let mrs' := Nat.iter n shr_1 mrs in
  rec_ok (Z.of_nat n) mrs' ∧ shr_m mrs' = shr_m mrs / 2 ^ Z.of_nat n.
Proof.
  intros H0 mrs'. subst mrs'. induction n as [|n [IH IHm]].
  - cbn. by rewrite Z.div_1_r.
  - rewrite Nat2Z.inj_succ. unfold Z.succ.
    change (Nat.iter (S n) shr_1 mrs) with (shr_1 (Nat.iter n shr_1 mrs)).
    destruct (shr_1_ok (Z.of_nat n) _ ltac:(lia) IH) as [H1 Hm].
    split; [done|]. rewrite Hm, IHm. rewrite Z.pow_add_r by lia.
    rewrite Z.div_div; [done| |lia]. pose proof (Z_pow2_pos (Z.of_nat n)). lia.
Qed.

(** Rounding to nearest errs by at most half a unit. *)
Lemma round_ok j mrs :
  0 <= j → rec_ok j mrs →
  let m' := round_nearest_even (shr_m mrs) (loc_of_shr_record mrs) in
  (m' = shr_m mrs ∨ m' = shr_m mrs + 1)
  ∧ 2 * (m' * 2 ^ j * den) <= 2 * num + 2 ^ j * den
  ∧ 2 * num <= 2 * (m' * 2 ^ j * den) + 2 ^ j * den.
Proof.
  intros Hj (Hm & [Hl Hu] & Hs). destruct mrs as [m r s]. cbn [shr_m shr_r shr_s] in *.
  pose proof (Z_pow2_pos j Hj).
  assert (0 < 2 ^ j * den) by nia.
  destruct r, s; cbn [loc_of_shr_record round_nearest_even bit] in *.
  - split; [by right|]. nia.
  - specialize (Hs eq_refl). destruct (Z.even m); [split; [by left|]|split; [by right|]]; nia.
  - split; [by left|]. nia.
  - specialize (Hs eq_refl). split; [by left|]. nia.
Qed.

(** The two outcomes of [binary_round_aux] in the normal range: the rounded
    mantissa fits, or it is [2^24] and is renormalised by an exact shift. *)
Lemma renormalise_ok (m' e' : Z) :
  0 < m' <= U → -149 <= e' <= 103 → (m' < 8388608 → -149 <= e') →
  -149 <= Zdigits2 m' + e' - 24 →
  ∃ m e,
    (let '(mrs, e2) := shr_fexp 24 128 m' e' loc_Exact in
     match shr_m mrs with
     | Z0 => S754_zero false
     | Zpos m => if (e2 <=? 128 - 24)%Z then S754_finite false m e2 else S754_infinity false
     | Zneg _ => S754_nan
     end) = S754_finite false m e
    ∧ e' <= e ∧ Zpos m * 2 ^ (e - e') = m' ∧ Zdigits2 (Zpos m) + e = Zdigits2 m' + e'
    ∧ Zpos m < U.
Proof.
  intros Hm He _ HD. unfold shr_fexp, fexp, emin.
  destruct (Zdigits2_bounds m') as (Hd & Hl & Hu); [lia|].
  destruct (Z.eq_dec m' U) as [->|Hne].
  - replace (Z.max (Zdigits2 U + e' - 24) (3 - 128 - 24) - e') with 1
      by (cbn in *; lia).
    exists 8388608%positive, (e' + 1). cbn [shr shr_record_of_loc SpecFloat.iter_pos shr_1 shr_m orb].
    rewrite (proj2 (Z.leb_le _ _)) by lia. split; [done|].
    replace (e' + 1 - e') with 1 by lia. split_and!; [lia|done| |lia].
    change (Zdigits2 8388608) with 24. change (Zdigits2 U) with 25. lia.
  - assert (Zdigits2 m' <= 24) as Hd24 by (apply Zdigits2_le; lia).
    assert (Z.max (Zdigits2 m' + e' - 24) (3 - 128 - 24) - e' <= 0) as Hn by lia.
    destruct m' as [|m|]; try lia. exists m, e'.
    set (n := Z.max _ _ - e') in *. destruct n; try lia; cbn [shr shr_record_of_loc shr_m];
      rewrite (proj2 (Z.leb_le _ _)) by lia; rewrite Z.sub_diag, Z.pow_0_r, Z.mul_1_r;
      split_and!; done || lia.
Qed.

Lemma binary_round_aux_ok mx ex lx :
  0 < mx → rec_ok 0 (shr_record_of_loc mx lx) →
  -125 <= Zdigits2 mx + ex <= 100 → (lx = loc_Exact ∨ 24 <= Zdigits2 mx) →
  ∃ m e, binary_round_aux 24 128 false mx ex lx = S754_finite false m e
    ∧ ex <= e
    ∧ U * (Zpos m * 2 ^ (e - ex) * den) <= (U + 1) * num
    ∧ (U - 1) * num <= U * (Zpos m * 2 ^ (e - ex) * den)
    ∧ Zdigits2 mx + ex <= Zdigits2 (Zpos m) + e <= Zdigits2 mx + ex + 1
    ∧ Zpos m < U.
Proof.
  intros Hmx H0 HD Hlx. destruct (Zdigits2_bounds mx Hmx) as (Hd & Hl & Hu).
  unfold binary_round_aux, shr_fexp at 1, fexp, emin.
  replace (Z.max (Zdigits2 mx + ex - 24) (3 - 128 - 24) - ex) with (Zdigits2 mx - 24) by lia.
  assert (∃ j mrs', shr (shr_record_of_loc mx lx) ex (Zdigits2 mx - 24) = (mrs', ex + j)
    ∧ 0 <= j ∧ rec_ok j mrs' ∧ shr_m mrs' = mx / 2 ^ j
    ∧ (24 <= Zdigits2 mx ∧ j = Zdigits2 mx - 24
       ∨ Zdigits2 mx < 24 ∧ j = 0 ∧ mrs' = Build_shr_record mx false false))
    as (j & mrs' & -> & Hj & Hok & Hm & Hcase).
  { assert (shr_m (shr_record_of_loc mx lx) = mx) as Hmm by (destruct lx as [|[]]; done).
    destruct (Z_lt_dec 24 (Zdigits2 mx)) as [Hlt|Hge].
    - destruct (Zdigits2 mx - 24) as [|n|] eqn:En; try lia.
      destruct (shr_iter_ok (Pos.to_nat n) _ H0) as [Hr Hmr].
      rewrite positive_nat_Z in *. rewrite Hmm in Hmr.
      exists (Zpos n), (Nat.iter (Pos.to_nat n) shr_1 (shr_record_of_loc mx lx)).
      cbn [shr]. rewrite iter_pos_iter. split_and!; try done. left. lia.
    - exists 0, (shr_record_of_loc mx lx).
      assert (shr (shr_record_of_loc mx lx) ex (Zdigits2 mx - 24)
        = (shr_record_of_loc mx lx, ex + 0)) as ->.
      { rewrite Z.add_0_r. destruct (Zdigits2 mx - 24) eqn:E; [done|lia|done]. }
      rewrite Hmm, Z.div_1_r. split_and!; try done.
      destruct (Z.eq_dec (Zdigits2 mx) 24); [left; lia|right].
      destruct Hlx as [->|]; [|lia]. split_and!; [lia|done|done]. }
  pose proof (round_ok j mrs' Hj Hok) as Hround. cbv zeta in Hround.
  set (m' := round_nearest_even _ _) in *. destruct Hround as (Hm' & Hr1 & Hr2).
  pose proof (Z_pow2_pos j Hj) as Hpj.
  assert (0 < m' <= U ∧ Zdigits2 mx + ex <= Zdigits2 m' + (ex + j) <= Zdigits2 mx + ex + 1
    ∧ U * (m' * 2 ^ j * den) <= (U + 1) * num ∧ (U - 1) * num <= U * (m' * 2 ^ j * den))
    as (Hb & Hdig & Hup & Hlow).
  { destruct Hcase as [[Hge ->]|(Hlt & -> & ->)].
    - assert (8388608 <= shr_m mrs' < U) as Hm0.
      { rewrite Hm. split.
        - apply Z.div_le_lower_bound; [lia|].
          replace (Zdigits2 mx - 1) with ((Zdigits2 mx - 24) + 23) in Hl by lia.
          rewrite Z_pow2_add in Hl by lia. change (2 ^ 23) with 8388608 in Hl. lia.
        - apply Z.div_lt_upper_bound; [lia|].
          replace (Zdigits2 mx) with ((Zdigits2 mx - 24) + 24) in Hu at 1 by lia.
          rewrite Z_pow2_add in Hu by lia. change (2 ^ 24) with U in Hu. lia. }
      destruct Hok as (_ & [Hlow _] & _).
      assert (8388608 * 2 ^ (Zdigits2 mx - 24) * den <= num) as Hnum.
      { destruct (shr_r mrs'); cbn [bit] in Hlow; nia. }
      split; [lia|]. split.
      + destruct (Z.eq_dec m' U) as [E|].
        * rewrite E. change (Zdigits2 U) with 25. lia.
        * rewrite (Zdigits2_unique m' 24); [lia|lia|].
          change (2 ^ (24 - 1)) with 8388608. change (2 ^ 24) with U. lia.
      + nia.
    - assert (m' = mx) as -> by done. 
      assert (mx < 2 ^ 24) as Hmx24.
      { eapply Z.lt_le_trans; [exact Hu|]. apply Z_pow2_le. lia. }
      change (2 ^ 24) with U in Hmx24.
      destruct Hok as (_ & _ & Hs). specialize (Hs eq_refl). cbn [bit shr_m shr_r] in Hs.
      change (2 ^ 0) with 1 in *. lia. }
  destruct (renormalise_ok m' (ex + j)) as (m & e & Hr & He & Hme & Hdm & Hmu); [done|lia|lia|lia|].
  exists m, e. split.
  { fold m'. destruct (shr_fexp 24 128 m' (ex + j) loc_Exact) as [mrs2 e2]. exact Hr. }
  assert (Zpos m * 2 ^ (e - ex) = m' * 2 ^ j) as Hval.
  { rewrite <-Hme. rewrite <-Z.mul_assoc, <-Z_pow2_add by lia. do 2 f_equal. lia. }
  rewrite Hval. split_and!; lia.
Qed.
End rounding.

(** A mantissa of at most 24 digits is not rounded at all. *)
Lemma binary_round_aux_exact (m : positive) ex :
  Zdigits2 (Zpos m) <= 24 → -125 <= Zdigits2 (Zpos m) + ex <= 100 → -149 <= ex →
  binary_round_aux 24 128 false (Zpos m) ex loc_Exact = S754_finite false m ex.
Proof.
  intros Hd HD He. unfold binary_round_aux, shr_fexp, fexp, emin.
  destruct (Zdigits2_bounds (Zpos m)) as (Hp & _); [lia|].
  assert (∀ mrs n, n <= 0 → shr mrs ex n = (mrs, ex)) as Hshr.
  { intros mrs [|n|n] Hn; [done|lia|done]. }
  rewrite Hshr by lia. cbn [shr_record_of_loc loc_of_shr_record round_nearest_even shr_m].
  rewrite Hshr by lia. cbn [shr_m].
  by rewrite (proj2 (Z.leb_le _ _)) by lia.
Qed.

(** ** The operators

    [V m e] is the value of a non-negative number in units of the smallest
    positive one, [dexp m e] the position of its leading digit. *)
Definition V (m e : Z) : Z := m * 2 ^ (e + 149).
Definition K : Z := 2 ^ 149.
Definition dexp (m e : Z) : Z := Zdigits2 m + e.

Lemma K_pos : 0 < K.
Proof. by apply Z_pow2_pos. Qed.

Lemma V_pos m e : 0 < m → -149 <= e → 0 < V m e.
Proof. intros. unfold V. apply Z.mul_pos_pos; [done|]. apply Z_pow2_pos. lia. Qed.

Lemma V_shift m e k : 0 <= k → -149 <= e - k → V (m * 2 ^ k) (e - k) = V m e.
Proof.
  intros. unfold V. rewrite <-Z.mul_assoc, <-Z_pow2_add by lia. do 2 f_equal. lia.
Qed.

Lemma shl_align_pos (m : positive) ex ex' :
  Zpos (fst (shl_align m ex ex')) = Zpos m * 2 ^ Z.max 0 (ex - ex')
  ∧ snd (shl_align m ex ex') = ex - Z.max 0 (ex - ex').
Proof.
  unfold shl_align. destruct (ex' - ex) as [|d|d] eqn:E; cbn [fst snd].
  - rewrite Z.max_l by lia. lia.
  - rewrite Z.max_l by lia. lia.
  - rewrite Z.max_r by lia. replace (ex - ex') with (Zpos d) by lia.
    split; [|lia]. clear E. revert m. induction d as [|d IH] using Pos.peano_ind; intros m.
    + cbn. lia.
    + rewrite Pos.iter_succ_r, IH, Pos2Z.inj_succ, Z.pow_succ_r by lia.
      change (Zpos m~0) with (2 * Zpos m). lia.
Qed.

(** Rounding an exact integer multiple of a power of two. *)
Lemma binary_round_ok (p : positive) ex :
  -149 <= ex → -125 <= dexp (Zpos p) ex <= 100 →
  ∃ m e, binary_round 24 128 false p ex = S754_finite false m e
    ∧ -149 <= e ∧ Zpos m < U
    ∧ U * V (Zpos m) e <= (U + 1) * V (Zpos p) ex
    ∧ (U - 1) * V (Zpos p) ex <= U * V (Zpos m) e
    ∧ dexp (Zpos p) ex <= dexp (Zpos m) e <= dexp (Zpos p) ex + 1
    ∧ (Zpos p < U → V (Zpos m) e = V (Zpos p) ex ∧ (0 <= ex → e <= ex)).
Proof.
  intros He HD. unfold binary_round.
  destruct (Zdigits2_bounds (Zpos p)) as (Hd & Hl & Hu); [lia|]. unfold dexp in *.
  change (Zpos (digits2_pos p)) with (Zdigits2 (Zpos p)).
  destruct (shl_align_pos p ex (fexp 24 128 (Zdigits2 (Zpos p) + ex))) as [Hz Hez].
  destruct (shl_align _ _ _) as [mz ez]. cbn [fst snd] in *.
  unfold fexp, emin in Hz, Hez. set (k := Z.max 0 _) in *.
  assert (0 <= k) as Hk by lia.
  assert (Zdigits2 (Zpos mz) = Zdigits2 (Zpos p) + k) as Hdz by (rewrite Hz; by apply Zdigits2_shift).
  assert (V (Zpos mz) ez = V (Zpos p) ex) as HV.
  { rewrite Hz, Hez. apply V_shift; lia. }
  destruct (Z_le_dec (Zdigits2 (Zpos p)) 24) as [Hle|Hgt].
  - rewrite binary_round_aux_exact by lia. exists mz, ez.
    assert (Zpos mz < U).
    { destruct (Zdigits2_bounds (Zpos mz)) as (_ & _ & Hmu); [lia|].
      eapply Z.lt_le_trans; [exact Hmu|]. change U with (2 ^ 24). apply Z_pow2_le. lia. }
    pose proof (V_pos (Zpos p) ex).
    rewrite HV. split_and!; try done; lia.
  - assert (U <= Zpos p).
    { change U with (2 ^ 24). eapply Z.le_trans; [|exact Hl]. apply Z_pow2_le. lia. }
    destruct (binary_round_aux_ok (Zpos mz) 1 ltac:(lia) (Zpos mz) ez loc_Exact)
      as (m & e & -> & Hee & Hup & Hlo & Hdm & Hmu); [lia| |lia|by left|].
    { unfold rec_ok. cbn [shr_record_of_loc shr_m shr_r shr_s bit]. lia. }
    exists m, e. rewrite Z.mul_1_r in *. rewrite <-HV.
    assert (V (Zpos m) e = Zpos m * 2 ^ (e - ez) * 2 ^ (ez + 149)) as ->.
    { unfold V. rewrite <-Z.mul_assoc, <-Z_pow2_add by lia. do 2 f_equal. lia. }
    unfold V. assert (0 < 2 ^ (ez + 149)) by (apply Z_pow2_pos; lia).
    split_and!; try done; try lia; nia.
Qed.

(** A positive finite single of value [v] (in units of [2^-149]) whose leading
    digit is at position [d]. *)
Definition pos32 (x : spec_float) (v d : Z) : Prop :=
  ∃ m e, x = S754_finite false m e ∧ Zpos m < U ∧ -149 <= e
    ∧ v = V (Zpos m) e ∧ d = dexp (Zpos m) e.

Lemma pos32_pos x v d : pos32 x v d → 0 < v.
Proof. intros (m & e & _ & _ & He & -> & _). by apply V_pos. Qed.

Lemma pos32_digits x v d : pos32 x v d → -149 < d → 2 ^ (d + 148) <= v < 2 ^ (d + 149).
Proof.
  intros (m & e & _ & _ & He & -> & ->) Hd. unfold V, dexp in *.
  destruct (Zdigits2_bounds (Zpos m)) as (Hp & Hl & Hu); [lia|].
  replace (Zdigits2 (Zpos m) + e + 148) with ((Zdigits2 (Zpos m) - 1) + (e + 149)) by lia.
  replace (Zdigits2 (Zpos m) + e + 149) with (Zdigits2 (Zpos m) + (e + 149)) by lia.
  rewrite !(Z_pow2_add _ (e + 149)) by lia.
  assert (0 < 2 ^ (e + 149)) by (apply Z_pow2_pos; lia). nia.
Qed.

Lemma digits_lt_U (m : positive) : Zpos m < U → Zdigits2 (Zpos m) <= 24.
Proof. intros. apply Zdigits2_le; [lia|lia|]. by change (2 ^ 24) with U. Qed.

Lemma f32_of_Z_pos (t : Z) :
  0 < t < U → ∃ d, pos32 (f32_of_Z t) (t * K) d ∧ d = Zdigits2 t.
Proof.
  intros Ht. destruct t as [|p|p]; try lia. unfold f32_of_Z, float_of_Z, binary_normalize.
  pose proof (digits_lt_U p ltac:(lia)) as Hd.
  destruct (Zdigits2_bounds (Zpos p)) as (Hp & _); [lia|].
  destruct (binary_round_ok p 0) as (m & e & -> & He & Hm & _ & _ & Hdm & Hex);
    [lia|unfold dexp; lia|].
  destruct Hex as [HV He0]; [lia|]. exists (Zdigits2 (Zpos p)). split; [|done].
  assert (V (Zpos p) 0 = Zpos p * K) as HK by done.
  exists m, e. split; [done|]. split; [done|]. split; [lia|]. split; [by rewrite HV|].
  unfold dexp in *. specialize (He0 ltac:(lia)). unfold V in HV. unfold K in HK.
  assert (Zpos m = Zpos p * 2 ^ (- e)) as ->.
  { apply (Z.mul_reg_r _ _ (2 ^ (e + 149))).
    - pose proof (Z_pow2_pos (e + 149)). lia.
    - rewrite HV, <-Z.mul_assoc, <-Z_pow2_add by lia. do 2 f_equal. lia. }
  rewrite Zdigits2_shift by lia. lia.
Qed.

Lemma Zdigits2_24 (t : Z) : 0 < t < U → 1 <= Zdigits2 t <= 24.
Proof.
  intros Ht. destruct (Zdigits2_bounds t) as (Hd & _); [lia|]. split; [lia|].
  apply Zdigits2_le; [lia|lia|]. change (2 ^ 24) with U. lia.
Qed.

Lemma f32_mul_pos x y v v' d d' :
  pos32 x v d → pos32 y v' d' → -100 <= d + d' <= 90 →
  ∃ w d'', pos32 (f32_mul x y) w d''
    ∧ U * (K * w) <= (U + 1) * (v * v') ∧ (U - 1) * (v * v') <= U * (K * w)
    ∧ d + d' - 1 <= d'' <= d + d' + 1.
Proof.
  intros (m1 & e1 & -> & Hm1 & He1 & -> & ->) (m2 & e2 & -> & Hm2 & He2 & -> & ->) Hd.
  unfold dexp in *. pose proof (digits_lt_U _ Hm1). pose proof (digits_lt_U _ Hm2).
  destruct (Zdigits2_bounds (Zpos m1)) as (Hp1 & Hl1 & Hu1); [lia|].
  destruct (Zdigits2_bounds (Zpos m2)) as (Hp2 & Hl2 & Hu2); [lia|].
  set (d1 := Zdigits2 (Zpos m1)) in *. set (d2 := Zdigits2 (Zpos m2)) in *.
  assert (d1 + d2 - 1 <= Zdigits2 (Zpos (m1 * m2)) <= d1 + d2) as Hdm.
  { rewrite Pos2Z.inj_mul. split.
    - assert (d1 + d2 - 2 < Zdigits2 (Zpos m1 * Zpos m2)); [|lia].
      apply Zdigits2_ge; [lia|lia|].
      replace (d1 + d2 - 2) with ((d1 - 1) + (d2 - 1)) by lia.
      rewrite Z_pow2_add by lia. apply Z.mul_le_mono_nonneg; try lia;
        pose proof (Z_pow2_pos (d1 - 1)); pose proof (Z_pow2_pos (d2 - 1)); lia.
    - apply Zdigits2_le; [lia|lia|]. rewrite Z_pow2_add by lia.
      apply Z.mul_lt_mono_nonneg; lia. }
  unfold f32_mul, SFmul, xorb.
  destruct (binary_round_aux_ok (Zpos (m1 * m2)) 1 ltac:(lia) (Zpos (m1 * m2)) (e1 + e2) loc_Exact)
    as (m & e & -> & Hee & Hup & Hlo & Hdig & Hmu); [lia| |lia|by left|].
  { unfold rec_ok. cbn [shr_record_of_loc shr_m shr_r shr_s bit]. lia. }
  rewrite Z.mul_1_r, Pos2Z.inj_mul in *.
  exists (V (Zpos m) e), (dexp (Zpos m) e). split.
  { exists m, e. split_and!; try done. lia. }
  assert (K * V (Zpos m) e = Zpos m * 2 ^ (e - (e1 + e2)) * 2 ^ (e1 + e2 + 298)) as ->.
  { unfold V, K. rewrite Z.mul_comm, <-!Z.mul_assoc, <-!Z_pow2_add by lia. do 2 f_equal. lia. }
  assert (V (Zpos m1) e1 * V (Zpos m2) e2 = Zpos m1 * Zpos m2 * 2 ^ (e1 + e2 + 298)) as ->.
  { unfold V. replace (e1 + e2 + 298) with ((e1 + 149) + (e2 + 149)) by lia.
    rewrite (Z_pow2_add (e1 + 149)) by lia. ring. }
  assert (0 < 2 ^ (e1 + e2 + 298)) by (apply Z_pow2_pos; lia).
  unfold dexp. split_and!; try lia; nia.
Qed.

(** The location [SFdiv] computes from the remainder is the right one. *)
Lemma new_location_ok (a b : Z) :
  0 <= a → 0 < b →
  rec_ok a b 0 (shr_record_of_loc (a / b) (new_location b (a mod b))).
Proof.
  intros Ha Hb. pose proof (Z.div_mod a b ltac:(lia)) as Hdm.
  pose proof (Z.mod_pos_bound a b Hb) as Hr. pose proof (Z.div_pos a b Ha Hb) as Hq.
  set (q := a / b) in *. set (r := a mod b) in *. clearbody q r.
  unfold new_location, new_location_even, new_location_odd.
  destruct (Z.even b) eqn:Heven.
  - destruct (Z.eqb_spec r 0) as [->|Hne].
    + unfold rec_ok. cbn [shr_record_of_loc shr_m shr_r shr_s bit]. change (2 ^ 0) with 1. nia.
    + destruct (Z.compare_spec (2 * r) b); unfold rec_ok;
        cbn [shr_record_of_loc shr_m shr_r shr_s bit]; change (2 ^ 0) with 1;
        (split; [done|split; [nia|]]); intros; try discriminate; nia.
  - assert (b = 2 * (b / 2) + 1) as Hodd.
    { pose proof (Z.div2_odd b) as E. rewrite Z.div2_div, <-Z.negb_even, Heven in E. cbn in E. lia. }
    destruct (Z.eqb_spec r 0) as [->|Hne].
    + unfold rec_ok. cbn [shr_record_of_loc shr_m shr_r shr_s bit]. change (2 ^ 0) with 1. nia.
    + destruct (Z.compare_spec (2 * r + 1) b); unfold rec_ok;
        cbn [shr_record_of_loc shr_m shr_r shr_s bit]; change (2 ^ 0) with 1;
        (split; [done|split; [nia|]]); intros; try discriminate; nia.
Qed.

Lemma f32_div_pos x y v v' d d' :
  pos32 x v d → pos32 y v' d' → -90 <= d - d' <= 90 →
  ∃ w d'', pos32 (f32_div x y) w d''
    ∧ U * (w * v') <= (U + 1) * (v * K) ∧ (U - 1) * (v * K) <= U * (w * v')
    ∧ d - d' <= d'' <= d - d' + 2.
Proof.
  intros (m1 & e1 & -> & Hm1 & He1 & -> & ->) (m2 & e2 & -> & Hm2 & He2 & -> & ->) Hd.
  unfold dexp in *. pose proof (digits_lt_U _ Hm1). pose proof (digits_lt_U _ Hm2).
  destruct (Zdigits2_bounds (Zpos m1)) as (Hp1 & Hl1 & Hu1); [lia|].
  destruct (Zdigits2_bounds (Zpos m2)) as (Hp2 & Hl2 & Hu2); [lia|].
  unfold f32_div, SFdiv, SFdiv_core_binary, xorb, fexp, emin.
  set (d1 := Zdigits2 (Zpos m1)) in *. set (d2 := Zdigits2 (Zpos m2)) in *.
  replace (Z.min _ _) with (Z.min (d1 + e1 - (d2 + e2) - 24) (e1 - e2)) by lia.
  set (e' := Z.min _ _) in *. set (s := e1 - e2 - e') in *.
  assert (0 <= s) as Hs by lia.
  assert (match s with Z0 => Zpos m1 | Zpos _ => Z.shiftl (Zpos m1) s | Zneg _ => 0 end
    = Zpos m1 * 2 ^ s) as ->.
  { destruct s; try lia. rewrite Z.shiftl_mul_pow2 by lia. lia. }
  set (a := Zpos m1 * 2 ^ s) in *.
  assert (0 < a) as Ha by (pose proof (Z_pow2_pos s Hs); nia).
  assert (Zdigits2 a = d1 + s) as Hda by (by apply Zdigits2_shift).
  destruct (Z.div_eucl a (Zpos m2)) as [q r] eqn:Hqr.
  assert (q = a / Zpos m2) as -> by (unfold Z.div; by rewrite Hqr).
  assert (r = a mod Zpos m2) as -> by (unfold Z.modulo; by rewrite Hqr).
  clear Hqr. destruct (Zdigits2_bounds a Ha) as (_ & Hal & Hau). rewrite Hda in *.
  set (q := a / Zpos m2) in *.
  assert (2 ^ (d1 + s - 1 - d2) <= q < 2 ^ (d1 + s - d2 + 1)) as [Hql Hqu].
  { split.
    - apply Z.div_le_lower_bound; [lia|].
      eapply Z.le_trans; [|exact Hal].
      replace (d1 + s - 1) with (d2 + (d1 + s - 1 - d2)) at 2 by lia.
      rewrite Z_pow2_add by lia. apply Z.mul_le_mono_nonneg_r; [|lia].
      pose proof (Z_pow2_pos (d1 + s - 1 - d2)). lia.
    - apply Z.div_lt_upper_bound; [lia|]. eapply Z.lt_le_trans; [exact Hau|].
      replace (d1 + s) with ((d2 - 1) + (d1 + s - d2 + 1)) at 1 by lia.
      rewrite Z_pow2_add by lia. apply Z.mul_le_mono_nonneg_r; [|lia].
      pose proof (Z_pow2_pos (d1 + s - d2 + 1)). lia. }
  assert (0 < q) as Hq by (pose proof (Z_pow2_pos (d1 + s - 1 - d2)); lia).
  assert (d1 + s - d2 <= Zdigits2 q <= d1 + s - d2 + 1) as Hdq.
  { split; [|by apply Zdigits2_le; lia].
    assert (d1 + s - 1 - d2 < Zdigits2 q); [|lia]. apply Zdigits2_ge; lia. }
  destruct (binary_round_aux_ok a (Zpos m2) ltac:(lia) q e' (new_location (Zpos m2) (a mod Zpos m2)))
    as (m & e & -> & Hee & Hup & Hlo & Hdig & Hmu);
    [lia|by apply new_location_ok; lia|lia|right; lia|].
  exists (V (Zpos m) e), (dexp (Zpos m) e). split.
  { exists m, e. split_and!; try done. lia. }
  assert (V (Zpos m) e * V (Zpos m2) e2
    = Zpos m * 2 ^ (e - e') * Zpos m2 * 2 ^ (e' + e2 + 298)) as ->.
  { unfold V. replace (e + 149) with ((e - e') + (e' + 149)) by lia.
    replace (e' + e2 + 298) with ((e' + 149) + (e2 + 149)) by lia.
    rewrite (Z_pow2_add (e - e')), (Z_pow2_add (e' + 149)) by lia. ring. }
  assert (V (Zpos m1) e1 * K = a * 2 ^ (e' + e2 + 298)) as ->.
  { unfold V, K, a. rewrite <-!Z.mul_assoc, <-!Z_pow2_add by lia. do 2 f_equal. lia. }
  assert (0 < 2 ^ (e' + e2 + 298)) by (apply Z_pow2_pos; lia).
  unfold dexp. split_and!; try lia; nia.
Qed.

Lemma f32_add_pos x y v v' d d' :
  pos32 x v d → pos32 y v' d' → -90 <= d <= 90 → -90 <= d' <= 90 →
  ∃ w d'', pos32 (f32_add x y) w d''
    ∧ U * w <= (U + 1) * (v + v') ∧ (U - 1) * (v + v') <= U * w
    ∧ Z.max d d' <= d'' <= Z.max d d' + 2.
Proof.
  intros (m1 & e1 & -> & Hm1 & He1 & -> & ->) (m2 & e2 & -> & Hm2 & He2 & -> & ->) Hd Hd'.
  unfold dexp in *. pose proof (digits_lt_U _ Hm1). pose proof (digits_lt_U _ Hm2).
  unfold f32_add, SFadd, cond_Zopp, binary_normalize. set (ez := Z.min e1 e2).
  destruct (shl_align_pos m1 e1 ez) as [Hz1 _]. destruct (shl_align_pos m2 e2 ez) as [Hz2 _].
  set (a1 := fst (shl_align m1 e1 ez)) in *. set (a2 := fst (shl_align m2 e2 ez)) in *.
  change (Zpos a1 + Zpos a2) with (Zpos (a1 + a2)). cbv iota beta.
  assert (V (Zpos (a1 + a2)) ez = V (Zpos m1) e1 + V (Zpos m2) e2) as HV.
  { rewrite Pos2Z.inj_add. unfold V. rewrite Hz1, Hz2, Z.mul_add_distr_r.
    rewrite <-!Z.mul_assoc, <-!Z_pow2_add by lia. f_equal; do 2 f_equal; lia. }
  destruct (Zdigits2_bounds (Zpos m1)) as (Hp1 & _ & _); [lia|].
  destruct (Zdigits2_bounds (Zpos m2)) as (Hp2 & _ & _); [lia|].
  assert (Zdigits2 (Zpos a1) + ez = Zdigits2 (Zpos m1) + e1) as Hd1.
  { rewrite Hz1, Zdigits2_shift by lia. lia. }
  assert (Zdigits2 (Zpos a2) + ez = Zdigits2 (Zpos m2) + e2) as Hd2.
  { rewrite Hz2, Zdigits2_shift by lia. lia. }
  destruct (Zdigits2_bounds (Zpos a1)) as (Hq1 & Hl1 & Hu1); [lia|].
  destruct (Zdigits2_bounds (Zpos a2)) as (Hq2 & Hl2 & Hu2); [lia|].
  set (D := Z.max (Zdigits2 (Zpos a1)) (Zdigits2 (Zpos a2))).
  assert (D <= Zdigits2 (Zpos (a1 + a2)) <= D + 1) as HD.
  { split.
    - assert (D - 1 < Zdigits2 (Zpos (a1 + a2))); [|lia]. apply Zdigits2_ge; [lia|lia|].
      destruct (Z.max_spec (Zdigits2 (Zpos a1)) (Zdigits2 (Zpos a2))) as [[_ E]|[_ E]];
        unfold D; rewrite E; lia.
    - apply Zdigits2_le; [lia|lia|]. rewrite Z.pow_add_r by lia. change (2 ^ 1) with 2.
      assert (2 ^ Zdigits2 (Zpos a1) <= 2 ^ D) by (apply Z_pow2_le; lia).
      assert (2 ^ Zdigits2 (Zpos a2) <= 2 ^ D) by (apply Z_pow2_le; lia). lia. }
  destruct (binary_round_ok (a1 + a2) ez) as (m & e & -> & He & Hm & Hup & Hlo & Hdm & _);
    [lia|unfold dexp; lia|].
  rewrite HV in *. exists (V (Zpos m) e), (dexp (Zpos m) e). split; [by exists m, e|].
  unfold dexp in *. split_and!; try done; lia.
Qed.
