(* ===== verification/Layout.v ===== *)
(** * realm-core/src/layout.rs: rectangles, layouts and exact partition

    The geometry half of the layout module: everything that does not look at
    an orbit.  [Projection] adds [project], which does. *)

From Stdlib Require Import ZArith Lia SpecFloat.
From stdpp Require Import prelude.
From S2P Require Import Prelude Float.

(** ** Data *)

(** An integer rectangle; the fields are [i32]. *)
Record Rect := mk_rect { rect_x : Z; rect_y : Z; rect_w : Z; rect_h : Z }.

#[export] Instance Rect_eq_dec : EqDecision Rect.
Proof. solve_decision. Defined.

Definition Rect_new (x y w h : Z) : Rect := mk_rect x y w h.

(** [area] widens to [i64] before multiplying, so it never wraps. *)
Definition area (r : Rect) : Z := (rect_w r * rect_h r)%Z.

Definition intersects (a b : Rect) : bool :=
  (rect_x a <? i32_add (rect_x b) (rect_w b))%Z
  && (rect_x b <? i32_add (rect_x a) (rect_w a))%Z
  && (rect_y a <? i32_add (rect_y b) (rect_h b))%Z
  && (rect_y b <? i32_add (rect_y a) (rect_h a))%Z.

Definition contained_by (a b : Rect) : bool :=
  (rect_x b <=? rect_x a)%Z
  && (rect_y b <=? rect_y a)%Z
  && (i32_add (rect_x a) (rect_w a) <=? i32_add (rect_x b) (rect_w b))%Z
  && (i32_add (rect_y a) (rect_h a) <=? i32_add (rect_y b) (rect_h b))%Z.

Record Workarea := mk_workarea { wa_output : Rect; wa_tiles : Rect }.

#[export] Instance Workarea_eq_dec : EqDecision Workarea.
Proof. solve_decision. Defined.

Definition Workarea_new (width height top_reserved bottom_reserved : Z) : Workarea :=
  let top := Z.max top_reserved 0 in
  let bottom := Z.max bottom_reserved 0 in
  let h := Z.max (i32_sub (i32_sub height top) bottom) 0 in
  mk_workarea (Rect_new 0 0 width height) (Rect_new 0 top width h).

Inductive Layout := Triptych | Mono | Even.

#[export] Instance Layout_eq_dec : EqDecision Layout.
Proof. solve_decision. Defined.

(** [#[default]] on [Triptych]. *)
Definition Layout_default : Layout := Triptych.

Definition label (l : Layout) : rstring :=
  match l with
  | Triptych => lit "triptych"
  | Mono => lit "mono"
  | Even => lit "even"
  end.

(** [str::trim] strips Unicode white space, [to_ascii_lowercase] maps A-Z. *)
Definition is_whitespace (c : N) : bool :=
  bool_decide (c ∈ [9; 10; 11; 12; 13; 32; 133; 160; 5760; 8192; 8193; 8194; 8195;
    8196; 8197; 8198; 8199; 8200; 8201; 8202; 8232; 8233; 8239; 8287; 12288]%N).

Fixpoint trim_start (s : rstring) : rstring :=
  match s with
  | c :: s' => if is_whitespace c then trim_start s' else s
  | [] => []
  end.

Definition trim (s : rstring) : rstring := reverse (trim_start (reverse (trim_start s))).

Definition to_ascii_lowercase (s : rstring) : rstring :=
  (λ c, if ((65 <=? c) && (c <=? 90))%N then (c + 32)%N else c) <$> s.

Definition parse (s : rstring) : option Layout :=
  let s := to_ascii_lowercase (trim s) in
  if bool_decide (s = lit "triptych" ∨ s = lit "t") then Some Triptych
  else if bool_decide (s = lit "mono" ∨ s = lit "m") then Some Mono
  else if bool_decide (s = lit "even" ∨ s = lit "e" ∨ s = lit "grid") then Some Even
  else None.

Definition next (l : Layout) : Layout :=
  match l with Triptych => Mono | Mono => Even | Even => Triptych end.

Record TriptychParams := mk_params {
  master_ratio : spec_float;
  stack_columns : nat;
  stack_primary_ratio : spec_float;
  primary_row_ratio : spec_float
}.

Definition TriptychParams_default : TriptychParams := {|
  master_ratio := f32_ratio 640 1920;
  stack_columns := 2;
  stack_primary_ratio := f32_ratio 700 1280;
  primary_row_ratio := f32_ratio 580 1022
|}.

Definition nat_clamp (lo hi n : nat) : nat := Nat.max lo (Nat.min hi n).

Definition sanitised (p : TriptychParams) : TriptychParams :=
  let clamp := float_clamp (f32_ratio 15 100) (f32_ratio 85 100) in
  {| master_ratio := clamp (master_ratio p);
     stack_primary_ratio := clamp (stack_primary_ratio p);
     primary_row_ratio := clamp (primary_row_ratio p);
     stack_columns := nat_clamp 1 4 (stack_columns p) |}.

(** ** [partition]: the largest-remainder method *)

(** One weight's share: the floored part and the fraction it lost. *)
Definition share (total : Z) (sum w : spec_float) : Z * spec_float :=
  let exact := f32_div (f32_mul (f32_of_Z total) (float_max w f32_zero)) sum in
  let floor := f32_as_i32 (float_max (f32_floor exact) f32_zero) in
  (floor, f32_sub exact (f32_of_Z floor)).

(** The comparator of [remainders.sort_by]: larger fraction first, then the
    earlier index; incomparable fractions count as equal. *)
Definition remainder_le (a b : spec_float * nat) : bool :=
  match SFcompare (fst b) (fst a) with
  | Some Lt => true
  | Some Gt => false
  | Some Eq | None => snd a <=? snd b
  end.

Fixpoint insert_remainder (a : spec_float * nat) (l : list (spec_float * nat)) :=
  match l with
  | [] => [a]
  | b :: l' => if remainder_le a b then a :: l else b :: insert_remainder a l'
  end.

Definition sort_remainders (l : list (spec_float * nat)) : list (spec_float * nat) :=
  foldr insert_remainder [] l.

(** The [while leftover > 0] loop: the fuel is [leftover] itself, which every
    iteration decrements. *)
Fixpoint hand_out (leftover : nat) (i : nat) (order : list nat) (parts : list Z) : list Z :=
  match leftover with
  | 0 => parts
  | S leftover' =>
      match order !! (i mod length order) with
      | Some k => hand_out leftover' (S i) order (alter (i32_add 1) k parts)
      | None => parts
      end
  end.

Definition weight_sum (weights : list spec_float) : spec_float :=
  foldl (λ acc w, f32_add acc (float_max w f32_zero)) f32_zero weights.

(** The body of [partition] below its early returns. *)
Definition partition_shares (total : Z) (weights : list spec_float) : list Z :=
  let sum := weight_sum weights in
  let shares := share total sum <$> weights in
  let parts := fst <$> shares in
  let remainders := imap (λ i s, (snd s, i)) shares in
  let assigned := foldl i32_add 0%Z parts in
  let leftover := i32_sub total assigned in
  hand_out (Z.to_nat leftover) 0 (snd <$> sort_remainders remainders) parts.

Definition partition (total : Z) (weights : list spec_float) : list Z :=
  match weights with
  | [] => []
  | _ =>
      if (total <=? 0)%Z then replicate (length weights) 0%Z
      else if SFleb (weight_sum weights) f32_zero
      then partition_shares total (replicate (length weights) f32_one)
      else partition_shares total weights
  end.

(** ** [grid], [even], [triptych] *)

Definition div_ceil (n d : nat) : nat := (n + d - 1) / d.

(** The inner loop: one row of rectangles from left to right. *)
Fixpoint grid_row (x y h : Z) (widths : list Z) : list Rect :=
  match widths with
  | [] => []
  | w :: ws => Rect_new x y w h :: grid_row (i32_add x w) y h ws
  end.

Definition uniform_weights (n : nat) : list spec_float :=
  replicate n (f32_div f32_one (f32_of_Z (Z.of_nat n))).

Definition col_weights (in_row : nat) (p : option TriptychParams) : list spec_float :=
  match in_row, p with
  | 2, Some p => [stack_primary_ratio p; f32_sub f32_one (stack_primary_ratio p)]
  | _, _ => uniform_weights in_row
  end.

Definition row_weights (rows : nat) (p : option TriptychParams) : list spec_float :=
  match rows, p with
  | 2, Some p => [primary_row_ratio p; f32_sub f32_one (primary_row_ratio p)]
  | _, _ => uniform_weights rows
  end.

(** The outer loop over the row heights; [row] counts the rows already laid. *)
Fixpoint grid_rows (n : nat) (a : Rect) (cols : nat) (p : option TriptychParams)
    (row : nat) (y : Z) (heights : list Z) : list Rect :=
  match heights with
  | [] => []
  | h :: hs =>
      let first := row * cols in
      if n <=? first then []
      else
        let in_row := Nat.min cols (n - first) in
        let widths := partition (rect_w a) (col_weights in_row p) in
        grid_row (rect_x a) y h widths
          ++ grid_rows n a cols p (S row) (i32_add y h) hs
  end.

Definition grid (n : nat) (a : Rect) (cols : nat) (p : option TriptychParams) : list Rect :=
  if (n =? 0) || (rect_w a <=? 0)%Z || (rect_h a <=? 0)%Z then []
  else
    let cols := nat_clamp 1 n cols in
    let rows := div_ceil n cols in
    grid_rows n a cols p 0 (rect_y a) (partition (rect_h a) (row_weights rows p)).

Definition even_cols (n : nat) : nat :=
  Z.to_nat (f64_as_usize (float_max (f64_ceil (f64_sqrt (f64_of_Z (Z.of_nat n)))) f64_one)).

Definition even (n : nat) (a : Rect) : list Rect := grid n a (even_cols n) None.

(** [triptych] reads only the number of windows of its slice; [cols[0]] and
    [cols[1]] exist because [partition] answers two parts for two weights. *)
Definition triptych (n : nat) (a : Rect) (p : TriptychParams) : list Rect :=
  if n =? 1 then [a]
  else
    let cols := partition (rect_w a) [master_ratio p; f32_sub f32_one (master_ratio p)] in
    let c0 := nth 0 cols 0%Z in
    let c1 := nth 1 cols 0%Z in
    Rect_new (rect_x a) (rect_y a) c0 (rect_h a)
      :: grid (n - 1) (Rect_new (i32_add (rect_x a) c0) (rect_y a) c1 (rect_h a))
           (stack_columns p) (Some p).
