(* ===== verification/Partition.v ===== *)
(** * [partition] is exact

    [layout.rs] promises that the parts of a partition always add up to the
    total.  The shares are floored [f32] quotients, so the promise rests on the
    floors never exceeding the total; this file derives that from the rounding
    error of the operators and proves the promise for every total and number of
    weights with [(total + 1) * (length + 2) <= 2^24]. *)

From Stdlib Require Import ZArith Lia SpecFloat.
From stdpp Require Import prelude sorting.
From S2P Require Import Prelude Float FloatError Layout.

Local Open Scope Z_scope.

(** ** Which weights are covered *)

(** A mantissa of at most 24 bits and no exponent below the subnormals: every
    value of the type [f32] is one. *)
Definition is_f32 (x : spec_float) : bool :=
  match x with
  | S754_finite _ m e => (Zpos m <? U) && (-149 <=? e)
  | _ => true
  end.

(** [partition] treats negative numbers and NaN as zero, so only the size of a
    positive weight matters: its leading digit between [2^-40] and [2^8]. *)
Definition weight_ok (w : spec_float) : bool :=
  is_f32 w &&
  match w with
  | S754_finite false m e =>
      (-40 <=? dexp (Zpos m) e) && (dexp (Zpos m) e <=? 8)
  | S754_infinity false => false
  | _ => true
  end.

Lemma is_f32_finite s m e : is_f32 (S754_finite s m e) = true → Zpos m < U ∧ -149 <= e.
Proof. unfold is_f32. lia. Qed.

Lemma pos32_weight_ok x v d : pos32 x v d → -40 <= d <= 8 → weight_ok x = true.
Proof.
  intros (m & e & -> & Hm & He & _ & ->) Hd. unfold weight_ok, is_f32. lia.
Qed.

(** What [w.max(0.0)] is for such a weight, and its value in units of [2^-149]. *)
Definition wval (w : spec_float) : Z :=
  match w with S754_finite false m e => V (Zpos m) e | _ => 0 end.

Definition is_zero (x : spec_float) : bool :=
  match x with S754_zero _ => true | _ => false end.

Lemma weight_cases w :
  weight_ok w = true →
  (is_zero (float_max w f32_zero) = true ∧ wval w = 0)
  ∨ (∃ d, float_max w f32_zero = w ∧ pos32 w (wval w) d ∧ -40 <= d <= 8).
Proof.
  unfold weight_ok. intros [Hf Hw]%andb_prop.
  destruct w as [[]|[]| |[] m e]; try (by left). right.
  apply is_f32_finite in Hf as [Hm He].
  apply andb_prop in Hw as [H1%Z.leb_le H2%Z.leb_le].
  exists (dexp (Zpos m) e). split; [done|]. split; [|done]. exists m, e. by split_and!.
Qed.

(** ** The sum of the weights *)

Definition wvals (ws : list spec_float) : Z := foldr (λ w a, wval w + a) 0 ws.

Lemma wval_nonneg w : weight_ok w = true → 0 <= wval w.
Proof.
  intros [[_ ->]|(d & _ & Hp & _)]%weight_cases; [done|]. apply pos32_pos in Hp. lia.
Qed.

Lemma wval_upper w : weight_ok w = true → wval w < 256 * K.
Proof.
  intros [[_ ->]|(d & _ & Hp & Hd)]%weight_cases; [pose proof K_pos; lia|].
  apply pos32_digits in Hp; [|lia]. change (256 * K) with (2 ^ 157).
  eapply Z.lt_le_trans; [apply Hp|]. apply Z_pow2_le. lia.
Qed.

(** The accumulator of the summation loop after [n] weights of exact sum [W]. *)
Definition acc_ok (n W : Z) (acc : spec_float) : Prop :=
  (is_zero acc = true ∧ W = 0)
  ∨ ∃ s d, pos32 acc s d ∧ 0 < W ∧ (U - n) * W <= U * s ∧ U * s <= (U + 2 * n) * W
      ∧ -40 <= d <= 40.

Lemma SFadd_zero_l z x : is_zero z = true → is_zero x = false → f32_add z x = x.
Proof. by destruct z, x. Qed.
Lemma SFadd_zero_r x z : is_zero z = true → is_zero x = false → f32_add x z = x.
Proof. by destruct z, x. Qed.
Lemma SFadd_zeros x z : is_zero z = true → is_zero x = true → is_zero (f32_add x z) = true.
Proof. destruct z as [[]| | |], x as [[]| | |]; done. Qed.
Lemma pos32_nonzero x v d : pos32 x v d → is_zero x = false.
Proof. by intros (m & e & -> & _). Qed.

(** Digit position of a number of known magnitude. *)
Lemma pos32_digit_lt x v d k : pos32 x v d → 0 <= k + 149 → v < 2 ^ (k + 149) → d <= k.
Proof.
  intros Hp Hk Hv. destruct (Z_le_dec d (-149)); [lia|].
  apply pos32_digits in Hp as [Hl _]; [|lia].
  assert (2 ^ (d + 148) < 2 ^ (k + 149)) as H by lia.
  apply Z.pow_lt_mono_r_iff in H; lia.
Qed.

Lemma acc_step n W acc w :
  0 <= n < 8388608 → W <= n * (256 * K) → acc_ok n W acc → weight_ok w = true →
  acc_ok (n + 1) (W + wval w) (f32_add acc (float_max w f32_zero)).
Proof.
  intros Hn HW Hacc Hw. pose proof (wval_upper w Hw) as Hub.
  pose proof K_pos as HK.
  destruct (weight_cases w Hw) as [[Hz ->]|(dw & -> & Hp & Hd)];
    destruct Hacc as [[Haz ->]|(s & d & Hs & HWp & Hlo & Hup & Hdd)].
  - left. split; [by apply SFadd_zeros|done].
  - right. rewrite SFadd_zero_r by eauto using pos32_nonzero. exists s, d.
    rewrite Z.add_0_r. split; [done|]. nia.
  - right. rewrite SFadd_zero_l by eauto using pos32_nonzero.
    exists (wval w), dw. pose proof (pos32_pos _ _ _ Hp). split; [done|]. nia.
  - right. pose proof (pos32_pos _ _ _ Hp). pose proof (pos32_pos _ _ _ Hs).
    destruct (f32_add_pos _ _ _ _ _ _ Hs Hp) as (r & d' & Hr & Hru & Hrl & Hd'); [lia..|].
    exists r, d'. split; [done|]. split; [lia|].
    assert (U * r <= (U + 2 * (n + 1)) * (W + wval w)) as Hru' by nia.
    split; [nia|]. split; [done|]. split; [lia|].
    apply (pos32_digit_lt _ _ _ 40 Hr); [done|].
    assert (W + wval w <= 8388608 * (256 * K)) by nia.
    assert (r < 2 * (8388608 * (256 * K)) + 1) by nia.
    eapply Z.lt_le_trans; [eassumption|]. by vm_compute.
Qed.

Lemma weight_sum_ok ws :
  Z.of_nat (length ws) < 8388608 → Forall (λ w, weight_ok w = true) ws →
  acc_ok (Z.of_nat (length ws)) (wvals ws) (weight_sum ws).
Proof.
  intros Hl Hws. unfold weight_sum.
  assert (∀ n W acc, 0 <= n → n + Z.of_nat (length ws) < 8388608 → W <= n * (256 * K) →
    acc_ok n W acc →
    acc_ok (n + Z.of_nat (length ws)) (W + wvals ws)
      (foldl (λ acc w, f32_add acc (float_max w f32_zero)) acc ws)) as Hgen.
  { clear Hl. induction Hws as [|w ws Hw Hws IH]; intros n W acc Hn Hnl HW Hacc.
    - cbn. by rewrite !Z.add_0_r.
    - cbn [length wvals foldr foldl] in *. fold (wvals ws).
      replace (n + Z.of_nat (S (length ws))) with ((n + 1) + Z.of_nat (length ws)) by lia.
      rewrite Z.add_assoc. pose proof (wval_upper w Hw). pose proof (wval_nonneg w Hw).
      apply IH; [lia|lia|nia|]. apply acc_step; try done. lia. }
  apply (Hgen 0 0 f32_zero); [lia|lia|lia|by left].
Qed.

(** ** One share *)

Lemma floor_le (x : spec_float) v d :
  pos32 x v d → 0 <= f32_as_i32 (float_max (f32_floor x) f32_zero)
    ∧ f32_as_i32 (float_max (f32_floor x) f32_zero) * K <= v.
Proof.
  intros (m & e & -> & Hm & He & -> & _). unfold f32_floor, float_floor.
  assert (∀ m' e', -149 <= e' →
    0 <= f32_as_i32 (float_max (S754_finite false m' e') f32_zero)
    ∧ f32_as_i32 (float_max (S754_finite false m' e') f32_zero) * K <= V (Zpos m') e') as Hfin.
  { intros m' e' He'. unfold f32_as_i32. cbn [float_max f32_zero SFcompare float_as_int].
    assert (0 <= float_trunc false m' e' ∧ float_trunc false m' e' * K <= V (Zpos m') e')
      as [Ht0 Ht].
    { unfold float_trunc, cond_Zopp, V, K. destruct (Z.leb_spec 0 e').
      - rewrite Z.shiftl_mul_pow2 by lia. pose proof (Z_pow2_pos e').
        rewrite <-Z.mul_assoc, <-Z_pow2_add by lia. split; [|done]. nia.
      - rewrite Z.shiftr_div_pow2 by lia. pose proof (Z_pow2_pos (- e') ltac:(lia)).
        split; [apply Z.div_pos; lia|].
        replace 149 with (- e' + (e' + 149)) at 1 by lia.
        rewrite (Z_pow2_add (- e')), Z.mul_assoc by lia.
        apply Z.mul_le_mono_nonneg_r; [apply Z.pow_nonneg; lia|].
        rewrite Z.mul_comm. by apply Z.mul_div_le. }
    unfold i32_min, i32_max. pose proof K_pos. nia. }
  destruct (Z.leb_spec 0 e); [by apply Hfin|].
  rewrite Z.shiftr_div_pow2 by lia. pose proof (Z_pow2_pos (- e) ltac:(lia)) as Hpe.
  set (z := cond_Zopp false (Zpos m) / 2 ^ (- e)).
  assert (0 <= z ∧ z * K <= V (Zpos m) e) as [Hz HzK].
  { unfold z, cond_Zopp, V, K. split; [apply Z.div_pos; lia|].
    replace 149 with (- e + (e + 149)) at 1 by lia.
    rewrite (Z_pow2_add (- e)), Z.mul_assoc by lia.
    apply Z.mul_le_mono_nonneg_r; [apply Z.pow_nonneg; lia|].
    rewrite Z.mul_comm. by apply Z.mul_div_le. }
  destruct (Z.eq_dec z 0) as [->|Hne].
  { pose proof (V_pos (Zpos m) e). cbn. lia. }
  assert (z < U) as HzU.
  { eapply Z.le_lt_trans; [|exact Hm]. unfold z, cond_Zopp. apply Z.div_le_upper_bound; nia. }
  destruct (f32_of_Z_pos z ltac:(lia)) as (dz & (m' & e' & Hx & _ & He' & HV & _) & _).
  unfold f32_of_Z, float_of_Z in Hx. rewrite Hx. destruct (Hfin m' e' He') as [H0 H1]. lia.
Qed.

Lemma mul_zero_r x z v d :
  pos32 x v d → is_zero z = true → is_zero (f32_mul x z) = true.
Proof. intros (m & e & -> & _). by destruct z. Qed.
Lemma div_zero_l x z v d :
  pos32 x v d → is_zero z = true → is_zero (f32_div z x) = true.
Proof. intros (m & e & -> & _). by destruct z. Qed.

(** The floored share never exceeds the exact one by more than rounding. *)
Lemma share_bound total w s d n W :
  0 < total < U → 0 <= n < 8388608 → weight_ok w = true → pos32 s (W : Z) d → -40 <= d <= 40 →
  let f := fst (share total s w) in
  0 <= f ∧ U * U * f * W <= (U + 1) * (U + 1) * (total * wval w).
Proof.
  intros Ht Hn Hw Hs Hd f. subst f. unfold share. cbn [fst].
  destruct (f32_of_Z_pos total Ht) as (dt & Hpt & Hdt).
  pose proof (Zdigits2_24 total Ht) as Hdt'. rewrite <-Hdt in Hdt'.
  destruct (weight_cases w Hw) as [[Hz ->]|(dw & -> & Hp & Hdw)].
  - pose proof (div_zero_l _ _ _ _ Hs (mul_zero_r _ _ _ _ Hpt Hz)) as Hq.
    destruct (f32_div _ _) as [b| | |]; try done. destruct b; cbn; lia.
  - destruct (f32_mul_pos _ _ _ _ _ _ Hpt Hp) as (a & da & Ha & Hau & _ & Hda); [lia|].
    destruct (f32_div_pos _ _ _ _ _ _ Ha Hs) as (q & dq & Hq & Hqu & _ & Hdq); [lia|].
    destruct (floor_le _ _ _ Hq) as [Hf0 Hf]. split; [done|].
    set (f := f32_as_i32 _) in *. pose proof K_pos as HK.
    pose proof (pos32_pos _ _ _ Hs). pose proof (pos32_pos _ _ _ Hp).
    assert (U * a <= (U + 1) * (total * wval w)) as Ha'.
    { apply (Z.mul_le_mono_pos_r _ _ K HK). lia. }
    assert (U * (f * W) <= (U + 1) * a) as Hfa.
    { apply (Z.mul_le_mono_pos_r _ _ K HK).
      assert (f * K * W <= q * W) by (apply Z.mul_le_mono_nonneg_r; lia). nia. }
    nia.
Qed.

(** A quotient of at least one has a share of at least one. *)
Lemma floor_ge_one (x : spec_float) v d :
  pos32 x v d → K <= v → 1 <= f32_as_i32 (float_max (f32_floor x) f32_zero).
Proof.
  intros (m & e & -> & Hm & He & -> & _) HK. unfold f32_floor, float_floor.
  assert (∀ m' e', -149 <= e' → K <= V (Zpos m') e' →
    1 <= f32_as_i32 (float_max (S754_finite false m' e') f32_zero)
    ∧ (e' < 0 → 1 <= Zpos m' / 2 ^ (- e'))) as Hfin.
  { intros m' e' He' HV.
    assert (e' < 0 → 2 ^ (- e') <= Zpos m') as Hm'.
    { intros Hneg. apply (Z.mul_le_mono_pos_r _ _ (2 ^ (e' + 149))); [apply Z_pow2_pos; lia|].
      rewrite <-Z_pow2_add by lia. replace (- e' + (e' + 149)) with 149 by lia. exact HV. }
    assert (e' < 0 → 1 <= Zpos m' / 2 ^ (- e')) as Hdiv.
    { intros Hneg. apply Z.div_le_lower_bound; [apply Z_pow2_pos; lia|]. specialize (Hm' Hneg). lia. }
    split; [|done]. unfold f32_as_i32. cbn [float_max f32_zero SFcompare float_as_int].
    unfold float_trunc, cond_Zopp, i32_min, i32_max. destruct (Z.leb_spec 0 e').
    - rewrite Z.shiftl_mul_pow2 by lia. pose proof (Z_pow2_pos e'). nia.
    - rewrite Z.shiftr_div_pow2 by lia. specialize (Hdiv ltac:(lia)). lia. }
  destruct (Z.leb_spec 0 e) as [|Hneg]; [by apply Hfin|].
  destruct (Hfin m e He HK) as [_ Hz]. specialize (Hz Hneg). cbn [cond_Zopp].
  rewrite Z.shiftr_div_pow2 by lia. pose proof (Z_pow2_pos (- e) ltac:(lia)) as Hpe.
  set (z := Zpos m / 2 ^ (- e)) in *.
  assert (z < U) as HzU.
  { eapply Z.le_lt_trans; [|exact Hm]. unfold z. apply Z.div_le_upper_bound; nia. }
  destruct (f32_of_Z_pos z ltac:(lia)) as (dz & (m' & e' & Hx & _ & He' & HV & _) & _).
  unfold f32_of_Z, float_of_Z in Hx. rewrite Hx. apply Hfin; [done|]. pose proof K_pos. nia.
Qed.

(** A weight that is due at least one unit, rounding allowed for, gets one. *)
Lemma share_positive total w s d v dw W :
  0 < total < U → pos32 w v dw → -40 <= dw <= 8 → pos32 s W d → -40 <= d <= 40 →
  U * U * W <= (U - 1) * (U - 1) * (total * v) →
  1 <= fst (share total s w).
Proof.
  intros Ht Hp Hdw Hs Hd Hdue. unfold share. cbn [fst].
  destruct (f32_of_Z_pos total Ht) as (dt & Hpt & Hdt).
  pose proof (Zdigits2_24 total Ht) as Hdt'. rewrite <-Hdt in Hdt'.
  assert (float_max w f32_zero = w) as -> by (by destruct Hp as (m & e & -> & _)).
  destruct (f32_mul_pos _ _ _ _ _ _ Hpt Hp) as (a & da & Ha & _ & Hal & Hda); [lia|].
  destruct (f32_div_pos _ _ _ _ _ _ Ha Hs) as (q & dq & Hq & _ & Hql & _); [lia|].
  apply (floor_ge_one _ _ _ Hq). pose proof K_pos as HK. pose proof (pos32_pos _ _ _ Hs) as HW.
  assert ((U - 1) * (total * v) <= U * a) as Ha'.
  { apply (Z.mul_le_mono_pos_r _ _ K HK). lia. }
  destruct (Z_le_dec K q); [done|exfalso].
  assert (q * W < K * W) by nia.
  assert ((U - 1) * ((U - 1) * (total * v)) * K <= (U - 1) * (U * a) * K) by nia.
  nia.
Qed.

(** ** The floors together *)

Definition sumZ (l : list Z) : Z := foldr Z.add 0 l.

Lemma sumZ_cons x l : sumZ (x :: l) = x + sumZ l.
Proof. done. Qed.

Lemma wvals_cons w ws : wvals (w :: ws) = wval w + wvals ws.
Proof. done. Qed.

Lemma sumZ_nonneg l : Forall (λ f, 0 <= f) l → 0 <= sumZ l.
Proof. induction 1; [done|]. rewrite sumZ_cons. lia. Qed.

Lemma floors_bound total s d W ws :
  0 < total < U → Forall (λ w, weight_ok w = true) ws → pos32 s W d → -40 <= d <= 40 →
  let fs := fst <$> (share total s <$> ws) in
  Forall (λ f, 0 <= f) fs
  ∧ U * U * sumZ fs * W <= (U + 1) * (U + 1) * (total * wvals ws).
Proof.
  intros Ht Hws Hs Hd. induction Hws as [|w ws Hw Hws [IH0 IH]]; cbn zeta in *.
  - split; [constructor|cbn; lia].
  - destruct (share_bound total w s d 0 W Ht ltac:(lia) Hw Hs Hd) as [Hf0 Hf].
    cbn [fmap list_fmap]. split; [by constructor|].
    rewrite sumZ_cons, wvals_cons. lia.
Qed.

Lemma floors_le_total total ws s d :
  0 < total → (total + 1) * (Z.of_nat (length ws) + 2) <= U →
  Forall (λ w, weight_ok w = true) ws →
  pos32 (weight_sum ws) s d → 
  let fs := fst <$> (share total (weight_sum ws) <$> ws) in
  Forall (λ f, 0 <= f) fs ∧ sumZ fs <= total.
Proof.
  intros Ht Hb Hws Hs. set (n := Z.of_nat (length ws)) in *.
  assert (0 <= n) as Hn by lia.
  assert (n < 8388608) as Hn4 by nia.
  destruct (weight_sum_ok ws Hn4 Hws) as [[Hz _]|(s' & d' & Hs' & HW & Hlo & _ & Hd')].
  { rewrite (pos32_nonzero _ _ _ Hs) in Hz. done. }
  destruct (floors_bound total _ _ _ ws ltac:(nia) Hws Hs' Hd') as [H0 Hf]. cbn zeta.
  split; [done|]. set (F := sumZ _) in *. fold n in Hlo.
  assert (0 <= F) as HF0 by (by apply sumZ_nonneg).
  assert (U * F * ((U - n) * wvals ws) <= (U + 1) * (U + 1) * (total * wvals ws)) as H1.
  { eapply Z.le_trans; [|exact Hf].
    replace (U * U * F * s') with (U * F * (U * s')) by lia.
    apply Z.mul_le_mono_nonneg_l; [nia|lia]. }
  assert (U * F * (U - n) <= (U + 1) * (U + 1) * total) as H2.
  { apply (Z.mul_le_mono_pos_r _ _ (wvals ws) HW). lia. }
  destruct (Z_le_dec F total); [done|exfalso].
  assert (U * (total + 1) * (U - n) <= (U + 1) * (U + 1) * total) as H3.
  { eapply Z.le_trans; [|exact H2]. apply Z.mul_le_mono_nonneg_r; nia. }
  nia.
Qed.

(** ** Handing out the leftover *)

Lemma i32_add_small a b : in_i32 (a + b) → i32_add a b = a + b.
Proof. apply wrap_i32_id. Qed.

Lemma i32_sub_small a b : in_i32 (a - b) → i32_sub a b = a - b.
Proof. apply wrap_i32_id. Qed.

Lemma assigned_small l a t :
  Forall (λ f, 0 <= f) l → 0 <= a → a + sumZ l <= t → t <= i32_max →
  foldl i32_add a l = a + sumZ l.
Proof.
  intros Hl. revert a. induction Hl as [|f l Hf Hl IH]; intros a Ha Hs Ht.
  - cbn in *. lia.
  - cbn [foldl]. rewrite sumZ_cons in *. pose proof (sumZ_nonneg _ Hl).
    rewrite i32_add_small by (unfold in_i32, i32_min, i32_max in *; lia).
    rewrite IH; lia.
Qed.

Lemma sumZ_alter k (l : list Z) p :
  l !! k = Some p → sumZ (alter (λ x, 1 + x) k l) = sumZ l + 1.
Proof.
  revert k. induction l as [|x l IH]; intros [|k] H; simplify_eq/=; [lia|].
  change (x + sumZ (alter (λ x, 1 + x) k l) = x + sumZ l + 1). rewrite (IH k H). lia.
Qed.

Lemma sumZ_lookup_le k (l : list Z) p :
  Forall (λ f, 0 <= f) l → l !! k = Some p → 0 <= p <= sumZ l.
Proof.
  intros Hl. revert k. induction Hl as [|x l Hx Hl IH]; intros [|k] H; simplify_eq/=;
    fold (sumZ l); pose proof (sumZ_nonneg _ Hl); [lia|]. specialize (IH k H). lia.
Qed.

Lemma hand_out_ok leftover i order parts :
  Forall (λ k, (k < length parts)%nat) order → order ≠ [] →
  Forall (λ f, 0 <= f) parts → sumZ parts + Z.of_nat leftover <= i32_max →
  let ps := hand_out leftover i order parts in
  length ps = length parts ∧ Forall (λ f, 0 <= f) ps
  ∧ sumZ ps = sumZ parts + Z.of_nat leftover ∧ Forall2 Z.le parts ps.
Proof.
  revert i parts. induction leftover as [|left IH]; intros i parts Ho Hne Hp Hs; cbn [hand_out].
  { split_and!; [done|done|lia|]. apply Forall2_same_length_lookup_2; [done|].
    intros j x y Hx Hy. rewrite Hx in Hy. by injection Hy as ->. }
  assert (i `mod` length order < length order)%nat as Hi.
  { apply Nat.mod_upper_bound. by destruct order. }
  destruct (lookup_lt_is_Some_2 order _ Hi) as [k Hk]. rewrite Hk.
  assert (k < length parts)%nat as Hkl by (rewrite Forall_forall in Ho; by apply Ho, (list_elem_of_lookup_2 _ _ _ Hk)).
  destruct (lookup_lt_is_Some_2 parts k Hkl) as [p Hpk].
  pose proof (sumZ_lookup_le _ _ _ Hp Hpk) as Hpb.
  assert (alter (i32_add 1) k parts = alter (λ x, 1 + x) k parts) as Ealt.
  { apply list_eq. intros j. destruct (decide (j = k)) as [->|].
    - rewrite !list_lookup_alter, Hpk. cbn.
      rewrite i32_add_small; [done|]. unfold in_i32, i32_min, i32_max in *. lia.
    - by rewrite !list_lookup_alter_ne. }
  rewrite Ealt. pose proof (sumZ_alter _ _ _ Hpk) as Hsum.
  destruct (IH (S i) (alter (λ x, 1 + x) k parts)) as (Hl & Hf & Hs' & Hmono).
  - by rewrite length_alter.
  - done.
  - apply Forall_lookup. intros j x. destruct (decide (j = k)) as [->|].
    + rewrite list_lookup_alter, decide_True, Hpk by done. cbn. intros [= <-]. lia.
    + rewrite list_lookup_alter_ne by done. intros Hj. rewrite Forall_lookup in Hp. eauto.
  - lia.
  - rewrite length_alter in Hl. split_and!; [done|done|lia|].
    etransitivity; [|exact Hmono]. apply Forall2_same_length_lookup_2; [by rewrite length_alter|].
    intros j x y Hx Hy. rewrite list_lookup_alter in Hy.
    destruct (decide (k = j)) as [->|]; rewrite Hx in Hy; cbn in Hy; simplify_eq; lia.
Qed.

(** ** The order of the remainders is a permutation of the indices *)

Lemma insert_remainder_Permutation a l : insert_remainder a l ≡ₚ a :: l.
Proof.
  induction l as [|b l IH]; cbn; [done|]. destruct (remainder_le a b); [done|].
  rewrite IH. apply Permutation_swap.
Qed.

Lemma sort_remainders_Permutation l : sort_remainders l ≡ₚ l.
Proof.
  induction l as [|a l IH]; [done|].
  change (sort_remainders (a :: l)) with (insert_remainder a (sort_remainders l)).
  by rewrite insert_remainder_Permutation, IH.
Qed.

Lemma remainder_order_ok (l : list spec_float) :
  Forall (λ k, (k < length l)%nat)
    (snd <$> sort_remainders (imap (λ i s, (s, i)) l)).
Proof.
  apply Forall_fmap, Forall_forall. intros [x k] Hin.
  rewrite sort_remainders_Permutation in Hin.
  apply elem_of_lookup_imap in Hin as (i & y & [= -> ->] & Hi). cbn.
  by apply lookup_lt_Some in Hi.
Qed.

(** ** The whole partition *)

(** Every part is non-negative and together they are the total. *)
Definition exact_parts (total : Z) (n : nat) (parts : list Z) : Prop :=
  length parts = n ∧ Forall (λ p, 0 <= p) parts ∧ sumZ parts = total.

(** The bound under which no rounding error can reach a whole unit. *)
Definition partition_bound (total : Z) (n : nat) : Prop :=
  (total + 1) * (Z.of_nat n + 2) <= U.

Lemma partition_shares_exact total ws s d :
  0 < total → partition_bound total (length ws) → Forall (λ w, weight_ok w = true) ws →
  ws ≠ [] → pos32 (weight_sum ws) s d →
  exact_parts total (length ws) (partition_shares total ws)
  ∧ Forall2 Z.le (fst <$> (share total (weight_sum ws) <$> ws)) (partition_shares total ws).
Proof.
  intros Ht Hb Hws Hne Hs. unfold partition_bound in Hb.
  destruct (floors_le_total total ws s d Ht Hb Hws Hs) as [Hf0 HfT].
  unfold partition_shares. set (shares := share total (weight_sum ws) <$> ws) in *.
  assert (total < U) as HtU by nia.
  rewrite (assigned_small _ 0 total Hf0) by (unfold i32_max; lia).
  rewrite i32_sub_small, Z.add_0_l
    by (pose proof (sumZ_nonneg _ Hf0); unfold in_i32, i32_min, i32_max; lia).
  assert (imap (λ (i : nat) (s0 : Z * spec_float), (snd s0, i)) shares
    = imap (λ i x, (x, i)) (snd <$> shares)) as -> by (by rewrite imap_fmap).
  pose proof (remainder_order_ok (snd <$> shares)) as Ho.
  rewrite length_fmap in Ho.
  destruct (hand_out_ok (Z.to_nat (total - sumZ (fst <$> shares))) 0
    (snd <$> sort_remainders (imap (λ i x, (x, i)) (snd <$> shares))) (fst <$> shares))
    as (Hl & Hp & Hsum & Hge); [by rewrite length_fmap| |done|unfold i32_max; lia|].
  - intros E. apply (f_equal length) in E.
    rewrite length_fmap, sort_remainders_Permutation, length_imap, length_fmap in E.
    unfold shares in E. rewrite length_fmap in E. by destruct ws.
  - split; [|done]. split_and!; [|done|lia].
    rewrite Hl, length_fmap. apply length_fmap.
Qed.

Lemma weight_sum_cases ws :
  Z.of_nat (length ws) < 8388608 → Forall (λ w, weight_ok w = true) ws →
  SFleb (weight_sum ws) f32_zero = true ∨
  (SFleb (weight_sum ws) f32_zero = false ∧ ∃ s d, pos32 (weight_sum ws) s d).
Proof.
  intros Hn Hws. destruct (weight_sum_ok ws Hn Hws) as [[Hz _]|(s & d & Hs & _)].
  - left. by destruct (weight_sum ws) as [[]| | |].
  - right. split; [|eauto]. destruct Hs as (m & e & -> & _). done.
Qed.

Lemma weight_ok_ones n : Forall (λ w, weight_ok w = true) (replicate n f32_one).
Proof. apply Forall_replicate. by vm_compute. Qed.

Lemma wvals_ones n : wvals (replicate n f32_one) = Z.of_nat n * K.
Proof.
  induction n as [|n IH]; [done|].
  change (wvals (replicate (S n) f32_one)) with (wval f32_one + wvals (replicate n f32_one)).
  rewrite IH. change (wval f32_one) with K. lia.
Qed.

Lemma partition_exact_parts total ws :
  0 < total → ws ≠ [] → partition_bound total (length ws) →
  Forall (λ w, weight_ok w = true) ws →
  exact_parts total (length ws) (partition total ws).
Proof.
  intros Ht Hne Hb Hws.
  assert (Z.of_nat (length ws) < 8388608) as Hn by (unfold partition_bound in Hb; nia).
  unfold partition. destruct ws as [|w ws']; [done|]. set (ws := w :: ws') in *.
  rewrite (proj2 (Z.leb_gt total 0) Ht).
  destruct (weight_sum_cases ws Hn Hws) as [->|[-> (s & d & Hs)]].
  - pose proof (weight_sum_ok (replicate (length ws) f32_one)) as H.
    rewrite length_replicate, wvals_ones in H.
    destruct (H Hn (weight_ok_ones _)) as [[_ H0]|(s & d & Hs & _)].
    { pose proof K_pos. cbn [length ws] in H0. lia. }
    rewrite <-(length_replicate (length ws) f32_one) at 1.
    eapply partition_shares_exact; try done.
    + by rewrite length_replicate.
    + apply weight_ok_ones.
  - by eapply partition_shares_exact.
Qed.

(** C18. For every total and every list of weights small enough for single
    precision (one part in [2^24] per operation), [partition] answers one part
    per weight, none negative, and together they are exactly the total: the
    largest-remainder loop always closes the gap the floors leave. *)
Theorem partition_sums_exactly (total : Z) (ws : list spec_float) :
  0 < total → ws ≠ [] → (total + 1) * (Z.of_nat (length ws) + 2) <= 2 ^ 24 →
  Forall (λ w, weight_ok w = true) ws →
  length (partition total ws) = length ws
  ∧ Forall (λ p, 0 <= p) (partition total ws)
  ∧ foldr Z.add 0 (partition total ws) = total.
Proof. intros. by apply partition_exact_parts. Qed.

Definition sample_weights : list spec_float := [f32_ratio 1 3; S754_nan; f32_ratio 2 3].

Lemma partition_sums_exactly_witness :
  0 < 1000 ∧ length (partition 1000 sample_weights) = 3%nat.
Proof.
  split; [done|]. refine (proj1 (partition_sums_exactly 1000 sample_weights _ _ _ _)).
  - done.
  - done.
  - by vm_compute.
  - repeat constructor.
Defined.
