(* ===== verification/Tiling.v ===== *)
(** * The layouts tile their region

    A list of rectangles tiles a region when every integer point of the region
    lies in exactly one of them and no other point lies in any.  [grid], [even]
    and [triptych] are shown to tile, which is "no gaps and no overlaps" of
    [layout.rs] in one statement. *)

From Stdlib Require Import ZArith Lia SpecFloat.
From stdpp Require Import prelude.
From S2P Require Import Prelude Float FloatError Layout Partition.

Local Open Scope Z_scope.

(** ** Points *)

Definition in_span (z lo len : Z) : bool := (lo <=? z) && (z <? lo + len).

Definition inside (px py : Z) (r : Rect) : bool :=
  in_span px (rect_x r) (rect_w r) && in_span py (rect_y r) (rect_h r).

(** How many of the rectangles a point lies in. *)
Definition cover (px py : Z) (rs : list Rect) : nat :=
  foldr (λ r n, (Nat.b2n (inside px py r) + n)%nat) 0%nat rs.

Definition tiles (a : Rect) (rs : list Rect) : Prop :=
  ∀ px py, cover px py rs = Nat.b2n (inside px py a).

Lemma cover_cons px py r rs : cover px py (r :: rs) = (Nat.b2n (inside px py r) + cover px py rs)%nat.
Proof. done. Qed.

Lemma cover_app px py rs1 rs2 : cover px py (rs1 ++ rs2) = (cover px py rs1 + cover px py rs2)%nat.
Proof. induction rs1 as [|r rs1 IH]; [done|]. rewrite <-app_comm_cons, !cover_cons, IH. lia. Qed.

(** A span cut in two. *)
Lemma in_span_split z lo a b :
  0 <= a → 0 <= b →
  Nat.b2n (in_span z lo (a + b)) = (Nat.b2n (in_span z lo a) + Nat.b2n (in_span z (lo + a) b))%nat.
Proof.
  intros Ha Hb. unfold in_span.
  destruct (Z.leb_spec lo z), (Z.ltb_spec z (lo + (a + b))), (Z.ltb_spec z (lo + a)),
    (Z.leb_spec (lo + a) z), (Z.ltb_spec z (lo + a + b)); cbn; lia.
Qed.

Lemma in_span_zero z lo : in_span z lo 0 = false.
Proof. unfold in_span. lia. Qed.

(** A rectangle the code can add up without leaving [i32]. *)
Definition rect_small (a : Rect) : Prop :=
  0 <= rect_x a ∧ 0 <= rect_y a ∧ 0 <= rect_w a ∧ 0 <= rect_h a
  ∧ rect_x a + rect_w a <= i32_max ∧ rect_y a + rect_h a <= i32_max.

(** ** One row *)

Lemma grid_row_cover px py x y h ws :
  0 <= x → Forall (λ w, 0 <= w) ws → x + sumZ ws <= i32_max →
  cover px py (grid_row x y h ws)
  = Nat.b2n (in_span px x (sumZ ws) && in_span py y h).
Proof.
  intros Hx Hws. revert x Hx. induction Hws as [|w ws Hw Hws IH]; intros x Hx Hb.
  - cbn [sumZ foldr grid_row]. by rewrite in_span_zero.
  - rewrite sumZ_cons in *. pose proof (sumZ_nonneg _ Hws) as Hn. cbn [grid_row].
    rewrite cover_cons, i32_add_small by (unfold in_i32, i32_min, i32_max in *; lia).
    rewrite IH by lia. unfold inside. cbn [rect_x rect_y rect_w rect_h Rect_new].
    pose proof (in_span_split px x w (sumZ ws) Hw ltac:(lia)) as Hs.
    destruct (in_span py y h); rewrite ?andb_true_r, ?andb_false_r; [lia|done].
Qed.

Lemma grid_row_length x y h ws : length (grid_row x y h ws) = length ws.
Proof. revert x. induction ws as [|w ws IH]; intros x; cbn; [done|]. by rewrite IH. Qed.

(** ** The weights the layouts use are covered by the partition theorem *)

Lemma uniform_weights_ok n :
  (0 < n)%nat → Z.of_nat n < U → Forall (λ w, weight_ok w = true) (uniform_weights n).
Proof.
  intros Hn Hu. apply Forall_replicate.
  destruct (f32_of_Z_pos 1 ltac:(lia)) as (d1 & H1 & Hd1).
  destruct (f32_of_Z_pos (Z.of_nat n) ltac:(lia)) as (dn & Hpn & Hdn).
  change (Zdigits2 1) with 1 in Hd1.
  pose proof (Zdigits2_24 (Z.of_nat n) ltac:(lia)) as Hb. rewrite <-Hdn in Hb.
  destruct (f32_div_pos _ _ _ _ _ _ H1 Hpn) as (w & d & Hw & _ & _ & Hd); [lia|].
  apply (pos32_weight_ok _ _ _ Hw). lia.
Qed.

(** A clamped ratio is a NaN or between [2^-3] and [0.85], with its exponent in
    one of the three binades of that range. *)
Definition ratio_ok (r : spec_float) : Prop :=
  r = S754_nan ∨
  ∃ m e, r = S754_finite false m e ∧ -26 <= e <= -24 ∧ 8388608 <= Zpos m < U
    ∧ (e = -24 → Zpos m <= 14260634) ∧ (e = -26 → 10066330 <= Zpos m).

Definition clamp_ratio : spec_float → spec_float :=
  float_clamp (f32_ratio 15 100) (f32_ratio 85 100).

Lemma valid_f32 s m e :
  valid_binary 24 128 (S754_finite s m e) = true → -149 < e → 8388608 <= Zpos m < U.
Proof.
  cbn. unfold bounded, canonical_mantissa, fexp, emin. intros [H _]%andb_prop He.
  apply Z.eqb_eq in H. change (Zpos (digits2_pos m)) with (Zdigits2 (Zpos m)) in H.
  destruct (Zdigits2_bounds (Zpos m)) as (_ & Hl & Hu); [lia|].
  assert (Zdigits2 (Zpos m) = 24) as E by lia. rewrite E in *.
  change (2 ^ (24 - 1)) with 8388608 in Hl. change (2 ^ 24) with U in Hu. lia.
Qed.

(** Comparing two positive singles. *)
Lemma SFltb_pos m1 e1 m2 e2 :
  SFltb (S754_finite false m1 e1) (S754_finite false m2 e2)
  = ((e1 <? e2) || ((e1 =? e2) && (Zpos m1 <? Zpos m2))).
Proof.
  unfold SFltb, SFcompare.
  change (PosDef.Pos.compare_cont Eq m1 m2) with (m1 ?= m2)%positive.
  destruct (Z.compare_spec e1 e2) as [->|He|He].
  - rewrite Z.ltb_irrefl, Z.eqb_refl. cbn.
    destruct (Pos.compare_spec m1 m2) as [->|Hm|Hm]; symmetry;
      [apply Z.ltb_irrefl|apply Z.ltb_lt; lia|apply Z.ltb_ge; lia].
  - by rewrite (proj2 (Z.ltb_lt _ _) He).
  - by rewrite (proj2 (Z.ltb_ge _ _)), (proj2 (Z.eqb_neq _ _)) by lia.
Qed.

(** The first comparison of [clamp]. *)
Lemma clamp_low x :
  valid_binary 24 128 x = true →
  let y := if SFltb x (S754_finite false 10066330 (-26))
           then S754_finite false 10066330 (-26) else x in
  y = S754_nan ∨ y = S754_infinity false ∨
  ∃ m e, y = S754_finite false m e ∧ 8388608 <= Zpos m < U
    ∧ -26 <= e ∧ (e = -26 → 10066330 <= Zpos m).
Proof.
  intros Hx. destruct x as [[]|[]| |[] m e]; cbv zeta; try (by left); try (right; by left).
  1-4: right; right; exists 10066330%positive, (-26); split; [done|lia].
  rewrite SFltb_pos. right; right.
  destruct (Z.ltb_spec e (-26)); [|destruct (Z.eqb_spec e (-26)) as [->|];
    [destruct (Z.ltb_spec (Zpos m) 10066330)|]];
    cbn [orb andb]; eexists _, _; (split; [done|]); try lia;
    pose proof (valid_f32 _ _ _ Hx); lia.
Qed.

Lemma clamp_ratio_ok x : valid_binary 24 128 x = true → ratio_ok (clamp_ratio x).
Proof.
  intros Hx. unfold clamp_ratio, float_clamp.
  replace (f32_ratio 15 100) with (S754_finite false 10066330 (-26)) by (by vm_compute).
  replace (f32_ratio 85 100) with (S754_finite false 14260634 (-24)) by (by vm_compute).
  pose proof (clamp_low x Hx) as Hlow. cbv zeta in Hlow.
  destruct Hlow as [->|[->|(m & e & -> & Hm & He & Hl)]]; [by left| |].
  - right. exists 14260634%positive, (-24). split; [done|lia].
  - rewrite SFltb_pos. right.
    destruct (Z.ltb_spec (-24) e); [|destruct (Z.eqb_spec (-24) e) as [<-|];
      [destruct (Z.ltb_spec 14260634 (Zpos m))|]];
      cbn [orb andb]; eexists _, _; (split; [done|]); lia.
Qed.

(** [1.0 - r] for such a ratio. *)
Lemma one_sub_ratio m e :
  -26 <= e <= -24 → 8388608 <= Zpos m < U → (e = -24 → Zpos m <= 14260634) →
  ∃ w d, pos32 (f32_sub f32_one (S754_finite false m e)) w d
    ∧ -10 <= d <= 5
    ∧ U * w <= (U + 1) * (K - V (Zpos m) e) ∧ (U - 1) * (K - V (Zpos m) e) <= U * w.
Proof.
  intros He Hm Hhi. change f32_one with (S754_finite false 8388608 (-23)).
  unfold f32_sub, SFsub. rewrite Z.min_r by lia.
  destruct (shl_align_pos 8388608 (-23) e) as [-> _].
  destruct (shl_align_pos m e e) as [-> _]. unfold cond_Zopp, binary_normalize.
  rewrite Z.sub_diag, (Z.max_r 0 (-23 - e)), Z.max_id, Z.pow_0_r, Z.mul_1_r by lia.
  assert (8388608 * 2 ^ (-23 - e) = U ∧ e = -24 ∨ 8388608 * 2 ^ (-23 - e) = 33554432 ∧ e = -25
    ∨ 8388608 * 2 ^ (-23 - e) = 67108864 ∧ e = -26) as Hc.
  { assert (e = -24 ∨ e = -25 ∨ e = -26) as [->|[->| ->]] by lia; [left|right; left|right; right]; done. }
  remember (8388608 * 2 ^ (-23 - e)) as A eqn:HA.
  assert (2097152 < A - Zpos m < 67108864) as Hd by lia.
  destruct (A - Zpos m) as [|p|p] eqn:Ep; try lia.
  assert (21 < Zdigits2 (Zpos p) <= 26) as Hdig.
  { split; [apply Zdigits2_ge; [lia..|]|apply Zdigits2_le; [lia..|]].
    - change (2 ^ 21) with 2097152. lia.
    - change (2 ^ 26) with 67108864. lia. }
  destruct (binary_round_ok p e) as (m' & e' & -> & He' & Hm' & Hup & Hlo & Hdm & _);
    [lia|unfold dexp; lia|].
  assert (V (Zpos p) e = K - V (Zpos m) e) as HV.
  { rewrite <-Ep. unfold V, K. rewrite Z.mul_sub_distr_r. f_equal. rewrite HA.
    change 8388608 with (2 ^ 23).
    rewrite <-(Z_pow2_add 23), <-Z_pow2_add by lia. f_equal. lia. }
  rewrite HV in *. exists (V (Zpos m') e'), (dexp (Zpos m') e').
  split; [by exists m', e'|]. unfold dexp in *. lia.
Qed.

Lemma ratio_weights_ok r :
  ratio_ok r → Forall (λ w, weight_ok w = true) [r; f32_sub f32_one r].
Proof.
  intros [->|(m & e & -> & He & Hm & Hhi & _)]; [by repeat constructor|].
  destruct (one_sub_ratio m e He Hm Hhi) as (w & d & Hw & Hd & _).
  repeat constructor; [|by apply (pos32_weight_ok _ _ _ Hw); lia].
  unfold weight_ok, is_f32, dexp.
  assert (Zdigits2 (Zpos m) = 24) as ->.
  { apply Zdigits2_unique; [done|]. change (2 ^ (24 - 1)) with 8388608. change (2 ^ 24) with U. lia. }
  lia.
Qed.

(** The parameters [grid] is called with: none, or ratios as [clamp] leaves them. *)
Definition grid_params_ok (p : option TriptychParams) : Prop :=
  match p with
  | None => True
  | Some p => ratio_ok (stack_primary_ratio p) ∧ ratio_ok (primary_row_ratio p)
  end.

Lemma col_weights_ok k p :
  (0 < k)%nat → Z.of_nat k < U → grid_params_ok p →
  Forall (λ w, weight_ok w = true) (col_weights k p) ∧ length (col_weights k p) = k.
Proof.
  intros Hk Hu Hp.
  destruct k as [|[|[|k]]], p as [p|]; try lia; cbn [col_weights];
    try (split; [apply uniform_weights_ok; lia|apply length_replicate]).
  split; [apply ratio_weights_ok, Hp|done].
Qed.

Lemma row_weights_ok k p :
  (0 < k)%nat → Z.of_nat k < U → grid_params_ok p →
  Forall (λ w, weight_ok w = true) (row_weights k p) ∧ length (row_weights k p) = k.
Proof.
  intros Hk Hu Hp.
  destruct k as [|[|[|k]]], p as [p|]; try lia; cbn [row_weights];
    try (split; [apply uniform_weights_ok; lia|apply length_replicate]).
  split; [apply ratio_weights_ok, Hp|done].
Qed.

Lemma weights_parts total k ws :
  0 < total → (0 < k)%nat → partition_bound total k →
  Forall (λ w, weight_ok w = true) ws ∧ length ws = k →
  exact_parts total k (partition total ws).
Proof.
  intros Ht Hk Hb [Hws <-]. apply partition_exact_parts; try done. intros ->. by apply Nat.lt_irrefl in Hk.
Qed.

Lemma partition_bound_le total k n :
  0 < total → (k <= n)%nat → partition_bound total n → partition_bound total k.
Proof. unfold partition_bound. nia. Qed.

Lemma partition_bound_lt total n : 0 < total → partition_bound total n → Z.of_nat n < U ∧ total < U.
Proof. unfold partition_bound. nia. Qed.

(** ** The grid *)

Lemma grid_rows_ok n a cols p heights row y px py :
  (0 < cols <= n)%nat → rect_small a → 0 < rect_w a → partition_bound (rect_w a) n →
  grid_params_ok p → 0 <= y → Forall (λ h, 0 <= h) heights → y + sumZ heights <= i32_max →
  (heights = [] ∨ (row + length heights - 1) * cols < n)%nat →
  cover px py (grid_rows n a cols p row y heights)
  = Nat.b2n (in_span px (rect_x a) (rect_w a) && in_span py y (sumZ heights))
  ∧ length (grid_rows n a cols p row y heights)
    = Nat.min (length heights * cols) (n - row * cols).
Proof.
  intros Hc Ha Hw Hb Hp Hy Hh. revert row y Hy.
  induction Hh as [|h hs Hh Hhs IH]; intros row y Hy Hs Hrow.
  { cbn [grid_rows sumZ foldr]. rewrite in_span_zero, andb_false_r. by split. }
  destruct Hrow as [|Hrow]; [done|]. cbn [length] in Hrow.
  assert (row * cols < n)%nat as Hfirst by nia.
  cbn [grid_rows]. rewrite (proj2 (Nat.leb_gt _ _) Hfirst).
  rewrite sumZ_cons in *. pose proof (sumZ_nonneg _ Hhs) as Hn.
  destruct Ha as (Hx0 & Hy0 & Hw0 & Hh0 & Hxw & Hyh).
  destruct (partition_bound_lt _ _ Hw Hb) as [HnU _].
  set (k := Nat.min cols (n - row * cols)).
  assert (0 < k <= n)%nat as Hk by lia.
  destruct (weights_parts (rect_w a) k (col_weights k p)) as (Hl & Hpos & Hsum);
    [done|lia|apply (partition_bound_le _ _ n); [done|lia|done]|apply col_weights_ok; [lia|lia|done]|].
  destruct (IH (S row) (i32_add y h)) as [IHc IHl];
    rewrite ?i32_add_small by (unfold in_i32, i32_min, i32_max in *; lia); [lia|lia| |].
  { destruct hs; [by left|right]. cbn [length] in *. lia. }
  rewrite i32_add_small in IHc, IHl by (unfold in_i32, i32_min, i32_max in *; lia).
  rewrite cover_app, IHc, grid_row_cover, Hsum by (done || lia). split.
  - pose proof (in_span_split py y h (sumZ hs) Hh Hn).
    destruct (in_span px (rect_x a) (rect_w a)); cbn [andb]; [lia|done].
  - rewrite length_app, grid_row_length, Hl, IHl. cbn [length]. lia.
Qed.

Lemma div_ceil_ok n cols :
  (0 < cols <= n)%nat →
  (0 < div_ceil n cols <= n ∧ (div_ceil n cols - 1) * cols < n ∧ n <= div_ceil n cols * cols)%nat.
Proof.
  intros Hc. unfold div_ceil.
  pose proof (Nat.div_mod_eq (n + cols - 1) cols) as Hd.
  pose proof (Nat.mod_upper_bound (n + cols - 1) cols ltac:(lia)) as Hm.
  set (q := ((n + cols - 1) / cols)%nat) in *. clearbody q.
  assert (0 < q)%nat by nia. nia.
Qed.

(** What a layout of [n] windows promises of its answer. *)
Definition lays_out (n : nat) (a : Rect) (rs : list Rect) : Prop :=
  length rs = n ∧ tiles a rs.

(** The region of a layout: not empty, inside [i32], and small enough for exact
    partitions among [n] windows. *)
Definition region_ok (n : nat) (a : Rect) : Prop :=
  rect_small a ∧ 0 < rect_w a ∧ 0 < rect_h a
  ∧ partition_bound (rect_w a) n ∧ partition_bound (rect_h a) n.

Lemma grid_lays_out n a cols p :
  (0 < n)%nat → region_ok n a → grid_params_ok p → lays_out n a (grid n a cols p).
Proof.
  intros Hn (Ha & Hw & Hh & Hbw & Hbh) Hp. unfold grid.
  rewrite (proj2 (Nat.eqb_neq _ _)), !(proj2 (Z.leb_gt _ _)) by lia. cbn [orb].
  set (c := nat_clamp 1 n cols). assert (0 < c <= n)%nat as Hc by (unfold c, nat_clamp; lia).
  destruct (div_ceil_ok n c Hc) as (Hr & Hlast & Hall). set (rows := div_ceil n c) in *.
  destruct (partition_bound_lt _ _ Hh Hbh) as [HnU _].
  destruct (weights_parts (rect_h a) rows (row_weights rows p)) as (Hl & Hpos & Hsum);
    [done|lia|apply (partition_bound_le _ _ n); [done|lia|done]|apply row_weights_ok; [lia|lia|done]|].
  assert (∀ px py, _) as H by (intros px py; apply (grid_rows_ok n a c p
    (partition (rect_h a) (row_weights rows p)) 0 (rect_y a) px py Hc Ha Hw Hbw Hp);
    [apply Ha|done|rewrite Hsum; apply Ha|right; rewrite Hl; lia]).
  split.
  - destruct (H 0 0) as [_ ->]. rewrite Hl. lia.
  - intros px py. destruct (H px py) as [-> _]. by rewrite Hsum.
Qed.

(** ** The triptych *)

(** Each of two weights gets a unit when neither is less than a seventh of their
    sum and there are at least eight units. *)
Lemma pair_positive total w0 w1 v0 v1 d0 d1 :
  8 <= total → partition_bound total 2 →
  pos32 w0 v0 d0 → -40 <= d0 <= 8 → pos32 w1 v1 d1 → -40 <= d1 <= 8 →
  v0 + v1 <= 7 * v0 → v0 + v1 <= 7 * v1 →
  ∃ c0 c1, partition_shares total [w0; w1] = [c0; c1] ∧ 1 <= c0 ∧ 1 <= c1 ∧ c0 + c1 = total.
Proof.
  intros Ht Hb H0 Hd0 H1 Hd1 Hv0 Hv1.
  destruct (partition_bound_lt total 2 ltac:(lia) Hb) as [_ HtU].
  assert (Forall (λ w, weight_ok w = true) [w0; w1]) as Hws
    by (repeat constructor; eauto using pos32_weight_ok).
  assert (wval w0 = v0 ∧ wval w1 = v1) as [Hw0 Hw1].
  { destruct H0 as (? & ? & -> & _ & _ & -> & _), H1 as (? & ? & -> & _ & _ & -> & _). done. }
  assert (wvals [w0; w1] = v0 + v1) as Hwv by (cbn; lia).
  pose proof (pos32_pos _ _ _ H0). pose proof (pos32_pos _ _ _ H1).
  destruct (weight_sum_ok [w0; w1] ltac:(done) Hws) as [[_ Hz]|(s & d & Hs & _ & _ & Hup & Hd)];
    [lia|]. rewrite Hwv in Hup. cbn [length] in Hup.
  destruct (partition_shares_exact total [w0; w1] s d ltac:(lia) Hb Hws ltac:(done) Hs)
    as [(Hl & _ & Hsum) Hge].
  destruct (partition_shares total [w0; w1]) as [|c0 [|c1 [|c2 l]]]; try done.
  exists c0, c1. cbn [fmap list_fmap] in Hge.
  apply Forall2_cons in Hge as [Hc0 [Hc1 _]%Forall2_cons].
  cbn in Hsum. split; [done|].
  assert (∀ v, v0 + v1 <= 7 * v → U * U * s <= (U - 1) * (U - 1) * (total * v)) as Hdue by nia.
  split; [|split; [|lia]]; (eapply Z.le_trans; [|eassumption]);
    eapply share_positive; eauto; lia.
Qed.

Lemma ratio_partition total r :
  8 <= total → partition_bound total 2 → ratio_ok r →
  ∃ c0 c1, partition total [r; f32_sub f32_one r] = [c0; c1] ∧ 1 <= c0 ∧ 1 <= c1
    ∧ c0 + c1 = total.
Proof.
  intros Ht Hb Hr. unfold partition. rewrite (proj2 (Z.leb_gt total 0)) by lia.
  destruct Hr as [->|(m & e & -> & He & Hm & Hhi & Hlo)].
  - replace (SFleb _ _) with true by (by vm_compute). cbn [length replicate].
    assert (pos32 f32_one K 1) as H1.
    { exists 8388608%positive, (-23). split_and!; try done; by vm_compute. }
    apply (pair_positive total f32_one f32_one K K 1 1); try done; pose proof K_pos; lia.
  - destruct (one_sub_ratio m e He Hm Hhi) as (w & d & Hw & Hd & Hup & Hlow).
    assert (pos32 (S754_finite false m e) (V (Zpos m) e) (dexp (Zpos m) e)) as Hp
      by (exists m, e; split_and!; try done; lia).
    assert (Zdigits2 (Zpos m) = 24) as Hdig.
    { apply Zdigits2_unique; [done|]. change (2 ^ (24 - 1)) with 8388608.
      change (2 ^ 24) with U. lia. }
    assert (10066330 * K <= V (Zpos m) e * 67108864 <= 57042536 * K) as Hv.
    { unfold V, K. change 67108864 with (2 ^ 26).
      replace (2 ^ 149) with (2 ^ 23 * 2 ^ 126) by done.
      assert (e = -24 ∨ e = -25 ∨ e = -26) as [->|[->| ->]] by lia; lia. }
    destruct (weight_sum_cases [S754_finite false m e; f32_sub f32_one (S754_finite false m e)]
      ltac:(done)) as [Hz|[-> _]].
    + apply ratio_weights_ok. right. exists m, e. split; [done|lia].
    + exfalso.
      destruct (f32_add_pos _ _ _ _ _ _ Hp Hw) as (s & ds & Hs & _); [unfold dexp; lia|lia|].
      revert Hz. unfold weight_sum. cbn [foldl].
      rewrite (SFadd_zero_l f32_zero) by done.
      assert (∀ x v d, pos32 x v d → float_max x f32_zero = x) as Hmax
        by (by intros ??? (? & ? & -> & _)).
      rewrite (Hmax _ _ _ Hp), (Hmax _ _ _ Hw).
      destruct Hs as (m' & e' & -> & _). done.
    + apply (pair_positive total _ _ _ _ _ _ Ht Hb Hp ltac:(unfold dexp; lia) Hw ltac:(lia)); lia.
Qed.
