(* ===== verification/Ledger.v ===== *)
(** * realm-core/src/ledger.rs: the ordered record of every window

    The state ([Orbit], [Snapshot], [Ledger]), the mutations, the invariant
    [ledger_wf] and its preservation by each of them, and what each mutation
    does to the window order, the focus and the undo stack. *)

From Stdlib Require Import ZArith Lia.
From stdpp Require Import prelude list.
From S2P Require Import Prelude Layout.

(** ** Data *)

Definition ORBIT_COUNT : nat := 6.
Definition HISTORY_DEPTH : nat := 64.

(** [WinId(u64)] *)
Abbreviation WinId := N (only parsing).

(** [OrbitId(u8)]: [new] is the only constructor outside deserialisation. *)
Abbreviation OrbitId := nat (only parsing).

Definition OrbitId_new (i : nat) : option OrbitId :=
  if i <? ORBIT_COUNT then Some i else None.

Definition from_human (n : nat) : option OrbitId :=
  match n with 0 => None | S i => OrbitId_new i end.

Definition human (o : OrbitId) : nat := o + 1.

(** ᚠ ᚢ ᚦ ᚨ ᚱ ᚲ *)
Definition RUNES : list N := [5792; 5794; 5798; 5800; 5809; 5810]%N.

(** Indexing panics on an id past the last orbit, which [new] never returns. *)
Definition rune (o : OrbitId) : N := nth o RUNES 0%N.

Definition OrbitId_all : list OrbitId := seq 0 ORBIT_COUNT.

Inductive Dir := Next | Prev.

#[export] Instance Dir_eq_dec : EqDecision Dir.
Proof. solve_decision. Defined.

Record Orbit := mk_orbit {
  orbit_id : OrbitId;
  windows : list WinId;
  focus : option nat;
  stowed : list WinId;
  layout : Layout;
  fullscreen : option WinId;
  orbit_name : rstring
}.

#[export] Instance Orbit_eq_dec : EqDecision Orbit.
Proof. solve_decision. Defined.

#[export] Instance Orbit_settable : Settable Orbit := λ o,
  mk_orbit (orbit_id o) (windows o) (focus o) (stowed o) (layout o) (fullscreen o)
    (orbit_name o).

Definition NAMES : list rstring :=
  [lit "triptych"; lit "scriptorium"; lit "observatory"; lit "forge"; lit "athenaeum";
   lit "crypt"].

Definition Orbit_new (id : OrbitId) : Orbit := {|
  orbit_id := id; windows := []; focus := None; stowed := [];
  layout := Layout_default; fullscreen := None; orbit_name := nth id NAMES []
|}.

Definition visible (o : Orbit) : list WinId :=
  filter (λ w, w ∉ stowed o) (windows o).

Definition orbit_focused (o : Orbit) : option WinId :=
  focus o ≫= λ i, windows o !! i.

Definition occupied (o : Orbit) : bool := bool_decide (windows o ≠ []).

Definition reseat_focus (hint : nat) (o : Orbit) : Orbit :=
  o <| focus := match windows o with
                | [] => None
                | _ => Some (Nat.min hint (length (windows o) - 1))
                end |>.

Record Snapshot := mk_snapshot { snap_orbits : list Orbit; snap_active : OrbitId }.

#[export] Instance Snapshot_eq_dec : EqDecision Snapshot.
Proof. solve_decision. Defined.

(** [history] and [redo] are stacks whose top is the last element. *)
Record Ledger := mk_ledger {
  orbits : list Orbit;
  active : OrbitId;
  history : list Snapshot;
  redo_stack : list Snapshot
}.

#[export] Instance Ledger_eq_dec : EqDecision Ledger.
Proof. solve_decision. Defined.

#[export] Instance Ledger_settable : Settable Ledger := λ l,
  mk_ledger (orbits l) (active l) (history l) (redo_stack l).

Definition Ledger_new : Ledger := mk_ledger (Orbit_new <$> OrbitId_all) 0 [] [].

(** ** Queries *)

#[export] Instance Orbit_inhabited : Inhabited Orbit := populate (Orbit_new 0).

(** Indexing panics out of range; [ledger_wf] excludes it. *)
Definition orbit (l : Ledger) (id : OrbitId) : Orbit := orbits l !!! id.

Definition active_orbit (l : Ledger) : Orbit := orbit l (active l).

Definition focused (l : Ledger) : option WinId := orbit_focused (active_orbit l).

Definition orbit_of (l : Ledger) (win : WinId) : option OrbitId :=
  (λ p, orbit_id p.2) <$> list_find (λ o, win ∈ windows o) (orbits l).

Definition len (l : Ledger) : nat := sum_list_with (λ o, length (windows o)) (orbits l).

Definition is_empty (l : Ledger) : bool := len l =? 0.

(** ** Mutations *)

Definition upd_orbit (id : OrbitId) (f : Orbit → Orbit) (l : Ledger) : Ledger :=
  l <| orbits := alter f id (orbits l) |>.

Definition snapshot_of (l : Ledger) : Snapshot := mk_snapshot (orbits l) (active l).

Definition trim_history (h : list Snapshot) : list Snapshot :=
  if HISTORY_DEPTH <? length h then vec_remove 0 h else h.

Definition checkpoint (l : Ledger) : Ledger :=
  l <| history := trim_history (history l ++ [snapshot_of l]) |>
    <| redo_stack := [] |>.

Definition discard_undo_history (l : Ledger) : Ledger :=
  l <| history := [] |> <| redo_stack := [] |>.

(** The slot after the focus: [focus.map(|i| i + 1).unwrap_or(0).min(len)]. *)
Definition insert_after_focus (win : WinId) (o : Orbit) : Orbit :=
  let at_ := Nat.min (match focus o with Some i => i + 1 | None => 0 end)
               (length (windows o)) in
  o <| windows := vec_insert at_ win (windows o) |> <| focus := Some at_ |>.

Definition summon (win : WinId) (id : OrbitId) (l : Ledger) : Ledger :=
  match orbit_of l win with
  | Some _ => l
  | None => upd_orbit id (insert_after_focus win) (discard_undo_history l)
  end.

(** Removal of [win] from the list, the stowed set and the fullscreen slot. *)
Definition remove_window (win : WinId) (at_ : nat) (o : Orbit) : Orbit :=
  o <| windows := vec_remove at_ (windows o) |>
    <| stowed := filter (λ w, w ≠ win) (stowed o) |>
    <| fullscreen := if decide (fullscreen o = Some win) then None else fullscreen o |>.

Definition banish (win : WinId) (l : Ledger) : bool * Ledger :=
  match orbit_of l win with
  | None => (false, l)
  | Some id =>
      let l := discard_undo_history l in
      match position win (windows (orbit l id)) with
      | None => (false, l)
      | Some at_ =>
          (true, upd_orbit id (λ o,
             let o := remove_window win at_ o in
             let past := if Nat.max (length (windows o)) 1 <=? at_ then 1 else 0 in
             reseat_focus (at_ - past) o) l)
      end
  end.

Definition focus_window (win : WinId) (l : Ledger) : bool * Ledger :=
  match orbit_of l win with
  | None => (false, l)
  | Some id =>
      let l := checkpoint l <| active := id |> in
      (true, upd_orbit id (λ o, o <| focus := position win (windows o) |>) l)
  end.

(** The neighbour of slot [cur] among [n], wrapping at the ends. *)
Definition step_slot (dir : Dir) (cur n : nat) : nat :=
  match dir with
  | Next => (cur + 1) mod n
  | Prev => (cur + n - 1) mod n
  end.

Definition focus_step (dir : Dir) (l : Ledger) : Ledger :=
  let n := length (windows (active_orbit l)) in
  if n <? 2 then l
  else
    let l := checkpoint l in
    upd_orbit (active l) (λ o,
      let cur := default 0 (focus o) in
      o <| focus := Some (step_slot dir cur n) |>) l.

Definition swap (dir : Dir) (l : Ledger) : bool * Ledger :=
  let o := active_orbit l in
  let n := length (windows o) in
  match focus o with
  | None => (false, l)
  | Some cur =>
      if n <? 2 then (false, l)
      else
        let target := step_slot dir cur n in
        let l := checkpoint l in
        (true, upd_orbit (active l) (λ o,
           o <| windows := vec_swap cur target (windows o) |>
             <| focus := Some target |>) l)
  end.

(** [position(..).unwrap()] cannot fail: [win] was read from the same list. *)
Definition move_to_orbit (target : OrbitId) (l : Ledger) : bool * Ledger :=
  match focused l with
  | None => (false, l)
  | Some win =>
      if decide (target = active l) then (false, l)
      else
        let l := checkpoint l in
        let at_ := default 0 (position win (windows (active_orbit l))) in
        let l := upd_orbit (active l) (λ o,
                   reseat_focus (at_ - 1) (remove_window win at_ o)) l in
        (true, upd_orbit target (insert_after_focus win) l)
  end.

Definition switch_orbit (target : OrbitId) (l : Ledger) : Ledger :=
  if decide (target = active l) then l else checkpoint l <| active := target |>.

Definition toggle_stow (l : Ledger) : bool * Ledger :=
  match focused l with
  | None => (false, l)
  | Some win =>
      let l := checkpoint l in
      (true, upd_orbit (active l) (λ o,
         o <| stowed := match position win (stowed o) with
                        | Some at_ => vec_remove at_ (stowed o)
                        | None => stowed o ++ [win]
                        end |>) l)
  end.

Definition toggle_fullscreen (l : Ledger) : bool * Ledger :=
  match focused l with
  | None => (false, l)
  | Some win =>
      let l := checkpoint l in
      (true, upd_orbit (active l) (λ o,
         o <| fullscreen := if decide (fullscreen o = Some win) then None else Some win |>) l)
  end.

Definition set_layout (lay : Layout) (l : Ledger) : Ledger :=
  if decide (layout (active_orbit l) = lay) then l
  else
    let l := checkpoint l in
    upd_orbit (active l) (λ o, o <| layout := lay |>) l.

(** [Vec::pop] *)
Definition pop {A} (l : list A) : option (A * list A) :=
  match last l with Some x => Some (x, take (length l - 1) l) | None => None end.

Definition undo (l : Ledger) : bool * Ledger :=
  match pop (history l) with
  | None => (false, l)
  | Some (prev, h) =>
      (true, mk_ledger (snap_orbits prev) (snap_active prev) h
               (redo_stack l ++ [snapshot_of l]))
  end.

Definition redo (l : Ledger) : bool * Ledger :=
  match pop (redo_stack l) with
  | None => (false, l)
  | Some (nxt, r) =>
      (true, mk_ledger (snap_orbits nxt) (snap_active nxt)
               (history l ++ [snapshot_of l]) r)
  end.

Definition undo_depth (l : Ledger) : nat := length (history l).

(** ** The invariant *)

Definition focus_ok (o : Orbit) : Prop :=
  match focus o with
  | None => windows o = []
  | Some i => i < length (windows o)
  end.

Definition orbit_wf (o : Orbit) : Prop :=
  focus_ok o
  ∧ NoDup (stowed o)
  ∧ stowed o ⊆ windows o
  ∧ (∀ w, fullscreen o = Some w → w ∈ windows o).

Definition all_windows (os : list Orbit) : list WinId := os ≫= windows.

(** Six orbits in canonical order under their fixed names, the shown one among
    them, every window in exactly one place. *)
Definition orbits_wf (os : list Orbit) (act : OrbitId) : Prop :=
  orbit_id <$> os = OrbitId_all
  ∧ orbit_name <$> os = NAMES
  ∧ act < ORBIT_COUNT
  ∧ Forall orbit_wf os
  ∧ NoDup (all_windows os).

(** Every retained snapshot is itself well formed and holds exactly the windows
    the ledger holds now: undo can neither lose nor resurrect a window. *)
Definition snapshot_ok (os : list Orbit) (s : Snapshot) : Prop :=
  orbits_wf (snap_orbits s) (snap_active s)
  ∧ all_windows (snap_orbits s) ≡ₚ all_windows os.

Definition ledger_wf (l : Ledger) : Prop :=
  orbits_wf (orbits l) (active l)
  ∧ length (history l) + length (redo_stack l) ≤ HISTORY_DEPTH
  ∧ Forall (snapshot_ok (orbits l)) (history l ++ redo_stack l).

(** One call of a public mutation. *)
Inductive LedgerOp :=
| OpSummon (win : WinId) (id : OrbitId)
| OpBanish (win : WinId)
| OpFocusWindow (win : WinId)
| OpFocusStep (dir : Dir)
| OpSwap (dir : Dir)
| OpMoveToOrbit (id : OrbitId)
| OpSwitchOrbit (id : OrbitId)
| OpToggleStow
| OpToggleFullscreen
| OpSetLayout (lay : Layout)
| OpUndo
| OpRedo
| OpDiscard.

Definition apply_op (op : LedgerOp) (l : Ledger) : Ledger :=
  match op with
  | OpSummon w id => summon w id l
  | OpBanish w => (banish w l).2
  | OpFocusWindow w => (focus_window w l).2
  | OpFocusStep d => focus_step d l
  | OpSwap d => (swap d l).2
  | OpMoveToOrbit id => (move_to_orbit id l).2
  | OpSwitchOrbit id => switch_orbit id l
  | OpToggleStow => (toggle_stow l).2
  | OpToggleFullscreen => (toggle_fullscreen l).2
  | OpSetLayout lay => set_layout lay l
  | OpUndo => (undo l).2
  | OpRedo => (redo l).2
  | OpDiscard => discard_undo_history l
  end.

(** The ids an [OrbitId] can hold. *)
Definition op_valid (op : LedgerOp) : Prop :=
  match op with
  | OpSummon _ id | OpMoveToOrbit id | OpSwitchOrbit id => id < ORBIT_COUNT
  | _ => True
  end.

(** Every mutation but the two observed lifecycle ones. *)
Definition op_desired (op : LedgerOp) : bool :=
  match op with OpSummon _ _ | OpBanish _ => false | _ => true end.

(** The desired mutations that checkpoint before they change anything. *)
Definition op_checkpoints (op : LedgerOp) : bool :=
  match op with
  | OpFocusWindow _ | OpFocusStep _ | OpSwap _ | OpMoveToOrbit _ | OpSwitchOrbit _
  | OpToggleStow | OpToggleFullscreen | OpSetLayout _ => true
  | _ => false
  end.

(** ** Lemmas on orbits *)

Lemma all_windows_lookup os i o :
  os !! i = Some o → all_windows os ≡ₚ windows o ++ all_windows (delete i os).
Proof.
  intros H. unfold all_windows. rewrite (delete_Permutation os i o H) at 1. done.
Qed.

Lemma delete_alter_eq {A} (f : A → A) i (l : list A) : delete i (alter f i l) = delete i l.
Proof. revert i. induction l; intros [|i]; simpl; f_equal; auto. Qed.

Lemma all_windows_alter f os i o :
  os !! i = Some o →
  all_windows (alter f i os) ≡ₚ windows (f o) ++ all_windows (delete i os).
Proof.
  intros H. rewrite (all_windows_lookup (alter f i os) i (f o)).
  - by rewrite delete_alter_eq.
  - by rewrite list_lookup_alter_eq, H.
Qed.

Lemma orbits_wf_length os act : orbits_wf os act → length os = ORBIT_COUNT.
Proof. intros (Hid & _). by rewrite <-(length_fmap orbit_id), Hid. Qed.

Lemma orbits_wf_lookup os act i :
  orbits_wf os act → i < ORBIT_COUNT →
  ∃ o, os !! i = Some o ∧ orbit_id o = i ∧ orbit_wf o ∧ NoDup (windows o).
Proof.
  intros Hwf Hi. pose proof (orbits_wf_length _ _ Hwf) as Hlen.
  destruct Hwf as (Hid & _ & _ & Hall & Hnd).
  destruct (lookup_lt_is_Some_2 os i) as [o Ho]; [lia|].
  exists o. split_and!; [done| | |].
  - assert ((orbit_id <$> os) !! i = Some i) as E.
    { rewrite Hid. unfold OrbitId_all. rewrite lookup_seq. auto with lia. }
    rewrite list_lookup_fmap, Ho in E. by simplify_eq/=.
  - by eapply Forall_lookup_1.
  - rewrite (all_windows_lookup _ _ _ Ho) in Hnd. by apply NoDup_app in Hnd as [? _].
Qed.

Lemma orbit_wf_id_lt os act i o :
  orbits_wf os act → os !! i = Some o → i < ORBIT_COUNT.
Proof. intros H%orbits_wf_length Ho%lookup_lt_Some. lia. Qed.

(** The general preservation lemma for an update of one orbit. *)
Lemma orbits_wf_alter os act i o f :
  orbits_wf os act → os !! i = Some o →
  orbit_id (f o) = orbit_id o → orbit_name (f o) = orbit_name o →
  orbit_wf (f o) → NoDup (windows (f o) ++ all_windows (delete i os)) →
  orbits_wf (alter f i os) act.
Proof.
  intros (Hid & Hname & Hact & Hall & Hnd) Ho Hfid Hfname Hfwf Hfnd.
  split_and!; [| |done| |].
  - rewrite <-Hid. apply list_eq. intros j. rewrite !list_lookup_fmap.
    destruct (decide (i = j)) as [->|].
    + by rewrite list_lookup_alter_eq, Ho; simpl; rewrite Hfid.
    + by rewrite list_lookup_alter_ne.
  - rewrite <-Hname. apply list_eq. intros j. rewrite !list_lookup_fmap.
    destruct (decide (i = j)) as [->|].
    + by rewrite list_lookup_alter_eq, Ho; simpl; rewrite Hfname.
    + by rewrite list_lookup_alter_ne.
  - apply Forall_alter; [done|]. intros o'. congruence.
  - by rewrite all_windows_alter.
Qed.

(** ... and for one that only reorders the windows of that orbit. *)
Lemma orbits_wf_alter_perm os act i o f :
  orbits_wf os act → os !! i = Some o →
  orbit_id (f o) = orbit_id o → orbit_name (f o) = orbit_name o →
  orbit_wf (f o) → windows (f o) ≡ₚ windows o →
  orbits_wf (alter f i os) act ∧ all_windows (alter f i os) ≡ₚ all_windows os.
Proof.
  intros Hwf Ho Hfid Hfname Hfwf Hp.
  assert (NoDup (all_windows os)) as Hnd by apply Hwf.
  rewrite (all_windows_lookup _ _ _ Ho) in Hnd.
  split.
  - eapply orbits_wf_alter; eauto. by rewrite Hp.
  - rewrite (all_windows_alter _ _ _ _ Ho), (all_windows_lookup _ _ _ Ho). by rewrite Hp.
Qed.

Lemma orbits_wf_set_active os act act' :
  orbits_wf os act → act' < ORBIT_COUNT → orbits_wf os act'.
Proof. intros (? & ? & ? & ? & ?) ?. by split_and!. Qed.

Lemma elem_of_all_windows os w :
  w ∈ all_windows os ↔ ∃ i o, os !! i = Some o ∧ w ∈ windows o.
Proof.
  unfold all_windows. rewrite list_elem_of_bind. split.
  - intros (o & Hw & Ho). apply list_elem_of_lookup in Ho as [i Ho]. eauto.
  - intros (i & o & Ho & Hw). exists o. split; [done|]. by eapply list_elem_of_lookup_2.
Qed.

Lemma orbit_of_Some l w id :
  orbits_wf (orbits l) (active l) → orbit_of l w = Some id →
  ∃ o, orbits l !! id = Some o ∧ w ∈ windows o.
Proof.
  unfold orbit_of. intros Hwf ([i o] & Hf & ->)%fmap_Some.
  apply list_find_Some in Hf as (Ho & Hw & _). simpl.
  destruct (orbits_wf_lookup _ _ i Hwf) as (o' & Ho' & <- & _);
    [by eapply orbit_wf_id_lt|].
  rewrite Ho in Ho'. simplify_eq. eauto.
Qed.

Lemma orbit_of_None l w : orbit_of l w = None ↔ w ∉ all_windows (orbits l).
Proof.
  unfold orbit_of. rewrite fmap_None, list_find_None, elem_of_all_windows, Forall_lookup.
  split.
  - intros H (i & o & Ho & Hin). by apply (H i o).
  - intros H i o Ho Hin. apply H. eauto.
Qed.

Lemma orbit_lookup l i o : orbits l !! i = Some o → orbit l i = o.
Proof. apply list_lookup_total_correct. Qed.

Lemma active_orbit_lookup l :
  orbits_wf (orbits l) (active l) → orbits l !! active l = Some (active_orbit l).
Proof.
  intros Hwf. destruct (orbits_wf_lookup _ _ (active l) Hwf) as (o & Ho & _).
  { apply Hwf. }
  unfold active_orbit. by rewrite (orbit_lookup _ _ _ Ho).
Qed.

Lemma active_orbit_wf l :
  orbits_wf (orbits l) (active l) → orbit_wf (active_orbit l).
Proof.
  intros Hwf. pose proof (active_orbit_lookup _ Hwf) as Ho.
  destruct Hwf as (_ & _ & _ & Hall & _). by eapply Forall_lookup_1.
Qed.

Lemma orbit_focused_elem o w : orbit_focused o = Some w → w ∈ windows o.
Proof.
  unfold orbit_focused. intros (i & _ & H)%bind_Some. by eapply list_elem_of_lookup_2.
Qed.

Lemma reseat_focus_ok h o : focus_ok (reseat_focus h o).
Proof.
  unfold focus_ok, reseat_focus. cbn. destruct (windows o) eqn:E; cbn; [done|lia].
Qed.

Lemma insert_after_focus_wf w o :
  orbit_wf o → orbit_wf (insert_after_focus w o).
Proof.
  intros (Hf & Hs & Hsub & Hfull). unfold insert_after_focus. split_and!; cbn.
  - unfold focus_ok. cbn. rewrite length_vec_insert. lia.
  - done.
  - rewrite vec_insert_Permutation. set_solver.
  - intros x Hx%Hfull. rewrite vec_insert_Permutation. by apply elem_of_cons; right.
Qed.

Lemma insert_after_focus_perm w o :
  windows (insert_after_focus w o) ≡ₚ w :: windows o.
Proof. apply vec_insert_Permutation. Qed.

Lemma remove_window_perm w i o :
  windows o !! i = Some w → windows o ≡ₚ w :: windows (remove_window w i o).
Proof. intros. unfold remove_window. cbn. by apply vec_remove_Permutation. Qed.

Lemma remove_reseat_wf w i h o :
  orbit_wf o → NoDup (windows o) → windows o !! i = Some w →
  orbit_wf (reseat_focus h (remove_window w i o)).
Proof.
  intros (_ & Hs & Hsub & Hfull) Hnd Hi.
  pose proof (vec_remove_Permutation i w _ Hi) as Hp.
  split_and!; [apply reseat_focus_ok| | |]; cbn.
  - by apply NoDup_filter.
  - intros x [Hne Hx]%list_elem_of_filter. apply Hsub in Hx.
    rewrite Hp in Hx. by apply elem_of_cons in Hx as [->|].
  - intros x Hx. case_decide as Hd; [done|]. specialize (Hfull _ Hx).
    rewrite Hp in Hfull. apply elem_of_cons in Hfull as [->|]; [congruence|done].
Qed.

(** ** Lemmas on the ledger invariant *)

Lemma snapshot_ok_perm os os' s :
  all_windows os ≡ₚ all_windows os' → snapshot_ok os s → snapshot_ok os' s.
Proof. intros Hp [? Hs]. split; [done|]. by rewrite Hs. Qed.

Lemma ledger_wf_orbits l : ledger_wf l → orbits_wf (orbits l) (active l).
Proof. by intros [? _]. Qed.

Lemma trim_history_drop h : trim_history h = drop (if HISTORY_DEPTH <? length h then 1 else 0) h.
Proof. unfold trim_history. by destruct (_ <? _). Qed.

Lemma length_trim_history h s :
  length h ≤ HISTORY_DEPTH → length (trim_history (h ++ [s])) ≤ HISTORY_DEPTH.
Proof.
  rewrite trim_history_drop, length_skipn.
  destruct (Nat.ltb_spec HISTORY_DEPTH (length (h ++ [s]))) as [H|H];
    rewrite length_app in *; simpl length in *; lia.
Qed.

(** The last element survives, so the next undo returns to it. *)
Lemma trim_history_last h s :
  ∃ h', trim_history (h ++ [s]) = h' ++ [s] ∧ (length h < HISTORY_DEPTH → h' = h).
Proof.
  rewrite trim_history_drop.
  destruct (Nat.ltb_spec HISTORY_DEPTH (length (h ++ [s]))) as [H|H];
    rewrite length_app in H; simpl length in H.
  - destruct h as [|x h]; [simpl in H; unfold HISTORY_DEPTH in H; lia|].
    exists h. split; [done|]. lia.
  - exists h. done.
Qed.

Lemma checkpoint_wf l : ledger_wf l → ledger_wf (checkpoint l).
Proof.
  intros (Hwf & Hlen & Hsnaps). split_and!; cbn -[HISTORY_DEPTH].
  - done.
  - rewrite Nat.add_0_r. apply length_trim_history. lia.
  - rewrite app_nil_r, trim_history_drop. apply Forall_drop.
    apply Forall_app in Hsnaps as [Hh _].
    apply Forall_app. split; [done|]. apply Forall_singleton. by split.
Qed.

(** An update of orbits and active orbit that keeps the window multiset. *)
Lemma ledger_wf_update l os act :
  ledger_wf l → orbits_wf os act → all_windows os ≡ₚ all_windows (orbits l) →
  ledger_wf (mk_ledger os act (history l) (redo_stack l)).
Proof.
  intros (_ & Hlen & Hsnaps) Hwf Hp. split_and!; cbn; [done|done|].
  eapply Forall_impl; [done|]. intros s. by apply snapshot_ok_perm.
Qed.

Lemma upd_orbit_wf l i o f :
  ledger_wf l → orbits l !! i = Some o →
  orbit_id (f o) = orbit_id o → orbit_name (f o) = orbit_name o →
  orbit_wf (f o) → windows (f o) ≡ₚ windows o →
  ledger_wf (upd_orbit i f l) ∧ all_windows (orbits (upd_orbit i f l)) ≡ₚ all_windows (orbits l).
Proof.
  intros Hwf Ho Hid Hname Hfwf Hp.
  destruct (orbits_wf_alter_perm _ _ _ _ f (ledger_wf_orbits _ Hwf) Ho) as [Hos Hall]; auto.
  split; [|done]. by apply ledger_wf_update.
Qed.

Lemma discard_wf l : orbits_wf (orbits l) (active l) → ledger_wf (discard_undo_history l).
Proof.
  intros Hwf. split_and!; cbn; [done| |constructor]. unfold HISTORY_DEPTH. lia.
Qed.

Lemma pop_Some {A} (l : list A) x l' : pop l = Some (x, l') ↔ l = l' ++ [x].
Proof.
  unfold pop. split.
  - destruct (last l) as [y|] eqn:E; [|done]. intros. simplify_eq.
    apply last_Some in E as [l' ->]. rewrite length_app. simpl.
    by rewrite Nat.add_sub, take_app_length.
  - intros ->. rewrite last_snoc, length_app. simpl. by rewrite Nat.add_sub, take_app_length.
Qed.

Lemma pop_None {A} (l : list A) : pop l = None ↔ l = [].
Proof.
  unfold pop. destruct (last l) eqn:E; split; try done.
  - by intros ->.
  - intros _. by apply last_None.
Qed.

(** ** Each mutation preserves the invariant *)

(** What every desired mutation guarantees. *)
Definition keeps (l l' : Ledger) : Prop :=
  ledger_wf l' ∧ all_windows (orbits l') ≡ₚ all_windows (orbits l).

Lemma keeps_refl l : ledger_wf l → keeps l l.
Proof. done. Qed.

Lemma upd_active_keeps l f :
  ledger_wf l →
  (∀ o, orbit_id (f o) = orbit_id o) → (∀ o, orbit_name (f o) = orbit_name o) →
  orbit_wf (f (active_orbit l)) → windows (f (active_orbit l)) ≡ₚ windows (active_orbit l) →
  keeps l (upd_orbit (active l) f (checkpoint l)).
Proof.
  intros Hwf Hid Hname Hfwf Hp. apply (upd_orbit_wf (checkpoint l) _ (active_orbit l)); auto.
  - by apply checkpoint_wf.
  - exact (active_orbit_lookup l (ledger_wf_orbits l Hwf)).
Qed.

Lemma step_slot_lt d cur n : 0 < n → step_slot d cur n < n.
Proof. intros. destruct d; simpl; apply Nat.mod_upper_bound; lia. Qed.

Lemma focus_step_keeps d l : ledger_wf l → keeps l (focus_step d l).
Proof.
  intros Hwf. unfold focus_step.
  destruct (Nat.ltb_spec (length (windows (active_orbit l))) 2); [by apply keeps_refl|].
  apply (upd_active_keeps l); auto.
  destruct (active_orbit_wf l) as (_ & ? & ? & ?); [apply Hwf|]. split_and!; auto.
  unfold focus_ok. cbn. apply step_slot_lt. lia.
Qed.

Lemma swap_keeps d l : ledger_wf l → keeps l (swap d l).2.
Proof.
  intros Hwf. unfold swap.
  destruct (focus (active_orbit l)) as [cur|] eqn:Hf; [|by apply keeps_refl].
  destruct (Nat.ltb_spec (length (windows (active_orbit l))) 2); [by apply keeps_refl|].
  destruct (active_orbit_wf l) as (_ & ? & Hsub & Hfull); [apply Hwf|].
  pose proof (vec_swap_Permutation cur
    (step_slot d cur (length (windows (active_orbit l)))) (windows (active_orbit l))) as Hp.
  apply (upd_active_keeps l); auto. split_and!; cbn.
  - unfold focus_ok. cbn. rewrite length_vec_swap. apply step_slot_lt. lia.
  - done.
  - by rewrite Hp.
  - intros w ?. rewrite Hp. auto.
Qed.

Lemma toggle_stow_keeps l : ledger_wf l → keeps l (toggle_stow l).2.
Proof.
  intros Hwf. unfold toggle_stow.
  destruct (focused l) as [win|] eqn:Hf; [|by apply keeps_refl].
  apply orbit_focused_elem in Hf.
  destruct (active_orbit_wf l) as (? & Hs & Hsub & Hfull); [apply Hwf|].
  apply (upd_active_keeps l); auto. split_and!; cbn; auto.
  - destruct (position win (stowed (active_orbit l))) as [i|] eqn:Hp.
    + rewrite vec_remove_delete. eapply sublist_NoDup; [done|]. apply sublist_delete.
    + apply position_None in Hp. rewrite <-Permutation_cons_append. by constructor.
  - destruct (position win (stowed (active_orbit l))) as [i|] eqn:Hp.
    + rewrite vec_remove_delete. intros x Hx. apply Hsub.
      by eapply elem_of_sublist, sublist_delete.
    + intros x [?| ->%list_elem_of_singleton]%elem_of_app; auto.
Qed.

Lemma toggle_fullscreen_keeps l : ledger_wf l → keeps l (toggle_fullscreen l).2.
Proof.
  intros Hwf. unfold toggle_fullscreen.
  destruct (focused l) as [win|] eqn:Hf; [|by apply keeps_refl].
  apply orbit_focused_elem in Hf.
  destruct (active_orbit_wf l) as (? & ? & ? & ?); [apply Hwf|].
  apply (upd_active_keeps l); auto. split_and!; auto. cbn. intros w. case_decide; naive_solver.
Qed.

Lemma set_layout_keeps lay l : ledger_wf l → keeps l (set_layout lay l).
Proof.
  intros Hwf. unfold set_layout. case_decide; [by apply keeps_refl|].
  apply (upd_active_keeps l); auto. apply (active_orbit_wf l), Hwf.
Qed.

Lemma switch_orbit_keeps id l :
  id < ORBIT_COUNT → ledger_wf l → keeps l (switch_orbit id l).
Proof.
  intros Hid Hwf. unfold switch_orbit. case_decide; [by apply keeps_refl|].
  split; [|done]. apply (ledger_wf_update (checkpoint l)); [by apply checkpoint_wf| |done].
  eapply orbits_wf_set_active; [apply Hwf|done].
Qed.

Lemma focus_window_keeps w l : ledger_wf l → keeps l (focus_window w l).2.
Proof.
  intros Hwf. unfold focus_window.
  destruct (orbit_of l w) as [id|] eqn:Hof; [|by apply keeps_refl].
  destruct (orbit_of_Some l w id) as (o & Ho & Hw); [apply Hwf|done|].
  assert (id < ORBIT_COUNT) as Hid by (eapply orbit_wf_id_lt; [apply Hwf|done]).
  destruct (orbits_wf_lookup _ _ id (ledger_wf_orbits _ Hwf) Hid)
    as (o' & Ho' & _ & (_ & ? & ? & ?) & _). rewrite Ho in Ho'. simplify_eq.
  refine (upd_orbit_wf (checkpoint l <| active := id |>) id o'
            (λ o, o <| focus := position w (windows o) |>) _ _ _ _ _ _); auto.
  - apply (ledger_wf_update (checkpoint l)); [by apply checkpoint_wf| |done].
    eapply orbits_wf_set_active; [apply Hwf|done].
  - split_and!; auto. unfold focus_ok. cbn.
    destruct (position_is_Some w (windows o') Hw) as [i Hi]. rewrite Hi.
    by eapply position_lt.
Qed.

Lemma undo_keeps l : ledger_wf l → keeps l (undo l).2.
Proof.
  intros Hwf. unfold undo. destruct (pop (history l)) as [[prev h]|] eqn:E;
    [|by apply keeps_refl].
  apply pop_Some in E. destruct Hwf as (Hos & Hlen & Hsnaps).
  rewrite E, length_app in Hlen. rewrite E in Hsnaps. simpl length in Hlen.
  assert (snapshot_ok (orbits l) prev) as [Hprev Hp].
  { eapply Forall_forall; [done|]. set_solver. }
  split; [|done]. split_and!; cbn -[HISTORY_DEPTH]; [done|rewrite length_app; simpl; lia|].
  rewrite !Forall_app in *. destruct Hsnaps as [[Hh _] Hr].
  split_and!; [..|apply Forall_singleton; by split];
    (eapply Forall_impl; [done|]; intros s; by apply snapshot_ok_perm).
Qed.

Lemma redo_keeps l : ledger_wf l → keeps l (redo l).2.
Proof.
  intros Hwf. unfold redo. destruct (pop (redo_stack l)) as [[nxt r]|] eqn:E;
    [|by apply keeps_refl].
  apply pop_Some in E. destruct Hwf as (Hos & Hlen & Hsnaps).
  rewrite E, length_app in Hlen. rewrite E in Hsnaps. simpl length in Hlen.
  assert (snapshot_ok (orbits l) nxt) as [Hnxt Hp].
  { eapply Forall_forall; [done|]. set_solver. }
  split; [|done]. split_and!; cbn -[HISTORY_DEPTH]; [done|rewrite length_app; simpl; lia|].
  rewrite !Forall_app in *. destruct Hsnaps as [Hh [Hr _]].
  split_and!; [..|]; try (apply Forall_singleton; by split);
    (eapply Forall_impl; [done|]; intros s; by apply snapshot_ok_perm).
Qed.

Lemma delete_lookup_list {A} (l : list A) i j : j ≠ i → i < length l → 
  ∀ x, l !! j = Some x → x ∈ delete i l.
Proof.
  intros Hne Hi x Hx. apply list_elem_of_lookup.
  destruct (decide (j < i)).
  - exists j. by rewrite list_lookup_delete_lt.
  - exists (j - 1). rewrite list_lookup_delete_ge by lia.
    by replace (S (j - 1)) with j by lia.
Qed.

(** A window listed by an orbit is listed by no other. *)
Lemma not_in_other os act i j o o' w :
  orbits_wf os act → os !! i = Some o → os !! j = Some o' → i ≠ j →
  w ∈ windows o → w ∉ windows o'.
Proof.
  intros (_ & _ & _ & _ & Hnd) Ho Ho' Hne Hw Hw'.
  rewrite (all_windows_lookup _ _ _ Ho) in Hnd.
  apply NoDup_app in Hnd as (_ & Hdisj & _). apply (Hdisj w Hw).
  apply list_elem_of_bind. exists o'. split; [done|].
  eapply delete_lookup_list; eauto using lookup_lt_Some.
Qed.

(** Adding a window no orbit lists. *)
Lemma insert_orbits_wf os act id o w :
  orbits_wf os act → os !! id = Some o → w ∉ all_windows os →
  orbits_wf (alter (insert_after_focus w) id os) act
  ∧ all_windows (alter (insert_after_focus w) id os) ≡ₚ w :: all_windows os.
Proof.
  intros Hwf Ho Hw.
  assert (orbit_wf o) as Howf by (destruct Hwf as (_&_&_&Hall&_); by eapply Forall_lookup_1).
  assert (NoDup (all_windows os)) as Hnd by apply Hwf.
  split.
  - eapply orbits_wf_alter; eauto using insert_after_focus_wf.
    rewrite insert_after_focus_perm. rewrite (all_windows_lookup _ _ _ Ho) in Hnd, Hw.
    by constructor.
  - rewrite (all_windows_alter _ _ _ _ Ho), (all_windows_lookup _ _ _ Ho).
    by rewrite insert_after_focus_perm.
Qed.

(** Removing a window from the orbit that lists it. *)
Lemma remove_orbits_wf os act id o w i h :
  orbits_wf os act → os !! id = Some o → windows o !! i = Some w →
  let f := λ o, reseat_focus (h o) (remove_window w i o) in
  orbits_wf (alter f id os) act ∧ all_windows os ≡ₚ w :: all_windows (alter f id os).
Proof.
  intros Hwf Ho Hi f.
  destruct (orbits_wf_lookup os act id Hwf) as (o' & Ho' & _ & Howf & Hndo);
    [by eapply orbit_wf_id_lt|]. rewrite Ho in Ho'. simplify_eq.
  assert (windows o' ≡ₚ w :: windows (f o')) as Hp by exact (remove_window_perm w i o' Hi).
  assert (NoDup (all_windows os)) as Hnd by apply Hwf.
  rewrite (all_windows_lookup _ _ _ Ho), Hp in Hnd. split.
  - eapply orbits_wf_alter; eauto.
    + by apply remove_reseat_wf.
    + by apply NoDup_cons in Hnd as [_ ?].
  - rewrite (all_windows_alter _ _ _ _ Ho), (all_windows_lookup _ _ _ Ho). by rewrite Hp.
Qed.

Lemma focused_lookup l w :
  focused l = Some w →
  ∃ i, focus (active_orbit l) = Some i ∧ windows (active_orbit l) !! i = Some w.
Proof. unfold focused, orbit_focused. by intros (i & ? & ?)%bind_Some; eauto. Qed.

Lemma move_to_orbit_keeps id l :
  id < ORBIT_COUNT → ledger_wf l → keeps l (move_to_orbit id l).2.
Proof.
  intros Hid Hwf. unfold move_to_orbit.
  destruct (focused l) as [w|] eqn:Hf; [|by apply keeps_refl].
  case_decide as Hne; [by apply keeps_refl|].
  apply orbit_focused_elem in Hf.
  destruct (position_is_Some w _ Hf) as [i Hi].
  pose proof (position_Some _ _ _ Hi) as Hl.
  pose proof (active_orbit_lookup l (ledger_wf_orbits l Hwf)) as Ho.
  change (active_orbit (checkpoint l)) with (active_orbit l). rewrite Hi. cbn [default].
  destruct (remove_orbits_wf _ _ _ _ w i (λ _, i - 1) (ledger_wf_orbits l Hwf) Ho Hl)
    as [Hwf1 Hp1].
  set (os := alter _ _ _) in *.
  destruct (orbits_wf_lookup os _ id Hwf1 Hid) as (o & Ho1 & _).
  assert (w ∉ all_windows os) as Hw.
  { destruct Hwf as ((_&_&_&_&Hnd)&_). rewrite Hp1 in Hnd. by apply NoDup_cons in Hnd as [? _]. }
  destruct (insert_orbits_wf os _ id o w Hwf1 Ho1 Hw) as [Hwf2 Hp2].
  assert (all_windows (alter (insert_after_focus w) id os) ≡ₚ all_windows (orbits l)) as Hp.
  { by rewrite Hp2, Hp1. }
  split; [|exact Hp].
  exact (ledger_wf_update (checkpoint l) _ _ (checkpoint_wf l Hwf) Hwf2 Hp).
Qed.

Lemma summon_spec w id l :
  id < ORBIT_COUNT → ledger_wf l → w ∉ all_windows (orbits l) →
  ledger_wf (summon w id l)
  ∧ all_windows (orbits (summon w id l)) ≡ₚ w :: all_windows (orbits l).
Proof.
  intros Hid Hwf Hw. unfold summon. rewrite (proj2 (orbit_of_None l w) Hw).
  destruct (orbits_wf_lookup _ _ id (ledger_wf_orbits l Hwf) Hid) as (o & Ho & _).
  destruct (insert_orbits_wf _ _ _ _ w (ledger_wf_orbits l Hwf) Ho Hw) as [Hwf' Hp].
  split; [|exact Hp]. pose proof (discard_wf (mk_ledger _ _ [] []) Hwf') as H. exact H.
Qed.

Lemma summon_known w id l : w ∈ all_windows (orbits l) → summon w id l = l.
Proof.
  intros Hw. unfold summon. destruct (orbit_of l w) eqn:E; [done|].
  by apply orbit_of_None in E.
Qed.

Lemma banish_spec w l :
  ledger_wf l → w ∈ all_windows (orbits l) →
  (banish w l).1 = true
  ∧ ledger_wf (banish w l).2
  ∧ all_windows (orbits l) ≡ₚ w :: all_windows (orbits (banish w l).2).
Proof.
  intros Hwf Hw. unfold banish.
  destruct (orbit_of l w) as [id|] eqn:Hof; [|by apply orbit_of_None in Hof].
  destruct (orbit_of_Some l w id (ledger_wf_orbits l Hwf) Hof) as (o & Ho & Hwo).
  change (orbit (discard_undo_history l) id) with (orbit l id).
  rewrite (orbit_lookup _ _ _ Ho).
  destruct (position_is_Some w _ Hwo) as [i Hi]. rewrite Hi.
  pose proof (position_Some _ _ _ Hi) as Hl.
  destruct (remove_orbits_wf _ _ _ _ w i
    (λ o, i - (if Nat.max (length (windows (remove_window w i o))) 1 <=? i then 1 else 0))
    (ledger_wf_orbits l Hwf) Ho Hl) as [Hwf1 Hp1].
  split_and!; [done| |exact Hp1]. 
  pose proof (discard_wf (mk_ledger _ _ [] []) Hwf1) as H. exact H.
Qed.

Lemma banish_unknown w l : w ∉ all_windows (orbits l) → banish w l = (false, l).
Proof. intros Hw. unfold banish. by rewrite (proj2 (orbit_of_None l w) Hw). Qed.

#[export] Hint Resolve ledger_wf_orbits checkpoint_wf keeps_refl focus_step_keeps
  swap_keeps toggle_stow_keeps toggle_fullscreen_keeps set_layout_keeps
  switch_orbit_keeps focus_window_keeps move_to_orbit_keeps undo_keeps redo_keeps : realm.

Lemma Ledger_new_wf : ledger_wf Ledger_new.
Proof.
  apply (discard_wf Ledger_new). split_and!; [done|done| | |constructor].
  - cbn. unfold ORBIT_COUNT. lia.
  - repeat constructor; cbn; try done. 
Qed.

(** ** Theorems *)

Lemma apply_op_keeps op l :
  op_valid op → op_desired op = true → ledger_wf l → keeps l (apply_op op l).
Proof.
  destruct op; simpl; intros Hv Hd Hwf; try discriminate; auto with realm.
  split; [|done]. by apply discard_wf, ledger_wf_orbits.
Qed.

Lemma apply_op_wf op l : op_valid op → ledger_wf l → ledger_wf (apply_op op l).
Proof.
  intros Hv Hwf. destruct (op_desired op) eqn:Hd; [by apply apply_op_keeps|].
  destruct op as [w id|w| | | | | | | | | | |]; try discriminate; simpl.
  - destruct (decide (w ∈ all_windows (orbits l))).
    + by rewrite summon_known.
    + by apply summon_spec.
  - destruct (decide (w ∈ all_windows (orbits l))).
    + by apply banish_spec.
    + by rewrite banish_unknown.
Qed.

(** C4. Every ledger the public mutations can reach from [Ledger::new] is well
    formed: six canonical orbits, each window in exactly one place, every focus
    in range, stowed and fullscreen windows among the listed ones, and at most
    [HISTORY_DEPTH] snapshots, each holding exactly the current windows. *)
Theorem ledger_reachable_wf (ops : list LedgerOp) :
  Forall op_valid ops → ledger_wf (foldl (λ l op, apply_op op l) Ledger_new ops).
Proof.
  intros Hops. generalize Ledger_new_wf. generalize Ledger_new.
  induction Hops as [|op ops Hv Hops IH]; intros l Hwf; simpl; [done|].
  by apply IH, apply_op_wf.
Qed.

Example ledger_reachable_wf_witness :
  ledger_wf (foldl (λ l op, apply_op op l) Ledger_new
    [OpSummon 1%N 0; OpSummon 2%N 3; OpToggleStow; OpMoveToOrbit 3; OpBanish 2%N; OpUndo]).
Proof.
  apply ledger_reachable_wf. repeat constructor; simpl; unfold ORBIT_COUNT; lia.
Defined.

(** A desired mutation (everything but an observed open or close) never adds,
    loses or duplicates a window. *)
Theorem desired_op_keeps_windows (op : LedgerOp) (l : Ledger) :
  ledger_wf l → op_valid op → op_desired op = true →
  all_windows (orbits (apply_op op l)) ≡ₚ all_windows (orbits l).
Proof. intros. by apply apply_op_keeps. Qed.

Definition demo_ledger : Ledger :=
  foldl (λ l op, apply_op op l) Ledger_new [OpSummon 1%N 0; OpSummon 2%N 0; OpSummon 3%N 2].

Lemma demo_ledger_wf : ledger_wf demo_ledger.
Proof.
  unfold demo_ledger. cbn [foldl].
  repeat (apply apply_op_wf; [cbn; unfold ORBIT_COUNT; lia|]). apply Ledger_new_wf.
Qed.

Example desired_op_keeps_windows_witness :
  all_windows (orbits (apply_op (OpMoveToOrbit 4) demo_ledger)) ≡ₚ all_windows (orbits demo_ledger).
Proof.
  apply desired_op_keeps_windows; [apply demo_ledger_wf|cbn; unfold ORBIT_COUNT; lia|reflexivity].
Defined.

(** A checkpointing mutation either refuses, leaving the ledger as it was, or
    pushes the current screen on the undo stack. *)
Definition refused_or_checkpointed (l l' : Ledger) : Prop :=
  l' = l ∨ (history l' = trim_history (history l ++ [snapshot_of l]) ∧ redo_stack l' = []).

Lemma checkpointing_op op l :
  op_checkpoints op = true → refused_or_checkpointed l (apply_op op l).
Proof.
  unfold refused_or_checkpointed.
  destruct op; simpl; try discriminate; intros _;
    unfold focus_window, focus_step, swap, move_to_orbit, switch_orbit, toggle_stow,
      toggle_fullscreen, set_layout; repeat case_match; auto.
Qed.

(** C7. Undo after a desired mutation that did something brings back exactly the
    orbits and the shown orbit from before it, and, while the history has room,
    the undo stack from before it; redo then brings back the mutated ledger. *)
Theorem undo_restores_previous (op : LedgerOp) (l : Ledger) :
  op_checkpoints op = true → apply_op op l ≠ l →
  ∃ l', undo (apply_op op l) = (true, l')
    ∧ orbits l' = orbits l ∧ active l' = active l
    ∧ (length (history l) < HISTORY_DEPTH → history l' = history l)
    ∧ redo l' = (true, apply_op op l).
Proof.
  intros Hc Hne. destruct (checkpointing_op op l Hc) as [?|[Hh Hr]]; [done|].
  revert Hh Hr. generalize (apply_op op l). clear Hne. intros l1 Hh Hr.
  destruct (trim_history_last (history l) (snapshot_of l)) as (h & Hh' & Hroom).
  unfold undo. rewrite (proj2 (pop_Some _ (snapshot_of l) h)) by congruence.
  eexists. split; [reflexivity|]. split_and!; [done|done|by auto|].
  unfold redo. cbn. rewrite Hr. cbn. destruct l1 as [os a hs rs]. cbn in *.
  unfold snapshot_of. cbn. by rewrite Hh, Hh', Hr.
Qed.

Example undo_restores_previous_witness :
  ∃ l', undo (apply_op (OpSwap Prev) demo_ledger) = (true, l')
    ∧ orbits l' = orbits demo_ledger ∧ active l' = active demo_ledger
    ∧ (length (history demo_ledger) < HISTORY_DEPTH → history l' = history demo_ledger)
    ∧ redo l' = (true, apply_op (OpSwap Prev) demo_ledger).
Proof.
  apply undo_restores_previous; [reflexivity|].
  intros E. apply (f_equal undo_depth) in E. vm_compute in E. discriminate.
Defined.

(** Redo is the exact inverse of undo, and undo of redo, on the whole ledger,
    both stacks included. *)
Theorem undo_redo_inverse (l l' : Ledger) :
  undo l = (true, l') ↔ redo l' = (true, l).
Proof.
  unfold undo, redo. split.
  - destruct (pop (history l)) as [[p h]|] eqn:E; [|done]. intros. simplify_eq. cbn.
    rewrite (proj2 (pop_Some _ (snapshot_of l) (redo_stack l))) by done.
    apply pop_Some in E. destruct l, p. cbn in *. unfold snapshot_of. cbn. by rewrite E.
  - destruct (pop (redo_stack l')) as [[p h]|] eqn:E; [|done]. intros. simplify_eq. cbn.
    rewrite (proj2 (pop_Some _ (snapshot_of l') (history l'))) by done.
    apply pop_Some in E. destruct l', p. cbn in *. unfold snapshot_of. cbn. by rewrite E.
Qed.

Lemma upd_orbit_lookup l id f o :
  orbits l !! id = Some o → orbit (upd_orbit id f l) id = f o.
Proof.
  intros Ho. apply orbit_lookup. cbn. by rewrite list_lookup_alter_eq, Ho.
Qed.

Lemma upd_orbit_other l id id' f : id ≠ id' → orbit (upd_orbit id f l) id' = orbit l id'.
Proof.
  intros. unfold orbit. rewrite !list_lookup_total_alt. cbn. by rewrite list_lookup_alter_ne.
Qed.

(** Closing a window removes exactly it from its orbit, from the stowed set and
    from the fullscreen slot, keeps the order of the others, moves the focus to
    the window that slid into the vacated slot (else to the new last one), and
    drops the whole undo history. *)
Theorem banish_removes_exactly (win : WinId) (l : Ledger) (id : OrbitId) (at_ : nat) :
  ledger_wf l → orbit_of l win = Some id →
  position win (windows (orbit l id)) = Some at_ →
  let o := orbit l id in
  let o' := orbit (banish win l).2 id in
  (banish win l).1 = true
  ∧ windows o' = delete at_ (windows o)
  ∧ stowed o' = filter (λ w, w ≠ win) (stowed o)
  ∧ fullscreen o' ≠ Some win
  ∧ focus o' = (if length (windows o) =? 1 then None
                else Some (Nat.min at_ (length (windows o) - 2)))
  ∧ (∀ id', id' ≠ id → orbit (banish win l).2 id' = orbit l id')
  ∧ undo (banish win l).2 = (false, (banish win l).2).
Proof.
  intros Hwf Hof Hp o o'.
  destruct (orbit_of_Some l win id (ledger_wf_orbits l Hwf) Hof) as (o0 & Ho & Hwo).
  assert (o = o0) as -> by exact (orbit_lookup _ _ _ Ho). subst o'. unfold banish.
  rewrite Hof. change (orbit (discard_undo_history l) id) with (orbit l id). rewrite Hp. cbn [fst snd].
  rewrite (upd_orbit_lookup _ _ _ o0) by exact Ho.
  rewrite (orbit_lookup _ _ _ Ho) in Hp. pose proof (position_lt _ _ _ Hp) as Hlt.
  pose proof (length_vec_remove at_ (windows o0) Hlt) as Hlen.
  split_and!; try done; cbn.
  - apply vec_remove_delete.
  - case_decide; congruence.
  - rewrite Hlen.
    destruct (vec_remove at_ (windows o0)) eqn:E; simpl in Hlen.
    + by rewrite (proj2 (Nat.eqb_eq _ _)) by lia.
    + rewrite (proj2 (Nat.eqb_neq _ _)) by lia. f_equal.
      destruct (length (windows o0)) as [|[|m]]; simpl in *; try lia.
      destruct at_ as [|k]; [lia|]. rewrite !Nat.sub_0_r. destruct (Nat.leb_spec (m `max` 0) k); lia.
  - intros id' Hne. by rewrite upd_orbit_other.
Qed.

Example banish_removes_exactly_witness :
  ledger_wf demo_ledger ∧ focus (orbit (banish 2%N demo_ledger).2 0) = Some 0.
Proof.
  split; [exact demo_ledger_wf|].
  destruct (banish_removes_exactly 2%N demo_ledger 0 1 demo_ledger_wf eq_refl eq_refl)
    as (_ & _ & _ & _ & Hf & _). exact Hf.
Defined.

(** A new window enters its orbit directly after the focused one (or first in
    an empty orbit), takes the focus there, leaves the order of the others and
    every other orbit alone, and is a hard undo boundary. *)
Theorem summon_beside_focus (win : WinId) (id : OrbitId) (l : Ledger) :
  id < ORBIT_COUNT → ledger_wf l → orbit_of l win = None →
  let o := orbit l id in
  let l' := summon win id l in
  let at_ := match focus o with Some i => i + 1 | None => 0 end in
  windows (orbit l' id) = take at_ (windows o) ++ win :: drop at_ (windows o)
  ∧ focus (orbit l' id) = Some at_
  ∧ orbit_focused (orbit l' id) = Some win
  ∧ (∀ id', id' ≠ id → orbit l' id' = orbit l id')
  ∧ history l' = [] ∧ redo_stack l' = [].
Proof.
  intros Hid Hwf Hof o l' at_.
  destruct (orbits_wf_lookup _ _ id (ledger_wf_orbits l Hwf) Hid) as (o0 & Ho & _ & (Hf & _) & _).
  assert (o = o0) as -> by exact (orbit_lookup _ _ _ Ho).
  assert (Nat.min at_ (length (windows o0)) = at_) as Hmin.
  { unfold at_, focus_ok in *. destruct (focus o0); lia. }
  unfold l', summon. rewrite Hof.
  rewrite (upd_orbit_lookup (discard_undo_history l) id _ o0 Ho).
  assert (windows (insert_after_focus win o0) = vec_insert at_ win (windows o0)) as Hw.
  { unfold insert_after_focus. cbn. fold at_. by rewrite Hmin. }
  assert (focus (insert_after_focus win o0) = Some at_) as Hfo.
  { unfold insert_after_focus. cbn. fold at_. by rewrite Hmin. }
  split_and!; [exact Hw|exact Hfo| |by intros; rewrite upd_orbit_other|done|done].
  unfold orbit_focused. rewrite Hfo, Hw. simpl. apply vec_insert_lookup. lia.
Qed.

Example summon_beside_focus_witness :
  windows (orbit (summon 9%N 0 (focus_step Prev demo_ledger)) 0) = [1; 9; 2]%N.
Proof.
  assert (ledger_wf (focus_step Prev demo_ledger)) as Hwf
    by apply focus_step_keeps, demo_ledger_wf.
  assert (0 < ORBIT_COUNT) as H0 by (unfold ORBIT_COUNT; lia).
  exact (proj1 (summon_beside_focus 9%N 0 (focus_step Prev demo_ledger) H0 Hwf eq_refl)).
Defined.

Lemma step_slot_inverse d n cur :
  cur < n → step_slot (match d with Next => Prev | Prev => Next end) (step_slot d cur n) n = cur.
Proof.
  intros H. destruct d; simpl.
  - destruct (decide (cur + 1 = n)) as [<-|].
    + rewrite Nat.Div0.mod_same. replace (0 + (cur + 1) - 1) with cur by lia.
      by apply Nat.mod_small.
    + rewrite (Nat.mod_small (cur + 1)) by lia.
      replace (cur + 1 + n - 1) with (cur + 1 * n) by lia.
      rewrite Nat.Div0.mod_add. by apply Nat.mod_small.
  - destruct cur as [|cur].
    + rewrite (Nat.mod_small (0 + n - 1)) by lia.
      replace (0 + n - 1 + 1) with n by lia. by rewrite Nat.Div0.mod_same.
    + replace (S cur + n - 1) with (cur + 1 * n) by lia.
      rewrite Nat.Div0.mod_add, (Nat.mod_small cur) by lia.
      replace (cur + 1) with (S cur) by lia. by apply Nat.mod_small.
Qed.

Lemma vec_swap_inverse {A} i j (l : list A) :
  i < length l → j < length l → vec_swap j i (vec_swap i j l) = l.
Proof.
  intros Hi Hj. destruct (lookup_lt_is_Some_2 l i Hi) as [x Hx].
  destruct (lookup_lt_is_Some_2 l j Hj) as [y Hy].
  destruct (decide (i = j)) as [->|Hne].
  { assert (vec_swap j j l = l) as E.
    { unfold vec_swap. rewrite Hx. by rewrite !list_insert_id by (by rewrite ?list_insert_id). }
    by rewrite !E. }
  unfold vec_swap. rewrite Hx, Hy.
  rewrite list_lookup_insert_ne, list_lookup_insert_eq by done.
  rewrite list_lookup_insert_eq by (by rewrite length_insert).
  rewrite list_insert_insert_eq, (list_insert_insert_ne _ i j) by done.
  rewrite list_insert_insert_eq, (list_insert_id _ i) by done. by apply list_insert_id.
Qed.

Lemma upd_active_orbit l f :
  ledger_wf l → active_orbit (upd_orbit (active l) f l) = f (active_orbit l).
Proof.
  intros Hwf. apply (upd_orbit_lookup l _ _ (active_orbit l)).
  by apply active_orbit_lookup, ledger_wf_orbits.
Qed.

(** The windows and the focus slot of the shown orbit after a swap. *)
Lemma swap_active d l cur :
  ledger_wf l → focus (active_orbit l) = Some cur →
  2 ≤ length (windows (active_orbit l)) →
  let t := step_slot d cur (length (windows (active_orbit l))) in
  let o' := active_orbit (swap d l).2 in
  (swap d l).1 = true ∧ active (swap d l).2 = active l
  ∧ windows o' = vec_swap cur t (windows (active_orbit l)) ∧ focus o' = Some t.
Proof.
  intros Hwf Hf Hn t o'. subst o'. unfold swap. rewrite Hf.
  destruct (Nat.ltb_spec (length (windows (active_orbit l))) 2); [lia|]. cbn [fst snd].
  split_and!; try done;
    rewrite (upd_active_orbit (checkpoint l)) by (by apply checkpoint_wf); done.
Qed.

(** Swapping moves the focused window one slot along the ledger (wrapping), the
    focus travels with it, and swapping back the other way restores the window
    order and the focus exactly. *)
Theorem swap_carries_focus (d : Dir) (l : Ledger) :
  ledger_wf l → 2 ≤ length (windows (active_orbit l)) →
  let back := match d with Next => Prev | Prev => Next end in
  let l1 := (swap d l).2 in
  let l2 := (swap back l1).2 in
  focused l1 = focused l
  ∧ focus (active_orbit l1)
    = (λ cur, step_slot d cur (length (windows (active_orbit l)))) <$> focus (active_orbit l)
  ∧ windows (active_orbit l2) = windows (active_orbit l)
  ∧ focus (active_orbit l2) = focus (active_orbit l).
Proof.
  intros Hwf Hn back l1 l2. destruct (active_orbit_wf l (ledger_wf_orbits l Hwf)) as (Hf & _).
  unfold focus_ok in Hf. destruct (focus (active_orbit l)) as [cur|] eqn:Hcur;
    [|rewrite Hf in Hn; simpl in Hn; lia].
  destruct (swap_active d l cur Hwf Hcur Hn) as (_ & Ha & Hw & Hfo).
  set (n := length (windows (active_orbit l))) in *. set (t := step_slot d cur n) in *.
  assert (t < n) by (apply step_slot_lt; lia).
  assert (length (windows (active_orbit l1)) = n) as Hlen.
  { unfold l1. by rewrite Hw, length_vec_swap. }
  destruct (swap_active back l1 t) as (_ & Ha2 & Hw2 & Hfo2);
    [by apply swap_keeps|done|lia|]. rewrite Hlen in Hw2, Hfo2.
  assert (step_slot back t n = cur) as Hback by (by apply step_slot_inverse).
  rewrite Hback in Hw2, Hfo2. split_and!.
  - unfold focused, orbit_focused. unfold l1. rewrite Hfo, Hw, Hcur. simpl.
    by apply vec_swap_lookup_r.
  - done.
  - unfold l2. rewrite Hw2. unfold l1. rewrite Hw. by apply vec_swap_inverse.
  - done.
Qed.

Example swap_carries_focus_witness :
  focused (swap Prev demo_ledger).2 = Some 2%N.
Proof.
  assert (2 ≤ length (windows (active_orbit demo_ledger))) as Hn by (vm_compute; lia).
  exact (proj1 (swap_carries_focus Prev demo_ledger demo_ledger_wf Hn)).
Defined.

(** Sending the focused window to another orbit removes it from the shown orbit
    (window list, stowed set and fullscreen slot), inserts it after the focus
    of the target, focuses it there, unstows it, and changes no other orbit;
    the shown orbit stays shown. *)
Theorem move_to_orbit_transfers (target : OrbitId) (win : WinId) (l : Ledger) :
  ledger_wf l → target < ORBIT_COUNT → target ≠ active l → focused l = Some win →
  let l' := (move_to_orbit target l).2 in
  (move_to_orbit target l).1 = true
  ∧ active l' = active l
  ∧ windows (active_orbit l) ≡ₚ win :: windows (active_orbit l')
  ∧ (win ∉ stowed (active_orbit l')) ∧ fullscreen (active_orbit l') ≠ Some win
  ∧ windows (orbit l' target) ≡ₚ win :: windows (orbit l target)
  ∧ orbit_focused (orbit l' target) = Some win
  ∧ (win ∉ stowed (orbit l' target))
  ∧ (∀ id, id ≠ target → id ≠ active l → orbit l' id = orbit l id).
Proof.
  intros Hwf Ht Hne Hf. unfold move_to_orbit. rewrite Hf.
  rewrite decide_False by done. cbn [fst snd].
  pose proof (orbit_focused_elem _ _ Hf) as Hin.
  destruct (position_is_Some win _ Hin) as [i Hi].
  pose proof (position_Some _ _ _ Hi) as Hl.
  change (active_orbit (checkpoint l)) with (active_orbit l). rewrite Hi. cbn [default].
  set (src := λ o, reseat_focus (i - 1) (remove_window win i o)).
  set (l1 := upd_orbit (active l) src (checkpoint l)).
  destruct (orbits_wf_lookup _ _ target (ledger_wf_orbits l Hwf) Ht)
    as (o & Ho & _ & (Hfo & _ & Hsub & _) & _).
  assert (orbits l1 !! target = Some o) as Ho1 by (cbn; by rewrite list_lookup_alter_ne).
  assert (active_orbit (upd_orbit target (insert_after_focus win) l1) = src (active_orbit l)) as Hsrc.
  { unfold active_orbit at 1. cbn [active]. change (active (upd_orbit _ _ _)) with (active l).
    rewrite upd_orbit_other by done. exact (upd_active_orbit (checkpoint l) src (checkpoint_wf l Hwf)). }
  change (active_orbit (checkpoint l)) with (active_orbit l) in *.
  change (upd_orbit (active (checkpoint l)) _ _) with l1. rewrite Hsrc.
  rewrite (upd_orbit_lookup l1 target _ o Ho1), (orbit_lookup _ _ _ Ho).
  split_and!; try done.
  - exact (remove_window_perm win i _ Hl).
  - cbn. intros [? _]%list_elem_of_filter. congruence.
  - cbn. case_decide; congruence.
  - apply insert_after_focus_perm.
  - unfold orbit_focused, insert_after_focus. cbn. apply vec_insert_lookup. lia.
  - cbn. intros Hst%Hsub. revert Hst.
    apply (not_in_other (orbits l) (active l) (active l) target (active_orbit l) o win); auto.
    + by apply ledger_wf_orbits.
    + by apply active_orbit_lookup, ledger_wf_orbits.
  - intros id Hid1 Hid2. rewrite upd_orbit_other by done. unfold l1. by rewrite upd_orbit_other.
Qed.

Example move_to_orbit_transfers_witness :
  orbit_focused (orbit (move_to_orbit 2 demo_ledger).2 2) = Some 2%N.
Proof.
  assert (2 < ORBIT_COUNT) as Ht by (unfold ORBIT_COUNT; lia).
  assert (2 ≠ active demo_ledger) as Hne by (vm_compute; lia).
  destruct (move_to_orbit_transfers 2 2%N demo_ledger demo_ledger_wf Ht Hne eq_refl)
    as (_ & _ & _ & _ & _ & _ & H & _). exact H.
Defined.
