(* ===== verification/Projection.v ===== *)
(** * realm-core/src/layout.rs: [project] and what the layouts guarantee

    [project] turns one orbit of the ledger into placements.  The theorems of
    the layout module are here because they speak of both: exact partitions,
    grids without gaps or overlaps, and what a projection shows of an orbit. *)

From Stdlib Require Import ZArith Lia SpecFloat.
From stdpp Require Import prelude list.
From S2P Require Import Prelude Float FloatError Layout Partition Tiling Ledger.

Local Open Scope Z_scope.

(** ** Data and operation *)

Record Placement := mk_placement {
  win : WinId;
  rect : Rect;
  pl_focused : bool;
  pl_occluded : bool
}.

#[export] Instance Placement_eq_dec : EqDecision Placement.
Proof. solve_decision. Defined.

(** The rectangles of the visible windows of an orbit. *)
Definition layout_rects (lay : Layout) (n : nat) (a : Rect) (params : TriptychParams) : list Rect :=
  match lay with
  | Triptych => triptych n a (sanitised params)
  | Mono => replicate n a
  | Even => even n a
  end.

(** In a mono stack the window that is on top. *)
Definition top_window (o : Orbit) : option WinId :=
  match layout o with
  | Mono => match orbit_focused o with Some w => Some w | None => head (visible o) end
  | _ => None
  end.

Definition place (o : Orbit) (wr : WinId * Rect) : Placement := {|
  win := fst wr;
  rect := snd wr;
  pl_focused := bool_decide (orbit_focused o = Some (fst wr));
  pl_occluded := bool_decide (layout o = Mono) && bool_decide (top_window o ≠ Some (fst wr))
|}.

Definition project (o : Orbit) (area : Workarea) (params : TriptychParams) : list Placement :=
  match fullscreen o ≫= (λ w, if bool_decide (w ∈ visible o) then Some w else None) with
  | Some full =>
      [mk_placement full (wa_output area) (bool_decide (orbit_focused o = Some full)) false]
  | None =>
      if bool_decide (visible o = []) || (rect_w (wa_tiles area) <=? 0)
         || (rect_h (wa_tiles area) <=? 0) then []
      else
        place o <$> zip (visible o)
          (layout_rects (layout o) (length (visible o)) (wa_tiles area) params)
  end.

(** ** Hypotheses of the theorems *)

(** Parameters of the type: every ratio is an [f32]. *)
Definition params_f32 (p : TriptychParams) : Prop :=
  valid_binary 24 128 (master_ratio p) = true
  ∧ valid_binary 24 128 (stack_primary_ratio p) = true
  ∧ valid_binary 24 128 (primary_row_ratio p) = true.

Lemma params_f32_default : params_f32 TriptychParams_default.
Proof. by vm_compute. Qed.

Lemma sanitised_ok p :
  params_f32 p →
  ratio_ok (master_ratio (sanitised p)) ∧ grid_params_ok (Some (sanitised p)).
Proof. intros (Hm & Hs & Hr). split; [|split]; by apply clamp_ratio_ok. Qed.

(** ** Layout lemmas *)

Lemma even_lays_out n a : (0 < n)%nat → region_ok n a → lays_out n a (even n a).
Proof. intros. by apply grid_lays_out. Qed.

Lemma in_span_cut px py x y w c h :
  0 <= c <= w →
  Nat.b2n (inside px py (mk_rect x y w h))
  = (Nat.b2n (inside px py (mk_rect x y c h)) + Nat.b2n (inside px py (mk_rect (x + c) y (w - c) h)))%nat.
Proof.
  intros Hc. unfold inside. cbn [rect_x rect_y rect_w rect_h].
  pose proof (in_span_split px x c (w - c) ltac:(lia) ltac:(lia)) as H.
  replace (c + (w - c)) with w in H by lia. destruct (in_span py y h);
    rewrite ?andb_true_r, ?andb_false_r; [lia|done].
Qed.

Lemma triptych_lays_out n a p :
  (0 < n)%nat → region_ok n a → 8 <= rect_w a → params_f32 p →
  lays_out n a (triptych n a (sanitised p)).
Proof.
  intros Hn (Ha & Hw & Hh & Hbw & Hbh) H8 Hp.
  destruct (sanitised_ok p Hp) as [Hm Hg]. unfold triptych.
  destruct (Nat.eqb_spec n 1) as [->|Hn1].
  { split; [done|]. intros px py. cbn. lia. }
  destruct (ratio_partition (rect_w a) (master_ratio (sanitised p)) H8
    (partition_bound_le _ 2 n Hw ltac:(lia) Hbw) Hm) as (c0 & c1 & -> & Hc0 & Hc1 & Hsum).
  cbn [nth]. destruct a as [x y w h]. unfold rect_small in Ha. cbn [rect_x rect_y rect_w rect_h] in *.
  destruct Ha as (Hx0 & Hy0 & _ & Hh0 & Hxw & Hyh).
  rewrite i32_add_small by (unfold in_i32, i32_min, i32_max in *; lia). unfold Rect_new.
  destruct (grid_lays_out (n - 1) (mk_rect (x + c0) y c1 h) (stack_columns (sanitised p))
    (Some (sanitised p))) as [Hl Ht]; [lia| |done|].
  { unfold region_ok, rect_small, partition_bound in *. cbn. split_and!; nia. }
  split; [cbn [length]; rewrite Hl; lia|]. intros px py. rewrite cover_cons, Ht.
  rewrite (in_span_cut px py x y w c0 h) by lia. by replace (w - c0) with c1 by lia.
Qed.

(** ** Theorems *)

(** C19. Every layout tiles: for any number of visible windows and any region
    that fits the arithmetic, [triptych] and [even] answer exactly one rectangle
    per window, and every point of the region lies in exactly one rectangle
    while no point outside lies in any (no gap, no overlap). *)
Theorem layouts_tile_region (lay : Layout) (n : nat) (a : Rect) (p : TriptychParams) :
  lay ≠ Mono → (0 < n)%nat → region_ok n a → 8 <= rect_w a → params_f32 p →
  length (layout_rects lay n a p) = n
  ∧ ∀ px py, cover px py (layout_rects lay n a p) = Nat.b2n (inside px py a).
Proof.
  intros Hl Hn Ha H8 Hp. destruct lay; [|done|].
  - by apply triptych_lays_out.
  - by apply even_lays_out.
Qed.

Lemma layouts_tile_region_witness :
  Triptych ≠ Mono ∧ cover 700 900 (layout_rects Triptych 5 (mk_rect 0 32 1920 1022)
    TriptychParams_default) = 1%nat.
Proof.
  split; [done|].
  refine (proj2 (layouts_tile_region Triptych 5 (mk_rect 0 32 1920 1022)
    TriptychParams_default _ _ _ _ _) 700 900).
  - done.
  - lia.
  - unfold region_ok, rect_small, partition_bound. split_and!; by vm_compute.
  - cbn. lia.
  - by vm_compute.
Defined.

(** ** Projections *)

Lemma win_place o ps : win <$> (place o <$> ps) = ps.*1.
Proof. rewrite <-list_fmap_compose. by apply list_fmap_ext. Qed.

Lemma rect_place o ps : rect <$> (place o <$> ps) = ps.*2.
Proof. rewrite <-list_fmap_compose. by apply list_fmap_ext. Qed.

(** Without a visible fullscreen window the layouts decide. *)
Lemma project_laid_out o area params :
  fullscreen o ≫= (λ w, if bool_decide (w ∈ visible o) then Some w else None) = None →
  visible o ≠ [] → 0 < rect_w (wa_tiles area) → 0 < rect_h (wa_tiles area) →
  project o area params
  = place o <$> zip (visible o)
      (layout_rects (layout o) (length (visible o)) (wa_tiles area) params).
Proof.
  intros Hf Hv Hw Hh. unfold project. rewrite Hf, bool_decide_eq_false_2 by done.
  by rewrite !(proj2 (Z.leb_gt _ _)) by done.
Qed.

Lemma layout_rects_length lay n a p :
  (0 < n)%nat → region_ok n a → 8 <= rect_w a → params_f32 p →
  length (layout_rects lay n a p) = n.
Proof.
  intros. destruct lay; [by apply triptych_lays_out| |by apply even_lays_out].
  apply length_replicate.
Qed.

(** Whatever is placed is visible, and placed once. *)
Lemma fst_zip_prefix {A C} (l : list A) (k : list C) : (zip l k).*1 `prefix_of` l.
Proof.
  revert k. induction l as [|x l IH]; intros [|y k]; cbn; [done|done|apply prefix_nil|].
  by apply prefix_cons.
Qed.

Lemma prefix_submseteq {A} (l k : list A) : l `prefix_of` k → l ⊆+ k.
Proof. intros [j ->]. by apply submseteq_inserts_r. Qed.

Lemma project_windows_sub o area params : win <$> project o area params ⊆+ visible o.
Proof.
  unfold project.
  destruct (fullscreen o ≫= (λ w, if bool_decide (w ∈ visible o) then Some w else None)) as [w|] eqn:Hf.
  - apply bind_Some in Hf as (w' & _ & Hw). case_bool_decide as Hv; [|done]. injection Hw as <-.
    cbn. by apply singleton_submseteq_l.
  - destruct (_ || _ || _); [apply submseteq_nil_l|].
    rewrite win_place. apply prefix_submseteq, fst_zip_prefix.
Qed.

(** The focus flag is the orbit's focus. *)
Lemma project_focused o area params p :
  p ∈ project o area params → pl_focused p = bool_decide (orbit_focused o = Some (win p)).
Proof.
  unfold project. destruct (fullscreen o ≫= _) as [w|].
  - by intros ->%list_elem_of_singleton.
  - destruct (_ || _ || _); [by intros ?%elem_of_nil|]. by intros (wr & -> & _)%list_elem_of_fmap.
Qed.


Definition demo_orbit (lay : Layout) : Orbit :=
  Orbit_new 0 <| windows := [1; 2; 3]%N |> <| focus := Some 1%nat |> <| layout := lay |>.

Definition demo_area : Workarea := Workarea_new 1920 1080 32 26.


(** Focus moves no pixel: whatever window has the focus, the projection of
    an orbit shows the same windows in the same rectangles. *)
Theorem focus_moves_only_flags
    (o : Orbit) (f : option nat) (area : Workarea) (params : TriptychParams) :
  (λ p, (win p, rect p)) <$> project (o <| focus := f |>) area params
  = (λ p, (win p, rect p)) <$> project o area params.
Proof.
  unfold project. change (visible (o <| focus := f |>)) with (visible o).
  change (fullscreen (o <| focus := f |>)) with (fullscreen o).
  change (layout (o <| focus := f |>)) with (layout o).
  destruct (fullscreen o ≫= _); [done|]. destruct (_ || _ || _); [done|].
  by rewrite <-!list_fmap_compose.
Qed.

(** A fullscreen window that is not stowed replaces the whole projection and
    gets the output, bars included. *)
Theorem fullscreen_replaces_projection
    (o : Orbit) (w : WinId) (area : Workarea) (params : TriptychParams) :
  fullscreen o = Some w → w ∈ windows o → w ∉ stowed o →
  project o area params
  = [mk_placement w (wa_output area) (bool_decide (orbit_focused o = Some w)) false].
Proof.
  intros Hf Hw Hs. unfold project. rewrite Hf. cbn [mbind option_bind].
  by rewrite bool_decide_eq_true_2 by (by apply list_elem_of_filter).
Qed.

Lemma fullscreen_replaces_projection_witness :
  demo_orbit Even ≠ Orbit_new 0
  ∧ project (demo_orbit Even <| fullscreen := Some 2%N |>) demo_area TriptychParams_default
    = [mk_placement 2%N (mk_rect 0 0 1920 1080) true false].
Proof.
  split; [done|].
  refine (fullscreen_replaces_projection (demo_orbit Even <| fullscreen := Some 2%N |>) 2%N
    demo_area TriptychParams_default _ _ _).
  - done.
  - apply list_elem_of_further, list_elem_of_here.
  - apply not_elem_of_nil.
Defined.

(** A reachable ledger: three windows in a mono stack, the focused one stowed. *)
Definition mono_stowed : Ledger :=
  foldl (λ l op, apply_op op l) Ledger_new
    [OpSummon 1%N 0; OpSummon 2%N 0; OpSummon 3%N 0; OpSetLayout Mono; OpToggleStow].

Lemma mono_occluded_iff o area params w p :
  layout o = Mono → fullscreen o = None → orbit_focused o = Some w →
  p ∈ project o area params → pl_occluded p = false ↔ win p = w.
Proof.
  intros Hm Hf Hw. unfold project. rewrite Hf. cbn [mbind option_bind].
  destruct (_ || _ || _); [by intros ?%elem_of_nil|].
  intros ([v r] & -> & _)%list_elem_of_fmap. unfold place, top_window.
  cbn [fst snd win pl_occluded]. rewrite Hm, Hw, bool_decide_eq_true_2 by done. cbn [andb].
  rewrite bool_decide_eq_false. split; [|intros -> H; by apply H].
  intros H. apply dec_stable in H. congruence.
Qed.

(** In a mono stack the windows drawn on top are exactly those that are the
    focused window: one, when it is visible.  Stowing keeps the focus where it
    is, so it need not be: in a ledger five operations away from the empty one,
    every placed window is marked occluded although no window covers it. *)
Theorem mono_on_top_is_focused :
  (∀ o area params w p,
     layout o = Mono → fullscreen o = None → orbit_focused o = Some w →
     p ∈ project o area params → pl_occluded p = false ↔ win p = w)
  ∧ let ps := project (active_orbit mono_stowed) demo_area TriptychParams_default in
    win <$> ps = [1; 2]%N ∧ Forall (λ p, pl_occluded p = true) ps.
Proof.
  split; [exact mono_occluded_iff|]. cbv zeta. split; [by vm_compute|].
  by repeat constructor.
Qed.
