(* ===== verification/Keys.v ===== *)
(** * realm-core/src/keys.rs: modes, actions, bindings and the keymap

    The types, the default keymap, and its queries.  A keymap without conflicts
    resolves every key press to the one binding that advertises it. *)

From Stdlib Require Import ZArith Lia.
From stdpp Require Import prelude list.
From S2P Require Import Prelude Layout Ledger.

(** ** Data *)

Inductive Mode := Nav | Resize | Move.

#[export] Instance Mode_eq_dec : EqDecision Mode.
Proof. solve_decision. Defined.

Definition Mode_default : Mode := Nav.

Definition badge (m : Mode) : rstring :=
  match m with
  | Nav => lit "NAV"
  | Resize => lit "RESIZE"
  | Move => lit "MOVE"
  end.

(** The [Debug] rendering, which [conflicts] prints. *)
Definition mode_debug (m : Mode) : rstring :=
  match m with
  | Nav => lit "Nav"
  | Resize => lit "Resize"
  | Move => lit "Move"
  end.

(** Constructors carry the prefix of the enum: several are also type names. *)
Inductive Action :=
| Action_Spawn (argv : list rstring)
| Action_Terminal
| Action_Launcher
| Action_Focus (d : Dir)
| Action_Swap (d : Dir)
| Action_Orbit (n : nat)
| Action_MoveToOrbit (n : nat)
| Action_Stow
| Action_SetLayout (l : Layout)
| Action_Fullscreen
| Action_EnterMode (m : Mode)
| Action_Banish
| Action_Undo
| Action_ToggleWhichKey
| Action_Grimoire
| Action_ReloadTheme
| Action_Quit.

#[export] Instance Action_eq_dec : EqDecision Action.
Proof. solve_decision. Defined.

Record Binding := mk_binding {
  key : rstring;
  hint_key : rstring;
  binding_label : rstring;
  action : Action;
  mode : Mode;
  repeatable : bool;
  in_strip : bool
}.

#[export] Instance Binding_eq_dec : EqDecision Binding.
Proof. solve_decision. Defined.

Record Keymap := mk_keymap { modifier : rstring; bindings : list Binding }.

#[export] Instance Keymap_eq_dec : EqDecision Keymap.
Proof. solve_decision. Defined.

(** [matches!(action, Action::Focus(_) | Action::Swap(_))] *)
Definition action_repeats (a : Action) : bool :=
  match a with Action_Focus _ | Action_Swap _ => true | _ => false end.

Definition b (key hint label : rstring) (act : Action) (in_strip : bool) : Binding := {|
  key := key;
  hint_key := hint;
  binding_label := label;
  action := act;
  mode := Nav;
  repeatable := action_repeats act;
  in_strip := in_strip
|}.

(** ** The default keymap *)

Definition orbit_bindings : list Binding :=
  (λ n, b (decimal (N.of_nat n)) (if n =? 1 then lit "1-6" else []) (lit "orbit")
          (Action_Orbit n) (n =? 1)) <$> seq 1 ORBIT_COUNT.

(** The hint of [Return] is the arrow U+21B5. *)
Definition Keymap_default : Keymap := {|
  modifier := lit "mod";
  bindings :=
    [ b (lit "Return") [8629%N] (lit "thoth") Action_Terminal true;
      b (lit "d") (lit "d") (lit "hecate") Action_Launcher true;
      b (lit "b") (lit "b") (lit "hermes") (Action_Spawn [lit "realm-browser"]) true;
      b (lit "j") (lit "j/k") (lit "focus") (Action_Focus Next) true;
      b (lit "k") [] (lit "focus") (Action_Focus Prev) false;
      b (lit "h") (lit "h/l") (lit "swap") (Action_Swap Prev) true;
      b (lit "l") [] (lit "swap") (Action_Swap Next) false ]
    ++ orbit_bindings ++
    [ b (lit "s") (lit "s") (lit "stow") Action_Stow true;
      b (lit "m") (lit "m") (lit "mono") (Action_SetLayout Mono) true;
      b (lit "f") (lit "f") (lit "full") Action_Fullscreen true;
      b (lit "r") (lit "r") (lit "resize") (Action_EnterMode Resize) true;
      b (lit "q") (lit "q") (lit "banish") Action_Banish true;
      b (lit "t") (lit "t") (lit "triptych") (Action_SetLayout Triptych) false;
      b (lit "u") (lit "u") (lit "undo") Action_Undo false;
      b (lit "w") (lit "w") (lit "which-key") Action_ToggleWhichKey false;
      b (lit "question") (lit "?") (lit "grimoire") Action_Grimoire false;
      b (lit "p") (lit "p") (lit "theme") Action_ReloadTheme false;
      b (lit "Escape") (lit "esc") (lit "nav") (Action_EnterMode Nav) false ]
|}.

(** ** Queries *)

Definition strip (k : Keymap) : list Binding := filter (λ c, in_strip c = true) (bindings k).

Definition answers (ky : rstring) (m : Mode) (c : Binding) : Prop := key c = ky ∧ mode c = m.

Definition resolve (k : Keymap) (ky : rstring) (m : Mode) : option Binding :=
  snd <$> list_find (answers ky m) (bindings k).

Definition bound_twice (a : Binding) : rstring :=
  key a ++ lit " bound twice in " ++ mode_debug (mode a) ++ lit " mode".

(** The two nested loops over [bindings]. *)
Fixpoint duplicates (bs : list Binding) : list rstring :=
  match bs with
  | [] => []
  | a :: bs' =>
      ((λ _, bound_twice a) <$> filter (λ c, key a = key c ∧ mode a = mode c) bs')
        ++ duplicates bs'
  end.

Definition reaches (n : nat) (c : Binding) : bool :=
  match action c with Action_Orbit x => x =? n | _ => false end.

Definition unreachable (k : Keymap) : list rstring :=
  (λ o, lit "orbit " ++ decimal (N.of_nat (human o)) ++ lit " is unreachable")
    <$> filter (λ o, existsb (reaches (human o)) (bindings k) = false) OrbitId_all.

Definition conflicts (k : Keymap) : list rstring := duplicates (bindings k) ++ unreachable k.

(** ** Lemmas *)

Lemma list_filter_nil {A} (P : A → Prop) `{∀ x, Decision (P x)} (l : list A) :
  filter P l = [] ↔ ∀ x, x ∈ l → ¬ P x.
Proof.
  split.
  - intros Hn x Hx Hp. by apply (filter_nil_not_elem_of P l x).
  - intros Hall. induction l as [|x l IH]; [done|].
    rewrite filter_cons_False by (apply Hall, list_elem_of_here).
    apply IH. intros y Hy. by apply Hall, list_elem_of_further.
Qed.

Lemma fmap_nil_iff {A B} (f : A → B) (l : list A) : f <$> l = [] ↔ l = [].
Proof. split; [apply fmap_nil_inv|by intros ->]. Qed.

Lemma duplicates_nil bs :
  duplicates bs = [] ↔ NoDup ((λ c, (key c, mode c)) <$> bs).
Proof.
  induction bs as [|a bs IH]; cbn [duplicates fmap list_fmap].
  { split; [constructor|done]. }
  rewrite NoDup_cons, app_nil, IH. apply and_iff_compat_r.
  rewrite fmap_nil_iff, list_filter_nil, list_elem_of_fmap. split.
  - intros Hn (c & Heq & Hc). injection Heq as Hk Hm. by apply (Hn c Hc).
  - intros Hn c Hc [Hk Hm]. apply Hn. exists c. by rewrite Hk, Hm.
Qed.

Lemma unreachable_nil k :
  unreachable k = [] ↔
  ∀ o, o < ORBIT_COUNT → ∃ c, c ∈ bindings k ∧ action c = Action_Orbit (human o).
Proof.
  unfold unreachable. rewrite fmap_nil_iff, list_filter_nil. unfold OrbitId_all. split.
  - intros Hn o Ho.
    assert (o ∈ seq 0 ORBIT_COUNT) as Hin by (apply elem_of_seq; lia).
    specialize (Hn o Hin). apply not_false_is_true, existsb_exists in Hn as (c & Hc & Hr).
    exists c. split; [by apply list_elem_of_In|]. unfold reaches in Hr.
    destruct (action c); try done. by apply Nat.eqb_eq in Hr as ->.
  - intros Hall o Ho%elem_of_seq Hf. destruct (Hall o ltac:(lia)) as (c & Hc & Ha).
    apply not_true_iff_false in Hf. apply Hf, existsb_exists. exists c.
    split; [by apply list_elem_of_In|]. unfold reaches. by rewrite Ha, Nat.eqb_refl.
Qed.

(** [conflicts] reports exactly what it is for: it answers nothing if and
    only if no key is bound twice in one mode and every orbit has a binding;
    then [resolve] finds a binding precisely when it is the one bound to that
    key in that mode. *)
Theorem no_conflicts_resolves (k : Keymap) :
  (conflicts k = [] ↔
     NoDup ((λ c, (key c, mode c)) <$> bindings k)
     ∧ ∀ o, o < ORBIT_COUNT → ∃ c, c ∈ bindings k ∧ action c = Action_Orbit (human o))
  ∧ (conflicts k = [] → ∀ ky m c,
       resolve k ky m = Some c ↔ c ∈ bindings k ∧ key c = ky ∧ mode c = m).
Proof.
  assert (conflicts k = [] ↔ duplicates (bindings k) = [] ∧ unreachable k = []) as Hc
    by apply app_nil.
  rewrite Hc, duplicates_nil, unreachable_nil. split; [done|].
  intros [Hnd _] ky m c. unfold resolve. split.
  - intros ([i c'] & Hf & ->)%fmap_Some. apply list_find_Some in Hf as (Hi & [Hk Hm] & _).
    split; [by eapply list_elem_of_lookup_2|done].
  - intros (Hin & Hk & Hm).
    destruct (list_find_elem_of (answers ky m) _ c Hin) as [[i c'] Hf]; [done|].
    rewrite Hf. cbn. apply list_find_Some in Hf as (Hi & [Hk' Hm'] & _).
    apply list_elem_of_lookup in Hin as [j Hj]. f_equal.
    assert (i = j) as ->; [|congruence].
    eapply NoDup_lookup; [exact Hnd| |]; rewrite list_lookup_fmap, ?Hi, ?Hj; cbn.
    + done.
    + by rewrite Hk, Hm, Hk', Hm'.
Qed.

Lemma no_conflicts_resolves_witness :
  conflicts Keymap_default = []
  ∧ (resolve Keymap_default (lit "d") Nav
       = Some (b (lit "d") (lit "d") (lit "hecate") Action_Launcher true)
     ↔ b (lit "d") (lit "d") (lit "hecate") Action_Launcher true ∈ bindings Keymap_default
       ∧ lit "d" = lit "d" ∧ Nav = Nav).
Proof.
  assert (conflicts Keymap_default = []) as Hc by (by vm_compute). split; [exact Hc|].
  exact (proj2 (no_conflicts_resolves Keymap_default) Hc (lit "d") Nav
    (b (lit "d") (lit "d") (lit "hecate") Action_Launcher true)).
Defined.
