(* ===== verification/State.v ===== *)
(** * realm-core/src/state.rs: the visible state the bar draws

    [RealmState], its default, and the equivalence [renders_same_as] under which
    the session suppresses redundant publications. *)

From Stdlib Require Import ZArith Lia.
From stdpp Require Import prelude list.
From S2P Require Import Prelude Layout Ledger Keys.

Inductive OrbitDisplay := Active | Occupied | Empty.

#[export] Instance OrbitDisplay_eq_dec : EqDecision OrbitDisplay.
Proof. solve_decision. Defined.

Record OrbitCell := mk_cell {
  number : nat;
  cell_rune : rstring;
  display : OrbitDisplay;
  cell_windows : nat
}.

#[export] Instance OrbitCell_eq_dec : EqDecision OrbitCell.
Proof. solve_decision. Defined.

(** [state::Module]; the name is a keyword here. *)
Record BarModule := mk_module {
  module_id : rstring;
  text : rstring;
  accent : option rstring;
  urgent : bool
}.

#[export] Instance BarModule_eq_dec : EqDecision BarModule.
Proof. solve_decision. Defined.

Record RealmState := mk_state {
  revision : N;
  state_orbits : list OrbitCell;
  state_layout : Layout;
  state_mode : Mode;
  focused_title : rstring;
  state_chord_echo : rstring;
  state_whichkey : bool;
  state_grimoire : bool;
  state_modules : list BarModule
}.

#[export] Instance RealmState_eq_dec : EqDecision RealmState.
Proof. solve_decision. Defined.

#[export] Instance RealmState_settable : Settable RealmState := λ s,
  mk_state (revision s) (state_orbits s) (state_layout s) (state_mode s) (focused_title s)
    (state_chord_echo s) (state_whichkey s) (state_grimoire s) (state_modules s).

Definition RealmState_default : RealmState := {|
  revision := 0;
  state_orbits := (λ o, mk_cell (human o) [rune o] (if o =? 0 then Active else Empty) 0)
                    <$> OrbitId_all;
  state_layout := Layout_default;
  state_mode := Mode_default;
  focused_title := [];
  state_chord_echo := [];
  state_whichkey := true;
  state_grimoire := false;
  state_modules := []
|}.

Definition renders_same_as (a c : RealmState) : bool :=
  bool_decide (state_orbits a = state_orbits c)
  && bool_decide (state_layout a = state_layout c)
  && bool_decide (state_mode a = state_mode c)
  && bool_decide (focused_title a = focused_title c)
  && bool_decide (state_chord_echo a = state_chord_echo c)
  && bool_decide (state_whichkey a = state_whichkey c)
  && bool_decide (state_grimoire a = state_grimoire c)
  && bool_decide (state_modules a = state_modules c).

(** The states up to their revision counter. *)
Definition same_picture (a c : RealmState) : Prop := renders_same_as a c = true.

Lemma same_picture_iff a c : same_picture a c ↔ a <| revision := 0%N |> = c <| revision := 0%N |>.
Proof.
  unfold same_picture, renders_same_as. rewrite !andb_true_iff, !bool_decide_eq_true.
  destruct a, c; cbn. split; [|by intros [=]; subst]. intros H. destruct_and?. by subst.
Qed.

#[export] Instance same_picture_equivalence : Equivalence same_picture.
Proof.
  split; red; setoid_rewrite same_picture_iff; [done|by symmetry|].
  intros x y z -> ->. done.
Qed.

(** Bumping the revision changes nothing that is drawn. *)
#[export] Instance set_revision_proper (n : N) :
  Proper (same_picture ==> same_picture) (λ s, s <| revision := n |>).
Proof. intros a c. rewrite !same_picture_iff. by destruct a, c. Qed.

Lemma set_revision_same (n : N) (s : RealmState) : same_picture (s <| revision := n |>) s.
Proof. rewrite same_picture_iff. by destruct s. Qed.
#[export] Hint Resolve set_revision_same : realm.

(** [renders_same_as] ignores the revision counter and nothing else: two
    states render the same exactly when they are equal after their revisions are
    erased, so a redraw is dropped only when every drawn field is unchanged. *)
Theorem renders_same_ignores_only_revision (a c : RealmState) :
  renders_same_as a c = true ↔ a <| revision := revision c |> = c.
Proof.
  change (same_picture a c ↔ a <| revision := revision c |> = c).
  rewrite same_picture_iff. destruct a, c; cbn. split; intros [=]; by subst.
Qed.
