(* ===== verification/Backend.v ===== *)
(** * realm-session/src/backend.rs: the compositor contract

    The identities, facts, responses and errors exchanged with a compositor
    backend, the accepted capacities, and the interface [WmBackend] itself.  The
    interface has no laws: the session is verified against every backend. *)

From Stdlib Require Import ZArith Lia.
From stdpp Require Import prelude list.
From S2P Require Import Prelude Layout Ledger Projection Keys.

(** [realm_core::ipc]: the two records a connection reports. *)
Record Capabilities := mk_capabilities {
  exact_geometry : bool;
  server_side_borders : bool;
  hide_show : bool;
  explicit_ordering : bool;
  cap_fullscreen : bool;
  unsupported : list rstring
}.

#[export] Instance Capabilities_eq_dec : EqDecision Capabilities.
Proof. solve_decision. Defined.

Record InterfaceVersion := mk_interface { interface_name : rstring; interface_version : N }.

#[export] Instance InterfaceVersion_eq_dec : EqDecision InterfaceVersion.
Proof. solve_decision. Defined.

Record BackendConnection := mk_connection {
  conn_capabilities : Capabilities;
  conn_bound_interfaces : list InterfaceVersion;
  conn_layer_shell_served : bool
}.

(** ** Identities *)

(** [BackendWindowId(String)]: the text, which [new] validates. *)
Abbreviation BackendWindowId := (list N) (only parsing).

Definition printable (c : N) : bool := (32 <=? c)%N && (c <=? 126)%N.

Definition BackendWindowId_new (text : rstring) : option BackendWindowId :=
  if (1 <=? str_len text) && (str_len text <=? 32) && forallb printable (str_bytes text)
  then Some text else None.

(** The three [NonZero] identities; [new] rejects zero. *)
Abbreviation BackendTicket := positive (only parsing).
Abbreviation BackendPolicyTurnId := positive (only parsing).
Abbreviation BackendBindingId := positive (only parsing).

Definition nonzero_new (raw : N) : option positive :=
  match raw with N0 => None | Npos p => Some p end.

Definition nonzero_get (p : positive) : N := Npos p.

Inductive BackendModifier := Shift | Control | Alt | Super.

#[export] Instance BackendModifier_eq_dec : EqDecision BackendModifier.
Proof. solve_decision. Defined.

(** The derived [Ord]: declaration order. *)
Definition modifier_rank (m : BackendModifier) : nat :=
  match m with Shift => 0 | Control => 1 | Alt => 2 | Super => 3 end.

(** ** Capacities *)

Definition MAX_MANAGED_WINDOWS : nat := 256.
Definition MAX_CONFIGURED_BINDINGS : nat := 64.
Definition MAX_POLICY_EVENTS : nat := 256.
Definition MAX_STAGED_EFFECTS : nat := 256.
Definition MAX_POLICY_TEXT_BYTES : N := 65535.
Definition MAX_VISIBLE_APP_ID_JSON_BYTES : nat := 40.
Definition MAX_VISIBLE_TITLE_JSON_BYTES : nat := 80.
Definition KEY_REPEAT_RATE_HZ : N := 25.
Definition KEY_REPEAT_DELAY_MS : N := 600.
Definition MAX_REPLAY_POLICY_EVENTS : nat := MAX_MANAGED_WINDOWS + 3.

(** ** Facts and responses *)

Record BackendBindingSpec := mk_spec {
  spec_id : BackendBindingId;
  keysym : rstring;
  spec_modifiers : list BackendModifier
}.

Inductive BackendPolicyEvent :=
| InitialReplayComplete
| WindowOpened (backend_id : BackendWindowId) (app_id title : rstring)
| WindowClosed (backend_id : BackendWindowId)
| TitleChanged (backend_id : BackendWindowId) (title : rstring)
| FocusChanged (focus : option BackendWindowId)
| ExclusiveFocusChanged (exclusive : bool)
| WorkareaChanged (workarea : Workarea)
| GeometryDrifted (backend_id : BackendWindowId) (rect : Rect)
| BindingPressed (id : BackendBindingId)
| BindingReleased (id : BackendBindingId)
| BindingRepeatStopped (id : BackendBindingId)
| UnboundKeyEaten
| ModifiersChanged (old new : list BackendModifier).

Record BackendPolicyTurn := mk_turn {
  turn_id : BackendPolicyTurnId;
  drains : option BackendTicket;
  events : list BackendPolicyEvent
}.

Inductive BackendNextKeyEdge := Preserve | Ensure | Cancel.

#[export] Instance BackendNextKeyEdge_eq_dec : EqDecision BackendNextKeyEdge.
Proof. solve_decision. Defined.

Record BackendBindingState := mk_binding_state {
  enabled : list BackendBindingId;
  watched_modifiers : list BackendModifier;
  next_key_edge : BackendNextKeyEdge
}.

#[export] Instance BackendBindingState_settable : Settable BackendBindingState := λ s,
  mk_binding_state (enabled s) (watched_modifiers s) (next_key_edge s).

Record BackendPolicyResponse := mk_response {
  projection : option (list Placement);
  closes : list WinId;
  resp_bindings : BackendBindingState
}.

#[export] Instance BackendPolicyResponse_settable : Settable BackendPolicyResponse := λ r,
  mk_response (projection r) (closes r) (resp_bindings r).

Record BackendExitPolicy := mk_exit_policy {
  exit_enabled : list BackendBindingId;
  exit_watched_modifiers : list BackendModifier
}.

Inductive BackendSubmission := Complete | Pending.

Record BackendPollInterest := mk_interest {
  immediate : bool; readable : bool; writable : bool
}.

Record BackendReady := mk_ready {
  ready_readable : bool; terminal : bool; ready_writable : bool
}.

(** ** Errors *)

Inductive BackendProtocolErrorKind :=
| TruncatedPayload | TruncatedAncillary | InvalidFraming | InvalidObjectOrder.

Inductive BackendCapacityResource :=
| ManagedWindows | ConfiguredBindings | Outputs | Seats | InputDevices | LibinputDevices
| ObjectOrdinals | PolicyFacts | PolicyEffects | PolicyTextBytes | RetainedBytes
| RetainedDescriptors | PolicyTurnIds.

Inductive BackendError :=
| Unsupported (capability : rstring)
| ErrDisconnected
| Unavailable (message : rstring)
| Io (message : rstring)
| Protocol (kind : BackendProtocolErrorKind)
| Capacity (resource : BackendCapacityResource) (limit : N).

Inductive BackendContractError :=
| UnknownWindow (backend_id : BackendWindowId)
| ConflictingBackendIdentity
| ConflictingRealmIdentity
| UnknownWindowReference
| UnknownBinding (id : BackendBindingId)
| NonCanonicalModifiers
| InvalidPolicySequence.

Inductive BackendEvent :=
| PolicyTurn (turn : BackendPolicyTurn)
| OperationCompleted (ticket : BackendTicket) (res : result unit BackendError)
| RetainedObservationsDrained (ticket : BackendTicket)
| Disconnected.

(** ** The interface

    [&mut self] is state passing; [event_fd] hands out a descriptor and is not
    modelled; the monotonic clock is a number of nanoseconds. *)
Class WmBackend (B : Type) := {
  wm_name : B → rstring;
  wm_connect : B → result BackendConnection BackendError * B;
  wm_assign_window : BackendWindowId → WinId → B → result unit BackendContractError * B;
  wm_configure_bindings : list BackendBindingSpec → B → result unit BackendError * B;
  wm_request_policy_turn : B → result unit BackendError * B;
  wm_respond_policy_turn : BackendPolicyTurnId → BackendTicket → BackendPolicyResponse → B →
    result BackendSubmission BackendError * B;
  wm_begin_exit_session : BackendExitPolicy → B → result unit BackendError * B;
  wm_poll_interest : B → BackendPollInterest;
  wm_service : BackendReady → N → B → result (option BackendEvent) BackendError * B
}.
