(* ===== verification/Snapshot.v ===== *)
(** * realm-session/src/session.rs: the persisted session snapshot

    [SessionSnapshotV1], its validation loop, and its closed JSON schema.  The
    JSON text itself belongs to serde_json; here a document is the ordered
    [Json] value its deserializer hands to the visitors of the source. *)

From Stdlib Require Import ZArith Lia Sorted.
From stdpp Require Import prelude list gmap.
From S2P Require Import Prelude Layout Ledger Backend.

(** ** Data *)

Definition SNAPSHOT_SCHEMA_VERSION : N := 1.

(** [realm_core::ipc::PROTOCOL_VERSION] *)
Definition PROTOCOL_VERSION : N := 2.

Definition ORBIT_NAMES : list rstring := NAMES.

Record SnapshotBinding := mk_snapshot_binding {
  win_id : WinId;
  backend_id : BackendWindowId
}.

#[export] Instance SnapshotBinding_eq_dec : EqDecision SnapshotBinding.
Proof. solve_decision. Defined.

Record SessionSnapshotV1 := mk_session_snapshot {
  schema_version : N;
  protocol_version : N;
  ledger : Ledger;
  snapshot_bindings : list SnapshotBinding;
  next_win_id : N;
  active_orbit : OrbitId
}.

#[export] Instance SessionSnapshotV1_eq_dec : EqDecision SessionSnapshotV1.
Proof. solve_decision. Defined.

(** The errors of the deserializer: the two the visitors raise themselves, and
    a value of the wrong type or out of range. *)
Inductive JsonError :=
| MissingField (field : rstring)
| Custom (message : rstring)
| InvalidValue.

Inductive SessionSnapshotError :=
| Encoding (error : JsonError)
| Invalid (reason : rstring).

(** ** Validation *)

Definition Invalid_lit (s : String.string) : SessionSnapshotError := Invalid (lit s).
Arguments Invalid_lit s%_string_scope.

(** [for win in &orbit.windows], threading [ledger_windows]. *)
Fixpoint validate_windows (next : N) (ws : list WinId) (seen : gset N) :
    result (gset N) SessionSnapshotError :=
  match ws with
  | [] => Ok seen
  | w :: ws' =>
      ensure (w <? next)%N && bool_decide (w ∉ seen)
        else Invalid_lit "window ids must be unique and below the watermark";
      validate_windows next ws' ({[w]} ∪ seen)
  end.

(** [for win in &orbit.stowed], threading [stowed]. *)
Fixpoint validate_stowed (o : Orbit) (ws : list WinId) (seen : gset N) :
    result unit SessionSnapshotError :=
  match ws with
  | [] => Ok tt
  | w :: ws' =>
      ensure bool_decide (w ∈ windows o) && bool_decide (w ∉ seen)
        else Invalid_lit "stowed windows must be a unique subset of the orbit";
      validate_stowed o ws' ({[w]} ∪ seen)
  end.

(** The three failing arms of [match orbit.focus]. *)
Definition validate_focus (o : Orbit) : result unit SessionSnapshotError :=
  match focus o, windows o with
  | None, _ :: _ => Err (Invalid_lit "occupied orbit has no focus")
  | Some _, [] => Err (Invalid_lit "empty orbit has a focus")
  | Some f, ws =>
      if length ws <=? f then Err (Invalid_lit "orbit focus is out of range") else Ok tt
  | None, [] => Ok tt
  end.

Definition validate_orbit (next : N) (index : nat) (o : Orbit) (seen : gset N) :
    result (gset N) SessionSnapshotError :=
  ensure bool_decide (OrbitId_new index = Some (orbit_id o))
    else Invalid_lit "orbit ids are not canonical";
  ensure bool_decide (ORBIT_NAMES !! index = Some (orbit_name o))
    else Invalid_lit "orbit names are not canonical";
  try _ := validate_focus o in
  try seen := validate_windows next (windows o) seen in
  try _ := validate_stowed o (stowed o) ∅ in
  ensure match fullscreen o with None => true | Some w => bool_decide (w ∈ windows o) end
    else Invalid_lit "fullscreen window must belong to the orbit";
  Ok seen.

Fixpoint validate_orbits (next : N) (index : nat) (os : list Orbit) (seen : gset N) :
    result (gset N) SessionSnapshotError :=
  match os with
  | [] => Ok seen
  | o :: os' =>
      try seen := validate_orbit next index o seen in
      validate_orbits next (S index) os' seen
  end.

Abbreviation BackendIds := (gset (list N)) (only parsing).

Fixpoint validate_bindings (bs : list SnapshotBinding) (bound : gset N) (ids : BackendIds)
    (previous : option N) : result (gset N) SessionSnapshotError :=
  match bs with
  | [] => Ok bound
  | b :: bs' =>
      ensure bool_decide (win_id b ∉ bound) && bool_decide (backend_id b ∉ ids)
        else Invalid_lit "bindings must be a one-to-one mapping";
      ensure match previous with None => true | Some w => (w <? win_id b)%N end
        else Invalid_lit "bindings must be strictly sorted by window id";
      validate_bindings bs' ({[win_id b]} ∪ bound) ({[backend_id b]} ∪ ids) (Some (win_id b))
  end.

Definition validate (s : SessionSnapshotV1) : result unit SessionSnapshotError :=
  ensure (schema_version s =? SNAPSHOT_SCHEMA_VERSION)%N
    else Invalid_lit "unsupported schema version";
  ensure (protocol_version s =? PROTOCOL_VERSION)%N
    else Invalid_lit "protocol version mismatch";
  ensure active_orbit s =? active (ledger s)
    else Invalid_lit "active orbit disagrees with ledger";
  ensure active_orbit s <? ORBIT_COUNT
    else Invalid_lit "active orbit is out of range";
  ensure length (orbits (ledger s)) =? ORBIT_COUNT
    else Invalid_lit "ledger must contain six orbits";
  try ledger_windows := validate_orbits (next_win_id s) 0 (orbits (ledger s)) ∅ in
  try bound := validate_bindings (snapshot_bindings s) ∅ ∅ None in
  ensure bool_decide (bound = ledger_windows)
    else Invalid_lit "bindings must cover the ledger exactly";
  Ok tt.

(** [SessionSnapshotV1::new] *)
Definition SessionSnapshotV1_new (l : Ledger) (bs : list SnapshotBinding) (next : N) :
    result SessionSnapshotV1 SessionSnapshotError :=
  let l := discard_undo_history l in
  let snapshot := mk_session_snapshot SNAPSHOT_SCHEMA_VERSION PROTOCOL_VERSION l bs next (active l) in
  try _ := validate snapshot in
  Ok snapshot.

(** ** What validation decides *)

Definition snapshot_valid (s : SessionSnapshotV1) : Prop :=
  schema_version s = SNAPSHOT_SCHEMA_VERSION
  ∧ protocol_version s = PROTOCOL_VERSION
  ∧ active_orbit s = active (ledger s)
  ∧ orbits_wf (orbits (ledger s)) (active (ledger s))
  ∧ (∀ w, w ∈ all_windows (orbits (ledger s)) → (w < next_win_id s)%N)
  ∧ StronglySorted N.lt (win_id <$> snapshot_bindings s)
  ∧ NoDup (backend_id <$> snapshot_bindings s)
  ∧ (∀ w, w ∈ win_id <$> snapshot_bindings s ↔ w ∈ all_windows (orbits (ledger s))).

Lemma validate_windows_Ok next ws seen seen' :
  validate_windows next ws seen = Ok seen' ↔
  (∀ w, w ∈ ws → (w < next)%N) ∧ NoDup ws ∧ (∀ w, w ∈ ws → w ∉ seen)
  ∧ seen' = list_to_set ws ∪ seen.
Proof.
  revert seen. induction ws as [|w ws IH]; intros seen; cbn [validate_windows].
  - split; [intros [= ->]; split_and!; [set_solver|constructor|set_solver|set_solver]|].
    intros (_ & _ & _ & ->). f_equal. set_solver.
  - rewrite ensure_Ok.
    rewrite andb_true_iff, N.ltb_lt, bool_decide_eq_true, NoDup_cons. split.
    + intros ([Hlt Hw] & (Hall & Hnd & Hdis & ->)%IH). split_and!; set_solver.
    + intros (Hall & [Hw Hnd] & Hdis & ->). split; [set_solver|].
      apply IH. split_and!; set_solver.
Qed.

Lemma validate_stowed_Ok o ws seen :
  validate_stowed o ws seen = Ok tt ↔
  ws ⊆ windows o ∧ NoDup ws ∧ (∀ w, w ∈ ws → w ∉ seen).
Proof.
  revert seen. induction ws as [|w ws IH]; intros seen; cbn [validate_stowed].
  - split; [intros _; split_and!; [set_solver|constructor|set_solver]|done].
  - rewrite ensure_Ok.
    rewrite andb_true_iff, !bool_decide_eq_true, NoDup_cons. split.
    + intros ([Hin Hw] & (Hall & Hnd & Hdis)%IH). split_and!; set_solver.
    + intros (Hall & [Hw Hnd] & Hdis). split; [set_solver|].
      apply IH. split_and!; set_solver.
Qed.

Lemma validate_focus_Ok o u : validate_focus o = Ok u ↔ focus_ok o.
Proof.
  unfold validate_focus, focus_ok. destruct u.
  destruct (focus o) as [f|], (windows o) as [|w ws];
    try (cbn; split; [done|lia]); try done.
  destruct (Nat.leb_spec (length (w :: ws)) f); split; intros; (done || lia).
Qed.

Lemma validate_orbit_Ok next i o seen seen' :
  validate_orbit next i o seen = Ok seen' ↔
  OrbitId_new i = Some (orbit_id o) ∧ ORBIT_NAMES !! i = Some (orbit_name o) ∧ orbit_wf o
  ∧ (∀ w, w ∈ windows o → (w < next)%N) ∧ NoDup (windows o)
  ∧ (∀ w, w ∈ windows o → w ∉ seen) ∧ seen' = list_to_set (windows o) ∪ seen.
Proof.
  unfold validate_orbit, orbit_wf. rewrite !ensure_Ok, rbind_unit_Ok, rbind_Ok.
  setoid_rewrite rbind_unit_Ok. setoid_rewrite ensure_Ok. setoid_rewrite validate_windows_Ok.
  setoid_rewrite validate_stowed_Ok. rewrite validate_focus_Ok, !bool_decide_eq_true. split.
  - intros (Hid & Hname & Hf & seen1 & (Hlt & Hnd & Hdis & ->) & (Hsub & Hnds & _) & Hfull & [= <-]).
    split_and!; try done. intros w Hw. rewrite Hw in Hfull. by apply bool_decide_eq_true in Hfull.
  - intros (Hid & Hname & (Hf & Hnds & Hsub & Hfull) & Hlt & Hnd & Hdis & ->).
    split_and!; try done. eexists. split; [by split_and!|].
    split; [split_and!; [done|done|set_solver]|]. split; [|done].
    destruct (fullscreen o) as [w|]; [|done]. apply bool_decide_eq_true. by apply Hfull.
Qed.

Lemma validate_orbits_Ok next i os seen seen' :
  validate_orbits next i os seen = Ok seen' ↔
  (∀ k o, os !! k = Some o →
     OrbitId_new (i + k) = Some (orbit_id o) ∧ ORBIT_NAMES !! (i + k) = Some (orbit_name o)
     ∧ orbit_wf o)
  ∧ (∀ w, w ∈ all_windows os → (w < next)%N) ∧ NoDup (all_windows os)
  ∧ (∀ w, w ∈ all_windows os → w ∉ seen) ∧ seen' = list_to_set (all_windows os) ∪ seen.
Proof.
  revert i seen. induction os as [|o os IH]; intros i seen; cbn [validate_orbits].
  - split; [intros [= ->]|intros (_ & _ & _ & _ & ->); f_equal; set_solver].
    split_and!; try set_solver. constructor.
  - rewrite rbind_Ok. setoid_rewrite validate_orbit_Ok. setoid_rewrite IH.
    change (all_windows (o :: os)) with (windows o ++ all_windows os).
    rewrite NoDup_app. split.
    + intros (s1 & (Hid & Hname & Hwf & Hlt & Hnd & Hdis & ->) & Hall & Hlt' & Hnd' & Hdis' & ->).
      split_and!; try done.
      * intros [|k] o' Ho'; [injection Ho' as <-; by rewrite Nat.add_0_r|].
        rewrite Nat.add_succ_r. apply (Hall k o' Ho').
      * intros w [Hw|Hw]%elem_of_app; eauto.
      * intros w Hw Hw'. apply (Hdis' w Hw'). clear -Hw. set_solver.
      * intros w [Hw|Hw]%elem_of_app; [eauto|]. specialize (Hdis' w Hw). clear -Hdis'. set_solver.
      * rewrite list_to_set_app_L. clear. set_solver.
    + intros (Hall & Hlt & (Hnd & Hd & Hnd') & Hdis & ->). eexists. split.
      * destruct (Hall 0 o eq_refl) as (Hid & Hname & Hwf). rewrite Nat.add_0_r in *.
        split_and!; try done; intros w Hw; [apply Hlt|apply Hdis]; by apply elem_of_app; left.
      * split_and!.
        -- intros k o' Ho'. specialize (Hall (S k) o' Ho'). by rewrite Nat.add_succ_r in Hall.
        -- intros w Hw. apply Hlt, elem_of_app. by right.
        -- done.
        -- intros w Hw. specialize (Hdis w). rewrite elem_of_app in Hdis.
           specialize (Hd w). clear -Hdis Hd Hw. set_solver.
        -- rewrite list_to_set_app_L. clear. set_solver.
Qed.

Lemma validate_bindings_Ok bs bound ids prev bound' :
  (∀ w, w ∈ bound → ∃ p, prev = Some p ∧ (w <= p)%N) →
  validate_bindings bs bound ids prev = Ok bound' ↔
  StronglySorted N.lt (win_id <$> bs)
  ∧ (∀ w p, prev = Some p → w ∈ win_id <$> bs → (p < w)%N)
  ∧ NoDup (backend_id <$> bs) ∧ (∀ i, i ∈ backend_id <$> bs → i ∉ ids)
  ∧ bound' = list_to_set (win_id <$> bs) ∪ bound.
Proof.
  revert bound ids prev. induction bs as [|b bs IH]; intros bound ids prev Hb;
    cbn [validate_bindings].
  - split; [intros [= ->]; split_and!; try set_solver; constructor|].
    intros (_ & _ & _ & _ & ->). f_equal. set_solver.
  - rewrite !ensure_Ok, andb_true_iff, !bool_decide_eq_true, !fmap_cons, NoDup_cons.
    assert ((∀ p, prev = Some p → (p < win_id b)%N) →
      ∀ w, w ∈ {[win_id b]} ∪ bound → ∃ p, Some (win_id b) = Some p ∧ (w <= p)%N) as Hb'.
    { intros Hp w [->%elem_of_singleton|Hw]%elem_of_union; [by eauto using N.le_refl|].
      destruct (Hb w Hw) as (p & Hprev & Hle). specialize (Hp p Hprev). exists (win_id b). split; [done|lia]. }
    split.
    + intros ([Hw Hid] & Hord & Hrest).
      assert (∀ p, prev = Some p → (p < win_id b)%N) as Hp
        by (intros p ->; by apply N.ltb_lt in Hord).
      apply IH in Hrest as (Hs & Hlt & Hnd & Hdis & ->); [|by apply Hb'].
      split_and!.
      * constructor; [done|]. apply Forall_forall. intros w Hin. by apply (Hlt w (win_id b)).
      * intros w p Hprev [->|Hin]%elem_of_cons; [by apply Hp|].
        specialize (Hp p Hprev). specialize (Hlt w (win_id b) eq_refl Hin). lia.
      * intros Hin. apply (Hdis _ Hin). set_solver.
      * done.
      * intros i [->|Hin]%elem_of_cons; [done|]. specialize (Hdis i Hin). set_solver.
      * rewrite list_to_set_cons. set_solver.
    + intros (Hs & Hlt & (Hnin & Hnd) & Hdis & ->).
      apply StronglySorted_inv in Hs as [Hs Hall].
      assert (∀ p, prev = Some p → (p < win_id b)%N) as Hp
        by (intros p Hprev; apply (Hlt _ p Hprev); set_solver).
      assert (win_id b ∉ bound) as Hwb.
      { intros Hin. destruct (Hb _ Hin) as (p & Hprev & Hle). specialize (Hp p Hprev). lia. }
      split; [split; [done|apply Hdis; set_solver]|].
      split; [destruct prev as [p|]; [apply N.ltb_lt; by apply Hp|done]|].
      apply IH; [by apply Hb'|]. split_and!; [done| |done| |rewrite list_to_set_cons; set_solver].
      * intros w p [= <-] Hin. rewrite Forall_forall in Hall. by apply Hall.
      * intros i Hin. assert (i ≠ backend_id b) by (by intros ->).
        specialize (Hdis i). set_solver.
Qed.

Lemma orbits_wf_iff os act :
  orbits_wf os act ↔
  length os = ORBIT_COUNT ∧ act < ORBIT_COUNT ∧ NoDup (all_windows os)
  ∧ ∀ k o, os !! k = Some o →
      OrbitId_new k = Some (orbit_id o) ∧ ORBIT_NAMES !! k = Some (orbit_name o) ∧ orbit_wf o.
Proof.
  unfold orbits_wf. split.
  - intros (Hid & Hname & Hact & Hall & Hnd).
    assert (length os = ORBIT_COUNT) as Hl by (rewrite <-(length_fmap orbit_id os), Hid; done).
    split_and!; try done. intros k o Hk. pose proof (lookup_lt_Some _ _ _ Hk) as Hlt.
    split_and!.
    + unfold OrbitId_new. rewrite (proj2 (Nat.ltb_lt _ _)) by lia.
      assert (OrbitId_all !! k = Some (orbit_id o)) as H by (by rewrite <-Hid, list_lookup_fmap, Hk).
      unfold OrbitId_all in H. by apply lookup_seq in H as [-> _].
    + unfold ORBIT_NAMES. by rewrite <-Hname, list_lookup_fmap, Hk.
    + by eapply Forall_lookup_1.
  - intros (Hl & Hact & Hnd & Hall). split_and!; try done.
    + apply list_eq_same_length with ORBIT_COUNT; [done|by rewrite length_fmap|].
      intros k i j Hk. rewrite list_lookup_fmap. intros Hi Hj.
      apply fmap_Some in Hi as (o & Ho & ->). destruct (Hall k o Ho) as (Hid & _).
      unfold OrbitId_new in Hid. destruct (k <? ORBIT_COUNT); [|done].
      unfold OrbitId_all in Hj. apply lookup_seq in Hj as [-> _]. by injection Hid as <-.
    + apply list_eq_same_length with ORBIT_COUNT; [done|by rewrite length_fmap|].
      intros k i j Hk. rewrite list_lookup_fmap. intros Hi Hj.
      apply fmap_Some in Hi as (o & Ho & ->). destruct (Hall k o Ho) as (_ & Hn & _).
      unfold ORBIT_NAMES in Hn. congruence.
    + apply Forall_lookup. intros k o Hk. by apply (Hall k o).
Qed.

Lemma validate_Ok s : validate s = Ok tt ↔ snapshot_valid s.
Proof.
  unfold validate, snapshot_valid. rewrite !ensure_Ok, rbind_Ok.
  setoid_rewrite rbind_Ok. setoid_rewrite ensure_Ok. setoid_rewrite bool_decide_eq_true.
  setoid_rewrite validate_orbits_Ok. setoid_rewrite validate_bindings_Ok; [|set_solver].
  rewrite !N.eqb_eq, !Nat.eqb_eq, Nat.ltb_lt, orbits_wf_iff. cbn [Nat.add]. split.
  - intros (Hs & Hp & Ha & Hact & Hl & w & (Hall & Hlt & Hnd & _ & ->) & b & (Hso & _ & Hni & _ & ->) & Heq & _).
    rewrite <-Ha. split_and!; try done. intros w.
    assert (w ∈ (list_to_set (win_id <$> snapshot_bindings s) ∪ ∅ : gset N)
      ↔ w ∈ (list_to_set (all_windows (orbits (ledger s))) ∪ ∅ : gset N)) as H by (by rewrite Heq).
    rewrite !elem_of_union, !elem_of_list_to_set, !elem_of_empty in H. naive_solver.
  - intros (Hs & Hp & Ha & (Hl & Hact & Hnd & Hall) & Hlt & Hso & Hni & Hcov).
    rewrite Ha. split_and!; try done. eexists. split; [split_and!; try done; set_solver|].
    eexists. split; [split_and!; try done; set_solver|]. split; [|done].
    apply set_eq. intros w.
    rewrite !elem_of_union, !elem_of_list_to_set, !elem_of_empty, Hcov. done.
Qed.

(** ** The closed JSON schema

    An object is the sequence of its members in document order, duplicates
    included, which is what [MapAccess] yields.  [JOther] stands for the numbers
    that are not unsigned integers and for booleans. *)
Inductive Json :=
| JNull
| JNum (n : N)
| JStr (s : rstring)
| JArr (l : list Json)
| JObj (m : list (rstring * Json))
| JOther.

Definition decoder (A : Type) : Type := Json → result A JsonError.

(** One [next_key] and [next_value] of a visitor: the member must be the
    expected one, otherwise [message] is raised. *)
Definition take_field {A : Type} (name message : rstring) (d : decoder A)
    (m : list (rstring * Json)) : result (A * list (rstring * Json)) JsonError :=
  match m with
  | [] => Err (MissingField name)
  | (k, v) :: m' =>
      ensure bool_decide (k = name) else Custom message;
      try a := d v in
      Ok (a, m')
  end.

Definition no_more (message : rstring) (m : list (rstring * Json)) : result unit JsonError :=
  match m with [] => Ok tt | _ => Err (Custom message) end.

Definition as_object (j : Json) : result (list (rstring * Json)) JsonError :=
  match j with JObj m => Ok m | _ => Err InvalidValue end.

Definition require_field {A : Type} (name : rstring) (ordinal : N) (d : decoder A) :=
  take_field name (name ++ lit " must be field " ++ decimal ordinal) d.

Definition reject_extra_field (record : rstring) (m : list (rstring * Json)) :=
  no_more (record ++ lit " has an extra field") m.

(** The derived deserializers of the standard types. *)
Definition dec_uint (bound : N) : decoder N := λ j,
  match j with JNum n => if (n <=? bound)%N then Ok n else Err InvalidValue | _ => Err InvalidValue end.

Definition dec_nat (bound : N) : decoder nat := λ j,
  try n := dec_uint bound j in Ok (N.to_nat n).

Definition dec_string : decoder (list N) := λ j,
  match j with JStr s => Ok s | _ => Err InvalidValue end.

Definition dec_option {A} (d : decoder A) : decoder (option A) := λ j,
  match j with JNull => Ok None | _ => try a := d j in Ok (Some a) end.

Fixpoint dec_list {A} (d : decoder A) (l : list Json) : result (list A) JsonError :=
  match l with
  | [] => Ok []
  | j :: l' => try a := d j in try r := dec_list d l' in Ok (a :: r)
  end.

Definition dec_array {A} (d : decoder A) : decoder (list A) := λ j,
  match j with JArr l => dec_list d l | _ => Err InvalidValue end.

(** A unit variant is a string, or an object from the variant name to null. *)
Definition dec_layout : decoder Layout := λ j,
  let name := match j with
              | JStr s => Some s
              | JObj [(s, JNull)] => Some s
              | _ => None
              end in
  match name with
  | Some s =>
      if decide (s = lit "triptych") then Ok Triptych
      else if decide (s = lit "mono") then Ok Mono
      else if decide (s = lit "even") then Ok Even
      else Err InvalidValue
  | None => Err InvalidValue
  end.

Definition dec_win_id : decoder N := dec_uint u64_max.
Definition dec_orbit_id : decoder nat := dec_nat 255.

Definition dec_backend_id : decoder BackendWindowId := λ j,
  try s := dec_string j in
  match BackendWindowId_new s with
  | Some id => Ok id
  | None => Err (Custom (lit "backend window identity must be 1..=32 printable ASCII bytes"))
  end.

(** [SnapshotBinding::deserialize] *)
Definition dec_binding : decoder SnapshotBinding := λ j,
  try m := as_object j in
  try w := take_field (lit "win_id") (lit "win_id must be the first field") dec_win_id m in
  try b := take_field (lit "backend_id") (lit "backend_id must be the second field")
             dec_backend_id (snd w) in
  try _ := no_more (lit "snapshot binding has an extra field") (snd b) in
  Ok (mk_snapshot_binding (fst w) (fst b)).

(** [SnapshotOrbitWire::deserialize]; the wire record has the fields of [Orbit]. *)
Definition dec_orbit : decoder Orbit := λ j,
  try m := as_object j in
  try id := require_field (lit "id") 1 dec_orbit_id m in
  try windows := require_field (lit "windows") 2 (dec_array dec_win_id) (snd id) in
  try focus := require_field (lit "focus") 3 (dec_option (dec_nat u64_max)) (snd windows) in
  try stowed := require_field (lit "stowed") 4 (dec_array dec_win_id) (snd focus) in
  try layout := require_field (lit "layout") 5 dec_layout (snd stowed) in
  try fullscreen := require_field (lit "fullscreen") 6 (dec_option dec_win_id) (snd layout) in
  try name := require_field (lit "name") 7 dec_string (snd fullscreen) in
  try _ := reject_extra_field (lit "orbit") (snd name) in
  Ok (mk_orbit (fst id) (fst windows) (fst focus) (fst stowed) (fst layout) (fst fullscreen)
        (fst name)).

(** [SnapshotLedgerWire::deserialize] then [into_ledger]: the histories are
    skipped by serde and start empty. *)
Definition dec_ledger : decoder Ledger := λ j,
  try m := as_object j in
  try os := require_field (lit "orbits") 1 (dec_array dec_orbit) m in
  try act := require_field (lit "active") 2 dec_orbit_id (snd os) in
  try _ := reject_extra_field (lit "ledger") (snd act) in
  Ok (mk_ledger (fst os) (fst act) [] []).

(** [SessionSnapshotV1::deserialize] *)
Definition dec_snapshot : decoder SessionSnapshotV1 := λ j,
  try m := as_object j in
  try sv := take_field (lit "schema_version") (lit "schema_version must be the first field")
              (dec_uint u32_max) m in
  try pv := take_field (lit "protocol_version") (lit "protocol_version must be the second field")
              (dec_uint u32_max) (snd sv) in
  try l := take_field (lit "ledger") (lit "ledger must be the third field") dec_ledger (snd pv) in
  try bs := take_field (lit "bindings") (lit "bindings must be the fourth field")
              (dec_array dec_binding) (snd l) in
  try next := take_field (lit "next_win_id") (lit "next_win_id must be the fifth field")
                (dec_uint u64_max) (snd bs) in
  try act := take_field (lit "active_orbit") (lit "active_orbit must be the sixth field")
               dec_orbit_id (snd next) in
  try _ := no_more (lit "session snapshot has an extra field") (snd act) in
  Ok (mk_session_snapshot (fst sv) (fst pv) (fst l) (fst bs) (fst next) (fst act)).

(** [SessionSnapshotV1::from_json] on the parsed document. *)
Definition from_json (j : Json) : result SessionSnapshotV1 SessionSnapshotError :=
  try s := map_err Encoding (dec_snapshot j) in
  try _ := validate s in
  Ok s.

(** ** Encoding *)

Definition enc_option {A} (e : A → Json) (o : option A) : Json :=
  match o with None => JNull | Some a => e a end.

Definition enc_nat (n : nat) : Json := JNum (N.of_nat n).

Definition enc_orbit (o : Orbit) : Json := JObj [
  (lit "id", enc_nat (orbit_id o));
  (lit "windows", JArr (JNum <$> windows o));
  (lit "focus", enc_option enc_nat (focus o));
  (lit "stowed", JArr (JNum <$> stowed o));
  (lit "layout", JStr (label (layout o)));
  (lit "fullscreen", enc_option JNum (fullscreen o));
  (lit "name", JStr (orbit_name o))].

Definition enc_ledger (l : Ledger) : Json := JObj [
  (lit "orbits", JArr (enc_orbit <$> orbits l));
  (lit "active", enc_nat (active l))].

Definition enc_binding (b : SnapshotBinding) : Json := JObj [
  (lit "win_id", JNum (win_id b));
  (lit "backend_id", JStr (backend_id b))].

Definition enc_snapshot (s : SessionSnapshotV1) : Json := JObj [
  (lit "schema_version", JNum (schema_version s));
  (lit "protocol_version", JNum (protocol_version s));
  (lit "ledger", enc_ledger (ledger s));
  (lit "bindings", JArr (enc_binding <$> snapshot_bindings s));
  (lit "next_win_id", JNum (next_win_id s));
  (lit "active_orbit", enc_nat (active_orbit s))].

(** [SessionSnapshotV1::to_json] *)
Definition to_json (s : SessionSnapshotV1) : result Json SessionSnapshotError :=
  try _ := validate s in
  Ok (enc_snapshot s).

(** ** The round trip *)

Lemma dec_list_fmap {A} (d : decoder A) (e : A → Json) (l : list A) :
  Forall (λ a, d (e a) = Ok a) l → dec_list d (e <$> l) = Ok l.
Proof. induction 1 as [|a l Ha _ IH]; [done|]. cbn. by rewrite Ha, IH. Qed.

Lemma dec_uint_ok bound n : (n <= bound)%N → dec_uint bound (JNum n) = Ok n.
Proof. intros. unfold dec_uint. by rewrite (proj2 (N.leb_le _ _)). Qed.

Lemma dec_nat_ok bound n : (N.of_nat n <= bound)%N → dec_nat bound (enc_nat n) = Ok n.
Proof. intros. unfold dec_nat, enc_nat. rewrite dec_uint_ok by done. cbn. by rewrite Nat2N.id. Qed.

Lemma take_field_ok {A} name message (d : decoder A) a v m :
  d v = Ok a → take_field name message d ((name, v) :: m) = Ok (a, m).
Proof. intros H. unfold take_field. rewrite bool_decide_eq_true_2 by done. cbn. by rewrite H. Qed.

Lemma require_field_ok {A} name n (d : decoder A) a v m :
  d v = Ok a → require_field name n d ((name, v) :: m) = Ok (a, m).
Proof. apply take_field_ok. Qed.

(** Distinct ids below a watermark are at most that many. *)
Lemma ids_below_length (ws : list N) (next : N) :
  NoDup ws → (∀ w, w ∈ ws → (w < next)%N) → (N.of_nat (length ws) <= next)%N.
Proof.
  intros Hnd Hlt.
  assert (N.to_nat <$> ws ⊆+ seq 0 (N.to_nat next)) as H.
  { apply NoDup_submseteq; [by apply NoDup_fmap_2; [apply _|]|].
    intros k (w & -> & Hw)%list_elem_of_fmap. apply elem_of_seq. specialize (Hlt w Hw). lia. }
  apply submseteq_length in H. rewrite length_fmap, length_seq in H. lia.
Qed.

(** The machine ranges of a snapshot's fields. *)
Definition snapshot_in_range (s : SessionSnapshotV1) : Prop :=
  (next_win_id s <= u64_max)%N
  ∧ Forall (λ b, BackendWindowId_new (backend_id b) = Some (backend_id b)) (snapshot_bindings s).

Lemma dec_orbit_enc o next :
  orbit_id o < ORBIT_COUNT → orbit_wf o → NoDup (windows o) →
  (∀ w, w ∈ windows o → (w < next)%N) → (next <= u64_max)%N →
  dec_orbit (enc_orbit o) = Ok o.
Proof.
  intros Hid (Hf & Hnds & Hsub & Hfull) Hnd Hlt Hnext. unfold dec_orbit, enc_orbit.
  pose proof (ids_below_length _ _ Hnd Hlt) as Hlen.
  assert (∀ ws, ws ⊆ windows o → dec_array dec_win_id (JArr (JNum <$> ws)) = Ok ws) as Hws.
  { intros ws Hws. apply dec_list_fmap, Forall_forall. intros w Hw. apply dec_uint_ok.
    specialize (Hlt w (Hws w Hw)). lia. }
  cbn [as_object rbind].
  rewrite (require_field_ok _ _ _ (orbit_id o))
    by (apply dec_nat_ok; unfold ORBIT_COUNT in Hid; lia). cbn [rbind snd fst].
  rewrite (require_field_ok _ _ _ (windows o)) by (by apply Hws). cbn [rbind snd fst].
  rewrite (require_field_ok _ _ _ (focus o)); cbn [rbind snd fst].
  2:{ unfold focus_ok in Hf. destruct (focus o) as [f|]; [|done]. cbn [enc_option].
      unfold dec_option, enc_nat. fold (enc_nat f). rewrite dec_nat_ok by lia. done. }
  rewrite (require_field_ok _ _ _ (stowed o)) by (by apply Hws). cbn [rbind snd fst].
  rewrite (require_field_ok _ _ _ (layout o)) by (by destruct (layout o)). cbn [rbind snd fst].
  rewrite (require_field_ok _ _ _ (fullscreen o)); cbn [rbind snd fst].
  2:{ destruct (fullscreen o) as [w|]; [|done]. cbn [enc_option dec_option].
      unfold dec_win_id. specialize (Hlt w (Hfull w eq_refl)). by rewrite dec_uint_ok by lia. }
  rewrite (require_field_ok _ _ _ (orbit_name o)) by done. cbn. by destruct o.
Qed.

Lemma orbits_wf_lookup_id os act o : orbits_wf os act → o ∈ os → orbit_id o < ORBIT_COUNT.
Proof.
  intros (Hid & _) Ho. assert (orbit_id o ∈ OrbitId_all) as H.
  { rewrite <-Hid. by apply list_elem_of_fmap_2. }
  unfold OrbitId_all in H. apply elem_of_seq in H. lia.
Qed.

Lemma dec_ledger_enc l next :
  orbits_wf (orbits l) (active l) → history l = [] → redo_stack l = [] →
  (∀ w, w ∈ all_windows (orbits l) → (w < next)%N) → (next <= u64_max)%N →
  dec_ledger (enc_ledger l) = Ok l.
Proof.
  intros Hwf Hh Hr Hlt Hnext. unfold dec_ledger, enc_ledger. cbn [as_object rbind].
  rewrite (require_field_ok _ _ _ (orbits l)); cbn [rbind snd fst].
  - rewrite (require_field_ok _ _ _ (active l)); cbn.
    + by destruct l; cbn in *; subst.
    + apply dec_nat_ok. destruct Hwf as (_ & _ & Hact & _). unfold ORBIT_COUNT in Hact. lia.
  - apply dec_list_fmap, Forall_forall. intros o Ho. apply (dec_orbit_enc o next); try done.
    + by eapply orbits_wf_lookup_id.
    + destruct Hwf as (_ & _ & _ & Hall & _). rewrite Forall_forall in Hall. by apply Hall.
    + destruct Hwf as (_ & _ & _ & _ & Hnd). apply list_elem_of_lookup in Ho as [i Hi].
      rewrite (all_windows_lookup _ _ _ Hi) in Hnd. by apply NoDup_app in Hnd as [? _].
    + intros w Hw. apply Hlt. unfold all_windows. apply list_elem_of_bind. eauto.
Qed.

Lemma dec_binding_enc b next :
  BackendWindowId_new (backend_id b) = Some (backend_id b) →
  (win_id b < next)%N → (next <= u64_max)%N → dec_binding (enc_binding b) = Ok b.
Proof.
  intros Hid Hlt Hnext. unfold dec_binding, enc_binding. cbn [as_object rbind].
  rewrite (take_field_ok _ _ _ (win_id b)) by (apply dec_uint_ok; lia). cbn [rbind snd fst].
  rewrite (take_field_ok _ _ _ (backend_id b)); [by destruct b|].
  unfold dec_backend_id. cbn. by rewrite Hid.
Qed.

Lemma snapshot_new_Ok l bs next s :
  SessionSnapshotV1_new l bs next = Ok s ↔
  s = mk_session_snapshot SNAPSHOT_SCHEMA_VERSION PROTOCOL_VERSION (discard_undo_history l) bs next (active l)
  ∧ snapshot_valid s.
Proof.
  unfold SessionSnapshotV1_new. rewrite rbind_unit_Ok, validate_Ok.
  split; [by intros [? [= <-]]|by intros [-> ?]].
Qed.

(** C17. Persistence loses nothing: a snapshot built by [new] (so without undo
    history) encodes, and decoding the document gives the same snapshot back,
    windows, order, focus, stowing, layouts and bindings included. *)
Theorem snapshot_json_roundtrip
    (l : Ledger) (bs : list SnapshotBinding) (next : N) (s : SessionSnapshotV1) :
  SessionSnapshotV1_new l bs next = Ok s → snapshot_in_range s →
  ∃ j, to_json s = Ok j ∧ from_json j = Ok s.
Proof.
  intros [Hs Hv]%snapshot_new_Ok [Hnext Hbs]. exists (enc_snapshot s).
  assert (validate s = Ok tt) as Hval by (by apply validate_Ok).
  unfold to_json, from_json. rewrite Hval. split; [done|].
  destruct Hv as (Hsv & Hpv & Hact & Hwf & Hlt & Hso & Hni & Hcov).
  cut (dec_snapshot (enc_snapshot s) = Ok s); [intros ->; cbn; by rewrite Hval|].
  unfold dec_snapshot, enc_snapshot. cbn [as_object rbind].
  rewrite (take_field_ok _ _ _ (schema_version s)) by (by rewrite Hsv). cbn [rbind snd fst].
  rewrite (take_field_ok _ _ _ (protocol_version s)) by (by rewrite Hpv). cbn [rbind snd fst].
  rewrite (take_field_ok _ _ _ (ledger s))
    by (apply (dec_ledger_enc _ (next_win_id s)); try done; by rewrite Hs). cbn [rbind snd fst].
  rewrite (take_field_ok _ _ _ (snapshot_bindings s)); cbn [rbind snd fst].
  - rewrite (take_field_ok _ _ _ (next_win_id s)) by (by apply dec_uint_ok). cbn [rbind snd fst].
    rewrite (take_field_ok _ _ _ (active_orbit s)); [by destruct s|].
    apply dec_nat_ok. rewrite Hact. destruct Hwf as (_ & _ & Ha & _). unfold ORBIT_COUNT in Ha. lia.
  - apply dec_list_fmap. rewrite Forall_forall in Hbs |- *. intros b Hb.
    apply (dec_binding_enc b (next_win_id s)); [by apply Hbs| |done].
    apply Hlt, Hcov, list_elem_of_fmap_2, Hb.
Qed.

(** A three-window snapshot. *)
Definition demo_bindings : list SnapshotBinding :=
  [mk_snapshot_binding 1%N (lit "river-1"); mk_snapshot_binding 2%N (lit "river-2");
   mk_snapshot_binding 3%N (lit "river-7")].

Definition demo_snapshot : SessionSnapshotV1 :=
  mk_session_snapshot 1 2 (discard_undo_history demo_ledger) demo_bindings 4 0.

Lemma snapshot_json_roundtrip_witness :
  SessionSnapshotV1_new demo_ledger demo_bindings 4 = Ok demo_snapshot
  ∧ ∃ j, to_json demo_snapshot = Ok j ∧ from_json j = Ok demo_snapshot.
Proof.
  assert (SessionSnapshotV1_new demo_ledger demo_bindings 4 = Ok demo_snapshot) as H
    by (by vm_compute).
  split; [exact H|]. refine (snapshot_json_roundtrip _ _ _ _ H _).
  split; [by vm_compute|]. repeat constructor.
Defined.

Lemma dec_ledger_history j l : dec_ledger j = Ok l → history l = [] ∧ redo_stack l = [].
Proof.
  unfold dec_ledger. intros (m & _ & H)%rbind_Ok. apply rbind_Ok in H as (os & _ & H).
  apply rbind_Ok in H as (act & _ & H). apply rbind_unit_Ok in H as [_ H]. by injection H as <-.
Qed.

Lemma dec_snapshot_history j s :
  dec_snapshot j = Ok s → history (ledger s) = [] ∧ redo_stack (ledger s) = [].
Proof.
  unfold dec_snapshot. intros (m & _ & H)%rbind_Ok. apply rbind_Ok in H as (sv & _ & H).
  apply rbind_Ok in H as (pv & _ & H). apply rbind_Ok in H as (l & Hl & H).
  apply rbind_Ok in H as (bs & _ & H). apply rbind_Ok in H as (nx & _ & H).
  apply rbind_Ok in H as (act & _ & H). apply rbind_unit_Ok in H as [_ H]. injection H as <-.
  cbn. unfold take_field in Hl. destruct (snd pv) as [|[k v] m']; [done|].
  apply ensure_Ok in Hl as [_ Hl]. apply rbind_Ok in Hl as (l' & Hl & [= <-]).
  by apply dec_ledger_history in Hl.
Qed.

Lemma dec_snapshot_next j s : dec_snapshot j = Ok s → (next_win_id s <= u64_max)%N.
Proof.
  unfold dec_snapshot. intros (m & _ & H)%rbind_Ok. apply rbind_Ok in H as (sv & _ & H).
  apply rbind_Ok in H as (pv & _ & H). apply rbind_Ok in H as (l & _ & H).
  apply rbind_Ok in H as (bs & _ & H). apply rbind_Ok in H as (nx & Hn & H).
  apply rbind_Ok in H as (act & _ & H). apply rbind_unit_Ok in H as [_ H]. injection H as <-.
  cbn. unfold take_field in Hn. destruct (snd bs) as [|[k v] m']; [done|].
  apply ensure_Ok in Hn as [_ Hn]. apply rbind_Ok in Hn as (n & Hn & [= <-]). cbn.
  unfold dec_uint in Hn. destruct v; try done. case_match eqn:E; [|done]. apply N.leb_le in E. by simplify_eq.
Qed.

(** Validation is exact.  [new] accepts a ledger, bindings and watermark if
    and only if the ledger's orbits are well formed, every window id is below
    the watermark, and the bindings are a one-to-one map from exactly the
    ledger's windows, sorted by window id; and whatever [from_json] accepts has
    these properties and no undo history, however the document was produced. *)
Theorem snapshot_validation_exact :
  (∀ l bs next,
     is_ok (SessionSnapshotV1_new l bs next) = true ↔
     orbits_wf (orbits l) (active l)
     ∧ (∀ w, w ∈ all_windows (orbits l) → (w < next)%N)
     ∧ StronglySorted N.lt (win_id <$> bs) ∧ NoDup (backend_id <$> bs)
     ∧ (∀ w, w ∈ win_id <$> bs ↔ w ∈ all_windows (orbits l)))
  ∧ ∀ j s, from_json j = Ok s →
      snapshot_valid s ∧ history (ledger s) = [] ∧ redo_stack (ledger s) = [].
Proof.
  split.
  - intros l bs next. transitivity (∃ s, SessionSnapshotV1_new l bs next = Ok s).
    { destruct (SessionSnapshotV1_new l bs next); cbn; naive_solver. }
    setoid_rewrite snapshot_new_Ok. split.
    + intros (s & -> & _ & _ & _ & H). exact H.
    + intros H. eexists. split; [done|]. split_and!; try done; apply H.
  - intros j s (s' & Hs & H)%rbind_Ok. apply rbind_unit_Ok in H as [Hv [= <-]].
    apply validate_Ok in Hv. destruct (dec_snapshot j) as [s0|] eqn:E; [|done].
    injection Hs as <-. split; [done|by eapply dec_snapshot_history].
Qed.
