(* ===== verification/Visible.v ===== *)
(** * realm-session/src/session.rs: bounded visible text

    [normalize_visible] cuts window titles and application ids so that their
    JSON encoding, escapes included, fits a byte budget. *)

From Stdlib Require Import ZArith Lia.
From stdpp Require Import prelude list.
From S2P Require Import Prelude.

Definition json_content_char_len (c : N) : nat :=
  if bool_decide (c ∈ [34; 92; 8; 9; 10; 12; 13]%N) then 2
  else if (c <=? 31)%N then 6
  else len_utf8 c.

Definition json_content_len (s : rstring) : nat := sum_list_with json_content_char_len s.

(** U+2026 *)
Definition ELLIPSIS : N := 8230.

(** The loop over the characters; [used] counts the bytes pushed so far. *)
Fixpoint take_visible (source : rstring) (used cap : nat) : rstring :=
  match source with
  | [] => []
  | c :: rest =>
      let width := json_content_char_len c in
      if cap <? used + width + len_utf8 ELLIPSIS then []
      else c :: take_visible rest (used + width) cap
  end.

Definition normalize_visible (source : rstring) (cap : nat) : rstring :=
  if json_content_len source <=? cap then source
  else take_visible source 0 cap ++ [ELLIPSIS].

Lemma json_content_len_app s t : json_content_len (s ++ t) = json_content_len s + json_content_len t.
Proof. apply sum_list_with_app. Qed.

Lemma json_content_char_len_pos c : 1 ≤ json_content_char_len c.
Proof. unfold json_content_char_len. pose proof (len_utf8_pos c). repeat case_match; lia. Qed.

Lemma take_visible_prefix s used cap : take_visible s used cap `prefix_of` s.
Proof.
  revert used. induction s as [|c s IH]; intros used; cbn [take_visible]; [done|].
  case_match; [apply prefix_nil|]. by apply prefix_cons.
Qed.

Lemma take_visible_len s used cap :
  used + 3 ≤ cap → used + json_content_len (take_visible s used cap) + 3 ≤ cap.
Proof.
  revert used. induction s as [|c s IH]; intros used Hu; cbn [take_visible]; [cbn; lia|].
  change (len_utf8 ELLIPSIS) with 3. destruct (Nat.ltb_spec cap (used + json_content_char_len c + 3)).
  - cbn. lia.
  - specialize (IH (used + json_content_char_len c) ltac:(lia)).
    unfold json_content_len in *. cbn [sum_list_with]. lia.
Qed.

(** Cutting stops only where one more character would not fit. *)
Lemma take_visible_maximal s used cap :
  let t := take_visible s used cap in
  t = s ∨ ∃ c rest, s = t ++ c :: rest
            ∧ cap < used + json_content_len t + json_content_char_len c + 3.
Proof.
  revert used. induction s as [|c s IH]; intros used; cbn [take_visible]; [by left|].
  change (len_utf8 ELLIPSIS) with 3. destruct (Nat.ltb_spec cap (used + json_content_char_len c + 3)).
  - right. exists c, s. split; [done|]. cbn. lia.
  - destruct (IH (used + json_content_char_len c)) as [->|(c' & rest & Hs & Hc)]; [by left|right].
    exists c', rest. split; [by rewrite <-app_comm_cons, <-Hs|].
    unfold json_content_len in *. cbn [sum_list_with]. lia.
Qed.

(** Visible text respects its budget: for a budget that holds an ellipsis,
    the JSON content of a normalised string is at most the budget; a string that
    fits is unchanged; a longer one is the longest prefix that fits together
    with the ellipsis, so normalising again changes nothing. *)
Theorem normalize_visible_fits (s : rstring) (cap : nat) :
  3 ≤ cap →
  let t := normalize_visible s cap in
  json_content_len t ≤ cap
  ∧ (json_content_len s ≤ cap → t = s)
  ∧ (cap < json_content_len s →
     ∃ p c rest, t = p ++ [ELLIPSIS] ∧ s = p ++ c :: rest
       ∧ cap < json_content_len (p ++ [c; ELLIPSIS]))
  ∧ normalize_visible t cap = t.
Proof.
  intros Hcap t. assert (json_content_len t ≤ cap) as Hlen.
  { subst t. unfold normalize_visible.
    destruct (Nat.leb_spec (json_content_len s) cap); [done|].
    rewrite json_content_len_app. change (json_content_len [ELLIPSIS]) with 3.
    pose proof (take_visible_len s 0 cap ltac:(lia)). lia. }
  split; [done|]. split_and!.
  - intros Hs. subst t. unfold normalize_visible. by rewrite (proj2 (Nat.leb_le _ _)).
  - intros Hs. subst t. unfold normalize_visible. rewrite (proj2 (Nat.leb_gt _ _)) by done.
    destruct (take_visible_maximal s 0 cap) as [Ht|(c & rest & Hs' & Hc)].
    + pose proof (take_visible_len s 0 cap ltac:(lia)). rewrite Ht in *. lia.
    + exists (take_visible s 0 cap), c, rest. split_and!; [done|done|].
      rewrite json_content_len_app. unfold json_content_len in *. cbn [sum_list_with].
      change (json_content_char_len ELLIPSIS) with 3. lia.
  - unfold normalize_visible at 1. by rewrite (proj2 (Nat.leb_le _ _)).
Qed.

Lemma normalize_visible_fits_witness :
  3 ≤ 5 ∧ json_content_len (normalize_visible (lit "a very long title") 5) ≤ 5.
Proof.
  split; [lia|]. refine (proj1 (normalize_visible_fits (lit "a very long title") 5 _)). lia.
Defined.
