(* ===== verification/Authority.v ===== *)
(** * realm-session/src/session.rs: authority, transactions and their results

    The data of the session state machine: the authoritative state, the private
    transaction that works on a copy of it, the lifecycle phases, and what a
    transition reports. *)

From Stdlib Require Import ZArith Lia.
From stdpp Require Import prelude list gmap sorting.
From S2P Require Import Prelude Layout Ledger Projection Keys State Backend Snapshot Visible.

(** ** Panics

    [expect] aborts the process.  A fallible method therefore ends in a value, a
    raised error, or a panic, and "never panics" is a theorem, not a convention. *)
Inductive failure (E : Type) : Type :=
| Raise (e : E)
| Panic.
Arguments Raise {E} e.
Arguments Panic {E}.

Definition raise {S E A} (e : E) : stm S (failure E) A := throw (Raise e).

Definition expect {S E A} (o : option A) : stm S (failure E) A :=
  match o with Some a => mret a | None => throw Panic end.

(** [if let Err(error) = ... { cleanup; return Err(error) }] *)
Definition on_error {S E A} (cleanup : S → S) (m : stm S (failure E) A) : stm S (failure E) A := λ s,
  match m s with
  | (Err (Raise e), s') => (Err (Raise e), cleanup s')
  | r => r
  end.

Definition of_result {S E A} (r : result A E) : stm S (failure E) A :=
  match r with Ok a => mret a | Err e => raise e end.

(** ** Ordered maps

    A [BTreeMap] is a finite map; where the source iterates, the entries are
    listed in key order, which for strings is the order of their bytes. *)
Fixpoint bytes_leb (s t : list N) : bool :=
  match s, t with
  | [], _ => true
  | _ :: _, [] => false
  | c :: s', d :: t' => if (c =? d)%N then bytes_leb s' t' else (c <? d)%N
  end.

Definition id_order (p q : BackendWindowId * WinId) : Prop := bytes_leb (fst p) (fst q) = true.

#[export] Instance id_order_dec : RelDecision id_order.
Proof. intros p q. unfold id_order. apply _. Defined.

Abbreviation IdMap := (gmap (list N) N) (only parsing).
Abbreviation IdSet := (gset (list N)) (only parsing).

Definition id_entries (m : IdMap) : list (BackendWindowId * WinId) :=
  merge_sort id_order (map_to_list m).

(** ** Lifecycle *)

Inductive SessionLifecyclePhase :=
| InitialReplay | FinalizingReplay | Live | PhaseQuitPending | ShuttingDown | Exiting
| ExitComplete.

#[export] Instance SessionLifecyclePhase_eq_dec : EqDecision SessionLifecyclePhase.
Proof. solve_decision. Defined.

Inductive SessionLifecycleOperation :=
| BeginDirectQuit | BeginExitSession | ServiceAfterExitComplete.

(** ** Windows, effects, updates *)

Record WindowMetadata := mk_metadata { app_id : rstring; title : rstring }.

#[export] Instance WindowMetadata_eq_dec : EqDecision WindowMetadata.
Proof. solve_decision. Defined.

#[export] Instance WindowMetadata_settable : Settable WindowMetadata := λ m,
  mk_metadata (app_id m) (title m).

(** Durations are in milliseconds. *)
Inductive RepeatTimerDirective :=
| Timer_Preserve
| Timer_Arm (delay interval : N)
| Timer_Disarm.

Inductive QuitAfter :=
| NoRequester
| OriginalAction (ticket : BackendTicket)
| CurrentControlRequest.

Inductive SessionEffect :=
| Effect_Spawn (argv : list rstring)
| Effect_Terminal
| Effect_Launcher
| Effect_ReloadTheme
| Effect_QuitPending (after : QuitAfter).

Inductive SessionEventError :=
| Event_Backend (e : BackendError)
| Event_BackendContract (e : BackendContractError)
| WindowIdExhausted
| Event_BackendTicketExhausted
| RepeatedInitialReplayComplete
| UnexpectedInitialReplayEvent (ev : BackendPolicyEvent)
| InvalidLifecycleOperation (operation : SessionLifecycleOperation) (phase : SessionLifecyclePhase).

Inductive SessionActionError :=
| NotReady
| InvalidSpawnCommand
| Action_BackendTicketExhausted
| Action_Backend (e : BackendError).

Record ActionCompletion := mk_completion {
  completion_ticket : BackendTicket;
  completion_result : result unit SessionActionError
}.

Record SessionUpdate := mk_update {
  up_repeat_timer : RepeatTimerDirective;
  up_persistence : option SessionSnapshotV1;
  up_state : option RealmState;
  up_pending_action : option BackendTicket;
  up_action_completion : option ActionCompletion;
  up_effects : list SessionEffect
}.

#[export] Instance SessionUpdate_settable : Settable SessionUpdate := λ u,
  mk_update (up_repeat_timer u) (up_persistence u) (up_state u) (up_pending_action u)
    (up_action_completion u) (up_effects u).

Definition unchanged : SessionUpdate := mk_update Timer_Preserve None None None None [].

(** ** Authority and transactions *)

Record AuthorityState := mk_authority {
  a_ledger : Ledger;
  a_windows : gmap N WindowMetadata;
  a_backend_ids : IdMap;
  a_bound_backend_ids : IdSet;
  a_next_win_id : N;
  a_workarea : option Workarea;
  a_exclusive_focus : bool;
  a_effective_focus : option BackendWindowId;
  a_mode : Mode;
  a_chord_echo : rstring;
  a_whichkey : bool;
  a_grimoire : bool;
  a_modules : list BarModule;
  a_active_modifiers : list BackendModifier;
  a_held_bindings : gset positive
}.

#[export] Instance AuthorityState_settable : Settable AuthorityState := λ a,
  mk_authority (a_ledger a) (a_windows a) (a_backend_ids a) (a_bound_backend_ids a)
    (a_next_win_id a) (a_workarea a) (a_exclusive_focus a) (a_effective_focus a) (a_mode a)
    (a_chord_echo a) (a_whichkey a) (a_grimoire a) (a_modules a) (a_active_modifiers a)
    (a_held_bindings a).

Record ActiveTransaction := mk_transaction {
  t_committed : AuthorityState;
  t_visible : RealmState;
  t_last_committed_clean_projection : list Placement;
  t_working : AuthorityState;
  t_most_recent_private_projection : list Placement;
  t_original_action_result : option (BackendTicket * result unit SessionActionError);
  t_response : BackendPolicyResponse;
  t_staged_effects : list SessionEffect;
  t_close_target : option WinId;
  t_repeat_candidate : option BackendBindingId;
  t_repeat_timer : RepeatTimerDirective;
  t_projection_required : bool;
  t_projection_submitted : bool;
  t_binding_changed : bool;
  t_bootstrap : bool;
  t_quit_staged : bool
}.

#[export] Instance ActiveTransaction_settable : Settable ActiveTransaction := λ t,
  mk_transaction (t_committed t) (t_visible t) (t_last_committed_clean_projection t)
    (t_working t) (t_most_recent_private_projection t) (t_original_action_result t)
    (t_response t) (t_staged_effects t) (t_close_target t) (t_repeat_candidate t)
    (t_repeat_timer t) (t_projection_required t) (t_projection_submitted t)
    (t_binding_changed t) (t_bootstrap t) (t_quit_staged t).

Inductive TransactionSubstate :=
| Idle
| AwaitingExternalTurn (ticket : BackendTicket)
| AwaitingInternalTurn (ticket : BackendTicket)
| InFlight (ticket : BackendTicket)
| AwaitingDrain (ticket : BackendTicket).

#[export] Instance TransactionSubstate_eq_dec : EqDecision TransactionSubstate.
Proof. solve_decision. Defined.

(** ** The free functions of the module *)

Definition capacity_error (r : BackendCapacityResource) (limit : N) : SessionEventError :=
  Event_Backend (Capacity r limit).

Fixpoint increasing (l : list nat) : bool :=
  match l with
  | a :: (c :: _) as l' => (a <? c) && increasing l'
  | _ => true
  end.

Definition canonical_modifiers (ms : list BackendModifier) : bool :=
  (length ms <=? 4) && increasing (modifier_rank <$> ms).

Definition action_has_effect (a : Action) : bool :=
  match a with
  | Action_Spawn _ | Action_Terminal | Action_Launcher | Action_ReloadTheme | Action_Quit => true
  | _ => false
  end.

Definition push_unique (values : list WinId) (value : WinId) : list WinId :=
  if decide (value ∈ values) then values else values ++ [value].

Definition changed_snapshot (before after : option SessionSnapshotV1) : option SessionSnapshotV1 :=
  if decide (before = after) then None else after.

(** Working on the private copy. *)
Definition on_working (f : AuthorityState → AuthorityState) (t : ActiveTransaction) :
    ActiveTransaction := set t_working f t.

Definition on_ledger (f : Ledger → Ledger) (t : ActiveTransaction) : ActiveTransaction :=
  on_working (set a_ledger f) t.

Definition on_response (f : BackendPolicyResponse → BackendPolicyResponse) (t : ActiveTransaction) :
    ActiveTransaction := set t_response f t.

Definition set_next_key_edge (e : BackendNextKeyEdge) (t : ActiveTransaction) : ActiveTransaction :=
  on_response (set resp_bindings (set next_key_edge (λ _, e))) t.
