(* ===== verification/Hoare.v ===== *)
(** * Reasoning about fallible methods

    A weakest precondition for the state-and-error monad: [wp m Q R s] says that
    [m], run in state [s], does not panic, ends in [Q] when it succeeds and in
    [R] when it raises an error. *)

From Stdlib Require Import Lia.
From stdpp Require Import prelude.
From S2P Require Import Prelude Layout Ledger Projection Keys State Backend Snapshot Visible Authority.

Definition wp {S E A} (m : stm S (failure E) A) (Q : A → S → Prop) (R : E → S → Prop) (s : S) : Prop :=
  match m s with
  | (Ok a, s') => Q a s'
  | (Err (Raise e), s') => R e s'
  | (Err Panic, _) => False
  end.

Section wp.
Context {S E : Type}.
Implicit Types (s : S) (R : E → S → Prop).

Lemma wp_mono {A} (m : stm S (failure E) A) (Q Q' : A → S → Prop) R R' s :
  wp m Q R s → (∀ a s', Q a s' → Q' a s') → (∀ e s', R e s' → R' e s') → wp m Q' R' s.
Proof. unfold wp. destruct (m s) as [[a|[e|]] s']; auto. Qed.

Lemma wp_ret {A} (a : A) (Q : A → S → Prop) R s : Q a s → wp (mret a) Q R s.
Proof. done. Qed.

Lemma wp_eq {A} (m : stm S (failure E) A) a (Q : A → S → Prop) R s s' :
  m s = (Ok a, s') → Q a s' → wp m Q R s.
Proof. intros Hm HQ. unfold wp. by rewrite Hm. Qed.

Lemma wp_bind {A C} (m : stm S (failure E) A) (k : A → stm S (failure E) C) Q R s :
  wp m (λ a, wp (k a) Q R) R s → wp (a ← m; k a) Q R s.
Proof. unfold wp, mbind, stm_bind. by destruct (m s) as [[a|[e|]] s']. Qed.

Lemma wp_getS {C} (k : S → stm S (failure E) C) Q R s : wp (k s) Q R s → wp (a ← getS; k a) Q R s.
Proof. done. Qed.

Lemma wp_modify {C} (f : S → S) (k : unit → stm S (failure E) C) Q R s :
  wp (k tt) Q R (f s) → wp (a ← modify f; k a) Q R s.
Proof. done. Qed.

Lemma wp_raise {A} (e : E) (Q : A → S → Prop) R s : R e s → wp (raise e) Q R s.
Proof. done. Qed.

Lemma wp_of_result {A} (r : result A E) (Q : A → S → Prop) R s :
  (∀ a, r = Ok a → Q a s) → (∀ e, r = Err e → R e s) → wp (of_result r) Q R s.
Proof. intros HQ HR. destruct r as [a|e]; [by apply HQ|by apply HR]. Qed.

Lemma wp_on_error {A} (f : S → S) (m : stm S (failure E) A) Q R s :
  wp m Q (λ e s', R e (f s')) s → wp (on_error f m) Q R s.
Proof. unfold wp, on_error. by destruct (m s) as [[a|[e|]] s']. Qed.

(** Running a method: what its weakest precondition says of the result. *)
Lemma wp_run {A} (m : stm S (failure E) A) Q R s r s' :
  wp m Q R s → m s = (r, s') →
  match r with Ok a => Q a s' | Err (Raise e) => R e s' | Err Panic => False end.
Proof. intros H Hm. unfold wp in H. rewrite Hm in H. by destruct r as [a|[e|]]. Qed.
End wp.

(** A method of a component, run on the component inside a larger state, with its
    errors mapped into the larger state's. *)
Definition zoom {S T E F A} (get : T → S) (put : S → T → T) (wrap : E → F) (m : stm S (failure E) A) :
    stm T (failure F) A := λ t,
  match m (get t) with
  | (Ok a, s) => (Ok a, put s t)
  | (Err (Raise e), s) => (Err (Raise (wrap e)), put s t)
  | (Err Panic, s) => (Err Panic, put s t)
  end.

(** [match m { Ok(a) => .., Err(e) => .. }]: the error becomes a value. *)
Definition attempt {S E F A} (m : stm S (failure E) A) : stm S (failure F) (result A E) := λ s,
  match m s with
  | (Ok a, s') => (Ok (Ok a), s')
  | (Err (Raise e), s') => (Ok (Err e), s')
  | (Err Panic, s') => (Err Panic, s')
  end.

Lemma wp_zoom {S T E F A} (get : T → S) (put : S → T → T) (wrap : E → F) (m : stm S (failure E) A)
    (Q : A → T → Prop) (R : F → T → Prop) t :
  wp m (λ a s, Q a (put s t)) (λ e s, R (wrap e) (put s t)) (get t) → wp (zoom get put wrap m) Q R t.
Proof. unfold wp, zoom. by destruct (m (get t)) as [[a|[e|]] s]. Qed.

Lemma wp_attempt {S E F A} (m : stm S (failure E) A) (Q : result A E → S → Prop) (R : F → S → Prop) s :
  wp m (λ a, Q (Ok a)) (λ e, Q (Err e)) s → wp (attempt m) Q R s.
Proof. unfold wp, attempt. by destruct (m s) as [[a|[e|]] s']. Qed.

Lemma wp_conj {S E A} (m : stm S (failure E) A) (Q Q' : A → S → Prop) (R : E → S → Prop) s :
  wp m Q R s → (∀ a s', m s = (Ok a, s') → Q' a s') → wp m (λ a s', Q a s' ∧ Q' a s') R s.
Proof. unfold wp. intros HQ HQ'. destruct (m s) as [[a|[e|]] s'] eqn:Hm; [|done|done]. split; [done|]. by apply HQ'. Qed.

Lemma wp_conj_error {S E A} (m : stm S (failure E) A) (Q : A → S → Prop) (R : E → S → Prop) (F : E → Prop) s :
  wp m Q R s → (∀ e s', m s = (Err (Raise e), s') → F e) → wp m Q (λ e s', R e s' ∧ F e) s.
Proof. unfold wp. intros HQ HF. destruct (m s) as [[a|[e|]] s'] eqn:Hm; [done| |done]. split; [done|]. by eapply HF. Qed.

(** The run itself, beside what is known of it. *)
Lemma wp_traced {S E A} (m : stm S (failure E) A) (Q : A → S → Prop) (R : E → S → Prop) s :
  wp m Q R s → wp m (λ a s', Q a s' ∧ m s = (Ok a, s')) (λ e s', R e s' ∧ m s = (Err (Raise e), s')) s.
Proof. unfold wp. by destruct (m s) as [[a|[e|]] s']. Qed.

(** A sequence succeeds by succeeding in turn. *)
Lemma stm_bind_Ok {S E A C} (m : stm S E A) (k : A → stm S E C) s c s' :
  (x ← m; k x) s = (Ok c, s') → ∃ a s1, m s = (Ok a, s1) ∧ k a s1 = (Ok c, s').
Proof. unfold mbind, stm_bind. destruct (m s) as [[a|e] s1]; [by exists a, s1|done]. Qed.

(** ** Errors and frames of whole methods

    [raises P m]: every error [m] can raise satisfies [P].  [frames R m]: whatever
    [m] does, the state before and after is related by [R].  Both go through a
    method's structure, which the tactic [walk] does. *)
Section walk.
Context {S : Type}.

Definition raises {E A} (P : E → Prop) (m : stm S (failure E) A) : Prop :=
  ∀ s e s', m s = (Err (Raise e), s') → P e.

Definition frames {E A} (R : S → S → Prop) (m : stm S E A) : Prop := ∀ s, R s (m s).2.

Context {E : Type} (P : E → Prop).

Lemma raises_ret {A} (a : A) : raises P (mret a).
Proof. done. Qed.

Lemma raises_getS : raises P getS.
Proof. done. Qed.

Lemma raises_modify f : raises P (modify f).
Proof. done. Qed.

Lemma raises_raise {A} e : P e → raises P (raise (A:=A) e).
Proof. by intros He s e' s' [= <- <-]. Qed.

Lemma raises_expect {A} (o : option A) : raises P (expect o).
Proof. by destruct o. Qed.

Lemma raises_of_result {A} (r : result A E) : (∀ e, r = Err e → P e) → raises P (of_result r).
Proof. intros Hr. destruct r as [a|e]; [done|]. by apply raises_raise, Hr. Qed.

Lemma raises_on_error {A} f (m : stm S (failure E) A) : raises P m → raises P (on_error f m).
Proof.
  intros Hm s e s'. unfold on_error. destruct (m s) as [[a|[e'|]] s1] eqn:Em; [done| |done].
  intros [= <- <-]. by apply Hm in Em.
Qed.

Lemma raises_bind {A C} (m : stm S (failure E) A) (k : A → stm S (failure E) C) :
  raises P m → (∀ a, raises P (k a)) → raises P (x ← m; k x).
Proof.
  intros Hm Hk s e s'. unfold mbind, stm_bind. destruct (m s) as [[a|f] s1] eqn:Em; [apply Hk|].
  intros [= -> ->]. by apply Hm in Em.
Qed.

Lemma raises_wp {A} (m : stm S (failure E) A) (Q : A → S → Prop) (R : E → S → Prop) s :
  raises P m → wp m Q R s → wp m Q (λ e s', R e s' ∧ P e) s.
Proof. intros Hm Hw. apply wp_conj_error; [done|]. intros e s' He. by apply Hm in He. Qed.

Context (R : S → S → Prop) `{!PreOrder R}.

Lemma frames_ret {A} (a : A) : frames R (mret a : stm S E A).
Proof. intros s. cbn. reflexivity. Qed.

Lemma frames_getS : frames R (getS : stm S E S).
Proof. intros s. cbn. reflexivity. Qed.

Lemma frames_modify f : (∀ s, R s (f s)) → frames R (modify f : stm S E unit).
Proof. done. Qed.

Lemma frames_throw {A} (e : E) : frames R (throw e : stm S E A).
Proof. intros s. cbn. reflexivity. Qed.

Lemma frames_raise {A} (e : E) : frames R (raise e : stm S (failure E) A).
Proof. intros s. cbn. reflexivity. Qed.

Lemma frames_expect {A} (o : option A) : frames R (expect o : stm S (failure E) A).
Proof. destruct o; intros s; cbn; reflexivity. Qed.

Lemma frames_bind {A C} (m : stm S E A) (k : A → stm S E C) :
  frames R m → (∀ a, frames R (k a)) → frames R (x ← m; k x).
Proof.
  intros Hm Hk s. specialize (Hm s). unfold mbind, stm_bind.
  destruct (m s) as [[a|e] s1]; [|done]. etransitivity; [exact Hm|]. apply Hk.
Qed.

Lemma frames_on_error {A} f (m : stm S (failure E) A) :
  (∀ s, R s (f s)) → frames R m → frames R (on_error f m).
Proof.
  intros Hf Hm s. specialize (Hm s). unfold on_error.
  destruct (m s) as [[a|[e|]] s1]; [done| |done]. etransitivity; [exact Hm|apply Hf].
Qed.
End walk.

(** A frame says how a weakest precondition may be strengthened. *)
Lemma wp_frame {S E A} (R : S → S → Prop) (m : stm S (failure E) A) (Q : A → S → Prop) (F : E → S → Prop) s :
  frames R m → wp m Q F s → wp m (λ a s', Q a s' ∧ R s s') (λ e s', F e s' ∧ R s s') s.
Proof. intros Hm. specialize (Hm s). unfold wp. by destruct (m s) as [[a|[e|]] s']. Qed.

(** Go through the structure of a method; what it does to the state is left over. *)
Ltac walk :=
  repeat first
    [ apply raises_ret | apply raises_getS | apply raises_modify | apply raises_expect | apply raises_on_error
    | apply raises_bind; [|intros ?] | apply raises_raise; [try done]
    | apply frames_ret; [apply _] | apply frames_getS; [apply _] | apply frames_expect; [apply _]
    | apply frames_raise; [apply _] | apply frames_throw; [apply _]
    | apply frames_bind; [apply _| |intros ?] | apply frames_modify; intros ?
    | progress cbv zeta | progress cbv beta
    | case_match ].
