(* ===== verification/AuthorityInv.v ===== *)
(** * Invariant of the authoritative state

    The ledger and the identity map describe the same windows, and every window
    id is below the watermark.  Every change the session makes to an authority
    preserves this. *)

From Stdlib Require Import ZArith Lia.
From stdpp Require Import prelude list gmap sorting.
From S2P Require Import Prelude Layout Ledger Projection Keys State Backend Snapshot Visible Authority.

Record authority_wf (a : AuthorityState) : Prop := {
  aw_ledger : ledger_wf (a_ledger a);
  aw_inj : ∀ i j w, a_backend_ids a !! i = Some w → a_backend_ids a !! j = Some w → i = j;
  aw_cover : ∀ w, w ∈ all_windows (orbits (a_ledger a)) ↔ ∃ i, a_backend_ids a !! i = Some w;
  aw_below : ∀ i w, a_backend_ids a !! i = Some w → (w < a_next_win_id a)%N;
  aw_next : (a_next_win_id a <= u64_max)%N
}.

(** Only the ledger, the map and the watermark matter. *)
Lemma authority_wf_ext a a' :
  authority_wf a → a_ledger a' = a_ledger a → a_backend_ids a' = a_backend_ids a →
  a_next_win_id a' = a_next_win_id a → authority_wf a'.
Proof. intros [] El Ei En. constructor; rewrite ?El, ?Ei, ?En; done. Qed.

(** Two authorities that describe the same windows in the same places. *)
Record agrees (a a' : AuthorityState) : Prop := {
  ag_ledger : a_ledger a' = a_ledger a;
  ag_ids : a_backend_ids a' = a_backend_ids a;
  ag_next : a_next_win_id a' = a_next_win_id a;
  ag_windows : a_windows a' = a_windows a;
  ag_workarea : a_workarea a' = a_workarea a
}.

Lemma agrees_wf a a' : agrees a a' → authority_wf a → authority_wf a'.
Proof. intros [] ?. by eapply authority_wf_ext. Qed.

#[export] Instance agrees_preorder : PreOrder agrees.
Proof. split; [done|]. intros a1 a2 a3 [] []. constructor; congruence. Qed.

Lemma authority_wf_ledger a f :
  authority_wf a → keeps (a_ledger a) (f (a_ledger a)) → authority_wf (set a_ledger f a).
Proof.
  intros [] [Hwf Hp]. constructor; cbn; try done. intros w. by rewrite Hp.
Qed.

(** A window under a fresh id. *)
Lemma authority_wf_fresh a id next ledger' :
  authority_wf a → a_backend_ids a !! id = None → next = (a_next_win_id a + 1)%N →
  (next <= u64_max)%N →
  ledger' = summon (a_next_win_id a) (active (a_ledger a)) (a_ledger a) →
  authority_wf (set a_ledger (λ _, ledger')
    (set a_backend_ids (insert id (a_next_win_id a)) (a <| a_next_win_id := next |>))).
Proof.
  intros [Hl Hi Hc Hb Hn] Hid -> Hnext ->.
  assert (∀ i, a_backend_ids a !! i ≠ Some (a_next_win_id a)) as Hfresh.
  { intros i H. specialize (Hb i _ H). lia. }
  assert (a_next_win_id a ∉ all_windows (orbits (a_ledger a))) as Hnin.
  { intros (i & H)%Hc. by apply (Hfresh i). }
  destruct (summon_spec (a_next_win_id a) (active (a_ledger a)) (a_ledger a)) as [Hwf Hp];
    [apply Hl|done|done|].
  constructor; cbn; [done| | | |done].
  - intros i j w. rewrite !lookup_insert_Some. naive_solver.
  - intros w. rewrite Hp, elem_of_cons, Hc. setoid_rewrite lookup_insert_Some. split.
    + intros [->|[i Hw]]; [by eauto|]. exists i. right. split; [|done]. intros <-. congruence.
    + intros (i & [[_ <-]|[_ Hw]]); eauto.
  - intros i w. rewrite lookup_insert_Some. intros [[_ <-]|[_ Hw]]; [lia|]. specialize (Hb i w Hw). lia.
Qed.

(** A window that is gone. *)
Lemma authority_wf_gone a id w :
  authority_wf a → a_backend_ids a !! id = Some w →
  authority_wf (set a_ledger (λ l, snd (banish w l)) (set a_backend_ids (delete id) a)).
Proof.
  intros [Hl Hi Hc Hb Hn] Hid.
  assert (w ∈ all_windows (orbits (a_ledger a))) as Hw by (apply Hc; eauto).
  destruct (banish_spec w (a_ledger a) Hl Hw) as (_ & Hwf & Hp).
  assert (NoDup (all_windows (orbits (a_ledger a)))) as Hnd by apply Hl.
  rewrite Hp, NoDup_cons in Hnd. destruct Hnd as [Hnin _].
  constructor; cbn; [done| | | |done].
  - intros i j v [_ H1]%lookup_delete_Some [_ H2]%lookup_delete_Some. eauto.
  - intros v. setoid_rewrite lookup_delete_Some. split.
    + intros Hv. assert (v ∈ all_windows (orbits (a_ledger a))) as (i & Hiv)%Hc
        by (rewrite Hp; by apply list_elem_of_further).
      exists i. split; [|done]. intros <-. congruence.
    + intros (i & Hne & Hiv). assert (v ∈ all_windows (orbits (a_ledger a))) as Hv by (apply Hc; eauto).
      rewrite Hp in Hv. apply elem_of_cons in Hv as [->|Hv]; [|done].
      exfalso. apply Hne. by eapply Hi.
  - intros i v [_ Hv]%lookup_delete_Some. eauto.
Qed.

(** The summon of a window that already has an id changes nothing. *)
Lemma summon_assigned a id w o :
  authority_wf a → a_backend_ids a !! id = Some w → summon w o (a_ledger a) = a_ledger a.
Proof. intros Ha Hid. apply summon_known, (aw_cover a Ha). eauto. Qed.

Lemma from_human_valid n o : from_human n = Some o → o < ORBIT_COUNT.
Proof.
  unfold from_human, OrbitId_new. destruct n as [|i]; [done|].
  destruct (Nat.ltb_spec i ORBIT_COUNT); [by intros [= <-]|done].
Qed.

(** ** Entries in key order *)

Lemma id_entries_elem m p : p ∈ id_entries m ↔ m !! fst p = Some (snd p).
Proof.
  unfold id_entries. rewrite merge_sort_Permutation. destruct p as [i w].
  apply elem_of_map_to_list.
Qed.

Lemma find_first_entry m w i :
  (∀ i j, m !! i = Some w → m !! j = Some w → i = j) → m !! i = Some w →
  fst <$> (snd <$> list_find (λ p, snd p = w) (id_entries m)) = Some i.
Proof.
  intros Hinj Hi.
  destruct (list_find_elem_of (λ p, snd p = w) (id_entries m) (i, w)) as [[k p] Hf];
    [by apply id_entries_elem|done|].
  rewrite Hf. cbn. apply list_find_Some in Hf as (Hk & Hp & _).
  apply list_elem_of_lookup_2, id_entries_elem in Hk. rewrite Hp in Hk.
  f_equal. by apply Hinj.
Qed.
