(* ===== verification/Session.v ===== *)
(** * realm-session/src/session.rs: the session state machine

    [Session] owns the ledger and the visible state; every method of the source
    that changes it is a definition here, over an arbitrary backend.  A method
    [fn m(&mut self, ..) -> Result<A, E>] is an [stm] on the session. *)

From Stdlib Require Import ZArith Lia.
From stdpp Require Import prelude list gmap sorting.
From S2P Require Import Prelude Layout Ledger Projection Keys State Backend Snapshot Visible Authority.

Section session.
Context {B : Type} `{WmBackend B}.

Record Session := mk_session {
  s_backend : B;
  s_backend_name : rstring;
  s_ledger : Ledger;
  s_capabilities : Capabilities;
  s_bound_interfaces : list InterfaceVersion;
  s_layer_shell_served : bool;
  s_degraded_codes : option (list rstring);
  s_workarea : Workarea;
  s_windows : gmap N WindowMetadata;
  s_backend_ids : IdMap;
  s_next_win_id : N;
  s_last_projection : list Placement;
  s_state : RealmState;
  s_phase : SessionLifecyclePhase;
  s_keymap : Keymap;
  s_bindings : gmap positive Binding;
  s_binding_order : list BackendBindingId;
  s_modifier_label : rstring;
  s_binding_state : BackendBindingState;
  s_bound_backend_ids : IdSet;
  s_workarea_known : bool;
  s_exclusive_focus : bool;
  s_effective_focus : option BackendWindowId;
  s_mode : Mode;
  s_chord_echo : rstring;
  s_whichkey : bool;
  s_grimoire : bool;
  s_modules : list BarModule;
  s_active_modifiers : list BackendModifier;
  s_held_bindings : gset positive;
  s_repeat_target : option BackendBindingId;
  s_transaction : TransactionSubstate;
  s_active : option ActiveTransaction;
  s_last_backend_ticket : N;
  s_last_policy_turn : option BackendPolicyTurnId;
  s_published_ledger : Ledger;
  s_published_windows : gmap N WindowMetadata;
  s_exit_attempted : bool
}.

#[export] Instance Session_settable : Settable Session := λ s,
  mk_session (s_backend s) (s_backend_name s) (s_ledger s) (s_capabilities s)
    (s_bound_interfaces s) (s_layer_shell_served s) (s_degraded_codes s) (s_workarea s)
    (s_windows s) (s_backend_ids s) (s_next_win_id s) (s_last_projection s) (s_state s)
    (s_phase s) (s_keymap s) (s_bindings s) (s_binding_order s) (s_modifier_label s)
    (s_binding_state s) (s_bound_backend_ids s) (s_workarea_known s) (s_exclusive_focus s)
    (s_effective_focus s) (s_mode s) (s_chord_echo s) (s_whichkey s) (s_grimoire s)
    (s_modules s) (s_active_modifiers s) (s_held_bindings s) (s_repeat_target s)
    (s_transaction s) (s_active s) (s_last_backend_ticket s) (s_last_policy_turn s)
    (s_published_ledger s) (s_published_windows s) (s_exit_attempted s).

(** The two kinds of methods: reducing backend events and admitting actions. *)
Definition event_m (A : Type) : Type := stm Session (failure SessionEventError) A.
Definition action_m (A : Type) : Type := stm Session (failure SessionActionError) A.

(** A backend call through [self.backend]. *)
Definition call {A E} (f : B → result A E * B) : stm Session E A := λ s,
  let '(r, b') := f (s_backend s) in (r, s <| s_backend := b' |>).

(** The same with [map_err] into the caller's error type. *)
Definition call_m {A E F} (wrap : E → F) (f : B → result A E * B) : stm Session (failure F) A := λ s,
  let '(r, s') := call f s in (map_err (λ e, Raise (wrap e)) r, s').

(** ** Construction *)

Definition binding_modifiers (c : Binding) : list BackendModifier :=
  if decide (mode c = Nav) then [Super] else [].

(** The ids are [index + 1]; positives start at one, as [NonZeroU32] does. *)
Definition binding_ids (bs : list Binding) : list BackendBindingId :=
  Pos.of_succ_nat <$> seq 0 (length bs).

Definition mechanisms (bs : list Binding) : list BackendBindingSpec :=
  zip_with (λ id c, mk_spec id (key c) (binding_modifiers c)) (binding_ids bs) bs.

Definition connect_with_snapshot_and_keymap (backend : B) (snapshot : option SessionSnapshotV1)
    (keymap : Keymap) (degraded_codes : option (list rstring)) : result Session BackendError :=
  ensure length (bindings keymap) <=? MAX_CONFIGURED_BINDINGS
    else Capacity ConfiguredBindings (N.of_nat MAX_CONFIGURED_BINDINGS);
  let '(connected, backend1) := wm_connect backend in
  try conn := connected in
  let '(led, ids, next) := match snapshot with
    | None => (Ledger_new, ∅, 0%N)
    | Some sn => (ledger sn,
                  list_to_map ((λ b, (backend_id b, win_id b)) <$> reverse (snapshot_bindings sn)),
                  next_win_id sn)
    end in
  let '(configured, backend2) := wm_configure_bindings (mechanisms (bindings keymap)) backend1 in
  try _ := configured in
  Ok {|
    s_backend := backend2;
    s_backend_name := wm_name backend;
    s_ledger := led;
    s_capabilities := conn_capabilities conn;
    s_bound_interfaces := conn_bound_interfaces conn;
    s_layer_shell_served := conn_layer_shell_served conn;
    s_degraded_codes := degraded_codes;
    s_workarea := Workarea_new 0 0 0 0;
    s_windows := ∅;
    s_backend_ids := ids;
    s_next_win_id := next;
    s_last_projection := [];
    s_state := RealmState_default;
    s_phase := InitialReplay;
    s_keymap := keymap;
    s_bindings := list_to_map (zip (binding_ids (bindings keymap)) (bindings keymap));
    s_binding_order := binding_ids (bindings keymap);
    s_modifier_label := modifier keymap;
    s_binding_state := mk_binding_state [] [] Preserve;
    s_bound_backend_ids := ∅;
    s_workarea_known := false;
    s_exclusive_focus := false;
    s_effective_focus := None;
    s_mode := Nav;
    s_chord_echo := [];
    s_whichkey := state_whichkey RealmState_default;
    s_grimoire := state_grimoire RealmState_default;
    s_modules := [];
    s_active_modifiers := [];
    s_held_bindings := ∅;
    s_repeat_target := None;
    s_transaction := Idle;
    s_active := None;
    s_last_backend_ticket := 0;
    s_last_policy_turn := None;
    s_published_ledger := Ledger_new;
    s_published_windows := ∅;
    s_exit_attempted := false
  |}.

(** ** Queries *)

Definition has_active_backend_transaction (s : Session) : bool :=
  bool_decide (s_transaction s ≠ Idle).

(** Not ready for an action: the guard shared by the caller-requested methods. *)
Definition not_ready (s : Session) : bool :=
  bool_decide (s_phase s ≠ Live) || has_active_backend_transaction s.

(** Insertion sort, stable as [sort_by_key] is. *)
Fixpoint insert_binding (b : SnapshotBinding) (l : list SnapshotBinding) : list SnapshotBinding :=
  match l with
  | [] => [b]
  | c :: l' => if (win_id b <=? win_id c)%N then b :: l else c :: insert_binding b l'
  end.

Definition sort_bindings (l : list SnapshotBinding) : list SnapshotBinding :=
  foldr insert_binding [] l.

Definition current_bindings (s : Session) : list SnapshotBinding :=
  sort_bindings ((λ p, mk_snapshot_binding (snd p) (fst p)) <$> id_entries (s_backend_ids s)).

(** [snapshot] before its [expect]. *)
Definition snapshot_result (s : Session) : option (result SessionSnapshotV1 SessionSnapshotError) :=
  if decide (s_phase s = Live)
  then Some (SessionSnapshotV1_new (s_ledger s) (current_bindings s) (s_next_win_id s))
  else None.

Definition snapshot {E} : stm Session (failure E) (option SessionSnapshotV1) := λ s,
  match snapshot_result s with
  | None => (Ok None, s)
  | Some (Ok v) => (Ok (Some v), s)
  | Some (Err _) => (Err Panic, s)
  end.

Definition current_authority (s : Session) : AuthorityState := {|
  a_ledger := s_ledger s;
  a_windows := s_windows s;
  a_backend_ids := s_backend_ids s;
  a_bound_backend_ids := s_bound_backend_ids s;
  a_next_win_id := s_next_win_id s;
  a_workarea := if s_workarea_known s then Some (s_workarea s) else None;
  a_exclusive_focus := s_exclusive_focus s;
  a_effective_focus := s_effective_focus s;
  a_mode := s_mode s;
  a_chord_echo := s_chord_echo s;
  a_whichkey := state_whichkey (s_state s);
  a_grimoire := state_grimoire (s_state s);
  a_modules := state_modules (s_state s);
  a_active_modifiers := s_active_modifiers s;
  a_held_bindings := s_held_bindings s
|}.

Definition install_authority (a : AuthorityState) (s : Session) : Session :=
  let s := s <| s_ledger := a_ledger a |> <| s_windows := a_windows a |>
             <| s_backend_ids := a_backend_ids a |>
             <| s_bound_backend_ids := a_bound_backend_ids a |>
             <| s_next_win_id := a_next_win_id a |> in
  let s := match a_workarea a with
           | Some w => s <| s_workarea := w |> <| s_workarea_known := true |>
           | None => s <| s_workarea_known := false |>
           end in
  s <| s_exclusive_focus := a_exclusive_focus a |>
    <| s_effective_focus := a_effective_focus a |>
    <| s_mode := a_mode a |>
    <| s_chord_echo := a_chord_echo a |>
    <| s_held_bindings := a_held_bindings a |>
    <| s_whichkey := a_whichkey a |>
    <| s_grimoire := a_grimoire a |>
    <| s_modules := a_modules a |>
    <| s_active_modifiers := a_active_modifiers a |>.

Definition new_active_transaction (s : Session) : ActiveTransaction := {|
  t_committed := current_authority s;
  t_visible := s_state s;
  t_last_committed_clean_projection := s_last_projection s;
  t_working := current_authority s;
  t_most_recent_private_projection := s_last_projection s;
  t_original_action_result := None;
  t_response := mk_response None [] (s_binding_state s);
  t_staged_effects := [];
  t_close_target := None;
  t_repeat_candidate := None;
  t_repeat_timer := Timer_Preserve;
  t_projection_required := false;
  t_projection_submitted := false;
  t_binding_changed := false;
  t_bootstrap := false;
  t_quit_staged := false
|}.

(** The errors of [allocate_ticket] are mapped by its two callers. *)
Definition allocate_ticket {E} (e : E) : stm Session (failure E) BackendTicket := λ s,
  match u64_checked_add (s_last_backend_ticket s) 1 with
  | None => (Err (Raise e), s)
  | Some raw =>
      match nonzero_new raw with
      | None => (Err (Raise e), s)
      | Some ticket => (Ok ticket, s <| s_last_backend_ticket := raw |>)
      end
  end.

Definition allocate_action_ticket : action_m BackendTicket :=
  allocate_ticket Action_BackendTicketExhausted.

Definition allocate_event_ticket : event_m BackendTicket :=
  allocate_ticket Event_BackendTicketExhausted.

Definition abandon_private_transaction (s : Session) : Session :=
  s <| s_active := None |> <| s_transaction := Idle |>.

(** ** Derived policy *)

Definition enabled_bindings (s : Session) (m : Mode) : list BackendBindingId :=
  filter (λ id, (match s_bindings s !! id with
                  | Some c => bool_decide (mode c = m)
                  | None => false
                  end) = true) (s_binding_order s).

Definition desired_binding_state (s : Session) (a : AuthorityState) (edge : BackendNextKeyEdge) :
    BackendBindingState :=
  if bool_decide (a_workarea a = None) || bool_decide (s_phase s = InitialReplay)
  then mk_binding_state [] [] edge
  else mk_binding_state (enabled_bindings s (a_mode a)) [Super] edge.

(** [format!("{}+ ▸ awaiting chord…", label)]: U+25B8 and U+2026. *)
Definition pending_chord_echo (s : Session) : rstring :=
  s_modifier_label s ++ lit "+ " ++ [9656%N] ++ lit " awaiting chord" ++ [8230%N].

Definition project_authority (a : AuthorityState) : list Placement :=
  match a_workarea a with
  | None => []
  | Some workarea =>
      let ps := project (Ledger.active_orbit (a_ledger a)) workarea TriptychParams_default in
      if a_exclusive_focus a
      then (λ p, mk_placement (win p) (rect p) false (pl_occluded p)) <$> ps
      else ps
  end.

Definition policy_visible_state (s : Session) (rev : N) : RealmState := {|
  revision := rev;
  state_orbits := (λ o, {|
      number := human (orbit_id o);
      cell_rune := [rune (orbit_id o)];
      display := if decide (orbit_id o = active (s_ledger s)) then Active
                 else if occupied o then Occupied else Empty;
      cell_windows := length (windows o)
    |}) <$> orbits (s_ledger s);
  state_layout := layout (Ledger.active_orbit (s_ledger s));
  state_mode := s_mode s;
  focused_title := if s_exclusive_focus s then []
    else match focused (s_ledger s) ≫= (λ w, s_windows s !! w) with
         | Some m => title m
         | None => []
         end;
  state_chord_echo := s_chord_echo s;
  state_whichkey := s_whichkey s;
  state_grimoire := s_grimoire s;
  state_modules := s_modules s
|}.

Definition publish_current_state (force_first : bool) (s : Session) : option RealmState * Session :=
  let candidate := policy_visible_state s (revision (s_state s)) in
  let changed := force_first || negb (renders_same_as (s_state s) candidate) in
  let s := s <| s_published_ledger := s_ledger s |> <| s_published_windows := s_windows s |> in
  if changed then
    let candidate := candidate <| revision :=
      if force_first then 1%N else u64_saturating_add (revision (s_state s)) 1 |> in
    (Some candidate, s <| s_state := candidate |>)
  else (None, s).

Definition publish {E} (force_first : bool) : stm Session (failure E) (option RealmState) := λ s,
  let '(st, s) := publish_current_state force_first s in (Ok st, s).

(** ** Admission of a policy turn *)

Definition contract {A} (e : BackendContractError) : result A SessionEventError :=
  Err (Event_BackendContract e).

Definition is_replay_barrier (ev : BackendPolicyEvent) : bool :=
  match ev with InitialReplayComplete => true | _ => false end.

(** The loop that admits only opens, one focus and one exclusive focus fact. *)
Fixpoint validate_replay_events (evs : list BackendPolicyEvent) (focus_events exclusive_events : nat) :
    result unit SessionEventError :=
  match evs with
  | [] => Ok tt
  | ev :: evs' =>
      match ev with
      | WindowOpened _ _ _ | InitialReplayComplete =>
          validate_replay_events evs' focus_events exclusive_events
      | FocusChanged _ =>
          if 1 <? S focus_events then contract InvalidPolicySequence
          else validate_replay_events evs' (S focus_events) exclusive_events
      | ExclusiveFocusChanged _ =>
          if 1 <? S exclusive_events then contract InvalidPolicySequence
          else validate_replay_events evs' focus_events (S exclusive_events)
      | _ => Err (UnexpectedInitialReplayEvent ev)
      end
  end.

(** The locals of the admission loop. *)
Record Admission := mk_admission {
  v_known : IdSet;
  v_live : IdSet;
  v_mapped : IdSet;
  v_next_win_id : N;
  v_text_bytes : N;
  v_effects : N;
  v_quit_seen : bool
}.

#[export] Instance Admission_settable : Settable Admission := λ v,
  mk_admission (v_known v) (v_live v) (v_mapped v) (v_next_win_id v) (v_text_bytes v)
    (v_effects v) (v_quit_seen v).

Definition add_text (s : list N) (v : Admission) : Admission :=
  v <| v_text_bytes := u64_saturating_add (v_text_bytes v) (N.of_nat (str_len s)) |>.

Definition admit_event (s : Session) (replay : bool) (ev : BackendPolicyEvent) (v : Admission) :
    result Admission SessionEventError :=
  match ev with
  | WindowOpened id app_id title =>
      let v := add_text title (add_text app_id (add_text id v)) in
      let v := v <| v_known := {[id]} ∪ v_known v |> <| v_live := {[id]} ∪ v_live v |> in
      try v :=
        (if bool_decide (id ∈ v_mapped v) then Ok v
         else
           ensure negb (v_next_win_id v =? u64_max)%N else WindowIdExhausted;
           Ok (v <| v_mapped := {[id]} ∪ v_mapped v |>
                 <| v_next_win_id := (v_next_win_id v + 1)%N |>)) in
      ensure size (v_live v) <=? MAX_MANAGED_WINDOWS
        else capacity_error ManagedWindows (N.of_nat MAX_MANAGED_WINDOWS);
      Ok v
  | WindowClosed id =>
      let v := add_text id v in
      ensure bool_decide (id ∈ v_known v) else Event_BackendContract UnknownWindowReference;
      let v := v <| v_known := v_known v ∖ {[id]} |> <| v_live := v_live v ∖ {[id]} |>
                 <| v_mapped := v_mapped v ∖ {[id]} |> in
      ensure negb replay else UnexpectedInitialReplayEvent ev;
      Ok v
  | TitleChanged id title =>
      let v := add_text title (add_text id v) in
      ensure negb replay else UnexpectedInitialReplayEvent ev;
      ensure bool_decide (id ∈ v_known v) else Event_BackendContract UnknownWindowReference;
      Ok v
  | FocusChanged (Some id) =>
      let v := add_text id v in
      ensure bool_decide (id ∈ v_known v) else Event_BackendContract UnknownWindowReference;
      Ok v
  | FocusChanged None | ExclusiveFocusChanged _ => Ok v
  | WorkareaChanged _ =>
      ensure negb replay else UnexpectedInitialReplayEvent ev;
      Ok v
  | GeometryDrifted id _ =>
      let v := add_text id v in
      ensure negb replay else UnexpectedInitialReplayEvent ev;
      ensure bool_decide (id ∈ v_known v) else Event_BackendContract UnknownWindowReference;
      Ok v
  | BindingPressed id | BindingReleased id | BindingRepeatStopped id =>
      match s_bindings s !! id with
      | None => contract (UnknownBinding id)
      | Some c =>
          ensure bool_decide (s_phase s = Live) else Event_BackendContract InvalidPolicySequence;
          match ev with
          | BindingPressed _ =>
              if v_quit_seen v then Ok v
              else
                let v := if action_has_effect (action c)
                         then v <| v_effects := u64_saturating_add (v_effects v) 1 |> else v in
                Ok (if bool_decide (action c = Action_Quit) then v <| v_quit_seen := true |> else v)
          | _ => Ok v
          end
      end
  | UnboundKeyEaten =>
      ensure bool_decide (s_phase s = Live) else Event_BackendContract InvalidPolicySequence;
      Ok v
  | ModifiersChanged old new =>
      ensure canonical_modifiers old && canonical_modifiers new
        else Event_BackendContract NonCanonicalModifiers;
      Ok v
  | InitialReplayComplete => Ok v
  end.

Fixpoint admit_events (s : Session) (replay : bool) (evs : list BackendPolicyEvent) (v : Admission) :
    result Admission SessionEventError :=
  match evs with
  | [] => Ok v
  | ev :: evs' => try v := admit_event s replay ev v in admit_events s replay evs' v
  end.

(** The authority a turn will be reduced against. *)
Definition base_authority (s : Session) : AuthorityState :=
  match s_active s with Some t => t_working t | None => current_authority s end.

(** The windows a fact may refer to: assigned in this incarnation and described. *)
Definition known_windows (a : AuthorityState) : IdSet :=
  dom (filter (λ p, fst p ∈ a_bound_backend_ids a ∧ is_Some (a_windows a !! snd p))
         (a_backend_ids a)).

Definition initial_admission (s : Session) (replay : bool) : Admission :=
  let base := base_authority s in
  let known := if replay then ∅ else known_windows base in {|
    v_known := known;
    v_live := known;
    v_mapped := dom (a_backend_ids base);
    v_next_win_id := a_next_win_id base;
    v_text_bytes := 0;
    v_effects := match s_active s with
                 | Some t => N.of_nat (length (t_staged_effects t)) | None => 0%N end;
    v_quit_seen := match s_active s with Some t => t_quit_staged t | None => false end
  |}.

(** The response boundary a turn may arrive at. *)
Definition turn_expected (s : Session) (turn : BackendPolicyTurn) : bool :=
  match s_transaction s with
  | Idle | AwaitingExternalTurn _ | AwaitingInternalTurn _ => bool_decide (drains turn = None)
  | AwaitingDrain ticket => bool_decide (drains turn = Some ticket)
  | InFlight _ => false
  end.

Definition validate_policy_turn (s : Session) (turn : BackendPolicyTurn) :
    result unit SessionEventError :=
  ensure match s_last_policy_turn s with
         | Some last => negb (turn_id turn <=? last)%positive | None => true end
    else Event_BackendContract InvalidPolicySequence;
  ensure turn_expected s turn else Event_BackendContract InvalidPolicySequence;
  let replay := bool_decide (s_phase s = InitialReplay) in
  try _ :=
    (if replay then
       ensure (length (List.filter is_replay_barrier (events turn)) =? 1)
              && match last (events turn) with
                 | Some InitialReplayComplete => true | _ => false end
         else Event_BackendContract InvalidPolicySequence;
       validate_replay_events (events turn) 0 0
     else
       ensure negb (existsb is_replay_barrier (events turn)) else RepeatedInitialReplayComplete;
       Ok tt) in
  let limit := if replay then MAX_REPLAY_POLICY_EVENTS else MAX_POLICY_EVENTS in
  ensure length (events turn) <=? limit else capacity_error PolicyFacts (N.of_nat limit);
  try v := admit_events s replay (events turn) (initial_admission s replay) in
  ensure (v_text_bytes v <=? MAX_POLICY_TEXT_BYTES)%N
    else capacity_error PolicyTextBytes MAX_POLICY_TEXT_BYTES;
  ensure (v_effects v <=? N.of_nat MAX_STAGED_EFFECTS)%N
    else capacity_error PolicyEffects (N.of_nat MAX_STAGED_EFFECTS);
  Ok tt.

(** ** Reducing the initial replay *)

Record ReplayWindow := mk_replay_window {
  replay_id : BackendWindowId;
  replay_metadata : WindowMetadata
}.

Definition visible_metadata (app_id title : rstring) : WindowMetadata :=
  mk_metadata (normalize_visible app_id MAX_VISIBLE_APP_ID_JSON_BYTES)
    (normalize_visible title MAX_VISIBLE_TITLE_JSON_BYTES).

(** A repeated open replaces the metadata in place. *)
Fixpoint upsert_replayed (w : ReplayWindow) (l : list ReplayWindow) : list ReplayWindow :=
  match l with
  | [] => [w]
  | x :: l' => if decide (replay_id x = replay_id w) then w :: l' else x :: upsert_replayed w l'
  end.

Fixpoint collect_replay (evs : list BackendPolicyEvent)
    (acc : list ReplayWindow * option BackendWindowId * bool) :
    result (list ReplayWindow * option BackendWindowId * bool) SessionEventError :=
  match evs with
  | [] => Ok acc
  | ev :: evs' =>
      let '(replayed, focus, exclusive) := acc in
      match ev with
      | WindowOpened id app_id title =>
          collect_replay evs'
            (upsert_replayed (mk_replay_window id (visible_metadata app_id title)) replayed,
             focus, exclusive)
      | FocusChanged f => collect_replay evs' (replayed, f, exclusive)
      | ExclusiveFocusChanged x => collect_replay evs' (replayed, focus, x)
      | InitialReplayComplete => collect_replay evs' acc
      | _ => Err (UnexpectedInitialReplayEvent ev)
      end
  end.

(** [backend_ids.iter().find_map(..)]: the first entry in key order. *)
Definition find_backend_id (a : AuthorityState) (w : WinId) : option BackendWindowId :=
  fst <$> (snd <$> list_find (λ p, snd p = w) (id_entries (a_backend_ids a))).

(** Forget a persisted window the compositor did not replay. *)
Definition reconcile_window (replayed_ids : list (list N)) (w : WinId) (a : AuthorityState) :
    event_m AuthorityState :=
  id ← expect (find_backend_id a w);
  mret (if decide (id ∈ replayed_ids) then a
        else set a_ledger (λ l, snd (banish w l)) (set a_backend_ids (delete id) a)).

Fixpoint reconcile_windows (replayed_ids : list (list N)) (ws : list WinId) (a : AuthorityState) :
    event_m AuthorityState :=
  match ws with
  | [] => mret a
  | w :: ws' => a ← reconcile_window replayed_ids w a; reconcile_windows replayed_ids ws' a
  end.

(** The Realm id of a replayed window: the persisted one, or a fresh one that
    enters the active orbit. *)
Definition adopt_id (id : BackendWindowId) (a : AuthorityState) :
    event_m (WinId * AuthorityState) :=
  match a_backend_ids a !! id with
  | Some w => mret (w, a)
  | None =>
      let w := a_next_win_id a in
      next ← expect (u64_checked_add (a_next_win_id a) 1);
      let a := a <| a_next_win_id := next |> in
      let a := set a_backend_ids (insert id w) a in
      mret (w, set a_ledger (λ l, summon w (active l) l) a)
  end.

Definition replay_window (w : ReplayWindow) (a : AuthorityState) : event_m AuthorityState :=
  wa ← adopt_id (replay_id w) a;
  let '(wid, a) := wa in
  let a := set a_windows (insert wid (replay_metadata w)) a in
  _ ← call_m Event_BackendContract (wm_assign_window (replay_id w) wid);
  mret (set a_bound_backend_ids (union {[replay_id w]}) a).

Fixpoint replay_windows (ws : list ReplayWindow) (a : AuthorityState) : event_m AuthorityState :=
  match ws with
  | [] => mret a
  | w :: ws' => a ← replay_window w a; replay_windows ws' a
  end.

Definition reduce_initial_replay (t : ActiveTransaction) (evs : list BackendPolicyEvent) :
    event_m ActiveTransaction :=
  acc ← of_result (collect_replay evs ([], None, false));
  let '(replayed, effective_focus, exclusive_focus) := acc in
  let a := t_working t in
  let replayed_ids := replay_id <$> replayed in
  let unknown := length (filter (λ id, a_backend_ids a !! id = None) replayed_ids) in
  if (u64_max - a_next_win_id a <? N.of_nat unknown)%N then raise WindowIdExhausted
  else
    a ← reconcile_windows replayed_ids (all_windows (orbits (a_ledger a))) a;
    let a := a <| a_windows := ∅ |> <| a_bound_backend_ids := ∅ |> in
    a ← replay_windows replayed a;
    let a := set a_ledger discard_undo_history a in
    let a := a <| a_workarea := None |> <| a_effective_focus := effective_focus |>
               <| a_exclusive_focus := exclusive_focus |> in
    mret (on_response (λ r, r <| projection := None |> <| closes := [] |>)
            (t <| t_working := a |> <| t_bootstrap := true |>)).

(** ** Reducing live policy facts *)

Definition require_projection (c : bool) (t : ActiveTransaction) : ActiveTransaction :=
  if c then t <| t_projection_required := true |> else t.

Definition workarea_known (t : ActiveTransaction) : bool :=
  bool_decide (a_workarea (t_working t) ≠ None).

(** What a binding does to the private transaction, before its effect on the
    projection and the repeat candidate is looked at. *)
Definition binding_effect (s : Session) (act : Action) (t : ActiveTransaction) : ActiveTransaction :=
  match act with
  | Action_Spawn argv => set t_staged_effects (.++ [Effect_Spawn argv]) t
  | Action_Terminal => set t_staged_effects (.++ [Effect_Terminal]) t
  | Action_Launcher => set t_staged_effects (.++ [Effect_Launcher]) t
  | Action_Focus d => on_ledger (focus_step d) t
  | Action_Swap d => on_ledger (λ l, snd (swap d l)) t
  | Action_Orbit n =>
      match from_human n with Some o => on_ledger (switch_orbit o) t | None => t end
  | Action_MoveToOrbit n =>
      match from_human n with Some o => on_ledger (λ l, snd (move_to_orbit o l)) t | None => t end
  | Action_Stow => on_ledger (λ l, snd (toggle_stow l)) t
  | Action_SetLayout lay => on_ledger (set_layout lay) t
  | Action_Fullscreen => on_ledger (λ l, snd (toggle_fullscreen l)) t
  | Action_EnterMode m =>
      let t := on_working (set a_mode (λ _, m)) t in
      let t := if decide (m = Nav) then on_working (set a_grimoire (λ _, false)) t else t in
      let echo := if bool_decide (m ≠ Nav)
                     || bool_decide (Super ∈ a_active_modifiers (t_working t))
                  then pending_chord_echo s else [] in
      let t := on_working (set a_chord_echo (λ _, echo)) t in
      let t := t <| t_binding_changed := true |> in
      set_next_key_edge (if decide (m = Nav) then Preserve else Ensure) t
  | Action_Banish =>
      match focused (a_ledger (t_working t)) with
      | Some w => on_response (set closes (λ cs, push_unique cs w)) t
      | None => t
      end
  | Action_Undo => on_ledger (λ l, snd (undo l)) t
  | Action_ToggleWhichKey => on_working (set a_whichkey negb) t
  | Action_Grimoire => on_working (set a_grimoire negb) t
  | Action_ReloadTheme => set t_staged_effects (.++ [Effect_ReloadTheme]) t
  | Action_Quit =>
      let after := match t_original_action_result t with
                   | None => NoRequester
                   | Some (ticket, _) => OriginalAction ticket
                   end in
      set t_staged_effects (.++ [Effect_QuitPending after]) t <| t_quit_staged := true |>
  end.

Definition apply_binding_action (s : Session) (t : ActiveTransaction) (id : BackendBindingId)
    (c : Binding) : ActiveTransaction :=
  if t_quit_staged t then t
  else
    let before := project_authority (t_working t) in
    let t := binding_effect s (action c) t in
    let t := require_projection (bool_decide (before ≠ project_authority (t_working t))) t in
    if repeatable c then t <| t_repeat_candidate := Some id |> else t.

(** The Realm id of an opened window: the one already assigned, or a fresh one. *)
Definition opened_id (id : BackendWindowId) (a : AuthorityState) :
    result (WinId * AuthorityState) SessionEventError :=
  match a_backend_ids a !! id with
  | Some w => Ok (w, a)
  | None =>
      ensure negb (a_next_win_id a =? u64_max)%N else WindowIdExhausted;
      let w := a_next_win_id a in
      Ok (w, set a_backend_ids (insert id w) (a <| a_next_win_id := (w + 1)%N |>))
  end.

Definition reduce_open (t : ActiveTransaction) (id : BackendWindowId) (app_id title : rstring) :
    event_m ActiveTransaction :=
  wa ← of_result (opened_id id (t_working t));
  let '(wid, a) := wa in
  let a := set a_ledger (λ l, summon wid (active l) l) a in
  let a := set a_windows (insert wid (visible_metadata app_id title)) a in
  a ← (if decide (id ∈ a_bound_backend_ids a) then mret a
       else
         _ ← call_m Event_BackendContract (wm_assign_window id wid);
         mret (set a_bound_backend_ids (union {[id]}) a));
  let t := t <| t_working := a |> in
  mret (require_projection (workarea_known t) t).

Definition reduce_close (t : ActiveTransaction) (id : BackendWindowId) :
    result ActiveTransaction SessionEventError :=
  match a_backend_ids (t_working t) !! id with
  | None => contract UnknownWindowReference
  | Some w =>
      let t := on_working (λ a,
        set a_ledger (λ l, snd (banish w l))
          (set a_windows (delete w)
            (set a_bound_backend_ids (.∖ {[id]})
              (set a_backend_ids (delete id) a)))) t in
      let t := on_response (set closes (filter (λ c, c ≠ w))) t in
      let t := require_projection (workarea_known t) t in
      Ok (if decide (t_close_target t = Some w) then t <| t_close_target := None |> else t)
  end.

Definition reduce_title (t : ActiveTransaction) (id : BackendWindowId) (text : rstring) :
    result ActiveTransaction SessionEventError :=
  match a_backend_ids (t_working t) !! id with
  | None => contract UnknownWindowReference
  | Some w =>
      match a_windows (t_working t) !! w with
      | None => contract UnknownWindowReference
      | Some m =>
          let m := m <| title := normalize_visible text MAX_VISIBLE_TITLE_JSON_BYTES |> in
          Ok (on_working (set a_windows (insert w m)) t)
      end
  end.

Definition reduce_focus (t : ActiveTransaction) (f : option BackendWindowId) : ActiveTransaction :=
  let t := on_working (set a_effective_focus (λ _, f)) t in
  let a := t_working t in
  let observed := f ≫= (λ id, a_backend_ids a !! id) in
  require_projection (negb (a_exclusive_focus a)
    && bool_decide (observed ≠ focused (a_ledger a)) && workarea_known t) t.

Definition reduce_exclusive (t : ActiveTransaction) (x : bool) : ActiveTransaction :=
  let t := require_projection
    (negb (Bool.eqb (a_exclusive_focus (t_working t)) x) && workarea_known t) t in
  on_working (set a_exclusive_focus (λ _, x)) t.

Definition reduce_workarea (t : ActiveTransaction) (w : Workarea) : ActiveTransaction :=
  if decide (a_workarea (t_working t) = Some w) then t
  else on_working (set a_workarea (λ _, Some w)) t <| t_projection_required := true |>.

Definition reduce_pressed (s : Session) (t : ActiveTransaction) (id : BackendBindingId) :
    result ActiveTransaction SessionEventError :=
  let t := on_working (set a_held_bindings (union {[id]})) t in
  match s_bindings s !! id with
  | None => contract (UnknownBinding id)
  | Some c =>
      let t := apply_binding_action s t id c in
      Ok (if bool_decide (a_mode (t_working t) ≠ Nav)
             && bool_decide (next_key_edge (resp_bindings (t_response t)) = Preserve)
          then set_next_key_edge Ensure t else t)
  end.

Definition reduce_released (s : Session) (t : ActiveTransaction) (id : BackendBindingId) :
    ActiveTransaction :=
  let t := on_working (set a_held_bindings (.∖ {[id]})) t in
  let t := if decide (t_repeat_candidate t = Some id) then t <| t_repeat_timer := Timer_Disarm |> else t in
  if decide (s_repeat_target s = Some id) then t <| t_repeat_timer := Timer_Disarm |> else t.

Definition reduce_unbound (t : ActiveTransaction) : ActiveTransaction :=
  let t := if decide (a_mode (t_working t) = Nav) then t
           else on_working (λ a, a <| a_mode := Nav |> <| a_chord_echo := [] |>) t
                  <| t_binding_changed := true |> in
  set_next_key_edge Preserve t.

Definition reduce_modifiers (s : Session) (t : ActiveTransaction) (new : list BackendModifier) :
    ActiveTransaction :=
  let t := on_working (set a_active_modifiers (λ _, new)) t in
  if decide (a_mode (t_working t) = Nav)
  then on_working (set a_chord_echo (λ _, if decide (Super ∈ new) then pending_chord_echo s else [])) t
  else t.

Definition reduce_event (ev : BackendPolicyEvent) (t : ActiveTransaction) :
    event_m ActiveTransaction :=
  s ← getS;
  match ev with
  | WindowOpened id app_id title => reduce_open t id app_id title
  | WindowClosed id => of_result (reduce_close t id)
  | TitleChanged id text => of_result (reduce_title t id text)
  | FocusChanged f => mret (reduce_focus t f)
  | ExclusiveFocusChanged x => mret (reduce_exclusive t x)
  | WorkareaChanged w => mret (reduce_workarea t w)
  | GeometryDrifted _ _ => mret t
  | BindingPressed id => of_result (reduce_pressed s t id)
  | BindingReleased id | BindingRepeatStopped id => mret (reduce_released s t id)
  | UnboundKeyEaten => mret (reduce_unbound t)
  | ModifiersChanged _ new => mret (reduce_modifiers s t new)
  | InitialReplayComplete => raise RepeatedInitialReplayComplete
  end.

Fixpoint reduce_policy_events (evs : list BackendPolicyEvent) (t : ActiveTransaction) :
    event_m ActiveTransaction :=
  match evs with
  | [] => mret t
  | ev :: evs' => t ← reduce_event ev t; reduce_policy_events evs' t
  end.

Definition derive_response (s : Session) (t : ActiveTransaction) : ActiveTransaction :=
  let t := t <| t_most_recent_private_projection := project_authority (t_working t) |> in
  let t := if t_projection_required t && workarea_known t
           then on_response (set projection (λ _, Some (t_most_recent_private_projection t))) t
           else t in
  let edge := next_key_edge (resp_bindings (t_response t)) in
  on_response (set resp_bindings (λ _, desired_binding_state s (t_working t) edge)) t.

(** ** Finalising a transaction *)

(** The repeat timer after the new authority and bindings are installed. *)
Definition repeat_policy (t : ActiveTransaction) (s : Session) : RepeatTimerDirective * Session :=
  let '(timer, s) :=
    match t_repeat_candidate t with
    | None => (t_repeat_timer t, s)
    | Some c =>
        if bool_decide (c ∈ s_held_bindings s)
           && bool_decide (c ∈ enabled (s_binding_state s))
           && match s_bindings s !! c with Some b => repeatable b | None => false end
        then (Timer_Arm KEY_REPEAT_DELAY_MS (1000 / KEY_REPEAT_RATE_HZ), s <| s_repeat_target := Some c |>)
        else (Timer_Disarm, s <| s_repeat_target := None |>)
    end in
  let '(timer, s) :=
    match s_repeat_target s with
    | Some target =>
        if bool_decide (target ∉ s_held_bindings s)
           || bool_decide (target ∉ enabled (s_binding_state s))
        then (Timer_Disarm, s <| s_repeat_target := None |>) else (timer, s)
    | None => (timer, s)
    end in
  if t_quit_staged t then (Timer_Disarm, s <| s_repeat_target := None |>) else (timer, s).

(** The installation half of [finalize_active]; the flag is [entering_live]. *)
Definition install_transaction (t : ActiveTransaction) (s : Session) : bool * Session :=
  let entering_live := bool_decide (s_phase s = FinalizingReplay)
    && workarea_known t && t_projection_submitted t in
  let s := install_authority (t_working t) s in
  let s := if t_projection_submitted t
           then s <| s_last_projection := t_most_recent_private_projection t |> else s in
  let s := s <| s_binding_state :=
    mk_binding_state (enabled (resp_bindings (t_response t)))
      (watched_modifiers (resp_bindings (t_response t))) Preserve |> in
  (entering_live,
   if entering_live then s <| s_phase := Live |>
   else if t_bootstrap t then s <| s_phase := FinalizingReplay |> else s).

Definition finalize_active (t : ActiveTransaction) : event_m SessionUpdate :=
  before ← snapshot;
  entering_live ← (λ s, let '(e, s) := install_transaction t s in (Ok e, s));
  timer ← (λ s, let '(r, s) := repeat_policy t s in (Ok r, s));
  s ← getS;
  st ← (if decide (s_phase s = Live) then publish entering_live else mret None);
  after ← snapshot;
  let persistence := changed_snapshot before after in
  let completion := (λ p, mk_completion (fst p) (snd p)) <$> t_original_action_result t in
  _ ← modify (λ s, if t_quit_staged t then s <| s_phase := PhaseQuitPending |> else s);
  _ ← modify abandon_private_transaction;
  mret (mk_update timer persistence st None completion (t_staged_effects t)).

(** ** Backend events *)

(** A fresh ticket for a fact turn, the staged one for a requested turn. *)
Definition response_ticket : event_m BackendTicket :=
  s ← getS;
  match s_transaction s with
  | Idle => allocate_event_ticket
  | AwaitingExternalTurn ticket | AwaitingInternalTurn ticket => mret ticket
  | AwaitingDrain _ => on_error abandon_private_transaction allocate_event_ticket
  | InFlight _ =>
      on_error abandon_private_transaction (raise (Event_BackendContract InvalidPolicySequence))
  end.

Definition carries_staged_projection (s : Session) : bool :=
  match s_transaction s with
  | AwaitingExternalTurn _ | AwaitingInternalTurn _ => true
  | _ => false
  end.

(** The transaction as a turn finds it: the response starts over. *)
Definition reopen_transaction (carries : bool) (t : ActiveTransaction) : ActiveTransaction :=
  let t := on_response (λ r, r <| projection := None |> <| closes := [] |>) t in
  let t := set_next_key_edge Preserve t in
  let t := if carries then t else t <| t_projection_required := false |> in
  let t := t <| t_binding_changed := false |> in
  match t_close_target t with
  | Some close =>
      if decide (is_Some (a_windows (t_working t) !! close))
      then on_response (set closes (λ cs, push_unique cs close)) t else t
  | None => t
  end.

(** [self.active.take().unwrap_or_else(|| self.new_active_transaction())] *)
Definition take_active : event_m ActiveTransaction := λ s,
  let t := match s_active s with Some t => t | None => new_active_transaction s end in
  (Ok t, s <| s_active := None |>).

Definition reduce_turn (turn : BackendPolicyTurn) (t : ActiveTransaction) :
    event_m ActiveTransaction :=
  s ← getS;
  if decide (s_phase s = InitialReplay)
  then reduce_initial_replay t (events turn)
  else reduce_policy_events (events turn) t.

(** What a submission does with the answered transaction. *)
Definition conclude_turn (ticket : BackendTicket) (sub : BackendSubmission) (t : ActiveTransaction) :
    event_m SessionUpdate :=
  let t := t <| t_close_target := None |> in
  let t := t <| t_projection_submitted :=
    t_projection_submitted t || bool_decide (projection (t_response t) ≠ None) |> in
  match sub with
  | Complete => finalize_active t
  | Pending =>
      _ ← modify (λ s, if t_bootstrap t then s <| s_phase := FinalizingReplay |> else s);
      _ ← modify (λ s, s <| s_active := Some t |> <| s_transaction := InFlight ticket |>);
      mret unchanged
  end.

Definition handle_policy_turn (turn : BackendPolicyTurn) : event_m SessionUpdate :=
  s ← getS;
  _ ← on_error abandon_private_transaction (of_result (validate_policy_turn s turn));
  let carries := carries_staged_projection s in
  ticket ← response_ticket;
  t ← take_active;
  let t := reopen_transaction carries t in
  t ← on_error abandon_private_transaction (reduce_turn turn t);
  s ← getS;
  let t := derive_response s t in
  _ ← modify (λ s, s <| s_last_policy_turn := Some (turn_id turn) |>);
  sub ← on_error abandon_private_transaction
    (call_m Event_Backend (wm_respond_policy_turn (turn_id turn) ticket (t_response t)));
  conclude_turn ticket sub t.

Definition invalid_sequence {A} : event_m A :=
  on_error abandon_private_transaction (raise (Event_BackendContract InvalidPolicySequence)).

Definition handle_operation_completed (ticket : BackendTicket) (res : result unit BackendError) :
    event_m SessionUpdate :=
  s ← getS;
  match s_transaction s with
  | InFlight expected =>
      if decide (ticket = expected) then
        match res with
        | Err e => on_error abandon_private_transaction (raise (Event_Backend e))
        | Ok _ =>
            match s_active s with
            | None => raise (Event_BackendContract InvalidPolicySequence)
            | Some _ =>
                _ ← modify (λ s, s <| s_transaction := AwaitingDrain ticket |>);
                mret unchanged
            end
        end
      else invalid_sequence
  | _ => invalid_sequence
  end.

Definition handle_observations_drained (ticket : BackendTicket) : event_m SessionUpdate :=
  s ← getS;
  match s_transaction s with
  | AwaitingDrain expected =>
      if decide (ticket = expected) then
        match s_active s with
        | None => raise (Event_BackendContract InvalidPolicySequence)
        | Some t =>
            _ ← modify (λ s, s <| s_active := None |>);
            finalize_active t
        end
      else invalid_sequence
  | _ => invalid_sequence
  end.

Definition quitting (p : SessionLifecyclePhase) : bool :=
  match p with
  | PhaseQuitPending | ShuttingDown | Exiting | ExitComplete => true
  | _ => false
  end.

Definition handle_backend_event (ev : BackendEvent) : event_m SessionUpdate :=
  s ← getS;
  if quitting (s_phase s) then invalid_sequence
  else
    match ev with
    | PolicyTurn turn => handle_policy_turn turn
    | OperationCompleted ticket res => handle_operation_completed ticket res
    | RetainedObservationsDrained ticket => handle_observations_drained ticket
    | Disconnected => on_error abandon_private_transaction (raise (Event_Backend ErrDisconnected))
    end.

Definition service_backend (ready : BackendReady) (now : N) : event_m (option BackendEvent) :=
  on_error abandon_private_transaction (call_m Event_Backend (wm_service ready now)).

(** ** Caller-requested actions *)

(** Hand a staged transaction to the backend; refusal drops it.  The first
    argument is the error cleanup, which differs between callers only in name. *)
Definition submit_staged {E} (wrap : BackendError → E) (sub : TransactionSubstate)
    (t : ActiveTransaction) : stm Session (failure E) unit :=
  _ ← modify (λ s, s <| s_active := Some t |> <| s_transaction := sub |>);
  on_error abandon_private_transaction (call_m wrap wm_request_policy_turn).

Definition stage_policy_ledger_update (update : Ledger → Ledger) : action_m SessionUpdate :=
  s ← getS;
  let t := on_ledger update (new_active_transaction s) in
  if decide (a_ledger (t_working t) = a_ledger (t_committed t)) then mret unchanged
  else
    let t := t <| t_most_recent_private_projection := project_authority (t_working t) |> in
    let t := t <| t_projection_required :=
      bool_decide (t_most_recent_private_projection t ≠ t_last_committed_clean_projection t) |> in
    if t_projection_required t then
      ticket ← allocate_action_ticket;
      let t := t <| t_original_action_result := Some (ticket, Ok tt) |> in
      _ ← submit_staged Action_Backend (AwaitingExternalTurn ticket) t;
      mret (unchanged <| up_pending_action := Some ticket |>)
    else
      before ← snapshot;
      _ ← modify (install_authority (t_working t));
      st ← publish false;
      after ← snapshot;
      mret (unchanged <| up_persistence := changed_snapshot before after |> <| up_state := st |>).

Definition stage_ledger_update (update : Ledger → Ledger) : action_m SessionUpdate :=
  s ← getS;
  if not_ready s then raise NotReady else stage_policy_ledger_update update.

(** The public actions and the ledger update each stages. *)
Inductive LedgerAction :=
| SwitchOrbit (o : OrbitId)
| SetLayout (lay : Layout)
| FocusStep (d : Dir)
| SwapStep (d : Dir)
| MoveFocusedToOrbit (o : OrbitId)
| ToggleStow
| ToggleFullscreen
| Undo.

Definition ledger_action (act : LedgerAction) : Ledger → Ledger :=
  match act with
  | SwitchOrbit o => switch_orbit o
  | SetLayout lay => set_layout lay
  | FocusStep d => focus_step d
  | SwapStep d => λ l, snd (swap d l)
  | MoveFocusedToOrbit o => λ l, snd (move_to_orbit o l)
  | ToggleStow => λ l, snd (toggle_stow l)
  | ToggleFullscreen => λ l, snd (toggle_fullscreen l)
  | Undo => λ l, snd (undo l)
  end.

Definition perform (act : LedgerAction) : action_m SessionUpdate :=
  stage_ledger_update (ledger_action act).

Definition request_close_focused : action_m SessionUpdate :=
  s ← getS;
  if not_ready s then raise NotReady
  else
    match focused (s_ledger s) with
    | None => mret unchanged
    | Some w =>
        ticket ← allocate_action_ticket;
        s ← getS;
        let t := new_active_transaction s <| t_close_target := Some w |>
                   <| t_original_action_result := Some (ticket, Ok tt) |> in
        _ ← submit_staged Action_Backend (AwaitingExternalTurn ticket) t;
        mret (unchanged <| up_pending_action := Some ticket |>)
    end.

Definition request_spawn (argv : list rstring) : action_m SessionUpdate :=
  s ← getS;
  if not_ready s then raise NotReady
  else
    match argv with
    | [] | [] :: _ => raise InvalidSpawnCommand
    | _ => mret (unchanged <| up_effects := [Effect_Spawn argv] |>)
    end.

Definition toggle_whichkey (s : Session) : SessionUpdate * Session :=
  if not_ready s then (unchanged, s)
  else
    let changed := s_state s <| revision := u64_saturating_add (revision (s_state s)) 1 |>
                     <| state_whichkey := negb (state_whichkey (s_state s)) |> in
    (unchanged <| up_state := Some changed |>,
     s <| s_whichkey := state_whichkey changed |> <| s_state := changed |>).

Definition update_modules (modules : list BarModule) (s : Session) : SessionUpdate * Session :=
  if not_ready s then (unchanged, s)
  else if decide (state_modules (s_state s) = modules) then (unchanged, s)
  else
    let changed := s_state s <| revision := u64_saturating_add (revision (s_state s)) 1 |>
                     <| state_modules := modules |> in
    (unchanged <| up_state := Some changed |>,
     s <| s_modules := state_modules changed |> <| s_state := changed |>).

Definition fire_key_repeat : event_m SessionUpdate :=
  s ← getS;
  if not_ready s then mret unchanged
  else
    match s_repeat_target s with
    | None => mret unchanged
    | Some target =>
        match s_bindings s !! target with
        | None => mret unchanged
        | Some c =>
            if negb (repeatable c) || bool_decide (target ∉ s_held_bindings s)
               || bool_decide (target ∉ enabled (s_binding_state s))
            then mret unchanged
            else
              let t := apply_binding_action s (new_active_transaction s) target c in
              let t := t <| t_repeat_candidate := None |> in
              let t := t <| t_most_recent_private_projection := project_authority (t_working t) |> in
              if negb (t_projection_required t) && negb (t_binding_changed t)
                 && bool_decide (closes (t_response t) = [])
              then
                before ← snapshot;
                _ ← modify (install_authority (t_working t));
                st ← publish false;
                after ← snapshot;
                mret (unchanged <| up_persistence := changed_snapshot before after |>
                        <| up_state := st |> <| up_effects := t_staged_effects t |>)
              else
                ticket ← allocate_event_ticket;
                _ ← submit_staged Event_Backend (AwaitingInternalTurn ticket) t;
                mret unchanged
        end
    end.

(** ** Leaving the session *)

Definition begin_direct_quit : event_m SessionUpdate :=
  s ← getS;
  match s_phase s with
  | PhaseQuitPending => mret unchanged
  | Live =>
      _ ← modify (λ s, abandon_private_transaction s <| s_repeat_target := None |>
                         <| s_phase := PhaseQuitPending |>);
      mret (unchanged <| up_repeat_timer := Timer_Disarm |>
              <| up_effects := [Effect_QuitPending CurrentControlRequest] |>)
  | phase => raise (InvalidLifecycleOperation BeginDirectQuit phase)
  end.

Definition begin_shutdown (s : Session) : SessionUpdate * Session :=
  match s_phase s with
  | ShuttingDown | Exiting | ExitComplete => (unchanged, s)
  | _ => (unchanged <| up_repeat_timer := Timer_Disarm |>,
          abandon_private_transaction s <| s_repeat_target := None |> <| s_phase := ShuttingDown |>)
  end.

Definition begin_exit_session : event_m unit :=
  s ← getS;
  if bool_decide (s_phase s ≠ ShuttingDown) || s_exit_attempted s
  then raise (InvalidLifecycleOperation BeginExitSession (s_phase s))
  else
    _ ← modify (λ s, s <| s_exit_attempted := true |>);
    let policy := mk_exit_policy (enabled (s_binding_state s)) (watched_modifiers (s_binding_state s)) in
    _ ← call_m Event_Backend (wm_begin_exit_session policy);
    modify (λ s, s <| s_phase := Exiting |>).

Definition complete_expected_exit : event_m unit :=
  s ← getS;
  if decide (s_phase s = Exiting) then modify (λ s, s <| s_phase := ExitComplete |>)
  else raise (InvalidLifecycleOperation ServiceAfterExitComplete (s_phase s)).

(** ** Reports *)

Record LedgerEntry := mk_ledger_entry {
  entry_id : WinId;
  entry_app_id : rstring;
  entry_title : rstring;
  entry_focused : bool;
  entry_stowed : bool
}.

Record OrbitLedger := mk_orbit_ledger {
  ol_orbit : nat;
  ol_rune : rstring;
  ol_name : rstring;
  ol_active : bool;
  ol_layout : Layout;
  ol_windows : list LedgerEntry
}.

Definition ledger_entry (s : Session) (o : Orbit) (w : WinId) : option LedgerEntry :=
  (λ m, mk_ledger_entry w (app_id m) (title m) (bool_decide (orbit_focused o = Some w))
          (bool_decide (w ∈ stowed o))) <$> s_published_windows s !! w.

Definition visible_ledger (s : Session) (selected : option OrbitId) : list OrbitLedger :=
  (λ o, mk_orbit_ledger (human (orbit_id o)) [rune (orbit_id o)] (orbit_name o)
          (bool_decide (orbit_id o = active (s_published_ledger s))) (layout o)
          (omap (ledger_entry s o) (windows o)))
    <$> filter (λ o, (match selected with None => true | Some i => orbit_id o =? i end) = true)
          (orbits (s_published_ledger s)).

Definition window_metadata (s : Session) (w : WinId) : option WindowMetadata := s_windows s !! w.

Definition window_id (s : Session) (id : BackendWindowId) : option WinId := s_backend_ids s !! id.
End session.
