(* ===== verification/Reduce.v ===== *)
(** * Reducing an admitted turn

    Admission ([validate_policy_turn]) and reduction walk over the same facts.
    Here they are put side by side: whatever admission accepted, reduction
    carries out, unless the backend refuses to bind a window; the authority
    stays well formed and the number of staged effects is the one admission
    counted. *)

From Stdlib Require Import ZArith Lia.
From stdpp Require Import prelude list gmap sorting.
From S2P Require Import Prelude Layout Ledger Projection Keys State Backend Snapshot Visible Authority Hoare AuthorityInv Session.

(** The parts of a transaction no fact touches. *)
Definition same_frame (t t' : ActiveTransaction) : Prop :=
  t_visible t' = t_visible t
  ∧ t_original_action_result t' = t_original_action_result t
  ∧ t_bootstrap t' = t_bootstrap t
  ∧ t_projection_submitted t' = t_projection_submitted t.

#[export] Instance same_frame_preorder : PreOrder same_frame.
Proof.
  split; [done|]. intros t1 t2 t3 (? & ? & ? & ?) (? & ? & ? & ?). split_and!; congruence.
Qed.

(** The admission's view of the working authority. *)
Record tracks (v : Admission) (t : ActiveTransaction) : Prop := {
  tr_mapped : v_mapped v = dom (a_backend_ids (t_working t));
  tr_next : v_next_win_id v = a_next_win_id (t_working t);
  tr_known : ∀ i, i ∈ v_known v →
    ∃ w, a_backend_ids (t_working t) !! i = Some w ∧ is_Some (a_windows (t_working t) !! w);
  tr_quit : v_quit_seen v = t_quit_staged t;
  tr_effects : v_effects v = N.min (N.of_nat (length (t_staged_effects t))) u64_max
}.

(** A step that leaves everything admission looks at alone. *)
Definition neutral (t t' : ActiveTransaction) : Prop :=
  a_ledger (t_working t') = a_ledger (t_working t)
  ∧ a_backend_ids (t_working t') = a_backend_ids (t_working t)
  ∧ a_windows (t_working t') = a_windows (t_working t)
  ∧ a_next_win_id (t_working t') = a_next_win_id (t_working t)
  ∧ t_quit_staged t' = t_quit_staged t
  ∧ t_staged_effects t' = t_staged_effects t
  ∧ same_frame t t'.

Lemma neutral_wf t t' : neutral t t' → authority_wf (t_working t) → authority_wf (t_working t').
Proof. intros (? & ? & _ & ? & _) ?. by eapply authority_wf_ext. Qed.

Lemma neutral_tracks v v' t t' :
  neutral t t' → tracks v t → v_mapped v' = v_mapped v → v_next_win_id v' = v_next_win_id v →
  v_known v' = v_known v → v_quit_seen v' = v_quit_seen v → v_effects v' = v_effects v →
  tracks v' t'.
Proof.
  intros (_ & Ei & Ew & En & Eq & Ee & _) [] Hm Hn Hk Hq He.
  constructor; rewrite ?Ei, ?Ew, ?En, ?Eq, ?Ee; congruence || (intros i; rewrite Hk; auto).
Qed.

Lemma neutral_frame t t' : neutral t t' → same_frame t t'.
Proof. by intros (_ & _ & _ & _ & _ & _ & ?). Qed.

Lemma require_projection_neutral c t : neutral t (require_projection c t).
Proof. by destruct c. Qed.

Lemma set_next_key_edge_neutral e t : neutral t (set_next_key_edge e t).
Proof. done. Qed.

#[export] Instance neutral_preorder : PreOrder neutral.
Proof.
  split; [done|]. intros t1 t2 t3 (?&?&?&?&?&?&F1) (?&?&?&?&?&?&F2).
  split_and!; try congruence. by transitivity t2.
Qed.

(** ** Binding actions *)

(** What a binding action adds to the staged effects. *)
Definition staged (act : Action) : nat := if action_has_effect act then 1 else 0.

Record acts (act : Action) (t t' : ActiveTransaction) : Prop := {
  ac_ledger : ledger_wf (a_ledger (t_working t)) →
              keeps (a_ledger (t_working t)) (a_ledger (t_working t'));
  ac_ids : a_backend_ids (t_working t') = a_backend_ids (t_working t);
  ac_windows : a_windows (t_working t') = a_windows (t_working t);
  ac_next : a_next_win_id (t_working t') = a_next_win_id (t_working t);
  ac_quit : t_quit_staged t' = t_quit_staged t || bool_decide (act = Action_Quit);
  ac_effects : length (t_staged_effects t') = length (t_staged_effects t) + staged act;
  ac_frame : same_frame t t'
}.

Lemma acts_of_neutral act t t' :
  action_has_effect act = false → neutral t t' → acts act t t'.
Proof.
  intros Hact (El & Ei & Ew & En & Eq & Ee & F). constructor; try done.
  - intros. by rewrite El.
  - rewrite Eq. rewrite bool_decide_eq_false_2; [by rewrite orb_false_r|by intros ->].
  - unfold staged. rewrite Hact, Ee. lia.
Qed.

Lemma acts_of_ledger act f t :
  action_has_effect act = false → (∀ l, ledger_wf l → keeps l (f l)) → acts act t (on_ledger f t).
Proof.
  intros Hact Hf. constructor; cbn; try done; [by apply Hf| |].
  - rewrite bool_decide_eq_false_2; [by rewrite orb_false_r|by intros ->].
  - unfold staged. rewrite Hact. lia.
Qed.

Lemma acts_of_effect act e t :
  action_has_effect act = true → act ≠ Action_Quit →
  acts act t (set t_staged_effects (.++ [e]) t).
Proof.
  intros Hact Hq. constructor; cbn; try done.
  - by rewrite bool_decide_eq_false_2, orb_false_r.
  - unfold staged. rewrite Hact, length_app. done.
Qed.

Lemma binding_effect_acts {B} (s : Session (B:=B)) act t : acts act t (binding_effect s act t).
Proof.
  destruct act; cbn [binding_effect];
    try (by apply acts_of_effect); try (by apply acts_of_neutral);
    try (apply acts_of_ledger; [done|]; auto with realm).
  - destruct (from_human n) as [o|] eqn:Ho; [|by apply acts_of_neutral].
    apply acts_of_ledger; [done|]. apply from_human_valid in Ho. auto with realm.
  - destruct (from_human n) as [o|] eqn:Ho; [|by apply acts_of_neutral].
    apply acts_of_ledger; [done|]. apply from_human_valid in Ho. auto with realm.
  - apply acts_of_neutral; [done|]. by case_decide.
  - apply acts_of_neutral; [done|]. by destruct (focused _).
  - constructor; cbn; try done; [by rewrite orb_true_r|]. by rewrite length_app.
Qed.

Lemma acts_neutral_r act t t' t'' : acts act t t' → neutral t' t'' → acts act t t''.
Proof.
  intros [] (El & Ei & Ew & En & Eq & Ee & F). constructor; rewrite ?El, ?Ei, ?Ew, ?En, ?Eq, ?Ee;
    try done. by transitivity t'.
Qed.

Lemma apply_binding_action_acts {B} (s : Session (B:=B)) t id c :
  t_quit_staged t = false → acts (action c) t (apply_binding_action s t id c).
Proof.
  intros Hq. unfold apply_binding_action. rewrite Hq.
  apply (acts_neutral_r _ _ (binding_effect s (action c) t)); [apply binding_effect_acts|].
  etransitivity; [apply require_projection_neutral|]. by destruct (repeatable c).
Qed.

Lemma apply_binding_action_quit {B} (s : Session (B:=B)) t id c :
  t_quit_staged t = true → apply_binding_action s t id c = t.
Proof. intros Hq. unfold apply_binding_action. by rewrite Hq. Qed.

Lemma acts_wf act t t' :
  acts act t t' → authority_wf (t_working t) → authority_wf (t_working t').
Proof.
  intros [Hk Ei _ En _ _ _] Ha. pose proof (Hk (aw_ledger _ Ha)) as Hkeeps.
  apply (authority_wf_ext (set a_ledger (λ _, a_ledger (t_working t')) (t_working t))); try done.
  by apply (authority_wf_ledger _ (λ _, a_ledger (t_working t'))).
Qed.

(** ** One fact *)

Section reduce.
Context {B : Type} `{WmBackend B}.
Implicit Types (s : Session (B:=B)) (t : ActiveTransaction) (v : Admission).

(** The backend refused to bind a window. *)
Definition refused (e : BackendContractError) : Prop :=
  ∃ id w (b b' : B), wm_assign_window id w b = (Err e, b').

(** Reduction touches the session's backend only, and fails only when the
    backend refuses. *)
Definition reduces {A} (m : event_m A) s (Q : A → Prop) : Prop :=
  ∃ b', match m s with
        | (Ok t', s') => Q t' ∧ s' = s <| s_backend := b' |>
        | (Err (Raise (Event_BackendContract e)), s') => refused e ∧ s' = s <| s_backend := b' |>
        | _ => False
        end.

Lemma same_backend s : s <| s_backend := s_backend s |> = s.
Proof. by destruct s. Qed.

Lemma reduces_ret {A} (a : A) s (Q : A → Prop) : Q a → reduces (mret a) s Q.
Proof. intros Hq. exists (s_backend s). cbn. by rewrite same_backend. Qed.

Lemma reduces_Ok r s t (Q : ActiveTransaction → Prop) :
  r = Ok t → Q t → reduces (of_result r) s Q.
Proof. intros -> Hq. by apply reduces_ret. Qed.

(** The invariant of the reduction loop. *)
Definition reduced v t0 t : Prop :=
  tracks v t ∧ authority_wf (t_working t) ∧ same_frame t0 t.

Lemma reduced_neutral v v' t0 t t' :
  reduced v t0 t → neutral t t' → v_mapped v' = v_mapped v → v_next_win_id v' = v_next_win_id v →
  v_known v' = v_known v → v_quit_seen v' = v_quit_seen v → v_effects v' = v_effects v →
  reduced v' t0 t'.
Proof.
  intros (Ht & Ha & Hf) Hn ?????. split_and!.
  - by eapply neutral_tracks.
  - by eapply neutral_wf.
  - etransitivity; [done|by apply neutral_frame].
Qed.

Lemma reduce_close_ok s t0 t v v' id :
  reduced v t0 t → admit_event s false (WindowClosed id) v = Ok v' →
  ∃ t', reduce_close t id = Ok t' ∧ reduced v' t0 t'.
Proof.
  intros (Ht & Ha & Hf) Hv. cbn [admit_event] in Hv.
  apply ensure_Ok in Hv as [Hk%bool_decide_eq_true Hv]. apply ensure_Ok in Hv as [_ [= <-]].
  cbn in Hk. destruct (tr_known _ _ Ht id Hk) as (w & Hw & Hm).
  unfold reduce_close. rewrite Hw. eexists. split; [done|].
  set (t1 := on_working _ _).
  assert (tracks (add_text id v <| v_known := v_known v ∖ {[id]} |>
    <| v_live := v_live v ∖ {[id]} |> <| v_mapped := v_mapped v ∖ {[id]} |>) t1) as Ht1.
  { destruct Ht as [Em En Ek Eq Ee]. constructor; cbn; try done.
    - by rewrite dom_delete_L, Em.
    - intros i [Hi Hne%not_elem_of_singleton]%elem_of_difference.
      destruct (Ek i Hi) as (u & Hu & Hmu). exists u.
      rewrite lookup_delete_ne by done. split; [done|].
      rewrite lookup_delete_ne; [done|]. intros <-. apply Hne. by eapply aw_inj. }
  assert (authority_wf (t_working t1)) as Ha1.
  { eapply (authority_wf_ext _ _ (authority_wf_gone _ id w Ha Hw)); done. }
  assert (same_frame t0 t1) as Hf1 by done.
  assert (reduced _ t0 t1) as Hr by exact (conj Ht1 (conj Ha1 Hf1)). clear Ht1 Ha1 Hf1. clearbody t1.
  set (t2 := on_response _ t1). assert (neutral t1 t2) as H2 by done. clearbody t2. cbv zeta.
  assert (neutral t1 (require_projection (workarea_known t2) t2)) as H3
    by (etransitivity; [exact H2|apply require_projection_neutral]).
  revert H3. generalize (require_projection (workarea_known t2) t2). intros t3 H3.
  eapply (reduced_neutral _ _ _ t1); [exact Hr| |done..]. by case_decide.
Qed.

Lemma reduce_title_ok s t0 t v v' id text :
  reduced v t0 t → admit_event s false (TitleChanged id text) v = Ok v' →
  ∃ t', reduce_title t id text = Ok t' ∧ reduced v' t0 t'.
Proof.
  intros (Ht & Ha & Hf) Hv. cbn [admit_event] in Hv.
  apply ensure_Ok in Hv as [_ Hv]. apply ensure_Ok in Hv as [Hk%bool_decide_eq_true [= <-]].
  cbn in Hk. destruct (tr_known _ _ Ht id Hk) as (w & Hw & [m Hm]).
  unfold reduce_title. rewrite Hw, Hm. eexists. split; [done|]. split_and!; [|by eapply authority_wf_ext|done].
  destruct Ht as [Em En Ek Eq Ee]. constructor; cbn; try done.
  intros i Hi. destruct (Ek i Hi) as (u & Hu & Hmu). exists u. split; [done|].
  destruct (decide (u = w)) as [->|]; [by rewrite lookup_insert_eq|by rewrite lookup_insert_ne].
Qed.

Lemma reduce_pressed_ok s t0 t v v' id :
  reduced v t0 t → admit_event s false (BindingPressed id) v = Ok v' →
  ∃ t', reduce_pressed s t id = Ok t' ∧ reduced v' t0 t'.
Proof.
  intros Hr Hv. cbn [admit_event] in Hv. unfold reduce_pressed.
  destruct (s_bindings s !! id) as [c|] eqn:Hc; [|done].
  apply ensure_Ok in Hv as [_ Hv]. eexists. split; [done|].
  set (t1 := on_working _ t). assert (neutral t t1) as Hn1 by done.
  assert (reduced v' t0 (apply_binding_action s t1 id c)) as Hr'.
  { destruct (t_quit_staged t) eqn:Hq.
    - rewrite apply_binding_action_quit by done. destruct Hr as (Ht & Ha & Hf).
      rewrite (tr_quit _ _ Ht), Hq in Hv. injection Hv as <-.
      by apply (reduced_neutral v v t0 t).
    - destruct Hr as (Ht & Ha & Hf). rewrite (tr_quit _ _ Ht), Hq in Hv.
      pose proof (apply_binding_action_acts s t1 id c Hq) as Hacts.
      assert (reduced v t0 t1) as (Ht1 & Ha1 & Hf1) by (by apply (reduced_neutral v v t0 t)).
      split_and!; [|by eapply acts_wf|transitivity t1; [done|apply Hacts]].
      destruct Hacts as [_ Ei Ew En Eq Ee _], Ht1 as [Em1 En1 Ek1 Eq1 Ee1].
      assert (v_effects v' = N.min (N.of_nat (length (t_staged_effects t) + staged (action c))) u64_max
        ∧ v_quit_seen v' = bool_decide (action c = Action_Quit)
        ∧ v_mapped v' = v_mapped v ∧ v_next_win_id v' = v_next_win_id v ∧ v_known v' = v_known v)
        as (Hef & Hqs & Hm & Hnx & Hkn).
      { injection Hv as <-. unfold staged. change (t_staged_effects t1) with (t_staged_effects t) in Ee1.
        change (t_quit_staged t1) with (t_quit_staged t) in Eq1. rewrite Hq in Eq1.
        destruct (action_has_effect (action c)), (bool_decide (action c = Action_Quit)); cbn;
          rewrite ?Ee1, ?Eq1; unfold u64_saturating_add, u64_max; split_and!; (done || lia). }
      constructor; rewrite ?Ei, ?Ew, ?En, ?Hm, ?Hnx, ?Hef, ?Hqs; try done.
      + intros i. rewrite Hkn. apply Ek1.
      + rewrite Eq. change (t_quit_staged t1) with (t_quit_staged t). by rewrite Hq.
      + by rewrite Ee. }
  destruct (_ && _); [|exact Hr'].
  by apply (reduced_neutral v' v' t0 (apply_binding_action s t1 id c)).
Qed.

(** Admission of an open: what it lets through. *)
Lemma admit_open s replay id app_id title v v' :
  admit_event s replay (WindowOpened id app_id title) v = Ok v' →
  v_known v' = {[id]} ∪ v_known v ∧ v_quit_seen v' = v_quit_seen v ∧ v_effects v' = v_effects v
  ∧ v_mapped v' = {[id]} ∪ v_mapped v
  ∧ (id ∈ v_mapped v ∧ v_next_win_id v' = v_next_win_id v
     ∨ id ∉ v_mapped v ∧ v_next_win_id v ≠ u64_max ∧ v_next_win_id v' = (v_next_win_id v + 1)%N).
Proof.
  intros Hv. cbn [admit_event] in Hv. apply rbind_Ok in Hv as (v1 & Hv1 & Hv).
  apply ensure_Ok in Hv as [_ [= <-]].
  set (v0 := add_text title _ <| v_known := _ |> <| v_live := _ |>) in Hv1.
  change (v_mapped v0) with (v_mapped v) in Hv1.
  change (v_next_win_id v0) with (v_next_win_id v) in Hv1.
  destruct (bool_decide (id ∈ v_mapped v)) eqn:E.
  - apply bool_decide_eq_true in E. injection Hv1 as <-. split_and!; try done; [set_solver|by left].
  - apply bool_decide_eq_false in E. apply ensure_Ok in Hv1 as [Hn [= <-]].
    apply negb_true_iff, N.eqb_neq in Hn. split_and!; try done. by right.
Qed.

(** The authority after an open, before the window is bound. *)
Lemma opened_ok v v' t id app_id title s :
  tracks v t → authority_wf (t_working t) →
  admit_event s false (WindowOpened id app_id title) v = Ok v' →
  ∃ w a, opened_id id (t_working t) = Ok (w, a)
    ∧ let a' := set a_windows (insert w (visible_metadata app_id title))
                  (set a_ledger (λ l, summon w (active l) l) a) in
      authority_wf a' ∧ (∀ t', t_working t' = a' → t_quit_staged t' = t_quit_staged t →
        t_staged_effects t' = t_staged_effects t → tracks v' t').
Proof.
  intros Ht Ha Hv. apply admit_open in Hv as (Hk & Hq & He & Hm & Hcase).
  unfold opened_id. destruct Ht as [Em En Ek Eq Ee]. set (a := t_working t) in *.
  destruct (a_backend_ids a !! id) as [w|] eqn:Hid.
  - exists w, a. split; [done|]. cbv zeta.
    assert (id ∈ v_mapped v) as Hin by (rewrite Em; by apply elem_of_dom_2 in Hid).
    destruct Hcase as [[_ Hnx]|[]]; [|done].
    assert (a_ledger (set a_ledger (λ l, summon w (active l) l) a) = a_ledger a) as El
      by (by apply (summon_assigned a id)).
    split; [by apply (authority_wf_ext a)|].
    intros t' Hw Hqt Het. constructor; rewrite ?Hw, ?Hqt, ?Het; cbn; try congruence.
    + rewrite Hm, Em. apply elem_of_dom_2 in Hid. set_solver.
    + intros i. rewrite Hk. intros [->%elem_of_singleton|Hi]%elem_of_union.
      * exists w. rewrite lookup_insert_eq. eauto.
      * destruct (Ek i Hi) as (u & Hu & Hmu). exists u. split; [done|].
        destruct (decide (u = w)) as [->|];
          [by rewrite lookup_insert_eq; eauto|by rewrite lookup_insert_ne].
  - assert (id ∉ v_mapped v) as Hnin by (rewrite Em; by apply not_elem_of_dom).
    destruct Hcase as [[]|(_ & Hmax & Hnx)]; [done|]. rewrite En in *.
    rewrite (proj2 (N.eqb_neq _ _) Hmax). cbn [negb rbind require].
    eexists _, _. split; [done|]. cbv zeta.
    set (w := a_next_win_id a) in *.
    pose proof (aw_next a Ha) as Hle. fold w in Hle.
    split.
    { apply (authority_wf_ext (set a_ledger (λ _, summon w (active (a_ledger a)) (a_ledger a))
        (set a_backend_ids (insert id w) (a <| a_next_win_id := (w + 1)%N |>)))); try done.
      apply authority_wf_fresh; try done. lia. }
    intros t' Hw Hqt Het. constructor; rewrite ?Hw, ?Hqt, ?Het; cbn; try congruence.
    + by rewrite Hm, Em, dom_insert_L.
    + intros i. rewrite Hk. intros [->%elem_of_singleton|Hi]%elem_of_union.
      * exists w. rewrite !lookup_insert_eq. eauto.
      * destruct (Ek i Hi) as (u & Hu & Hmu). exists u.
        assert (i ≠ id) by (intros ->; congruence). rewrite lookup_insert_ne by done.
        split; [done|]. destruct (decide (u = w)) as [->|];
          [by rewrite lookup_insert_eq; eauto|by rewrite lookup_insert_ne].
Qed.

Lemma reduce_open_ok s t0 t v v' id app_id title :
  reduced v t0 t → admit_event s false (WindowOpened id app_id title) v = Ok v' →
  reduces (reduce_open t id app_id title) s (reduced v' t0).
Proof.
  intros (Ht & Ha & Hf) Hv.
  destruct (opened_ok v v' t id app_id title s Ht Ha Hv) as (w & a & Ho & Ha' & Htr).
  cbv zeta in Ha', Htr. set (a1 := set a_windows _ _) in Ha', Htr.
  set (finish := λ a2, let t1 := t <| t_working := a2 |> in
    require_projection (workarea_known t1) t1).
  assert (∀ a2, authority_wf a2 → a_ledger a2 = a_ledger a1 → a_backend_ids a2 = a_backend_ids a1 →
    a_windows a2 = a_windows a1 → a_next_win_id a2 = a_next_win_id a1 →
    reduced v' t0 (finish a2)) as Hred.
  { intros a2 Ha2 El Ei Ew En.
    apply (reduced_neutral v' v' t0 (t <| t_working := a1 |>)); try done.
    - split; [by apply Htr|done].
    - etransitivity; [|apply require_projection_neutral]. by split_and!. }
  assert (reduce_open t id app_id title s =
    if decide (id ∈ a_bound_backend_ids a1) then (Ok (finish a1), s)
    else match wm_assign_window id w (s_backend s) with
         | (Ok _, b') => (Ok (finish (set a_bound_backend_ids (union {[id]}) a1)), s <| s_backend := b' |>)
         | (Err e, b') => (Err (Raise (Event_BackendContract e)), s <| s_backend := b' |>)
         end) as E.
  { unfold reduce_open. rewrite Ho. unfold of_result, mbind, stm_bind, mret, stm_ret. fold a1.
    destruct (decide (id ∈ a_bound_backend_ids a1)); [done|]. unfold call_m, call.
    by destruct (wm_assign_window id w (s_backend s)) as [[u|e] b']. }
  unfold reduces. rewrite E. destruct (decide (id ∈ a_bound_backend_ids a1)).
  - exists (s_backend s). rewrite same_backend. split; [by apply Hred|done].
  - destruct (wm_assign_window id w (s_backend s)) as [r b'] eqn:Hr. exists b'.
    destruct r as [u|e]; cbn.
    + split; [|done]. apply Hred; try done. by apply (authority_wf_ext a1).
    + split; [|done]. by exists id, w, (s_backend s), b'.
Qed.

(** The facts that change nothing admission keeps, its text count apart. *)
Definition quiet (ev : BackendPolicyEvent) : bool :=
  match ev with
  | WindowOpened _ _ _ | WindowClosed _ | TitleChanged _ _ | BindingPressed _ => false
  | _ => true
  end.

Lemma admit_quiet s replay ev v v' :
  quiet ev = true → admit_event s replay ev v = Ok v' →
  v_mapped v' = v_mapped v ∧ v_next_win_id v' = v_next_win_id v ∧ v_known v' = v_known v
  ∧ v_quit_seen v' = v_quit_seen v ∧ v_effects v' = v_effects v.
Proof.
  intros Hq Hv. destruct ev as [|i x y|i|i x|[i|]|x|w|i r|k|k|k| |old new];
    try discriminate; cbn [admit_event] in Hv;
    try (destruct (s_bindings s !! k) as [c|]; [|done]);
    repeat match type of Hv with rbind (require _ _) _ = _ => apply ensure_Ok in Hv as [_ Hv] end;
    by injection Hv as <-.
Qed.

Lemma quiet_ok s v v' t0 t t' ev :
  reduced v t0 t → quiet ev = true → admit_event s false ev v = Ok v' → neutral t t' →
  reduces (mret t') s (reduced v' t0).
Proof.
  intros Hr Hq Hv Hn. apply (admit_quiet s) in Hv as (? & ? & ? & ? & ?); [|done].
  apply reduces_ret. by apply (reduced_neutral v v' t0 t).
Qed.

(** [reduce_event] with the session it reads made explicit. *)
Definition reduce_event_in s (ev : BackendPolicyEvent) (t : ActiveTransaction) :
    event_m ActiveTransaction :=
  match ev with
  | WindowOpened id app_id title => reduce_open t id app_id title
  | WindowClosed id => of_result (reduce_close t id)
  | TitleChanged id text => of_result (reduce_title t id text)
  | FocusChanged f => mret (reduce_focus t f)
  | ExclusiveFocusChanged x => mret (reduce_exclusive t x)
  | WorkareaChanged w => mret (reduce_workarea t w)
  | GeometryDrifted _ _ => mret t
  | BindingPressed id => of_result (reduce_pressed s t id)
  | BindingReleased id | BindingRepeatStopped id => mret (reduce_released s t id)
  | UnboundKeyEaten => mret (reduce_unbound t)
  | ModifiersChanged _ new => mret (reduce_modifiers s t new)
  | InitialReplayComplete => raise RepeatedInitialReplayComplete
  end.

Lemma reduce_event_ok s t0 t v v' ev :
  reduced v t0 t → is_replay_barrier ev = false → admit_event s false ev v = Ok v' →
  reduces (reduce_event ev t) s (reduced v' t0).
Proof.
  intros Hr Hb Hv. change (reduces (reduce_event_in s ev t) s (reduced v' t0)).
  destruct ev as [|i x y|i|i x|f|x|w|i r|k|k|k| |old new]; try discriminate; cbn [reduce_event_in];
    try (refine (quiet_ok s v v' t0 t _ _ Hr _ Hv _); [done|]).
  - by apply reduce_open_ok with v.
  - destruct (reduce_close_ok s t0 t v v' i Hr Hv) as (t' & Ho & Hr').
    by apply (reduces_Ok _ s t').
  - destruct (reduce_title_ok s t0 t v v' i x Hr Hv) as (t' & Ho & Hr').
    by apply (reduces_Ok _ s t').
  - etransitivity; [|apply require_projection_neutral]. done.
  - etransitivity; [apply require_projection_neutral|]. done.
  - unfold reduce_workarea. by case_decide.
  - done.
  - destruct (reduce_pressed_ok s t0 t v v' k Hr Hv) as (t' & Ho & Hr').
    by apply (reduces_Ok _ s t').
  - unfold reduce_released. by repeat case_decide.
  - unfold reduce_released. by repeat case_decide.
  - unfold reduce_unbound. by case_decide.
  - unfold reduce_modifiers. by case_decide.
Qed.

(** Admission reads the bindings and the phase of the session only. *)
Lemma admit_events_ext s s' replay evs v :
  s_bindings s' = s_bindings s → s_phase s' = s_phase s →
  admit_events s' replay evs v = admit_events s replay evs v.
Proof.
  intros Eb Ep. revert v. induction evs as [|ev evs IH]; intros v; [done|]. cbn [admit_events].
  assert (admit_event s' replay ev v = admit_event s replay ev v) as ->
    by (destruct ev; cbn [admit_event]; by rewrite ?Eb, ?Ep).
  destruct (admit_event s replay ev v); cbn; auto.
Qed.

Lemma reduces_bind {A C} (m : event_m A) (k : A → event_m C) s (P : A → Prop) (Q : C → Prop) :
  reduces m s P → (∀ a b, P a → reduces (k a) (s <| s_backend := b |>) Q) →
  reduces (a ← m; k a) s Q.
Proof.
  intros (b & Hm) Hk. unfold reduces, mbind, stm_bind.
  destruct (m s) as [[a|e] s'].
  - destruct Hm as [Hp ->]. destruct (Hk a b Hp) as [b' Hb']. by exists b'.
  - by exists b.
Qed.

Lemma reduces_mono {A} (m : event_m A) s (P Q : A → Prop) :
  reduces m s P → (∀ a, P a → Q a) → reduces m s Q.
Proof.
  intros [b Hm] Hq. exists b. destruct (m s) as [[a|e] s']; [|done].
  destruct Hm as [Hp ->]. by split; [apply Hq|].
Qed.

Lemma reduces_and {A} (m : event_m A) s (P Q : A → Prop) :
  reduces m s P → (∀ a s', m s = (Ok a, s') → Q a) → reduces m s (λ a, P a ∧ Q a).
Proof.
  intros [b Hm] Hq. exists b. destruct (m s) as [[a|e] s'] eqn:E; [|done].
  destruct Hm as [Hp ->]. split_and!; [done|by eapply Hq|done].
Qed.

(** [reduces] as a weakest precondition. *)
Lemma reduces_wp {A} (m : event_m A) s (P : A → Prop) (Q : A → Session (B:=B) → Prop) R :
  reduces m s P → (∀ a b, P a → Q a (s <| s_backend := b |>)) →
  (∀ e b, refused e → R (Event_BackendContract e) (s <| s_backend := b |>)) → wp m Q R s.
Proof.
  intros [b Hm] HQ HR. unfold wp. destruct (m s) as [[a|[e|]] s'] eqn:E; [| |done].
  - destruct Hm as [Hp ->]. by apply HQ.
  - destruct e; try done. destruct Hm as [Hr ->]. by apply HR.
Qed.
End reduce.
