(* ===== verification/Replay.v ===== *)
(** * The initial replay

    At start-up the compositor replays its windows and the session reconciles
    them with the persisted ledger: windows that are gone leave it, known ones
    keep their id, new ones get fresh ids.  The two [expect]s of this code never
    fire. *)

From Stdlib Require Import ZArith Lia.
From stdpp Require Import prelude list gmap sorting.
From S2P Require Import Prelude Layout Ledger Projection Keys State Backend Snapshot Visible Authority AuthorityInv Session Reduce.

(** ** Collecting the facts *)

(** The identities opened by a list of facts. *)
Fixpoint opened_ids (evs : list BackendPolicyEvent) : gset (list N) :=
  match evs with
  | [] => ∅
  | WindowOpened id _ _ :: evs' => {[id]} ∪ opened_ids evs'
  | _ :: evs' => opened_ids evs'
  end.

Definition replay_ids (ws : list ReplayWindow) : gset (list N) := list_to_set (replay_id <$> ws).

Lemma upsert_replayed_ids w ws :
  replay_ids (upsert_replayed w ws) = {[replay_id w]} ∪ replay_ids ws.
Proof.
  unfold replay_ids. induction ws as [|x ws IH]; cbn [upsert_replayed].
  - cbn. set_solver.
  - case_decide as E; cbn [fmap list_fmap list_to_set].
    + rewrite E. set_solver.
    + rewrite IH. set_solver.
Qed.

Lemma upsert_replayed_NoDup w ws :
  NoDup (replay_id <$> ws) → NoDup (replay_id <$> upsert_replayed w ws).
Proof.
  induction ws as [|x ws IH]; cbn [upsert_replayed fmap list_fmap]; intros Hnd.
  - apply NoDup_singleton.
  - apply NoDup_cons in Hnd as [Hx Hnd]. case_decide as E; cbn [fmap list_fmap].
    + apply NoDup_cons. by rewrite <-E.
    + apply NoDup_cons. split; [|by apply IH]. intros Hin.
      assert (replay_id x ∈ replay_ids (upsert_replayed w ws)) as Hin'
        by (unfold replay_ids; by apply elem_of_list_to_set).
      rewrite upsert_replayed_ids in Hin'. unfold replay_ids in Hin'. set_solver.
Qed.

Lemma collect_replay_ok evs f x replayed focus exclusive :
  validate_replay_events evs f x = Ok tt → NoDup (replay_id <$> replayed) →
  ∃ replayed' focus' exclusive',
    collect_replay evs (replayed, focus, exclusive) = Ok (replayed', focus', exclusive')
    ∧ NoDup (replay_id <$> replayed')
    ∧ replay_ids replayed' = opened_ids evs ∪ replay_ids replayed.
Proof.
  revert f x replayed focus exclusive.
  induction evs as [|ev evs IH]; intros f x replayed focus exclusive Hv Hnd.
  { exists replayed, focus, exclusive. split_and!; [done|done|cbn; set_solver]. }
  destruct ev as [|i a y|i|i a|g|y|w|i r|k|k|k| |old new];
    cbn [validate_replay_events collect_replay opened_ids] in *; try discriminate; eauto.
  - destruct (IH f x (upsert_replayed (mk_replay_window i (visible_metadata a y)) replayed)
      focus exclusive Hv) as (r' & f' & x' & Hc & Hnd' & Hids); [by apply upsert_replayed_NoDup|].
    exists r', f', x'. split_and!; [done|done|].
    rewrite Hids, upsert_replayed_ids. cbn. set_solver.
  - destruct (1 <? S f); [done|]. eauto.
  - destruct (1 <? S x); [done|]. eauto.
Qed.

(** Admission reserved an id for every identity it had not seen. *)
Lemma admit_replay_count {B} (s : Session (B:=B)) evs v v' f x :
  validate_replay_events evs f x = Ok tt → admit_events s true evs v = Ok v' →
  (v_next_win_id v <= u64_max)%N →
  v_mapped v' = opened_ids evs ∪ v_mapped v
  ∧ (v_next_win_id v' = v_next_win_id v + N.of_nat (size (opened_ids evs ∖ v_mapped v)))%N
  ∧ (v_next_win_id v' <= u64_max)%N.
Proof.
  revert v f x. induction evs as [|ev evs IH]; intros v f x Hr Hv Hle.
  { cbn in Hv. injection Hv as <-. cbn. split_and!; [set_solver| |done].
    assert (∅ ∖ v_mapped v = (∅ : gset (list N))) as -> by set_solver. rewrite size_empty. lia. }
  cbn [admit_events] in Hv. apply rbind_Ok in Hv as (v1 & Hv1 & Hv).
  destruct ev as [|i a y|i|i a|g|y|w|i r|k|k|k| |old new];
    cbn [validate_replay_events opened_ids] in *; try discriminate.
  - apply (admit_quiet s) in Hv1 as (Em & En & _); [|done].
    rewrite <-Em, <-En in *. by eapply IH.
  - apply (admit_open s) in Hv1 as (_ & _ & _ & Em & Hcase).
    destruct Hcase as [[Hin En]|(Hnin & Hmax & En)].
    + destruct (IH v1 f x Hr Hv) as (Hm & Hn & Hl); [by rewrite En|].
      rewrite Hm, Em. split_and!; [set_solver| |done].
      rewrite Hn, En, Em. do 3 f_equal. set_solver.
    + destruct (IH v1 f x Hr Hv) as (Hm & Hn & Hl); [lia|].
      rewrite Hm, Em. split_and!; [set_solver| |done]. rewrite Hn, En, Em.
      assert (({[i]} ∪ opened_ids evs) ∖ v_mapped v
        = {[i]} ∪ opened_ids evs ∖ ({[i]} ∪ v_mapped v)) as ->.
      { apply set_eq. intros j. destruct (decide (j = i)) as [->|]; set_solver. }
      pose proof (size_union ({[i]} : gset (list N)) (opened_ids evs ∖ ({[i]} ∪ v_mapped v)) ltac:(set_solver)) as Hsz.
      rewrite Hsz, size_singleton. lia.
  - destruct (1 <? S f); [done|]. apply (admit_quiet s) in Hv1 as (Em & En & _); [|done].
    rewrite <-Em, <-En in *. by eapply IH.
  - destruct (1 <? S x); [done|]. apply (admit_quiet s) in Hv1 as (Em & En & _); [|done].
    rewrite <-Em, <-En in *. by eapply IH.
Qed.

(** ** The order of the windows that stay *)

(** The windows of [K], orbit by orbit, in ledger order. *)
Definition order (K : gset N) (os : list Orbit) : list (list WinId) :=
  (λ o, filter (.∈ K) (windows o)) <$> os.

Lemma order_alter K f k os :
  (∀ o, os !! k = Some o → filter (.∈ K) (windows (f o)) = filter (.∈ K) (windows o)) →
  order K (alter f k os) = order K os.
Proof.
  revert k. induction os as [|o os IH]; intros [|k] Hf; cbn; [done|done| |]; f_equal.
  - by apply Hf.
  - by apply IH.
Qed.

Lemma filter_insert_other (K : gset N) w k (ws : list N) :
  w ∉ K → filter (.∈ K) (vec_insert k w ws) = filter (.∈ K) ws.
Proof.
  intros Hw. unfold vec_insert. rewrite <-(take_drop k ws) at 3.
  by rewrite !filter_app, filter_cons_False.
Qed.

Lemma filter_remove_other (K : gset N) w k (ws : list N) :
  w ∉ K → ws !! k = Some w → filter (.∈ K) (vec_remove k ws) = filter (.∈ K) ws.
Proof.
  intros Hw Hk. unfold vec_remove. rewrite <-(take_drop_middle ws k w Hk) at 3.
  by rewrite !filter_app, filter_cons_False.
Qed.

Lemma order_summon (K : gset N) w k l : w ∉ K → order K (orbits (summon w k l)) = order K (orbits l).
Proof.
  intros Hw. unfold summon. destruct (orbit_of l w); [done|].
  apply order_alter. intros o _. by apply filter_insert_other.
Qed.

Lemma order_banish (K : gset N) w l : w ∉ K → order K (orbits (snd (banish w l))) = order K (orbits l).
Proof.
  intros Hw. unfold banish. destruct (orbit_of l w) as [id|]; [|done]. cbv zeta.
  destruct (position w _) as [k|] eqn:Hk; [|done]. apply position_Some in Hk.
  apply order_alter. intros o Ho. apply (orbit_lookup l) in Ho.
  change (orbit (discard_undo_history l) id) with (orbit l id) in Hk. rewrite Ho in Hk.
  by apply (filter_remove_other K w).
Qed.

(** ** Forgetting what is gone *)

Section replay.
Context {B : Type} `{WmBackend B}.
Implicit Types (s : Session (B:=B)) (a : AuthorityState).

Lemma reconcile_windows_ok s rids ws a :
  authority_wf a → NoDup ws → (∀ w, w ∈ ws → ∃ i, a_backend_ids a !! i = Some w) →
  ∃ a', reconcile_windows rids ws a s = (Ok a', s)
    ∧ authority_wf a' ∧ a_next_win_id a' = a_next_win_id a
    ∧ (∀ i w, a_backend_ids a' !! i = Some w ↔
        a_backend_ids a !! i = Some w ∧ (w ∈ ws → i ∈ rids))
    ∧ ∀ K, (∀ i w, a_backend_ids a !! i = Some w → i ∉ rids → w ∉ K) →
        order K (orbits (a_ledger a')) = order K (orbits (a_ledger a)).
Proof.
  intros Ha Hnd. revert a Ha. induction Hnd as [|w ws Hw Hnd IH]; intros a Ha Hin.
  { exists a. split_and!; [done|done|done| |done]. intros i w. split; [|by intros [? _]].
    intros Hi. split; [done|]. by intros ?%elem_of_nil. }
  destruct (Hin w) as [i Hi]; [apply list_elem_of_here|].
  assert (find_backend_id a w = Some i) as Hfind.
  { apply find_first_entry; [|done]. intros j k. by apply (aw_inj a Ha). }
  set (a1 := if decide (i ∈ rids) then a
             else set a_ledger (λ l, snd (banish w l)) (set a_backend_ids (delete i) a)).
  assert (authority_wf a1 ∧ a_next_win_id a1 = a_next_win_id a
    ∧ (∀ j u, a_backend_ids a1 !! j = Some u ↔ a_backend_ids a !! j = Some u ∧ (u = w → j ∈ rids))
    ∧ ∀ K, (∀ j u, a_backend_ids a !! j = Some u → j ∉ rids → u ∉ K) →
        order K (orbits (a_ledger a1)) = order K (orbits (a_ledger a)))
    as (Ha1 & Hn1 & Hi1 & Ho1).
  { unfold a1. case_decide as Hr.
    - split_and!; [done|done| |done]. intros j u. split; [|by intros [? _]]. intros Hj. split; [done|].
      intros ->. by rewrite (aw_inj a Ha j i w).
    - split_and!; [by apply authority_wf_gone|done| |intros K HK; by apply order_banish, (HK i)].
      intros j u. cbn. rewrite lookup_delete_Some.
      split; [intros [Hne Hj]; split; [done|]|intros [Hj Hju]; split; [|done]].
      + intros ->. exfalso. apply Hne. by eapply (aw_inj a Ha).
      + intros <-. apply Hr, Hju. congruence. }
  destruct (IH a1 Ha1) as (a' & Hrun & Ha' & Hn' & Hi' & Ho').
  { intros u Hu. destruct (Hin u) as [j Hj]; [by apply list_elem_of_further|]. exists j.
    apply Hi1. split; [done|]. by intros ->. }
  exists a'. split_and!; [|done|congruence| |].
  - cbn [reconcile_windows]. unfold reconcile_window. rewrite Hfind.
    unfold mbind, stm_bind, expect, mret, stm_ret. fold a1. exact Hrun.
  - intros j u. rewrite Hi', Hi1, elem_of_cons. naive_solver.
  - intros K HK. rewrite Ho', Ho1; [done|exact HK|]. intros j u [Hj _]%Hi1. by apply HK.
Qed.

(** ** Adopting what is there *)

Lemma adopt_ok s id a :
  authority_wf a → (a_backend_ids a !! id = None → (a_next_win_id a < u64_max)%N) →
  ∃ w a', adopt_id id a s = (Ok (w, a'), s) ∧ authority_wf a'
    ∧ a_backend_ids a' = <[id := w]> (a_backend_ids a) ∧ a_windows a' = a_windows a
    ∧ (a_backend_ids a !! id = None → w = a_next_win_id a)
    ∧ (∀ u, a_backend_ids a !! id = Some u → w = u)
    ∧ a_next_win_id a'
      = (a_next_win_id a + if decide (a_backend_ids a !! id = None) then 1 else 0)%N
    ∧ ∀ K, (∀ u, u ∈ K → (u < a_next_win_id a)%N) →
        order K (orbits (a_ledger a')) = order K (orbits (a_ledger a)).
Proof.
  intros Ha Hmax. unfold adopt_id. destruct (a_backend_ids a !! id) as [w|] eqn:Hid.
  - exists w, a. split_and!; try done; [by rewrite insert_id|congruence|].
    rewrite decide_False by done. lia.
  - specialize (Hmax eq_refl). eexists _, _. split.
    { unfold u64_checked_add. rewrite (proj2 (N.leb_le _ _)) by lia. reflexivity. }
    split; [|split_and!; [done|done|done|done|by rewrite decide_True|]].
    2:{ intros K HK. apply order_summon. intros Hin. specialize (HK _ Hin). lia. }
    apply (authority_wf_ext (set a_ledger
      (λ _, summon (a_next_win_id a) (active (a_ledger a)) (a_ledger a))
      (set a_backend_ids (insert id (a_next_win_id a)) (a <| a_next_win_id := (a_next_win_id a + 1)%N |>))));
      try done.
    apply authority_wf_fresh; try done. lia.
Qed.

Lemma filter_ext_in {A} (P Q : A → Prop) `{∀ x, Decision (P x), ∀ x, Decision (Q x)} (l : list A) :
  (∀ x, x ∈ l → P x ↔ Q x) → filter P l = filter Q l.
Proof.
  induction l as [|x l IH]; intros Hiff; [done|]. rewrite !filter_cons, IH.
  - specialize (Hiff x (list_elem_of_here x l)). repeat case_decide; tauto.
  - intros y Hy. by apply Hiff, list_elem_of_further.
Qed.

Definition unknown_ids a (ids : list (list N)) : nat :=
  length (filter (λ id, a_backend_ids a !! id = None) ids).

(** What a replayed list of windows leaves. *)
Definition replayed_onto (ws : list ReplayWindow) a a' : Prop :=
  authority_wf a'
  ∧ (∀ i, i ∉ replay_ids ws → a_backend_ids a' !! i = a_backend_ids a !! i)
  ∧ (∀ i u, a_backend_ids a !! i = Some u → a_backend_ids a' !! i = Some u)
  ∧ (∀ w, w ∈ ws → ∃ u, a_backend_ids a' !! replay_id w = Some u
       ∧ a_windows a' !! u = Some (replay_metadata w))
  ∧ (∀ u, (∀ i, i ∈ replay_ids ws → a_backend_ids a' !! i ≠ Some u) →
       a_windows a' !! u = a_windows a !! u)
  ∧ (∀ K, (∀ u, u ∈ K → (u < a_next_win_id a)%N) →
       order K (orbits (a_ledger a')) = order K (orbits (a_ledger a))).

Lemma replay_windows_ok s ws a :
  authority_wf a → NoDup (replay_id <$> ws) →
  (a_next_win_id a + N.of_nat (unknown_ids a (replay_id <$> ws)) <= u64_max)%N →
  reduces (replay_windows ws a) s (replayed_onto ws a).
Proof.
  intros Ha Hnd. revert s a Ha. induction ws as [|w ws IH]; intros s a Ha Hn.
  { apply reduces_ret. split_and!; try done. by intros w ?%elem_of_nil. }
  cbn [fmap list_fmap] in *. apply NoDup_cons in Hnd as [Hw Hnd].
  destruct (adopt_ok s (replay_id w) a Ha) as (u & a1 & Hrun & Ha1 & Hi1 & Hw1 & Hnew & Hold & Hn1 & Ho1).
  { intros Hid. unfold unknown_ids in Hn. rewrite filter_cons_True in Hn by done. cbn in Hn. lia. }
  set (a2 := set a_bound_backend_ids (union {[replay_id w]})
               (set a_windows (insert u (replay_metadata w)) a1)).
  apply (reduces_bind _ _ _ (λ a', a' = a2)).
  { unfold reduces, replay_window, mbind, stm_bind. rewrite Hrun. unfold call_m, call.
    destruct (wm_assign_window (replay_id w) u (s_backend s)) as [[[]|e] b'] eqn:Hr; exists b'; cbn.
    - done.
    - split; [|done]. by exists (replay_id w), u, (s_backend s), b'. }
  intros ? b ->.
  change (reduces (replay_windows ws a2) (s <| s_backend := b |>) (replayed_onto (w :: ws) a)).
  assert (authority_wf a2) as Ha2 by (by apply (authority_wf_ext a1)).
  assert (a_backend_ids a2 = <[replay_id w := u]> (a_backend_ids a)) as Hi2 by done.
  assert (unknown_ids a2 (replay_id <$> ws) = unknown_ids a (replay_id <$> ws)) as Hu.
  { unfold unknown_ids. f_equal. apply filter_ext_in. intros i Hi. rewrite Hi2.
    rewrite lookup_insert_ne; [done|]. by intros <-. }
  destruct (IH Hnd (s <| s_backend := b |>) a2 Ha2) as [b' Hres].
  { rewrite Hu. change (a_next_win_id a2) with (a_next_win_id a1). rewrite Hn1.
    unfold unknown_ids in *. destruct (decide (a_backend_ids a !! replay_id w = None)) as [Hd|Hd].
    - rewrite filter_cons_True in Hn by done. cbn in Hn. lia.
    - rewrite filter_cons_False in Hn by done. lia. }
  unfold reduces. exists b'. destruct (replay_windows ws a2 _) as [[a'|e] s']; [|exact Hres].
  destruct Hres as [(Hwf & Hout & Hkeep & Hin & Hwin & Hord) ->]. split; [|done].
  assert (∀ i v, a_backend_ids a !! i = Some v → a_backend_ids a2 !! i = Some v) as Hkeep2.
  { intros i v Hi. rewrite Hi2. destruct (decide (i = replay_id w)) as [->|].
    - rewrite lookup_insert_eq. f_equal. by apply Hold.
    - by rewrite lookup_insert_ne. }
  split_and!; [done| | | | |].
  - intros i Hi. unfold replay_ids in *. cbn [fmap list_fmap list_to_set] in Hi.
    rewrite Hout by set_solver. rewrite Hi2, lookup_insert_ne; [done|set_solver].
  - eauto.
  - assert (a_backend_ids a' !! replay_id w = Some u) as Hu2
      by (apply Hkeep; by rewrite Hi2, lookup_insert_eq).
    intros w' [->|Hw']%elem_of_cons; [|by apply Hin]. exists u. split; [done|].
    rewrite Hwin; [cbn; apply lookup_insert_eq|]. intros i Hi Hiu.
    apply Hw. rewrite (aw_inj a' Hwf _ i u Hu2 Hiu). unfold replay_ids in Hi.
    by apply elem_of_list_to_set in Hi.
  - intros v Hv. assert (a_backend_ids a' !! replay_id w = Some u) as Hu2
      by (apply Hkeep; by rewrite Hi2, lookup_insert_eq).
    rewrite Hwin; [|intros i Hi; apply Hv; unfold replay_ids in *; cbn; set_solver].
    cbn. rewrite Hw1, lookup_insert_ne; [done|]. intros <-.
    apply (Hv (replay_id w)); [unfold replay_ids; cbn; set_solver|done].
  - intros K HK. rewrite Hord, Ho1; [done|exact HK|]. intros v Hv. specialize (HK v Hv).
    change (a_next_win_id a2) with (a_next_win_id a1). rewrite Hn1. lia.
Qed.

(** ** The whole replay *)

(** What the replay leaves of the authority [a]: its windows are exactly the
    replayed ones, each described; the persisted ones among them keep their id. *)
Record reconciled (evs : list BackendPolicyEvent) a a' : Prop := {
  rc_wf : authority_wf a';
  rc_dom : ∀ i, is_Some (a_backend_ids a' !! i) ↔ i ∈ opened_ids evs;
  rc_keep : ∀ i w, i ∈ opened_ids evs → a_backend_ids a !! i = Some w → a_backend_ids a' !! i = Some w;
  rc_described : ∀ i w, a_backend_ids a' !! i = Some w → is_Some (a_windows a' !! w);
  rc_only : ∀ w, (∀ i, a_backend_ids a' !! i ≠ Some w) → a_windows a' !! w = None;
  rc_undo : history (a_ledger a') = [] ∧ redo_stack (a_ledger a') = [];
  rc_workarea : a_workarea a' = None;
  rc_order : ∀ K, (∀ w, w ∈ K → ∃ i, i ∈ opened_ids evs ∧ a_backend_ids a !! i = Some w) →
    order K (orbits (a_ledger a')) = order K (orbits (a_ledger a))
}.

Definition replay_reduced (evs : list BackendPolicyEvent) (t t' : ActiveTransaction) : Prop :=
  reconciled evs (t_working t) (t_working t')
  ∧ t_bootstrap t' = true ∧ t_visible t' = t_visible t
  ∧ t_staged_effects t' = t_staged_effects t ∧ t_quit_staged t' = t_quit_staged t
  ∧ t_projection_submitted t' = t_projection_submitted t
  ∧ t_repeat_timer t' = t_repeat_timer t ∧ t_repeat_candidate t' = t_repeat_candidate t
  ∧ t_original_action_result t' = t_original_action_result t.

Lemma replay_ids_unknown a ws :
  NoDup (replay_id <$> ws) →
  unknown_ids a (replay_id <$> ws) = size (replay_ids ws ∖ dom (a_backend_ids a)).
Proof.
  intros Hnd. unfold unknown_ids.
  rewrite <-(size_list_to_set (C:=gset (list N))) by (by apply NoDup_filter).
  f_equal. apply set_eq. intros i.
  rewrite elem_of_list_to_set, list_elem_of_filter, elem_of_difference, not_elem_of_dom.
  unfold replay_ids. rewrite elem_of_list_to_set. tauto.
Qed.

Lemma reduce_initial_replay_ok s t evs v0 v :
  validate_replay_events evs 0 0 = Ok tt → admit_events s true evs v0 = Ok v →
  v_mapped v0 = dom (a_backend_ids (t_working t)) →
  v_next_win_id v0 = a_next_win_id (t_working t) → authority_wf (t_working t) →
  reduces (reduce_initial_replay t evs) s (replay_reduced evs t).
Proof.
  intros Hr Hv Hm Hn Ha. set (a := t_working t) in *.
  destruct (collect_replay_ok evs 0 0 [] None false Hr) as (ws & f & x & Hc & Hnd & Hids);
    [by apply NoDup_nil_2|].
  assert (replay_ids ws = opened_ids evs) as Hids' by (rewrite Hids; set_solver). clear Hids.
  destruct (admit_replay_count s evs v0 v 0 0 Hr Hv) as (_ & Hcount & Hmax).
  { rewrite Hn. apply Ha. }
  rewrite Hm, Hn, <-Hids', <-replay_ids_unknown in Hcount by done.
  unfold reduce_initial_replay. rewrite Hc. fold a.
  apply (reduces_bind _ _ _ (λ acc, acc = (ws, f, x))); [by apply reduces_ret|].
  intros ? b0 ->. generalize (s <| s_backend := b0 |>). clear s b0 Hv. intros s.
  cbv beta iota zeta. fold (unknown_ids a (replay_id <$> ws)).
  rewrite (proj2 (N.ltb_ge _ _)) by lia.
  destruct (reconcile_windows_ok s (replay_id <$> ws) (all_windows (orbits (a_ledger a))) a Ha)
    as (a1 & Hrec & Ha1 & Hn1 & Hi1 & Ho1); [apply Ha|by intros w Hw; apply (aw_cover a Ha)|].
  apply (reduces_bind _ _ _ (λ a', a' = a1)).
  { exists (s_backend s). by rewrite Hrec, same_backend. }
  intros ? b1 ->. set (a2 := a1 <| a_windows := ∅ |> <| a_bound_backend_ids := ∅ |>).
  assert (∀ i, i ∈ opened_ids evs → a_backend_ids a2 !! i = a_backend_ids a !! i) as Hin.
  { intros i Hi. apply option_eq. intros w. change (a_backend_ids a2) with (a_backend_ids a1).
    rewrite Hi1. split; [by intros [? _]|]. intros Hw. split; [done|]. intros _.
    rewrite <-Hids' in Hi. unfold replay_ids in Hi. by apply elem_of_list_to_set in Hi. }
  assert (∀ i, i ∉ opened_ids evs → a_backend_ids a2 !! i = None) as Hout.
  { intros i Hi. apply eq_None_not_Some. intros [w [Hw Hwi]%Hi1]. apply Hi.
    rewrite <-Hids'. apply elem_of_list_to_set, Hwi, (aw_cover a Ha). eauto. }
  apply (reduces_bind _ _ _ (replayed_onto ws a2)).
  { apply replay_windows_ok; [by apply (authority_wf_ext a1)|done|].
    rewrite replay_ids_unknown, Hids' by done. change (a_next_win_id a2) with (a_next_win_id a1).
    rewrite Hn1. rewrite replay_ids_unknown, Hids' in Hcount by done.
    assert (opened_ids evs ∖ dom (a_backend_ids a2) = opened_ids evs ∖ dom (a_backend_ids a)) as ->; [|lia].
    apply set_eq. intros i. rewrite !elem_of_difference, !not_elem_of_dom.
    split; intros [Hi Hi2]; (split; [done|]); specialize (Hin i Hi); congruence. }
  intros a3 b2 (Ha3 & Hout3 & Hkeep3 & Hws3 & Hwin3 & Hord3).
  assert (∀ i, i ∈ opened_ids evs → ∃ u m, a_backend_ids a3 !! i = Some u ∧ a_windows a3 !! u = Some m) as Hall.
  { intros i Hi. rewrite <-Hids' in Hi. apply elem_of_list_to_set, list_elem_of_fmap in Hi as (w & -> & Hw).
    destruct (Hws3 w Hw) as (u & ? & ?). eauto. }
  assert (∀ i, i ∉ opened_ids evs → a_backend_ids a3 !! i = None) as Hnone.
  { intros i Hi. rewrite Hout3; [by apply Hout|by rewrite Hids']. }
  apply reduces_ret. split_and!; try done. constructor; cbn; try done.
  - eapply (authority_wf_ext (set a_ledger discard_undo_history a3)); try done.
    apply authority_wf_ledger; [done|]. split; [apply discard_wf, Ha3|done].
  - intros i. destruct (decide (i ∈ opened_ids evs)) as [Hi|Hi].
    + destruct (Hall i Hi) as (u & m & Hu & _). rewrite Hu. split; [done|eauto].
    + rewrite Hnone by done. split; [by intros [? [=]]|done].
  - intros i w Hi Hw. apply Hkeep3. by rewrite Hin.
  - intros i w Hw. destruct (decide (i ∈ opened_ids evs)) as [Hi|Hi].
    + destruct (Hall i Hi) as (u & m & Hu & Hmu). assert (u = w) as -> by congruence. eauto.
    + rewrite Hnone in Hw; done.
  - intros w Hw. rewrite Hwin3; [done|]. intros i _. apply Hw.
  - intros K HK. change (order K (orbits (a_ledger a3)) = order K (orbits (a_ledger a))).
    rewrite Hord3, <-(Ho1 K); [done| |].
    + intros i w Hw Hi HwK. destruct (HK w HwK) as (j & Hj & Hjw).
      rewrite (aw_inj a Ha i j w Hw Hjw) in Hi. apply Hi. rewrite <-Hids' in Hj.
      by apply elem_of_list_to_set in Hj.
    + intros w HwK. destruct (HK w HwK) as (j & _ & Hjw). change (a_next_win_id a2) with (a_next_win_id a1).
      rewrite Hn1. by apply (aw_below a Ha j).
Qed.
End replay.
