(* ===== verification/SessionInv.v ===== *)
(** * The invariant of a session

    What holds of every session between two calls, the frame of the private
    changes a failed call may leave, and the finalisation of a transaction. *)

From Stdlib Require Import ZArith Lia Sorted.
From stdpp Require Import prelude list gmap sorting.
From S2P Require Import Prelude Layout Ledger Projection Keys State Backend Snapshot Visible Authority Hoare AuthorityInv Session.

(** ** The bindings of a snapshot *)

Lemma insert_binding_perm b l : insert_binding b l ≡ₚ b :: l.
Proof.
  induction l as [|c l IH]; [done|]. cbn [insert_binding]. case_match; [done|].
  rewrite IH. constructor.
Qed.

Lemma sort_bindings_perm l : sort_bindings l ≡ₚ l.
Proof.
  unfold sort_bindings. induction l as [|b l IH]; [done|]. cbn [foldr].
  by rewrite insert_binding_perm, IH.
Qed.

Lemma insert_binding_sorted b l :
  StronglySorted N.le (win_id <$> l) → StronglySorted N.le (win_id <$> insert_binding b l).
Proof.
  induction l as [|c l IH]; cbn [insert_binding]; intros Hs.
  - repeat constructor.
  - apply StronglySorted_inv in Hs as [Hs Hall]. destruct (N.leb_spec (win_id b) (win_id c)).
    + constructor; [by constructor|]. constructor; [done|].
      eapply Forall_impl; [exact Hall|]. intros w Hw. cbn in Hw. lia.
    + cbn [fmap list_fmap]. constructor; [by apply IH|].
      rewrite insert_binding_perm. constructor; [lia|done].
Qed.

Lemma sort_bindings_sorted l :
  NoDup (win_id <$> l) → StronglySorted N.lt (win_id <$> sort_bindings l).
Proof.
  intros Hnd. rewrite <-(sort_bindings_perm l) in Hnd. 
  assert (StronglySorted N.le (win_id <$> sort_bindings l)) as Hs.
  { clear Hnd. unfold sort_bindings. induction l as [|b l IH]; [constructor|].
    by apply insert_binding_sorted. }
  induction Hs as [|w ws Hs IH Hall]; [constructor|].
  apply NoDup_cons in Hnd as [Hw Hnd]. constructor; [by apply IH|].
  apply Forall_forall. intros u Hu. rewrite Forall_forall in Hall. specialize (Hall u Hu). cbn in Hall.
  assert (w ≠ u) by (by intros ->). lia.
Qed.

Section inv.
Context {B : Type} `{WmBackend B}.
Implicit Types (s : Session (B:=B)) (t : ActiveTransaction) (a : AuthorityState).

Definition entry_binding (p : list N * N) : SnapshotBinding := mk_snapshot_binding (snd p) (fst p).

Lemma current_bindings_elem s b :
  b ∈ current_bindings s ↔ s_backend_ids s !! backend_id b = Some (win_id b).
Proof.
  unfold current_bindings. rewrite sort_bindings_perm, list_elem_of_fmap. split.
  - intros (p & -> & Hp). by apply id_entries_elem in Hp.
  - intros Hb. exists (backend_id b, win_id b). split; [by destruct b|by apply id_entries_elem].
Qed.

Lemma id_entries_NoDup (m : gmap (list N) N) : NoDup ((id_entries m).*1).
Proof. unfold id_entries. rewrite merge_sort_Permutation. apply NoDup_fst_map_to_list. Qed.

Lemma current_bindings_ids s : NoDup (backend_id <$> current_bindings s).
Proof.
  unfold current_bindings. rewrite sort_bindings_perm, <-list_fmap_compose. apply id_entries_NoDup.
Qed.

Lemma current_bindings_sorted s :
  (∀ i j w, s_backend_ids s !! i = Some w → s_backend_ids s !! j = Some w → i = j) →
  StronglySorted N.lt (win_id <$> current_bindings s).
Proof.
  intros Hinj. apply sort_bindings_sorted. rewrite <-list_fmap_compose.
  apply NoDup_fmap_2_strong.
  - intros [i v] [j w] Hi Hj E. cbn in E. subst.
    apply id_entries_elem in Hi, Hj. cbn in *. f_equal. by eapply Hinj.
  - apply (NoDup_fmap_1 fst), id_entries_NoDup.
Qed.

(** The snapshot of a session's ledger, and the one [snapshot] yields. *)
Definition ledger_snapshot s : SessionSnapshotV1 :=
  mk_session_snapshot SNAPSHOT_SCHEMA_VERSION PROTOCOL_VERSION
    (discard_undo_history (s_ledger s)) (current_bindings s) (s_next_win_id s) (active (s_ledger s)).

Definition committed_snapshot s : option SessionSnapshotV1 :=
  if decide (s_phase s = Live) then Some (ledger_snapshot s) else None.

Lemma current_snapshot_valid s :
  authority_wf (current_authority s) →
  SessionSnapshotV1_new (s_ledger s) (current_bindings s) (s_next_win_id s)
  = Ok (mk_session_snapshot SNAPSHOT_SCHEMA_VERSION PROTOCOL_VERSION
          (discard_undo_history (s_ledger s)) (current_bindings s) (s_next_win_id s)
          (active (s_ledger s))).
Proof.
  intros [Hl Hi Hc Hb Hn]. cbn in *. apply snapshot_new_Ok. split; [done|]. split_and!; cbn; try done.
  - apply Hl.
  - intros w (i & Hw)%Hc. eauto.
  - by apply current_bindings_sorted.
  - apply current_bindings_ids.
  - intros w. rewrite list_elem_of_fmap. setoid_rewrite current_bindings_elem. rewrite Hc. split.
    + intros (b & -> & Hw). eauto.
    + intros [i Hw]. by exists (mk_snapshot_binding w i).
Qed.

Lemma snapshot_run {E} s :
  authority_wf (current_authority s) → snapshot (E:=E) s = (Ok (committed_snapshot s), s).
Proof.
  intros Ha. unfold snapshot, snapshot_result, committed_snapshot.
  case_decide; [|done]. by rewrite current_snapshot_valid.
Qed.

(** ** The invariant *)

Definition starting (p : SessionLifecyclePhase) : bool :=
  match p with InitialReplay | FinalizingReplay => true | _ => false end.

Definition phase_rank (p : SessionLifecyclePhase) : nat :=
  match p with
  | InitialReplay => 0 | FinalizingReplay => 1 | Live => 2 | PhaseQuitPending => 3
  | ShuttingDown => 4 | Exiting => 5 | ExitComplete => 6
  end.

Definition pending_ticket s : option BackendTicket :=
  match s_transaction s with
  | Idle => None
  | AwaitingExternalTurn k | AwaitingInternalTurn k | InFlight k | AwaitingDrain k => Some k
  end.

(** A transaction arms no timer before it is finalised, has a candidate only in a
    live session, and cancels the timer without a candidate only when the repeating
    key was released. *)
Definition repeat_pending s t : Prop :=
  (∀ d i, t_repeat_timer t ≠ Timer_Arm d i)
  ∧ (s_phase s ≠ Live → t_repeat_candidate t = None)
  ∧ (t_repeat_timer t = Timer_Disarm → t_repeat_candidate t = None → t_quit_staged t = false →
     ∀ id, s_repeat_target s = Some id → id ∉ a_held_bindings (t_working t)).

(** Where the quits among the effects wait. *)
Definition quit_points (effects : list SessionEffect) : list QuitAfter :=
  omap (λ e, match e with Effect_QuitPending after => Some after | _ => None end) effects.

(** A quit waits for the action the transaction was requested by, if there is one. *)
Definition quit_after t : QuitAfter :=
  match t_original_action_result t with None => NoRequester | Some (k, _) => OriginalAction k end.

(** At most one quit is staged, and nothing before the session is live. *)
Definition staged_ok s t : Prop :=
  quit_points (t_staged_effects t) = (if t_quit_staged t then [quit_after t] else [])
  ∧ (s_phase s ≠ Live → t_staged_effects t = []).

(** Only a live session has been asked for an action, and none has failed. *)
Definition requested_ok s t : Prop :=
  ∀ k r, t_original_action_result t = Some (k, r) → r = Ok tt ∧ s_phase s = Live.

(** A private transaction of [s]. *)
Record transaction_wf s t : Prop := {
  tw_working : authority_wf (t_working t);
  tw_visible : t_visible t = s_state s;
  tw_effects : length (t_staged_effects t) ≤ MAX_STAGED_EFFECTS;
  tw_bootstrap : t_bootstrap t = true → s_phase s = FinalizingReplay;
  tw_repeat : repeat_pending s t;
  tw_staged : staged_ok s t;
  tw_requested : requested_ok s t
}.

(** The key that repeats is held, enabled and bound to a repeatable action. *)
Definition repeat_ok s : Prop := ∀ id, s_repeat_target s = Some id →
  id ∈ s_held_bindings s ∧ id ∈ enabled (s_binding_state s)
  ∧ ∃ c, s_bindings s !! id = Some c ∧ repeatable c = true.

Record session_wf s : Prop := {
  sw_authority : authority_wf (current_authority s);
  sw_idle : s_active s = None ↔ s_transaction s = Idle;
  sw_active : ∀ t, s_active s = Some t → transaction_wf s t;
  sw_ticket : (s_last_backend_ticket s <= u64_max)%N;
  sw_pending : ∀ k, pending_ticket s = Some k → (Npos k <= s_last_backend_ticket s)%N;
  sw_quit : quitting (s_phase s) = true → s_transaction s = Idle;
  sw_replay : s_phase s = InitialReplay → s_transaction s = Idle;
  sw_repeat : repeat_ok s;
  sw_state : starting (s_phase s) = true → s_state s = RealmState_default
}.

(** ** Private changes *)

(** [s'] differs from [s] in nothing but the backend, the private transaction,
    the last ticket and the last turn. *)
Definition only_private s s' : Prop :=
  s' = s <| s_backend := s_backend s' |> <| s_active := s_active s' |>
         <| s_transaction := s_transaction s' |>
         <| s_last_backend_ticket := s_last_backend_ticket s' |>
         <| s_last_policy_turn := s_last_policy_turn s' |>.

#[export] Instance only_private_preorder : PreOrder only_private.
Proof.
  split; [by intros []|]. intros s1 s2 s3 E1 E2. unfold only_private in *.
  rewrite E2 at 1. rewrite E1 at 1. reflexivity.
Qed.

Lemma only_private_fields s s' :
  only_private s s' →
  current_authority s' = current_authority s ∧ s_phase s' = s_phase s ∧ s_state s' = s_state s
  ∧ s_bindings s' = s_bindings s ∧ s_binding_order s' = s_binding_order s
  ∧ s_binding_state s' = s_binding_state s
  ∧ s_repeat_target s' = s_repeat_target s ∧ s_held_bindings s' = s_held_bindings s
  ∧ s_last_projection s' = s_last_projection s ∧ s_exit_attempted s' = s_exit_attempted s
  ∧ s_modifier_label s' = s_modifier_label s.
Proof. intros ->. done. Qed.

Lemma only_private_snapshot s s' : only_private s s' → committed_snapshot s' = committed_snapshot s.
Proof. by intros ->. Qed.

(** A private change keeps the invariant when the new transaction has it. *)
Lemma session_wf_private s s' :
  session_wf s → only_private s s' →
  (s_active s' = None ↔ s_transaction s' = Idle) →
  (∀ t, s_active s' = Some t → transaction_wf s t) →
  (s_last_backend_ticket s' <= u64_max)%N →
  (∀ k, pending_ticket s' = Some k → (Npos k <= s_last_backend_ticket s')%N) →
  (quitting (s_phase s) = true → s_transaction s' = Idle) →
  (s_phase s = InitialReplay → s_transaction s' = Idle) →
  session_wf s'.
Proof.
  intros Hs Hp Hi Ht Hk Hpk Hq Hr.
  apply only_private_fields in Hp as (Ea & Ep & Es & Eb & _ & Ebs & Ert & Eh & _).
  destruct Hs as [Ha _ _ _ _ _ _ Hrep Hst].
  constructor; rewrite ?Ea, ?Ep, ?Es; try done.
  - intros t Hat. destruct (Ht t Hat) as [? ? ? ? (Hta & Htc & Htd) [Hq1 Hq2] Hrq].
    constructor; rewrite ?Ep, ?Es; try done.
    + split_and!; [done|by rewrite Ep|by rewrite Ert].
    + split; [done|]. by rewrite Ep.
    + unfold requested_ok. by rewrite Ep.
  - unfold repeat_ok. by rewrite Ert, Eh, Ebs, Eb.
Qed.

Lemma session_wf_abandon s s' :
  session_wf s → only_private s s' → (s_last_backend_ticket s' <= u64_max)%N →
  session_wf (abandon_private_transaction s').
Proof.
  intros Hs Hp Hk. apply (session_wf_private s); try done.
  etransitivity; [exact Hp|]. done.
Qed.

Lemma session_wf_backend s b : session_wf s → session_wf (s <| s_backend := b |>).
Proof. intros Hs. apply (session_wf_private s); try done; apply Hs. Qed.

(** ** Moving forward *)

Definition turn_le (p q : option BackendPolicyTurnId) : Prop :=
  match p with None => True | Some x => ∃ y, q = Some y ∧ (x <= y)%positive end.

#[export] Instance turn_le_preorder : PreOrder turn_le.
Proof.
  split; [intros [x|]; cbn; [by exists x|done]|].
  intros [x|] q r; cbn; [|done]. intros (y & -> & Hxy) (z & -> & Hyz). exists z. split; [done|lia].
Qed.

(** The state a call publishes: the next revision, and a new picture unless the
    session just became live. *)
Definition publishes (up : option RealmState) s s' : Prop :=
  match up with
  | None => s_state s' = s_state s
  | Some st => s_state s' = st
      ∧ revision st = u64_saturating_add (revision (s_state s)) 1
      ∧ (s_phase s = FinalizingReplay ∨ ¬ same_picture (s_state s) st)
  end.

(** The timer directive keeps an armed timer and a repeat target together. *)
Definition follows (timer : RepeatTimerDirective) s s' : Prop :=
  match timer with
  | Timer_Preserve => s_repeat_target s' = s_repeat_target s
  | Timer_Arm d i => d = KEY_REPEAT_DELAY_MS ∧ i = (1000 / KEY_REPEAT_RATE_HZ)%N
      ∧ is_Some (s_repeat_target s') ∧ s_phase s = Live
  | Timer_Disarm => s_repeat_target s' = None
  end.

(** Only a session that is shutting down attempts to exit. *)
Definition attempts s s' : Prop :=
  s_exit_attempted s' = s_exit_attempted s
  ∨ s_exit_attempted s' = true ∧ s_phase s = ShuttingDown.

Record moves (u : SessionUpdate) s s' : Prop := {
  mv_bindings : s_bindings s' = s_bindings s;
  mv_phase : phase_rank (s_phase s) ≤ phase_rank (s_phase s');
  mv_ticket : (s_last_backend_ticket s <= s_last_backend_ticket s')%N;
  mv_turn : turn_le (s_last_policy_turn s) (s_last_policy_turn s');
  mv_exit : attempts s s';
  mv_state : publishes (up_state u) s s';
  mv_timer : follows (up_repeat_timer u) s s';
  mv_effects : length (up_effects u) ≤ MAX_STAGED_EFFECTS
}.

(** ** Promises to the daemon *)

(** The action request whose result the active transaction owes. *)
Definition owner s : option BackendTicket :=
  t ← s_active s; p ← t_original_action_result t; Some p.1.

(** The snapshot the daemon has been shown, from the first live moment on. *)
Definition shown s : option SessionSnapshotV1 :=
  if starting (s_phase s) then None else Some (ledger_snapshot s).

(** What an update tells the daemon: whose action completed or is pending; that
    the session began to quit, at most once, and for whom; and the snapshot,
    whenever it changed. *)
Record promised (u : SessionUpdate) s s' : Prop := {
  pm_owner : match up_action_completion u with
    | Some c => owner s = Some (completion_ticket c) ∧ completion_result c = Ok tt
        ∧ owner s' = None ∧ up_pending_action u = None
    | None => match up_pending_action u with
        | Some k => owner s = None ∧ owner s' = Some k
        | None => owner s' = owner s
        end
    end;
  pm_quit : match quit_points (up_effects u) with
    | [] => quitting (s_phase s') = quitting (s_phase s)
    | [after] => s_phase s = Live ∧ s_phase s' = PhaseQuitPending
        ∧ after = match owner s with Some k => OriginalAction k | None => NoRequester end
    | _ => False
    end;
  pm_jobs : up_effects u ≠ [] → s_phase s = Live;
  pm_shown : shown s' = option_or (up_persistence u) (shown s)
}.

Lemma only_private_shown s s' : only_private s s' → shown s' = shown s.
Proof. by intros ->. Qed.

Lemma promised_unchanged s s' : only_private s s' → s_active s' = s_active s → promised unchanged s s'.
Proof.
  intros Hp Ha. split; cbn; [unfold owner; by rewrite Ha|by rewrite Hp|done|by apply only_private_shown].
Qed.

Lemma changed_shown (a b : SessionSnapshotV1) : option_or (changed_snapshot (Some a) (Some b)) (Some a) = Some b.
Proof. unfold changed_snapshot. by case_decide as E; [injection E as ->|]. Qed.

Lemma committed_live s : s_phase s = Live → committed_snapshot s = Some (ledger_snapshot s) ∧ shown s = Some (ledger_snapshot s).
Proof. intros Hp. unfold committed_snapshot, shown. by rewrite Hp. Qed.

Lemma moves_refl s : moves unchanged s s.
Proof. constructor; cbn; try done; [by left|]. unfold MAX_STAGED_EFFECTS. lia. Qed.

(** A private change first, then the rest. *)
Lemma moves_after_private u s s1 s' :
  only_private s s1 → (s_last_backend_ticket s <= s_last_backend_ticket s1)%N →
  turn_le (s_last_policy_turn s) (s_last_policy_turn s1) → moves u s1 s' → moves u s s'.
Proof.
  intros Hp Hk Ht [Hb Hph Hti Htu Hex Hst Hfo Hef].
  apply only_private_fields in Hp as (Ea & Ep & Es & Eb & _ & _ & Er & _ & _ & Ee & _).
  constructor; [congruence|by rewrite <-Ep|lia|by etransitivity|unfold attempts in *; by rewrite <-Ee, <-Ep| | |done].
  - unfold publishes in *. by rewrite Es, Ep in Hst.
  - unfold follows in *. by rewrite Er, Ep in Hfo.
Qed.

Lemma moves_private s s' :
  only_private s s' → (s_last_backend_ticket s <= s_last_backend_ticket s')%N →
  turn_le (s_last_policy_turn s) (s_last_policy_turn s') → moves unchanged s s'.
Proof. intros Hp Hk Ht. apply (moves_after_private _ _ s'); try done. apply moves_refl. Qed.
End inv.
