(* ===== verification/Finalize.v ===== *)
(** * Finalising a transaction

    [finalize_active] never fails on a session whose parts are well formed; what
    it leaves is the pure function [finalized], which restores the session's
    invariant and moves the session forward. *)

From Stdlib Require Import ZArith Lia.
From stdpp Require Import prelude list gmap sorting.
From S2P Require Import Prelude Layout Ledger Projection Keys State Backend Snapshot Visible Authority Hoare AuthorityInv Session SessionInv.

Section finalize.
Context {B : Type} `{WmBackend B}.
Implicit Types (s : Session (B:=B)) (t : ActiveTransaction).

(** ** Publishing *)

Lemma publish_spec force s :
  let '(up, s') := publish_current_state force s in
  s' = s <| s_published_ledger := s_ledger s |> <| s_published_windows := s_windows s |>
         <| s_state := s_state s' |>
  ∧ match up with
    | None => s_state s' = s_state s
    | Some st => s_state s' = st ∧ same_picture (policy_visible_state s 0) st
        ∧ revision st = (if force then 1%N else u64_saturating_add (revision (s_state s)) 1)
        ∧ (force = true ∨ ¬ same_picture (s_state s) st)
    end.
Proof.
  unfold publish_current_state. set (c := policy_visible_state s (revision (s_state s))).
  set (s1 := s <| s_published_ledger := _ |> <| s_published_windows := _ |>).
  assert (∀ r, same_picture c (c <| revision := r |>)) as Hc by (intros; symmetry; apply set_revision_same).
  destruct force; cbn [orb].
  - cbn beta iota zeta. split_and!; [done|done|by apply same_picture_iff|done|by left].
  - destruct (renders_same_as (s_state s) c) eqn:E; cbn [negb]; [by destruct s|].
    split_and!; [done|done|by apply same_picture_iff|done|right].
    intros Heq. rewrite <-Hc in Heq. unfold same_picture in Heq. congruence.
Qed.

(** A published state is the next one. *)
Lemma publish_publishes force s up s' s0 :
  publish_current_state force s = (up, s') → s_state s = s_state s0 →
  (force = true → s_phase s0 = FinalizingReplay ∧ s_state s0 = RealmState_default) →
  publishes up s0 s'.
Proof.
  intros Hp Hs Hf. pose proof (publish_spec force s) as Hspec. rewrite Hp in Hspec.
  destruct Hspec as [_ Hup]. destruct up as [st|]; cbn; [|congruence].
  destruct Hup as (Hst & _ & Hrev & Hnew). rewrite <-Hs. split_and!; [done| |].
  - destruct force; [|done]. destruct Hf as [_ Hd]; [done|]. by rewrite Hs, Hd.
  - destruct Hnew as [->|Hnew]; [left; by apply Hf|by right].
Qed.

(** ** The repeat timer *)

Lemma repeat_policy_spec t s timer s' :
  repeat_policy t s = (timer, s') →
  (∀ id, s_repeat_target s = Some id → ∃ c, s_bindings s !! id = Some c ∧ repeatable c = true) →
  s' = s <| s_repeat_target := s_repeat_target s' |> ∧ repeat_ok s'.
Proof.
  intros Hp Hold. unfold repeat_policy in Hp.
  set (p := match t_repeat_candidate t with Some _ => _ | None => _ end) in Hp.
  destruct p as [tm s1] eqn:E1.
  assert (s1 = s <| s_repeat_target := s_repeat_target s1 |>
    ∧ ∀ id, s_repeat_target s1 = Some id → ∃ c, s_bindings s1 !! id = Some c ∧ repeatable c = true) as [Es1 H1].
  { subst p. destruct (t_repeat_candidate t) as [c|]; [|injection E1 as <- <-; by destruct s].
    destruct (_ && _) eqn:Ec; injection E1 as <- <-; [|done]. split; [done|]. intros id [= <-]. cbn.
    apply andb_true_iff in Ec as [_ Ec]. destruct (s_bindings s !! c); [by eauto|done]. }
  clearbody p. clear E1 p.
  set (q := match s_repeat_target s1 with Some _ => _ | None => _ end) in Hp.
  destruct q as [tm2 s2] eqn:E2.
  assert (s2 = s1 <| s_repeat_target := s_repeat_target s2 |> ∧ repeat_ok s2) as [Es2 H2].
  { subst q. destruct (s_repeat_target s1) as [id|] eqn:Eid.
    - destruct (_ || _) eqn:Ec; injection E2 as <- <-; [done|]. split; [by destruct s1|].
      apply orb_false_iff in Ec as [Eh Ee].
      apply bool_decide_eq_false, dec_stable in Eh. apply bool_decide_eq_false, dec_stable in Ee.
      intros id' Hid'. rewrite Eid in Hid'. injection Hid' as <-. split_and!; [done|done|by apply H1].
    - injection E2 as <- <-. split; [by destruct s1|]. intros id. by rewrite Eid. }
  clearbody q. clear E2 q.
  assert (s2 = s <| s_repeat_target := s_repeat_target s2 |>) as E
    by (rewrite Es2 at 1; rewrite Es1 at 1; reflexivity).
  destruct (t_quit_staged t); injection Hp as <- <-; [|done].
  split; [rewrite E at 1; reflexivity|done].
Qed.

(** The directive and the target agree. *)
Lemma repeat_policy_follows t s timer s' s0 :
  repeat_policy t s = (timer, s') → repeat_pending s0 t →
  s_repeat_target s = s_repeat_target s0 → s_held_bindings s = a_held_bindings (t_working t) →
  follows timer s0 s'.
Proof.
  intros Hp (Harm & Hcand & Hdis) Ht Hh. unfold repeat_policy in Hp.
  destruct (t_quit_staged t) eqn:Hq.
  { repeat case_match; by injection Hp as <- <-. }
  destruct (t_repeat_candidate t) as [c|] eqn:Hc.
  - destruct (_ && _) eqn:Ec.
    + cbn in Hp. apply andb_true_iff in Ec as [[Eh Ee]%andb_true_iff _].
      apply bool_decide_eq_true in Eh, Ee.
      rewrite !bool_decide_eq_false_2 in Hp by (intros Hn; by apply Hn). cbn in Hp.
      injection Hp as <- <-. split_and!; [done|done|by exists c|].
      destruct (decide (s_phase s0 = Live)) as [|Hn]; [done|]. by specialize (Hcand Hn).
    + cbn in Hp. by injection Hp as <- <-.
  - destruct (s_repeat_target s) as [id|] eqn:Hid.
    + destruct (_ || _) eqn:Ec; injection Hp as <- <-; [done|]. apply orb_false_iff in Ec as [Eh _].
      apply bool_decide_eq_false, dec_stable in Eh. rewrite Hh in Eh.
      destruct (t_repeat_timer t) as [|d i|] eqn:Htm; cbn; [congruence|by destruct (Harm d i)|].
      by destruct (Hdis eq_refl eq_refl eq_refl id (eq_sym Ht)).
    + injection Hp as <- <-. destruct (t_repeat_timer t) as [|d i|] eqn:Htm; cbn;
        [congruence|by destruct (Harm d i)|done].
Qed.

(** ** The whole finalisation *)

(** [finalize_active] without its [expect]s. *)
Definition finalized t s : SessionUpdate * Session :=
  let '(entering_live, s1) := install_transaction t s in
  let '(timer, s2) := repeat_policy t s1 in
  let '(st, s3) := if decide (s_phase s2 = Live) then publish_current_state entering_live s2
                   else (None, s2) in
  (mk_update timer (changed_snapshot (committed_snapshot s) (committed_snapshot s3)) st None
     ((λ p, mk_completion (fst p) (snd p)) <$> t_original_action_result t) (t_staged_effects t),
   abandon_private_transaction (if t_quit_staged t then s3 <| s_phase := PhaseQuitPending |> else s3)).

Lemma install_authority_fields a s :
  let s' := install_authority a s in
  s_ledger s' = a_ledger a ∧ s_backend_ids s' = a_backend_ids a ∧ s_next_win_id s' = a_next_win_id a
  ∧ s_held_bindings s' = a_held_bindings a ∧ s_bindings s' = s_bindings s ∧ s_phase s' = s_phase s
  ∧ s_state s' = s_state s ∧ s_binding_state s' = s_binding_state s
  ∧ s_repeat_target s' = s_repeat_target s ∧ s_last_backend_ticket s' = s_last_backend_ticket s
  ∧ s_last_policy_turn s' = s_last_policy_turn s ∧ s_exit_attempted s' = s_exit_attempted s
  ∧ s_active s' = s_active s ∧ s_transaction s' = s_transaction s
  ∧ s_windows s' = a_windows a
  ∧ (if s_workarea_known s' then Some (s_workarea s') else None) = a_workarea a.
Proof. unfold install_authority. by destruct (a_workarea a). Qed.

(** The phase an installed transaction leads to. *)
Definition installed_phase t s : SessionLifecyclePhase :=
  if bool_decide (s_phase s = FinalizingReplay) && workarea_known t && t_projection_submitted t then Live
  else if t_bootstrap t then FinalizingReplay else s_phase s.

Record installed t s s' : Prop := {
  in_authority : agrees (t_working t) (current_authority s');
  in_held : s_held_bindings s' = a_held_bindings (t_working t);
  in_bindings : s_bindings s' = s_bindings s;
  in_phase : s_phase s' = installed_phase t s;
  in_target : s_repeat_target s' = s_repeat_target s;
  in_ticket : s_last_backend_ticket s' = s_last_backend_ticket s;
  in_turn : s_last_policy_turn s' = s_last_policy_turn s;
  in_exit : s_exit_attempted s' = s_exit_attempted s;
  in_state : s_state s' = s_state s
}.

Lemma install_transaction_installed t s : installed t s (install_transaction t s).2.
Proof.
  pose proof (install_authority_fields (t_working t) s) as Hf. cbv zeta in Hf. revert Hf.
  unfold install_transaction. cbv zeta. cbn [snd].
  generalize (install_authority (t_working t) s). intros s1.
  intros (El & Ei & En & Eh & Eb & Ep & Es & _ & Er & Et & Eu & Ee & _ & _ & Ew & Ewa).
  assert (∀ x : Session (B:=B), current_authority x = current_authority s1 →
    agrees (t_working t) (current_authority x)) as Ha by (intros x ->; by constructor).
  unfold workarea_known.
  destruct (t_projection_submitted t) eqn:Hs, (t_bootstrap t) eqn:Hb,
    (bool_decide (s_phase s = FinalizingReplay) && bool_decide (a_workarea (t_working t) ≠ None)) eqn:Hc;
    constructor; unfold installed_phase, workarea_known; rewrite ?Hs, ?Hb, ?Hc; cbn;
    first [by apply Ha|done].
Qed.

Lemma install_transaction_spec t s e s' :
  install_transaction t s = (e, s') →
  installed t s s' ∧ e = bool_decide (s_phase s = FinalizingReplay) && workarea_known t && t_projection_submitted t.
Proof.
  intros E. pose proof (install_transaction_installed t s) as Hi. rewrite E in Hi.
  split; [done|]. by apply (f_equal fst) in E.
Qed.

Lemma finalize_active_run t s :
  authority_wf (current_authority s) → authority_wf (t_working t) →
  finalize_active t s = (Ok (finalized t s).1, (finalized t s).2).
Proof.
  intros Ha Ht. unfold finalize_active, finalized.
  unfold mbind, stm_bind, mret, stm_ret, modify, getS. rewrite snapshot_run by done.
  destruct (install_transaction t s) as [e s1] eqn:E1.
  apply install_transaction_spec in E1 as [H1 ->].
  destruct (repeat_policy t s1) as [tm s2] eqn:E2.
  assert (current_authority s2 = current_authority s1) as E3.
  { unfold repeat_policy in E2. by repeat case_match; simplify_eq. }
  assert (authority_wf (current_authority s2)) as Ha2
    by (rewrite E3; eapply agrees_wf; [apply H1|done]).
  destruct (decide (s_phase s2 = Live)); [|by rewrite snapshot_run].
  unfold publish. destruct (publish_current_state _ s2) as [st s3] eqn:E4.
  pose proof (publish_spec (bool_decide (s_phase s = FinalizingReplay) && workarea_known t && t_projection_submitted t) s2) as H4.
  rewrite E4 in H4. destruct H4 as [Es3 _].
  rewrite snapshot_run; [done|]. apply (authority_wf_ext (current_authority s2)); [done|by rewrite Es3..].
Qed.

(** A transaction ready to be finalised in [s], which left [s0] privately. *)
Record finalizable s0 s t : Prop := {
  fz_private : only_private s0 s;
  fz_ticket : (s_last_backend_ticket s0 <= s_last_backend_ticket s <= u64_max)%N;
  fz_turn : turn_le (s_last_policy_turn s0) (s_last_policy_turn s);
  fz_phase : quitting (s_phase s0) = false;
  fz_working : authority_wf (t_working t);
  fz_effects : length (t_staged_effects t) ≤ MAX_STAGED_EFFECTS;
  fz_repeat : repeat_pending s0 t;
  fz_bootstrap : t_bootstrap t = true → starting (s_phase s0) = true
}.

Lemma installed_phase_rank s0 t :
  quitting (s_phase s0) = false → (t_bootstrap t = true → starting (s_phase s0) = true) →
  phase_rank (s_phase s0) ≤ phase_rank (installed_phase t s0) ≤ 2
  ∧ (starting (installed_phase t s0) = true → starting (s_phase s0) = true).
Proof.
  intros Hq Hb. unfold installed_phase. destruct (_ && _ && _) eqn:Hc.
  - apply andb_true_iff in Hc as [[Hc _]%andb_true_iff _]. apply bool_decide_eq_true in Hc.
    rewrite Hc. cbn. lia.
  - destruct (t_bootstrap t); [specialize (Hb eq_refl)|]; destruct (s_phase s0); cbn in *; (done || lia).
Qed.

(** Publishing, when the session is live. *)
Definition publish_if_live (force : bool) s : option RealmState * Session :=
  if decide (s_phase s = Live) then publish_current_state force s else (None, s).

Lemma publish_if_live_spec force s up s' s0 :
  publish_if_live force s = (up, s') → s_state s = s_state s0 →
  (force = true → s_phase s0 = FinalizingReplay ∧ s_state s0 = RealmState_default) →
  s' = s <| s_published_ledger := s_published_ledger s' |>
         <| s_published_windows := s_published_windows s' |> <| s_state := s_state s' |>
  ∧ publishes up s0 s' ∧ (s_phase s ≠ Live → up = None).
Proof.
  unfold publish_if_live. case_decide as Hl; intros Hp Hs Hf.
  - pose proof (publish_spec force s) as Hspec. rewrite Hp in Hspec. destruct Hspec as [Es _].
    split_and!; [rewrite Es at 1; by rewrite Es|by eapply publish_publishes|done].
  - injection Hp as <- <-. split_and!; [by destruct s|by cbn|done].
Qed.

(** What a finalised transaction leaves, field by field. *)
Record settled s0 s t (u : SessionUpdate) s' : Prop := {
  st_agrees : agrees (t_working t) (current_authority s');
  st_bindings : s_bindings s' = s_bindings s0;
  st_phase : s_phase s' = if t_quit_staged t then PhaseQuitPending else installed_phase t s0;
  st_ticket : s_last_backend_ticket s' = s_last_backend_ticket s;
  st_turn : s_last_policy_turn s' = s_last_policy_turn s;
  st_exit : s_exit_attempted s' = s_exit_attempted s0;
  st_repeat : repeat_ok s';
  st_idle : s_active s' = None ∧ s_transaction s' = Idle;
  st_publishes : publishes (up_state u) s0 s';
  st_follows : follows (up_repeat_timer u) s0 s';
  st_starting : installed_phase t s0 ≠ Live → s_state s' = s_state s0;
  st_snapshot : up_persistence u = changed_snapshot (committed_snapshot s0)
    (if decide (installed_phase t s0 = Live) then Some (ledger_snapshot s') else None)
}.

Lemma finalized_settled s0 s t :
  session_wf s0 → finalizable s0 s t → settled s0 s t (finalized t s).1 (finalized t s).2.
Proof.
  intros Hs0 [Hp _ _ _ Hw _ Hr _].
  pose proof (only_private_fields s0 s Hp) as (Ea & Ep & Es & Ebi & _ & Ebs & Ert & Eh & _ & Eex & _).
  unfold finalized.
  destruct (install_transaction t s) as [e s1] eqn:E1.
  apply install_transaction_spec in E1 as [[Ia Ih Ib Iph Itg Itk Itn Iex Ist] He1].
  destruct (repeat_policy t s1) as [tm s2] eqn:E2.
  pose proof (repeat_policy_follows _ _ _ _ s0 E2 Hr ltac:(congruence) Ih) as Hfo.
  apply repeat_policy_spec in E2 as [Es2 Hro].
  2:{ intros id Hid. rewrite Ib, Ebi. apply (sw_repeat s0 Hs0). congruence. }
  fold (publish_if_live e s2). destruct (publish_if_live e s2) as [up s3] eqn:E3.
  assert (installed_phase t s = installed_phase t s0) as Eph by (unfold installed_phase; by rewrite Ep).
  apply (publish_if_live_spec _ _ _ _ s0) in E3 as (Es3 & Hpub & Hnolive);
    [|rewrite Es2; cbn; congruence|].
  2:{ intros ->. symmetry in He1. apply andb_true_iff in He1 as [[He1 _]%andb_true_iff _].
      apply bool_decide_eq_true in He1. rewrite Ep in He1. split; [done|].
      apply (sw_state s0 Hs0). by rewrite He1. }
  assert (s_phase s2 = installed_phase t s0) as Eph2 by (rewrite Es2; cbn; congruence).
  rewrite Eph2 in Hnolive.
  assert (agrees (t_working t) (current_authority s3)) as Ha3
    by (etransitivity; [exact Ia|rewrite Es3, Es2; done]).
  assert (repeat_ok s3) as Hro3 by (rewrite Es3; exact Hro).
  assert (follows tm s0 s3) as Hfo3 by (rewrite Es3; exact Hfo).
  assert (s_bindings s3 = s_bindings s0 ∧ s_phase s3 = installed_phase t s0
    ∧ s_last_backend_ticket s3 = s_last_backend_ticket s ∧ s_last_policy_turn s3 = s_last_policy_turn s
    ∧ s_exit_attempted s3 = s_exit_attempted s0) as (? & Eph3 & ? & ? & ?)
    by (rewrite Es3, Es2; cbn; split_and!; congruence).
  assert (∀ x : Session (B:=B), ledger_snapshot x = ledger_snapshot s3 →
    changed_snapshot (committed_snapshot s) (committed_snapshot s3)
    = changed_snapshot (committed_snapshot s0)
        (if decide (installed_phase t s0 = Live) then Some (ledger_snapshot x) else None)) as Hsnap.
  { intros x ->. f_equal; [by rewrite (only_private_snapshot s0 s)|]. unfold committed_snapshot. by rewrite Eph3. }
  clear Es3 Es2 Eph2 Hro Hfo.
  destruct (t_quit_staged t) eqn:Hqs; constructor; rewrite ?Hqs; cbn; try done;
    first [by apply Hsnap|intros Hne; by rewrite (Hnolive Hne) in Hpub].
Qed.

Lemma finalized_ok s0 s t :
  session_wf s0 → finalizable s0 s t →
  session_wf (finalized t s).2 ∧ moves (finalized t s).1 s0 (finalized t s).2
  ∧ s_active (finalized t s).2 = None ∧ agrees (t_working t) (current_authority (finalized t s).2).
Proof.
  intros Hs0 Hf. destruct (finalized_settled s0 s t Hs0 Hf) as [].
  destruct Hf as [_ Hk Htu Hq Hwk He _ Hb].
  assert (authority_wf (current_authority (finalized t s).2)) as Hwf by (by eapply agrees_wf).
  destruct (installed_phase_rank s0 t Hq Hb) as [Hrank Hstart].
  assert (up_effects (finalized t s).1 = t_staged_effects t) as Heff
    by (unfold finalized; by repeat case_match).
  split_and!; [constructor|constructor|apply st_idle0|done]; try done.
  - by split; intros _; apply st_idle0.
  - intros t'. by rewrite (proj1 st_idle0).
  - rewrite st_ticket0. lia.
  - intros k. unfold pending_ticket. by rewrite (proj2 st_idle0).
  - intros _. apply st_idle0.
  - intros _. apply st_idle0.
  - rewrite st_phase0. intros Hst. destruct (t_quit_staged t); [done|].
    rewrite st_starting0; [by apply (sw_state s0 Hs0), Hstart|]. intros Hl. by rewrite Hl in Hst.
  - rewrite st_phase0. destruct (t_quit_staged t); cbn; lia.
  - rewrite st_ticket0. lia.
  - by rewrite st_turn0.
  - left; exact st_exit0.
  - by rewrite Heff.
Qed.

(** The result of the action a transaction was staged for: carried along while
    the transaction is pending, reported when it is finalised. *)
Definition completion_of (r : option (BackendTicket * result unit SessionActionError)) :
    option ActionCompletion := (λ p, mk_completion (fst p) (snd p)) <$> r.

Definition carries_result (r : option (BackendTicket * result unit SessionActionError))
    (u : SessionUpdate) s : Prop :=
  match s_active s with
  | Some t => t_original_action_result t = r ∧ up_action_completion u = None
  | None => up_action_completion u = completion_of r
  end.

(** The effects, the phase and the snapshot an event reports when it ends in [t]:
    nothing while the transaction is pending. *)
Record concluded t s (u : SessionUpdate) s' : Prop := {
  co_action : up_pending_action u = None;
  co_active : ∀ t', s_active s' = Some t' → t' = t;
  co_effects : up_effects u = match s_active s' with None => t_staged_effects t | Some _ => [] end;
  co_phase : s_phase s' = match s_active s' with
    | None => if t_quit_staged t then PhaseQuitPending else installed_phase t s
    | Some _ => if t_bootstrap t then FinalizingReplay else s_phase s
    end;
  co_snapshot : match s_active s' with
    | None => up_persistence u = changed_snapshot (committed_snapshot s)
                (if decide (installed_phase t s = Live) then Some (ledger_snapshot s') else None)
    | Some _ => up_persistence u = None ∧ ledger_snapshot s' = ledger_snapshot s
    end
}.

(** What a successful event that ends in the transaction [t] establishes. *)
Record stepped t s (u : SessionUpdate) s' : Prop := {
  sp_wf : session_wf s';
  sp_moves : moves u s s';
  sp_result : carries_result (t_original_action_result t) u s';
  sp_agrees : agrees (t_working t) (base_authority s');
  sp_concluded : concluded t s u s'
}.

Lemma finalized_carries t s :
  carries_result (t_original_action_result t) (finalized t s).1 (finalized t s).2.
Proof. unfold finalized. repeat case_match; done. Qed.

Lemma finalized_concluded s0 s t :
  session_wf s0 → finalizable s0 s t → concluded t s0 (finalized t s).1 (finalized t s).2.
Proof.
  intros Hs0 Hf. destruct (finalized_settled s0 s t Hs0 Hf) as [_ _ Hp _ _ _ _ [Ha _] _ _ _ Hsn].
  constructor; rewrite ?Ha; try done; unfold finalized; by repeat case_match.
Qed.

Lemma finalize_active_ok s0 s t :
  session_wf s0 → finalizable s0 s t →
  wp (finalize_active t) (stepped t s0) (λ _ _, False) s.
Proof.
  intros Hs0 Hf. unfold wp. rewrite finalize_active_run; [| |apply Hf].
  { destruct (finalized_ok s0 s t Hs0 Hf) as (Hwf & Hm & Ha & Hag).
    split; [done|done|apply finalized_carries| |by apply finalized_concluded].
    unfold base_authority. by rewrite Ha. }
  destruct Hf as [Hp _ _ _ _ _ _ _]. apply only_private_fields in Hp as [-> _]. apply Hs0.
Qed.
End finalize.
