(* ===== verification/Turns.v ===== *)
(** * Backend events

    Every event handler of the session keeps its invariant, never panics, and on
    an error leaves only private changes behind. *)

From Stdlib Require Import ZArith Lia.
From stdpp Require Import prelude list gmap sorting.
From S2P Require Import Prelude Layout Ledger Projection Keys State Backend Snapshot Visible Authority Hoare AuthorityInv Session Reduce Replay SessionInv Finalize.

Section turns.
Context {B : Type} `{WmBackend B}.
Implicit Types (s : Session (B:=B)) (t : ActiveTransaction).

(** ** The repeat fields under reduction *)

Definition same_repeat t t' : Prop :=
  a_held_bindings (t_working t') = a_held_bindings (t_working t)
  ∧ t_repeat_candidate t' = t_repeat_candidate t
  ∧ t_repeat_timer t' = t_repeat_timer t
  ∧ (t_quit_staged t = true → t_quit_staged t' = true).

#[export] Instance same_repeat_preorder : PreOrder same_repeat.
Proof.
  split; [done|]. intros t1 t2 t3 (?&?&?&?) (?&?&?&?). split_and!; try congruence. auto.
Qed.

Lemma repeat_pending_same s t t' : same_repeat t t' → repeat_pending s t → repeat_pending s t'.
Proof.
  intros (Eh & Ec & Et & Hq) (Ha & Hc0 & Hd). unfold repeat_pending. rewrite Eh, Ec, Et.
  split_and!; [done|done|]. intros Ht Hc Hq'. apply Hd; try done.
  destruct (t_quit_staged t); [by rewrite Hq in Hq'|done].
Qed.

Lemma require_projection_repeat c t : same_repeat t (require_projection c t).
Proof. by destruct c. Qed.

Lemma binding_effect_repeat s act t : same_repeat t (binding_effect s act t).
Proof. destruct act; cbn [binding_effect]; repeat case_match; try case_decide; by split_and!. Qed.

(** The repeat target is bound to a repeatable action. *)
Definition target_repeats s : Prop := ∀ id, s_repeat_target s = Some id →
  ∃ c, s_bindings s !! id = Some c ∧ repeatable c = true.

Lemma reduce_pressed_repeat s t id t' :
  target_repeats s → s_phase s = Live →
  reduce_pressed s t id = Ok t' → repeat_pending s t → repeat_pending s t'.
Proof.
  unfold reduce_pressed. set (t1 := on_working _ t). intros Htr Hl Hr (Ha & _ & Hd).
  destruct (s_bindings s !! id) as [c|] eqn:Hc; [|done]. injection Hr as <-.
  apply (repeat_pending_same s (apply_binding_action s t1 id c)).
  { by destruct (_ && _). }
  unfold apply_binding_action. change (t_quit_staged t1) with (t_quit_staged t).
  destruct (t_quit_staged t) eqn:Hq.
  { split_and!; [done|done|]. cbn. by rewrite Hq. }
  set (t2 := require_projection _ _).
  assert (same_repeat t1 t2) as (Eh & Ec & Et & _).
  { subst t2. etransitivity; [apply binding_effect_repeat|apply require_projection_repeat]. }
  clearbody t2. split_and!; [destruct (repeatable c); cbn; by rewrite Et|done|].
  destruct (repeatable c) eqn:Hrep; [done|]. rewrite Et, Ec, Eh. cbn. intros Htm Hcand _ i Hi.
  destruct (Htr i Hi) as (c' & Hc' & Hrep'). specialize (Hd Htm Hcand eq_refl i Hi).
  assert (i ≠ id) by (intros ->; congruence). set_solver.
Qed.

Lemma reduce_released_repeat s t id :
  repeat_pending s t → repeat_pending s (reduce_released s t id).
Proof.
  intros (Ha & Hc0 & Hd). unfold reduce_released. split_and!.
  - intros d i. repeat case_decide; cbn; done || apply Ha.
  - intros Hn. specialize (Hc0 Hn). by repeat case_decide.
  - repeat case_decide; cbn in *; intros Htm Hc Hq i Hi; simplify_eq; try set_solver;
      specialize (Hd Htm Hc Hq i Hi); set_solver.
Qed.

Lemma reduce_open_repeat t id app_id title s t' s' :
  reduce_open t id app_id title s = (Ok t', s') → same_repeat t t'.
Proof.
  unfold reduce_open, of_result, mbind, stm_bind, mret, stm_ret, call_m, call.
  destruct (opened_id id (t_working t)) as [[w a]|e] eqn:Ho; [|done].
  assert (a_held_bindings a = a_held_bindings (t_working t)) as Hh.
  { unfold opened_id in Ho. destruct (a_backend_ids (t_working t) !! id); [by injection Ho as <- <-|].
    by apply ensure_Ok in Ho as [_ [= <- <-]]. }
  set (a' := set a_windows _ _).
  assert (∀ x, a_held_bindings x = a_held_bindings a → same_repeat t
    (require_projection (workarea_known (t <| t_working := x |>)) (t <| t_working := x |>))) as Hx.
  { intros x Hx. etransitivity; [|apply require_projection_repeat]. split_and!; cbn; congruence. }
  case_decide; [intros [= <- _]; by apply Hx|].
  destruct (wm_assign_window id w (s_backend s)) as [[u|e] b'] eqn:Hb; cbn; [|done].
  intros [= <- _]. by apply Hx.
Qed.

Lemma reduce_close_repeat t id t' : reduce_close t id = Ok t' → same_repeat t t'.
Proof.
  unfold reduce_close. destruct (a_backend_ids (t_working t) !! id) as [w|]; [|done].
  set (t1 := on_working _ t). assert (same_repeat t t1) as H1 by done. clearbody t1.
  cbv zeta. set (t2 := on_response _ t1). assert (same_repeat t t2) as H2 by done. clearbody t2.
  set (t3 := require_projection _ t2).
  assert (same_repeat t t3) as H3 by (etransitivity; [exact H2|apply require_projection_repeat]).
  clearbody t3. case_decide; intros [= <-]; done.
Qed.

Lemma reduce_event_repeat s ev t t' s' v v' :
  target_repeats s → admit_event s false ev v = Ok v' → reduce_event ev t s = (Ok t', s') → repeat_pending s t → repeat_pending s t'.
Proof.
  intros Htr Hv Hr Hp. change (reduce_event_in s ev t s = (Ok t', s')) in Hr.
  destruct ev as [|i x y|i|i x|f|x|w|i r|k|k|k| |old new]; cbn [reduce_event_in] in Hr.
  - done.
  - apply reduce_open_repeat in Hr. by eapply repeat_pending_same.
  - destruct (reduce_close t i) as [t1|] eqn:E; [|done]. injection Hr as <- _.
    apply reduce_close_repeat in E. by eapply repeat_pending_same.
  - unfold reduce_title in Hr. destruct (a_backend_ids (t_working t) !! i); [|done].
    destruct (a_windows (t_working t) !! n); [|done]. injection Hr as <- _. done.
  - injection Hr as <- _. apply (repeat_pending_same s t); [|done].
    etransitivity; [|apply require_projection_repeat]. done.
  - injection Hr as <- _. apply (repeat_pending_same s t); [|done].
    etransitivity; [apply require_projection_repeat|]. done.
  - injection Hr as <- _. unfold reduce_workarea. by case_decide.
  - by injection Hr as <- _.
  - destruct (reduce_pressed s t k) as [t1|] eqn:E; [|done]. injection Hr as <- _.
    eapply reduce_pressed_repeat; [done| |done..]. cbn in Hv. destruct (s_bindings s !! k); [|done].
    by apply ensure_Ok in Hv as [Hl%bool_decide_eq_true _].
  - injection Hr as <- _. by apply reduce_released_repeat.
  - injection Hr as <- _. by apply reduce_released_repeat.
  - injection Hr as <- _. unfold reduce_unbound. by case_decide.
  - injection Hr as <- _. unfold reduce_modifiers. by case_decide.
Qed.

(** ** The staged quit under reduction *)

Definition same_staged t t' : Prop :=
  t_staged_effects t' = t_staged_effects t ∧ t_quit_staged t' = t_quit_staged t
  ∧ t_original_action_result t' = t_original_action_result t.

#[export] Instance same_staged_preorder : PreOrder same_staged.
Proof. split; [done|]. intros t1 t2 t3 (?&?&?) (?&?&?). split_and!; congruence. Qed.

Lemma neutral_staged t t' : neutral t t' → same_staged t t'.
Proof. by intros (_ & _ & _ & _ & ? & ? & (_ & ? & _)). Qed.

Lemma staged_ok_same s t t' : same_staged t t' → staged_ok s t → staged_ok s t'.
Proof. unfold staged_ok, quit_after. by intros (-> & -> & ->). Qed.

Lemma quit_points_app l k : quit_points (l ++ k) = quit_points l ++ quit_points k.
Proof. apply omap_app. Qed.

(** An action stages its own effect, and a quit waits for the transaction's action. *)
Lemma binding_effect_quiet s act t :
  action_has_effect act = false → same_staged t (binding_effect s act t).
Proof. destruct act; cbn [binding_effect]; try done; intros _; repeat case_match; by split_and!. Qed.

Lemma binding_effect_staged s act t :
  t_quit_staged t = false → staged_ok s t → s_phase s = Live → staged_ok s (binding_effect s act t).
Proof.
  intros Hq [Hp Hn] Hl. rewrite Hq in Hp. destruct (action_has_effect act) eqn:He.
  - split; [|done]. destruct act; try done; unfold quit_after; cbn; rewrite quit_points_app, ?Hq, Hp; done.
  - eapply staged_ok_same; [by apply binding_effect_quiet|]. split; [by rewrite Hq|done].
Qed.

Lemma apply_binding_action_staged s t id c :
  s_phase s = Live → staged_ok s t → staged_ok s (apply_binding_action s t id c).
Proof.
  intros Hl [Hp Hn]. unfold apply_binding_action. destruct (t_quit_staged t) eqn:Hq; [by split; rewrite ?Hq|].
  assert (staged_ok s (binding_effect s (action c) t)) as Hok
    by (apply binding_effect_staged; [done|by split; rewrite ?Hq|done]).
  set (t1 := binding_effect s (action c) t) in *. clearbody t1. cbv zeta.
  assert (same_staged t1 (require_projection (bool_decide (project_authority (t_working t)
    ≠ project_authority (t_working t1))) t1)) as Hs by apply neutral_staged, require_projection_neutral.
  apply (staged_ok_same s) in Hs; [|done]. by destruct (repeatable c).
Qed.

Lemma reduce_pressed_staged s t id t' :
  s_phase s = Live → reduce_pressed s t id = Ok t' → staged_ok s t → staged_ok s t'.
Proof.
  unfold reduce_pressed. set (t1 := on_working _ t). intros Hl Hr Hok.
  destruct (s_bindings s !! id) as [c|]; [|done]. injection Hr as <-.
  assert (staged_ok s (apply_binding_action s t1 id c)) as Hok' by by apply apply_binding_action_staged.
  by destruct (_ && _).
Qed.

(** Every other fact leaves the staged effects alone. *)
Lemma reduce_open_staged id app_id title s t t' s' :
  reduce_open t id app_id title s = (Ok t', s') → same_staged t t'.
Proof.
  unfold reduce_open, of_result, mbind, stm_bind, mret, stm_ret, call_m, call.
  destruct (opened_id id (t_working t)) as [[w a]|e]; [|done].
  assert (∀ x, same_staged t
    (require_projection (workarea_known (t <| t_working := x |>)) (t <| t_working := x |>))) as Hx
    by (intros x; etransitivity; [|apply neutral_staged, require_projection_neutral]; done).
  case_decide; [intros [= <- _]; by apply Hx|].
  destruct (wm_assign_window id w (s_backend s)) as [[u|e] b']; cbn; [|done].
  intros [= <- _]. by apply Hx.
Qed.

Lemma reduce_close_staged t id t' : reduce_close t id = Ok t' → same_staged t t'.
Proof.
  unfold reduce_close. destruct (a_backend_ids (t_working t) !! id) as [w|]; [|done].
  set (t1 := on_working _ t). assert (same_staged t t1) as H1 by done. clearbody t1.
  cbv zeta. set (t2 := on_response _ t1). assert (same_staged t t2) as H2 by done. clearbody t2.
  set (t3 := require_projection _ t2).
  assert (same_staged t t3) as H3
    by (etransitivity; [exact H2|apply neutral_staged, require_projection_neutral]).
  clearbody t3. case_decide; intros [= <-]; done.
Qed.

Lemma reduce_event_staged s ev t t' s' v v' :
  admit_event s false ev v = Ok v' → reduce_event ev t s = (Ok t', s') → staged_ok s t → staged_ok s t'.
Proof.
  intros Hv Hr Hok. change (reduce_event_in s ev t s = (Ok t', s')) in Hr.
  assert (∀ t1, same_staged t t1 → t1 = t' → staged_ok s t') as Hs
    by (intros t1 H1 <-; by eapply staged_ok_same).
  destruct ev as [|i x y|i|i x|f|x|w|i r|k|k|k| |old new]; cbn [reduce_event_in] in Hr.
  - done.
  - apply reduce_open_staged in Hr. by eapply staged_ok_same.
  - destruct (reduce_close t i) as [t1|] eqn:E; [|done]. injection Hr as E1 _.
    apply reduce_close_staged in E. by eapply Hs.
  - unfold reduce_title in Hr. destruct (a_backend_ids (t_working t) !! i); [|done].
    destruct (a_windows (t_working t) !! n); [|done]. injection Hr as E1 _. eapply Hs; [|exact E1]. done.
  - injection Hr as E1 _. eapply Hs; [|exact E1]. apply neutral_staged.
    etransitivity; [|apply require_projection_neutral]. done.
  - injection Hr as E1 _. eapply Hs; [|exact E1]. apply neutral_staged.
    etransitivity; [apply require_projection_neutral|]. done.
  - injection Hr as E1 _. eapply Hs; [|exact E1]. unfold reduce_workarea. by case_decide.
  - by injection Hr as <- _.
  - destruct (reduce_pressed s t k) as [t1|] eqn:E; [|done]. injection Hr as <- _.
    eapply reduce_pressed_staged; [|exact E|done]. cbn in Hv. destruct (s_bindings s !! k); [|done].
    apply ensure_Ok in Hv as [Hl%bool_decide_eq_true _]. done.
  - injection Hr as E1 _. eapply Hs; [|exact E1]. unfold reduce_released. repeat case_decide; by split_and!.
  - injection Hr as E1 _. eapply Hs; [|exact E1]. unfold reduce_released. repeat case_decide; by split_and!.
  - injection Hr as E1 _. eapply Hs; [|exact E1]. unfold reduce_unbound. repeat case_decide; by split_and!.
  - injection Hr as E1 _. eapply Hs; [|exact E1]. unfold reduce_modifiers. repeat case_decide; by split_and!.
Qed.

(** ** Reducing an admitted turn *)

(** Reduction of a whole admitted list of facts. *)
Lemma reduce_policy_events_ok s t0 t v v' evs :
  target_repeats s → reduced v t0 t → repeat_pending s t → staged_ok s t →
  Forall (λ ev, is_replay_barrier ev = false) evs → admit_events s false evs v = Ok v' →
  reduces (reduce_policy_events evs t) s (λ t', reduced v' t0 t' ∧ repeat_pending s t' ∧ staged_ok s t').
Proof.
  intros Htr Hr Hp Hq Hb. revert s t v Htr Hr Hp Hq.
  induction Hb as [|ev evs Hev _ IH]; intros s t v Htr Hr Hp Hq Hv.
  - cbn in Hv. injection Hv as <-. by apply reduces_ret.
  - cbn [admit_events] in Hv. apply rbind_Ok in Hv as (v1 & Hv1 & Hv).
    cbn [reduce_policy_events].
    apply (reduces_bind _ _ _ (λ t1, reduced v1 t0 t1 ∧ repeat_pending s t1 ∧ staged_ok s t1)).
    { apply (reduces_and _ _ (reduced v1 t0) (λ t1, repeat_pending s t1 ∧ staged_ok s t1));
        [by apply (reduce_event_ok s t0 t v)|].
      intros t1 s' E. split; [by eapply reduce_event_repeat|by eapply reduce_event_staged]. }
    intros t1 b (Ht1 & Hp1 & Hq1).
    apply (reduces_mono _ _ (λ t', reduced v' t0 t' ∧ repeat_pending (s <| s_backend := b |>) t'
      ∧ staged_ok (s <| s_backend := b |>) t')); [|done].
    apply (IH (s <| s_backend := b |>) t1 v1); [exact Htr|done|exact Hp1|exact Hq1|].
    by rewrite (admit_events_ext s).
Qed.

(** The transaction a turn continues. *)
Definition base_transaction s : ActiveTransaction :=
  match s_active s with Some t => t | None => new_active_transaction s end.

Lemma base_transaction_wf s : session_wf s → transaction_wf s (base_transaction s).
Proof.
  intros Hs. unfold base_transaction. destruct (s_active s) as [t|] eqn:Ht; [by apply (sw_active s Hs)|].
  constructor; cbn; [apply Hs|done|unfold MAX_STAGED_EFFECTS; lia|done|by split|by split|done].
Qed.

Lemma base_transaction_quit s :
  t_quit_staged (base_transaction s)
  = match s_active s with Some t => t_quit_staged t | None => false end.
Proof. unfold base_transaction. by destruct (s_active s). Qed.

Lemma base_authority_base s : base_authority s = t_working (base_transaction s).
Proof. unfold base_authority, base_transaction. by destruct (s_active s). Qed.

Lemma known_windows_elem a i :
  i ∈ known_windows a → ∃ w, a_backend_ids a !! i = Some w ∧ is_Some (a_windows a !! w).
Proof.
  unfold known_windows. intros [w Hw]%elem_of_dom. apply map_lookup_filter_Some in Hw as (Hw & _ & Hm).
  by exists w.
Qed.

Lemma initial_tracks s :
  session_wf s → tracks (initial_admission s false) (base_transaction s).
Proof.
  intros Hs. constructor; cbn; rewrite ?base_authority_base; try done.
  - intros i Hi. by apply known_windows_elem.
  - by rewrite base_transaction_quit.
  - pose proof (tw_effects _ _ (base_transaction_wf s Hs)) as Hlen. unfold MAX_STAGED_EFFECTS in Hlen.
    assert (match s_active s with Some t => N.of_nat (length (t_staged_effects t)) | None => 0%N end
      = N.of_nat (length (t_staged_effects (base_transaction s)))) as ->
      by (unfold base_transaction; by destruct (s_active s)).
    unfold u64_max. lia.
Qed.

Lemma reopen_neutral carries t : neutral t (reopen_transaction carries t).
Proof.
  unfold reopen_transaction. set (t1 := on_response _ t). assert (neutral t t1) as H1 by done. clearbody t1.
  cbv zeta. set (t2 := set_next_key_edge _ t1). assert (neutral t t2) as H2 by done. clearbody t2.
  set (t3 := if carries then _ else _). assert (neutral t t3) as H3 by (subst t3; by destruct carries).
  clearbody t3. case_match; [|done]. by case_decide.
Qed.

Lemma reopen_repeat carries t : same_repeat t (reopen_transaction carries t).
Proof.
  unfold reopen_transaction. set (t1 := on_response _ t). assert (same_repeat t t1) as H1 by done. clearbody t1.
  cbv zeta. set (t2 := set_next_key_edge _ t1). assert (same_repeat t t2) as H2 by done. clearbody t2.
  set (t3 := if carries then _ else _). assert (same_repeat t t3) as H3 by (subst t3; by destruct carries).
  clearbody t3. case_match; [|done]. by case_decide.
Qed.

(** What an accepted turn satisfies. *)
Record accepted s (turn : BackendPolicyTurn) : Prop := {
  ad_turn : ∀ last, s_last_policy_turn s = Some last → (last < turn_id turn)%positive;
  ad_expected : turn_expected s turn = true;
  ad_replay : s_phase s = InitialReplay → validate_replay_events (events turn) 0 0 = Ok tt;
  ad_live : s_phase s ≠ InitialReplay → Forall (λ ev, is_replay_barrier ev = false) (events turn);
  ad_admitted : ∃ v, admit_events s (bool_decide (s_phase s = InitialReplay)) (events turn)
      (initial_admission s (bool_decide (s_phase s = InitialReplay))) = Ok v
    ∧ (v_effects v <= N.of_nat MAX_STAGED_EFFECTS)%N
}.

Lemma validate_policy_turn_accepted s turn :
  validate_policy_turn s turn = Ok tt → accepted s turn.
Proof.
  unfold validate_policy_turn. set (replay := bool_decide (s_phase s = InitialReplay)).
  rewrite !ensure_Ok. intros (Hturn & Hexp & Hv).
  apply rbind_unit_Ok in Hv as [Hbar Hv]. apply ensure_Ok in Hv as [_ Hv].
  apply rbind_Ok in Hv as (v & Hadm & Hv). rewrite !ensure_Ok in Hv. destruct Hv as (_ & Heff & _).
  constructor; try done.
  - intros last Hl. rewrite Hl in Hturn. apply negb_true_iff, Pos.leb_gt in Hturn. done.
  - intros Hp. subst replay. rewrite bool_decide_eq_true_2 in Hbar by done.
    by apply ensure_Ok in Hbar as [_ Hbar].
  - intros Hp. subst replay. rewrite bool_decide_eq_false_2 in Hbar by done.
    apply ensure_Ok in Hbar as [Hbar _]. apply negb_true_iff in Hbar.
    apply Forall_forall. intros ev Hev. destruct (is_replay_barrier ev) eqn:E; [|done].
    rewrite <-Hbar. symmetry. apply existsb_exists. exists ev. by rewrite <-list_elem_of_In.
  - exists v. split; [exact Hadm|]. by apply N.leb_le.
Qed.

(** The outcome of the reduction of an accepted turn. *)
Record turn_reduced s (turn : BackendPolicyTurn) t t' : Prop := {
  tu_working : authority_wf (t_working t');
  tu_visible : t_visible t' = s_state s;
  tu_effects : length (t_staged_effects t') ≤ MAX_STAGED_EFFECTS;
  tu_repeat : repeat_pending s t';
  tu_bootstrap : t_bootstrap t' = true → starting (s_phase s) = true;
  tu_replayed : s_phase s = InitialReplay → t_bootstrap t' = true;
  tu_reconciled : s_phase s = InitialReplay →
    reconciled (events turn) (t_working t) (t_working t');
  tu_action : t_original_action_result t' = t_original_action_result t;
  tu_staged : staged_ok s t';
  tu_requested : requested_ok s t'
}.

Lemma tracked_effects v t :
  tracks v t → (v_effects v <= N.of_nat MAX_STAGED_EFFECTS)%N →
  length (t_staged_effects t) ≤ MAX_STAGED_EFFECTS.
Proof. intros [_ _ _ _ He] Hle. rewrite He in Hle. unfold MAX_STAGED_EFFECTS, u64_max in *. lia. Qed.

Lemma reduce_turn_ok s s1 turn carries :
  session_wf s → accepted s turn → only_private s s1 →
  let t := reopen_transaction carries (base_transaction s) in
  reduces (reduce_turn turn t) s1 (turn_reduced s turn t).
Proof.
  intros Hs [_ _ Hrep Hlive (v & Hv & Heff)] Hpr t.
  pose proof (only_private_fields _ _ Hpr) as (Ea & Ep & Es & Eb & _ & _ & Er & _).
  pose proof (base_transaction_wf s Hs) as [Hw Hvis Hlen Hboot Hpend Hstg Hreq].
  assert (neutral (base_transaction s) t) as Hn by apply reopen_neutral.
  assert (repeat_pending s t) as Hpt by (eapply repeat_pending_same; [apply reopen_repeat|done]).
  assert (staged_ok s t) as Hok by (eapply staged_ok_same; [by apply neutral_staged|done]).
  pose proof Hn as (_ & Ei & _ & En & Eq & Ee & (Fv & Fa & Fb & Fs)).
  unfold reduces, reduce_turn, getS, mbind, stm_bind. rewrite Ep.
  destruct (decide (s_phase s = InitialReplay)) as [Hp|Hp].
  - rewrite bool_decide_eq_true_2 in Hv by done.
    destruct (reduce_initial_replay_ok s1 t (events turn) (initial_admission s true) v) as [b Hb];
      [by apply Hrep|by rewrite (admit_events_ext s)|cbn; by rewrite base_authority_base, Ei
      |cbn; by rewrite base_authority_base, En|by eapply neutral_wf|].
    exists b. destruct (reduce_initial_replay t (events turn) s1) as [[t'|e] s']; [|exact Hb].
    destruct Hb as [(Hrc & Hbt & Hvt & Het & Hqt & Hst & Htm & Hcd & Hact) ->]. split; [|done].
    constructor; try done.
    + apply Hrc.
    + congruence.
    + by rewrite Het, Ee.
    + unfold repeat_pending. destruct (reopen_repeat carries (base_transaction s)) as (_ & Ecd & Etm & _).
      rewrite Htm, Hcd. unfold t. rewrite Etm, Ecd. unfold base_transaction.
      by rewrite (proj2 (sw_idle s Hs) (sw_replay s Hs Hp)).
    + intros _. by rewrite Hp.
    + apply (staged_ok_same s t); [|done]. by split_and!.
    + unfold requested_ok. by rewrite Hact, Fa.
  - rewrite bool_decide_eq_false_2 in Hv by done.
    destruct (reduce_policy_events_ok s1 t t (initial_admission s false) v (events turn)) as [b Hb].
    + intros id Hid. rewrite Eb. rewrite Er in Hid. by apply (sw_repeat s Hs).
    + split_and!; [|by eapply neutral_wf|done].
      eapply neutral_tracks; [exact Hn|by apply initial_tracks|done..].
    + unfold repeat_pending in *. by rewrite Er, Ep.
    + unfold staged_ok in *. by rewrite Ep.
    + by apply Hlive.
    + by rewrite (admit_events_ext s).
    + exists b. destruct (reduce_policy_events (events turn) t s1) as [[t'|e] s']; [|exact Hb].
      destruct Hb as [((Htr & Hwf & (Gv & Ga & Gb & Gs)) & Hpt' & Hst') ->]. split; [|done].
      constructor; try done.
      * congruence.
      * by eapply tracked_effects.
      * unfold repeat_pending in *. by rewrite Er, Ep in Hpt'.
      * rewrite Gb, Fb. intros Hb. by rewrite (Hboot Hb).
      * unfold staged_ok in *. by rewrite Ep in Hst'.
      * unfold requested_ok. by rewrite Ga, Fa.
Qed.

(** ** Frames of a failed call *)

(** A private change that keeps the counters in range and going up. *)
Record privately s s' : Prop := {
  pr_private : only_private s s';
  pr_ticket : (s_last_backend_ticket s <= s_last_backend_ticket s' <= u64_max)%N;
  pr_turn : turn_le (s_last_policy_turn s) (s_last_policy_turn s')
}.

Lemma privately_refl s : session_wf s → privately s s.
Proof. intros Hs. split; [done| |done]. pose proof (sw_ticket s Hs). lia. Qed.

Lemma privately_trans s s1 s2 : privately s s1 → privately s1 s2 → privately s s2.
Proof. intros [] []. split; [by etransitivity|lia|by etransitivity]. Qed.

(** Only the backend and the private transaction change. *)
Lemma privately_same s s1 s2 :
  privately s s1 → only_private s1 s2 → s_last_backend_ticket s2 = s_last_backend_ticket s1 →
  s_last_policy_turn s2 = s_last_policy_turn s1 → privately s s2.
Proof. intros [Hp Hk Ht] Hp2 Ek Et. split; [by etransitivity|by rewrite Ek|by rewrite Et]. Qed.

(** What a failed event leaves: no transaction, and private changes only. *)
Record dropped s s' : Prop := {
  dr_wf : session_wf s';
  dr_private : privately s s';
  dr_idle : s_active s' = None ∧ s_transaction s' = Idle
}.

Lemma dropped_abandon s s' :
  session_wf s → privately s s' → dropped s (abandon_private_transaction s').
Proof.
  intros Hs Hp. split; [|by eapply privately_same|done].
  destruct Hp as [Hp Hk _]. apply (session_wf_abandon s); [done|done|lia].
Qed.

Lemma dropped_moves s s' : dropped s s' → moves unchanged s s'.
Proof. intros [_ [Hp Hk Ht] _]. apply moves_private; [done|lia|done]. Qed.

Lemma privately_backend s s' b : privately s s' → privately s (s' <| s_backend := b |>).
Proof. intros Hp. by eapply privately_same. Qed.

(** ** Tickets and backend calls *)

Lemma wp_allocate_ticket {E} (e : E) s (Q : BackendTicket → Session (B:=B) → Prop) R :
  (∀ k, Npos k = (s_last_backend_ticket s + 1)%N → (Npos k <= u64_max)%N →
    Q k (s <| s_last_backend_ticket := Npos k |>)) →
  ((u64_max <= s_last_backend_ticket s)%N → R e s) → wp (allocate_ticket e) Q R s.
Proof.
  intros HQ HR. unfold wp, allocate_ticket.
  destruct (u64_checked_add (s_last_backend_ticket s) 1) as [raw|] eqn:E1.
  2:{ apply HR. unfold u64_checked_add in E1. destruct (N.leb_spec (s_last_backend_ticket s + 1) u64_max); [done|lia]. }
  apply u64_checked_add_Some in E1 as [-> Hle].
  destruct (s_last_backend_ticket s + 1)%N as [|k] eqn:E2; [lia|]. by apply HQ.
Qed.

Lemma wp_call_m {A E F} (wrap : E → F) (f : B → result A E * B) s
    (Q : A → Session (B:=B) → Prop) R :
  (∀ a b, f (s_backend s) = (Ok a, b) → Q a (s <| s_backend := b |>)) →
  (∀ e b, f (s_backend s) = (Err e, b) → R (wrap e) (s <| s_backend := b |>)) →
  wp (call_m wrap f) Q R s.
Proof.
  intros HQ HR. unfold wp, call_m, call. destruct (f (s_backend s)) as [[a|e] b]; cbn; auto.
Qed.

(** Where the error of a turn can come from. *)
Inductive turn_fault s (turn : BackendPolicyTurn) : SessionEventError → Prop :=
| fault_invalid e : validate_policy_turn s turn = Err e → turn_fault s turn e
| fault_ticket : s_last_backend_ticket s = u64_max → turn_fault s turn Event_BackendTicketExhausted
| fault_refused c : refused c → turn_fault s turn (Event_BackendContract c)
| fault_respond id k r (b b' : B) c :
    wm_respond_policy_turn id k r b = (Err c, b') → turn_fault s turn (Event_Backend c).

(** The ticket a turn is answered with: the staged one, or a fresh one. *)
Record ticket_for s (k : BackendTicket) s1 : Prop := {
  tf_private : privately s s1;
  tf_transaction : s_transaction s1 = s_transaction s;
  tf_active : s_active s1 = s_active s;
  tf_turn : s_last_policy_turn s1 = s_last_policy_turn s;
  tf_bound : (Npos k <= s_last_backend_ticket s1)%N;
  tf_staged : carries_staged_projection s = true → pending_ticket s = Some k;
  tf_fresh : carries_staged_projection s = false → (s_last_backend_ticket s < Npos k)%N
}.

Lemma wp_response_ticket s turn :
  session_wf s → turn_expected s turn = true →
  wp response_ticket (ticket_for s) (λ e s', dropped s s' ∧ turn_fault s turn e) s.
Proof.
  intros Hs Hexp. unfold response_ticket. apply wp_getS.
  pose proof (sw_pending s Hs) as Hpk. pose proof (sw_ticket s Hs) as Hmax.
  unfold pending_ticket in Hpk. unfold turn_expected in Hexp.
  assert (carries_staged_projection s = false → ∀ k, Npos k = (s_last_backend_ticket s + 1)%N →
    (Npos k <= u64_max)%N → ticket_for s k (s <| s_last_backend_ticket := Npos k |>)) as Hnew.
  { intros Hc k Hk Hle. constructor; try done.
    - constructor; cbn; [done|lia|done].
    - by rewrite Hc.
    - intros _. lia. }
  assert (carries_staged_projection s = true → ∀ k, pending_ticket s = Some k → ticket_for s k s) as Hold.
  { intros Hc k Hk. constructor; try done.
    - by apply (sw_pending s Hs).
    - by rewrite Hc. }
  destruct (s_transaction s) as [|k|k|k|k] eqn:Ht; [..|done|].
  - apply wp_allocate_ticket; [apply Hnew; unfold carries_staged_projection; by rewrite Ht|].
    intros Hle. split; [|apply fault_ticket; lia].
    split; [done|by apply privately_refl|]. split; [by apply (sw_idle s Hs)|done].
  - apply wp_ret, Hold; unfold carries_staged_projection, pending_ticket; by rewrite Ht.
  - apply wp_ret, Hold; unfold carries_staged_projection, pending_ticket; by rewrite Ht.
  - apply wp_on_error, wp_allocate_ticket; [apply Hnew; unfold carries_staged_projection; by rewrite Ht|].
    intros Hle. split; [|apply fault_ticket; lia]. apply dropped_abandon; [done|by apply privately_refl].
Qed.

(** ** Answering a turn *)

Lemma derive_response_neutral s t : neutral t (derive_response s t).
Proof. unfold derive_response. by destruct (_ && _). Qed.

Lemma derive_response_repeat s t : same_repeat t (derive_response s t).
Proof. unfold derive_response. by destruct (_ && _). Qed.

Lemma derive_response_working s t : t_working (derive_response s t) = t_working t.
Proof. unfold derive_response. by destruct (_ && _). Qed.

Lemma turn_reduced_neutral s turn t t1 t2 :
  turn_reduced s turn t t1 → neutral t1 t2 → same_repeat t1 t2 → t_working t2 = t_working t1 →
  turn_reduced s turn t t2.
Proof.
  intros [] Hn Hr Ewk. pose proof Hn as (_ & _ & _ & _ & _ & Ee & (Fv & Fa & Fb & _)).
  constructor; rewrite ?Fv, ?Fa, ?Fb, ?Ee, ?Ewk; try done.
  - by eapply repeat_pending_same.
  - by eapply staged_ok_same; [apply neutral_staged|].
  - unfold requested_ok. by rewrite Fa.
Qed.

(** An answer the backend keeps pending. *)
Definition pend (k : BackendTicket) t s : Session (B:=B) :=
  (if t_bootstrap t then s <| s_phase := FinalizingReplay |> else s)
    <| s_active := Some t |> <| s_transaction := InFlight k |>.

Lemma pend_ok s s' k turn t t0 :
  session_wf s → quitting (s_phase s) = false → privately s s' →
  (Npos k <= s_last_backend_ticket s')%N → turn_reduced s turn t0 t →
  session_wf (pend k t s') ∧ moves unchanged s (pend k t s').
Proof.
  intros Hs Hq [Hp Hk Ht] Hkk [Hw Hv He Hr Hb Hbr _ _ [Hs1 Hs2] Hrq].
  pose proof (only_private_fields s s' Hp) as (Ea & Ep & Es & Ebi & _ & Ebs & Ert & Eh & _ & Eex & _).
  set (ph := if t_bootstrap t then FinalizingReplay else s_phase s).
  assert (∃ x, current_authority x = current_authority s ∧ s_phase x = ph ∧ s_state x = s_state s
    ∧ s_bindings x = s_bindings s ∧ s_binding_state x = s_binding_state s
    ∧ s_repeat_target x = s_repeat_target s ∧ s_held_bindings x = s_held_bindings s
    ∧ s_exit_attempted x = s_exit_attempted s ∧ s_last_backend_ticket x = s_last_backend_ticket s'
    ∧ s_last_policy_turn x = s_last_policy_turn s'
    ∧ pend k t s' = x <| s_active := Some t |> <| s_transaction := InFlight k |>)
    as (x & Xa & Xp & Xs & Xb & Xbs & Xr & Xh & Xe & Xk & Xt & ->).
  { exists (if t_bootstrap t then s' <| s_phase := FinalizingReplay |> else s').
    subst ph. unfold pend. by destruct (t_bootstrap t). }
  assert (t_bootstrap t = true → ph = FinalizingReplay) as Hph by (subst ph; by intros ->).
  assert (s_phase s = Live → ph = Live) as Hlive.
  { subst ph. intros Hl. destruct (t_bootstrap t); [|done]. specialize (Hb eq_refl). by rewrite Hl in Hb. }
  assert (ph ≠ InitialReplay ∧ quitting ph = false ∧ phase_rank (s_phase s) ≤ phase_rank ph
    ∧ (starting ph = true → starting (s_phase s) = true)) as (Hni & Hnq & Hrank & Hst).
  { subst ph. destruct (t_bootstrap t) eqn:E; [specialize (Hb eq_refl)|];
      destruct (s_phase s); try done; cbn;
      first [by specialize (Hbr eq_refl)|split_and!; done || lia]. }
  clearbody ph. split; constructor; cbn; rewrite ?Xp, ?Xk; try done.
  - change (authority_wf (current_authority x)). rewrite Xa. apply Hs.
  - intros ? [= <-]. constructor; cbn; try done; [congruence| | | |].
    + by rewrite Xp.
    + unfold repeat_pending in *. cbn. rewrite Xr, Xp. destruct Hr as (? & ? & ?). split_and!; auto.
    + split; [done|]. cbn. rewrite Xp. auto.
    + intros k' r Hkr. cbn. rewrite Xp. destruct (Hrq k' r Hkr). auto.
  - lia.
  - intros ? [= <-]. done.
  - by rewrite Hnq.
  - intros id. cbn. rewrite Xr, Xh, Xbs, Xb. apply (sw_repeat s Hs).
  - intros Hx. rewrite Xs. by apply (sw_state s Hs), Hst.
  - lia.
  - by rewrite Xt.
  - left; exact Xe.
  - lia.
Qed.

Lemma wp_conclude_turn s s' k sub turn t t0 :
  session_wf s → quitting (s_phase s) = false → privately s s' →
  (Npos k <= s_last_backend_ticket s')%N → turn_reduced s turn t0 t →
  wp (conclude_turn k sub t) (λ u s'', ∃ t', turn_reduced s turn t0 t' ∧ stepped t' s u s'')
    (λ _ _, False) s'.
Proof.
  intros Hs Hq Hp Hk Ht. unfold conclude_turn.
  set (t1 := t <| t_close_target := None |>). set (t2 := t1 <| t_projection_submitted := _ |>).
  assert (turn_reduced s turn t0 t2) as Ht2 by (by destruct Ht). clearbody t2. clear t1. destruct sub.
  - eapply wp_mono; [apply (finalize_active_ok s); [done|]|by intros u s'' ?; exists t2|by intros ?? []].
    destruct Hp as [Hp Hpk Hpt], Ht2 as [Hw Hv He Hr Hb _ _ _ _]. done.
  - apply wp_modify, wp_modify, wp_ret. fold (pend k t2 s'). exists t2. split; [done|].
    destruct (pend_ok s s' k turn t2 t0) as [Hwf Hm]; try done. split; try done.
    pose proof (only_private_fields s s' (pr_private _ _ Hp)) as (_ & Ep & _).
    assert (ledger_snapshot s' = ledger_snapshot s) as El by by rewrite (pr_private _ _ Hp).
    unfold pend. destruct (t_bootstrap t2) eqn:Hbt; split; cbn; rewrite ?Hbt; try done; by intros ? [= <-].
Qed.

Lemma wp_take_active s (Q : ActiveTransaction → Session (B:=B) → Prop) R :
  Q (base_transaction s) (s <| s_active := None |>) → wp take_active Q R s.
Proof. done. Qed.

Lemma base_transaction_private s s1 :
  only_private s s1 → s_active s1 = s_active s → base_transaction s1 = base_transaction s.
Proof.
  intros Hp Ha. unfold base_transaction. rewrite Ha. destruct (s_active s); [done|]. by rewrite Hp.
Qed.

(** The turn is now the last one answered. *)
Lemma privately_turn s s' turn :
  accepted s turn → privately s s' →
  privately s (s' <| s_last_policy_turn := Some (turn_id turn) |>).
Proof.
  intros Had [Hp Hk _]. split; [by etransitivity; [exact Hp|]|done|]. cbn.
  destruct (s_last_policy_turn s) as [last|] eqn:E; cbn; [|done].
  exists (turn_id turn). split; [done|]. pose proof (ad_turn _ _ Had last E). lia.
Qed.

Lemma handle_policy_turn_ok s turn :
  session_wf s → quitting (s_phase s) = false →
  let t := reopen_transaction (carries_staged_projection s) (base_transaction s) in
  wp (handle_policy_turn turn) (λ u s', ∃ t', turn_reduced s turn t t' ∧ stepped t' s u s')
    (λ e s', dropped s s' ∧ turn_fault s turn e) s.
Proof.
  intros Hs Hq t. unfold handle_policy_turn. apply wp_getS. cbv zeta.
  apply wp_bind, wp_on_error, wp_of_result;
    [|intros e He; split; [apply dropped_abandon; [done|by apply privately_refl]|by apply fault_invalid]].
  intros [] Hv. apply validate_policy_turn_accepted in Hv as Had. clear Hv.
  apply wp_bind. eapply wp_mono; [apply (wp_response_ticket s turn); [done|apply Had]| |done].
  intros k s1 [Hp1 _ Hact _ Hk _ _]. cbn beta.
  apply wp_bind, wp_take_active. rewrite (base_transaction_private s) by (done || apply Hp1).
  set (s2 := s1 <| s_active := None |>).
  assert (privately s s2) as Hp2 by (by eapply privately_same).
  assert (Npos k <= s_last_backend_ticket s2)%N as Hk2 by done. clearbody s2. clear s1 Hp1 Hact Hk.
  fold t. apply wp_bind, wp_on_error.
  eapply (reduces_wp _ _ (turn_reduced s turn t)); [apply reduce_turn_ok; [done|done|apply Hp2]| |].
  2:{ intros e b He. split; [|by apply fault_refused].
      apply dropped_abandon; [done|by apply privately_backend]. }
  intros t1 b Ht1. apply (privately_backend _ _ b) in Hp2. revert Hk2 Hp2.
  change (s_last_backend_ticket s2) with (s_last_backend_ticket (s2 <| s_backend := b |>)).
  generalize (s2 <| s_backend := b |>). clear s2 b. intros s3 Hk3 Hp3.
  apply wp_getS, wp_modify, wp_bind, wp_on_error, wp_call_m.
  2:{ intros e b He. split; [|by eapply fault_respond].
      apply dropped_abandon; [done|]. by apply privately_backend, privately_turn. }
  intros sub b _. eapply wp_mono;
    [apply (wp_conclude_turn s _ k sub turn _ t); [done|done|by apply privately_backend, privately_turn|done|]
    |done|by intros ?? []].
  eapply turn_reduced_neutral;
    [exact Ht1|apply derive_response_neutral|apply derive_response_repeat|apply derive_response_working].
Qed.

(** Events do not fail over the lifecycle. *)
Definition event_fault (e : SessionEventError) : bool :=
  match e with InvalidLifecycleOperation _ _ => false | _ => true end.

Definition faulty {A} (r : result A SessionEventError) : Prop := ∀ e, r = Err e → event_fault e = true.

Lemma faulty_ensure {A} c e (k : result A SessionEventError) :
  event_fault e = true → faulty k → faulty (ensure c else e; k).
Proof. intros He Hk. destruct c; [exact Hk|]. by intros e' [= <-]. Qed.

Lemma faulty_bind {A C} (r : result A SessionEventError) (k : A → result C SessionEventError) :
  faulty r → (∀ a, faulty (k a)) → faulty (try a := r in k a).
Proof. intros Hr Hk. destruct r as [a|e]; [apply Hk|]. intros e' [= <-]. by apply Hr. Qed.

Lemma faulty_Ok {A} (a : A) : faulty (Ok a).
Proof. by intros e. Qed.

Lemma admit_event_faulty s replay ev v : faulty (admit_event s replay ev v).
Proof.
  destruct ev as [|i x y|i|i x|[i|]|x|w|i r|k|k|k| |old new]; cbn [admit_event];
    repeat case_match; repeat (apply faulty_ensure; [done|] || apply faulty_Ok || (apply faulty_bind; [|intros]));
    try case_match; repeat (apply faulty_ensure; [done|] || apply faulty_Ok); by intros e [= <-].
Qed.

Lemma admit_events_faulty s replay evs v : faulty (admit_events s replay evs v).
Proof.
  revert v. induction evs as [|ev evs IH]; intros v; cbn [admit_events]; [apply faulty_Ok|].
  apply faulty_bind; [apply admit_event_faulty|done].
Qed.

Lemma validate_replay_faulty evs f x : faulty (validate_replay_events evs f x).
Proof.
  revert f x. induction evs as [|ev evs IH]; intros f x; cbn [validate_replay_events]; [apply faulty_Ok|].
  destruct ev; try apply IH; try (by intros e [= <-]); case_match; try apply IH; by intros e [= <-].
Qed.

Lemma validate_policy_turn_faulty s turn : faulty (validate_policy_turn s turn).
Proof.
  unfold validate_policy_turn. do 2 (apply faulty_ensure; [done|]). apply faulty_bind.
  { case_match; [apply faulty_ensure; [done|apply validate_replay_faulty]|].
    apply faulty_ensure; [done|apply faulty_Ok]. }
  intros _. apply faulty_ensure; [done|]. apply faulty_bind; [apply admit_events_faulty|intros v].
  do 2 (apply faulty_ensure; [done|]). apply faulty_Ok.
Qed.

(** ** The other events *)

Lemma invalid_sequence_ok {A} s Q :
  session_wf s → wp (invalid_sequence (A:=A)) Q (λ e s', dropped s s' ∧ event_fault e = true) s.
Proof.
  intros Hs. apply wp_on_error, wp_raise. split; [|done]. apply dropped_abandon; [done|by apply privately_refl].
Qed.

Lemma active_when_pending s k :
  session_wf s → pending_ticket s = Some k → ∃ t, s_active s = Some t ∧ transaction_wf s t.
Proof.
  intros Hs Hk. destruct (s_active s) as [t|] eqn:Ht.
  - exists t. split; [done|]. by apply (sw_active s Hs).
  - unfold pending_ticket in Hk. by rewrite (proj1 (sw_idle s Hs) Ht) in Hk.
Qed.

Lemma handle_operation_completed_ok s ticket res :
  session_wf s →
  wp (handle_operation_completed ticket res)
    (stepped (base_transaction s) s) (λ e s', dropped s s' ∧ event_fault e = true) s.
Proof.
  intros Hs. unfold handle_operation_completed. apply wp_getS.
  destruct (s_transaction s) as [|k|k|k|k] eqn:Htr; try by apply invalid_sequence_ok.
  case_decide as Hk; [subst k|by apply invalid_sequence_ok].
  destruct res as [[]|e];
    [|apply wp_on_error, wp_raise; split; [apply dropped_abandon; [done|by apply privately_refl]|done]].
  assert (pending_ticket s = Some ticket) as Hpk by (unfold pending_ticket; by rewrite Htr).
  destruct (active_when_pending s ticket Hs Hpk) as (t & Ht & Hwf). rewrite Ht.
  apply wp_modify, wp_ret.
  split; [|apply moves_private; [done|cbn; lia|done]| | |].
  2:{ unfold carries_result, base_transaction. cbn. by rewrite Ht. }
  2:{ rewrite base_authority_base. done. }
  2:{ unfold base_transaction. rewrite Ht.
      split; cbn; rewrite ?Ht; try done; [by intros ? [= <-]|].
      destruct (t_bootstrap t) eqn:Hbt; [by apply (tw_bootstrap _ _ Hwf)|done]. }
  apply (session_wf_private s); try done; cbn.
  - by rewrite Ht.
  - intros t' Ht'. by apply (sw_active s Hs).
  - apply (sw_ticket s Hs).
  - intros k' [= <-]. by apply (sw_pending s Hs).
  - intros Hq. by rewrite (sw_quit s Hs Hq) in Htr.
  - intros Hq. by rewrite (sw_replay s Hs Hq) in Htr.
Qed.

Lemma handle_observations_drained_ok s ticket :
  session_wf s → quitting (s_phase s) = false →
  wp (handle_observations_drained ticket)
    (stepped (base_transaction s) s) (λ e s', dropped s s' ∧ event_fault e = true) s.
Proof.
  intros Hs Hq. unfold handle_observations_drained. apply wp_getS.
  destruct (s_transaction s) as [|k|k|k|k] eqn:Htr; try by apply invalid_sequence_ok.
  case_decide as Hk; [subst k|by apply invalid_sequence_ok].
  assert (pending_ticket s = Some ticket) as Hpk by (unfold pending_ticket; by rewrite Htr).
  destruct (active_when_pending s ticket Hs Hpk) as (t & Ht & [Hw Hv He Hb Hr _ _]). rewrite Ht.
  assert (base_transaction s = t) as -> by (unfold base_transaction; by rewrite Ht).
  apply wp_modify. eapply wp_mono; [apply (finalize_active_ok s); [done|]|done|by intros ?? []].
  pose proof (sw_ticket s Hs). constructor; try done.
  intros Hbt. by rewrite (Hb Hbt).
Qed.

(** What the transaction an event ends in has to do with the session. *)
Record continues s t : Prop := {
  cs_action : t_original_action_result t = t_original_action_result (base_transaction s);
  cs_bootstrap : t_bootstrap t = true → starting (s_phase s) = true;
  cs_staged : staged_ok s t;
  cs_requested : requested_ok s t
}.

Lemma base_continues s : session_wf s → continues s (base_transaction s).
Proof.
  intros Hs. destruct (base_transaction_wf s Hs) as [_ _ _ Hb _ Hst Hrq]. split; try done.
  intros E. by rewrite (Hb E).
Qed.

Lemma owner_base s : owner s = fst <$> t_original_action_result (base_transaction s).
Proof. unfold owner, base_transaction. destruct (s_active s) as [t|]; [|done]. cbn. by destruct (t_original_action_result t). Qed.

Lemma installed_phase_starting s t :
  quitting (s_phase s) = false → (t_bootstrap t = true → starting (s_phase s) = true) →
  installed_phase t s = Live ∨ starting (s_phase s) = true ∧ starting (installed_phase t s) = true.
Proof.
  intros Hq Hb. unfold installed_phase. destruct (_ && _ && _); [by left|].
  destruct (t_bootstrap t); [right; by rewrite Hb|]. destruct (s_phase s); first [by left|by right|done].
Qed.

Lemma stepped_promised s t u s' :
  quitting (s_phase s) = false → continues s t → stepped t s u s' → promised u s s'.
Proof.
  intros Hq [Hact Hb [Hst Hn] Hrq] [_ _ Hres _ [Hpa Hac Hef Hph Hsn]].
  pose proof (owner_base s) as Ho. rewrite <-Hact in Ho. unfold carries_result in Hres.
  destruct (s_active s') as [t'|] eqn:Ha'.
  - rewrite (Hac t' eq_refl) in *. destruct Hres as [_ Hcomp], Hsn as [Hper Hls].
    assert (starting (s_phase s') = starting (s_phase s) ∧ quitting (s_phase s') = quitting (s_phase s))
      as [Est Equ] by (rewrite Hph; destruct (t_bootstrap t); [by rewrite Hb, Hq|done]).
    split; rewrite ?Hcomp, ?Hpa, ?Hef, ?Hper; cbn; try done.
    + rewrite Ho. unfold owner. rewrite Ha'. cbn. by destruct (t_original_action_result t).
    + unfold shown. by rewrite Est, Hls.
  - assert (owner s' = None) as Ho' by (unfold owner; by rewrite Ha').
    split.
    + rewrite Hres, Hpa, Ho'. unfold completion_of. rewrite Ho.
      destruct (t_original_action_result t) as [[k r]|] eqn:Hor; cbn; [|done].
      by destruct (Hrq k r Hor) as [-> _].
    + rewrite Hef, Hst, Hph. destruct (t_quit_staged t) eqn:Hqs.
      * assert (s_phase s = Live) as Hl.
        { destruct (decide (s_phase s = Live)) as [|Hne]; [done|]. by rewrite (Hn Hne) in Hst. }
        split_and!; [done|done|]. rewrite Ho. unfold quit_after. by destruct (t_original_action_result t) as [[]|].
      * rewrite Hq. destruct (installed_phase_starting s t Hq Hb) as [->|[_ E]]; [done|].
        by destruct (installed_phase t s).
    + rewrite Hef. intros Hne. destruct (decide (s_phase s = Live)); [done|]. by rewrite Hn in Hne.
    + rewrite Hsn. destruct (installed_phase_starting s t Hq Hb) as [Hl|[Hs1 Hs2]].
      * rewrite decide_True by done.
        assert (shown s' = Some (ledger_snapshot s')) as ->
          by (unfold shown; rewrite Hph, Hl; by destruct (t_quit_staged t)).
        clear Hsn. unfold committed_snapshot, shown. case_decide as Hls; [rewrite Hls; by rewrite changed_shown|].
        destruct (s_phase s); done.
      * assert (s_phase s ≠ Live ∧ installed_phase t s ≠ Live) as [Hnl Hnl']
          by (split; intros E; by rewrite E in *).
        rewrite decide_False by done. unfold committed_snapshot, shown.
        rewrite decide_False, Hs1 by done. cbn. rewrite Hph.
        rewrite (Hn Hnl) in Hst. destruct (t_quit_staged t); [done|]. by rewrite Hs2.
Qed.

Lemma handle_backend_event_ok s ev :
  session_wf s →
  wp (handle_backend_event ev)
    (λ u s', ∃ t, continues s t ∧ promised u s s' ∧ stepped t s u s')
    (λ e s', dropped s s' ∧ event_fault e = true) s.
Proof.
  intros Hs. unfold handle_backend_event. apply wp_getS.
  destruct (quitting (s_phase s)) eqn:Hq; [by apply invalid_sequence_ok|].
  destruct ev as [turn|k res|k|].
  - eapply wp_mono; [by apply handle_policy_turn_ok| |].
    2: { intros e s' [Hd Hf]. split; [done|]. destruct Hf as [e Hv| | |]; try done.
         by apply validate_policy_turn_faulty in Hv. }
    intros u s' (t & Ht & Hst). exists t.
    assert (continues s t) as Hc.
    { destruct Ht as [_ _ _ _ Hb _ _ Ha Hs1 Hs2]. split; try done. rewrite Ha.
      by destruct (neutral_frame _ _ (reopen_neutral (carries_staged_projection s) (base_transaction s)))
        as (_ & -> & _). }
    split_and!; [done|by eapply stepped_promised|done].
  - eapply wp_mono; [by apply handle_operation_completed_ok| |done]. intros u s' Hst.
    pose proof (base_continues s Hs) as Hc. exists (base_transaction s). split_and!; [done|by eapply stepped_promised|done].
  - eapply wp_mono; [by apply handle_observations_drained_ok| |done]. intros u s' Hst.
    pose proof (base_continues s Hs) as Hc. exists (base_transaction s). split_and!; [done|by eapply stepped_promised|done].
  - apply wp_on_error, wp_raise. split; [|done]. apply dropped_abandon; [done|by apply privately_refl].
Qed.
End turns.
