(* ===== verification/Actions.v ===== *)
(** * Caller-requested operations

    The public actions, key repeats and lifecycle calls keep the invariant, never
    panic, and change nothing but counters and the backend when they fail. *)

From Stdlib Require Import ZArith Lia.
From stdpp Require Import prelude list gmap sorting.
From S2P Require Import Prelude Layout Ledger Projection Keys State Backend Snapshot Visible Authority Hoare AuthorityInv Session Reduce SessionInv Finalize Turns.

Section actions.
Context {B : Type} `{WmBackend B}.
Implicit Types (s : Session (B:=B)) (t : ActiveTransaction).

(** What a failed action leaves: private changes, and the transaction as it was. *)
Record untouched s s' : Prop := {
  ut_wf : session_wf s';
  ut_private : privately s s';
  ut_active : s_active s' = s_active s;
  ut_transaction : s_transaction s' = s_transaction s;
  ut_turn : s_last_policy_turn s' = s_last_policy_turn s
}.

Lemma untouched_refl s : session_wf s → untouched s s.
Proof. intros Hs. constructor; try done. by apply privately_refl. Qed.

Lemma untouched_moves s s' : untouched s s' → moves unchanged s s'.
Proof. intros [_ [Hp Hk Ht] _ _ _]. apply moves_private; [done|lia|done]. Qed.

(** What a successful action leaves. *)
Record ended s (u : SessionUpdate) s' : Prop := {
  en_wf : session_wf s';
  en_moves : moves u s s';
  en_promised : promised u s s'
}.

Lemma ended_refl s : session_wf s → ended s unchanged s.
Proof. intros Hs. split; [done|apply moves_refl|by apply promised_unchanged]. Qed.

Lemma untouched_promised s s' : untouched s s' → promised unchanged s s'.
Proof. intros [_ [Hp _ _] Ha _ _]. by apply promised_unchanged. Qed.

(** A session an action may start in. *)
Definition ready s : Prop := s_phase s = Live ∧ s_transaction s = Idle.

Lemma not_ready_false s : not_ready s = false ↔ ready s.
Proof.
  unfold not_ready, has_active_backend_transaction, ready.
  rewrite orb_false_iff, !bool_decide_eq_false. split; intros [H1 H2]; split;
    [by apply dec_stable|by apply dec_stable|by intros Hn|by intros Hn].
Qed.

Lemma ready_active s : session_wf s → ready s → s_active s = None.
Proof. intros Hs [_ Ht]. by apply (sw_idle s Hs). Qed.

(** ** Installing at once *)

(** The authority [a] installed and published without a backend turn. *)
Definition installed_now (a : AuthorityState) s : option RealmState * Session :=
  publish_current_state false (install_authority a s).

Lemma wp_snapshot {E C} s (k : option SessionSnapshotV1 → stm Session (failure E) C) Q R :
  authority_wf (current_authority s) → wp (k (committed_snapshot s)) Q R s →
  wp (x ← snapshot; k x) Q R s.
Proof. intros Ha Hk. apply wp_bind. unfold wp at 1. by rewrite snapshot_run. Qed.

Lemma wp_publish {E C} force s (k : option RealmState → stm Session (failure E) C) Q R :
  wp (k (publish_current_state force s).1) Q R (publish_current_state force s).2 →
  wp (x ← publish force; k x) Q R s.
Proof.
  intros Hk. apply wp_bind. unfold wp at 1, publish.
  by destruct (publish_current_state force s) as [up s'].
Qed.

Lemma publish_authority force s :
  authority_wf (current_authority s) →
  authority_wf (current_authority (publish_current_state force s).2).
Proof.
  intros Ha. pose proof (publish_spec force s) as Hspec.
  destruct (publish_current_state force s) as [up s']. destruct Hspec as [Es _]. cbn [snd].
  rewrite Es. by apply (authority_wf_ext (current_authority s)).
Qed.

Lemma install_authority_wf a s : authority_wf a → authority_wf (current_authority (install_authority a s)).
Proof.
  intros Ha. pose proof (install_authority_fields a s) as (El & Ei & En & _).
  by apply (authority_wf_ext a).
Qed.

Lemma wp_publish_now {E} s (k : option RealmState → option SessionSnapshotV1 → SessionUpdate)
    (Q : SessionUpdate → Session (B:=B) → Prop) (R : E → Session (B:=B) → Prop) :
  authority_wf (current_authority s) →
  Q (k (publish_current_state false s).1 (committed_snapshot (publish_current_state false s).2))
    (publish_current_state false s).2 →
  wp (st ← publish false; after ← snapshot; mret (k st after)) Q R s.
Proof.
  intros Ha HQ. apply wp_publish, wp_snapshot; [by apply publish_authority|]. exact HQ.
Qed.

Lemma wp_install_now a s (k : option SessionSnapshotV1 → option RealmState →
      option SessionSnapshotV1 → SessionUpdate) {E} (Q : SessionUpdate → Session (B:=B) → Prop)
    (R : E → Session (B:=B) → Prop) :
  session_wf s → authority_wf a →
  Q (k (committed_snapshot s) (installed_now a s).1 (committed_snapshot (installed_now a s).2))
    (installed_now a s).2 →
  wp (before ← snapshot; _ ← modify (install_authority a); st ← publish false; after ← snapshot;
      mret (k before st after)) Q R s.
Proof.
  intros Hs Ha. pose proof (install_authority_wf a s Ha) as Ha'. unfold installed_now.
  intros HQ. apply wp_snapshot; [apply Hs|]. apply wp_modify. revert Ha' HQ.
  generalize (install_authority a s). intros s1 Ha' HQ.
  exact (wp_publish_now s1 (k (committed_snapshot s)) Q R Ha' HQ).
Qed.

(** What a publication of an installed authority leaves, field by field. *)
Record published a s s' : Prop := {
  pb_bindings : s_bindings s' = s_bindings s;
  pb_phase : s_phase s' = s_phase s;
  pb_transaction : s_transaction s' = s_transaction s;
  pb_active : s_active s' = s_active s;
  pb_target : s_repeat_target s' = s_repeat_target s;
  pb_ticket : s_last_backend_ticket s' = s_last_backend_ticket s;
  pb_turn : s_last_policy_turn s' = s_last_policy_turn s;
  pb_exit : s_exit_attempted s' = s_exit_attempted s;
  pb_held : s_held_bindings s' = a_held_bindings a;
  pb_binding_state : s_binding_state s' = s_binding_state s;
  pb_ledger : s_ledger s' = a_ledger a;
  pb_ids : s_backend_ids s' = a_backend_ids a;
  pb_next : s_next_win_id s' = a_next_win_id a
}.

Lemma installed_now_published a s :
  published a s (installed_now a s).2
  ∧ publishes (installed_now a s).1 s (installed_now a s).2.
Proof.
  pose proof (install_authority_fields a s) as Hf. cbv zeta in Hf. unfold installed_now.
  revert Hf. generalize (install_authority a s). intros s1
    (El & Ei & En & Eh & Eb & Ep & Es & Ebs & Er & Ek & Eu & Ee & Eac & Et & _ & _).
  pose proof (publish_spec false s1) as Hspec.
  destruct (publish_current_state false s1) as [up s'] eqn:Epub. cbn [fst snd].
  destruct Hspec as [Es' _]. split.
  - rewrite Es'. by constructor.
  - by apply (publish_publishes _ _ _ _ s) in Epub.
Qed.

(** The update that reports a publication. *)
Record reports a s (u : SessionUpdate) : Prop := {
  rp_state : up_state u = (installed_now a s).1;
  rp_persistence : up_persistence u
    = changed_snapshot (committed_snapshot s) (committed_snapshot (installed_now a s).2);
  rp_rest : up_repeat_timer u = Timer_Preserve ∧ up_pending_action u = None ∧ up_action_completion u = None;
  rp_effects : length (up_effects u) ≤ MAX_STAGED_EFFECTS
}.

Lemma installed_now_ok a s u :
  session_wf s → ready s → authority_wf a → a_held_bindings a = s_held_bindings s →
  reports a s u →
  let s' := (installed_now a s).2 in
  session_wf s' ∧ moves u s s' ∧ (quit_points (up_effects u) = [] → promised u s s').
Proof.
  intros Hs Hr Ha Hh [Hst Hper (Htm & Hpa & Hco) Hlen]. pose proof (ready_active s Hs Hr) as Hact.
  destruct Hr as [Hp Ht]. destruct (installed_now_published a s) as
    [[Xb Xp Xt Xa Xr Xk Xu Xe Xh Xbs Xl Xi Xn] Hpub].
  revert Hst Hper Xb Xp Xt Xa Xr Xk Xu Xe Xh Xbs Xl Xi Xn Hpub. generalize (installed_now a s).
  intros [up s']. cbn [fst snd]. intros. rewrite Hp in Xp. rewrite Ht in Xt. rewrite Hact in Xa.
  split_and!; [constructor|constructor|intros Hqp; constructor];
    rewrite ?Xp, ?Hst, ?Htm, ?Hco, ?Hpa, ?Hqp; try done.
  - by apply (authority_wf_ext a).
  - by rewrite Xa.
  - rewrite Xk. apply Hs.
  - intros k. unfold pending_ticket. by rewrite Xt.
  - intros id. rewrite Xr, Xh, Xbs, Xb, Hh. apply (sw_repeat s Hs).
  - by rewrite Hp.
  - by rewrite Xk.
  - by rewrite Xu.
  - left. exact Xe.
  - unfold owner. by rewrite Xa, Hact.
  - by rewrite Hp.
  - destruct (committed_live s Hp) as [Ec Es]. destruct (committed_live s' Xp) as [Ec' Es'].
    by rewrite Hper, Es, Es', Ec, Ec', changed_shown.
Qed.

(** ** Submitting to the backend *)

Lemma wp_submit_staged {E} (wrap : BackendError → E) sub k s t :
  session_wf s → ready s → (s_last_backend_ticket s < Npos k <= u64_max)%N →
  (sub = AwaitingExternalTurn k ∨ sub = AwaitingInternalTurn k) → transaction_wf s t →
  wp (submit_staged wrap sub t)
    (λ _ s', session_wf s' ∧ (∀ u, up_state u = None → up_repeat_timer u = Timer_Preserve →
       up_effects u = [] → moves u s s') ∧ only_private s s' ∧ s_active s' = Some t)
    (λ _ s', untouched s s') (s <| s_last_backend_ticket := Npos k |>).
Proof.
  intros Hs Hr Hk Hsub Ht. pose proof (ready_active s Hs Hr) as Hact. destruct Hr as [Hp Htr].
  unfold submit_staged. apply wp_modify, wp_on_error, wp_call_m.
  - intros u b _. set (s' := _ <| s_backend := b |>). split_and!; [| |done|done].
    + apply (session_wf_private s); try done; cbn; rewrite ?Hp; try done.
      * split; [done|]. by destruct Hsub as [->| ->].
      * by intros ? [= <-].
      * lia.
      * unfold pending_ticket. cbn. destruct Hsub as [->| ->]; intros ? [= <-]; lia.
    + intros up Hst Htm Hef. apply (moves_after_private _ _ s'); [done|cbn; lia|done|].
      constructor; rewrite ?Hst, ?Htm, ?Hef; try done; [by left|]. unfold MAX_STAGED_EFFECTS. cbn. lia.
  - intros e b _. constructor; [|constructor; cbn; [done|lia|done]|done|done|done].
    apply (session_wf_abandon s); [done|done|cbn; lia].
Qed.

Lemma staged_ended s s' t u :
  session_wf s → ready s → session_wf s' → moves u s s' → only_private s s' → s_active s' = Some t →
  up_action_completion u = None → up_persistence u = None → up_effects u = [] →
  up_pending_action u = fst <$> t_original_action_result t → ended s u s'.
Proof.
  intros Hs Hr Hs' Hm Hp Ha Hc Hper Hef Hpa. pose proof (ready_active s Hs Hr) as Hact.
  assert (owner s = None ∧ owner s' = fst <$> t_original_action_result t) as [Ho Ho'].
  { unfold owner. rewrite Hact, Ha. cbn. by destruct (t_original_action_result t). }
  split; [done|done|]. split; rewrite ?Hc, ?Hper, ?Hef, ?Hpa; cbn; try done.
  - rewrite Ho'. by destruct (t_original_action_result t).
  - by rewrite Hp.
  - by apply only_private_shown.
Qed.

(** ** Ledger actions *)

Lemma new_transaction_wf s : session_wf s → s_active s = None → transaction_wf s (new_active_transaction s).
Proof.
  intros Hs Ha. pose proof (base_transaction_wf s Hs) as Hb.
  unfold base_transaction in Hb. by rewrite Ha in Hb.
Qed.

(** A transaction an action was requested by. *)
Lemma requested_wf s t n :
  transaction_wf s t → s_phase s = Live → t_quit_staged t = false →
  transaction_wf s (t <| t_original_action_result := Some (n, Ok tt) |>).
Proof.
  intros [Hw Hv He Hb Hr [Hst Hn] _] Hl Hq. split; try done.
  - split; [|done]. change (quit_points (t_staged_effects t) = if t_quit_staged t then [OriginalAction n] else []).
    by rewrite Hst, Hq.
  - by intros k r [= <- <-].
Qed.

(** The transaction a staged change starts from. *)
Lemma staged_transaction_wf s t f :
  session_wf s → transaction_wf s t → (∀ l, ledger_wf l → keeps l (f l)) →
  transaction_wf s (on_ledger f t).
Proof.
  intros Hs [Hw Hv He Hb Hr Hst Hrq] Hf. constructor; try done.
  apply (authority_wf_ledger (t_working t) f); [done|]. apply Hf, Hw.
Qed.

Lemma wp_allocate_then {E A} (e : E) (k : BackendTicket → stm (Session (B:=B)) (failure E) A) Q
    (R : E → Session (B:=B) → Prop) s :
  (∀ n, (s_last_backend_ticket s < Npos n <= u64_max)%N →
    wp (k n) Q R (s <| s_last_backend_ticket := Npos n |>)) →
  R e s → wp (n ← allocate_ticket e; k n) Q R s.
Proof.
  intros Hk HR. apply wp_bind, wp_allocate_ticket; [|done]. intros n Hn Hle. apply Hk. lia.
Qed.

Lemma stage_policy_ledger_update_ok f s :
  session_wf s → ready s → (∀ l, ledger_wf l → keeps l (f l)) →
  wp (stage_policy_ledger_update f) (ended s) (λ _ s', untouched s s') s.
Proof.
  intros Hs Hr Hf. pose proof (ready_active s Hs Hr) as Hact.
  unfold stage_policy_ledger_update. apply wp_getS. cbv zeta.
  pose proof (staged_transaction_wf s _ f Hs (new_transaction_wf s Hs Hact) Hf) as Ht.
  assert (a_held_bindings (t_working (on_ledger f (new_active_transaction s))) = s_held_bindings s)
    as Hheld by done.
  set (t := on_ledger f (new_active_transaction s)) in *.
  case_decide; [by apply wp_ret, ended_refl|].
  assert (t_quit_staged t = false) as Hq by done. clearbody t.
  set (t1 := t <| t_most_recent_private_projection := _ |>).
  set (t2 := t1 <| t_projection_required := _ |>).
  assert (transaction_wf s t2) as Ht2 by (by destruct Ht).
  assert (t_working t2 = t_working t) as Ew by done.
  assert (t_quit_staged t2 = false) as Hq2 by done. clearbody t2. clear t1.
  destruct (t_projection_required t2).
  - apply wp_allocate_then; [|by apply untouched_refl]. intros n Hn.
    set (t3 := t2 <| t_original_action_result := _ |>).
    assert (transaction_wf s t3) as Ht3 by (by apply requested_wf; [|apply Hr|]).
    assert (t_original_action_result t3 = Some (n, Ok tt)) as Ho by done. clearbody t3.
    apply wp_bind. eapply wp_mono; [by apply (wp_submit_staged _ _ n s t3); auto| |done].
    intros u s' (Hwf & Hm & Hpr & Hac). apply wp_ret. eapply (staged_ended s s' t3); try done; [by apply Hm|].
    by rewrite Ho.
  - apply (wp_install_now (t_working t2) s (λ before st after,
      unchanged <| up_persistence := changed_snapshot before after |> <| up_state := st |>));
      [done|apply Ht2|].
    edestruct (installed_now_ok (t_working t2) s) as (? & ? & Hpm);
      [done|done|apply Ht2|by rewrite Ew| |split; [done|done|by apply Hpm]].
    split; try done. cbn. unfold MAX_STAGED_EFFECTS. lia.
Qed.

(** An orbit id of the interface is one of the six. *)
Definition ledger_action_valid (act : LedgerAction) : Prop :=
  match act with SwitchOrbit o | MoveFocusedToOrbit o => o < ORBIT_COUNT | _ => True end.

Lemma ledger_action_keeps act l : ledger_action_valid act → ledger_wf l → keeps l (ledger_action act l).
Proof. destruct act; cbn; auto with realm. Qed.

Lemma perform_ok act s :
  session_wf s → ledger_action_valid act →
  wp (perform act) (ended s) (λ _ s', untouched s s') s.
Proof.
  intros Hs Hv. unfold perform, stage_ledger_update. apply wp_getS.
  destruct (not_ready s) eqn:Hr; [apply wp_raise; by apply untouched_refl|].
  apply not_ready_false in Hr. apply stage_policy_ledger_update_ok; [done|done|].
  intros l Hl. by apply ledger_action_keeps.
Qed.

(** ** The other actions *)

Lemma request_close_focused_ok s :
  session_wf s →
  wp request_close_focused (ended s) (λ _ s', untouched s s') s.
Proof.
  intros Hs. unfold request_close_focused. apply wp_getS.
  destruct (not_ready s) eqn:Hr; [apply wp_raise; by apply untouched_refl|].
  apply not_ready_false in Hr. pose proof (ready_active s Hs Hr) as Hact.
  destruct (focused (s_ledger s)) as [w|]; [|by apply wp_ret, ended_refl].
  apply wp_allocate_then; [|by apply untouched_refl]. intros n Hn. apply wp_getS. cbv zeta.
  change (new_active_transaction (s <| s_last_backend_ticket := Npos n |>)) with (new_active_transaction s).
  pose proof (new_transaction_wf s Hs Hact) as Ht.
  set (t := new_active_transaction s <| t_close_target := Some w |> <| t_original_action_result := Some (n, Ok tt) |>).
  assert (transaction_wf s t) as Ht' by (apply requested_wf; [by destruct Ht|apply Hr|done]).
  assert (t_original_action_result t = Some (n, Ok tt)) as Ho by done. clearbody t.
  apply wp_bind. eapply wp_mono; [by apply (wp_submit_staged _ _ n s); auto| |done].
  intros u s' (Hwf & Hm & Hpr & Hac). apply wp_ret. eapply (staged_ended s s' t); try done; [by apply Hm|].
  by rewrite Ho.
Qed.

Lemma request_spawn_ok argv s :
  session_wf s →
  wp (request_spawn argv) (ended s) (λ _ s', untouched s s') s.
Proof.
  intros Hs. unfold request_spawn. apply wp_getS.
  destruct (not_ready s) eqn:Hr; [apply wp_raise; by apply untouched_refl|].
  apply not_ready_false in Hr.
  destruct argv as [|[|c arg] argv]; try (apply wp_raise; by apply untouched_refl).
  apply wp_ret. split; [done|..].
  - constructor; try done; [by left|]. cbn. unfold MAX_STAGED_EFFECTS. lia.
  - split; try done. intros _. apply Hr.
Qed.

(** The two updates that touch the published state alone. *)
Lemma state_update_ok s s' u st :
  session_wf s → ready s → up_state u = Some st → up_repeat_timer u = Timer_Preserve → up_effects u = [] →
  revision st = u64_saturating_add (revision (s_state s)) 1 → ¬ same_picture (s_state s) st →
  s_state s' = st → (∃ w m, s' = s <| s_whichkey := w |> <| s_modules := m |> <| s_state := st |>) →
  up_persistence u = None → up_pending_action u = None ∧ up_action_completion u = None →
  ended s u s'.
Proof.
  intros Hs Hr Hu Htm Hef Hrev Hnew Hst (w & m & ->) Hper [Hpa Hco]. pose proof (ready_active s Hs Hr) as Hact.
  destruct Hr as [Hp Ht]. destruct Hs as [Ha Hi Hac Htk Hpk Hq Hrp Hre Hs0].
  assert (owner (s <| s_whichkey := w |> <| s_modules := m |> <| s_state := st |>) = owner s) as Ho by done.
  assert (shown (s <| s_whichkey := w |> <| s_modules := m |> <| s_state := st |>) = shown s) as Hsh by done.
  split; [constructor|constructor|by constructor; rewrite ?Hpa, ?Hco, ?Hper, ?Hef]; try done.
  - by apply (authority_wf_ext (current_authority s)).
  - intros t. cbn. by rewrite Hact.
  - cbn. by rewrite Hp.
  - by left.
  - rewrite Hu. cbn. split_and!; [done|done|by right].
  - by rewrite Htm.
  - rewrite Hef. unfold MAX_STAGED_EFFECTS. cbn. lia.
Qed.

Lemma toggle_whichkey_ok s :
  session_wf s → ended s (toggle_whichkey s).1 (toggle_whichkey s).2.
Proof.
  intros Hs. unfold toggle_whichkey. destruct (not_ready s) eqn:Hr; [by apply ended_refl|].
  apply not_ready_false in Hr.
  cbv zeta. cbn [fst snd].
  eapply (state_update_ok s); [done|done|reflexivity|reflexivity|reflexivity|reflexivity| |reflexivity| |done|done].
  - rewrite same_picture_iff. intros E. apply (f_equal state_whichkey) in E. cbn in E.
    by destruct (state_whichkey (s_state s)).
  - eexists _, (s_modules s). done.
Qed.

Lemma update_modules_ok ms s :
  session_wf s → ended s (update_modules ms s).1 (update_modules ms s).2.
Proof.
  intros Hs. unfold update_modules. destruct (not_ready s) eqn:Hr; [by apply ended_refl|].
  apply not_ready_false in Hr. case_decide as Hms; [by apply ended_refl|].
  cbv zeta. cbn [fst snd].
  eapply (state_update_ok s); [done|done|reflexivity|reflexivity|reflexivity|reflexivity| |reflexivity| |done|done].
  - rewrite same_picture_iff. intros E. apply (f_equal state_modules) in E. by cbn in E.
  - eexists (s_whichkey s), _. done.
Qed.

(** ** Key repeats *)

Lemma apply_binding_action_repeat s t id c :
  t_quit_staged t = false →
  a_held_bindings (t_working (apply_binding_action s t id c)) = a_held_bindings (t_working t)
  ∧ t_repeat_timer (apply_binding_action s t id c) = t_repeat_timer t.
Proof.
  intros Hq. unfold apply_binding_action. rewrite Hq. cbv zeta.
  pose proof (binding_effect_repeat s (action c) t) as Hr. revert Hr.
  generalize (binding_effect s (action c) t). intros t1 Hr.
  set (t2 := require_projection _ t1).
  assert (same_repeat t t2) as (Eh & _ & Et & _)
    by (etransitivity; [exact Hr|apply require_projection_repeat]). clearbody t2.
  by destruct (repeatable c).
Qed.

Lemma repeated_transaction_wf s id c :
  session_wf s → s_phase s = Live → s_active s = None →
  let t := apply_binding_action s (new_active_transaction s) id c <| t_repeat_candidate := None |> in
  transaction_wf s t ∧ length (t_staged_effects t) ≤ 1
  ∧ a_held_bindings (t_working t) = s_held_bindings s
  ∧ t_original_action_result t = None ∧ (action_has_effect (action c) = false → t_staged_effects t = []).
Proof.
  intros Hs Hl Hact. pose proof (new_transaction_wf s Hs Hact) as Hnew.
  assert (t_quit_staged (new_active_transaction s) = false) as Hq by done.
  pose proof (apply_binding_action_acts s _ id c Hq) as Hacts.
  destruct (apply_binding_action_repeat s _ id c Hq) as [Hh Htm].
  pose proof (acts_wf _ _ _ Hacts (tw_working _ _ Hnew)) as Hw.
  pose proof (apply_binding_action_staged s _ id c Hl (tw_staged _ _ Hnew)) as Hok.
  destruct Hacts as [_ _ _ _ _ He (Fv & Fa & Fb & _)].
  assert (staged (action c) ≤ 1) as Hst by (unfold staged; destruct (action_has_effect (action c)); lia).
  revert Hh Htm Hw He Fv Fa Fb Hok. generalize (apply_binding_action s (new_active_transaction s) id c).
  cbv zeta. intros t Hh Htm Hw He Fv Fa Fb Hok. cbn in He, Fa.
  split_and!; [|cbn; lia|exact Hh|exact Fa|].
  - constructor; [exact Hw|exact Fv|cbn; unfold MAX_STAGED_EFFECTS; lia| | |exact Hok|].
    + cbn. by rewrite Fb.
    + unfold repeat_pending. cbn. by rewrite Htm.
    + intros k r. cbn. by rewrite Fa.
  - intros Hne. unfold staged in He. rewrite Hne in He. by apply nil_length_inv.
Qed.

(** Only focusing and swapping repeat, as in every keymap [b] builds. *)
Definition repeats_sane s : Prop :=
  ∀ id c, s_bindings s !! id = Some c → repeatable c = true → action_repeats (action c) = true.

Lemma fire_key_repeat_ok s :
  session_wf s →
  wp fire_key_repeat
    (λ u s', session_wf s' ∧ moves u s s' ∧ (repeats_sane s → promised u s s')) (λ _ s', untouched s s') s.
Proof.
  intros Hs. unfold fire_key_repeat. apply wp_getS.
  assert (∀ R : SessionEventError → Session (B:=B) → Prop, wp (mret unchanged)
    (λ u s', session_wf s' ∧ moves u s s' ∧ (repeats_sane s → promised u s s')) R s) as Hno
    by (intros R; apply wp_ret; destruct (ended_refl s Hs); by split_and!).
  destruct (not_ready s) eqn:Hr; [apply Hno|]. apply not_ready_false in Hr.
  pose proof (ready_active s Hs Hr) as Hact.
  destruct (s_repeat_target s) as [id|]; [|apply Hno].
  destruct (s_bindings s !! id) as [c|] eqn:Hc; [|apply Hno].
  destruct (_ || _ || _) eqn:Hg; [apply Hno|]. cbv zeta.
  apply orb_false_iff in Hg as [[Hrep%negb_false_iff _]%orb_false_iff _].
  destruct (repeated_transaction_wf s id c Hs (proj1 Hr) Hact) as (Ht & Hlen & Hheld & Hor & Hquiet).
  set (t := apply_binding_action _ _ _ _ <| t_repeat_candidate := None |>) in *. clearbody t.
  set (t1 := t <| t_most_recent_private_projection := _ |>).
  assert (transaction_wf s t1 ∧ length (t_staged_effects t1) ≤ 1
    ∧ a_held_bindings (t_working t1) = s_held_bindings s ∧ t_original_action_result t1 = None
    ∧ (action_has_effect (action c) = false → t_staged_effects t1 = [])) as (Ht1 & Hlen1 & Hheld1 & Hor1 & Hquiet1)
    by (by destruct Ht). clearbody t1.
  destruct (_ && _).
  - apply (wp_install_now (t_working t1) s (λ before st after,
      unchanged <| up_persistence := changed_snapshot before after |> <| up_state := st |>
        <| up_effects := t_staged_effects t1 |>)); [done|apply Ht1|].
    edestruct (installed_now_ok (t_working t1) s) as (? & ? & Hpm);
      [done|done|apply Ht1|exact Hheld1| |split_and!; [done|done|]].
    + split; try done. cbn. unfold MAX_STAGED_EFFECTS. lia.
    + intros Hsane. apply Hpm. cbn. rewrite Hquiet1; [done|]. specialize (Hsane id c Hc Hrep).
      by destruct (action c).
  - apply wp_allocate_then; [|by apply untouched_refl]. intros n Hn.
    apply wp_bind. eapply wp_mono; [by apply (wp_submit_staged _ _ n s); auto| |done].
    intros u s' (Hwf & Hm & Hpr & Hac). apply wp_ret. split_and!; [done|by apply Hm|intros _].
    apply (staged_ended s s' t1); try done; [by apply Hm|]. by rewrite Hor1.
Qed.

(** ** Leaving the session *)

(** A lifecycle change drops the transaction and the repeat target. *)
Lemma leave_ok s p u :
  session_wf s → phase_rank (s_phase s) ≤ phase_rank p → (2 < phase_rank p)%nat →
  u = unchanged <| up_repeat_timer := Timer_Disarm |> <| up_effects := up_effects u |> →
  length (up_effects u) ≤ 1 →
  let s' := abandon_private_transaction s <| s_repeat_target := None |> <| s_phase := p |> in
  session_wf s' ∧ moves u s s'.
Proof.
  intros Hs Hp Hlt Hu Hef. assert (starting p = false) as Hst by (by destruct p; try (cbn in Hlt; lia)).
  split; constructor; try done.
  - apply Hs.
  - apply (sw_ticket s Hs).
  - cbn. by rewrite Hst.
  - by left.
  - by rewrite Hu.
  - by rewrite Hu.
  - unfold MAX_STAGED_EFFECTS. lia.
Qed.

(** The update that starts a quit on request. *)
Definition direct_quit : SessionUpdate :=
  unchanged <| up_repeat_timer := Timer_Disarm |> <| up_effects := [Effect_QuitPending CurrentControlRequest] |>.

Lemma begin_direct_quit_ok s :
  session_wf s →
  wp begin_direct_quit
    (λ u s', session_wf s' ∧ moves u s s' ∧ ledger_snapshot s' = ledger_snapshot s
       ∧ (s_phase s = Live → u = direct_quit ∧ s_phase s' = PhaseQuitPending))
    (λ _ s', untouched s s' ∧ s_phase s ≠ Live) s.
Proof.
  intros Hs. unfold begin_direct_quit. apply wp_getS.
  assert (∀ e : SessionEventError, s_phase s ≠ Live → wp (raise e)
    (λ u s', session_wf s' ∧ moves u s s' ∧ ledger_snapshot s' = ledger_snapshot s
       ∧ (s_phase s = Live → u = direct_quit ∧ s_phase s' = PhaseQuitPending))
    (λ _ s', untouched s s' ∧ s_phase s ≠ Live) s) as Hno
    by (intros e Hp; apply wp_raise; split; [by apply untouched_refl|done]).
  destruct (s_phase s) eqn:Hp; try (by apply Hno).
  - apply wp_modify, wp_ret.
    destruct (leave_ok s PhaseQuitPending direct_quit) as [? ?]; try done; rewrite ?Hp; cbn; try lia.
  - apply wp_ret. split_and!; try done. apply moves_refl.
Qed.

Lemma begin_shutdown_ok s :
  session_wf s → session_wf (begin_shutdown s).2 ∧ moves (begin_shutdown s).1 s (begin_shutdown s).2.
Proof.
  intros Hs. unfold begin_shutdown.
  destruct (s_phase s) eqn:Hp;
    first [split; [done|apply moves_refl]
          |apply (leave_ok s ShuttingDown); try done; rewrite ?Hp; cbn; lia].
Qed.

(** A change of phase alone, late in the lifecycle. *)
Lemma late_phase_ok s s' p e :
  session_wf s → s_phase s = ShuttingDown ∨ s_phase s = Exiting →
  phase_rank (s_phase s) ≤ phase_rank p →
  (∃ b, s' = s <| s_backend := b |> <| s_exit_attempted := e |> <| s_phase := p |>) →
  e = s_exit_attempted s ∨ e = true ∧ s_phase s = ShuttingDown →
  session_wf s' ∧ moves unchanged s s'.
Proof.
  intros Hs Hp Hr (b & ->) He. pose proof (sw_quit s Hs) as Hq.
  assert (s_transaction s = Idle) as Ht by (apply Hq; by destruct Hp as [->| ->]).
  pose proof (proj2 (sw_idle s Hs) Ht) as Hact.
  assert (starting p = false ∧ p ≠ InitialReplay) as [Hst Hni]
    by (destruct Hp as [Hp|Hp]; rewrite Hp in Hr; destruct p; cbn in *; (done || lia)).
  destruct Hs as [Ha Hi Hac Htk Hpk _ _ Hre _].
  split; constructor; try done.
  - intros t. cbn. by rewrite Hact.
  - cbn. by rewrite Hst.
  - unfold MAX_STAGED_EFFECTS. cbn. lia.
Qed.

(** Leaving fails without a trace except that it was attempted. *)
Lemma begin_exit_session_ok s :
  session_wf s →
  wp begin_exit_session
    (λ _ s', session_wf s' ∧ moves unchanged s s' ∧ s_phase s' = Exiting ∧ s_exit_attempted s' = true)
    (λ _ s', session_wf s' ∧ moves unchanged s s'
       ∧ (s_phase s = ShuttingDown → s_exit_attempted s' = true)) s.
Proof.
  intros Hs. unfold begin_exit_session. apply wp_getS.
  destruct (_ || _) eqn:Hc.
  { apply wp_raise. split_and!; [done|apply moves_refl|]. intros Hp.
    by rewrite bool_decide_eq_false_2 in Hc by (intros Hn; by apply Hn). }
  apply orb_false_iff in Hc as [Hp _]. apply bool_decide_eq_false, dec_stable in Hp.
  apply wp_modify. cbv zeta. apply wp_bind, wp_call_m.
  - intros u b _. cbv beta. unfold wp. cbn [modify].
    edestruct (late_phase_ok s (s <| s_backend := b |> <| s_exit_attempted := true |> <| s_phase := Exiting |>)
      Exiting true) as [? ?]; [done|by left|rewrite Hp; cbn; lia|by exists b|by right|].
    by split_and!.
  - intros e b _.
    edestruct (late_phase_ok s (s <| s_backend := b |> <| s_exit_attempted := true |> <| s_phase := ShuttingDown |>)
      ShuttingDown true) as [Hwf Hm]; [done|by left|by rewrite Hp|by exists b|by right|].
    assert (s <| s_exit_attempted := true |> <| s_backend := b |>
      = s <| s_backend := b |> <| s_exit_attempted := true |> <| s_phase := ShuttingDown |>) as ->
      by (rewrite <-Hp; done).
    by split_and!.
Qed.

Lemma complete_expected_exit_ok s :
  session_wf s →
  wp complete_expected_exit (λ _ s', session_wf s' ∧ moves unchanged s s') (λ _ s', untouched s s') s.
Proof.
  intros Hs. unfold complete_expected_exit. apply wp_getS.
  case_decide as Hp; [|apply wp_raise; by apply untouched_refl].
  unfold wp. cbn [modify].
  apply (late_phase_ok s _ ExitComplete (s_exit_attempted s)); try done; [by right|rewrite Hp; cbn; lia| |by left].
  exists (s_backend s). by destruct s.
Qed.

Lemma service_backend_ok s r now :
  session_wf s → wp (service_backend r now)
    (λ _ s', untouched s s') (λ e s', dropped s s' ∧ event_fault e = true) s.
Proof.
  intros Hs. apply wp_on_error, wp_call_m.
  - intros a b _. constructor; try done; [by apply session_wf_backend|].
    by apply privately_backend, privately_refl.
  - intros e b _. split; [|done]. apply dropped_abandon; [done|]. by apply privately_backend, privately_refl.
Qed.
End actions.
