(* ===== verification/SessionSafety.v ===== *)
(** * The session as a transition system

    Every public call is an operation; a run is a list of operations from a
    connected session.  The theorems speak about every run, over every backend. *)

From Stdlib Require Import ZArith Lia Sorted.
From stdpp Require Import prelude list gmap sorting.
From S2P Require Import Prelude Layout Ledger Projection Keys State Backend Snapshot Visible Authority Hoare AuthorityInv Session Reduce Replay SessionInv Finalize Turns Actions.

(** The public calls that change a session. *)
Inductive SessionOp :=
| CallBackendEvent (ev : BackendEvent)
| CallService (ready : BackendReady) (now : N)
| CallLedgerAction (act : LedgerAction)
| CallCloseFocused
| CallSpawn (argv : list rstring)
| CallToggleWhichkey
| CallUpdateModules (modules : list BarModule)
| CallKeyRepeat
| CallDirectQuit
| CallShutdown
| CallBeginExit
| CallCompleteExit
| CallSnapshot.

(** How a call ends. *)
Inductive Outcome :=
| Updated (u : SessionUpdate)
| EventFailed (e : SessionEventError)
| ActionFailed (e : SessionActionError)
| Panicked.

(** The ids an [OrbitId] argument can hold. *)
Definition call_valid (op : SessionOp) : Prop :=
  match op with CallLedgerAction act => ledger_action_valid act | _ => True end.

Definition outcome_update (o : Outcome) : SessionUpdate :=
  match o with Updated u => u | _ => unchanged end.

(** The daemon's one repeat timer: armed or not. *)
Definition timer_after (armed : bool) (o : Outcome) : bool :=
  match up_repeat_timer (outcome_update o) with
  | Timer_Preserve => armed
  | Timer_Arm _ _ => true
  | Timer_Disarm => false
  end.

Section runs.
Context {B : Type} `{WmBackend B}.
Implicit Types (s : Session (B:=B)) (op : SessionOp).

Definition outcome {E} (fail : E → Outcome) (r : result SessionUpdate (failure E) * Session (B:=B)) :
    Outcome * Session (B:=B) :=
  match r with
  | (Ok u, s') => (Updated u, s')
  | (Err (Raise e), s') => (fail e, s')
  | (Err Panic, s') => (Panicked, s')
  end.

Definition run_op op s : Outcome * Session (B:=B) :=
  match op with
  | CallBackendEvent ev => outcome EventFailed (handle_backend_event ev s)
  | CallService ready now => outcome EventFailed ((_ ← service_backend ready now; mret unchanged) s)
  | CallLedgerAction act => outcome ActionFailed (perform act s)
  | CallCloseFocused => outcome ActionFailed (request_close_focused s)
  | CallSpawn argv => outcome ActionFailed (request_spawn argv s)
  | CallToggleWhichkey => let '(u, s') := toggle_whichkey s in (Updated u, s')
  | CallUpdateModules ms => let '(u, s') := update_modules ms s in (Updated u, s')
  | CallKeyRepeat => outcome EventFailed (fire_key_repeat s)
  | CallDirectQuit => outcome EventFailed (begin_direct_quit s)
  | CallShutdown => let '(u, s') := begin_shutdown s in (Updated u, s')
  | CallBeginExit => outcome EventFailed ((_ ← begin_exit_session; mret unchanged) s)
  | CallCompleteExit => outcome EventFailed ((_ ← complete_expected_exit; mret unchanged) s)
  | CallSnapshot => outcome EventFailed ((_ ← snapshot; mret unchanged) s)
  end.

(** The outcomes and the final session of a run. *)
Fixpoint run ops s : list Outcome * Session (B:=B) :=
  match ops with
  | [] => ([], s)
  | op :: ops' =>
      let '(o, s') := run_op op s in
      let '(os, s'') := run ops' s' in (o :: os, s'')
  end.

Definition step_ok s (r : Outcome * Session (B:=B)) : Prop :=
  r.1 ≠ Panicked ∧ session_wf r.2 ∧ moves (outcome_update r.1) s r.2.

Lemma outcome_ok {E} (fail : E → Outcome) (m : stm Session (failure E) SessionUpdate) s R :
  (∀ e, fail e ≠ Panicked ∧ outcome_update (fail e) = unchanged) →
  wp m (λ u s', session_wf s' ∧ moves u s s') R s →
  (∀ e s', R e s' → session_wf s' ∧ moves unchanged s s') →
  step_ok s (outcome fail (m s)).
Proof.
  intros Hf Hm HR. unfold wp in Hm. unfold step_ok, outcome.
  destruct (m s) as [[u|[e|]] s']; cbn; [|destruct (Hf e) as [? ->]; split; [done|by apply (HR e)]|done].
  by split.
Qed.

Lemma run_op_ok op s : session_wf s → call_valid op → step_ok s (run_op op s).
Proof.
  intros Hs Hv.
  assert (∀ e : SessionEventError, EventFailed e ≠ Panicked ∧ outcome_update (EventFailed e) = unchanged)
    as He by done.
  assert (∀ e : SessionActionError, ActionFailed e ≠ Panicked ∧ outcome_update (ActionFailed e) = unchanged)
    as Ha by done.
  assert (∀ E (e : E) s', untouched s s' → session_wf s' ∧ moves unchanged s s') as Hut
    by (intros E e s' Hu; split; [apply Hu|by apply untouched_moves]).
  assert (∀ E (e : E) s', dropped s s' → session_wf s' ∧ moves unchanged s s') as Hdr
    by (intros E e s' Hd; split; [apply Hd|by apply dropped_moves]).
  assert (∀ u s', ended s u s' → session_wf s' ∧ moves u s s') as Hen by (by intros u s' []).
  destruct op; cbn [run_op].
  - eapply outcome_ok; [done|eapply wp_mono; [by apply handle_backend_event_ok| |]|].
    + intros u s' (t & _ & _ & []). by split.
    + intros e s' [Hd _]. exact Hd.
    + apply Hdr.
  - eapply outcome_ok; [done|apply wp_bind; eapply wp_mono; [by apply service_backend_ok| |]|].
    + intros x s' Hu. by apply wp_ret, (Hut _ x).
    + intros e s' [Hd _]. exact Hd.
    + apply Hdr.
  - eapply outcome_ok; [done|eapply wp_mono; [by apply perform_ok|exact Hen|by intros e s'; exact id]|apply Hut].
  - eapply outcome_ok; [done|eapply wp_mono; [by apply request_close_focused_ok|exact Hen|by intros e s'; exact id]|apply Hut].
  - eapply outcome_ok; [done|eapply wp_mono; [by apply request_spawn_ok|exact Hen|by intros e s'; exact id]|apply Hut].
  - pose proof (toggle_whichkey_ok s Hs) as [Ht Hm _]. by destruct (toggle_whichkey s).
  - pose proof (update_modules_ok modules s Hs) as [Ht Hm _]. by destruct (update_modules modules s).
  - eapply outcome_ok; [done|eapply wp_mono; [by apply fire_key_repeat_ok| |by intros e s'; exact id]|apply Hut].
    by intros u s' (? & ? & _).
  - eapply outcome_ok; [done|eapply wp_mono; [by apply begin_direct_quit_ok| |]|apply Hut].
    + by intros u s' (? & ? & _).
    + by intros e s' [? _].
  - pose proof (begin_shutdown_ok s Hs) as Ht. by destruct (begin_shutdown s).
  - eapply outcome_ok; [done|apply wp_bind; eapply wp_mono; [by apply begin_exit_session_ok| |]|].
    + intros x s' (? & ? & _). by apply wp_ret.
    + intros e s' Hd. exact Hd.
    + cbn. intros e s' (? & ? & _). done.
  - eapply outcome_ok; [done|apply wp_bind; eapply wp_mono; [by apply complete_expected_exit_ok| |]|].
    + intros x s' ?. by apply wp_ret.
    + intros e s' Hd. exact Hd.
    + apply Hut.
  - eapply (outcome_ok _ _ _ (λ _ _, False)); [done| |done].
    apply wp_snapshot; [apply Hs|]. apply wp_ret. split; [done|apply moves_refl].
Qed.

(** ** Connecting *)

(** A snapshot [from_json] or [snapshot] can yield. *)
Definition restorable (sn : SessionSnapshotV1) : Prop :=
  snapshot_valid sn ∧ history (ledger sn) = [] ∧ redo_stack (ledger sn) = []
  ∧ (next_win_id sn <= u64_max)%N.

Definition restored_ids (bs : list SnapshotBinding) : gmap (list N) N :=
  list_to_map ((λ b, (backend_id b, win_id b)) <$> reverse bs).

Lemma restored_ids_lookup bs i w :
  NoDup (backend_id <$> bs) → restored_ids bs !! i = Some w ↔ mk_snapshot_binding w i ∈ bs.
Proof.
  intros Hnd. unfold restored_ids. rewrite <-elem_of_list_to_map.
  - rewrite list_elem_of_fmap. setoid_rewrite elem_of_reverse. split.
    + by intros ([w' i'] & [= -> ->] & Hin).
    + intros Hin. by exists (mk_snapshot_binding w i).
  - rewrite <-list_fmap_compose.
    change (NoDup (backend_id <$> reverse bs)). by rewrite reverse_Permutation.
Qed.

(** The authority a connected session starts from. *)
Definition initial_parts (snapshot : option SessionSnapshotV1) : Ledger * gmap (list N) N * N :=
  match snapshot with
  | None => (Ledger_new, ∅, 0%N)
  | Some sn => (ledger sn, restored_ids (snapshot_bindings sn), next_win_id sn)
  end.

Record connected (snapshot : option SessionSnapshotV1) (keymap : Keymap) s : Prop := {
  cn_parts : (s_ledger s, s_backend_ids s, s_next_win_id s) = initial_parts snapshot;
  cn_phase : s_phase s = InitialReplay;
  cn_idle : s_transaction s = Idle ∧ s_active s = None;
  cn_counters : s_last_backend_ticket s = 0%N ∧ s_last_policy_turn s = None;
  cn_repeat : s_repeat_target s = None;
  cn_state : s_state s = RealmState_default;
  cn_exit : s_exit_attempted s = false;
  cn_bindings : s_bindings s = list_to_map (zip (binding_ids (bindings keymap)) (bindings keymap))
}.

Lemma connect_connected backend snapshot keymap codes s :
  connect_with_snapshot_and_keymap backend snapshot keymap codes = Ok s → connected snapshot keymap s.
Proof.
  unfold connect_with_snapshot_and_keymap. intros [_ Hc]%ensure_Ok.
  destruct (wm_connect backend) as [[conn|e] b1]; [|done]. cbn [rbind] in Hc.
  destruct snapshot as [sn|].
  - destruct (wm_configure_bindings (mechanisms (bindings keymap)) b1) as [[u|e] b2]; [|done].
    injection Hc as <-. by constructor.
  - destruct (wm_configure_bindings (mechanisms (bindings keymap)) b1) as [[u|e] b2]; [|done].
    injection Hc as <-. by constructor.
Qed.

Lemma initial_parts_wf snapshot s :
  (∀ sn, snapshot = Some sn → restorable sn) →
  (s_ledger s, s_backend_ids s, s_next_win_id s) = initial_parts snapshot →
  authority_wf (current_authority s).
Proof.
  intros Hsn. destruct snapshot as [sn|]; cbn; intros [= El Ei En].
  - destruct (Hsn sn eq_refl) as ((_ & _ & _ & Hwf & Hlt & Hso & Hni & Hcov) & Hh & Hr & Hmax).
    pose proof (λ i w, restored_ids_lookup (snapshot_bindings sn) i w Hni) as Hl.
    assert (∀ w, w ∈ win_id <$> snapshot_bindings sn ↔ ∃ i, mk_snapshot_binding w i ∈ snapshot_bindings sn) as Hb.
    { intros w. rewrite list_elem_of_fmap. split.
      - intros ([w' i] & -> & Hin). by exists i.
      - intros [i Hin]. by exists (mk_snapshot_binding w i). }
    constructor; cbn; rewrite ?El, ?Ei, ?En; try done.
    + split_and!; [done|rewrite Hh, Hr; cbn; unfold HISTORY_DEPTH; lia|by rewrite Hh, Hr].
    + intros i j w Hi%Hl Hj%Hl.
      assert (NoDup (win_id <$> snapshot_bindings sn)) as Hnd.
      { clear -Hso. induction Hso as [|w ws _ IH Hall]; constructor; [|done].
        intros Hin. rewrite Forall_forall in Hall. specialize (Hall w Hin). lia. }
      apply list_elem_of_lookup in Hi as [x Hx], Hj as [y Hy].
      assert (x = y) as -> by (eapply NoDup_lookup; [exact Hnd| |]; rewrite list_lookup_fmap, ?Hx, ?Hy; done).
      congruence.
    + intros w. setoid_rewrite Hl. by rewrite <-Hb, Hcov.
    + intros i w Hi%Hl. apply Hlt, Hcov, Hb. by exists i.
  - constructor; cbn; rewrite ?El, ?Ei, ?En; try done.
    + apply Ledger_new_wf.
    + intros w. split; [|intros [i Hi]; by rewrite lookup_empty in Hi].
      intros Hw. by apply elem_of_nil in Hw.
Qed.

Lemma connected_wf snapshot keymap s :
  (∀ sn, snapshot = Some sn → restorable sn) → connected snapshot keymap s → session_wf s.
Proof.
  intros Hsn [Hp Hph [Ht Ha] [Hk Hu] Hr Hst He _]. constructor.
  - by eapply initial_parts_wf.
  - by rewrite Ht, Ha.
  - intros t. by rewrite Ha.
  - rewrite Hk. done.
  - intros k. unfold pending_ticket. by rewrite Ht.
  - done.
  - done.
  - intros id. by rewrite Hr.
  - done.
Qed.

(** ** Runs *)

(** What a run never takes back. *)
Record forward s s' : Prop := {
  fw_phase : phase_rank (s_phase s) ≤ phase_rank (s_phase s');
  fw_ticket : (s_last_backend_ticket s <= s_last_backend_ticket s')%N;
  fw_turn : turn_le (s_last_policy_turn s) (s_last_policy_turn s');
  fw_exit : s_exit_attempted s = true → s_exit_attempted s' = true;
  fw_revision : (revision (s_state s) <= u64_max)%N →
    (revision (s_state s) <= revision (s_state s') <= u64_max)%N
}.

#[local] Instance forward_preorder : PreOrder forward.
Proof.
  split; [intros s; split; by auto|]. intros s1 s2 s3 [P1 K1 T1 E1 R1] [P2 K2 T2 E2 R2].
  split; [lia|lia|by etransitivity|auto|]. intros Hr. specialize (R1 Hr). specialize (R2 (proj2 R1)). lia.
Qed.

Lemma moves_forward u s s' : moves u s s' → forward s s'.
Proof.
  intros [_ Hp Hk Ht He Hst _ _]. split; try done; [by destruct He as [->|[-> _]]|].
  intros Hr. unfold publishes in Hst.
  destruct (up_state u) as [st|].
  - destruct Hst as (-> & -> & _). unfold u64_saturating_add. lia.
  - rewrite Hst. lia.
Qed.

Definition armed s : bool := bool_decide (is_Some (s_repeat_target s)).

Lemma moves_timer o s s' : moves (outcome_update o) s s' → timer_after (armed s) o = armed s'.
Proof.
  intros [_ _ _ _ _ _ Hf _]. unfold timer_after, follows, armed in *.
  destruct (up_repeat_timer (outcome_update o)).
  - by rewrite Hf.
  - destruct Hf as (_ & _ & Hf & _). by rewrite bool_decide_eq_true_2.
  - by rewrite Hf.
Qed.

Lemma run_ok ops s :
  session_wf s → Forall call_valid ops →
  let '(os, s') := run ops s in
  Forall (λ o, o ≠ Panicked ∧ length (up_effects (outcome_update o)) ≤ MAX_STAGED_EFFECTS) os
  ∧ session_wf s' ∧ forward s s' ∧ foldl timer_after (armed s) os = armed s'.
Proof.
  intros Hs Hv. revert s Hs. induction Hv as [|op ops Hop _ IH]; intros s Hs; cbn [run].
  { split_and!; [by constructor|done|done|done]. }
  pose proof (run_op_ok op s Hs Hop) as Hstep. destruct (run_op op s) as [o s1].
  destruct Hstep as (Ho & Hs1 & Hm). cbn in Ho, Hs1, Hm. specialize (IH s1 Hs1).
  destruct (run ops s1) as [os s2]. destruct IH as (Hos & Hs2 & Hfw & Htm).
  split_and!; [|done|etransitivity; [by eapply moves_forward|done]|].
  - constructor; [|done]. split; [done|apply Hm].
  - cbn. by rewrite (moves_timer o s s1).
Qed.
End runs.

(** ** A concrete backend for the examples *)

Record DemoBackend := mk_demo { demo_submission : BackendSubmission; demo_refuses : bool }.

#[export] Instance DemoBackend_ops : WmBackend DemoBackend := {|
  wm_name _ := lit "demo";
  wm_connect b := (Ok (mk_connection (mk_capabilities true true true true true []) [] false), b);
  wm_assign_window id w b := (if demo_refuses b then Err ConflictingRealmIdentity else Ok tt, b);
  wm_configure_bindings specs b := (Ok tt, b);
  wm_request_policy_turn b := (Ok tt, b);
  wm_respond_policy_turn id k r b := (Ok (demo_submission b), b);
  wm_begin_exit_session p b := (Ok tt, b);
  wm_poll_interest b := mk_interest false false false;
  wm_service r now b := (Ok None, b)
|}.

Definition demo_start : result (Session (B:=DemoBackend)) BackendError :=
  connect_with_snapshot_and_keymap (mk_demo Complete false) None Keymap_default None.

(** The first turn replays two windows, the second brings the workarea. *)
Definition demo_replay : BackendPolicyTurn :=
  mk_turn 1 None [WindowOpened (lit "w1") (lit "term") (lit "one");
                  WindowOpened (lit "w2") (lit "term") (lit "two"); InitialReplayComplete].
Definition demo_workarea : BackendPolicyTurn :=
  mk_turn 2 None [WorkareaChanged (Workarea_new 1920 1080 30 0)].
Definition demo_calls : list SessionOp :=
  [CallBackendEvent (PolicyTurn demo_replay); CallBackendEvent (PolicyTurn demo_workarea)].

Lemma demo_start_ok : is_ok demo_start = true.
Proof. vm_compute. reflexivity. Qed.

Definition demo_run (ops : list SessionOp) : option (list Outcome * Session (B:=DemoBackend)) :=
  match demo_start with Ok s => Some (run ops s) | Err _ => None end.

Example demo_goes_live : (λ r, s_phase r.2) <$> demo_run demo_calls = Some Live.
Proof. vm_compute. reflexivity. Qed.

(** The successful side of a result known to be one. *)
Definition from_ok {A E} (r : result A E) : is_ok r = true → A :=
  match r return is_ok r = true → A with
  | Ok a => λ _, a
  | Err _ => λ Hr, match Bool.diff_false_true Hr with end
  end.

Lemma from_ok_eq {A E} (r : result A E) (Hr : is_ok r = true) : r = Ok (from_ok r Hr).
Proof. by destruct r. Qed.

Definition demo_connected : Session (B:=DemoBackend) := from_ok demo_start demo_start_ok.
Definition demo_live : Session (B:=DemoBackend) := (run demo_calls demo_connected).2.

Lemma demo_connected_eq : demo_start = Ok demo_connected.
Proof. apply from_ok_eq. Qed.

Lemma demo_calls_valid : Forall call_valid demo_calls.
Proof. by repeat constructor. Qed.

Lemma demo_connected_wf : session_wf demo_connected.
Proof.
  eapply (connected_wf None Keymap_default); [done|].
  eapply connect_connected. apply demo_connected_eq.
Qed.

Lemma run_wf {B} `{WmBackend B} ops (s : Session (B:=B)) :
  session_wf s → Forall call_valid ops → session_wf (run ops s).2.
Proof. intros Hs Hv. pose proof (run_ok ops s Hs Hv) as Hr. by destruct (run ops s) as [os s'], Hr as (_ & ? & _). Qed.

Lemma demo_live_wf : session_wf demo_live.
Proof. apply run_wf; [apply demo_connected_wf|apply demo_calls_valid]. Qed.

(** ** Theorems *)

Section theorems.
Context {B : Type} `{WmBackend B}.
Implicit Types (s : Session (B:=B)) (op : SessionOp).

(** C1. No run of the session panics, over any backend, from any keymap and any
    persisted snapshot that passed validation: whatever the calls and however
    the backend answers or fails, every [expect] on the way holds, the session's
    invariant holds at the end, and a live session can be persisted. *)
Theorem session_runs_safely backend snapshot keymap codes s ops :
  connect_with_snapshot_and_keymap backend snapshot keymap codes = Ok s →
  (∀ sn, snapshot = Some sn → restorable sn) → Forall call_valid ops →
  let '(os, s') := run ops s in
  Panicked ∉ os ∧ session_wf s'
  ∧ (s_phase s' = Live → ∃ sn, snapshot_result s' = Some (Ok sn) ∧ snapshot_valid sn).
Proof.
  intros Hc Hsn Hv. apply connect_connected in Hc. apply (connected_wf _ _ _ Hsn) in Hc as Hs.
  pose proof (run_ok ops s Hs Hv) as Hr. destruct (run ops s) as [os s'].
  destruct Hr as (Hos & Hs' & _). split_and!; [|done|].
  - intros Hin. rewrite Forall_forall in Hos. by destruct (Hos _ Hin).
  - intros Hl. pose proof (current_snapshot_valid s' (sw_authority _ Hs')) as Hn.
    eexists. unfold snapshot_result. rewrite decide_True by done. rewrite Hn. split; [done|].
    by apply snapshot_new_Ok in Hn as [_ ?].
Qed.

(** A session only moves forward: along any run the lifecycle phase never
    goes back, tickets, policy turn ids and the published revision never
    decrease, and no call reports more than the admitted number of effects. *)
Theorem session_runs_forward s ops :
  session_wf s → Forall call_valid ops → (revision (s_state s) <= u64_max)%N →
  let '(os, s') := run ops s in
  phase_rank (s_phase s) ≤ phase_rank (s_phase s')
  ∧ (s_last_backend_ticket s <= s_last_backend_ticket s' <= u64_max)%N
  ∧ turn_le (s_last_policy_turn s) (s_last_policy_turn s')
  ∧ (revision (s_state s) <= revision (s_state s') <= u64_max)%N
  ∧ Forall (λ o, length (up_effects (outcome_update o)) ≤ MAX_STAGED_EFFECTS) os.
Proof.
  intros Hs Hv Hr. pose proof (run_ok ops s Hs Hv) as Hrun. destruct (run ops s) as [os s'].
  destruct Hrun as (Hos & Hs' & [Hp Hk Ht He Hrev] & _).
  split_and!; try done; [by apply sw_ticket|by apply Hrev|by apply Hrev|].
  eapply Forall_impl; [exact Hos|]. by intros o [_ ?].
Qed.

(** Publications are exact: a call that reports a state leaves the session
    in that state, with the next revision, and the state renders differently from
    the one before unless the session just became live; a call that reports no
    state leaves the published state alone. *)
Theorem published_states_advance s op :
  session_wf s → call_valid op →
  let '(o, s') := run_op op s in
  match up_state (outcome_update o) with
  | None => s_state s' = s_state s
  | Some st => s_state s' = st
      ∧ revision st = u64_saturating_add (revision (s_state s)) 1
      ∧ (s_phase s = FinalizingReplay ∨ renders_same_as (s_state s) st = false)
  end.
Proof.
  intros Hs Hv. destruct (run_op_ok op s Hs Hv) as (_ & _ & Hm). revert Hm.
  destruct (run_op op s) as [o s']. cbn [fst snd]. intros Hm.
  pose proof (mv_state _ _ _ Hm) as Hst. unfold publishes in Hst.
  destruct (up_state (outcome_update o)) as [st|]; [|done].
  destruct Hst as (? & ? & [?|Hn]); split_and!; try done; [by left|right].
  by apply not_true_is_false.
Qed.

(** The repeat timer and the session agree: after any run, the daemon's one
    timer, driven by the reported directives alone, is armed exactly when the
    session has a repeat target, and the target is then a held, enabled key
    bound to a repeatable action. *)
Theorem repeat_timer_matches_target s ops :
  session_wf s → Forall call_valid ops →
  let '(os, s') := run ops s in
  foldl timer_after (armed s) os = armed s'
  ∧ ∀ id, s_repeat_target s' = Some id →
      id ∈ s_held_bindings s' ∧ id ∈ enabled (s_binding_state s')
      ∧ ∃ c, s_bindings s' !! id = Some c ∧ repeatable c = true.
Proof.
  intros Hs Hv. pose proof (run_ok ops s Hs Hv) as Hrun. destruct (run ops s) as [os s'].
  destruct Hrun as (_ & Hs' & _ & Htm). split; [done|]. apply (sw_repeat _ Hs').
Qed.

Lemma outcome_event m s e s' :
  outcome EventFailed (m s) = (EventFailed e, s') → m s = (Err (Raise e), s').
Proof. unfold outcome. destruct (m s) as [[u|[x|]] s1]; by intros [= -> ->]. Qed.

Lemma outcome_action m s e s' :
  outcome ActionFailed (m s) = (ActionFailed e, s') → m s = (Err (Raise e), s').
Proof. unfold outcome. destruct (m s) as [[u|[x|]] s1]; by intros [= -> ->]. Qed.

Lemma outcome_updated {E} (fail : E → Outcome) m s u s' :
  (∀ e, fail e ≠ Updated u) → outcome fail (m s) = (Updated u, s') → m s = (Ok u, s').
Proof. unfold outcome. intros Hf. destruct (m s) as [[v|[x|]] s1]; [by intros [= -> ->]|intros [= Hx]; by apply Hf in Hx|done]. Qed.

(** C10. A failed backend event drops the private work and nothing else: the
    session is left exactly as it was, ledger, windows, projection, bindings,
    published state and phase included, but for the backend, the counters of
    tickets and turns, and the transaction, which is gone. *)
Theorem failed_event_rolls_back s ev e s' :
  session_wf s → run_op (CallBackendEvent ev) s = (EventFailed e, s') →
  s' = s <| s_backend := s_backend s' |> <| s_active := None |> <| s_transaction := Idle |>
         <| s_last_backend_ticket := s_last_backend_ticket s' |>
         <| s_last_policy_turn := s_last_policy_turn s' |>.
Proof.
  intros Hs Hr. apply outcome_event in Hr. pose proof (handle_backend_event_ok s ev Hs) as Hw.
  apply (wp_run _ _ _ _ _ _ Hw) in Hr as [[_ [Hp _ _] [Ha Ht]] _].
  unfold only_private in Hp. by rewrite Ha, Ht in Hp.
Qed.

(** A failed action changes nothing: a ledger action, close or spawn that is
    refused, or a key repeat whose turn cannot be requested, leaves the session
    as it was but for the backend and the ticket counter. *)
Theorem failed_action_changes_nothing s op o s' :
  session_wf s → call_valid op →
  match op with CallLedgerAction _ | CallCloseFocused | CallSpawn _ | CallKeyRepeat => True | _ => False end →
  run_op op s = (o, s') → (∀ u, o ≠ Updated u) →
  s' = s <| s_backend := s_backend s' |> <| s_last_backend_ticket := s_last_backend_ticket s' |>.
Proof.
  intros Hs Hv Hop Hr Ho.
  assert (untouched s s') as [_ [Hp _ _] Ha Ht Hu].
  { assert (∀ E (fail : E → Outcome) m Q, wp m Q (λ _ x, untouched s x) s →
      outcome fail (m s) = (o, s') → untouched s s') as Hgen.
    { intros E fail m Q Hw E1. unfold outcome in E1. unfold wp in Hw.
      destruct (m s) as [[u|[e|]] s1]; [|by injection E1 as <- <-|done].
      injection E1 as <- <-. by destruct (Ho u). }
    destruct op; try done; cbn [run_op] in Hr.
    - by eapply Hgen; [apply perform_ok|].
    - by eapply Hgen; [apply request_close_focused_ok|].
    - by eapply Hgen; [apply request_spawn_ok|].
    - by eapply Hgen; [apply fire_key_repeat_ok|]. }
  unfold only_private in Hp. rewrite Ha, Ht, Hu in Hp. rewrite Hp at 1. by destruct s.
Qed.

(** A policy turn fails for a reason: every error it ends in is the verdict
    of admission, the exhaustion of the ticket counter, the backend's refusal to
    bind a window, or the backend's refusal of the answer.  Once admitted, the
    facts of a turn cannot make reduction fail. *)
Theorem turn_fails_only_for_cause s turn e s' :
  session_wf s → quitting (s_phase s) = false →
  run_op (CallBackendEvent (PolicyTurn turn)) s = (EventFailed e, s') →
  validate_policy_turn s turn = Err e
  ∨ (e = Event_BackendTicketExhausted ∧ s_last_backend_ticket s = u64_max)
  ∨ (∃ c id w (b b' : B), e = Event_BackendContract c ∧ wm_assign_window id w b = (Err c, b'))
  ∨ (∃ c id k r (b b' : B), e = Event_Backend c ∧ wm_respond_policy_turn id k r b = (Err c, b')).
Proof.
  intros Hs Hq Hr. apply outcome_event in Hr. unfold handle_backend_event, mbind, stm_bind, getS in Hr.
  rewrite Hq in Hr. apply (wp_run _ _ _ _ _ _ (handle_policy_turn_ok s turn Hs Hq)) in Hr as [_ Hf].
  destruct Hf as [e He|Hk|c (id & w & b & b' & Hc)|id k r b b' c Hc]; [by left|by right; left| |].
  - right; right; left. by eexists _, _, _, _, _.
  - right; right; right. by eexists _, _, _, _, _, _.
Qed.

(** C15. A staged action is answered once: while its transaction is pending the
    result is carried along unreported, and the event that finishes the
    transaction reports exactly it, under the ticket the caller was given. *)
Theorem action_result_reported s ev u s' t :
  session_wf s → s_active s = Some t →
  run_op (CallBackendEvent ev) s = (Updated u, s') →
  match s_active s' with
  | Some t' => t_original_action_result t' = t_original_action_result t ∧ up_action_completion u = None
  | None => up_action_completion u
      = (λ p, mk_completion (fst p) (snd p)) <$> t_original_action_result t
  end.
Proof.
  intros Hs Ht Hr. apply outcome_updated in Hr; [|done].
  pose proof (handle_backend_event_ok s ev Hs) as Hw.
  apply (wp_run _ _ _ _ _ _ Hw) in Hr as (t1 & [Ht1 _ _ _] & _ & [_ _ Hc _ _]).
  unfold base_transaction in Ht1. rewrite Ht in Ht1. rewrite <-Ht1. exact Hc.
Qed.

(** The backend is asked to exit once: after the first attempt in the
    shut-down phase, accepted by the backend or not, every later attempt fails
    without reaching it, whatever happens in between. *)
Theorem exit_requested_once s ops :
  session_wf s → s_phase s = ShuttingDown → Forall call_valid ops →
  let s1 := (begin_exit_session s).2 in
  let s2 := (run ops s1).2 in
  begin_exit_session s2 = (Err (Raise (InvalidLifecycleOperation BeginExitSession (s_phase s2))), s2).
Proof.
  intros Hs Hp Hv. cbv zeta.
  assert (session_wf (begin_exit_session s).2 ∧ s_exit_attempted (begin_exit_session s).2 = true) as [Hs1 He1].
  { pose proof (begin_exit_session_ok s Hs) as Hw. unfold wp in Hw.
    destruct (begin_exit_session s) as [[x|[e|]] s1]; [by destruct Hw as (? & _ & _ & ?)| |done].
    destruct Hw as (? & _ & Hx). split; [done|by apply Hx]. }
  generalize (begin_exit_session s).2 He1 Hs1. clear s Hs Hp He1 Hs1. intros s He Hs.
  pose proof (run_ok ops s Hs Hv) as Hr. destruct (run ops s) as [os s2]. destruct Hr as (_ & _ & Hf & _).
  cbn [snd]. unfold begin_exit_session, mbind, stm_bind, getS.
  rewrite (fw_exit _ _ Hf He), orb_true_r. done.
Qed.

(** C13. The initial replay reconciles the persisted session with what the
    compositor shows: when the replay turn succeeds, the windows are exactly the
    replayed ones, each on exactly one orbit and described; a persisted window
    keeps its id and its place, so the order of the surviving windows on every
    orbit is the persisted one; and undo cannot reach across the restart. *)
Theorem initial_replay_reconciles s turn u s' :
  session_wf s → s_phase s = InitialReplay →
  run_op (CallBackendEvent (PolicyTurn turn)) s = (Updated u, s') →
  let a := base_authority s' in
  (∀ i, is_Some (a_backend_ids a !! i) ↔ i ∈ opened_ids (events turn))
  ∧ (∀ i w, i ∈ opened_ids (events turn) → s_backend_ids s !! i = Some w → a_backend_ids a !! i = Some w)
  ∧ (∀ w, w ∈ all_windows (orbits (a_ledger a)) ↔ ∃ i, a_backend_ids a !! i = Some w)
  ∧ NoDup (all_windows (orbits (a_ledger a)))
  ∧ (∀ i w, a_backend_ids a !! i = Some w → is_Some (a_windows a !! w))
  ∧ (∀ K, (∀ w, w ∈ K → ∃ i, i ∈ opened_ids (events turn) ∧ s_backend_ids s !! i = Some w) →
       order K (orbits (a_ledger a)) = order K (orbits (s_ledger s)))
  ∧ history (a_ledger a) = [] ∧ redo_stack (a_ledger a) = [].
Proof.
  intros Hs Hp Hr. apply outcome_updated in Hr; [|done].
  unfold handle_backend_event, mbind, stm_bind, getS in Hr. rewrite Hp in Hr. cbn [quitting] in Hr.
  assert (quitting (s_phase s) = false) as Hq by (by rewrite Hp).
  apply (wp_run _ _ _ _ _ _ (handle_policy_turn_ok s turn Hs Hq)) in Hr as (t & Ht & [_ _ _ Hag]).
  pose proof (tu_reconciled _ _ _ _ Ht Hp) as Hrc.
  assert (base_transaction s = new_active_transaction s) as Eb.
  { unfold base_transaction. by rewrite (proj2 (sw_idle s Hs) (sw_replay s Hs Hp)). }
  pose proof (reopen_neutral (carries_staged_projection s) (base_transaction s)) as (El & Ei & _ & _ & _).
  rewrite Eb in El, Ei, Hrc. destruct Hag as [Al Ai An Aw _].
  destruct Hrc as [Hwf Hdom Hkeep Hdesc _ Hundo _ Hord].
  cbv zeta. rewrite Al, Ai, Aw. rewrite Ei in Hkeep, Hord. rewrite El in Hord.
  split_and!; try done; [by apply (aw_cover _ Hwf)|apply Hwf|apply Hundo|apply Hundo].
Qed.

(** What a restart keeps of the session: orbits and shown orbit, window
    identities and watermark. The undo history is gone. *)
Definition resumes (s' s : Session (B:=B)) : Prop :=
  s_ledger s' = discard_undo_history (s_ledger s)
  ∧ s_backend_ids s' = s_backend_ids s ∧ s_next_win_id s' = s_next_win_id s.

(** C14. A restart restores the session: connecting with the snapshot a live
    session yields gives a well formed session with the same orbits and shown
    orbit, the same window identities and the same watermark; only the undo
    history is gone. *)
Theorem snapshot_restores_session s sn backend keymap codes s' :
  session_wf s → snapshot_result s = Some (Ok sn) →
  connect_with_snapshot_and_keymap backend (Some sn) keymap codes = Ok s' →
  session_wf s' ∧ resumes s' s.
Proof.
  intros Hs Hsn Hc. apply connect_connected in Hc. unfold snapshot_result in Hsn.
  case_decide as Hl; [|done]. rewrite current_snapshot_valid in Hsn by apply Hs.
  pose proof (current_snapshot_valid s (sw_authority _ Hs)) as Hv.
  injection Hsn as <-. apply snapshot_new_Ok in Hv as [_ Hv].
  set (sn := mk_session_snapshot _ _ _ _ _ _) in *.
  assert (restorable sn) as Hre by (split_and!; [exact Hv|done|done|apply (aw_next _ (sw_authority _ Hs))]).
  pose proof (cn_parts _ _ _ Hc) as Hparts. cbn in Hparts. injection Hparts as El Ei En.
  unfold resumes. split_and!; [|exact El| |exact En].
  - eapply connected_wf; [|exact Hc]. by intros ? [= <-].
  - change (s_backend_ids s' = restored_ids (snapshot_bindings sn)) in Ei. rewrite Ei. apply map_eq. intros i. apply option_eq. intros w.
    rewrite restored_ids_lookup by apply current_bindings_ids.
    apply (current_bindings_elem s (mk_snapshot_binding w i)).
Qed.

(** A window the backend has an identity for. *)
Definition backend_knows (a : AuthorityState) (w : WinId) : Prop :=
  ∃ i, a_backend_ids a !! i = Some w.

(** C16. The answer of a turn shows the shown orbit: when a projection is owed and
    the workarea is known, the answer carries one; it places only windows the
    backend knows, none of them stowed or on another orbit, each once; at most
    one is focused, and none while another surface holds exclusive focus. *)
Theorem response_shows_active_orbit s t area :
  authority_wf (t_working t) → t_projection_required t = true →
  a_workarea (t_working t) = Some area →
  ∃ ps, projection (t_response (derive_response s t)) = Some ps
    ∧ NoDup (win <$> ps)
    ∧ (∀ p, p ∈ ps → win p ∈ visible (Ledger.active_orbit (a_ledger (t_working t)))
         ∧ backend_knows (t_working t) (win p))
    ∧ (∀ p q, p ∈ ps → q ∈ ps → pl_focused p = true → pl_focused q = true → win p = win q)
    ∧ (a_exclusive_focus (t_working t) = true → ∀ p, p ∈ ps → pl_focused p = false).
Proof.
  intros Ha Hreq Hwa. set (a := t_working t) in *. set (o := Ledger.active_orbit (a_ledger a)).
  set (ps0 := project o area TriptychParams_default).
  set (ps := project_authority a).
  assert (ps = if a_exclusive_focus a
    then (λ p, mk_placement (win p) (rect p) false (pl_occluded p)) <$> ps0 else ps0) as Eps
    by (subst ps; unfold project_authority; by rewrite Hwa).
  assert (win <$> ps = win <$> ps0) as Ewin.
  { rewrite Eps. destruct (a_exclusive_focus a); [|done]. by rewrite <-list_fmap_compose. }
  assert (∀ p, p ∈ ps → ∃ p0, p0 ∈ ps0 ∧ win p = win p0
    ∧ pl_focused p = if a_exclusive_focus a then false else pl_focused p0) as Hps.
  { intros p. rewrite Eps. destruct (a_exclusive_focus a); [|by eauto].
    intros (p0 & -> & Hp0)%list_elem_of_fmap. by exists p0. }
  pose proof (ledger_wf_orbits _ (aw_ledger a Ha)) as Hor.
  pose proof (active_orbit_lookup _ Hor) as Hlk. fold o in Hlk.
  assert (NoDup (visible o)) as Hnd.
  { apply NoDup_filter. pose proof Hor as (_ & _ & _ & _ & Hall).
    rewrite (all_windows_lookup _ _ _ Hlk) in Hall. by apply NoDup_app in Hall as [? _]. }
  pose proof (project_windows_sub o area TriptychParams_default) as Hsub. fold ps0 in Hsub.
  exists ps. split_and!.
  - unfold derive_response, workarea_known. cbn. fold a. by rewrite Hreq, Hwa.
  - rewrite Ewin. apply submseteq_Permutation in Hsub as [k Hk]. rewrite Hk in Hnd.
    by apply NoDup_app in Hnd as [? _].
  - intros p (p0 & Hp0 & -> & _)%Hps.
    assert (win p0 ∈ visible o) as Hv by (eapply elem_of_submseteq; [|exact Hsub]; by apply list_elem_of_fmap_2).
    split; [done|]. apply (aw_cover a Ha). apply list_elem_of_filter in Hv as [_ Hv].
    apply elem_of_all_windows. eauto.
  - intros p q (p0 & Hp0 & -> & Hfp)%Hps (q0 & Hq0 & -> & Hfq)%Hps. rewrite Hfp, Hfq.
    destruct (a_exclusive_focus a); [done|].
    rewrite (project_focused _ _ _ _ Hp0), (project_focused _ _ _ _ Hq0), !bool_decide_eq_true. congruence.
  - intros Hx p (p0 & _ & _ & Hfp)%Hps. by rewrite Hfp, Hx.
Qed.
End theorems.

(** ** Witnesses *)

Definition is_updated (o : Outcome) : bool := match o with Updated _ => true | _ => false end.
Definition event_error (o : Outcome) : option SessionEventError :=
  match o with EventFailed e => Some e | _ => None end.

Lemma run_op_updated {B} `{WmBackend B} op (s : Session (B:=B)) :
  is_updated (run_op op s).1 = true → ∃ u s', run_op op s = (Updated u, s').
Proof. destruct (run_op op s) as [[u|e|e|] s']; by eauto. Qed.

Lemma run_op_failed {B} `{WmBackend B} op (s : Session (B:=B)) e :
  event_error (run_op op s).1 = Some e → ∃ s', run_op op s = (EventFailed e, s').
Proof. destruct (run_op op s) as [[u|x|x|] s']; cbn; intros [=]; subst; by eauto. Qed.

Lemma demo_live_forward_hyp : (revision (s_state demo_live) <= u64_max)%N.
Proof. by vm_compute. Qed.

(** A key press, a layout change and its completion. *)
Definition demo_more : list SessionOp :=
  [CallLedgerAction (SetLayout Mono);
   CallBackendEvent (PolicyTurn (mk_turn 3 None []));
   CallBackendEvent (PolicyTurn (mk_turn 4 None [BindingPressed 1]));
   CallKeyRepeat; CallShutdown; CallBeginExit; CallCompleteExit].

Lemma demo_more_valid : Forall call_valid demo_more.
Proof. by repeat constructor. Qed.

Definition demo_mono : Session (B:=DemoBackend) := (run [CallLedgerAction (SetLayout Mono)] demo_live).2.

Lemma demo_mono_wf : session_wf demo_mono.
Proof. apply run_wf; [apply demo_live_wf|by repeat constructor]. Qed.

Lemma demo_mono_active : ∃ t, s_active demo_mono = Some t.
Proof.
  destruct (s_active demo_mono) as [t|] eqn:E; [by exists t|].
  apply (f_equal (λ o, match o with Some _ => true | None => false end)) in E. vm_compute in E. discriminate E.
Qed.

Lemma rolled_back {B} (s s' : Session (B:=B)) b a t k u :
  s' = s <| s_backend := b |> <| s_active := a |> <| s_transaction := t |>
         <| s_last_backend_ticket := k |> <| s_last_policy_turn := u |> →
  s_ledger s' = s_ledger s ∧ s_active s' = a.
Proof. by intros ->. Qed.

Lemma unchanged_ledger {B} (s s' : Session (B:=B)) b k :
  s' = s <| s_backend := b |> <| s_last_backend_ticket := k |> → s_ledger s' = s_ledger s.
Proof. by intros ->. Qed.

(** The sessions below are evaluated by [vm_compute] or not at all. *)
#[local] Opaque demo_connected demo_live demo_mono run_op run.

Lemma session_runs_safely_witness :
  is_ok demo_start = true
  ∧ Panicked ∉ (run (demo_calls ++ demo_more) demo_connected).1.
Proof.
  split; [by vm_compute|].
  assert (Forall call_valid (demo_calls ++ demo_more)) as Hv
    by (apply Forall_app; split; [apply demo_calls_valid|apply demo_more_valid]).
  pose proof (session_runs_safely _ None Keymap_default None demo_connected (demo_calls ++ demo_more)
    demo_connected_eq ltac:(done) Hv) as Hr.
  revert Hr. destruct (run (demo_calls ++ demo_more) demo_connected) as [os s']. intros Hr. exact (proj1 Hr).
Defined.

Lemma session_runs_forward_witness :
  s_phase demo_live = Live ∧ phase_rank (s_phase demo_live) ≤ phase_rank (s_phase (run demo_more demo_live).2).
Proof.
  split; [by vm_compute|].
  pose proof (session_runs_forward demo_live demo_more demo_live_wf demo_more_valid
    demo_live_forward_hyp) as Hr.
  revert Hr. destruct (run demo_more demo_live) as [os s']. intros Hr. exact (proj1 Hr).
Defined.

Definition reports_state (o : Outcome) : bool :=
  match up_state (outcome_update o) with Some _ => true | None => false end.

Lemma published_states_advance_witness :
  ∃ o s' st, run_op CallToggleWhichkey demo_live = (o, s') ∧ up_state (outcome_update o) = Some st
    ∧ s_state s' = st.
Proof.
  assert (reports_state (run_op CallToggleWhichkey demo_live).1 = true) as Hrep by (vm_compute; reflexivity).
  pose proof (published_states_advance demo_live CallToggleWhichkey demo_live_wf I) as Hr.
  revert Hrep Hr. destruct (run_op CallToggleWhichkey demo_live) as [o s']. cbn [fst]. unfold reports_state.
  destruct (up_state (outcome_update o)) as [st|] eqn:Hst; intros Hrep Hr; [|discriminate Hrep].
  exists o, s', st. split; [reflexivity|]. split; [exact Hst|]. exact (proj1 Hr).
Defined.

Lemma repeat_timer_matches_target_witness :
  armed demo_live = false
  ∧ foldl timer_after (armed demo_live) (run demo_more demo_live).1 = armed (run demo_more demo_live).2.
Proof.
  split; [by vm_compute|].
  pose proof (repeat_timer_matches_target demo_live demo_more demo_live_wf demo_more_valid) as Hr.
  revert Hr. destruct (run demo_more demo_live) as [os s']. intros Hr. exact (proj1 Hr).
Defined.

Lemma failed_event_rolls_back_witness :
  ∃ s', run_op (CallBackendEvent Disconnected) demo_mono = (EventFailed (Event_Backend ErrDisconnected), s')
    ∧ s_ledger s' = s_ledger demo_mono ∧ s_active s' = None.
Proof.
  destruct (run_op_failed (CallBackendEvent Disconnected) demo_mono (Event_Backend ErrDisconnected))
    as [s' Hr]; [by vm_compute|].
  exists s'. split; [exact Hr|].
  pose proof (failed_event_rolls_back demo_mono Disconnected _ s' demo_mono_wf Hr) as E.
  exact (rolled_back _ _ _ _ _ _ _ E).
Defined.

Lemma failed_action_changes_nothing_witness :
  ∃ o s', run_op (CallSpawn []) demo_live = (o, s') ∧ s_ledger s' = s_ledger demo_live.
Proof.
  destruct (run_op (CallSpawn []) demo_live) as [o s'] eqn:Hr. exists o, s'.
  assert (∀ u, o ≠ Updated u) as Ho.
  { intros u ->. apply (f_equal (λ r, is_updated r.1)) in Hr. vm_compute in Hr. discriminate Hr. }
  split; [reflexivity|].
  exact (unchanged_ledger _ _ _ _ (failed_action_changes_nothing demo_live (CallSpawn []) o s' demo_live_wf I I Hr Ho)).
Defined.

Lemma turn_fails_only_for_cause_witness :
  ∃ e s', run_op (CallBackendEvent (PolicyTurn demo_replay)) demo_live = (EventFailed e, s')
    ∧ (validate_policy_turn demo_live demo_replay = Err e ∨ s_last_backend_ticket demo_live = u64_max
       ∨ (∃ c, e = Event_BackendContract c) ∨ ∃ c, e = Event_Backend c).
Proof.
  destruct (run_op_failed (CallBackendEvent (PolicyTurn demo_replay)) demo_live
    (Event_BackendContract InvalidPolicySequence)) as [s' Hr]; [by vm_compute|].
  eexists _, s'. split; [exact Hr|].
  destruct (turn_fails_only_for_cause demo_live demo_replay _ s' demo_live_wf ltac:(by vm_compute) Hr)
    as [?|[[? ?]|[(c & _ & _ & _ & _ & ? & _)|(c & _ & _ & _ & _ & _ & ? & _)]]]; eauto.
Defined.

Lemma action_result_reported_witness :
  ∃ u s', run_op (CallBackendEvent (PolicyTurn (mk_turn 3 None []))) demo_mono = (Updated u, s')
    ∧ up_action_completion u ≠ None.
Proof.
  destruct demo_mono_active as [t Ht].
  destruct (run_op_updated (CallBackendEvent (PolicyTurn (mk_turn 3 None []))) demo_mono)
    as (u & s' & Hr); [by vm_compute|].
  exists u, s'. split; [exact Hr|].
  pose proof (action_result_reported demo_mono _ u s' t demo_mono_wf Ht Hr) as Hc.
  assert (s_active s' = None) as Ha.
  { change s' with (Updated u, s').2. rewrite <-Hr. by vm_compute. }
  rewrite Ha in Hc. rewrite Hc.
  assert (t_original_action_result t ≠ None) as Hn.
  { assert (t_original_action_result <$> s_active demo_mono = Some (t_original_action_result t)) as E
      by (by rewrite Ht).
    intros Hn. rewrite Hn in E. vm_compute in E. discriminate E. }
  clear -Hn. destruct (t_original_action_result t) as [r|]; [intros Hx; discriminate Hx|exact (λ _, Hn eq_refl)].
Defined.

Lemma exit_requested_once_witness :
  let s := (run [CallShutdown] demo_live).2 in
  s_phase s = ShuttingDown
  ∧ let s2 := (run [CallCompleteExit] (begin_exit_session s).2).2 in
    begin_exit_session s2 = (Err (Raise (InvalidLifecycleOperation BeginExitSession (s_phase s2))), s2).
Proof.
  cbv zeta. split; [by vm_compute|].
  refine (exit_requested_once (run [CallShutdown] demo_live).2 [CallCompleteExit] _ _ _).
  - apply run_wf; [apply demo_live_wf|by repeat constructor].
  - by vm_compute.
  - by repeat constructor.
Defined.

Lemma initial_replay_reconciles_witness :
  ∃ u s', run_op (CallBackendEvent (PolicyTurn demo_replay)) demo_connected = (Updated u, s')
    ∧ is_Some (a_backend_ids (base_authority s') !! lit "w1").
Proof.
  destruct (run_op_updated (CallBackendEvent (PolicyTurn demo_replay)) demo_connected)
    as (u & s' & Hr); [by vm_compute|].
  exists u, s'. split; [exact Hr|].
  destruct (initial_replay_reconciles demo_connected demo_replay u s' demo_connected_wf
    ltac:(by vm_compute) Hr) as (Hdom & _).
  apply Hdom. cbn. set_solver.
Defined.

Lemma snapshot_restores_session_witness :
  ∃ sn s', snapshot_result demo_live = Some (Ok sn)
    ∧ connect_with_snapshot_and_keymap (mk_demo Complete false) (Some sn) Keymap_default None = Ok s'
    ∧ s_backend_ids s' = s_backend_ids demo_live.
Proof.
  destruct (snapshot_result demo_live) as [[sn|e]|] eqn:Hsn.
  2-3: exfalso; apply (f_equal (λ r, match r with Some (Ok _) => true | _ => false end)) in Hsn;
    vm_compute in Hsn; discriminate Hsn.
  destruct (connect_with_snapshot_and_keymap (mk_demo Complete false) (Some sn) Keymap_default None)
    as [s'|e] eqn:Hc.
  2:{ exfalso. unfold connect_with_snapshot_and_keymap in Hc. by cbn in Hc. }
  exists sn, s'. split; [reflexivity|]. split; [exact Hc|].
  destruct (snapshot_restores_session demo_live sn _ _ _ s' demo_live_wf Hsn Hc) as (_ & _ & Hids & _).
  exact Hids.
Defined.

Lemma response_shows_active_orbit_witness :
  let t := new_active_transaction demo_live <| t_projection_required := true |> in
  ∃ ps, projection (t_response (derive_response demo_live t)) = Some ps ∧ NoDup (win <$> ps).
Proof.
  cbv zeta.
  destruct (response_shows_active_orbit demo_live
    (new_active_transaction demo_live <| t_projection_required := true |>)
    (Workarea_new 1920 1080 30 0)) as (ps & Hps & Hnd & _).
  - apply (sw_authority _ demo_live_wf).
  - reflexivity.
  - by vm_compute.
  - exists ps. split; [exact Hps|exact Hnd].
Defined.
