(* ===== verification/BackendTurn.v ===== *)
(** * realm-session/src/turn.rs: one turn of backend work

    [backend_turn] is what the daemon's event loop calls: it services at most
    one backend quantum and feeds the event it yields to the session, and it is
    where the expected disconnect ends a logout. *)

From Stdlib Require Import ZArith Lia.
From stdpp Require Import prelude list gmap.
From S2P Require Import Prelude Layout Ledger Projection Keys State Backend Snapshot Visible Authority Hoare AuthorityInv Session Reduce Replay SessionInv Finalize Turns Actions SessionSafety.

(** [enum BackendTurn] *)
Inductive BackendTurn :=
| TurnIdle
| TurnProgressed
| TurnUpdated (u : SessionUpdate)
| TurnExitComplete.

Section backend_turn.
Context {B : Type} `{WmBackend B}.
Implicit Types s : Session (B:=B).

Definition backend_poll_interest s : BackendPollInterest := wm_poll_interest (s_backend s).

(** No immediate work and no fresh readiness. *)
Definition nothing_to_do (interest : BackendPollInterest) (r : BackendReady) : bool :=
  negb (immediate interest) && negb (ready_readable r) && negb (terminal r)
  && negb (ready_writable r).

Definition is_disconnected (ev : BackendEvent) : bool :=
  match ev with Disconnected => true | _ => false end.

Definition backend_turn (r : BackendReady) (now : N) :
    stm (Session (B:=B)) (failure SessionEventError) BackendTurn :=
  s ← getS;
  if decide (s_phase s = ExitComplete)
  then raise (InvalidLifecycleOperation ServiceAfterExitComplete ExitComplete)
  else if nothing_to_do (backend_poll_interest s) r then mret TurnIdle
  else
    event ← service_backend r now;
    match event with
    | None => mret TurnProgressed
    | Some ev =>
        s ← getS;
        if is_disconnected ev && bool_decide (s_phase s = Exiting) then
          _ ← complete_expected_exit;
          mret TurnExitComplete
        else
          u ← handle_backend_event ev;
          mret (TurnUpdated u)
    end.

(** How a turn that reports [t] may leave the session. *)
Definition turn_took r s (t : BackendTurn) s' : Prop :=
  match t with
  | TurnIdle => s' = s ∧ nothing_to_do (backend_poll_interest s) r = true
  | TurnProgressed => untouched s s'
  | TurnUpdated u => quitting (s_phase s) = false
      ∧ up_pending_action u = None
      ∧ ∃ s1, untouched s s1 ∧ moves u s1 s' ∧ promised u s1 s'
  | TurnExitComplete => s_phase s = Exiting ∧ s_phase s' = ExitComplete
      ∧ ∃ s1, untouched s s1 ∧ s' = s1 <| s_phase := ExitComplete |>
  end.

Lemma handle_event_moves s ev :
  session_wf s →
  wp (handle_backend_event ev)
    (λ u s', quitting (s_phase s) = false ∧ session_wf s' ∧ moves u s s' ∧ promised u s s'
       ∧ up_pending_action u = None)
    (λ e s', dropped s s' ∧ event_fault e = true) s.
Proof.
  intros Hs. destruct (quitting (s_phase s)) eqn:Hq.
  - unfold handle_backend_event. apply wp_getS. rewrite Hq.
    by apply (invalid_sequence_ok s (λ _ _, _)).
  - eapply wp_mono; [by apply handle_backend_event_ok| |done]. intros u s' (t & _ & Hpm & [? ? _ _ [Hpa]]). by split_and!.
Qed.

Lemma expected_exit_ok s :
  session_wf s → s_phase s = Exiting →
  wp complete_expected_exit
    (λ _ s', session_wf s' ∧ s' = s <| s_phase := ExitComplete |>) (λ _ _, False) s.
Proof.
  intros Hs Hp. pose proof (complete_expected_exit_ok s Hs) as Hc. revert Hc.
  unfold complete_expected_exit, wp, mbind, stm_bind, getS. rewrite decide_True by done.
  cbn. by intros [? _].
Qed.

Lemma backend_turn_ok s r now :
  session_wf s →
  wp (backend_turn r now)
    (λ t s', session_wf s' ∧ s_phase s ≠ ExitComplete ∧ turn_took r s t s')
    (λ e s', session_wf s' ∧ privately s s'
       ∧ if decide (s_phase s = ExitComplete)
         then s' = s ∧ e = InvalidLifecycleOperation ServiceAfterExitComplete ExitComplete
         else event_fault e = true) s.
Proof.
  intros Hs. unfold backend_turn. apply wp_getS.
  case_decide as Hp; [apply wp_raise|].
  { by split_and!; [|apply privately_refl| |]. }
  destruct (nothing_to_do _ _) eqn:Hn; [by apply wp_ret|].
  apply wp_bind. eapply wp_mono; [by apply service_backend_ok| |].
  2: { intros e s' [Hd He]. split_and!; [apply Hd|apply Hd|done]. }
  intros [ev|] s1 Hu; [|by apply wp_ret; split; [apply Hu|]].
  apply wp_getS. assert (s_phase s1 = s_phase s) as Hp1 by apply (only_private_fields _ _ (pr_private _ _ (ut_private _ _ Hu))).
  assert (session_wf s1) as Hs1 by apply Hu.
  destruct (is_disconnected ev && _) eqn:Hd.
  - apply andb_true_iff in Hd as [_ He%bool_decide_eq_true].
    apply wp_bind. eapply wp_mono; [by apply expected_exit_ok| |done].
    intros _ s' [Hwf ->]. apply wp_ret. cbn [turn_took].
    split_and!; [done|done|congruence|done|by exists s1].
  - apply wp_bind. eapply wp_mono; [by apply handle_event_moves| |].
    + intros u s' (Hq & Hwf & Hm & Hpm & Hpa). apply wp_ret.
      cbn [turn_took]. split_and!; [done|done|congruence|done|by exists s1].
    + intros e s' [[Hwf Hpr _] He]. split_and!; [done| |done].
      eapply privately_trans; [apply Hu|done].
Qed.


Lemma promised_after_untouched u s s1 s' : untouched s s1 → promised u s1 s' → promised u s s'.
Proof.
  intros [_ [Hp _ _] Ha _ _] [Ho Hq Hj Hsh].
  assert (owner s1 = owner s) as Eo by (unfold owner; by rewrite Ha).
  pose proof (only_private_shown _ _ Hp) as Es. apply only_private_fields in Hp as (_ & Ep & _).
  split; rewrite <-?Eo, <-?Es, <-?Ep; done.
Qed.
End backend_turn.

