(* ===== verification/Persistence.v ===== *)
(** * realm-session/src/persistence.rs: coalesced snapshot persistence

    [PersistenceCoordinator] decides when the session snapshot is written: it
    keeps the latest changed snapshot, waits a fixed delay, and has at most one
    numbered request in flight.  The coordinator is pure; here it runs beside
    the disk it speaks for, as a step relation, and is proved to implement a
    single cell holding the latest snapshot the session showed it. *)

From Stdlib Require Import ZArith Lia.
From stdpp Require Import prelude list.
From S2P Require Import Prelude Layout Ledger Backend Snapshot.

(** ** Data *)

(** [Duration::from_millis(250)], in nanoseconds. *)
Definition SNAPSHOT_DELAY : N := 250000000.

Inductive PersistCompletion := Succeeded | Failed.

Record PersistRequest := mk_request {
  sequence : N;
  req_snapshot : SessionSnapshotV1
}.

Record DirtySnapshot := mk_dirty {
  dirty_snapshot : SessionSnapshotV1;
  dirty_deadline : N
}.

Record PersistCompletionError := mk_completion_error {
  expected : option N;
  actual : N
}.

Record PersistenceCoordinator := mk_coordinator {
  persisted : option SessionSnapshotV1;
  dirty : option DirtySnapshot;
  in_flight : option PersistRequest;
  next_sequence : N
}.

#[export] Instance PersistenceCoordinator_settable : Settable PersistenceCoordinator := λ c,
  mk_coordinator (persisted c) (dirty c) (in_flight c) (next_sequence c).

(** ** Operations *)

Definition new (persisted : option SessionSnapshotV1) : PersistenceCoordinator := {|
  persisted := persisted; dirty := None; in_flight := None; next_sequence := 1
|}.

Definition observe (snapshot : option SessionSnapshotV1) (now : N) (c : PersistenceCoordinator) :
    bool * PersistenceCoordinator :=
  match snapshot with
  | None => (false, c)
  | Some snapshot =>
      if bool_decide (dirty_snapshot <$> dirty c = Some snapshot) then (false, c)
      else if bool_decide (in_flight c = None) && bool_decide (persisted c = Some snapshot)
      then (bool_decide (is_Some (dirty c)), c <| dirty := None |>)
      else
        match dirty c with
        | Some d => (true, c <| dirty := Some (mk_dirty snapshot (dirty_deadline d)) |>)
        | None =>
            if bool_decide (req_snapshot <$> in_flight c = Some snapshot) then (false, c)
            else (true, c <| dirty := Some (mk_dirty snapshot (now + SNAPSHOT_DELAY)) |>)
        end
  end.

Definition deadline (c : PersistenceCoordinator) : option N :=
  match in_flight c with
  | Some _ => None
  | None => dirty_deadline <$> dirty c
  end.

(** [None] when the sequence counter is exhausted, where the source panics. *)
Definition take_due (now : N) (c : PersistenceCoordinator) :
    option (option PersistRequest * PersistenceCoordinator) :=
  match in_flight c, dirty c with
  | Some _, _ | None, None => Some (None, c)
  | None, Some d =>
      if (now <? dirty_deadline d)%N then Some (None, c)
      else
        let request := mk_request (next_sequence c) (dirty_snapshot d) in
        next ← u64_checked_add (next_sequence c) 1;
        Some (Some request,
              c <| dirty := None |> <| next_sequence := next |> <| in_flight := Some request |>)
  end.

Definition complete (seq : N) (completion : PersistCompletion) (now : N)
    (c : PersistenceCoordinator) : result unit PersistCompletionError * PersistenceCoordinator :=
  match in_flight c with
  | Some completed =>
      if (sequence completed =? seq)%N then
        let c := c <| in_flight := None |> in
        match completion with
        | Succeeded =>
            let c := if bool_decide (dirty_snapshot <$> dirty c = Some (req_snapshot completed))
                     then c <| dirty := None |> else c in
            (Ok tt, c <| persisted := Some (req_snapshot completed) |>)
        | Failed =>
            let retry := mk_dirty (req_snapshot completed) (now + SNAPSHOT_DELAY) in
            match dirty c with
            | None => (Ok tt, c <| dirty := Some retry |>)
            | Some d =>
                if bool_decide (persisted c = Some (dirty_snapshot d))
                then (Ok tt, c <| dirty := None |>)
                else if bool_decide (dirty_snapshot d = req_snapshot completed)
                then (Ok tt, c <| dirty := Some (mk_dirty (dirty_snapshot d) (now + SNAPSHOT_DELAY)) |>)
                else (Ok tt, c)
            end
        end
      else (Err (mk_completion_error (Some (sequence completed)) seq), c)
  | None => (Err (mk_completion_error None seq), c)
  end.

Definition shutdown_snapshot (c : PersistenceCoordinator) : option SessionSnapshotV1 :=
  match dirty c with
  | Some d => Some (dirty_snapshot d)
  | None => req_snapshot <$> in_flight c
  end.

(** ** The coordinator beside the disk

    [disk] is the persisted record, [latest] the last snapshot the session
    showed, [requests] every request handed out so far, and [clock] the last
    instant passed in.  The one in-flight request reaches the disk exactly when
    its completion reports success. *)
Record World := mk_world {
  coordinator : PersistenceCoordinator;
  disk : option SessionSnapshotV1;
  latest : option SessionSnapshotV1;
  requests : list PersistRequest;
  clock : N
}.

Definition start (persisted : option SessionSnapshotV1) (now : N) : World :=
  mk_world (new persisted) persisted persisted [] now.

Definition written (completion : PersistCompletion) (r : result unit PersistCompletionError)
    (request : option PersistRequest) (disk : option SessionSnapshotV1) : option SessionSnapshotV1 :=
  match completion, r, request with
  | Succeeded, Ok _, Some request => Some (req_snapshot request)
  | _, _, _ => disk
  end.

Inductive persist_step : World → World → Prop :=
| StepObserve c d l rs t snapshot now b c' :
    (t <= now)%N → observe snapshot now c = (b, c') →
    persist_step (mk_world c d l rs t) (mk_world c' d (option_or snapshot l) rs now)
| StepTakeDue c d l rs t now r c' :
    (t <= now)%N → take_due now c = Some (r, c') →
    persist_step (mk_world c d l rs t) (mk_world c' d l (rs ++ option_list r) now)
| StepComplete c d l rs t seq completion now r c' :
    (t <= now)%N → complete seq completion now c = (r, c') →
    persist_step (mk_world c d l rs t)
      (mk_world c' (written completion r (in_flight c) d) l rs now).

(** What the coordinator promises: a cell holding the latest snapshot. *)
Definition held (c : PersistenceCoordinator) : option SessionSnapshotV1 :=
  match shutdown_snapshot c with Some s => Some s | None => persisted c end.

Record world_wf (w : World) : Prop := {
  wf_latest : held (coordinator w) = latest w;
  wf_disk : persisted (coordinator w) = disk w;
  wf_sequence : next_sequence (coordinator w) = N.of_nat (S (length (requests w)));
  wf_numbered : ∀ i r, requests w !! i = Some r → sequence r = N.of_nat (S i);
  wf_in_flight : ∀ r, in_flight (coordinator w) = Some r →
    last (requests w) = Some r ∧ Some (req_snapshot r) ≠ disk w;
  wf_dirty : ∀ d, dirty (coordinator w) = Some d →
    (dirty_deadline d <= clock w + SNAPSHOT_DELAY)%N
    ∧ (in_flight (coordinator w) = None → Some (dirty_snapshot d) ≠ disk w)
}.

Lemma start_wf p now : world_wf (start p now).
Proof. by split. Qed.

(** What an observation does to the waiting snapshot. *)
Inductive observed (s : SessionSnapshotV1) (now : N) (c : PersistenceCoordinator) :
    PersistenceCoordinator → Prop :=
| ObservedSame : shutdown_snapshot c = Some s → observed s now c c
| ObservedPersisted : in_flight c = None → persisted c = Some s →
    observed s now c (c <| dirty := None |>)
| ObservedDirty dl : (in_flight c = None → persisted c ≠ Some s) →
    (dirty c = None ∧ dl = (now + SNAPSHOT_DELAY)%N ∨ ∃ d, dirty c = Some d ∧ dl = dirty_deadline d) →
    observed s now c (c <| dirty := Some (mk_dirty s dl) |>).

Lemma observe_observed s now c : observed s now c (observe (Some s) now c).2.
Proof.
  unfold observe. case_bool_decide as H1.
  { cbn. apply ObservedSame. unfold shutdown_snapshot.
    apply fmap_Some in H1 as (d & -> & ->). done. }
  destruct (bool_decide (in_flight c = None) && _) eqn:E.
  { apply andb_true_iff in E as [E1%bool_decide_eq_true E2%bool_decide_eq_true].
    by apply ObservedPersisted. }
  assert (in_flight c = None → persisted c ≠ Some s) as Hne.
  { intros E1 E2. by rewrite !bool_decide_true in E. }
  clear E.
  destruct (dirty c) as [d|] eqn:Ed; [apply ObservedDirty; [done|right; by exists d]|].
  case_bool_decide as H2; cbn.
  - apply ObservedSame. unfold shutdown_snapshot. by rewrite Ed.
  - apply ObservedDirty; [done|by left].
Qed.

Lemma observe_ok c d l rs t snapshot now b c' :
  world_wf (mk_world c d l rs t) → (t <= now)%N → observe snapshot now c = (b, c') →
  world_wf (mk_world c' d (option_or snapshot l) rs now).
Proof.
  intros [Hl Hd Hs Hn Hf Hy] Ht Ho. cbn in *.
  assert (∀ d', dirty c = Some d' → (dirty_deadline d' <= now + SNAPSHOT_DELAY)%N) as Hy'
    by (intros d' Hd'; destruct (Hy d' Hd'); lia).
  destruct snapshot as [s|]; cbn [option_or].
  2: { injection Ho as ??; subst. split; cbn; auto. intros d' Hd'. split; [by apply Hy'|by apply Hy]. }
  pose proof (observe_observed s now c) as Hc. rewrite Ho in Hc. cbn in Hc.
  destruct Hc as [Hsh|Hi Hp|dl Hne Hdl]; split; cbn; try done.
  - unfold held. by rewrite Hsh.
  - intros d' Hd'. split; [by apply Hy'|by apply Hy].
  - unfold held, shutdown_snapshot. cbn. by rewrite Hi.
  - intros d' [= <-]. cbn. split; [|rewrite <-Hd; intros Hi Heq; by apply Hne].
    destruct Hdl as [[_ ->]|(d0 & E0 & ->)]; [lia|by apply Hy'].
Qed.

Lemma take_due_ok c d l rs t now r c' :
  world_wf (mk_world c d l rs t) → (t <= now)%N → take_due now c = Some (r, c') →
  world_wf (mk_world c' d l (rs ++ option_list r) now).
Proof.
  intros [Hl Hd Hs Hn Hf Hy] Ht Ho. cbn in *.
  assert (world_wf (mk_world c d l (rs ++ []) now)) as Hsame.
  { rewrite app_nil_r. split; cbn; auto. intros d' Hd'. destruct (Hy d' Hd'). split; [lia|done]. }
  unfold take_due in Ho. destruct (in_flight c) as [r0|] eqn:Ei; [by simplify_eq|].
  destruct (dirty c) as [d0|] eqn:Ed; [|by simplify_eq].
  destruct (_ <? _)%N; [by simplify_eq|].
  apply bind_Some in Ho as (n & [-> Hmax]%u64_checked_add_Some & [= <- <-]).
  unfold held, shutdown_snapshot in Hl. rewrite Ed in Hl.
  split; cbn; try done.
  - rewrite length_app, Hs. cbn. lia.
  - intros i r Hi. apply lookup_app_Some in Hi as [Hi|[Hlen Hi]]; [by apply Hn|].
    apply list_lookup_singleton_Some in Hi as [Hz <-]. cbn. rewrite Hs. f_equal. lia.
  - intros r [= <-]. rewrite last_snoc. split; [done|by apply (Hy d0)].
Qed.

Lemma complete_ok c d l rs t seq completion now r c' :
  world_wf (mk_world c d l rs t) → (t <= now)%N → complete seq completion now c = (r, c') →
  world_wf (mk_world c' (written completion r (in_flight c) d) l rs now).
Proof.
  intros [Hl Hd Hs Hn Hf Hy] Ht Ho. cbn in *.
  assert (world_wf (mk_world c d l rs now)) as Hsame.
  { split; cbn; auto. intros d' Hd'. destruct (Hy d' Hd'). split; [lia|done]. }
  unfold complete in Ho. destruct (in_flight c) as [req|] eqn:Ei.
  2: { simplify_eq. by destruct completion. }
  destruct (_ =? _)%N; [|simplify_eq; by destruct completion].
  destruct (Hf req eq_refl) as [Hlast Hne].
  unfold held, shutdown_snapshot in Hl. rewrite Ei in Hl.
  destruct completion.
  - injection Ho as <- <-. case_bool_decide as Hb; split; cbn; try done.
    + unfold held, shutdown_snapshot. cbn.
      apply fmap_Some in Hb as (d0 & E0 & ->). by rewrite E0 in Hl.
    + unfold held, shutdown_snapshot. cbn. by destruct (dirty c).
    + intros d' Hd'. destruct (Hy d' Hd'). split; [lia|]. intros _ [= Heq]. by rewrite Hd', <-Heq in Hb.
  - cbn in Ho. destruct (dirty c) as [d0|] eqn:Ed.
    + destruct (Hy d0 eq_refl) as [Hdl _].
      case_bool_decide as Hb; [|case_bool_decide as Hb2]; injection Ho as <- <-; split; cbn; try done.
      * unfold held, shutdown_snapshot. cbn. by rewrite Hb.
      * intros d' [= <-]. cbn. split; [lia|]. intros _. by rewrite <-Hd.
      * unfold held, shutdown_snapshot. cbn. by rewrite Ed.
      * rewrite Ed. intros d' [= <-]. split; [lia|]. intros _. by rewrite <-Hd.
    + injection Ho as <- <-. split; cbn; try done.
      intros d' [= <-]. cbn. split; [lia|done].
Qed.

Lemma persist_step_wf w w' : persist_step w w' → world_wf w → world_wf w'.
Proof.
  destruct 1; intros Hw; [by eapply observe_ok|by eapply take_due_ok|by eapply complete_ok].
Qed.

Lemma world_reachable_wf p now w : rtc persist_step (start p now) w → world_wf w.
Proof.
  intros H. remember (start p now) as w0 eqn:E0.
  assert (world_wf w0) as H0 by (subst; apply start_wf). clear E0.
  induction H as [|? ? ? Hs _ IH]; [done|]. by apply IH, (persist_step_wf _ _ Hs).
Qed.

(** A later observation never postpones the snapshot that is waiting. *)
Lemma observe_keeps_deadline snapshot now c d d' :
  dirty c = Some d → dirty (observe snapshot now c).2 = Some d' →
  dirty_deadline d' = dirty_deadline d.
Proof.
  intros Hd. destruct snapshot as [s|]; [|by cbn; congruence].
  destruct (observe_observed s now c) as [_|_ _|dl _ Hdl]; cbn; [congruence|done|].
  intros [= <-]. cbn. destruct Hdl as [[? _]|(d0 & ? & ->)]; congruence.
Qed.

(** ** Theorems *)

(** C21. No snapshot is lost: whatever the order of observations, due checks and
    completions, failed or unexpected ones included, what a clean shutdown would
    flush (or the persisted record, when it would flush nothing) is the last
    snapshot the session showed; when nothing is left to flush the disk holds
    it.  Requests are numbered from one without a gap, the one in flight is the
    newest, and it carries a snapshot the disk does not hold. *)
Theorem persistence_never_loses p t0 w :
  rtc persist_step (start p t0) w →
  held (coordinator w) = latest w
  ∧ (shutdown_snapshot (coordinator w) = None → disk w = latest w)
  ∧ (∀ i r, requests w !! i = Some r → sequence r = N.of_nat (S i))
  ∧ (∀ r, in_flight (coordinator w) = Some r →
       last (requests w) = Some r ∧ Some (req_snapshot r) ≠ disk w).
Proof.
  intros [Hl Hd Hs Hn Hf Hy]%world_reachable_wf. split_and!; [done| |done|done].
  intros Hsh. rewrite <-Hl, <-Hd. unfold held. by rewrite Hsh.
Qed.

(** A run: a snapshot is shown, requested, and its write fails. *)
Definition demo_dirty : PersistenceCoordinator :=
  new None <| dirty := Some (mk_dirty demo_snapshot (10 + SNAPSHOT_DELAY)) |>.
Definition demo_writing : PersistenceCoordinator :=
  new None <| in_flight := Some (mk_request 1 demo_snapshot) |> <| next_sequence := 2%N |>.
Definition demo_retrying : PersistenceCoordinator :=
  new None <| dirty := Some (mk_dirty demo_snapshot (400000000 + SNAPSHOT_DELAY)) |>
    <| next_sequence := 2%N |>.

Lemma demo_observes :
  rtc persist_step (start None 0) (mk_world demo_dirty None (Some demo_snapshot) [] 10).
Proof. apply rtc_once. by eapply (StepObserve _ _ _ _ _ (Some demo_snapshot)). Qed.

Lemma demo_fails :
  rtc persist_step (start None 0)
    (mk_world demo_retrying None (Some demo_snapshot) [mk_request 1 demo_snapshot] 400000000).
Proof.
  eapply rtc_r; [eapply rtc_r; [apply demo_observes|]|].
  - by apply (StepTakeDue _ _ _ _ _ 300000000 (Some (mk_request 1 demo_snapshot)) demo_writing).
  - by apply (StepComplete demo_writing None _ _ _ 1 Failed 400000000 (Ok tt)).
Qed.

Lemma persistence_never_loses_witness : held demo_retrying = Some demo_snapshot.
Proof. exact (proj1 (persistence_never_loses _ _ _ demo_fails)). Defined.

(** An unsaved snapshot is saved in time: with nothing in flight, either the
    disk is current and a due check yields nothing, or a deadline is set at most
    the fixed delay ahead, later observations do not move it, the first check at
    or after it yields the latest snapshot under the next number, and its
    successful completion leaves the disk current and nothing to flush. *)
Theorem snapshot_reaches_disk p t0 w now :
  rtc persist_step (start p t0) w → in_flight (coordinator w) = None →
  (clock w + SNAPSHOT_DELAY <= now)%N → (N.of_nat (length (requests w)) + 2 <= u64_max)%N →
  let seq := N.of_nat (S (length (requests w))) in
  latest w = disk w ∧ deadline (coordinator w) = None
    ∧ take_due now (coordinator w) = Some (None, coordinator w)
  ∨ ∃ s dl c c', latest w = Some s ∧ latest w ≠ disk w
      ∧ deadline (coordinator w) = Some dl ∧ (dl <= clock w + SNAPSHOT_DELAY)%N
      ∧ (∀ snapshot t dl', deadline (observe snapshot t (coordinator w)).2 = Some dl' → dl' = dl)
      ∧ take_due now (coordinator w) = Some (Some (mk_request seq s), c)
      ∧ complete seq Succeeded now c = (Ok tt, c')
      ∧ persisted c' = latest w ∧ shutdown_snapshot c' = None.
Proof.
  intros [Hl Hd Hs _ _ Hy]%world_reachable_wf Hi Hnow Hseq seq.
  unfold held, shutdown_snapshot in Hl. unfold deadline, take_due. rewrite Hi in *.
  destruct (dirty (coordinator w)) as [d|] eqn:Ed; [right|left; split; [by rewrite <-Hl|done]].
  destruct (Hy d eq_refl) as [Hdl Hne].
  rewrite (proj2 (N.ltb_ge _ _)) by lia.
  assert (u64_checked_add (next_sequence (coordinator w)) 1
          = Some (next_sequence (coordinator w) + 1)%N) as -> by (apply u64_checked_add_Some; lia).
  rewrite Hs. eexists (dirty_snapshot d), (dirty_deadline d), _, _.
  split_and!; [done| |done|done| |done|unfold complete; cbn; by rewrite N.eqb_refl|done|done].
  - rewrite <-Hl. by apply Hne.
  - intros snapshot t dl'. destruct (in_flight (observe _ _ _).2); [done|].
    intros (d' & Hd' & ->)%fmap_Some. by apply (observe_keeps_deadline snapshot t _ _ _ Ed).
Qed.

Lemma snapshot_reaches_disk_witness :
  ∃ c c', take_due 300000000 demo_dirty = Some (Some (mk_request 1 demo_snapshot), c)
    ∧ complete 1 Succeeded 300000000 c = (Ok tt, c') ∧ persisted c' = Some demo_snapshot.
Proof.
  destruct (snapshot_reaches_disk _ _ _ 300000000 demo_observes eq_refl ltac:(done) ltac:(done))
    as [(H & _)|(s & dl & c & c' & [= <-] & _ & _ & _ & _ & Ht & Hc & Hp & _)]; [discriminate H|].
  by exists c, c'.
Defined.
