(* ===== verification/Utf8.v ===== *)
(** * UTF-8 text

    [str::from_utf8]: the strict decoder of the Rust standard library, shared by
    the components that read text from a socket or a file, and its inverse law
    with the encoder of the prelude. *)

From Stdlib Require Import ZArith Lia.
From stdpp Require Import prelude list.
From S2P Require Import Prelude.

(** A [char]: a Unicode scalar value. *)
Definition is_char (c : N) : bool :=
  (c <? 55296)%N || ((57344 <=? c)%N && (c <=? 1114111)%N).

(** The bytes a lead byte announces, and the value they spell. *)
Definition utf8_width (lead : N) : nat :=
  if (lead <? 128)%N then 1
  else if (lead <? 224)%N then 2
  else if (lead <? 240)%N then 3 else 4.

Definition utf8_value (bs : list N) : N :=
  match bs with
  | [a] => a
  | [a; b] => (a - 192) * 64 + (b - 128)
  | [a; b; c] => ((a - 224) * 64 + (b - 128)) * 64 + (c - 128)
  | [a; b; c; d] => (((a - 240) * 64 + (b - 128)) * 64 + (c - 128)) * 64 + (d - 128)
  | _ => 0
  end%N.

(** One character.  Only the canonical encoding of a scalar value is accepted,
    so overlong forms, surrogates and stray bytes are refused. *)
Definition next_char (bs : list N) : option (N * list N) :=
  match bs with
  | [] => None
  | lead :: _ =>
      let n := utf8_width lead in
      let c := utf8_value (take n bs) in
      if is_char c && bool_decide (encode_utf8 c = take n bs) then Some (c, drop n bs) else None
  end.

Fixpoint from_utf8_fuel (fuel : nat) (bs : list N) : option rstring :=
  match bs, fuel with
  | [], _ => Some []
  | _ :: _, O => None
  | _ :: _, S fuel =>
      '(c, rest) ← next_char bs;
      cs ← from_utf8_fuel fuel rest;
      Some (c :: cs)
  end.

(** Every character takes a byte at least, so the length is enough fuel. *)
Definition from_utf8 (bs : list N) : option rstring := from_utf8_fuel (length bs) bs.

Definition is_text (s : rstring) : Prop := Forall (λ c, is_char c = true) s.

Lemma next_char_Some bs c rest :
  next_char bs = Some (c, rest) → is_char c = true ∧ bs = encode_utf8 c ++ rest.
Proof.
  unfold next_char. destruct bs as [|lead bs']; [done|]. case_match eqn:E; [|done].
  apply andb_true_iff in E as [Hc He%bool_decide_eq_true]. intros [= <- <-].
  split; [done|]. by rewrite He, take_drop.
Qed.

Ltac solve_utf8 :=
  repeat match goal with |- context [(?a <? ?b)%N] => destruct (N.ltb_spec a b) end;
  cbn [length app take utf8_value]; try lia.

Lemma encode_utf8_spec c :
  is_char c = true →
  ∃ lead tl, encode_utf8 c = lead :: tl ∧ utf8_width lead = S (length tl)
    ∧ utf8_value (lead :: tl) = c.
Proof.
  intros Hc. assert (c <= 1114111)%N as Hm.
  { unfold is_char in Hc. apply orb_true_iff in Hc as [?%N.ltb_lt|[_ ?%N.leb_le]%andb_true_iff]; lia. }
  unfold encode_utf8.
  destruct (N.ltb_spec c 128); [|destruct (N.ltb_spec c 2048); [|destruct (N.ltb_spec c 65536)]];
    eexists _, _; (split; [reflexivity|]); unfold utf8_width; split; solve_utf8;
    zify; Z.to_euclidean_division_equations; lia.
Qed.

Lemma next_char_encode c rest :
  is_char c = true → next_char (encode_utf8 c ++ rest) = Some (c, rest).
Proof.
  intros Hc. destruct (encode_utf8_spec c Hc) as (lead & tl & He & Hw & Hv).
  unfold next_char. rewrite He. cbn [app].
  assert (take (utf8_width lead) (lead :: tl ++ rest) = lead :: tl) as Ht
    by (rewrite Hw; cbn; by rewrite take_app_length).
  assert (drop (utf8_width lead) (lead :: tl ++ rest) = rest) as Hd
    by (rewrite Hw; cbn; by rewrite drop_app_length).
  rewrite Ht, Hd, Hv, Hc, He. by rewrite bool_decide_true.
Qed.

Lemma from_utf8_fuel_sound fuel bs s :
  from_utf8_fuel fuel bs = Some s → is_text s ∧ str_bytes s = bs.
Proof.
  revert bs s. induction fuel as [|fuel IH]; intros [|b bs] s; cbn [from_utf8_fuel];
    [intros [= <-]; split; [apply Forall_nil_2|done]|done|intros [= <-]; split; [apply Forall_nil_2|done]|].
  intros ([c rest] & [Hc Hb]%next_char_Some & (cs & [Ht Hcs]%IH & [= <-])%bind_Some)%bind_Some.
  split; [by constructor|]. by rewrite Hb, <-Hcs.
Qed.

Lemma from_utf8_fuel_complete fuel s :
  is_text s → length (str_bytes s) ≤ fuel → from_utf8_fuel fuel (str_bytes s) = Some s.
Proof.
  intros Ht. revert fuel. induction Ht as [|c s Hc Ht IH]; intros fuel Hf; [by destruct fuel|].
  change (str_bytes (c :: s)) with (encode_utf8 c ++ str_bytes s) in *.
  rewrite length_app, length_encode_utf8 in Hf. pose proof (len_utf8_pos c).
  destruct (encode_utf8_spec c Hc) as (lead & tl & He & _).
  destruct fuel as [|fuel]; [lia|].
  assert (from_utf8_fuel (S fuel) (encode_utf8 c ++ str_bytes s)
    = ('(c, rest) ← next_char (encode_utf8 c ++ str_bytes s);
       cs ← from_utf8_fuel fuel rest; Some (c :: cs))) as -> by (by rewrite He).
  rewrite next_char_encode by done. cbn. rewrite IH by lia. done.
Qed.

(** The decoder accepts exactly the encodings of text, and inverts the encoder. *)
Lemma from_utf8_Some bs s : from_utf8 bs = Some s ↔ is_text s ∧ str_bytes s = bs.
Proof.
  split; [apply from_utf8_fuel_sound|]. intros [Ht <-]. by apply from_utf8_fuel_complete.
Qed.

Lemma from_utf8_str_bytes s : is_text s → from_utf8 (str_bytes s) = Some s.
Proof. intros. by apply from_utf8_Some. Qed.
