(* ===== verification/Text.v ===== *)
(** * The methods of [str] the parsers use

    Lines, fields, trimming, splitting and the parsing of unsigned integers, as
    the Rust standard library defines them on text, which is a list of Unicode
    scalar values. *)

From Stdlib Require Import ZArith Lia DecimalFacts DecimalPos DecimalN.
From stdpp Require Import prelude list.
From S2P Require Import Prelude.

Implicit Types s t : list N.

(** [char::is_whitespace]: the Unicode property White_Space. *)
Definition is_whitespace (c : N) : bool :=
  (((9 <=? c) && (c <=? 13)) || (c =? 32) || (c =? 133) || (c =? 160) || (c =? 5760)
   || ((8192 <=? c) && (c <=? 8202)) || (c =? 8232) || (c =? 8233) || (c =? 8239)
   || (c =? 8287) || (c =? 12288))%N.

(** [str::split] by a predicate on characters: at least one piece. *)
Fixpoint split_by (f : N → bool) s : list rstring :=
  match s with
  | [] => [[]]
  | c :: s' =>
      if f c then [] :: split_by f s'
      else match split_by f s' with
           | w :: ws => (c :: w) :: ws
           | [] => [[c]]
           end
  end.

Definition split_whitespace s : list rstring :=
  filter (λ w, w ≠ []) (split_by is_whitespace s).

(** The [\r] before a line feed is part of the line ending. *)
Definition strip_cr (line : rstring) : rstring :=
  match reverse line with 13%N :: rest => reverse rest | _ => line end.

Fixpoint line_pieces (ps : list rstring) : list rstring :=
  match ps with
  | [] | [[]] => []
  | [p] => [p]
  | p :: ps' => strip_cr p :: line_pieces ps'
  end.

(** [str::lines] *)
Definition lines s : list rstring := line_pieces (split_by (λ c, c =? 10)%N s).

Fixpoint trim_start s : rstring :=
  match s with c :: s' => if is_whitespace c then trim_start s' else s | [] => [] end.

(** [str::trim] *)
Definition trim s : rstring := reverse (trim_start (reverse (trim_start s))).

(** [str::strip_prefix] and [str::starts_with] *)
Fixpoint strip_prefix (p s : rstring) : option rstring :=
  match p, s with
  | [], _ => Some s
  | c :: p', d :: s' => if (c =? d)%N then strip_prefix p' s' else None
  | _ :: _, [] => None
  end.

Definition starts_with (p s : rstring) : bool := bool_decide (is_Some (strip_prefix p s)).

(** [str::split_once] at the first [c] *)
Fixpoint split_once (c : N) s : option (rstring * rstring) :=
  match s with
  | [] => None
  | d :: s' => if (d =? c)%N then Some ([], s') else prod_map (cons d) id <$> split_once c s'
  end.

(** [str::parse] at an unsigned type with the given maximum: an optional plus
    sign, then at least one digit, and no overflow on the way. *)
Fixpoint parse_digits (max acc : N) s : option N :=
  match s with
  | [] => Some acc
  | d :: s' =>
      if ((48 <=? d) && (d <=? 57))%N then
        let acc := (acc * 10 + (d - 48))%N in
        if (acc <=? max)%N then parse_digits max acc s' else None
      else None
  end.

Definition parse_uint (max : N) s : option N :=
  let digits := match s with 43%N :: rest => rest | _ => s end in
  match digits with [] => None | _ => parse_digits max 0 digits end.

(** ** Prefixes *)

Lemma strip_prefix_Some p s r : strip_prefix p s = Some r ↔ s = p ++ r.
Proof.
  revert s. induction p as [|c p IH]; intros [|d s]; cbn; try by split; congruence.
  destruct (N.eqb_spec c d) as [<-|Hne]; [rewrite IH|]; split; try congruence.
Qed.

Lemma split_once_Some c s l r : split_once c s = Some (l, r) ↔ s = l ++ c :: r ∧ c ∉ l.
Proof.
  revert l. induction s as [|d s IH]; intros l; cbn.
  { split; [done|]. by intros [?%eq_sym%app_nil ?]; destruct_and?. }
  destruct (N.eqb_spec d c) as [->|Hne].
  - split; [intros [= <- <-]; split; [done|apply not_elem_of_nil]|].
    intros [Hl Hn]. destruct l as [|x l]; [by injection Hl as ->|].
    injection Hl as -> _. by destruct Hn; left.
  - split.
    + intros ([l' r'] & Hs & [= -> ->])%fmap_Some. apply IH in Hs as [-> Hn].
      split; [done|]. cbn. apply not_elem_of_cons. by split.
    + intros [Hl Hn]. destruct l as [|x l]; [by injection Hl as ->|].
      injection Hl as -> Hs. apply not_elem_of_cons in Hn as [_ Hn].
      by rewrite (proj2 (IH l) (conj Hs Hn)).
Qed.

(** ** Splitting *)

Definition free (f : N → bool) (w : rstring) : Prop := Forall (λ c, f c = false) w.

Lemma split_by_free f w : free f w → split_by f w = [w].
Proof. induction 1 as [|c w Hc _ IH]; cbn; [done|]. by rewrite Hc, IH. Qed.

Lemma split_by_app f w c s :
  free f w → f c = true → split_by f (w ++ c :: s) = w :: split_by f s.
Proof.
  intros Hw Hc. induction Hw as [|d w Hd _ IH]; cbn; [by rewrite Hc|]. by rewrite Hd, IH.
Qed.

(** The pieces joined again give the text. *)
Fixpoint join (c : N) (ws : list rstring) : rstring :=
  match ws with
  | [] => []
  | [w] => w
  | w :: ws' => w ++ c :: join c ws'
  end.

Lemma split_by_join c ws :
  ws ≠ [] → Forall (free (λ d, d =? c)%N) ws → split_by (λ d, d =? c)%N (join c ws) = ws.
Proof.
  intros Hne Hw. induction Hw as [|w ws Hw Hws IH]; [done|].
  destruct ws as [|w' ws]; [by apply split_by_free|].
  change (join c (w :: w' :: ws)) with (w ++ c :: join c (w' :: ws)).
  rewrite split_by_app; [by rewrite IH|done|apply N.eqb_refl].
Qed.

(** ** Numbers *)

Lemma of_uint_acc_le d p : (p <= Pos.of_uint_acc d p)%positive.
Proof. revert p. induction d as [|d IH|d IH|d IH|d IH|d IH|d IH|d IH|d IH|d IH|d IH]; intros p;
  cbn [Pos.of_uint_acc]; [lia|..]; (etransitivity; [|apply IH]); lia. Qed.

Lemma parse_digit max acc c s q :
  (48 <= c <= 57)%N → q = (acc * 10 + (c - 48))%N → (q <= max)%N →
  parse_digits max acc (c :: s) = parse_digits max q s.
Proof.
  intros [Hlo Hhi] -> Hle. cbn. by rewrite !(proj2 (N.leb_le _ _)).
Qed.

Lemma parse_digits_acc max d p :
  (Npos (Pos.of_uint_acc d p) <= max)%N →
  parse_digits max (Npos p) (uint_chars d) = Some (Npos (Pos.of_uint_acc d p)).
Proof.
  revert p. induction d as [|d IH|d IH|d IH|d IH|d IH|d IH|d IH|d IH|d IH|d IH]; intros p;
    cbn [Pos.of_uint_acc uint_chars]; [done|..]; intros Hle;
    match type of Hle with context [Pos.of_uint_acc d ?q] =>
      pose proof (of_uint_acc_le d q); rewrite (parse_digit max _ _ _ (Npos q)) by lia; by apply IH
    end.
Qed.

Lemma parse_digits_uint max d :
  (N.of_uint d <= max)%N → parse_digits max 0 (uint_chars d) = Some (N.of_uint d).
Proof.
  induction d as [|d IH|d IH|d IH|d IH|d IH|d IH|d IH|d IH|d IH|d IH];
    cbn [N.of_uint Pos.of_uint uint_chars]; [done|..]; intros Hle;
    [by rewrite (parse_digit max _ _ _ 0) by lia; apply IH|..];
    match type of Hle with context [Pos.of_uint_acc d ?q] =>
      pose proof (of_uint_acc_le d q); rewrite (parse_digit max _ _ _ (Npos q)) by lia;
      by apply parse_digits_acc
    end.
Qed.

Lemma decimal_digits n : Forall (λ c, 48 <= c <= 57)%N (decimal n).
Proof. unfold decimal. induction (N.to_uint n); cbn; constructor; by try lia. Qed.

Lemma decimal_nonempty n : decimal n ≠ [].
Proof.
  unfold decimal. destruct (N.to_uint n) eqn:E; try done. exfalso.
  destruct n as [|p]; [done|]. by apply (DecimalPos.Unsigned.to_uint_nonnil p).
Qed.

(** A printed number parses to itself. *)
Lemma parse_decimal max n : (n <= max)%N → parse_uint max (decimal n) = Some n.
Proof.
  intros Hle. unfold parse_uint.
  pose proof (decimal_digits n) as Hd. pose proof (decimal_nonempty n) as Hn.
  destruct (decimal n) as [|c s] eqn:E; [done|].
  apply Forall_cons in Hd as [Hc _].
  assert (match c :: s with 43%N :: rest => rest | _ => c :: s end = c :: s) as ->.
  { destruct c as [|p]; [lia|]. do 6 (destruct p as [p|p|]; try done; try lia). }
  rewrite <-E. unfold decimal.
  rewrite parse_digits_uint; rewrite DecimalN.Unsigned.of_to; [done|done].
Qed.
