(* ===== verification/Modules.v ===== *)
(** * realm-session/src/modules.rs: the producers of the bar's modules

    The clock, the reducer of [/proc] observations, the battery and the texts
    they render; the mailbox a sampler thread publishes them through is in
    Sampler.v.  The contents of files are arguments. *)

From Stdlib Require Import ZArith Lia.
From stdpp Require Import prelude list gmap sorting.
From S2P Require Import Prelude Layout Ledger Projection Keys State Backend Snapshot Visible Authority Text.

(** ** Data *)

Record NetworkRate := mk_rate { receive_bps : N; transmit_bps : N }.

Record BatteryReading := mk_battery { capacity : N; discharging : bool }.

#[export] Instance NetworkRate_eq_dec : EqDecision NetworkRate.
Proof. solve_decision. Defined.
#[export] Instance BatteryReading_eq_dec : EqDecision BatteryReading.
Proof. solve_decision. Defined.

Record ModuleSnapshot := mk_module_snapshot {
  cpu_percent : option N;
  memory_tenths_gib : option N;
  network : option NetworkRate;
  battery : option BatteryReading
}.

#[export] Instance ModuleSnapshot_settable : Settable ModuleSnapshot := λ m,
  mk_module_snapshot (cpu_percent m) (memory_tenths_gib m) (network m) (battery m).

Inductive Source := Cpu | Memory | Network.

#[export] Instance Source_eq_dec : EqDecision Source.
Proof. solve_decision. Defined.

#[export] Instance Source_countable : Countable Source.
Proof.
  refine (inj_countable' (λ s, match s with Cpu => 0 | Memory => 1 | Network => 2 end)
    (λ n, match n with 0 => Cpu | 1 => Memory | _ => Network end) _). by intros [].
Defined.

Record CpuCounters := mk_cpu { total : N; idle : N }.

Record NetCounters := mk_net { receive : N; transmit : N }.

(** ** Rendering *)

(** The captured time zone renders an instant, in nanoseconds since the epoch, as
    hours and minutes, or fails when it is out of range. *)
Definition ClockModule : Type := Z → option rstring.

Definition render (clock : ClockModule) (now : Z) : option BarModule :=
  (λ hhmm, mk_module (lit "clock") hhmm None false) <$> clock now.

(** [format!("⚡ {}%", capacity)]: U+26A1. *)
Definition battery_module (b : BatteryReading) : BarModule :=
  mk_module (lit "battery") ([9889%N] ++ lit " " ++ decimal (capacity b) ++ lit "%") (Some (lit "gold"))
    (discharging b && (capacity b <=? 15)%N).

Definition UNITS : list (N * rstring) :=
  [(1000000000%N, lit "G"); (1000000%N, lit "M"); (1000%N, lit "k")].

(** [(bytes * 10 + scale / 2) / scale], in 128 bits *)
Definition rate_tenths (bps scale : N) : N := ((bps * 10 + scale / 2) / scale)%N.

Definition tenths (t : N) (suffix : rstring) : rstring :=
  if (t mod 10 =? 0)%N then decimal (t / 10) ++ suffix
  else decimal (t / 10) ++ lit "." ++ decimal (t mod 10) ++ suffix.

Definition format_rate (bps : N) : rstring :=
  match list_find (λ u : N * rstring, (u.1 <= bps)%N) UNITS with
  | Some (_, (scale, suffix)) => tenths (rate_tenths bps scale) suffix
  | None => decimal bps
  end.

(** [format!("↑ {} ↓ {}")]: U+2191 and U+2193. *)
Definition network_module (r : NetworkRate) : BarModule :=
  mk_module (lit "net") ([8593%N] ++ lit " " ++ format_rate (transmit_bps r) ++ lit " " ++ [8595%N]
    ++ lit " " ++ format_rate (receive_bps r)) None false.

Definition cpu_module (percent : N) : BarModule :=
  mk_module (lit "cpu") (lit "cpu " ++ decimal percent ++ lit "%") (Some (lit "starlight")) false.

Definition memory_module (t : N) : BarModule :=
  mk_module (lit "mem") (lit "mem " ++ decimal (t / 10) ++ lit "." ++ decimal (t mod 10) ++ lit "G")
    None false.

Definition modules (s : ModuleSnapshot) (clock : BarModule) : list BarModule :=
  option_list (network_module <$> network s) ++ option_list (cpu_module <$> cpu_percent s)
  ++ option_list (memory_module <$> memory_tenths_gib s) ++ option_list (battery_module <$> battery s)
  ++ [clock].

(** ** Parsing *)

Definition u64_checked_sub (a b : N) : option N := if (b <=? a)%N then Some (a - b)%N else None.

Definition checked_sum (ns : list N) : option N :=
  foldl (λ acc n, a ← acc; u64_checked_add a n) (Some 0%N) ns.

(** [collect::<Result<Vec<_>, _>>] of the parsed fields *)
Definition parse_fields (fields : list rstring) : option (list N) := mapM (parse_uint u64_max) fields.

Definition parse_cpu (input : rstring) : option CpuCounters :=
  line ← snd <$> list_find (λ l, starts_with (lit "cpu ") l = true) (lines input);
  values ← parse_fields (take 8 (drop 1 (split_whitespace line)));
  if negb (length values =? 8) then None
  else
    total ← checked_sum values;
    v3 ← values !! 3; v4 ← values !! 4;
    idle ← u64_checked_add v3 v4;
    Some (mk_cpu total idle).

(** One line of [/proc/meminfo]; [None] is the error. *)
Definition memory_line (acc : option N * option N) (line : rstring) : option (option N * option N) :=
  match split_whitespace line with
  | [] => Some acc
  | name :: fields =>
      if negb (bool_decide (name = lit "MemTotal:") || bool_decide (name = lit "MemAvailable:"))
      then Some acc
      else
        field ← head fields;
        value ← parse_uint u64_max field;
        if negb (bool_decide (head (drop 1 fields) = Some (lit "kB"))) then None
        else if bool_decide (name = lit "MemTotal:") then Some (Some value, acc.2)
        else Some (acc.1, Some value)
  end.

Definition memory_tenths (used : N) : N := ((used * 10 + 524288) / 1048576)%N.

Definition memory_fields (input : rstring) : option (option N * option N) :=
  foldl (λ acc line, a ← acc; memory_line a line) (Some (None, None)) (lines input).

Definition parse_memory (input : rstring) : option N :=
  acc ← memory_fields input;
  total ← acc.1;
  available ← acc.2;
  used ← u64_checked_sub total available;
  let t := memory_tenths used in
  if (t <=? u64_max)%N then Some t else None.

Abbreviation Counters := (gmap (list N) NetCounters) (only parsing).

Definition network_line (acc : Counters * bool) (line : rstring) : option (Counters * bool) :=
  match split_once 58%N line with
  | None => Some acc
  | Some (name, fields) =>
      values ← parse_fields (split_whitespace fields);
      if length values <? 16 then None
      else
        let name := trim name in
        receive ← values !! 0; transmit ← values !! 8;
        Some (if bool_decide (name = lit "lo") then acc.1 else <[name := mk_net receive transmit]> acc.1, true)
  end.

Definition parse_network (input : rstring) : option Counters :=
  acc ← foldl (λ acc line, a ← acc; network_line a line) (Some (∅, false)) (lines input);
  if acc.2 : bool then Some acc.1 else None.

Definition NANOS : N := 1000000000.
Definition u128_max : N := 340282366920938463463374607431768211455.

Definition rate_per_second (bytes elapsed : N) : option N :=
  if (elapsed =? 0)%N then None
  else
    let scaled := (bytes * NANOS)%N in
    if (u128_max <? scaled)%N then None
    else
      let rounded := ((scaled + elapsed / 2) / elapsed)%N in
      if (rounded <=? u64_max)%N then Some rounded else None.

(** ** The reducer *)

Record ProcSampler := mk_sampler {
  previous_cpu : option CpuCounters;
  previous_network : Counters;
  last_cpu : option N;
  last_memory : option N;
  last_network : option NetworkRate;
  failures : gset Source
}.

#[export] Instance ProcSampler_settable : Settable ProcSampler := λ p,
  mk_sampler (previous_cpu p) (previous_network p) (last_cpu p) (last_memory p) (last_network p) (failures p).

Definition ProcSampler_default : ProcSampler := mk_sampler None ∅ None None None ∅.

Definition snapshot (p : ProcSampler) : ModuleSnapshot :=
  mk_module_snapshot (last_cpu p) (last_memory p) (last_network p) None.

(** [note_failure]: the failures to report grow by a source that had not failed. *)
Definition note_failure (s : Source) (st : ProcSampler * list Source) : ProcSampler * list Source :=
  let '(p, new_failures) := st in
  (p <| failures := {[s]} ∪ failures p |>,
   if bool_decide (s ∈ failures p) then new_failures else new_failures ++ [s]).

Definition clear_failure (s : Source) (p : ProcSampler) : ProcSampler :=
  p <| failures := failures p ∖ {[s]} |>.

(** [(busy * 100 + total / 2) / total], capped *)
Definition busy_percent (total idle : N) : N :=
  N.min (((total - idle) * 100 + total / 2) / total) 100.

Definition cpu_change (previous current : CpuCounters) : option N :=
  total ← u64_checked_sub (total current) (total previous);
  idle ← u64_checked_sub (idle current) (idle previous);
  if (0 <? total)%N && (idle <=? total)%N then Some (busy_percent total idle) else None.

Definition observe_cpu (stat : rstring) (st : ProcSampler * list Source) : ProcSampler * list Source :=
  let '(p, new_failures) := st in
  match parse_cpu stat with
  | Some current =>
      let p := clear_failure Cpu p in
      (p <| last_cpu := option_or (previous ← previous_cpu p; cpu_change previous current) (last_cpu p) |>
         <| previous_cpu := Some current |>, new_failures)
  | None => note_failure Cpu (p <| previous_cpu := None |>, new_failures)
  end.

Definition observe_memory (meminfo : rstring) (st : ProcSampler * list Source) : ProcSampler * list Source :=
  match parse_memory meminfo with
  | Some value => (clear_failure Memory st.1 <| last_memory := Some value |>, st.2)
  | None => note_failure Memory st
  end.

Definition name_order (p q : list N * NetCounters) : Prop := bytes_leb p.1 q.1 = true.

#[export] Instance name_order_dec : RelDecision name_order.
Proof. intros p q. unfold name_order. apply _. Defined.

(** What the loop over the interfaces has summed up, and how it ended. *)
Inductive Sums :=
| Summed (receive transmit : N) (comparable : bool)
| Invalid.

(** The loop: an interface that is new or was reset does not count. *)
Fixpoint sum_rates (previous : Counters) (current : list (list N * NetCounters)) (rx tx : N) (comparable : bool) :
    Sums :=
  match current with
  | [] => Summed rx tx comparable
  | (name, c) :: rest =>
      match (p ← previous !! name; r ← u64_checked_sub (receive c) (receive p);
             t ← u64_checked_sub (transmit c) (transmit p); Some (r, t)) with
      | None => sum_rates previous rest rx tx comparable
      | Some (r, t) =>
          match u64_checked_add rx r, u64_checked_add tx t with
          | Some rx, Some tx => sum_rates previous rest rx tx true
          | _, _ => Invalid
          end
      end
  end.

(** The rate to show, if there is one, and whether its calculation failed. *)
Definition network_change (previous current : Counters) (elapsed : N) : option NetworkRate * bool :=
  if (elapsed =? 0)%N then (None, false)
  else
    match sum_rates previous (merge_sort name_order (map_to_list current)) 0 0 false with
    | Summed rx tx true =>
        match rate_per_second rx elapsed, rate_per_second tx elapsed with
        | Some r, Some t => (Some (mk_rate r t), false)
        | _, _ => (None, true)
        end
    | Summed _ _ false => (None, false)
    | Invalid => (None, true)
    end.

Definition observe_network (netdev : rstring) (elapsed : N) (st : ProcSampler * list Source) :
    ProcSampler * list Source :=
  let '(p, new_failures) := st in
  match parse_network netdev with
  | Some current =>
      let '(rate, calculation_failed) := network_change (previous_network p) current elapsed in
      let p := p <| last_network := option_or rate (last_network p) |> <| previous_network := current |> in
      if calculation_failed : bool then note_failure Network (p, new_failures)
      else (clear_failure Network p, new_failures)
  | None => note_failure Network (p <| previous_network := ∅ |>, new_failures)
  end.

(** [observe]: the new failures and the sampler; the snapshot is the sampler's. *)
Definition observe (stat meminfo netdev : rstring) (elapsed : N) (p : ProcSampler) :
    ProcSampler * list Source :=
  observe_network netdev elapsed (observe_memory meminfo (observe_cpu stat (p, []))).

(** ** The battery *)

Inductive ScanError := ScanIo (errno : Z) | ScanInvalidData.

(** An entry of the directory and what its files read as. *)
Record PowerSupply := mk_supply {
  supply_name : list N;
  supply_type : result rstring ScanError;
  supply_capacity : result rstring ScanError;
  supply_status : result rstring ScanError
}.

Definition supply_order (p q : PowerSupply) : Prop := bytes_leb (supply_name p) (supply_name q) = true.

#[export] Instance supply_order_dec : RelDecision supply_order.
Proof. intros p q. unfold supply_order. apply _. Defined.

Definition read_battery (e : PowerSupply) : result BatteryReading ScanError :=
  try text := supply_capacity e in
  try capacity := match parse_uint 255 (trim text) with Some n => Ok n | None => Err ScanInvalidData end in
  ensure (capacity <=? 100)%N else ScanInvalidData;
  try status := supply_status e in
  Ok (mk_battery capacity (bool_decide (trim status = lit "Discharging"))).

Fixpoint first_battery (es : list PowerSupply) : result (option BatteryReading) ScanError :=
  match es with
  | [] => Ok None
  | e :: es' =>
      try kind := supply_type e in
      if decide (trim kind = lit "Battery")
      then try reading := read_battery e in Ok (Some reading)
      else first_battery es'
  end.

Definition scan_battery (root : result (list PowerSupply) ScanError) : result (option BatteryReading) ScanError :=
  try entries := root in first_battery (merge_sort supply_order entries).

Record BatterySampler := mk_battery_sampler {
  reading : option BatteryReading;
  failed : bool
}.

Definition BatterySampler_default : BatterySampler := mk_battery_sampler None false.

(** Whether a failure is to be reported, and the sampler. *)
Definition observe_battery (r : result (option BatteryReading) ScanError) (b : BatterySampler) :
    bool * BatterySampler :=
  match r with
  | Ok found => (false, mk_battery_sampler found false)
  | Err _ => if failed b then (false, b) else (true, mk_battery_sampler (reading b) true)
  end.

Definition is_power_supply_uevent (message : list N) : bool :=
  existsb (λ field, bool_decide (field = lit "SUBSYSTEM=power_supply")) (split_by (λ c, c =? 0)%N message).

(** ** Rounding *)

(** [q] is the quotient of [a] by [b] to the nearest integer. *)
Definition nearest (q a b : N) : Prop := (2 * a <= 2 * q * b + b ∧ 2 * q * b <= 2 * a + b)%N.

Lemma half_bounds (b : N) : (2 * (b / 2) <= b < 2 * (b / 2) + 2)%N.
Proof.
  pose proof (N.Div0.div_mod b 2) as E. pose proof (N.mod_lt b 2 ltac:(discriminate)) as Hm.
  revert E Hm. generalize (b / 2)%N (b mod 2)%N. intros h r E Hm. lia.
Qed.

Lemma nearest_div a b : b ≠ 0%N → nearest ((a + b / 2) / b) a b.
Proof.
  intros Hb. unfold nearest.
  pose proof (half_bounds b) as Hh.
  pose proof (N.Div0.div_mod (a + b / 2) b) as E. pose proof (N.mod_lt (a + b / 2) b Hb) as Hm.
  revert E Hm Hh. generalize ((a + b / 2) / b)%N ((a + b / 2) mod b)%N. generalize (b / 2)%N.
  intros h q r E Hm Hh.
  replace (2 * q * b)%N with (2 * (b * q))%N by ring. lia.
Qed.

Lemma nearest_percent busy total :
  (0 < total)%N → (busy <= total)%N → (((busy * 100 + total / 2) / total) <= 100)%N.
Proof.
  intros Ht Hb. apply N.lt_succ_r, N.Div0.div_lt_upper_bound.
  pose proof (half_bounds total) as Hh. revert Hh. generalize (total / 2)%N. lia.
Qed.

Lemma u64_checked_sub_Some a b c : u64_checked_sub a b = Some c ↔ (b <= a)%N ∧ c = (a - b)%N.
Proof. unfold u64_checked_sub. destruct (N.leb_spec b a); split; intros; destruct_and?; simplify_eq; (done || lia). Qed.

Lemma busy_percent_nearest total idle :
  (0 < total)%N → (idle <= total)%N →
  nearest (busy_percent total idle) ((total - idle) * 100) total ∧ (busy_percent total idle <= 100)%N.
Proof.
  intros Ht Hi. unfold busy_percent.
  pose proof (nearest_percent (total - idle) total Ht ltac:(lia)).
  rewrite N.min_l by done. split; [|done]. apply nearest_div. lia.
Qed.

(** ** Sums over the interfaces *)

(** What an interface received and sent since the last observation, when it was
    there and its counters did not go back. *)
Definition interface_growth (previous : Counters) (p : list N * NetCounters) : option (N * N) :=
  c ← previous !! p.1; r ← u64_checked_sub (receive p.2) (receive c);
  t ← u64_checked_sub (transmit p.2) (transmit c); Some (r, t).

Definition growths (previous current : Counters) : list (N * N) :=
  omap (interface_growth previous) (map_to_list current).

Definition total_of (f : N * N → N) (l : list (N * N)) : N := foldr (λ p acc, f p + acc)%N 0%N l.

Lemma total_of_perm f l l' : l ≡ₚ l' → total_of f l = total_of f l'.
Proof.
  unfold total_of. induction 1 as [|p l l' _ IH|p q l|l l' l'' _ IH1 _ IH2]; cbn; [done|by rewrite IH|lia|congruence].
Qed.

Lemma sum_rates_spec previous l rx tx b :
  (rx <= u64_max)%N → (tx <= u64_max)%N →
  let g := omap (interface_growth previous) l in
  sum_rates previous l rx tx b =
    if (rx + total_of fst g <=? u64_max)%N && (tx + total_of snd g <=? u64_max)%N
    then Summed (rx + total_of fst g) (tx + total_of snd g) (b || negb (bool_decide (g = []))) else Invalid.
Proof.
  revert rx tx b. induction l as [|[name c] l IH]; intros rx tx b Hr Ht; cbv zeta.
  - cbn. rewrite !N.add_0_r, !(proj2 (N.leb_le _ _)), orb_false_r by done. done.
  - cbn [sum_rates omap list_omap]. fold (interface_growth previous (name, c)).
    change (p ← previous !! name; _) with (interface_growth previous (name, c)).
    destruct (interface_growth previous (name, c)) as [[r t]|]; [|by apply IH].
    set (g := omap _ l) in *. cbn [total_of foldr fst snd]. fold (total_of fst g) (total_of snd g).
    rewrite bool_decide_false, orb_true_r by done.
    unfold u64_checked_add. destruct (N.leb_spec (rx + r) u64_max), (N.leb_spec (tx + t) u64_max).
    + rewrite IH by done. cbn. by rewrite !N.add_assoc.
    + rewrite (proj2 (N.leb_gt (tx + _) _)) by lia. by rewrite andb_false_r.
    + rewrite (proj2 (N.leb_gt (rx + _) _)) by lia. done.
    + rewrite (proj2 (N.leb_gt (rx + _) _)) by lia. done.
Qed.

(** [Duration::MAX], in nanoseconds. *)
Definition duration_max : N := 18446744073709551615999999999.

(** The 128-bit products and sums of a rate do not overflow. *)
Lemma rate_per_second_spec bytes elapsed :
  (bytes <= u64_max)%N → (0 < elapsed <= duration_max)%N →
  (bytes * NANOS + elapsed / 2 <= u128_max)%N
  ∧ match rate_per_second bytes elapsed with
    | Some r => nearest r (bytes * NANOS) elapsed ∧ (r <= u64_max)%N
    | None => (u64_max < (bytes * NANOS + elapsed / 2) / elapsed)%N
    end.
Proof.
  intros Hb [He1 He2].
  assert (bytes * NANOS + elapsed / 2 <= u128_max)%N as Hmax.
  { pose proof (half_bounds elapsed) as Hh. revert Hh. generalize (elapsed / 2)%N.
    unfold u64_max, NANOS, duration_max, u128_max in *. lia. }
  split; [done|]. unfold rate_per_second. rewrite (proj2 (N.eqb_neq _ _)) by lia.
  cbv zeta. rewrite (proj2 (N.ltb_ge _ _)) by (etransitivity; [apply N.le_add_r|exact Hmax]).
  destruct (N.leb_spec ((bytes * NANOS + elapsed / 2) / elapsed) u64_max); [|done].
  split; [|done]. apply nearest_div. lia.
Qed.

(** What an interval shows of the network: the rates nearest to what the
    interfaces that were there before moved. *)
Definition rate_shown (previous current : Counters) (elapsed : N) (r : NetworkRate) : Prop :=
  let g := growths previous current in
  g ≠ [] ∧ nearest (receive_bps r) (total_of fst g * NANOS) elapsed
  ∧ nearest (transmit_bps r) (total_of snd g * NANOS) elapsed.

Lemma growths_sorted previous current :
  total_of fst (omap (interface_growth previous) (merge_sort name_order (map_to_list current)))
    = total_of fst (growths previous current)
  ∧ total_of snd (omap (interface_growth previous) (merge_sort name_order (map_to_list current)))
    = total_of snd (growths previous current)
  ∧ (omap (interface_growth previous) (merge_sort name_order (map_to_list current)) = []
     ↔ growths previous current = []).
Proof.
  assert (omap (interface_growth previous) (merge_sort name_order (map_to_list current))
    ≡ₚ growths previous current) as Hp by (apply omap_Permutation, merge_sort_Permutation).
  split_and!; [by apply total_of_perm..|]. split; intros E; rewrite E in Hp.
  - by apply Permutation_nil_l in Hp.
  - by apply Permutation_nil_r in Hp.
Qed.

Lemma network_change_spec previous current elapsed :
  (elapsed <= duration_max)%N →
  match network_change previous current elapsed with
  | (Some r, fails) => fails = false ∧ (0 < elapsed)%N ∧ rate_shown previous current elapsed r
  | (None, fails) => fails = false → elapsed = 0%N ∨ growths previous current = []
  end.
Proof.
  intros He. unfold network_change. destruct (N.eqb_spec elapsed 0) as [->|Hne]; [by left|].
  rewrite sum_rates_spec by done. cbv zeta. rewrite !N.add_0_l.
  destruct (growths_sorted previous current) as (-> & -> & Hnil).
  destruct (N.leb_spec (total_of fst (growths previous current)) u64_max) as [Hr|]; [|done].
  destruct (N.leb_spec (total_of snd (growths previous current)) u64_max) as [Ht|]; [|done].
  cbn [andb orb]. case_bool_decide as Hg; cbn [negb]; [intros _; right; by apply Hnil|].
  destruct (rate_per_second_spec _ elapsed Hr ltac:(lia)) as [_ Hrx].
  destruct (rate_per_second_spec _ elapsed Ht ltac:(lia)) as [_ Htx].
  destruct (rate_per_second (total_of fst _) elapsed); [|done].
  destruct (rate_per_second (total_of snd _) elapsed); [|done].
  split_and!; [done|lia|]. split_and!; [by rewrite <-Hnil|apply Hrx|apply Htx].
Qed.

(** ** What an observation changes *)

(** The counters moved forward, and the percentage is the nearest to the busy part. *)
Definition cpu_moved (prev cur : CpuCounters) : Prop :=
  (total prev < total cur)%N ∧ (idle prev <= idle cur)%N
  ∧ (idle cur - idle prev <= total cur - total prev)%N.

Definition cpu_shown (prev cur : CpuCounters) (percent : N) : Prop :=
  let total := (total cur - total prev)%N in
  let idle := (idle cur - idle prev)%N in
  nearest percent ((total - idle) * 100) total ∧ (percent <= 100)%N.

Lemma cpu_change_spec prev cur :
  match cpu_change prev cur with
  | Some percent => cpu_moved prev cur ∧ cpu_shown prev cur percent
  | None => ¬ cpu_moved prev cur
  end.
Proof.
  unfold cpu_change, u64_checked_sub, cpu_moved, cpu_shown.
  destruct (N.leb_spec (total prev) (total cur)); cbn [mbind option_bind]; [|lia].
  destruct (N.leb_spec (idle prev) (idle cur)); cbn [mbind option_bind]; [|lia].
  destruct (N.ltb_spec 0 (total cur - total prev)); cbn [andb]; [|lia].
  destruct (N.leb_spec (idle cur - idle prev) (total cur - total prev)); [|lia].
  split; [lia|]. by apply busy_percent_nearest.
Qed.

Lemma parse_memory_Some input t :
  parse_memory input = Some t →
  ∃ total available, memory_fields input = Some (Some total, Some available)
    ∧ (available <= total)%N ∧ nearest t ((total - available) * 10) 1048576.
Proof.
  unfold parse_memory. intros ([tot avail] & Hf & Hacc)%bind_Some. cbn in Hacc.
  apply bind_Some in Hacc as (total & Etot & Hacc). apply bind_Some in Hacc as (available & Eav & Hacc).
  apply bind_Some in Hacc as (used & Hu & Ht). subst tot avail.
  apply u64_checked_sub_Some in Hu as [Hle ->]. case_match; [|done]. injection Ht as <-.
  exists total, available. split_and!; [done|done|]. by apply (nearest_div _ 1048576).
Qed.

(** The sources that an observation of [p] finds broken. *)
Definition broken (p : ProcSampler) (stat meminfo netdev : rstring) (elapsed : N) (s : Source) : bool :=
  match s with
  | Cpu => bool_decide (parse_cpu stat = None)
  | Memory => bool_decide (parse_memory meminfo = None)
  | Network =>
      match parse_network netdev with
      | Some current => (network_change (previous_network p) current elapsed).2
      | None => true
      end
  end.

Definition mark (b : bool) (s : Source) (st : ProcSampler * list Source) : ProcSampler * list Source :=
  if b then note_failure s st else (clear_failure s st.1, st.2).

Definition marked (p : ProcSampler) (s : Source) : bool := bool_decide (s ∈ failures p).

Lemma mark_marked b s p l x :
  marked (mark b s (p, l)).1 x = if decide (x = s) then b else marked p x.
Proof.
  unfold marked. destruct b, (decide (x = s)) as [->|Hne]; cbn; [..|apply bool_decide_ext; set_solver].
  - apply bool_decide_eq_true. set_solver.
  - apply bool_decide_ext. set_solver.
  - apply bool_decide_eq_false. set_solver.
Qed.

Definition reported (b : bool) (p : ProcSampler) (s : Source) : list Source :=
  if b && negb (marked p s) then [s] else [].

Lemma mark_reports b s p l : (mark b s (p, l)).2 = l ++ reported b p s.
Proof.
  unfold reported, marked. destruct b; cbn; [|by rewrite app_nil_r].
  by case_bool_decide; cbn; rewrite ?app_nil_r.
Qed.

Lemma reported_elem b p s x : x ∈ reported b p s ↔ x = s ∧ b = true ∧ marked p s = false.
Proof.
  unfold reported. destruct b, (marked p s); cbn;
    rewrite ?list_elem_of_singleton, ?elem_of_nil; split; intros; destruct_and?; done.
Qed.

Lemma marks_spec (b : Source → bool) p :
  let st := mark (b Network) Network (mark (b Memory) Memory (mark (b Cpu) Cpu (p, []))) in
  (∀ s, marked st.1 s = b s)
  ∧ st.2 = reported (b Cpu) p Cpu ++ reported (b Memory) p Memory ++ reported (b Network) p Network.
Proof.
  cbv zeta. destruct (mark (b Cpu) Cpu (p, [])) as [p1 l1] eqn:E1.
  destruct (mark (b Memory) Memory (p1, l1)) as [p2 l2] eqn:E2.
  pose proof (λ x, mark_marked (b Cpu) Cpu p [] x) as M1. pose proof (mark_reports (b Cpu) Cpu p []) as R1.
  pose proof (λ x, mark_marked (b Memory) Memory p1 l1 x) as M2. pose proof (mark_reports (b Memory) Memory p1 l1) as R2.
  rewrite E1 in M1, R1. rewrite E2 in M2, R2. cbn in M1, R1, M2, R2.
  rewrite mark_reports, R2, R1. split.
  - intros s. rewrite mark_marked, M2, M1. by destruct s.
  - unfold reported. by rewrite M2, M1, M1, <-app_assoc.
Qed.

(** [observe] as what it shows, then what it marks. *)
Lemma observe_unfold p stat meminfo netdev elapsed :
  let '(p', new_failures) := observe stat meminfo netdev elapsed p in
  let b := broken p stat meminfo netdev elapsed in
  let st := mark (b Network) Network (mark (b Memory) Memory (mark (b Cpu) Cpu (p, []))) in
  previous_cpu p' = parse_cpu stat
  ∧ previous_network p' = default ∅ (parse_network netdev)
  ∧ last_cpu p' = option_or (cur ← parse_cpu stat; prev ← previous_cpu p; cpu_change prev cur) (last_cpu p)
  ∧ last_memory p' = option_or (parse_memory meminfo) (last_memory p)
  ∧ last_network p' = option_or (cur ← parse_network netdev; (network_change (previous_network p) cur elapsed).1)
      (last_network p)
  ∧ failures p' = failures st.1 ∧ new_failures = st.2.
Proof.
  unfold observe, broken, observe_cpu, observe_memory, observe_network, mark, note_failure, clear_failure.
  destruct (parse_cpu stat) as [c|], (parse_memory meminfo) as [m|], (parse_network netdev) as [n|]; cbn;
    try destruct (network_change (previous_network p) n elapsed) as [rate []]; cbn; by destruct p.
Qed.

(** C29. An observation shows only true values, and every one it can: the
    processor's busy percentage is the nearest integer to the busy part of the
    interval, and is shown exactly when both readings parse and the counters moved
    forward; the used memory is the nearest tenth of a GiB; the network rates are
    the nearest to what the interfaces present in both readings moved, reset ones
    left out, and no 128-bit product overflows.  What is not shown anew keeps its
    last value, and the readings replace the ones before. *)
Theorem sampler_shows_true_values p stat meminfo netdev elapsed p' new_failures :
  (elapsed <= duration_max)%N →
  observe stat meminfo netdev elapsed p = (p', new_failures) →
  (match parse_cpu stat, previous_cpu p with
   | Some cur, Some prev =>
       cpu_moved prev cur ∧ (∃ percent, last_cpu p' = Some percent ∧ cpu_shown prev cur percent)
       ∨ ¬ cpu_moved prev cur ∧ last_cpu p' = last_cpu p
   | _, _ => last_cpu p' = last_cpu p
   end)
  ∧ (last_memory p' = last_memory p ∧ parse_memory meminfo = None
     ∨ ∃ t total available, last_memory p' = Some t
         ∧ memory_fields meminfo = Some (Some total, Some available)
         ∧ (available <= total)%N ∧ nearest t ((total - available) * 10) 1048576)
  ∧ (last_network p' = last_network p
     ∨ ∃ cur r, parse_network netdev = Some cur ∧ last_network p' = Some r ∧ (0 < elapsed)%N
         ∧ rate_shown (previous_network p) cur elapsed r)
  ∧ (∀ cur, parse_network netdev = Some cur → (0 < elapsed)%N → growths (previous_network p) cur ≠ [] →
       broken p stat meminfo netdev elapsed Network = false →
       ∃ r, last_network p' = Some r ∧ rate_shown (previous_network p) cur elapsed r)
  ∧ previous_cpu p' = parse_cpu stat ∧ previous_network p' = default ∅ (parse_network netdev).
Proof.
  intros He Ho. pose proof (observe_unfold p stat meminfo netdev elapsed) as Hu. rewrite Ho in Hu.
  destruct Hu as (Epc & Epn & Ec & Em & En & _ & _). split_and!; try done.
  - rewrite Ec. destruct (parse_cpu stat) as [cur|]; [|done]. destruct (previous_cpu p) as [prev|]; [|done].
    cbn. pose proof (cpu_change_spec prev cur) as Hs. destruct (cpu_change prev cur) as [percent|]; [|by right].
    left. destruct Hs. split; [done|]. by exists percent.
  - rewrite Em. destruct (parse_memory meminfo) as [t|] eqn:Hm; [right|by left].
    apply parse_memory_Some in Hm as (total & available & ?). by exists t, total, available.
  - rewrite En. destruct (parse_network netdev) as [cur|]; [|by left]. cbn.
    pose proof (network_change_spec (previous_network p) cur elapsed He) as Hs.
    destruct (network_change (previous_network p) cur elapsed) as [[r|] b]; [right|by left].
    destruct Hs as (_ & ? & ?). by exists cur, r.
  - intros cur Hcur Hpos Hg. unfold broken. rewrite En, Hcur. cbn.
    pose proof (network_change_spec (previous_network p) cur elapsed He) as Hs.
    destruct (network_change (previous_network p) cur elapsed) as [[r|] b]; cbn.
    + destruct Hs as (_ & _ & ?). intros _. by exists r.
    + intros ->. destruct (Hs eq_refl); [lia|done].
Qed.

(** A failure is reported once per episode: a source is marked failed exactly
    while its latest reading is broken, and is reported exactly when it was not
    marked before, each source at most once; likewise for the battery, whose last
    reading survives a failed scan. *)
Theorem failures_reported_once p stat meminfo netdev elapsed p' new_failures :
  observe stat meminfo netdev elapsed p = (p', new_failures) →
  (∀ s, s ∈ failures p' ↔ broken p stat meminfo netdev elapsed s = true)
  ∧ (∀ s, s ∈ new_failures ↔ s ∈ failures p' ∧ s ∉ failures p) ∧ NoDup new_failures
  ∧ ∀ r b, let '(report, b') := observe_battery r b in
      failed b' = negb (is_ok r) ∧ report = failed b' && negb (failed b)
      ∧ reading b' = match r with Ok found => found | Err _ => reading b end.
Proof.
  intros Ho. pose proof (observe_unfold p stat meminfo netdev elapsed) as Hu. rewrite Ho in Hu.
  destruct Hu as (_ & _ & _ & _ & _ & Ef & ->). rewrite Ef. clear Ho Ef.
  destruct (marks_spec (broken p stat meminfo netdev elapsed) p) as [Hm ->].
  set (b := broken p stat meminfo netdev elapsed) in *.
  set (p3 := (mark _ _ _).1) in *. clearbody p3.
  assert (∀ s, s ∈ failures p3 ↔ b s = true) as Hf by (intros s; rewrite <-Hm; symmetry; apply bool_decide_eq_true).
  split_and!; [done| | |].
  - intros s. rewrite Hf, !elem_of_app, !reported_elem. unfold marked. rewrite !bool_decide_eq_false.
    split; [by intros [(-> & ?)|[(-> & ?)|(-> & ?)]]|]. destruct s; tauto.
  - unfold reported. repeat case_match; cbn; repeat constructor;
      rewrite ?elem_of_cons, ?elem_of_nil; by intros Hx; destruct_or?.
  - intros r bt. destruct r as [found|e]; cbn; [done|]. by destruct (failed bt) eqn:E; cbn; rewrite ?E.
Qed.

(** ** Texts *)

(** A rate is shown in the largest unit it reaches, to the nearest tenth. *)
Lemma rate_text_accurate bps :
  (bps < 1000)%N ∧ format_rate bps = decimal bps
  ∨ ∃ scale suffix t, (scale, suffix) ∈ UNITS ∧ (scale <= bps)%N
      ∧ (∀ u, u ∈ UNITS → (u.1 <= bps)%N → (u.1 <= scale)%N)
      ∧ nearest t (bps * 10) scale ∧ format_rate bps = tenths t suffix.
Proof.
  unfold format_rate. assert (∀ u, u ∈ UNITS ↔ u = (1000000000%N, lit "G") ∨ u = (1000000%N, lit "M")
    ∨ u = (1000%N, lit "k")) as HU by (intros u; unfold UNITS; set_solver).
  assert (∀ scale suffix, (scale, suffix) ∈ UNITS → scale ≠ 0%N → (scale <= bps)%N →
    (∀ u, u ∈ UNITS → (u.1 <= bps)%N → (u.1 <= scale)%N) →
    ∃ scale' suffix' t, (scale', suffix') ∈ UNITS ∧ (scale' <= bps)%N
      ∧ (∀ u, u ∈ UNITS → (u.1 <= bps)%N → (u.1 <= scale')%N)
      ∧ nearest t (bps * 10) scale' ∧ tenths (rate_tenths bps scale) suffix = tenths t suffix') as Hshow.
  { intros scale suffix ? ? ? ?. exists scale, suffix, (rate_tenths bps scale).
    split_and!; try done. by apply nearest_div. }
  cbn [list_find UNITS]. repeat case_decide; cbn in *; [..|left; split; [lia|done]];
    right; (apply Hshow; [apply HU; tauto|done|done|]); intros u [->|[->| ->]]%HU; cbn; lia.
Qed.

(** ** The repository's examples *)

Definition line (s : String.string) : rstring := lit s ++ [10%N].
Arguments line s%_string_scope.

Definition demo_meminfo : rstring :=
  line "MemTotal:       16777216 kB" ++ line "MemAvailable:    6291456 kB".
Definition demo_first : ProcSampler :=
  (observe (line "cpu 100 20 30 850 10 5 5 10 99 88") demo_meminfo
    (line "Inter-| Receive | Transmit" ++ line " lo: 9000 0 0 0 0 0 0 0 9000 0 0 0 0 0 0 0"
      ++ line " eth0: 1000 0 0 0 0 0 0 0 2000 0 0 0 0 0 0 0") 0 ProcSampler_default).1.
Definition demo_second : ProcSampler * list Source :=
  observe (line "cpu 120 20 40 910 20 5 5 10 100 90") demo_meminfo
    (line "Inter-| Receive | Transmit" ++ line " lo: 999999 0 0 0 0 0 0 0 999999 0 0 0 0 0 0 0"
      ++ line " eth0: 1501000 0 0 0 0 0 0 0 752000 0 0 0 0 0 0 0") (2 * NANOS) demo_first.

Example second_sample_modules :
  modules (snapshot demo_second.1) (mk_module (lit "clock") (lit "00:00") None false)
  = [mk_module (lit "net") ([8593%N] ++ lit " 375k " ++ [8595%N] ++ lit " 750k") None false;
     mk_module (lit "cpu") (lit "cpu 30%") (Some (lit "starlight")) false;
     mk_module (lit "mem") (lit "mem 10.0G") None false;
     mk_module (lit "clock") (lit "00:00") None false].
Proof. vm_compute. reflexivity. Qed.

Definition demo_supply (name kind cap status : String.string) : PowerSupply :=
  mk_supply (lit name) (Ok (line kind)) (Ok (line cap)) (Ok (line status)).
Arguments demo_supply (name kind cap status)%_string_scope.

Example first_battery_by_name :
  scan_battery (Ok [demo_supply "ZZZ" "Battery" "80" "Charging"; demo_supply "AC" "Mains" "" "";
                    demo_supply "AAA" "Battery" "15" "Discharging"])
  = Ok (Some (mk_battery 15 true)).
Proof. vm_compute. reflexivity. Qed.

Example power_supply_uevent :
  is_power_supply_uevent (lit "change@/devices/x" ++ [0%N] ++ lit "ACTION=change" ++ [0%N]
    ++ lit "SUBSYSTEM=power_supply" ++ [0%N]) = true.
Proof. vm_compute. reflexivity. Qed.

(** ** Witnesses *)

Lemma sampler_shows_true_values_witness :
  ∃ r, last_network demo_second.1 = Some r ∧ receive_bps r = 750000%N ∧ transmit_bps r = 375000%N.
Proof.
  destruct (sampler_shows_true_values demo_first (line "cpu 120 20 40 910 20 5 5 10 100 90") demo_meminfo
    (line "Inter-| Receive | Transmit" ++ line " lo: 999999 0 0 0 0 0 0 0 999999 0 0 0 0 0 0 0"
      ++ line " eth0: 1501000 0 0 0 0 0 0 0 752000 0 0 0 0 0 0 0") (2 * NANOS) demo_second.1 demo_second.2
    ltac:(done) (surjective_pairing _)) as (_ & _ & [Hn|(cur & r & _ & Hr & _)] & _).
  - exfalso. apply (f_equal (λ o, bool_decide (o = None))) in Hn. vm_compute in Hn. discriminate Hn.
  - exists r. split; [exact Hr|].
    assert (last_network demo_second.1 = Some (mk_rate 750000 375000)) as E by (vm_compute; reflexivity).
    pose proof (eq_trans (eq_sym Hr) E) as Er. clear Hr E. injection Er as ->. split; reflexivity.
Defined.

Lemma failures_reported_once_witness :
  let st := observe (lit "broken") (lit "broken") (lit "broken") NANOS demo_second.1 in
  Memory ∈ st.2.
Proof.
  cbv zeta.
  destruct (failures_reported_once demo_second.1 (lit "broken") (lit "broken") (lit "broken") NANOS _ _
    (surjective_pairing _)) as (Hf & Hn & _).
  apply Hn. split; [apply Hf; vm_compute; reflexivity|].
  assert (bool_decide (Memory ∈ failures demo_second.1) = false) as E by (vm_compute; reflexivity).
  exact (bool_decide_eq_false_1 _ E).
Defined.
