(* ===== verification/Sampler.v ===== *)
(** * realm-session/src/modules.rs: the sampler thread and its mailbox

    One thread samples once a second and publishes the latest snapshot in a
    one-place mailbox; the event loop takes it without ever blocking.  The loop of
    the thread is a function of what its poll and reads return; the mailbox, a
    mutex and the counter of an event descriptor, is a transition system over
    every interleaving of the two threads. *)

From Stdlib Require Import ZArith Lia.
From stdpp Require Import prelude list gmap.
From S2P Require Import Prelude Layout Ledger Projection Keys State Backend Snapshot Visible Authority Text Modules.

(** ** The thread *)

(** What [/proc] reads as; an unreadable file counts as empty. *)
Record ProcFiles := mk_files {
  read_stat : option rstring;
  read_meminfo : option rstring;
  read_netdev : option rstring
}.

Definition with_battery (p : ProcSampler) (b : BatterySampler) : ModuleSnapshot :=
  snapshot p <| battery := reading b |>.

Definition sample_proc_and_publish (files : ProcFiles) (elapsed : N) (b : BatterySampler) (p : ProcSampler) :
    ProcSampler * ModuleSnapshot :=
  let p := (observe (default [] (read_stat files)) (default [] (read_meminfo files))
              (default [] (read_netdev files)) elapsed p).1 in
  (p, with_battery p b).

Definition sample_battery_and_publish (root : result (list PowerSupply) ScanError) (p : ProcSampler)
    (b : BatterySampler) : BatterySampler * ModuleSnapshot :=
  let b := (observe_battery (scan_battery root) b).2 in (b, with_battery p b).

(** The datagrams [recv] returns until it would block or fails. *)
Inductive Received := Datagram (bytes : list N) | WouldBlock | RecvFailed.

(** [None] is the failure; the descriptor blocks at the end of the list. *)
Fixpoint drain_power_uevents (rs : list Received) (power_supply : bool) : option bool :=
  match rs with
  | [] | WouldBlock :: _ => Some power_supply
  | RecvFailed :: _ => None
  | Datagram bytes :: rs' => drain_power_uevents rs' (power_supply || is_power_supply_uevent bytes)
  end.

(** What the poll reports of the uevent socket. *)
Inductive UeventReady := UeventQuiet | UeventTerminal | UeventReadable (rs : list Received).

Definition battery_changed (r : UeventReady) : option bool :=
  match r with
  | UeventQuiet => Some false
  | UeventTerminal => None
  | UeventReadable rs => drain_power_uevents rs false
  end.

Record SamplerLoop := mk_loop {
  proc : ProcSampler;
  batteries : BatterySampler;
  uevent_open : bool;
  last_sample : N;
  next_sample : N
}.

Definition SECOND : N := NANOS.

(** Before the loop: the first samples are taken over no time. *)
Definition sampler_start (uevent : bool) (files : ProcFiles) (root : result (list PowerSupply) ScanError)
    (now now' : N) : SamplerLoop * list ModuleSnapshot :=
  let '(p, s) := sample_proc_and_publish files 0 BatterySampler_default ProcSampler_default in
  let '(b, ss) := if uevent then let '(b, s') := sample_battery_and_publish root p BatterySampler_default in
                                 (b, [s; s']) else (BatterySampler_default, [s]) in
  (mk_loop p b uevent now (now' + SECOND), ss).

(** One turn of the loop, unless the stop descriptor ends it: the snapshots
    published, in order. *)
Definition sampler_turn (ready : UeventReady) (now : N) (files : ProcFiles)
    (root : result (list PowerSupply) ScanError) (l : SamplerLoop) : SamplerLoop * list ModuleSnapshot :=
  let ready := if uevent_open l then ready else UeventQuiet in
  let changed := default false (battery_changed ready) in
  let uevent := uevent_open l && bool_decide (is_Some (battery_changed ready)) in
  let '(p, last, next, published) :=
    if (next_sample l <=? now)%N then
      let '(p, s) := sample_proc_and_publish files (now - last_sample l) (batteries l) (proc l) in
      (p, now, (now + SECOND)%N, [s])
    else (proc l, last_sample l, next_sample l, []) in
  let '(b, published) :=
    if changed then let '(b, s) := sample_battery_and_publish root p (batteries l) in (b, published ++ [s])
    else (batteries l, published) in
  (mk_loop p b uevent last next, published).

(** Processor samples are a second apart at least, so no rate is over no time,
    and the last snapshot of a turn shows the latest of both producers. *)
Lemma sampler_turn_spec ready now files root l :
  (last_sample l + SECOND <= next_sample l)%N →
  let '(l', published) := sampler_turn ready now files root l in
  (last_sample l' + SECOND <= next_sample l')%N
  ∧ (last_sample l' = last_sample l ∧ proc l' = proc l
     ∨ last_sample l' = now ∧ (last_sample l + SECOND <= now)%N
       ∧ proc l' = (sample_proc_and_publish files (now - last_sample l) (batteries l) (proc l)).1)
  ∧ match last published with
    | Some s => s = with_battery (proc l') (batteries l')
    | None => proc l' = proc l ∧ batteries l' = batteries l
    end.
Proof.
  intros Hl. unfold sampler_turn. destruct (N.leb_spec (next_sample l) now);
    destruct (default false _) eqn:Hc; cbn; split_and!; try done; try lia; try (by left); try (by right; split_and!; [|lia|]).
Qed.

(** ** The mailbox *)

(** Where the sampler is in [publish], and the event loop in [try_take_latest]. *)
Inductive Publisher := Outside | Locked (s : ModuleSnapshot) | Notifying.
Inductive Taker := Away | Holding | Drained.

(** The mailbox, the two threads, and, newest first, what was published and taken. *)
Record Mailbox := mk_mailbox {
  slot : option ModuleSnapshot;
  counter : N;
  publisher : Publisher;
  taker : Taker;
  published : list ModuleSnapshot;
  taken : list ModuleSnapshot
}.

Definition mailbox_new : Mailbox := mk_mailbox None 0 Outside Away [] [].

(** A write that would overflow the counter returns [AGAIN]. *)
Definition notify (n : N) : N := if (n + 1 <? u64_max)%N then (n + 1)%N else n.

Inductive mailbox_step : Mailbox → Mailbox → Prop :=
| PublishLock s x n pb tk :
    mailbox_step (mk_mailbox x n Outside Away pb tk) (mk_mailbox x n (Locked s) Away pb tk)
| PublishStore s x n a pb tk :
    mailbox_step (mk_mailbox x n (Locked s) a pb tk) (mk_mailbox (Some s) n Notifying a (s :: pb) tk)
| PublishNotify x n a pb tk :
    mailbox_step (mk_mailbox x n Notifying a pb tk) (mk_mailbox x (notify n) Outside a pb tk)
| TakeContended s x n pb tk :
    mailbox_step (mk_mailbox x n (Locked s) Away pb tk) (mk_mailbox x n (Locked s) Away pb tk)
| TakeLock x n p pb tk :
    (∀ s, p ≠ Locked s) →
    mailbox_step (mk_mailbox x n p Away pb tk) (mk_mailbox x n p Holding pb tk)
| TakeDrain x n p pb tk :
    mailbox_step (mk_mailbox x n p Holding pb tk) (mk_mailbox x 0 p Drained pb tk)
| TakeSlot x n p pb tk :
    mailbox_step (mk_mailbox x n p Drained pb tk) (mk_mailbox None n p Away pb (option_list x ++ tk)).

Record mailbox_wf (m : Mailbox) : Prop := {
  mb_slot : ∀ s, slot m = Some s → ∃ rest, published m = s :: rest ∧ sublist (taken m) rest;
  mb_empty : slot m = None → sublist (taken m) (published m) ∧ head (taken m) = head (published m);
  mb_counter : (counter m < u64_max)%N;
  mb_lock : ∀ s, publisher m = Locked s → taker m = Away;
  mb_wakes : slot m ≠ None → (0 < counter m)%N ∨ publisher m = Notifying ∨ taker m = Drained
}.

Lemma notify_pos n : (n < u64_max)%N → (0 < notify n < u64_max)%N.
Proof. unfold notify, u64_max. destruct (N.ltb_spec (n + 1) 18446744073709551615); lia. Qed.

Lemma mailbox_step_wf m m' : mailbox_step m m' → mailbox_wf m → mailbox_wf m'.
Proof.
  destruct 1 as [s x n pb tk|s x n a pb tk|x n a pb tk|s x n pb tk|x n p pb tk Hp|x n p pb tk|x n p pb tk];
    intros [Hs He Hc Hl Hw]; cbn in *; split; cbn; try done.
  - intros Hx. destruct (Hw Hx) as [?|[?|?]]; [by left|done|done].
  - intros s' [= <-]. exists pb. split; [done|]. destruct x as [s'|]; [|by apply He].
    destruct (Hs s' eq_refl) as (rest & -> & ?). by apply sublist_cons.
  - intros _. by right; left.
  - apply notify_pos, Hc.
  - intros _. left. apply notify_pos, Hc.
  - intros s E. by apply Hp in E.
  - intros Hx. destruct (Hw Hx) as [?|[?|?]]; [by left|by right; left|done].
  - intros s E. by apply Hl in E.
  - intros _. by right; right.
  - intros _. destruct x as [s|]; cbn; [|by apply He].
    destruct (Hs s eq_refl) as (rest & -> & ?). split; [by apply sublist_skip|done].
Qed.

(** The mailbox holds the latest and wakes its reader: the snapshots the event
    loop takes are published ones, in the order they were published, none twice;
    the newest published snapshot is the one in the slot or the last one taken;
    while it waits in the slot and both threads are outside, the event counter is
    positive, and taking then yields it and leaves nothing behind. *)
Theorem mailbox_delivers_latest m :
  rtc mailbox_step mailbox_new m →
  sublist (taken m) (published m)
  ∧ match slot m with
    | Some s => head (published m) = Some s
    | None => head (taken m) = head (published m)
    end
  ∧ ∀ s, slot m = Some s → publisher m = Outside → taker m = Away →
      (0 < counter m)%N
      ∧ ∃ m', rtc mailbox_step m m' ∧ taken m' = s :: taken m ∧ slot m' = None
          ∧ head (taken m') = head (published m') ∧ counter m' = 0%N.
Proof.
  intros Hr. assert (mailbox_wf m) as [Hs He Hc Hl Hw].
  { revert m Hr. apply rtc_ind_r; [by split|]. intros m1 m2 _ Hst. by apply mailbox_step_wf. }
  split_and!.
  - destruct (slot m) as [s|]; [|by apply He]. destruct (Hs s eq_refl) as (rest & -> & ?). by apply sublist_cons.
  - destruct (slot m) as [s|]; [|by apply He]. by destruct (Hs s eq_refl) as (rest & -> & _).
  - intros s Hsl Hp Ht. split.
    { destruct Hw as [?|[?|?]]; [by rewrite Hsl|done|congruence|congruence]. }
    destruct (Hs s Hsl) as (rest & Hpb & _). destruct m as [x n p t pb tk]; cbn in *. subst x p t pb.
    exists (mk_mailbox None 0 Outside Away (s :: rest) (s :: tk)). split; [|done].
    eapply rtc_l; [by apply TakeLock|]. eapply rtc_l; [apply TakeDrain|].
    eapply rtc_l; [apply TakeSlot|]. apply rtc_refl.
Qed.

(** Two publications, the second while the event loop is between its drain and its take. *)
Definition demo_busy : ModuleSnapshot := mk_module_snapshot (Some 80%N) None None None.
Definition demo_waiting : Mailbox := mk_mailbox (Some demo_busy) 1 Outside Away [demo_busy] [].

Lemma demo_waiting_reachable : rtc mailbox_step mailbox_new demo_waiting.
Proof.
  eapply rtc_l; [apply (PublishLock demo_busy)|]. eapply rtc_l; [apply PublishStore|].
  eapply rtc_l; [apply PublishNotify|]. apply rtc_refl.
Qed.

Lemma mailbox_delivers_latest_witness :
  (0 < counter demo_waiting)%N ∧ ∃ m', rtc mailbox_step demo_waiting m' ∧ taken m' = [demo_busy].
Proof.
  destruct (mailbox_delivers_latest demo_waiting demo_waiting_reachable) as (_ & _ & Hd).
  destruct (Hd demo_busy eq_refl eq_refl eq_refl) as (Hc & m' & Hm & Ht & _).
  split; [exact Hc|]. exists m'. split; [exact Hm|exact Ht].
Defined.
