(* ===== verification/Timers.v ===== *)
(** * realm-session/src/timers.rs: the two timers

    The event loop owns two kernel timers: one fires at the next minute boundary,
    one while a key is held.  The kernel keeps what [timerfd_settime] last
    programmed; whether a call succeeds, and what a read of a timer returns, is
    the kernel's answer, an argument here. *)

From Stdlib Require Import ZArith Lia.
From stdpp Require Import prelude.
From S2P Require Import Prelude Layout Ledger Projection Keys State Backend Snapshot Visible Authority.

(** [std::io::Error]: the system's error number, or the kind the source makes. *)
Inductive IoFault :=
| IoOs (errno : Z) | IoInvalidData | IoInvalidInput | IoUnexpectedEof | IoWriteZero.

(** [Timespec]: seconds, signed, and nanoseconds. *)
Record Timespec := mk_timespec { tv_sec : Z; tv_nsec : Z }.

Definition i64_max : Z := 9223372036854775807.

(** A [Duration] of [d] nanoseconds as a timespec: the seconds must fit. *)
Definition timespec (d : N) : result Timespec IoFault :=
  let sec := Z.of_N (d / 1000000000) in
  ensure (sec <=? i64_max)%Z else IoInvalidInput;
  Ok (mk_timespec sec (Z.of_N (d mod 1000000000))).

Record Itimerspec := mk_itimerspec { it_interval : Timespec; it_value : Timespec }.

Definition Timespec_default : Timespec := mk_timespec 0 0.

(** A timer is armed unless its first expiry is zero. *)
Definition timer_armed (t : Itimerspec) : bool :=
  negb ((tv_sec (it_value t) =? 0)%Z && (tv_nsec (it_value t) =? 0)%Z).

(** What the two timers were last programmed with; a new timer is disarmed. *)
Record SessionTimers := mk_timers { clock_timer : Itimerspec; repeat_timer : Itimerspec }.

#[export] Instance SessionTimers_settable : Settable SessionTimers := λ t,
  mk_timers (clock_timer t) (repeat_timer t).

Definition disarmed : Itimerspec := mk_itimerspec Timespec_default Timespec_default.

(** What the kernel answers: [timerfd_settime], and the read of a timer. *)
Inductive TimerRead := ReadCounter (expirations : N) | ReadPartial | ReadAgain | ReadFailed (errno : Z).

Definition consume (r : TimerRead) : result bool IoFault :=
  match r with
  | ReadCounter n => Ok (0 <? n)%N
  | ReadPartial => Err IoUnexpectedEof
  | ReadAgain => Ok false
  | ReadFailed errno => Err (IoOs errno)
  end.

Abbreviation timers_m A := (stm SessionTimers (failure IoFault) A) (only parsing).

Definition settime (put : Itimerspec → SessionTimers → SessionTimers) (answer : result unit Z)
    (t : Itimerspec) : timers_m unit :=
  match answer with
  | Ok _ => modify (put t)
  | Err errno => raise (IoOs errno)
  end.

Definition set_clock (t : Itimerspec) : SessionTimers → SessionTimers := λ ts, ts <| clock_timer := t |>.
Definition set_repeat (t : Itimerspec) : SessionTimers → SessionTimers := λ ts, ts <| repeat_timer := t |>.

(** Durations of the directive are in milliseconds. *)
Definition millis (n : N) : N := (n * 1000000)%N.

Definition apply_repeat (answer : result unit Z) (d : RepeatTimerDirective) : timers_m unit :=
  match d with
  | Timer_Preserve => mret tt
  | Timer_Arm delay interval =>
      it_interval ← of_result (timespec (millis interval));
      it_value ← of_result (timespec (millis delay));
      settime set_repeat answer (mk_itimerspec it_interval it_value)
  | Timer_Disarm => settime set_repeat answer disarmed
  end.

Definition duration_until_next_minute (since_epoch : N) : N :=
  (60000000000 - since_epoch mod 60000000000)%N.

(** [now] is the wall clock, in nanoseconds since the epoch. *)
Definition arm_next_clock (answer : result unit Z) (now : Z) : timers_m unit :=
  if (now <? 0)%Z then raise IoInvalidData
  else
    it_value ← of_result (timespec (duration_until_next_minute (Z.to_N now)));
    settime set_clock answer (mk_itimerspec Timespec_default it_value).

Definition SessionTimers_new (answer : result unit Z) (now : Z) :
    result unit (failure IoFault) * SessionTimers :=
  arm_next_clock answer now (mk_timers disarmed disarmed).

Definition consume_repeat (r : TimerRead) : timers_m bool := of_result (consume r).

Definition consume_clock (r : TimerRead) (answer : result unit Z) (now : Z) : timers_m bool :=
  expired ← of_result (consume r);
  _ ← (if expired : bool then arm_next_clock answer now else mret tt);
  mret expired.

(** ** The next minute *)

(** The wait is positive, at most a minute, and ends on a minute boundary; no
    boundary lies before. *)
Lemma next_minute_boundary t :
  let d := duration_until_next_minute t in
  (0 < d <= 60000000000)%N ∧ ((t + d) mod 60000000000 = 0)%N
  ∧ ∀ e, (0 < e < d)%N → ((t + e) mod 60000000000 ≠ 0)%N.
Proof.
  cbv zeta. unfold duration_until_next_minute. set (m := 60000000000%N).
  assert (m ≠ 0%N) as Hm by done.
  pose proof (N.mod_upper_bound t m Hm). pose proof (N.div_mod t m Hm) as Hd.
  assert (0 < m)%N by done. clearbody m.
  assert (∀ e, ((t + e) mod m = (t mod m + e) mod m)%N) as He by (intros e; by rewrite N.Div0.add_mod_idemp_l).
  generalize dependent (t mod m)%N. intros r Hr Hd He. split; [lia|]. split.
  - rewrite He. replace (r + (m - r))%N with m by lia. by apply N.Div0.mod_same.
  - intros e Hlt. rewrite He, N.mod_small; lia.
Qed.

Lemma minute_fits t : ∃ ts, timespec (duration_until_next_minute t) = Ok ts
  ∧ (ts = mk_timespec 0 0 → False).
Proof.
  destruct (next_minute_boundary t) as [[Hlo Hhi] _]. set (d := duration_until_next_minute t) in *.
  clearbody d. pose proof (N.div_mod d 1000000000 ltac:(done)) as Hd.
  assert (d / 1000000000 <= 60)%N by (apply N.Div0.div_le_upper_bound; lia).
  exists (mk_timespec (Z.of_N (d / 1000000000)) (Z.of_N (d mod 1000000000))). split.
  - unfold timespec. by rewrite (proj2 (Z.leb_le _ _)) by (unfold i64_max; lia).
  - intros [= E1 E2]. lia.
Qed.

Lemma timespec_armed d ts : timespec d = Ok ts → (0 < d)%N →
  negb ((tv_sec ts =? 0)%Z && (tv_nsec ts =? 0)%Z) = true.
Proof.
  unfold timespec. destruct (_ <=? _)%Z; [|done]. intros [= <-] Hd. cbn.
  pose proof (N.div_mod d 1000000000 ltac:(done)).
  destruct (Z.eqb_spec (Z.of_N (d / 1000000000)) 0); [|done].
  destruct (Z.eqb_spec (Z.of_N (d mod 1000000000)) 0); [|done]. exfalso. lia.
Qed.

(** The timer test of the repository. *)
Example next_minute_examples :
  duration_until_next_minute 61000000000 = 59000000000%N
  ∧ duration_until_next_minute 120000000000 = 60000000000%N.
Proof. done. Qed.

(** Programming the repeat timer fails only with the kernel's own error, given the
    delay and rate the session uses; otherwise the timer is armed or not as the
    directive says, and the clock's timer is as it was. *)
Definition armed_after (armed : bool) (d : RepeatTimerDirective) : bool :=
  match d with Timer_Preserve => armed | Timer_Arm _ _ => true | Timer_Disarm => false end.

Lemma apply_repeat_spec answer d ts :
  (∀ delay interval, d = Timer_Arm delay interval →
     delay = KEY_REPEAT_DELAY_MS ∧ interval = (1000 / KEY_REPEAT_RATE_HZ)%N) →
  match apply_repeat answer d ts with
  | (Ok _, ts') => timer_armed (repeat_timer ts') = armed_after (timer_armed (repeat_timer ts)) d
                   ∧ clock_timer ts' = clock_timer ts
  | (Err (Raise e), _) => ∃ errno, answer = Err errno ∧ e = IoOs errno
  | (Err Panic, _) => False
  end.
Proof.
  intros Hd. destruct d as [|delay interval|]; [done| |by destruct answer as [[]|errno]; [|exists errno]].
  destruct (Hd delay interval eq_refl) as [-> ->]. by destruct answer as [[]|errno]; [|exists errno].
Qed.

(** Re-arming the clock fails only before the epoch or with the kernel's error;
    otherwise its timer waits for the next minute. *)
Lemma arm_next_clock_spec answer now ts :
  match arm_next_clock answer now ts with
  | (Ok _, ts') => timer_armed (clock_timer ts') = true ∧ repeat_timer ts' = repeat_timer ts ∧ (0 <= now)%Z
      ∧ timespec (duration_until_next_minute (Z.to_N now)) = Ok (it_value (clock_timer ts'))
  | (Err (Raise e), _) => (now < 0)%Z ∧ e = IoInvalidData ∨ ∃ errno, answer = Err errno ∧ e = IoOs errno
  | (Err Panic, _) => False
  end.
Proof.
  unfold arm_next_clock. destruct (Z.ltb_spec now 0); [by left|].
  destruct (minute_fits (Z.to_N now)) as (it & Hit & _).
  destruct (next_minute_boundary (Z.to_N now)) as [[Hpos _] _].
  unfold mbind, stm_bind. rewrite Hit. cbn.
  destruct answer as [[]|errno]; [|by right; exists errno]. cbn.
  split_and!; [|done|done|done]. by apply (timespec_armed (duration_until_next_minute (Z.to_N now))).
Qed.
