(* ===== verification/Ipc.v ===== *)
(** * realm-core/src/ipc.rs: the control protocol's frames

    The messages of the control protocol and their framing: one JSON text and
    one line feed, at most [MAX_FRAME_BYTES] bytes.  The JSON text is serde_json's,
    a third-party crate: it enters as the class [Wire], what it writes to the
    frame writer chunk by chunk and what it reads back. *)

From Stdlib Require Import ZArith Lia.
From stdpp Require Import prelude list.
From S2P Require Import Prelude Layout Ledger Projection Keys State Backend Snapshot Visible Authority Session Utf8.

(** ** Messages *)

Record SessionHealth := mk_health {
  session_version : rstring;
  health_protocol_version : N;
  backend_name : rstring;
  capabilities : Capabilities;
  bound_interfaces : list InterfaceVersion;
  layer_shell_served : bool;
  degraded_codes : option (list rstring);
  uptime_ms : N
}.

Inductive ErrorKind :=
| UnknownRequest | BadArgument | NoSuchOrbit | NoFocusedWindow | BackendRefused | Internal.

#[export] Instance ErrorKind_eq_dec : EqDecision ErrorKind.
Proof. solve_decision. Defined.

Inductive Request :=
| ReqHello (version : N) (client : rstring)
| ReqGetState
| ReqGetKeymap
| ReqGetHealth
| ReqSubscribe
| ReqSwitchOrbit (orbit : nat)
| ReqMoveToOrbit (orbit : nat)
| ReqFocus (dir : Dir)
| ReqSwap (dir : Dir)
| ReqBanish
| ReqStow
| ReqFullscreen
| ReqSetLayout (layout : Layout)
| ReqUndo
| ReqReloadTheme
| ReqSpawn (argv : list rstring)
| ReqShowLedger (orbit : option nat)
| ReqQuit.

#[export] Instance Request_eq_dec : EqDecision Request.
Proof. solve_decision. Defined.

Inductive Response :=
| RespHello (version : N) (session : rstring)
| RespOk
| RespState (state : RealmState)
| RespKeymap (keymap : Keymap)
| RespHealth (health : SessionHealth)
| RespLedger (ledgers : list OrbitLedger)
| RespError (kind : ErrorKind) (message : rstring).

Inductive Event :=
| EventState (state : RealmState)
| EventShutdown.

(** ** The third-party codec *)

(** [serde_json::Error]: the error it makes of the frame writer's [WriteZero],
    and the two classifications the source asks for: [is_io] with kind
    [WriteZero], and [is_data]. *)
Class JsonErrors := {
  json_error : Type;
  json_io : json_error;
  json_is_write_zero : json_error → bool;
  json_is_data : json_error → bool
}.

(** For a serialisable type: the chunks [to_writer] writes, in order, and the
    error serialisation itself ends in, if any; and [from_str]. *)
Class Wire `{JsonErrors} (T : Type) := {
  to_chunks : T → list (list N) * option json_error;
  from_str : rstring → result T json_error
}.

(** The documented behaviour the frames rely on. *)
Class JsonErrorsLaws `{JsonErrors} : Prop := {
  io_is_write_zero : json_is_write_zero json_io = true
}.

(** serde_json writes [v] as the single-line text [t] and reads it back. *)
Record written_as `{Wire T} (v : T) (t : rstring) : Prop := {
  wa_chunks : (to_chunks v).2 = None ∧ concat (to_chunks v).1 = str_bytes t;
  wa_text : is_text t ∧ 10%N ∉ t;
  wa_read : from_str t = Ok v
}.

(** ** Frames *)

Definition MAX_FRAME_BYTES : nat := N.to_nat 65536.
#[global] Arguments MAX_FRAME_BYTES : simpl never.

(** A frame holds at least its line feed, and a short message. *)
Lemma max_frame_large : 1024 < MAX_FRAME_BYTES.
Proof. unfold MAX_FRAME_BYTES. lia. Qed.
#[global] Opaque MAX_FRAME_BYTES.

Record FrameWriter := mk_writer { fw_bytes : list N; overflowed : bool }.

(** [impl Write for FrameWriter]; the error is [io::ErrorKind::WriteZero]. *)
Definition frame_write (chunk : list N) (w : FrameWriter) : result nat unit * FrameWriter :=
  if MAX_FRAME_BYTES - 1 <? length (fw_bytes w) + length chunk
  then (Err tt, mk_writer (fw_bytes w) true)
  else (Ok (length chunk), mk_writer (fw_bytes w ++ chunk) (overflowed w)).

Section frames.
Context `{JsonErrors}.

(** [realm_core::Error], the two cases a frame can raise. *)
Inductive IpcError :=
| IpcFrameTooLarge (limit : nat)
| Ipc (e : json_error).

(** [Write::write_all] on each chunk; an empty chunk is not written. *)
Fixpoint write_chunks (chunks : list (list N)) (w : FrameWriter) :
    result unit json_error * FrameWriter :=
  match chunks with
  | [] => (Ok tt, w)
  | chunk :: chunks' =>
      if decide (chunk = []) then write_chunks chunks' w
      else
        match frame_write chunk w with
        | (Ok _, w') => write_chunks chunks' w'
        | (Err _, w') => (Err json_io, w')
        end
  end.

Context {T : Type} `{!Wire T}.

(** [serde_json::to_writer] *)
Definition to_writer (v : T) (w : FrameWriter) : result unit json_error * FrameWriter :=
  let '(chunks, own_error) := to_chunks v in
  match write_chunks chunks w, own_error with
  | (Ok _, w'), Some e => (Err e, w')
  | r, _ => r
  end.

(** The [Panic] is the [expect] on [String::from_utf8]. *)
Definition encode (v : T) : result rstring (failure IpcError) :=
  let '(r, w) := to_writer v (mk_writer [] false) in
  match r with
  | Err e =>
      Err (Raise (if overflowed w && json_is_write_zero e then IpcFrameTooLarge MAX_FRAME_BYTES
                  else Ipc e))
  | Ok _ =>
      match from_utf8 (fw_bytes w ++ [10%N]) with
      | Some frame => Ok frame
      | None => Err Panic
      end
  end.

(** [str::trim_end_matches] of a line feed *)
Fixpoint trim_end_lf (line : rstring) : rstring :=
  match line with
  | [] => []
  | c :: line' =>
      match trim_end_lf line' with
      | [] => if (c =? 10)%N then [] else [c]
      | t => c :: t
      end
  end.

Definition decode (line : rstring) : result T IpcError := map_err Ipc (from_str (trim_end_lf line)).
End frames.

(** ** Framing *)

Section framing.
Context `{JsonErrors}.

(** The bound is exact and independent of how the text is cut into chunks. *)
Lemma write_chunks_spec chunks w r w' :
  length (fw_bytes w) < MAX_FRAME_BYTES → write_chunks chunks w = (r, w') →
  if decide (length (fw_bytes w ++ concat chunks) < MAX_FRAME_BYTES)
  then r = Ok tt ∧ w' = mk_writer (fw_bytes w ++ concat chunks) (overflowed w)
  else r = Err json_io ∧ overflowed w' = true.
Proof.
  revert w. induction chunks as [|chunk chunks IH]; intros w Hw; cbn [write_chunks concat].
  - intros [= <- <-]. rewrite app_nil_r, decide_True by done. by destruct w.
  - case_decide as Hc; [subst chunk; by apply IH|]. unfold frame_write.
    pose proof max_frame_large.
    destruct (Nat.ltb_spec (MAX_FRAME_BYTES - 1) (length (fw_bytes w) + length chunk)).
    + intros [= <- <-]. rewrite decide_False; [done|]. rewrite !length_app. lia.
    + intros Hr%IH; [|cbn; rewrite length_app; lia]. revert Hr. cbn. by rewrite <-!app_assoc.
Qed.

Lemma trim_end_lf_snoc t : trim_end_lf (t ++ [10%N]) = trim_end_lf t.
Proof. induction t as [|c t IH]; [done|]. cbn. by rewrite IH. Qed.

Lemma trim_end_lf_id t : 10%N ∉ t → trim_end_lf t = t.
Proof.
  induction t as [|c t IH]; [done|]. intros [Hc Ht]%not_elem_of_cons. cbn.
  rewrite IH by done. destruct t; [|done]. by destruct (N.eqb_spec c 10).
Qed.

Lemma str_bytes_app s t : str_bytes (s ++ t) = str_bytes s ++ str_bytes t.
Proof. apply bind_app. Qed.

Lemma is_text_snoc_lf t : is_text t → is_text (t ++ [10%N]).
Proof. intros. apply Forall_app. by repeat constructor. Qed.

Context {T : Type} `{!Wire T}.
Implicit Types v : T.

(** Every frame fits the limit and ends in its line feed. *)
Lemma encode_Ok v frame :
  encode v = Ok frame →
  is_text frame ∧ length (str_bytes frame) ≤ MAX_FRAME_BYTES ∧ last (str_bytes frame) = Some 10%N.
Proof.
  unfold encode, to_writer. destruct (to_chunks v) as [chunks own].
  destruct (write_chunks chunks _) as [r w] eqn:Ew.
  apply write_chunks_spec in Ew; [|pose proof max_frame_large; cbn; lia]. revert Ew. cbn [fw_bytes app].
  case_decide as Hl; [intros [-> ->]|by intros [-> _]].
  destruct own; [done|]. cbn [fw_bytes]. destruct (from_utf8 _) as [s|] eqn:Eu; [|done].
  intros [= <-]. apply from_utf8_Some in Eu as [Ht ->].
  split_and!; [done|rewrite length_app; cbn; lia|by rewrite last_snoc].
Qed.

Lemma encode_written v t :
  JsonErrorsLaws → written_as v t →
  encode v = if str_len t <? MAX_FRAME_BYTES then Ok (t ++ [10%N])
             else Err (Raise (IpcFrameTooLarge MAX_FRAME_BYTES)).
Proof.
  intros Hlaw [[Hown Hch] [Ht _] _]. unfold encode, to_writer.
  destruct (to_chunks v) as [chunks own]. cbn in Hown, Hch. subst own.
  destruct (write_chunks chunks _) as [r w] eqn:Ew.
  apply write_chunks_spec in Ew; [|pose proof max_frame_large; cbn; lia]. revert Ew. cbn [fw_bytes app].
  rewrite Hch, length_str_bytes. destruct (Nat.ltb_spec (str_len t) MAX_FRAME_BYTES).
  - rewrite decide_True by done. intros [-> ->]. cbn [fw_bytes].
    change [10%N] with (str_bytes [10%N]) at 1. rewrite <-str_bytes_app.
    by rewrite from_utf8_str_bytes by (by apply is_text_snoc_lf).
  - rewrite decide_False by lia. intros [-> ->]. by rewrite io_is_write_zero.
Qed.

(** Frames: a value whose JSON text is a single line of [n] bytes is encoded
    exactly when [n + 1] is within the limit; the frame is the text and one line
    feed, the only one in it, and decoding the frame returns the value.  A longer
    text is refused as too large, however serde_json cuts it into chunks. *)
Theorem frame_roundtrip v t :
  JsonErrorsLaws → written_as v t →
  if str_len t <? MAX_FRAME_BYTES
  then ∃ frame, encode v = Ok frame ∧ decode frame = Ok v
       ∧ frame = t ++ [10%N] ∧ 10%N ∉ t ∧ length (str_bytes frame) ≤ MAX_FRAME_BYTES
  else encode v = Err (Raise (IpcFrameTooLarge MAX_FRAME_BYTES)).
Proof.
  intros Hlaw Hw. pose proof (encode_written v t Hlaw Hw) as He.
  destruct (str_len t <? MAX_FRAME_BYTES); [|done]. exists (t ++ [10%N]).
  destruct Hw as [_ [_ Hlf] Hread]. split_and!; [done| |done|done|by eapply encode_Ok].
  unfold decode. rewrite trim_end_lf_snoc, trim_end_lf_id by done. by rewrite Hread.
Qed.
End framing.

(** serde_json on the unit type, which it writes as [null]. *)
#[export] Instance demo_errors : JsonErrors := {|
  json_error := bool; json_io := true; json_is_write_zero e := e; json_is_data e := negb e
|}.
#[export] Instance demo_wire : Wire unit := {|
  to_chunks _ := ([str_bytes (lit "null")], None);
  from_str t := if decide (t = lit "null") then Ok tt else Err false
|}.

Lemma frame_roundtrip_witness :
  JsonErrorsLaws ∧ ∃ frame, encode tt = Ok frame ∧ decode frame = Ok tt.
Proof.
  assert JsonErrorsLaws as Hl by done. split; [done|].
  assert (written_as tt (lit "null")) as Hw.
  { split; [done|split; [by repeat constructor|by vm_compute; set_solver]|done]. }
  pose proof (frame_roundtrip tt (lit "null") Hl Hw) as Hr.
  assert (str_len (lit "null") < MAX_FRAME_BYTES) as Hlt 
    by (change (4 < MAX_FRAME_BYTES); pose proof max_frame_large; lia).
  rewrite (proj2 (Nat.ltb_lt _ _) Hlt) in Hr.
  destruct Hr as (frame & He & Hd & _). by exists frame.
Defined.
