(* ===== verification/Control.v ===== *)
(** * realm-control/src/protocol.rs: one control connection

    [ConnectionMachine] is the pure state machine behind one control socket:
    bytes in, frames out, deadlines.  A method that can panic (an [assert] or an
    [expect] on its way) returns [None] there; time is in nanoseconds. *)

From Stdlib Require Import ZArith Lia.
From stdpp Require Import prelude list.
From S2P Require Import Prelude Layout Ledger Projection Keys State Backend Snapshot Visible Authority Session Utf8 Ipc.

(** ** Data *)

Definition HELLO_TIMEOUT : N := 1000000000.
Definition FRAME_TIMEOUT : N := 2000000000.
Definition OUTPUT_TIMEOUT : N := 2000000000.
Definition TERMINAL_TIMEOUT : N := 100000000.

Inductive ConnectionPhase :=
| AwaitHello | SendingHello | Ready | Subscriber | CloseAfterReply | Closing.

#[export] Instance ConnectionPhase_eq_dec : EqDecision ConnectionPhase.
Proof. solve_decision. Defined.

Inductive MachineClose :=
| InvalidInput | FrameTooLarge | ExcessPipeline | PeerClosed | CloseDeadline | OutputComplete
| SubscriberInput | CloseShutdown.

Inductive MachineAction :=
| ActNone
| ActRequest (request : Request)
| OutboundFrameTooLarge
| ActClose (reason : MachineClose).

Inductive InputStep :=
| Partial
| Frame (frame : list N)
| TooLarge.

(** [InputBuffer::push] on the buffer's bytes. *)
Definition push (byte : N) (input : list N) : InputStep * list N :=
  let input := input ++ [byte] in
  if (byte =? 10)%N then (Frame input, [])
  else if length input =? MAX_FRAME_BYTES then (TooLarge, input)
  else (Partial, input).

Inductive OutputClass := OutHello | Ordinary | InitialState | OutState | OutShutdown | Terminal.

#[export] Instance OutputClass_eq_dec : EqDecision OutputClass.
Proof. solve_decision. Defined.

Record OutputCursor := mk_cursor {
  out_bytes : list N;
  offset : nat;
  class : OutputClass
}.

Definition cursor (bytes : list N) (class : OutputClass) : OutputCursor := mk_cursor bytes 0 class.

Definition remaining (c : OutputCursor) : list N := drop (offset c) (out_bytes c).

Definition is_unstarted (c : OutputCursor) : bool := offset c =? 0.

(** [None] where the assertion fails; the flag says the frame is complete. *)
Definition advance (count : nat) (c : OutputCursor) : option (bool * OutputCursor) :=
  if count <=? length (remaining c) then
    let c := mk_cursor (out_bytes c) (offset c + count) (class c) in
    Some (offset c =? length (out_bytes c), c)
  else None.

Inductive DecodedFrame :=
| DecodedRequest (request : Request)
| ValidNonRequest
| DecodedInvalid.

Inductive RetainedFrame :=
| RetainedRequest (request : Request)
| TerminalError (message : rstring).

Record ConnectionMachine := mk_machine {
  phase : ConnectionPhase;
  input : list N;
  output : option OutputCursor;
  latest : option OutputCursor;
  retained : option RetainedFrame;
  request_pending : bool;
  pending_subscribe : bool;
  read_half_closed : bool;
  shutting_down : bool;
  session : rstring;
  hello_deadline : N;
  partial_deadline : option N;
  output_deadline : option N;
  close_deadline : option N;
  shutdown_deadline : option N
}.

#[export] Instance ConnectionMachine_settable : Settable ConnectionMachine := λ m,
  mk_machine (phase m) (input m) (output m) (latest m) (retained m) (request_pending m)
    (pending_subscribe m) (read_half_closed m) (shutting_down m) (session m) (hello_deadline m)
    (partial_deadline m) (output_deadline m) (close_deadline m) (shutdown_deadline m).

Implicit Types m : ConnectionMachine.

Definition new (now : N) (session : rstring) : ConnectionMachine := {|
  phase := AwaitHello; input := []; output := None; latest := None; retained := None;
  request_pending := false; pending_subscribe := false; read_half_closed := false;
  shutting_down := false; session := session; hello_deadline := now + HELLO_TIMEOUT;
  partial_deadline := None; output_deadline := None; close_deadline := None;
  shutdown_deadline := None
|}.

(** ** Queries *)

Definition input_enabled m : bool :=
  if read_half_closed m then false
  else
    match phase m with
    | AwaitHello => negb (shutting_down m)
    | Ready => negb (shutting_down m) && negb (request_pending m) && bool_decide (output m = None)
    | Subscriber => true
    | _ => false
    end.

Definition output_remaining m : option (list N) := remaining <$> output m.

Definition min_deadline (current candidate : option N) : option N :=
  match current, candidate with
  | Some a, Some b => Some (N.min a b)
  | None, c => c
  | c, None => c
  end.

Definition next_deadline m : option N :=
  if decide (phase m = Closing) then None
  else
    foldl min_deadline (shutdown_deadline m)
      [if decide (phase m = AwaitHello) then Some (hello_deadline m) else None;
       partial_deadline m; output_deadline m; close_deadline m].

(** ** Closing *)

Definition close (reason : MachineClose) m : MachineAction * ConnectionMachine :=
  (ActClose reason,
   m <| phase := Closing |> <| input := [] |> <| output := None |> <| latest := None |>
     <| retained := None |> <| request_pending := false |> <| pending_subscribe := false |>
     <| partial_deadline := None |> <| output_deadline := None |> <| close_deadline := None |>
     <| shutdown_deadline := None |>).

Definition expire (now : N) m : MachineAction * ConnectionMachine :=
  match next_deadline m with
  | Some deadline => if (deadline <=? now)%N then close CloseDeadline m else (ActNone, m)
  | None => (ActNone, m)
  end.

(** ** Operations *)

Section machine.
Context `{JsonErrors, !Wire Request, !Wire Response, !Wire Event}.

(** [ipc::encode(..).ok().map(String::into_bytes)]; the outer [None] is its panic. *)
Definition encode_bytes {T} `{!Wire T} (v : T) : option (option (list N)) :=
  match encode v with
  | Ok frame => Some (Some (str_bytes frame))
  | Err (Raise _) => Some None
  | Err Panic => None
  end.

Definition decode_frame (frame : list N) : DecodedFrame :=
  match from_utf8 frame with
  | None => DecodedInvalid
  | Some text =>
      match decode (T:=Request) text with
      | Ok request => DecodedRequest request
      | Err (Ipc e) => if json_is_data e then ValidNonRequest else DecodedInvalid
      | Err _ => DecodedInvalid
      end
  end.

Definition queue_hello (now : N) (version_matches : bool) m :
    option (MachineAction * ConnectionMachine) :=
  bytes ← encode_bytes (RespHello PROTOCOL_VERSION (session m));
  Some match bytes with
  | None => close FrameTooLarge m
  | Some bytes =>
      let m := m <| output := Some (cursor bytes OutHello) |> in
      (ActNone,
       if version_matches then
         m <| phase := SendingHello |> <| output_deadline := Some (now + OUTPUT_TIMEOUT)%N |>
       else
         m <| phase := CloseAfterReply |> <| close_deadline := Some (now + TERMINAL_TIMEOUT)%N |>)
  end.

Definition queue_terminal_error (now : N) (message : rstring) m : option ConnectionMachine :=
  bytes ← encode_bytes (RespError UnknownRequest message);
  Some match bytes with
  | None => (close FrameTooLarge m).2
  | Some bytes =>
      m <| input := [] |> <| output := Some (cursor bytes Terminal) |>
        <| phase := CloseAfterReply |> <| partial_deadline := None |>
        <| output_deadline := None |> <| close_deadline := Some (now + TERMINAL_TIMEOUT)%N |>
  end.

Definition set_current (bytes : list N) (class : OutputClass) (now : N) m : ConnectionMachine :=
  m <| output := Some (cursor bytes class) |> <| output_deadline := Some (now + OUTPUT_TIMEOUT)%N |>.

(** How one frame leaves the loop of [ingest]: [return], [break], or on to the
    next byte with the action so far. *)
Inductive Flow :=
| FlowReturn (r : MachineAction * ConnectionMachine)
| FlowBreak (m : ConnectionMachine)
| FlowNext (action : MachineAction) (m : ConnectionMachine).

Definition lit_break (now : N) (message : rstring) m : option Flow :=
  FlowBreak <$> queue_terminal_error now message m.

(** The three arms of the frame match; [is_last] says no byte follows. *)
Definition await_hello_frame (now : N) (frame : list N) (action : MachineAction) m : option Flow :=
  match decode_frame frame with
  | DecodedRequest (ReqHello version _) =>
      let matches := (version =? PROTOCOL_VERSION)%N in
      '(act, m) ← queue_hello now matches m;
      Some match act with
      | ActNone => if matches then FlowNext action m else FlowBreak m
      | _ => FlowReturn (act, m)
      end
  | DecodedRequest _ => lit_break now (lit "expected Hello") m
  | ValidNonRequest => lit_break now (lit "invalid request") m
  | DecodedInvalid => Some (FlowReturn (close InvalidInput m))
  end.

Definition sending_hello_frame (frame : list N) (action : MachineAction) (is_last : bool) m : Flow :=
  let retain r :=
    let m := m <| retained := Some r |> in
    if is_last then FlowNext action m else FlowReturn (close ExcessPipeline m) in
  match decode_frame frame with
  | DecodedRequest (ReqHello _ _) => retain (TerminalError (lit "duplicate Hello"))
  | DecodedRequest request => retain (RetainedRequest request)
  | ValidNonRequest => retain (TerminalError (lit "invalid request"))
  | DecodedInvalid => FlowReturn (close InvalidInput m)
  end.

Definition begin_request (request : Request) m : ConnectionMachine :=
  m <| request_pending := true |> <| pending_subscribe := bool_decide (request = ReqSubscribe) |>.

Definition ready_frame (now : N) (frame : list N) (is_last : bool) m : option Flow :=
  match decode_frame frame with
  | DecodedRequest (ReqHello _ _) => lit_break now (lit "duplicate Hello") m
  | DecodedRequest request =>
      let m := begin_request request m in
      Some (if is_last then FlowNext (ActRequest request) m else FlowReturn (close ExcessPipeline m))
  | ValidNonRequest => lit_break now (lit "invalid request") m
  | DecodedInvalid => Some (FlowReturn (close InvalidInput m))
  end.

Definition ingest_frame (now : N) (frame : list N) (action : MachineAction) (is_last : bool) m :
    option Flow :=
  match phase m with
  | AwaitHello => await_hello_frame now frame action m
  | SendingHello => Some (sending_hello_frame frame action is_last m)
  | Ready => ready_frame now frame is_last m
  | _ => Some (FlowReturn (close ExcessPipeline m))
  end.

Definition ready_or_sending m : bool :=
  match phase m with Ready | SendingHello => true | _ => false end.

Definition is_nil {A} (l : list A) : bool := match l with [] => true | _ => false end.

(** [partial_deadline.get_or_insert] before the first byte of a frame *)
Definition arm_partial (now : N) m : ConnectionMachine :=
  if is_nil (input m) && ready_or_sending m then
    m <| partial_deadline := match partial_deadline m with
                             | Some d => Some d
                             | None => Some (now + FRAME_TIMEOUT)%N
                             end |>
  else m.

(** The loop over the received bytes. *)
Fixpoint ingest_bytes (now : N) (bytes : list N) (action : MachineAction) m :
    option (MachineAction * ConnectionMachine) :=
  match bytes with
  | [] => Some (action, m)
  | byte :: bytes' =>
      if bool_decide (phase m = SendingHello) && bool_decide (is_Some (retained m))
      then Some (close ExcessPipeline m)
      else
        let m := arm_partial now m in
        match push byte (input m) with
        | (Partial, buffer) => ingest_bytes now bytes' action (m <| input := buffer |>)
        | (TooLarge, buffer) => Some (close FrameTooLarge (m <| input := buffer |>))
        | (Frame frame, buffer) =>
            flow ← ingest_frame now frame action (is_nil bytes')
                     (m <| input := buffer |> <| partial_deadline := None |>);
            match flow with
            | FlowReturn r => Some r
            | FlowBreak m => Some (action, m)
            | FlowNext action m => ingest_bytes now bytes' action m
            end
        end
  end.

Definition ingest (now : N) (bytes : list N) m : option (MachineAction * ConnectionMachine) :=
  if is_nil bytes then Some (ActNone, m)
  else if bool_decide (phase m = Subscriber) then Some (close SubscriberInput m)
  else if negb (bool_decide (phase m = AwaitHello) || ready_or_sending m)
          || request_pending m || read_half_closed m || shutting_down m
  then Some (close ExcessPipeline m)
  else ingest_bytes now bytes ActNone m.

Definition read_eof m : MachineAction * ConnectionMachine :=
  if read_half_closed m then (ActNone, m)
  else if negb (is_nil (input m)) then close PeerClosed m
  else
    let m := m <| read_half_closed := true |> in
    match phase m with
    | AwaitHello => close PeerClosed m
    | Ready =>
        if negb (request_pending m) && bool_decide (output m = None) then close PeerClosed m
        else (ActNone, m)
    | _ => (ActNone, m)
    end.

Definition finish_subscriber_output (now : N) m : MachineAction * ConnectionMachine :=
  match latest m with
  | Some next =>
      (ActNone, m <| latest := None |> <| output := Some next |>
                  <| output_deadline := Some (now + OUTPUT_TIMEOUT)%N |>)
  | None => if shutting_down m then close CloseShutdown m else (ActNone, m)
  end.

(** The last byte of a frame is out: the match on its class. *)
Definition output_done (now : N) (class : OutputClass) m : option (MachineAction * ConnectionMachine) :=
  match class with
  | OutHello =>
      if decide (phase m = CloseAfterReply) then Some (close OutputComplete m)
      else
        let frame := retained m in
        let m := m <| phase := Ready |> <| retained := None |> in
        match frame with
        | Some (RetainedRequest request) => Some (ActRequest request, begin_request request m)
        | Some (TerminalError message) => pair ActNone <$> queue_terminal_error now message m
        | None => Some (if read_half_closed m then close PeerClosed m else (ActNone, m))
        end
  | Ordinary => Some (if read_half_closed m then close PeerClosed m else (ActNone, m))
  | InitialState | OutState => Some (finish_subscriber_output now m)
  | OutShutdown => Some (close CloseShutdown m)
  | Terminal => Some (close OutputComplete m)
  end.

Definition advance_output (now : N) (count : nat) m : option (MachineAction * ConnectionMachine) :=
  match output m with
  | None => Some (ActNone, m)
  | Some out =>
      let m := if (0 <? count) && bool_decide (phase m ≠ CloseAfterReply) && negb (shutting_down m)
               then m <| output_deadline := Some (now + OUTPUT_TIMEOUT)%N |> else m in
      '(finished, out') ← advance count out;
      if finished : bool
      then output_done now (class out) (m <| output := None |> <| output_deadline := None |>)
      else Some (ActNone, m <| output := Some out' |>)
  end.

Definition complete_request (now : N) (response : Response) m :
    option (MachineAction * ConnectionMachine) :=
  if shutting_down m || negb (request_pending m) || pending_subscribe m then Some (ActNone, m)
  else
    bytes ← encode_bytes response;
    Some match bytes with
    | None => (OutboundFrameTooLarge, m)
    | Some bytes => (ActNone, set_current bytes Ordinary now (m <| request_pending := false |>))
    end.

Definition complete_subscribe (now : N) (state : RealmState) m :
    option (MachineAction * ConnectionMachine) :=
  if shutting_down m || negb (request_pending m) || negb (pending_subscribe m)
  then Some (ActNone, m)
  else
    bytes ← encode_bytes (EventState state);
    Some match bytes with
    | None => (OutboundFrameTooLarge, m)
    | Some bytes =>
        (ActNone,
         set_current bytes InitialState now
           (m <| request_pending := false |> <| pending_subscribe := false |>
              <| phase := Subscriber |>))
    end.

Definition publish_state (now : N) (frame : list N) m : MachineAction * ConnectionMachine :=
  if negb (bool_decide (phase m = Subscriber)) || shutting_down m then (ActNone, m)
  else if (MAX_FRAME_BYTES <? length frame) || negb (bool_decide (last frame = Some 10%N))
  then close FrameTooLarge m
  else
    let queued := cursor frame OutState in
    match output m with
    | Some _ => (ActNone, m <| latest := Some queued |>)
    | None => (ActNone, m <| output := Some queued |>
                          <| output_deadline := Some (now + OUTPUT_TIMEOUT)%N |>)
    end.

Definition begin_shutdown (now : N) m : option (MachineAction * ConnectionMachine) :=
  if bool_decide (is_Some (shutdown_deadline m)) || bool_decide (phase m = Closing)
  then Some (ActNone, m)
  else if negb (bool_decide (phase m = Subscriber)) then Some (close CloseShutdown m)
  else
    let m := m <| shutting_down := true |> <| shutdown_deadline := Some (now + TERMINAL_TIMEOUT)%N |>
               <| latest := None |> in
    bytes ← encode_bytes EventShutdown;
    Some match bytes with
    | None => close FrameTooLarge m
    | Some bytes =>
        let shutdown := cursor bytes OutShutdown in
        (ActNone,
         match (λ c, (class c, is_unstarted c)) <$> output m with
         | Some (InitialState, true) => m <| latest := Some shutdown |>
         | Some (InitialState, false) | Some (OutState, false) => m
         | Some (OutState, true) => m <| output := Some shutdown |>
         | Some (OutShutdown, _) => m
         | Some _ | None => m <| output := Some shutdown |>
         end)
    end.
End machine.
