(* ===== verification/ControlInv.v ===== *)
(** * The control connection: invariant and framing

    What holds of a [ConnectionMachine] between the calls of the server, which
    reads only while input is enabled and writes at most what is waiting.  The
    machine runs beside the peer's view of the socket, as a step relation. *)

From Stdlib Require Import ZArith Lia.
From stdpp Require Import prelude list.
From S2P Require Import Prelude Layout Ledger Projection Keys State Backend Snapshot Visible Authority Session Utf8 Ipc Control.

(** ** Frames and cursors *)

Definition frame_ok (frame : list N) : Prop :=
  length frame ≤ MAX_FRAME_BYTES ∧ last frame = Some 10%N.

Record cursor_ok (c : OutputCursor) : Prop := {
  co_frame : frame_ok (out_bytes c);
  co_offset : offset c < length (out_bytes c)
}.

Lemma frame_ok_length frame : frame_ok frame → 0 < length frame.
Proof. intros [_ Hl]. destruct frame; [done|]. cbn. lia. Qed.

Lemma cursor_fresh_ok frame cl : frame_ok frame → cursor_ok (cursor frame cl).
Proof. intros Hf. split; [done|]. by apply frame_ok_length. Qed.
#[export] Hint Resolve cursor_fresh_ok : realm.

(** serde_json writes UTF-8, whether or not serialisation succeeds. *)
Class WireText `{Wire T} : Prop := {
  wire_text : ∀ v : T, ∃ t, is_text t ∧ concat (to_chunks v).1 = str_bytes t
}.
Arguments WireText {_} T {_}.

Lemma encode_bytes_ok `{!JsonErrors, !Wire T, !WireText T} (v : T) :
  ∃ o, encode_bytes v = Some o ∧ ∀ frame, o = Some frame → frame_ok frame.
Proof.
  unfold encode_bytes. destruct (encode v) as [frame|[e|]] eqn:E; [|by exists None|].
  - exists (Some (str_bytes frame)). split; [done|]. intros ? [= <-]. by apply encode_Ok in E as (_ & ? & ?).
  - exfalso. revert E. unfold encode, to_writer.
    destruct (wire_text v) as (t & Ht & Hc). destruct (to_chunks v) as [chunks own]. cbn in Hc.
    destruct (write_chunks chunks _) as [r w] eqn:Ew.
    apply write_chunks_spec in Ew; [|pose proof max_frame_large; cbn; lia]. revert Ew.
    cbn [fw_bytes app]. case_decide; [|by intros [-> _]]. intros [-> ->]. rewrite Hc.
    destruct own; [done|]. cbn [fw_bytes]. change [10%N] with (str_bytes [10%N]).
    by rewrite <-str_bytes_app, from_utf8_str_bytes by (by apply is_text_snoc_lf).
Qed.

Section machine.
Context `{JsonErrors, !Wire Request, !Wire Response, !Wire Event}.
Context `{!WireText Response, !WireText Event}.

(** ** The invariant *)

Definition subscriber_class (cl : OutputClass) : Prop :=
  cl = InitialState ∨ cl = OutState ∨ cl = OutShutdown.

(** What each phase keeps of the other fields. *)
Definition phase_wf m : Prop :=
  match phase m with
  | AwaitHello =>
      output m = None ∧ partial_deadline m = None ∧ read_half_closed m = false
      ∧ request_pending m = false ∧ retained m = None
  | SendingHello =>
      (∃ c, output m = Some c ∧ class c = OutHello) ∧ is_Some (output_deadline m)
      ∧ request_pending m = false
      ∧ (input m ≠ [] → is_Some (partial_deadline m)) ∧ (is_Some (retained m) → input m = [])
  | Ready =>
      (∀ c, output m = Some c → class c = Ordinary ∧ is_Some (output_deadline m)
                               ∧ request_pending m = false)
      ∧ (input m ≠ [] → is_Some (partial_deadline m)) ∧ (request_pending m = true → input m = [])
      ∧ retained m = None
      ∧ (read_half_closed m = true → request_pending m = true ∨ is_Some (output m))
  | Subscriber =>
      (∀ c, output m = Some c → subscriber_class (class c)
         ∧ is_Some (if shutting_down m then shutdown_deadline m else output_deadline m))
      ∧ (output m = None → latest m = None ∧ shutting_down m = false)
      ∧ input m = [] ∧ request_pending m = false ∧ retained m = None
  | CloseAfterReply =>
      (∃ c, output m = Some c ∧ (class c = OutHello ∨ class c = Terminal))
      ∧ is_Some (close_deadline m) ∧ input m = [] ∧ request_pending m = false ∧ retained m = None
  | Closing => output m = None ∧ input m = [] ∧ request_pending m = false ∧ retained m = None
  end.

Record machine_wf m : Prop := {
  mw_phase : phase_wf m;
  mw_input : length (input m) < MAX_FRAME_BYTES ∧ 10%N ∉ input m;
  mw_output : ∀ c, output m = Some c → cursor_ok c;
  mw_latest : ∀ c, latest m = Some c →
    cursor_ok c ∧ offset c = 0 ∧ subscriber_class (class c) ∧ phase m = Subscriber;
  mw_subscribe : pending_subscribe m = true → request_pending m = true;
  mw_shutting : shutting_down m = true → phase m = Subscriber ∨ phase m = Closing;
  mw_shutdown : phase m = Subscriber → shutting_down m = true ↔ is_Some (shutdown_deadline m);
  mw_shutdown_phase : is_Some (shutdown_deadline m) → phase m = Subscriber;
  mw_hello : ∀ c, output m = Some c → class c = OutHello →
    encode_bytes (RespHello PROTOCOL_VERSION (session m)) = Some (Some (out_bytes c))
}.

Lemma new_wf now session : machine_wf (new now session).
Proof.
  split; cbn; try done. pose proof max_frame_large. split; [lia|set_solver].
Qed.

(** Closing restores the invariant from anywhere. *)
Lemma close_wf reason m : machine_wf (close reason m).2.
Proof.
  pose proof max_frame_large.
  split; cbn; try done; [split; [lia|set_solver]|by right].
Qed.

(** Nothing of a subscription is left in, or has come to, the machine. *)
Record unsubscribed m : Prop := {
  un_latest : latest m = None;
  un_shutdown : shutdown_deadline m = None;
  un_shutting : shutting_down m = false
}.

Lemma before_subscription m :
  machine_wf m → phase m ≠ Subscriber → phase m ≠ Closing → unsubscribed m.
Proof.
  intros [_ _ _ Hla _ Hsh _ Hsp _] Hp Hc. split.
  - destruct (latest m) as [c|]; [|done]. by destruct (Hla c eq_refl) as (_ & _ & _ & ?).
  - destruct (shutdown_deadline m); [|done]. destruct Hp. apply Hsp. by eexists.
  - destruct (shutting_down m); [|done]. by destruct (Hsh eq_refl).
Qed.

Lemma no_subscribe m : machine_wf m → request_pending m = false → pending_subscribe m = false.
Proof.
  intros Hm Hr. destruct (pending_subscribe m) eqn:E; [|done].
  pose proof (mw_subscribe m Hm E). congruence.
Qed.

(** The clauses that hold of every machine outside a subscription. *)
Lemma unsubscribed_wf m :
  unsubscribed m → phase m ≠ Subscriber → phase_wf m → length (input m) < MAX_FRAME_BYTES →
  10%N ∉ input m → (∀ c, output m = Some c → cursor_ok c) →
  (pending_subscribe m = true → request_pending m = true) →
  (∀ c, output m = Some c → class c = OutHello →
     encode_bytes (RespHello PROTOCOL_VERSION (session m)) = Some (Some (out_bytes c))) →
  machine_wf m.
Proof.
  intros [El Es Eh] Hp ? ? ? ? ? ?. split; [done|done|done|by rewrite El|done|by rewrite Eh|done| |done].
  rewrite Es. by intros [].
Qed.

(** The output starts from its first byte. *)
Definition fresh_output m : Prop := ∀ c, output m = Some c → offset c = 0.

Lemma terminal_error_ok now message m :
  unsubscribed m → request_pending m = false → pending_subscribe m = false → retained m = None →
  ∃ m', queue_terminal_error now message m = Some m' ∧ machine_wf m' ∧ fresh_output m'
    ∧ request_pending m' = false ∧ (phase m' = CloseAfterReply ∨ phase m' = Closing)
    ∧ ∀ c, output m' = Some c → class c = Terminal.
Proof.
  intros Hu Hr Hs Hret. unfold queue_terminal_error.
  destruct (encode_bytes_ok (RespError UnknownRequest message)) as ([frame|] & -> & Hf); cbn.
  2: { eexists. split; [done|]. split_and!; [apply (close_wf FrameTooLarge)|done|done|by right|done]. }
  eexists. split; [done|]. split_and!; [|by intros c [= <-]|done|by left|by intros c [= <-]].
  pose proof max_frame_large.
  apply unsubscribed_wf; cbn; try done; [by destruct Hu| |lia|set_solver| |congruence|by intros c [= <-]].
  - split_and!; [eexists; split; [done|by right]|done..].
  - intros c [= <-]. auto with realm.
Qed.

Lemma queue_hello_ok now matches m :
  machine_wf m → phase m = AwaitHello → input m = [] →
  ∃ a m', queue_hello now matches m = Some (a, m') ∧ machine_wf m' ∧ fresh_output m'
    ∧ request_pending m' = false
    ∧ (a = ActNone ∧ phase m' = (if matches then SendingHello else CloseAfterReply)
         ∧ retained m' = None ∧ read_half_closed m' = read_half_closed m
       ∨ a = ActClose FrameTooLarge ∧ phase m' = Closing).
Proof.
  intros Hm Hp Hi. unfold queue_hello.
  destruct (encode_bytes_ok (RespHello PROTOCOL_VERSION (session m))) as ([frame|] & He & Hf);
    rewrite He; cbn.
  2: { eexists _, _. split; [done|].
    split_and!; [apply (close_wf FrameTooLarge)|done|done|by right]. }
  pose proof (before_subscription m Hm ltac:(congruence) ltac:(congruence)) as Hu.
  pose proof (mw_phase m Hm) as Hph. unfold phase_wf in Hph. rewrite Hp in Hph.
  destruct Hph as (_ & Ep & Eh & Er & Et). pose proof max_frame_large.
  pose proof (no_subscribe m Hm Er) as Hsub. pose proof (mw_input m Hm) as [? ?].
  eexists _, _. split; [done|].
  destruct matches; (split_and!; [|by intros c [= <-]|done|by left]);
    (apply unsubscribed_wf; cbn; try done; [by destruct Hu| | |congruence|by intros c [= <-] _]).
  - split_and!; [by eexists|done|done|by rewrite Hi|by rewrite Et].
  - intros c [= <-]. auto with realm.
  - split_and!; [by eexists; split; [|left]|done..].
  - intros c [= <-]. auto with realm.
Qed.

(** ** Reading *)

(** How [ingest] may end. *)
Definition ingested (a : MachineAction) m : Prop :=
  machine_wf m ∧ fresh_output m
  ∧ match a with
    | ActNone => request_pending m = false
    | ActRequest _ => phase m = Ready ∧ request_pending m = true
    | ActClose _ => phase m = Closing
    | OutboundFrameTooLarge => False
    end.

(** A machine in the middle of the loop. *)
Definition reading m : Prop :=
  machine_wf m ∧ fresh_output m ∧ request_pending m = false ∧ read_half_closed m = false
  ∧ (phase m = AwaitHello ∨ phase m = SendingHello ∨ phase m = Ready).

Lemma ingested_close reason m : ingested (ActClose reason) (close reason m).2.
Proof. by split; [apply close_wf|]. Qed.

Lemma reading_ingested m : reading m → ingested ActNone m.
Proof. by intros (? & ? & ? & _). Qed.

(** A new input buffer under a partial deadline that covers it. *)
Lemma set_input_ok p buffer m :
  reading m → length buffer < MAX_FRAME_BYTES → 10%N ∉ buffer →
  (phase m = AwaitHello → p = None) → (phase m ≠ AwaitHello → buffer ≠ [] → is_Some p) →
  (is_Some (retained m) → buffer = []) →
  reading (m <| partial_deadline := p |> <| input := buffer |>).
Proof.
  intros ([Hph Hin Hou Hla Hsu Hsh Hsd Hsp Hhe] & Hfr & Hpe & Hha & Hp) Hlen Hlf Hpa Hps Hret.
  unfold reading. cbn. split_and!; [|done..]. split; cbn; try done.
  unfold phase_wf in *. cbn. destruct Hp as [Hp|[Hp|Hp]]; rewrite Hp in *.
  - destruct Hph as (? & ? & ? & ? & ?). split_and!; try done. by apply Hpa.
  - destruct Hph as (? & ? & ? & _ & _). split_and!; try done. by apply Hps.
  - destruct Hph as (? & _ & _ & ? & ?). split_and!; try done; [by apply Hps|congruence].
Qed.

Lemma arm_partial_eq now m :
  reading m → ∃ p, arm_partial now m = m <| partial_deadline := p |>
    ∧ (phase m = AwaitHello → p = None) ∧ (phase m ≠ AwaitHello → is_Some p).
Proof.
  intros (Hm & _ & _ & _ & Hp). pose proof (mw_phase m Hm) as Hph.
  unfold arm_partial, ready_or_sending, phase_wf in *.
  destruct (is_nil (input m) && _) eqn:E.
  - eexists. split; [done|]. split.
    + intros Ha. by rewrite Ha, andb_false_r in E.
    + intros _. destruct (partial_deadline m); by eexists.
  - exists (partial_deadline m). split; [by destruct m|].
    destruct Hp as [Hp|[Hp|Hp]]; rewrite Hp in *; [by split; [intros _; apply Hph|]| |];
      (split; [done|]); intros _; apply Hph; intros Hi; by rewrite Hi in E.
Qed.

Lemma push_spec byte buffer :
  length buffer < MAX_FRAME_BYTES → 10%N ∉ buffer →
  match push byte buffer with
  | (Partial, b) => length b < MAX_FRAME_BYTES ∧ 10%N ∉ b
  | (Frame _, b) => b = []
  | (TooLarge, _) => True
  end.
Proof.
  intros Hl Hn. unfold push. destruct (N.eqb_spec byte 10); [done|].
  destruct (Nat.eqb_spec (length (buffer ++ [byte])) MAX_FRAME_BYTES); [done|].
  rewrite length_app in *. cbn in *. split; [lia|set_solver].
Qed.

Definition flow_ok (is_last : bool) (f : Flow) : Prop :=
  match f with
  | FlowReturn (a, m) => ingested a m
  | FlowBreak m => ingested ActNone m
  | FlowNext a m => (a = ActNone ∧ reading m ∧ phase m = SendingHello) ∨ (is_last = true ∧ ingested a m)
  end.

Lemma lit_break_ok now message is_last m :
  reading m → retained m = None → ∃ f, lit_break now message m = Some f ∧ flow_ok is_last f.
Proof.
  intros (Hm & _ & Hpe & _ & Hp) Hret. unfold lit_break.
  destruct (terminal_error_ok now message m) as (m' & -> & ? & ? & ? & ?); try done.
  - by apply before_subscription; [|destruct Hp as [->|[->| ->]]..].
  - by apply no_subscribe.
  - by eexists.
Qed.

Lemma await_hello_ok now frame is_last m :
  reading m → phase m = AwaitHello → input m = [] →
  ∃ f, await_hello_frame now frame ActNone m = Some f ∧ flow_ok is_last f.
Proof.
  intros Hr Hp Hi. pose proof Hr as (Hm & _ & Hpe & Hha & _).
  pose proof (mw_phase m Hm) as Hph. unfold phase_wf in Hph. rewrite Hp in Hph.
  destruct Hph as (_ & _ & _ & _ & Hret). unfold await_hello_frame.
  destruct (decode_frame frame) as [req| |];
    [|by apply lit_break_ok|eexists; split; [done|by apply ingested_close]].
  destruct req as [version client| | | | | | | | | | | | | | | | |]; try by apply lit_break_ok.
  destruct (queue_hello_ok now (version =? PROTOCOL_VERSION)%N m Hm Hp Hi)
    as (a & m' & -> & Hm' & Hf' & Hpe' & [(-> & Hp' & Hret' & Hha')|(-> & Hp')]); cbn.
  - eexists. split; [done|]. destruct (version =? _)%N; cbn; [left|by split_and!].
    split; [done|split; [|done]]. unfold reading. split_and!; try done; [congruence|by right; left].
  - eexists. split; [done|]. by split_and!.
Qed.

Lemma sending_hello_ok frame is_last m :
  reading m → phase m = SendingHello → input m = [] →
  flow_ok is_last (sending_hello_frame frame ActNone is_last m).
Proof.
  intros Hr Hp Hi. pose proof Hr as ([Hph Hin Hou Hla Hsu Hsh Hsd Hsp Hhe] & Hf & Hpe & Hha & _).
  assert (∀ r, reading (m <| retained := Some r |>)) as Hret.
  { intros r. unfold reading. cbn. split_and!; try done; [|by right; left]. split; cbn; try done.
    unfold phase_wf in *. cbn. rewrite Hp in *. destruct Hph as (? & ? & ? & ? & _). by split_and!. }
  assert (∀ r, flow_ok is_last (if is_last then FlowNext ActNone (m <| retained := Some r |>)
    else FlowReturn (close ExcessPipeline (m <| retained := Some r |>)))) as Hk.
  { intros r. destruct is_last; [by left|]. apply ingested_close. }
  unfold sending_hello_frame. destruct (decode_frame frame) as [req| |]; [|apply Hk|apply ingested_close].
  destruct req; apply Hk.
Qed.

Lemma begin_request_ok req m :
  machine_wf m → phase m = Ready → input m = [] → output m = None →
  machine_wf (begin_request req m).
Proof.
  intros [Hph Hin Hou Hla Hsu Hsh Hsd Hsp Hhe] Hp Hi Ho. split; cbn; try done.
  unfold phase_wf in *. cbn. rewrite Hp in *. destruct Hph as (? & ? & ? & ? & ?).
  rewrite Ho. split_and!; try done. by left.
Qed.

Lemma ready_frame_ok now frame is_last m :
  reading m → phase m = Ready → input m = [] → output m = None →
  ∃ f, ready_frame now frame is_last m = Some f ∧ flow_ok is_last f.
Proof.
  intros Hr Hp Hi Ho. pose proof Hr as (Hm & _ & Hpe & Hha & _).
  pose proof (mw_phase m Hm) as Hph. unfold phase_wf in Hph. rewrite Hp in Hph.
  destruct Hph as (_ & _ & _ & Hret & _). unfold ready_frame.
  destruct (decode_frame frame) as [req| |];
    [|by apply lit_break_ok|eexists; split; [done|by apply ingested_close]].
  assert (machine_wf (begin_request req m)) as Hb by by apply begin_request_ok.
  destruct req; try by apply lit_break_ok.
  all: (eexists; split; [done|]; destruct is_last; [right|by apply ingested_close]).
  all: split; [done|split; [done|split; [|done]]]; intros c; cbn; by rewrite Ho.
Qed.

Lemma ingest_frame_ok now frame is_last m :
  reading m → input m = [] → (phase m = Ready → output m = None) →
  ∃ f, ingest_frame now frame ActNone is_last m = Some f ∧ flow_ok is_last f.
Proof.
  intros Hr Hi Ho. unfold ingest_frame.
  destruct Hr as (? & ? & ? & ? & Hp) eqn:E. clear E.
  destruct Hp as [Hp|[Hp|Hp]]; rewrite Hp.
  - by apply await_hello_ok.
  - eexists. split; [done|]. by apply sending_hello_ok.
  - apply ready_frame_ok; auto.
Qed.

(** The loop reads on; only a machine ready with nothing queued takes requests. *)
Lemma ingest_bytes_ok now bytes action m :
  action = ActNone ∧ reading m ∧ (phase m = Ready → output m = None)
  ∨ bytes = [] ∧ ingested action m →
  ∃ a m', ingest_bytes now bytes action m = Some (a, m') ∧ ingested a m'.
Proof.
  revert action m. induction bytes as [|byte bytes IH]; intros action m Hpre; cbn [ingest_bytes].
  { destruct Hpre as [(-> & ? & _)|[_ ?]]; eexists _, _; (split; [done|]); [by apply reading_ingested|done]. }
  destruct Hpre as [(-> & Hr & Hready)|[? _]]; [|done]. pose proof Hr as (Hm & _).
  destruct (bool_decide (phase m = SendingHello) && _) eqn:Ex.
  { eexists _, _. split; [done|]. by apply ingested_close. }
  assert (retained m = None) as Hret.
  { pose proof (mw_phase m Hm) as Hph. unfold phase_wf in Hph.
    destruct Hr as (_ & _ & _ & _ & [Hp|[Hp|Hp]]); rewrite Hp in Hph; [apply Hph| |apply Hph].
    rewrite bool_decide_true in Ex by done. cbn in Ex. apply bool_decide_eq_false in Ex.
    by apply eq_None_not_Some. }
  destruct (arm_partial_eq now m Hr) as (p & -> & Hpa & Hps).
  pose proof (mw_input m Hm) as [Hl Hn]. cbn.
  pose proof (push_spec byte (input m) Hl Hn) as Hpush.
  destruct (push byte (input m)) as [[|frame|] buffer].
  - apply IH. left. split; [done|split; [|done]]. destruct Hpush.
    apply set_input_ok; try done; [by intros ? _; apply Hps|by rewrite Hret; intros []].
  - subst buffer. pose proof max_frame_large.
    assert (reading (m <| partial_deadline := None |> <| input := [] |>)) as Hr1
      by (apply set_input_ok; try done; [cbn; lia|set_solver]).
    destruct (ingest_frame_ok now frame (is_nil bytes) _ Hr1 eq_refl Hready) as (f & Hf & Hok).
    change (m <| partial_deadline := p |> <| input := [] |> <| partial_deadline := None |>)
      with (m <| partial_deadline := None |> <| input := [] |>).
    rewrite Hf. cbn. destruct f as [[a m']|m'|a m']; [by eexists _, _|by eexists _, _|].
    apply IH. destruct Hok as [(-> & ? & Hp')|[Hl' ?]].
    + left. split_and!; [done|done|by rewrite Hp'].
    + right. by destruct bytes.
  - eexists _, _. split; [done|]. apply (ingested_close FrameTooLarge).
Qed.

Lemma ingest_ok now bytes m :
  machine_wf m → input_enabled m = true →
  ∃ a m', ingest now bytes m = Some (a, m')
    ∧ (a = ActNone ∧ m' = m ∨ (output m = None ∧ phase m ≠ Subscriber ∧ ingested a m') ∨ ∃ r, (a, m') = close r m).
Proof.
  intros Hm He. unfold ingest. destruct (is_nil bytes); [by eexists _, _; split; [done|left]|].
  pose proof (mw_phase m Hm) as Hph. unfold input_enabled, phase_wf, ready_or_sending in *.
  destruct (read_half_closed m) eqn:Hh; [done|]. destruct (phase m) eqn:Hp; try done; cbn.
  - destruct Hph as (Ho & _ & _ & Hpe & _). apply negb_true_iff in He. rewrite Hpe, He. cbn.
    destruct (ingest_bytes_ok now bytes ActNone m) as (a & m' & -> & Hi).
    { left. split_and!; [done| |by rewrite Hp]. unfold reading. rewrite Hp.
      split_and!; try done; [|by left]. intros c. by rewrite Ho. }
    eexists _, _. split; [done|]. by right; left; split_and!.
  - apply andb_true_iff in He as [[He Hpe]%andb_true_iff Ho%bool_decide_eq_true].
    apply negb_true_iff in He, Hpe. rewrite Hpe, He. cbn.
    destruct (ingest_bytes_ok now bytes ActNone m) as (a & m' & -> & Hi).
    { left. split_and!; [done| |done]. unfold reading. rewrite Hp.
      split_and!; try done; [|by right; right]. intros c. by rewrite Ho. }
    eexists _, _. split; [done|]. by right; left; split_and!.
  - eexists _, _. split; [done|]. right; right. by eexists.
Qed.

Lemma read_eof_ok m :
  machine_wf m → input_enabled m = true →
  machine_wf (read_eof m).2
  ∧ ((∃ r, read_eof m = ((close r m).1, (read_eof m).2) ∧ phase (read_eof m).2 = Closing)
     ∨ read_eof m = (ActNone, m <| read_half_closed := true |>)).
Proof.
  intros Hm He. unfold read_eof, input_enabled in *. destruct (read_half_closed m) eqn:Hh; [done|].
  destruct (is_nil (input m)) eqn:Hi; cbn; [|split; [apply (close_wf PeerClosed m)|by left; exists PeerClosed]].
  destruct (phase m) eqn:Hp; try done; cbn.
  - split; [apply (close_wf PeerClosed (m <| read_half_closed := true |>))|by left; exists PeerClosed].
  - destruct (request_pending m) eqn:Hpe; [by rewrite andb_false_r in He|].
    apply andb_true_iff in He as [_ Ho]. rewrite Ho. cbn.
    split; [apply (close_wf PeerClosed (m <| read_half_closed := true |>))|by left; exists PeerClosed].
  - split; [|by right]. destruct Hm as [Hph Hin Hou Hla Hsu Hsh Hsd Hsp Hhe].
    split; cbn; try done. unfold phase_wf in *. cbn. by rewrite Hp in *.
Qed.

(** ** Writing *)

Definition step_cursor (count : nat) (c : OutputCursor) : OutputCursor :=
  mk_cursor (out_bytes c) (offset c + count) (class c).

(** Part of a frame is written: the cursor moves, a deadline may be renewed. *)
Lemma set_output_ok p c count m :
  machine_wf m → output m = Some c → offset c + count < length (out_bytes c) →
  (is_Some (output_deadline m) → is_Some p) →
  machine_wf (m <| output_deadline := p |> <| output := Some (step_cursor count c) |>).
Proof.
  intros [Hph Hin Hou Hla Hsu Hsh Hsd Hsp Hhe] Ho Hlt Hp. split; cbn; try done.
  - unfold phase_wf in *. cbn. rewrite Ho in Hph. destruct (phase m).
    + by destruct Hph.
    + destruct Hph as ((c0 & [= <-] & Hc) & ? & ? & ? & ?).
      split_and!; [by eexists|by apply Hp|done..].
    + destruct Hph as (Hc & ? & ? & ? & ?). destruct (Hc c eq_refl) as (? & ? & ?).
      split_and!; try done; [|by right]. intros ? [= <-]. cbn. by split_and!; [|apply Hp|].
    + destruct Hph as (Hc & ? & ? & ? & ?). destruct (Hc c eq_refl) as (? & ?).
      split_and!; try done. intros ? [= <-]. cbn. split; [done|].
      destruct (shutting_down m); [done|by apply Hp].
    + destruct Hph as ((c0 & [= <-] & Hc) & ?). split; [|done]. by eexists.
    + by destruct Hph.
  - intros ? [= <-]. split; [apply (Hou c Ho)|done].
  - intros ? [= <-]. apply (Hhe c Ho).
Qed.

(** A frame is complete: what each phase does next. *)
Definition written m c (a : MachineAction) m' : Prop :=
  phase m' = Closing ∧ (∃ r, a = ActClose r) ∨
  match phase m with
  | SendingHello => class c = OutHello
      ∧ (phase m' = Ready ∧ output m' = None
           ∧ (a = ActNone ∧ request_pending m' = false
              ∨ (∃ req, a = ActRequest req) ∧ request_pending m' = true)
         ∨ (phase m' = CloseAfterReply ∨ phase m' = Closing) ∧ a = ActNone
           ∧ request_pending m' = false)
  | Ready => a = ActNone ∧ phase m' = Ready ∧ output m' = None ∧ request_pending m' = false
  | Subscriber => a = ActNone ∧ phase m' = Subscriber ∧ request_pending m' = false
      ∧ output m' = latest m ∧ latest m' = None ∧ shutting_down m' = shutting_down m
  | _ => False
  end.

Lemma hello_written now c m :
  machine_wf m → output m = Some c → phase m = SendingHello →
  ∃ a m', output_done now (class c) (m <| output := None |> <| output_deadline := None |>) = Some (a, m')
    ∧ machine_wf m' ∧ fresh_output m' ∧ written m c a m'.
Proof.
  intros Hm Ho Hp. pose proof (before_subscription m Hm ltac:(congruence) ltac:(congruence)) as Hu.
  pose proof (mw_phase m Hm) as Hph. pose proof (mw_input m Hm) as [? ?].
  unfold phase_wf, written in *. rewrite Hp, Ho in *.
  destruct Hph as ((c0 & [= <-] & Hc) & Hd & Hpe & Hpd & Hret). rewrite Hc.
  pose proof (no_subscribe m Hm Hpe) as Hsub. cbn. rewrite Hp.
  assert (∀ pend sub, (pend = true ∨ read_half_closed m = false) → (pend = true → input m = []) →
    (sub = true → pend = true) →
    machine_wf (m <| output := None |> <| output_deadline := None |> <| phase := Ready |>
      <| retained := None |> <| request_pending := pend |> <| pending_subscribe := sub |>)) as Hready.
  { intros pend sub Hx Hi Hs. apply unsubscribed_wf; cbn; try done; [by destruct Hu|].
    split_and!; try done. intros Ht. left. destruct Hx; congruence. }
  destruct (retained m) as [[req|message]|]; cbn.
  - eexists _, _. split; [done|]. split_and!.
    + apply Hready; [by left|by intros _; apply Hret|done].
    + done.
    + right. split; [done|]. left. split_and!; [done|done|right]. split; [by eexists|done].
  - destruct (terminal_error_ok now message (m <| output := None |> <| output_deadline := None |>
      <| phase := Ready |> <| retained := None |>)) as (m' & -> & Hm' & Hf' & Hp' & Hph' & _);
      [by destruct Hu|done|done|done|].
    eexists _, _. split; [done|]. split_and!; [done|done|right]. split; [done|]. by right.
  - destruct (read_half_closed m) eqn:Hh; (eexists _, _; split; [done|]).
    + split_and!; [apply (close_wf PeerClosed)|done|left; split; [done|by eexists]].
    + split_and!; [|done|right; split; [done|left; split_and!; [done|done|by left]]].
      specialize (Hready false false). revert Hready. destruct m; cbn in *; subst.
      intros Hx. by apply Hx; [right| |].
Qed.

Lemma subscriber_written now c m :
  machine_wf m → output m = Some c → phase m = Subscriber →
  ∃ a m', finish_subscriber_output now (m <| output := None |> <| output_deadline := None |>) = (a, m')
    ∧ machine_wf m' ∧ fresh_output m' ∧ written m c a m'.
Proof.
  intros [Hph Hin Hou Hla Hsu Hsh Hsd Hsp Hhe] Ho Hp. unfold finish_subscriber_output. cbn.
  unfold phase_wf, written in *. rewrite Hp in *.
  destruct Hph as (Hc & Hn & Hi & Hpe & Hret).
  destruct (latest m) as [nxt|] eqn:El.
  - destruct (Hla nxt eq_refl) as (Hok & Hoff & Hcl & _). eexists _, _. split; [done|].
    split_and!; [|by intros ? [= <-]|right; by split_and!].
    split; cbn; try done.
    + unfold phase_wf. cbn. rewrite Hp. split_and!; try done. intros ? [= <-]. split; [done|].
      destruct (shutting_down m) eqn:Es; [by apply Hsd|by eexists].
    + by intros ? [= <-].
    + by rewrite Hp.
    + by rewrite Hp.
    + intros ? [= <-] Hh. destruct Hcl as [|[|]]; congruence.
  - destruct (shutting_down m) eqn:Es; (eexists _, _; split; [done|]).
    + split_and!; [apply (close_wf CloseShutdown)|done|left; split; [done|by eexists]].
    + split_and!; [|done|right; by split_and!].
      split; cbn; rewrite ?Hp, ?El, ?Es; try done.
      unfold phase_wf. cbn. rewrite Hp. by split_and!.
Qed.

Lemma frame_written now c m :
  machine_wf m → output m = Some c →
  ∃ a m', output_done now (class c) (m <| output := None |> <| output_deadline := None |>) = Some (a, m')
    ∧ machine_wf m' ∧ fresh_output m' ∧ written m c a m'.
Proof.
  intros Hm Ho. destruct (decide (phase m = SendingHello)) as [Hp|Hns]; [by apply hello_written|].
  assert (∀ r, ∃ a m', Some (close r (m <| output := None |> <| output_deadline := None |>)) = Some (a, m')
    ∧ machine_wf m' ∧ fresh_output m' ∧ written m c a m') as Hclose.
  { intros r. eexists _, _. split; [done|]. split_and!; [apply (close_wf r)|done|left; split; [done|by eexists]]. }
  pose proof (mw_phase m Hm) as Hph. unfold phase_wf in Hph. rewrite Ho in Hph.
  destruct (phase m) eqn:Hp; [by destruct Hph|done| | | |by destruct Hph].
  - destruct Hph as (Hc & Hd & _ & Hret & _). destruct (Hc c eq_refl) as (-> & _ & Hpe). cbn.
    destruct (read_half_closed m) eqn:Hh; [apply Hclose|].
    eexists _, _. split; [done|]. split_and!; [|done|right; rewrite Hp; by split_and!].
    pose proof (before_subscription m Hm ltac:(congruence) ltac:(congruence)) as Hu.
    pose proof (mw_input m Hm) as [? ?].
    apply unsubscribed_wf; cbn; try done; [by destruct Hu|congruence| |apply (mw_subscribe m Hm)].
    unfold phase_wf. cbn. rewrite Hp. split_and!; try done; congruence.
  - destruct Hph as (Hc & _ & Hi & Hpe & Hret). destruct (Hc c eq_refl) as [Hcl _].
    destruct (subscriber_written now c m Hm Ho Hp) as (a & m' & Hf & Hrest).
    destruct Hcl as [->|[->| ->]]; cbn [output_done];
      [exists a, m'; by rewrite Hf|exists a, m'; by rewrite Hf|apply Hclose].
  - destruct Hph as ((c0 & [= <-] & Hc) & _). destruct Hc as [-> | ->]; cbn; [rewrite Hp|]; apply Hclose.
Qed.

(** The cursor after a write, or what follows the complete frame. *)
Definition advanced m c (count : nat) (a : MachineAction) m' : Prop :=
  if offset c + count =? length (out_bytes c) then fresh_output m' ∧ written m c a m'
  else a = ActNone ∧ ∃ p, m' = m <| output_deadline := p |> <| output := Some (step_cursor count c) |>.

Lemma advance_output_ok now count c m :
  machine_wf m → output m = Some c → count ≤ length (remaining c) →
  ∃ a m', advance_output now count m = Some (a, m') ∧ machine_wf m' ∧ advanced m c count a m'.
Proof.
  intros Hm Ho Hcount. unfold advance_output, advance, advanced. rewrite Ho.
  rewrite (proj2 (Nat.leb_le _ _)) by done.
  assert (∃ p, (if (0 <? count) && bool_decide (phase m ≠ CloseAfterReply) && negb (shutting_down m)
     then m <| output_deadline := Some (now + OUTPUT_TIMEOUT)%N |> else m) = m <| output_deadline := p |>
     ∧ (is_Some (output_deadline m) → is_Some p)) as (p & -> & Hp).
  { case_match; [by eexists|]. exists (output_deadline m). split; [by destruct m|done]. }
  destruct (mw_output m Hm c Ho) as [_ Hoff]. unfold remaining in Hcount. rewrite length_drop in Hcount.
  change (length (out_bytes (mk_cursor (out_bytes c) (offset c + count) (class c))))
    with (length (out_bytes c)).
  change (offset (mk_cursor (out_bytes c) (offset c + count) (class c))) with (offset c + count).
  destruct (Nat.eqb_spec (offset c + count) (length (out_bytes c))); cbn.
  - change (m <| output_deadline := p |> <| output := None |> <| output_deadline := None |>)
      with (m <| output := None |> <| output_deadline := None |>).
    destruct (frame_written now c m Hm Ho) as (a & m' & Hf & Hm' & Hw). by exists a, m'.
  - eexists _, _. split; [done|]. split; [|split; [done|by exists p]].
    apply set_output_ok; try done. lia.
Qed.

Lemma pending_ready m :
  machine_wf m → request_pending m = true →
  phase m = Ready ∧ input m = [] ∧ output m = None ∧ retained m = None.
Proof.
  intros Hm Hr. pose proof (mw_phase m Hm) as Hph. unfold phase_wf in Hph.
  destruct (phase m) eqn:Hp; try (destruct_and?; congruence).
  destruct Hph as (Hc & _ & Hi & Hret & _). split_and!; try done; [by apply Hi|].
  destruct (output m) as [c|]; [|done]. destruct (Hc c eq_refl) as (_ & _ & ?). congruence.
Qed.

(** A reply is queued for the pending request, or nothing happens. *)
Lemma complete_request_ok now response m :
  machine_wf m →
  ∃ a m', complete_request now response m = Some (a, m') ∧ machine_wf m'
    ∧ ((a = ActNone ∨ a = OutboundFrameTooLarge) ∧ m' = m
       ∨ a = ActNone ∧ request_pending m = true ∧ request_pending m' = false
         ∧ phase m = Ready ∧ phase m' = Ready
         ∧ output m = None ∧ fresh_output m').
Proof.
  intros Hm. unfold complete_request.
  destruct (shutting_down m || negb (request_pending m) || pending_subscribe m) eqn:E.
  { eexists _, _. split; [done|]. split; [done|left; auto]. }
  apply orb_false_iff in E as [[Hs Hr%negb_false_iff]%orb_false_iff Hsub].
  destruct (encode_bytes_ok response) as ([frame|] & -> & Hf); cbn.
  2: { eexists _, _. split; [done|]. split; [done|left; auto]. }
  destruct (pending_ready m Hm Hr) as (Hp & Hi & Ho & Hret).
  pose proof (before_subscription m Hm ltac:(congruence) ltac:(congruence)) as Hu.
  pose proof (mw_input m Hm) as [? ?].
  eexists _, _. split; [done|]. split; [|right; split_and!; try done; by intros c [= <-]].
  apply unsubscribed_wf; cbn; try done; [by destruct Hu|by rewrite Hp| | |congruence|by intros c [= <-]].
  - unfold phase_wf. cbn. rewrite Hp, Hi. split_and!; try done.
    + intros c [= <-]. by split_and!; [|eexists|].
    + intros _. right. by eexists.
  - intros c [= <-]. auto with realm.
Qed.

Lemma complete_subscribe_ok now state m :
  machine_wf m →
  ∃ a m', complete_subscribe now state m = Some (a, m') ∧ machine_wf m'
    ∧ ((a = ActNone ∨ a = OutboundFrameTooLarge) ∧ m' = m
       ∨ a = ActNone ∧ request_pending m = true ∧ request_pending m' = false
         ∧ phase m = Ready ∧ phase m' = Subscriber ∧ output m = None
         ∧ (∃ frame, encode_bytes (EventState state) = Some (Some frame)
            ∧ output m' = Some (cursor frame InitialState)) ∧ latest m' = None).
Proof.
  intros Hm. unfold complete_subscribe.
  destruct (shutting_down m || negb (request_pending m) || negb (pending_subscribe m)) eqn:E.
  { eexists _, _. split; [done|]. split; [done|left; auto]. }
  apply orb_false_iff in E as [[Hs Hr%negb_false_iff]%orb_false_iff Hsub].
  destruct (encode_bytes_ok (EventState state)) as ([frame|] & He & Hf); rewrite He; cbn.
  2: { eexists _, _. split; [done|]. split; [done|left; auto]. }
  destruct (pending_ready m Hm Hr) as (Hp & Hi & Ho & Hret).
  pose proof (before_subscription m Hm ltac:(congruence) ltac:(congruence)) as [El Es Eh].
  pose proof (mw_input m Hm) as [? ?].
  eexists _, _. split; [done|].
  split; [|right; split_and!; try done; by exists frame].
  split; cbn; rewrite ?El, ?Es, ?Eh; try done.
  - split_and!; try done.
    intros c [= <-]. split; [by left|by eexists].
  - intros c [= <-]. auto with realm.
  - by intros c [= <-].
Qed.

Lemma publish_state_ok now frame m :
  machine_wf m →
  machine_wf (publish_state now frame m).2
  ∧ ((publish_state now frame m).1 = ActNone
     ∧ (phase m ≠ Subscriber ∨ shutting_down m = true) ∧ (publish_state now frame m).2 = m
     ∨ phase (publish_state now frame m).2 = Closing
     ∨ phase m = Subscriber ∧ shutting_down m = false ∧ frame_ok frame
       ∧ (publish_state now frame m).1 = ActNone
       ∧ match output m with
         | Some _ => (publish_state now frame m).2 = m <| latest := Some (cursor frame OutState) |>
         | None => ∃ p, (publish_state now frame m).2
                     = m <| output := Some (cursor frame OutState) |> <| output_deadline := p |>
         end).
Proof.
  intros Hm. pose proof Hm as [Hph Hin Hou Hla Hsu Hsh Hsd Hsp Hhe]. unfold publish_state.
  case_bool_decide as Hp; cbn; [|split; [done|left; auto]].
  destruct (shutting_down m) eqn:Es; [split; [done|left; auto]|].
  destruct (_ || _) eqn:E; [split; [apply (close_wf FrameTooLarge)|by right; left]|].
  apply orb_false_iff in E as [Hl%Nat.ltb_ge Hlf%negb_false_iff%bool_decide_eq_true].
  assert (frame_ok frame) as Hf by done.
  unfold phase_wf in Hph. rewrite Hp in Hph. destruct Hph as (Hc & Hn & Hi & Hpe & Hret).
  destruct (output m) as [cur|] eqn:Ho; cbn; (split; [|right; right; split_and!; eauto]).
  - destruct (Hc cur eq_refl) as [Hcl Hd]. split; cbn; rewrite ?Hp, ?Es, ?Ho in *; try done.
    + unfold phase_wf. cbn. rewrite Hp, Es, Ho. by split_and!.
    + intros c [= <-]. split_and!; auto with realm. by right; left.
  - destruct (Hn eq_refl) as [El _]. split; cbn; rewrite ?Hp, ?Es, ?El in *; try done.
    + unfold phase_wf. cbn. rewrite Hp, Es. split_and!; try done.
      intros c [= <-]. split; [by right; left|by eexists].
    + intros c [= <-]. auto with realm.
    + by intros c [= <-].
Qed.

Lemma shutdown_wf now m : machine_wf m → phase m = Subscriber →
  ∀ c l frame, cursor_ok c → subscriber_class (class c) → frame_ok frame →
  (∀ c', l = Some c' → c' = cursor frame OutShutdown) →
  machine_wf (m <| shutting_down := true |> <| shutdown_deadline := Some now |> <| latest := l |>
                <| output := Some c |>).
Proof.
  intros [Hph Hin Hou Hla Hsu Hsh Hsd Hsp Hhe] Hp c l frame Hok Hcl Hf Hl.
  unfold phase_wf in Hph. rewrite Hp in Hph. destruct Hph as (_ & _ & Hi & Hpe & Hret).
  split; cbn; rewrite ?Hp; try done.
  - unfold phase_wf. cbn. rewrite Hp. split_and!; try done. intros ? [= <-]. by split; [|eexists].
  - by intros ? [= <-].
  - intros c' ->%Hl. split_and!; auto with realm. by right; right.
  - by left.
  - intros ? [= <-] Hh. destruct Hcl as [|[|]]; congruence.
Qed.

Lemma shutting_down_ok now m :
  machine_wf m →
  ∃ a m', begin_shutdown now m = Some (a, m') ∧ machine_wf m'
    ∧ (a = ActNone ∧ m' = m ∨ phase m' = Closing
       ∨ a = ActNone ∧ phase m = Subscriber ∧ phase m' = Subscriber ∧ shutting_down m' = true
         ∧ (output m' = output m
            ∨ fresh_output m' ∧ ∀ c, output m = Some c → offset c = 0)
         ∧ request_pending m' = request_pending m).
Proof.
  intros Hm. pose proof Hm as [Hph Hin Hou Hla Hsu Hsh Hsd Hsp Hhe]. unfold begin_shutdown.
  destruct (_ || _) eqn:E; [eexists _, _; split; [done|]; split; [done|by left]|].
  apply orb_false_iff in E as [Esd%bool_decide_eq_false _].
  case_bool_decide as Hp; cbn.
  2: { eexists _, _. split; [done|]. split; [apply (close_wf CloseShutdown)|by right; left]. }
  destruct (encode_bytes_ok EventShutdown) as ([frame|] & -> & Hf); cbn.
  2: { eexists _, _. split; [done|]. split; [apply (close_wf FrameTooLarge)|by right; left]. }
  specialize (Hf frame eq_refl).
  unfold phase_wf in Hph. rewrite Hp in Hph. destruct Hph as (Hc & Hn & Hi & Hpe & Hret).
  assert (frame_ok frame) as Hfr by done.
  pose proof (shutdown_wf (now + TERMINAL_TIMEOUT) m Hm Hp) as Hw.
  destruct (output m) as [c|] eqn:Ho; cbn.
  - destruct (Hc c eq_refl) as [Hcl _]. pose proof (Hou c eq_refl) as Hok.
    assert (∀ l, (∀ c', l = Some c' → c' = cursor frame OutShutdown) →
      machine_wf (m <| shutting_down := true |> <| shutdown_deadline := Some (now + TERMINAL_TIMEOUT)%N |>
        <| latest := l |>)) as Hkeep.
    { intros l Hl. specialize (Hw c l frame Hok Hcl Hfr Hl). revert Hw. destruct m; cbn in *. by subst. }
    destruct Hcl as [Ec|[Ec|Ec]]; rewrite Ec; unfold is_unstarted; destruct (Nat.eqb_spec (offset c) 0) as [Eo|];
      cbn; (eexists _, _; split; [done|]).
    all: split; [first [by apply Hkeep; intros ? [= <-]|by apply Hkeep
      |apply (Hw (cursor frame OutShutdown) None frame); try done; [auto with realm|by right; right]]|].
    all: right; right; split_and!; try done; cbn; first [by left|right; split; [by intros ? [= <-]|by intros ? [= <-]]].
  - eexists _, _; split; [done|]. split.
    + apply (Hw (cursor frame OutShutdown) None frame); try done; [auto with realm|by right; right].
    + right; right; split_and!; try done. right. by split; [intros ? [= <-]|].
Qed.
End machine.
