(* ===== verification/ControlConn.v ===== *)
(** * The control connection beside its peer

    A connection together with what the peer has received, as a step relation
    over the server's calls, and what every run of it guarantees: framing, one
    answer per request, deadlines, and subscribers that see the latest state. *)

From Stdlib Require Import ZArith Lia.
From stdpp Require Import prelude list.
From S2P Require Import Prelude Layout Ledger Projection Keys State Backend Snapshot Visible Authority Session Utf8 Ipc Control ControlInv.

(** Before the first reply is out, and after a good one. *)
Definition ungreeted (p : ConnectionPhase) : Prop := p = AwaitHello ∨ p = SendingHello.
Definition greeted (p : ConnectionPhase) : Prop := p = Ready ∨ p = Subscriber.

(** What the connection is made with. *)
Definition origin m : rstring * N := (session m, hello_deadline m).

(** What no call changes, and what only the first reply changes. *)
Record keeps m m' : Prop := {
  kp_origin : origin m' = origin m;
  kp_ungreeted : ungreeted (phase m') → ungreeted (phase m);
  kp_greeted : greeted (phase m') → greeted (phase m);
  kp_subscriber : phase m' = Subscriber → phase m = Subscriber
}.

#[export] Instance keeps_preorder : PreOrder keeps.
Proof.
  split; [by intros m|]. intros m1 m2 m3 [? ? ? ?] [? ? ? ?].
  split; [congruence|auto..].
Qed.

Lemma keeps_phase m m' : origin m' = origin m → phase m' = phase m → keeps m m'.
Proof. intros Hs Hp. by split; rewrite ?Hp. Qed.

Lemma keeps_late m m' :
  origin m' = origin m → phase m' = CloseAfterReply ∨ phase m' = Closing → keeps m m'.
Proof. intros Hs [Hp|Hp]; split; rewrite ?Hp; try done; by intros []. Qed.

Lemma close_keeps reason m : keeps m (close reason m).2.
Proof. apply keeps_late; [done|by right]. Qed.

Section machine.
Context `{JsonErrors, !Wire Request, !Wire Response, !Wire Event}.

Lemma terminal_error_keeps now message m m' :
  queue_terminal_error now message m = Some m' →
  origin m' = origin m ∧ (phase m' = CloseAfterReply ∨ phase m' = Closing).
Proof. intros ([frame|] & _ & [= <-])%bind_Some; cbn; auto. Qed.

Definition flow_keeps m (f : Flow) : Prop :=
  match f with FlowReturn (_, m') | FlowBreak m' | FlowNext _ m' => keeps m m' end.

Lemma lit_break_keeps now message m f : lit_break now message m = Some f → flow_keeps m f.
Proof.
  intros (m' & [? ?]%terminal_error_keeps & ->)%fmap_Some. by apply keeps_late.
Qed.

Lemma queue_hello_keeps now matches m a m' :
  phase m = AwaitHello → queue_hello now matches m = Some (a, m') → keeps m m'.
Proof.
  intros Hp ([frame|] & _ & [= <- <-])%bind_Some; [|by apply keeps_late; [|right]].
  destruct matches; [|by apply keeps_late; [|left]].
  split; cbn; [done|by rewrite Hp; left|by intros []|done].
Qed.

Lemma ingest_frame_keeps now frame action is_last m f :
  ingest_frame now frame action is_last m = Some f → flow_keeps m f.
Proof.
  unfold ingest_frame, await_hello_frame, sending_hello_frame, ready_frame.
  assert (∀ r a, flow_keeps m (if is_last then FlowNext a (m <| retained := Some r |>)
    else FlowReturn (close ExcessPipeline (m <| retained := Some r |>)))) as Hr
    by (intros r a; destruct is_last; [by apply keeps_phase|by apply keeps_late; [|right]]).
  assert (∀ r a, flow_keeps m (if is_last then FlowNext a (begin_request r m)
    else FlowReturn (close ExcessPipeline (begin_request r m)))) as Hb
    by (intros r a; destruct is_last; [by apply keeps_phase|by apply keeps_late; [|right]]).
  assert (∀ r, Some (FlowReturn (close r m)) = Some f → flow_keeps m f) as Hc
    by (intros r [= <-]; by apply keeps_late; [|right]).
  destruct (phase m) eqn:Hp; try (by apply Hc); destruct (decode_frame frame) as [req| |];
    try (by apply Hc); try (by apply lit_break_keeps); try (destruct req);
    try (by apply lit_break_keeps); try (by intros [= <-]; apply Hr); try (by intros [= <-]; apply Hb).
  intros ([a m'] & Hq & Hf)%bind_Some. apply queue_hello_keeps in Hq; [|done].
  destruct a; [destruct (_ =? _)%N|..]; by simplify_eq.
Qed.

Lemma arm_partial_keeps now m : keeps m (arm_partial now m).
Proof. unfold arm_partial. by case_match; apply keeps_phase. Qed.

Lemma ingest_bytes_keeps now bytes action m a m' :
  ingest_bytes now bytes action m = Some (a, m') → keeps m m'.
Proof.
  revert action m. induction bytes as [|byte bytes IH]; intros action m; cbn [ingest_bytes].
  { by intros [= <- <-]. }
  case_match; [intros [= <- <-]; apply (close_keeps ExcessPipeline)|].
  assert (∀ buffer p, keeps m (arm_partial now m <| input := buffer |> <| partial_deadline := p |>)) as Hk.
  { intros buffer p. etransitivity; [apply (arm_partial_keeps now)|]. by apply keeps_phase. }
  cbv zeta. destruct (push byte (input (arm_partial now m))) as [[|frame|] buffer].
  - intros Hr%IH. etransitivity; [|apply Hr]. etransitivity; [apply (arm_partial_keeps now)|].
    by apply keeps_phase.
  - intros (f & Hf%ingest_frame_keeps & Hr)%bind_Some.
    destruct f as [[a1 m1]|m1|a1 m1]; cbn in Hf; simplify_eq; try (etransitivity; [apply Hk|done]).
    apply IH in Hr. etransitivity; [apply Hk|]. by etransitivity.
  - intros [= <- <-]. etransitivity; [apply (arm_partial_keeps now)|]. by apply keeps_late; [|right].
Qed.

Lemma ingest_keeps now bytes m a m' : ingest now bytes m = Some (a, m') → keeps m m'.
Proof.
  unfold ingest. destruct (is_nil bytes); [by intros [= <- <-]|].
  case_bool_decide; [intros [= <- <-]; by apply keeps_late; [|right]|].
  case_match; [intros [= <- <-]; by apply keeps_late; [|right]|]. apply ingest_bytes_keeps.
Qed.

(** ** A connection and its peer

    [wire] is every byte the peer received, [delivered] the frames that are
    complete in it, [shown] the last state frame the server had for a
    subscriber, [asked] and [answered] count the requests handed to the session
    and the replies queued for them.  A read needs enabled input, a write stays
    within what is waiting: the two guards of the server. *)
Record Conn := mk_conn {
  machine : ConnectionMachine;
  wire : list N;
  delivered : list (list N);
  shown : option (list N);
  asked : nat;
  answered : nat
}.

Definition connect (now : N) (session : rstring) : Conn := mk_conn (new now session) [] [] None 0 0.

Definition asks (a : MachineAction) : nat := match a with ActRequest _ => 1 | _ => 0 end.

Definition answers m m' : nat :=
  if request_pending m && negb (request_pending m') then 1 else 0.

Inductive conn_step : Conn → Conn → Prop :=
| StepIngest now bytes m w d s q r a m' :
    input_enabled m = true → ingest now bytes m = Some (a, m') →
    conn_step (mk_conn m w d s q r) (mk_conn m' w d s (q + asks a) r)
| StepEof m w d s q r a m' :
    input_enabled m = true → read_eof m = (a, m') →
    conn_step (mk_conn m w d s q r) (mk_conn m' w d s q r)
| StepAdvance now count c m w d s q r a m' :
    output m = Some c → count ≤ length (remaining c) → advance_output now count m = Some (a, m') →
    conn_step (mk_conn m w d s q r)
      (mk_conn m' (w ++ take count (remaining c))
         (d ++ if count =? length (remaining c) then [out_bytes c] else []) s (q + asks a) r)
| StepComplete now response m w d s q r a m' :
    complete_request now response m = Some (a, m') →
    conn_step (mk_conn m w d s q r) (mk_conn m' w d s q (r + answers m m'))
| StepSubscribe now state m w d s q r a m' :
    complete_subscribe now state m = Some (a, m') →
    conn_step (mk_conn m w d s q r)
      (mk_conn m' w d (if decide (phase m' = phase m) then s else out_bytes <$> output m') q
         (r + answers m m'))
| StepPublish now frame m w d s q r a m' :
    publish_state now frame m = (a, m') →
    conn_step (mk_conn m w d s q r)
      (mk_conn m' w d (if decide (phase m = Subscriber) then Some frame else s) q r)
| StepShutdown now m w d s q r a m' :
    begin_shutdown now m = Some (a, m') →
    conn_step (mk_conn m w d s q r) (mk_conn m' w d s q r)
| StepExpire now m w d s q r a m' :
    expire now m = (a, m') →
    conn_step (mk_conn m w d s q r) (mk_conn m' w d s q r).

(** The written part of the frame on its way out. *)
Definition partly m : list N :=
  match output m with Some c => take (offset c) (out_bytes c) | None => [] end.

(** The frame the subscriber is going to have last. *)
Definition newest (c : Conn) : option (list N) :=
  match latest (machine c), output (machine c) with
  | Some c', _ => Some (out_bytes c')
  | None, Some c' => Some (out_bytes c')
  | None, None => last (delivered c)
  end.

Definition hello_frame (session : rstring) : option (list N) :=
  match encode_bytes (RespHello PROTOCOL_VERSION session) with Some o => o | None => None end.

Record conn_wf (origin0 : rstring * N) (c : Conn) : Prop := {
  cw_machine : machine_wf (machine c);
  cw_origin : origin (machine c) = origin0;
  cw_frames : Forall frame_ok (delivered c);
  cw_wire : if decide (phase (machine c) = Closing)
    then ∃ frame n, frame_ok frame ∧ n < length frame ∧ wire c = concat (delivered c) ++ take n frame
    else wire c = concat (delivered c) ++ partly (machine c);
  cw_ungreeted : ungreeted (phase (machine c)) → delivered c = [] ∧ asked c = 0;
  cw_greeted : greeted (phase (machine c)) ∨ 0 < asked c →
    ∃ hello rest, hello_frame origin0.1 = Some hello ∧ delivered c = hello :: rest;
  cw_asked : if decide (phase (machine c) = Closing) then answered c ≤ asked c ≤ S (answered c)
    else asked c = answered c + if request_pending (machine c) then 1 else 0;
  cw_shown : phase (machine c) = Subscriber → is_Some (shown c)
    ∧ (shutting_down (machine c) = false → newest c = shown c)
}.

Lemma partly_fresh m : fresh_output m → partly m = [].
Proof. unfold partly. intros Hf. destruct (output m) as [c|] eqn:Ho; [|done]. by rewrite (Hf c Ho). Qed.

Lemma partly_none m : output m = None → partly m = [].
Proof. unfold partly. by intros ->. Qed.

(** Whatever closes the connection, at most a part of one frame was cut off. *)
Lemma torn m w (d : list (list N)) :
  machine_wf m → w = concat d ++ partly m →
  ∃ frame n, frame_ok frame ∧ n < length frame ∧ w = concat d ++ take n frame.
Proof.
  intros Hm ->. unfold partly. destruct (output m) as [c|] eqn:Ho.
  - destruct (mw_output m Hm c Ho) as [Hf Hl]. by exists (out_bytes c), (offset c).
  - exists [10%N], 0. split_and!; [|cbn; lia|done]. split; [pose proof max_frame_large; cbn; lia|done].
Qed.

(** A step that writes nothing. *)
Lemma conn_wf_next s0 m w d s q r m' s' q' r' :
  conn_wf s0 (mk_conn m w d s q r) → machine_wf m' → origin m' = origin m →
  (ungreeted (phase m') → ungreeted (phase m)) → (greeted (phase m') → greeted (phase m)) →
  (phase m = Closing → phase m' = Closing) → phase m' = Closing ∨ partly m' = partly m →
  q' = q ∨ phase m' = Ready →
  (if decide (phase m' = Closing) then r' ≤ q' ≤ S r'
   else q' = r' + if request_pending m' then 1 else 0) →
  (phase m' = Subscriber → is_Some s'
    ∧ (shutting_down m' = false → newest (mk_conn m' w d s' q' r') = s')) →
  conn_wf s0 (mk_conn m' w d s' q' r').
Proof.
  intros [Hm Hs Hf Hw Hun Hgr Has Hsh] Hm' Ks Ku Kg Hcl Hpa Hq Has' Hsh'. cbn in *.
  split; cbn; try done; [congruence| | |].
  - destruct (decide (phase m' = Closing)) as [Hp'|Hp'].
    + destruct (decide (phase m = Closing)); [done|]. by apply (torn m).
    + rewrite decide_False in Hw by auto. destruct Hpa as [?|E]; [done|]. by rewrite E.
  - intros Hu. destruct (Hun (Ku Hu)) as [-> ->]. split; [done|].
    destruct Hq as [->|Hp]; [done|]. destruct Hu; congruence.
  - intros Hg. apply Hgr. destruct Hq as [-> |Hp].
    + destruct Hg as [Hg|Hg]; [left; by apply Kg|by right].
    + left. apply Kg. by left.
Qed.

Context `{!WireText Response, !WireText Event}.

Lemma not_pending m : machine_wf m → phase m ≠ Ready → request_pending m = false.
Proof.
  intros Hm Hp. destruct (request_pending m) eqn:E; [|done].
  by destruct (pending_ready m Hm E).
Qed.

Lemma closing_counts s0 m w d s q r m' :
  conn_wf s0 (mk_conn m w d s q r) → phase m' = Closing →
  if decide (phase m' = Closing) then r ≤ q ≤ S r
  else q = r + if request_pending m' then 1 else 0.
Proof.
  intros [_ _ _ _ _ _ Has _] Hp. cbn in Has. rewrite decide_True by done.
  destruct (decide _); [done|]. destruct (request_pending m); lia.
Qed.

(** Closing is always a step. *)
Lemma close_step s0 m w d s q r m' :
  conn_wf s0 (mk_conn m w d s q r) → machine_wf m' → keeps m m' → phase m' = Closing →
  conn_wf s0 (mk_conn m' w d s q r).
Proof.
  intros Hc Hm' Hk Hp. eapply conn_wf_next; try apply Hk; try done; [by left|by left|by eapply closing_counts|congruence].
Qed.

Lemma ingest_step s0 now bytes m w d s q r a m' :
  conn_wf s0 (mk_conn m w d s q r) → input_enabled m = true → ingest now bytes m = Some (a, m') →
  conn_wf s0 (mk_conn m' w d s (q + asks a) r).
Proof.
  intros Hc He Hi. pose proof (cw_machine _ _ Hc) as Hm. cbn in Hm.
  pose proof (ingest_keeps _ _ _ _ _ Hi) as Hk.
  destruct (ingest_ok now bytes m Hm He) as (a1 & m1 & Hi' & Hcase).
  rewrite Hi in Hi'. injection Hi' as <- <-.
  destruct Hcase as [[-> ->]|[(Ho & Hns & Hm' & Hf & Ha)|[r0 [= -> ->]]]].
  - cbn [asks]. by rewrite Nat.add_0_r.
  - assert (phase m ≠ Closing) as Hnc by (intros Hp; unfold input_enabled in He; rewrite Hp in He; by destruct (read_half_closed m)).
    assert (request_pending m = false) as Hpe.
    { destruct (decide (phase m = Ready)) as [Hp|]; [|by apply not_pending].
      unfold input_enabled in He. rewrite Hp in He. destruct (read_half_closed m), (request_pending m); try done.
      by rewrite andb_false_r in He. }
    pose proof (cw_asked _ _ Hc) as Has. cbn in Has. rewrite decide_False, Hpe in Has by done.
    eapply conn_wf_next; try apply Hk; try done.
    + right. by rewrite partly_fresh, partly_none.
    + destruct a; cbn; [left; lia|right; apply Ha|left; lia|left; lia].
    + destruct a; cbn; destruct (decide _); try lia; try done.
      * rewrite Ha. lia.
      * destruct Ha as [_ ->]. lia.
    + by intros Hp'%(kp_subscriber _ _ Hk).
  - cbn [asks]. rewrite Nat.add_0_r. eapply close_step; try done. apply (close_wf r0).
Qed.

(** The session name and the hello deadline are fixed when the connection is made. *)
Lemma read_eof_origin m : origin (read_eof m).2 = origin m.
Proof. unfold read_eof. by repeat case_match. Qed.

Lemma publish_state_origin now frame m : origin (publish_state now frame m).2 = origin m.
Proof. unfold publish_state. by repeat case_match. Qed.

Lemma complete_request_origin now response m a m' :
  complete_request now response m = Some (a, m') → origin m' = origin m.
Proof.
  unfold complete_request. case_match; [by intros [= <- <-]|].
  by intros ([frame|] & _ & [= <- <-])%bind_Some.
Qed.

Lemma complete_subscribe_origin now state m a m' :
  complete_subscribe now state m = Some (a, m') → origin m' = origin m.
Proof.
  unfold complete_subscribe. case_match; [by intros [= <- <-]|].
  by intros ([frame|] & _ & [= <- <-])%bind_Some.
Qed.

Lemma begin_shutdown_origin now m a m' :
  begin_shutdown now m = Some (a, m') → origin m' = origin m.
Proof.
  unfold begin_shutdown. case_match; [by intros [= <- <-]|]. case_match; [by intros [= <- <-]|].
  intros ([frame|] & _ & [= <- Hm])%bind_Some; [|by subst]. subst m'. by repeat case_match.
Qed.

Lemma eof_step s0 m w d s q r a m' :
  conn_wf s0 (mk_conn m w d s q r) → input_enabled m = true → read_eof m = (a, m') →
  conn_wf s0 (mk_conn m' w d s q r).
Proof.
  intros Hc He Hr. destruct (read_eof_ok m (cw_machine _ _ Hc) He) as [Hm' Hcase].
  rewrite Hr in Hm', Hcase. cbn in Hm'. destruct Hcase as [(r0 & [= _] & Hp)|[= -> ->]]; cbn in *.
  - eapply close_step; try done. apply keeps_late; [|by right].
    pose proof (read_eof_origin m) as Hse. by rewrite Hr in Hse.
  - pose proof (cw_asked _ _ Hc) as Has. pose proof (cw_shown _ _ Hc) as Hsh.
    eapply conn_wf_next; try done; [by right|by left].
Qed.

Lemma complete_step s0 now response m w d s q r a m' :
  conn_wf s0 (mk_conn m w d s q r) → complete_request now response m = Some (a, m') →
  conn_wf s0 (mk_conn m' w d s q (r + answers m m')).
Proof.
  intros Hc Hr. destruct (complete_request_ok now response m (cw_machine _ _ Hc)) as (a1 & m1 & Hr' & Hm' & Hcase).
  rewrite Hr in Hr'. injection Hr' as <- <-. unfold answers.
  destruct Hcase as [[_ ->]|(-> & Hp & Hp' & Hph & Hph' & Ho & Hf)].
  { rewrite andb_negb_r. by rewrite Nat.add_0_r. }
  pose proof (cw_asked _ _ Hc) as Has. cbn in Has. rewrite Hph, Hp, decide_False in Has by done.
  rewrite Hp, Hp'. cbn. eapply conn_wf_next; try done; rewrite ?Hph, ?Hph'; try done.
  - by eapply complete_request_origin.
  - right. by rewrite partly_fresh, partly_none.
  - by left.
  - rewrite Hp', decide_False by done. lia.
Qed.

Lemma subscribe_step s0 now state m w d s q r a m' :
  conn_wf s0 (mk_conn m w d s q r) → complete_subscribe now state m = Some (a, m') →
  conn_wf s0 (mk_conn m' w d (if decide (phase m' = phase m) then s else out_bytes <$> output m') q
    (r + answers m m')).
Proof.
  intros Hc Hr. destruct (complete_subscribe_ok now state m (cw_machine _ _ Hc)) as (a1 & m1 & Hr' & Hm' & Hcase).
  rewrite Hr in Hr'. injection Hr' as <- <-. unfold answers.
  destruct Hcase as [[_ ->]|(-> & Hp & Hp' & Hph & Hph' & Ho & (frame & Hfr & Ho') & El)].
  { rewrite decide_True by done. rewrite andb_negb_r. by rewrite Nat.add_0_r. }
  pose proof (cw_asked _ _ Hc) as Has. cbn in Has. rewrite Hph, Hp, decide_False in Has by done.
  rewrite Hp, Hp'. cbn. rewrite decide_False by congruence.
  eapply conn_wf_next; try done; rewrite ?Hph, ?Hph'; try done.
  - by eapply complete_subscribe_origin.
  - by intros [].
  - intros _. by left.
  - right. rewrite (partly_none m) by done. unfold partly. by rewrite Ho'.
  - by left.
  - rewrite Hp', decide_False by done. lia.
  - intros _. unfold newest. cbn. rewrite Ho', El. cbn. split; [by eexists|done].
Qed.

Lemma publish_step s0 now frame m w d s q r a m' :
  conn_wf s0 (mk_conn m w d s q r) → publish_state now frame m = (a, m') →
  conn_wf s0 (mk_conn m' w d (if decide (phase m = Subscriber) then Some frame else s) q r).
Proof.
  intros Hc Hr. destruct (publish_state_ok now frame m (cw_machine _ _ Hc)) as [Hm' Hcase].
  pose proof (cw_asked _ _ Hc) as Has. pose proof (cw_shown _ _ Hc) as Hsh. cbn in Has, Hsh.
  rewrite Hr in Hm', Hcase. cbn in *.
  pose proof (publish_state_origin now frame m) as Hse. rewrite Hr in Hse. cbn in Hse.
  destruct Hcase as [(_ & Hns & ->)|[Hp|(Hp & Hs & Hf & _ & Hm1)]].
  - destruct (decide (phase m = Subscriber)) as [Hp|]; [|done]. eapply conn_wf_next; try done; [by right|by left|].
    intros _. split; [by eexists|]. destruct Hns as [?|E]; [done|by rewrite E].
  - pose proof (closing_counts _ _ _ _ _ _ _ m' Hc Hp) as Hcc.
    eapply conn_wf_next; try exact Hcc; try done; rewrite ?Hp; try done; try (by intros []); by left.
  - rewrite decide_True by done.
    assert (phase m' = Subscriber ∧ request_pending m' = request_pending m
      ∧ partly m' = partly m ∧ newest (mk_conn m' w d (Some frame) q r) = Some frame) as (Hp' & Hr' & Hpa & Hn).
    { unfold partly, newest. destruct (output m) as [c|] eqn:Ho; [subst m'; cbn; by rewrite Ho|].
      destruct Hm1 as [p ->]. cbn. split_and!; [done|done|done|].
      destruct (latest m) as [c|] eqn:El; [|done].
      pose proof (mw_phase m (cw_machine _ _ Hc)) as Hph. unfold phase_wf in Hph. rewrite Hp in Hph.
      destruct Hph as (_ & Hn & _). destruct (Hn Ho) as [? _]. congruence. }
    rewrite Hp in Has.
    eapply conn_wf_next; try done; rewrite ?Hp', ?Hp, ?Hr'; try done; by left + by right.
Qed.

Lemma shutdown_step s0 now m w d s q r a m' :
  conn_wf s0 (mk_conn m w d s q r) → begin_shutdown now m = Some (a, m') →
  conn_wf s0 (mk_conn m' w d s q r).
Proof.
  intros Hc Hr. destruct (shutting_down_ok now m (cw_machine _ _ Hc)) as (a1 & m1 & Hr' & Hm' & Hcase).
  pose proof (begin_shutdown_origin _ _ _ _ Hr) as Hse.
  rewrite Hr in Hr'. injection Hr' as <- <-.
  pose proof (cw_asked _ _ Hc) as Has. pose proof (cw_shown _ _ Hc) as Hsh. cbn in Has, Hsh.
  destruct Hcase as [[_ ->]|[Hp|(_ & Hp & Hp' & Hst & Hout & Hpe)]]; [done| |].
  - eapply close_step; try done. apply keeps_late; [done|by right].
  - rewrite Hp in Has. destruct (Hsh Hp) as [Hsome _].
    eapply conn_wf_next; try done; rewrite ?Hp', ?Hp, ?Hpe; try done; [|by left|].
    + right. destruct Hout as [E|[Hf Hf']]; [unfold partly; by rewrite E|by rewrite !partly_fresh].
    + intros _. split; [done|]. by rewrite Hst.
Qed.

Lemma expire_step s0 now m w d s q r a m' :
  conn_wf s0 (mk_conn m w d s q r) → expire now m = (a, m') → conn_wf s0 (mk_conn m' w d s q r).
Proof.
  intros Hc He. unfold expire in He. destruct (next_deadline m) as [dl|]; [|by simplify_eq].
  destruct (_ <=? _)%N; [|by simplify_eq]. injection He as <- <-.
  eapply close_step; [done|apply (close_wf CloseDeadline)|apply (close_keeps CloseDeadline)|done].
Qed.

(** The rest of a frame goes out. *)
Lemma frame_step s0 c m w d s q r a m' :
  conn_wf s0 (mk_conn m w d s q r) → output m = Some c → machine_wf m' → origin m' = origin m →
  fresh_output m' → written m c a m' →
  conn_wf s0 (mk_conn m' (w ++ remaining c) (d ++ [out_bytes c]) s (q + asks a) r).
Proof.
  intros Hc Ho Hm' Hse Hf Hwr. pose proof Hc as [Hm Hs Hfr Hw Hun Hgr Has Hsh]. cbn in *.
  assert (phase m ≠ Closing) as Hnc.
  { intros Hp. pose proof (mw_phase m Hm) as Hph. unfold phase_wf in Hph. rewrite Hp in Hph.
    destruct Hph. congruence. }
  rewrite decide_False in Hw, Has by done.
  assert (Forall frame_ok (d ++ [out_bytes c])) as Hfr'.
  { apply Forall_app. split; [done|]. repeat constructor; apply (mw_output m Hm c Ho). }
  assert (w ++ remaining c = concat (d ++ [out_bytes c])) as Hw'.
  { rewrite concat_app, Hw. unfold partly, remaining. rewrite Ho. cbn. rewrite app_nil_r, <-app_assoc.
    by rewrite take_drop. }
  assert (∀ sh, (phase m' = Subscriber → is_Some sh ∧ (shutting_down m' = false →
     newest (mk_conn m' (w ++ remaining c) (d ++ [out_bytes c]) sh (q + asks a) r) = sh)) →
    (ungreeted (phase m') → False) →
    (greeted (phase m') ∨ 0 < q + asks a → ∃ hello rest, hello_frame s0.1 = Some hello ∧ d ++ [out_bytes c] = hello :: rest) →
    (if decide (phase m' = Closing) then r <= q + asks a <= S r
     else q + asks a = r + if request_pending m' then 1 else 0) →
    conn_wf s0 (mk_conn m' (w ++ remaining c) (d ++ [out_bytes c]) sh (q + asks a) r)) as Hgoal.
  { intros sh ? ? ? ?. split; cbn; try done; [congruence|].
    rewrite Hw'. destruct (decide _); [apply (torn m'); [done|]|]; by rewrite partly_fresh, app_nil_r. }
  assert ((∃ hello rest, hello_frame s0.1 = Some hello ∧ d = hello :: rest) →
    ∃ hello rest, hello_frame s0.1 = Some hello ∧ d ++ [out_bytes c] = hello :: rest) as Happ.
  { intros (hello & rest & ? & ->). by exists hello, (rest ++ [out_bytes c]). }
  assert (request_pending m = false) as Hpe.
  { destruct (request_pending m) eqn:E; [|done].
    destruct (pending_ready m Hm E) as (_ & _ & ? & _). congruence. }
  rewrite Hpe in Has.
  destruct Hwr as [[Hp [r0 ->]]|Hwr]; [|destruct (phase m) eqn:Hp; try done].
  - apply Hgoal; rewrite ?Hp; try done; [by intros []| |rewrite decide_True by done; cbn; lia].
    intros [[]|Hlt]; [done|done|]. apply Happ, Hgr. right. cbn in Hlt. lia.
  - destruct Hwr as [Hcl Hwr]. destruct (Hun (or_intror eq_refl)) as [-> ->].
    assert (hello_frame s0.1 = Some (out_bytes c)) as Hh.
    { rewrite <-Hs. unfold hello_frame. cbn. by rewrite (mw_hello m Hm c Ho Hcl). }
    destruct Hwr as [(Hp' & Ho' & Ha)|(Hp' & -> & Hpe')].
    + apply Hgoal; rewrite ?Hp'; try done; [by intros []| |rewrite decide_False by done].
      * intros _. by exists (out_bytes c), [].
      * destruct Ha as [[-> ->]|[[req ->] ->]]; cbn; lia.
    + apply Hgoal; destruct Hp' as [Hp'|Hp']; rewrite ?Hp', ?Hpe'; try done; try (by intros []);
        try (by intros [[]|Hlt]; [done|done|cbn in Hlt; lia]).
      all: rewrite ?decide_True by done; cbn; lia.
  - destruct Hwr as (-> & Hp' & Ho' & Hpe').
    apply Hgoal; rewrite ?Hp', ?Hpe'; try done; [by intros []| |rewrite decide_False by done; cbn; lia].
    intros _. apply Happ, Hgr. left. by left.
  - destruct Hwr as (-> & Hp' & Hpe' & Ho' & Hl' & Hsh').
    apply Hgoal; rewrite ?Hp', ?Hpe'; [|by intros []| |rewrite decide_False by done; cbn; lia].
    + intros _. destruct (Hsh eq_refl) as [Hsome Hnew]. split; [done|].
      rewrite Hsh'. intros Hst. rewrite <-(Hnew Hst). unfold newest. cbn. rewrite Hl', Ho', Ho.
      destruct (latest m); [done|]. by rewrite last_snoc.
    + intros _. apply Happ, Hgr. left. by right.
Qed.

(** Part of a frame goes out. *)
Lemma part_step s0 p count c m w d s q r :
  conn_wf s0 (mk_conn m w d s q r) → output m = Some c →
  let m' := m <| output_deadline := p |> <| output := Some (step_cursor count c) |> in
  machine_wf m' →
  conn_wf s0 (mk_conn m' (w ++ take count (remaining c)) d s q r).
Proof.
  intros [Hm Hs Hfr Hw Hun Hgr Has Hsh] Ho m' Hm'. cbn in *.
  split; cbn; try done.
  - assert (phase m ≠ Closing) as Hnc.
    { intros Hp. pose proof (mw_phase m Hm) as Hph. unfold phase_wf in Hph. rewrite Hp in Hph.
      destruct Hph. congruence. }
    rewrite decide_False in Hw by done. rewrite decide_False by done.
    rewrite Hw, <-app_assoc. f_equal.
    unfold partly, remaining. rewrite Ho. cbn. by rewrite take_take_drop.
  - intros Hp. destruct (Hsh Hp) as [? Hn]. split; [done|]. intros Hst. rewrite <-(Hn Hst).
    unfold newest. cbn. by rewrite Ho.
Qed.

Lemma output_done_origin now cl m a m' : output_done now cl m = Some (a, m') → origin m' = origin m.
Proof.
  assert (∀ r, Some (close r m) = Some (a, m') → origin m' = origin m) as Hc by by intros r [= _ <-].
  assert (Some (if read_half_closed m then close PeerClosed m else (ActNone, m)) = Some (a, m') →
    origin m' = origin m) as Hh by (destruct (read_half_closed m); by intros [= _ <-]).
  assert (Some (finish_subscriber_output now m) = Some (a, m') → origin m' = origin m) as Hf.
  { unfold finish_subscriber_output. repeat case_match; by intros [= _ <-]. }
  destruct cl; cbn; auto; [|by apply Hc..]. case_decide; [by apply Hc|].
  destruct (retained m) as [[req|message]|]; [by intros [= _ <-]| |].
  - intros (m1 & [Hs _]%terminal_error_keeps & [= _ ->])%fmap_Some. exact Hs.
  - case_match; by intros [= _ <-].
Qed.

Lemma advance_step s0 now count c m w d s q r a m' :
  conn_wf s0 (mk_conn m w d s q r) → output m = Some c → count ≤ length (remaining c) →
  advance_output now count m = Some (a, m') →
  conn_wf s0 (mk_conn m' (w ++ take count (remaining c))
    (d ++ if count =? length (remaining c) then [out_bytes c] else []) s (q + asks a) r).
Proof.
  intros Hc Ho Hcount Hr. pose proof (cw_machine _ _ Hc) as Hm. cbn in Hm.
  destruct (advance_output_ok now count c m Hm Ho Hcount) as (a1 & m1 & Hr' & Hm' & Hadv).
  pose proof Hr as Hr0. rewrite Hr in Hr'. injection Hr' as <- <-.
  destruct (mw_output m Hm c Ho) as [_ Hoff].
  assert (length (remaining c) = length (out_bytes c) - offset c) as Hlen by apply length_drop.
  unfold advanced in Hadv.
  destruct (Nat.eqb_spec count (length (remaining c))) as [E|E].
  - rewrite (proj2 (Nat.eqb_eq _ _)) in Hadv by lia. destruct Hadv as [Hf Hw].
    rewrite take_ge by lia. eapply frame_step; try done.
    unfold advance_output in Hr0. rewrite Ho in Hr0. revert Hr0. cbv zeta.
    generalize (Some (now + OUTPUT_TIMEOUT)%N). intros dl.
    intros ([fin out'] & Hadv & Hd)%bind_Some. destruct fin.
    + apply output_done_origin in Hd. rewrite Hd. by case_match.
    + injection Hd as <- <-. by case_match.
  - rewrite (proj2 (Nat.eqb_neq _ _)) in Hadv by lia. destruct Hadv as [-> [p ->]].
    rewrite app_nil_r. cbn [asks]. rewrite Nat.add_0_r. by apply part_step.
Qed.

Lemma conn_step_wf s0 c c' : conn_step c c' → conn_wf s0 c → conn_wf s0 c'.
Proof.
  destruct 1; intros Hc;
    [by eapply ingest_step|by eapply eof_step|by eapply advance_step|by eapply complete_step
    |by eapply subscribe_step|by eapply publish_step|by eapply shutdown_step|by eapply expire_step].
Qed.

Lemma connect_wf now s0 : conn_wf (s0, (now + HELLO_TIMEOUT)%N) (connect now s0).
Proof.
  split; cbn; try done; [apply new_wf|]. intros [Hg|?]; [by destruct Hg|lia].
Qed.

Lemma conn_reachable_wf now s0 c : rtc conn_step (connect now s0) c → conn_wf (s0, (now + HELLO_TIMEOUT)%N) c.
Proof.
  intros Hr. remember (connect now s0) as c0 eqn:E.
  assert (conn_wf (s0, (now + HELLO_TIMEOUT)%N) c0) as Hw by (subst; apply connect_wf).
  clear E. induction Hr as [|? ? ? Hs _ IH]; [done|]. by apply IH, (conn_step_wf _ _ _ Hs).
Qed.

(** ** Deadlines *)

Lemma fold_deadline_Some d l :
  is_Some d ∨ (∃ c, c ∈ l ∧ is_Some c) → is_Some (foldl min_deadline d l).
Proof.
  revert d. induction l as [|c l IH]; intros d Hd; cbn.
  - destruct Hd as [?|(c & Hc & _)]; [done|]. by apply not_elem_of_nil in Hc.
  - apply IH. destruct Hd as [[x ->]|(c' & [->|Hc]%elem_of_cons & [x Hx])].
    + left. cbn. destruct c; by eexists.
    + left. rewrite Hx. cbn. destruct d; by eexists.
    + right. exists c'. split; [done|by eexists].
Qed.

Lemma fold_deadline_le d l x :
  (d = Some x ∨ Some x ∈ l) → ∃ y, foldl min_deadline d l = Some y ∧ (y <= x)%N.
Proof.
  revert d x. induction l as [|c l IH]; intros d x Hd; cbn.
  - destruct Hd as [->|Hc]; [by exists x|]. by apply not_elem_of_nil in Hc.
  - assert (∃ z, (z <= x)%N ∧ (min_deadline d c = Some z ∨ Some z ∈ l)) as (z & Hz & Hin).
    { destruct Hd as [->|[<-|Hc]%elem_of_cons].
      - destruct c as [c|]; cbn; [exists (N.min x c)|exists x]; split; auto; lia.
      - destruct d as [d|]; cbn; [exists (N.min d x)|exists x]; split; auto; lia.
      - exists x. split; [lia|by right]. }
    destruct (IH _ _ Hin) as (y & -> & ?). exists y. split; [done|lia].
Qed.

(** The connection is waiting for its peer. *)
Definition waiting m : Prop :=
  phase m = AwaitHello ∨ phase m = SendingHello ∨ phase m = CloseAfterReply
  ∨ input m ≠ [] ∨ output m ≠ None.

Lemma waiting_deadline m : machine_wf m → waiting m → is_Some (next_deadline m).
Proof.
  intros Hm Hw. pose proof (mw_phase m Hm) as Hph. unfold phase_wf in Hph.
  pose proof (mw_shutdown m Hm) as Hsd. unfold next_deadline, waiting in *.
  destruct (phase m) eqn:Hp.
  all: rewrite ?decide_False by done; cbn [foldl].
  all: try apply (fold_deadline_Some (shutdown_deadline m) [_; _; _; _]).
  - right. eexists. split; [left|by eexists].
  - right. exists (output_deadline m). split; [set_solver|apply Hph].
  - destruct Hph as (Hc & Hi & _). destruct Hw as [?|[?|[?|[Hin|Hout]]]]; try done.
    + right. exists (partial_deadline m). split; [set_solver|by apply Hi].
    + destruct (output m) as [c|] eqn:Ho; [|done]. destruct (Hc c eq_refl) as (_ & ? & _).
      right. exists (output_deadline m). split; [set_solver|done].
  - destruct Hph as (Hc & _ & Hi & _). destruct Hw as [?|[?|[?|[Hin|Hout]]]]; try done.
    destruct (output m) as [c|] eqn:Ho; [|done]. destruct (Hc c eq_refl) as (_ & Hd).
    destruct (shutting_down m); [by left|]. right. exists (output_deadline m). split; [set_solver|done].
  - right. exists (close_deadline m). split; [set_solver|apply Hph].
  - destruct Hph as (? & ? & _). by destruct Hw as [?|[?|[?|[Hin|Hout]]]].
Qed.

(** ** Theorems *)

(** A connection never panics and stays bounded: in every reachable state
    each call of the server returns, the input buffer holds less than one
    maximal frame and no line feed, and every queued frame fits the limit and
    has bytes left to write. *)
Theorem connection_never_panics now0 s0 c :
  rtc conn_step (connect now0 s0) c →
  let m := machine c in
  (∀ now bytes, input_enabled m = true → is_Some (ingest now bytes m))
  ∧ (∀ now count cur, output m = Some cur → count ≤ length (remaining cur) →
       is_Some (advance_output now count m))
  ∧ (∀ now response, is_Some (complete_request now response m))
  ∧ (∀ now state, is_Some (complete_subscribe now state m))
  ∧ (∀ now, is_Some (begin_shutdown now m))
  ∧ length (input m) < MAX_FRAME_BYTES ∧ 10%N ∉ input m
  ∧ (∀ cur, output m = Some cur ∨ latest m = Some cur →
       length (out_bytes cur) ≤ MAX_FRAME_BYTES ∧ remaining cur ≠ []).
Proof.
  intros Hr%conn_reachable_wf m. pose proof (cw_machine _ _ Hr) as Hm. fold m in Hm. split_and!.
  - intros now bytes He. destruct (ingest_ok now bytes m Hm He) as (? & ? & -> & _). by eexists.
  - intros now count cur Ho Hc. destruct (advance_output_ok now count cur m Hm Ho Hc) as (? & ? & -> & _).
    by eexists.
  - intros now resp. destruct (complete_request_ok now resp m Hm) as (? & ? & -> & _). by eexists.
  - intros now st. destruct (complete_subscribe_ok now st m Hm) as (? & ? & -> & _). by eexists.
  - intros now. destruct (shutting_down_ok now m Hm) as (? & ? & -> & _). by eexists.
  - apply (mw_input m Hm).
  - apply (mw_input m Hm).
  - intros cur Hcur. assert (cursor_ok cur) as [[Hl _] Hoff].
    { destruct Hcur as [Ho|Hl]; [by apply (mw_output m Hm)|by apply (mw_latest m Hm cur)]. }
    split; [done|]. intros Hn. apply (f_equal length) in Hn. unfold remaining in Hn.
    rewrite length_drop in Hn. cbn in Hn. lia.
Qed.

(** No connection waits for its peer forever: while the hello, the rest of a
    frame or the peer's reading is outstanding there is a deadline, expiry closes
    the connection exactly when it has passed, and the hello is due within its
    timeout of the connection however slowly its bytes arrive. *)
Theorem connection_wait_is_bounded now0 s0 c :
  rtc conn_step (connect now0 s0) c → waiting (machine c) →
  ∃ dl, next_deadline (machine c) = Some dl
    ∧ (phase (machine c) = AwaitHello → dl <= now0 + HELLO_TIMEOUT)%N
    ∧ ∀ now, expire now (machine c)
        = if (dl <=? now)%N then close CloseDeadline (machine c) else (ActNone, machine c).
Proof.
  intros Hr%conn_reachable_wf Hw. destruct (waiting_deadline _ (cw_machine _ _ Hr) Hw) as [dl Hdl].
  exists dl. split_and!; [done| |intros now; unfold expire; by rewrite Hdl].
  intros Hp. pose proof (cw_origin _ _ Hr) as Ho. injection Ho as _ Ho.
  unfold next_deadline in Hdl. rewrite Hp, decide_False in Hdl by done.
  destruct (fold_deadline_le (shutdown_deadline (machine c))
    [if decide (AwaitHello = AwaitHello) then Some (hello_deadline (machine c)) else None;
     partial_deadline (machine c); output_deadline (machine c); close_deadline (machine c)]
    (hello_deadline (machine c))) as (y & Hy & Hle); [right; by left|].
  rewrite Hy in Hdl. injection Hdl as ->. lia.
Qed.

(** C23. The peer receives whole frames: everything written is a sequence of
    complete frames, then a part of the next one; the first frame is the hello
    reply once any request was taken or the handshake is over; and there is at
    most one request without its reply, exactly the one that is pending. *)
Theorem stream_is_framed now0 s0 c :
  rtc conn_step (connect now0 s0) c →
  Forall frame_ok (delivered c)
  ∧ (∃ frame n, frame_ok frame ∧ n < length frame ∧ wire c = concat (delivered c) ++ take n frame)
  ∧ (phase (machine c) ≠ Closing → wire c = concat (delivered c) ++ partly (machine c))
  ∧ (greeted (phase (machine c)) ∨ 0 < asked c →
       ∃ hello rest, hello_frame s0 = Some hello ∧ delivered c = hello :: rest)
  ∧ answered c ≤ asked c ≤ S (answered c)
  ∧ (phase (machine c) ≠ Closing →
       asked c = answered c + if request_pending (machine c) then 1 else 0).
Proof.
  intros [Hm _ Hf Hw _ Hg Ha _]%conn_reachable_wf. split_and!; [done| | |done| | |].
  - destruct (decide _); [done|by apply (torn (machine c))].
  - intros Hn. by rewrite decide_False in Hw.
  - destruct (decide _); [lia|]. destruct (request_pending _); lia.
  - destruct (decide _); [lia|]. destruct (request_pending _); lia.
  - intros Hn. by rewrite decide_False in Ha.
Qed.

(** C24. Subscribers converge: while a subscription is not shutting down, the
    frame at the end of its queue is the latest state the server had for it, so
    a subscriber that has drained its queue has received that state last, and
    however many states were published, at most one waits behind the frame on
    its way out. *)
Theorem subscriber_sees_latest now0 s0 c :
  rtc conn_step (connect now0 s0) c →
  phase (machine c) = Subscriber → shutting_down (machine c) = false →
  ∃ frame, shown c = Some frame
    ∧ match latest (machine c), output (machine c) with
      | Some waiting, Some _ => out_bytes waiting = frame ∧ offset waiting = 0
      | None, Some current => out_bytes current = frame
      | Some _, None => False
      | None, None => last (delivered c) = Some frame
      end.
Proof.
  intros Hr%conn_reachable_wf Hp Hs. destruct (cw_shown _ _ Hr Hp) as [[frame Hf] Hn].
  specialize (Hn Hs). rewrite Hf in Hn. exists frame. split; [done|].
  pose proof (cw_machine _ _ Hr) as Hm. pose proof (mw_phase _ Hm) as Hph.
  unfold phase_wf in Hph. rewrite Hp in Hph. destruct Hph as (_ & Hnone & _).
  unfold newest in Hn. destruct (latest (machine c)) as [l|] eqn:El, (output (machine c)) as [o|] eqn:Eo;
    [|by destruct (Hnone eq_refl)|by injection Hn|done].
  injection Hn as Hn. split; [done|]. by destruct (mw_latest _ Hm l El) as (_ & ? & _).
Qed.
End machine.

(** ** A demo codec and a subscription

    One letter per message: [h] is a good hello, [s] a subscribe request, [g] asks
    for the state, [q] to quit. *)
#[local] Instance demo_request : Wire Request := {|
  to_chunks _ := ([], Some false);
  from_str t := if decide (t = lit "h") then Ok (ReqHello PROTOCOL_VERSION (lit "demo"))
                else if decide (t = lit "s") then Ok ReqSubscribe
                else if decide (t = lit "g") then Ok ReqGetState
                else if decide (t = lit "q") then Ok ReqQuit else Err false
|}.
#[local] Instance demo_response : Wire Response := {|
  to_chunks _ := ([lit "r"], None); from_str _ := Err false
|}.
#[local] Instance demo_event : Wire Event := {|
  to_chunks v := ([match v with EventState _ => lit "e" | EventShutdown => lit "x" end], None);
  from_str _ := Err false
|}.

#[local] Instance demo_response_text : WireText Response.
Proof. constructor. intros v. exists (lit "r"). split; [by repeat constructor|done]. Qed.
#[local] Instance demo_event_text : WireText Event.
Proof.
  constructor. intros [state|]; [exists (lit "e")|exists (lit "x")]; (split; [by repeat constructor|done]).
Qed.

Definition demo_after (o : option (MachineAction * ConnectionMachine)) : ConnectionMachine :=
  match o with Some (_, m) => m | None => new 0 [] end.

Definition demo_hello := Eval vm_compute in demo_after (ingest 5 (lit "h" ++ [10%N]) (new 0 (lit "realm"))).
Definition demo_ready := Eval vm_compute in demo_after (advance_output 6 2 demo_hello).
Definition demo_asked := Eval vm_compute in demo_after (ingest 7 (lit "s" ++ [10%N]) demo_ready).
Definition demo_subscribed := Eval vm_compute in demo_after (complete_subscribe 8 RealmState_default demo_asked).

Definition demo_conn : Conn :=
  mk_conn demo_subscribed (lit "r" ++ [10%N]) [lit "r" ++ [10%N]] (Some (lit "e" ++ [10%N])) 1 1.

Lemma demo_reachable : rtc conn_step (connect 0 (lit "realm")) demo_conn.
Proof.
  eapply (rtc_l _ _ (mk_conn demo_hello [] [] None 0 0)).
  { apply (StepIngest 5 (lit "h" ++ [10%N]) _ _ _ _ 0 0 ActNone); [done|vm_compute; reflexivity]. }
  eapply (rtc_l _ _ (mk_conn demo_ready (lit "r" ++ [10%N]) [lit "r" ++ [10%N]] None 0 0)).
  { apply (StepAdvance 6 2 (cursor (lit "r" ++ [10%N]) OutHello) _ [] [] _ 0 0 ActNone);
      [done|cbn; lia|vm_compute; reflexivity]. }
  eapply (rtc_l _ _ (mk_conn demo_asked (lit "r" ++ [10%N]) [lit "r" ++ [10%N]] None 1 0)).
  { apply (StepIngest 7 (lit "s" ++ [10%N]) _ _ _ _ 0 0 (ActRequest ReqSubscribe)); [done|vm_compute; reflexivity]. }
  apply rtc_once.
  apply (StepSubscribe 8 RealmState_default demo_asked (lit "r" ++ [10%N]) [lit "r" ++ [10%N]] None 1 0
    ActNone demo_subscribed). vm_compute. reflexivity.
Qed.

Lemma connection_never_panics_witness : is_Some (begin_shutdown 9 demo_subscribed).
Proof. apply (connection_never_panics _ _ _ demo_reachable). Defined.

Lemma connection_wait_is_bounded_witness :
  waiting demo_subscribed ∧ ∃ dl, next_deadline demo_subscribed = Some dl.
Proof.
  assert (waiting demo_subscribed) as Hw by (right; right; right; by right).
  split; [exact Hw|].
  destruct (connection_wait_is_bounded _ _ _ demo_reachable Hw) as (dl & Hdl & _). by exists dl.
Defined.

Lemma stream_is_framed_witness : Forall frame_ok (delivered demo_conn).
Proof. exact (proj1 (stream_is_framed _ _ _ demo_reachable)). Defined.

Lemma subscriber_sees_latest_witness :
  ∃ frame, shown demo_conn = Some frame ∧ out_bytes <$> output demo_subscribed = Some frame.
Proof.
  destruct (subscriber_sees_latest _ _ _ demo_reachable eq_refl eq_refl) as (frame & Hf & Ho).
  exists frame. split; [exact Hf|]. cbn in Ho |- *. by rewrite Ho.
Defined.
