(* ===== verification/Client.v ===== *)
(** * realm-control/src/client.rs: the control client

    [FramedTransport], [Client] and [Subscription] over a socket whose answers are a
    list: what each clock read, send, receive and poll of the process gets, in the
    order it makes them.  A call that asks for more waits, which is [Blocked]; the
    polls made are kept, with their timeouts. *)

From Stdlib Require Import ZArith Lia.
From stdpp Require Import prelude list.
From S2P Require Import Prelude Layout Ledger Projection Keys State Backend Snapshot Visible Authority Hoare Session Utf8 Ipc Timers.

Definition CONNECT_TIMEOUT : N := 100000000.
Definition EXCHANGE_TIMEOUT : N := 2000000000.
Definition READ_CHUNK_BYTES : nat := N.to_nat 8192.
#[global] Arguments READ_CHUNK_BYTES : simpl never.

Inductive ClientPhase :=
| Connect | HelloWrite | HelloRead | RequestWrite | ResponseRead
| SubscribeWrite | InitialStateRead | SubscriptionEvent.

Inductive ClientError :=
| MissingRealm
| Refused
| ClientPath
| VersionMismatch (client server : N)
| Timeout (phase : ClientPhase)
| FrameTooLarge (phase : ClientPhase)
| InvalidRequest
| UnexpectedResponse (phase : ClientPhase)
| MalformedResponse (phase : ClientPhase)
| Eof (phase : ClientPhase)
| ClientIo (phase : ClientPhase) (source : IoFault).

(** [ClientError::is_retryable] *)
Definition is_retryable (e : ClientError) : bool :=
  match e with MissingRealm | Refused => true | _ => false end.

(** How a call ends otherwise: with an error, in a wait, or with its loop bound used
    up, which never happens. *)
Inductive ClientStop := Failed (e : ClientError) | Blocked | Spinning.

(** The error numbers the code tells apart. *)
Definition EAGAIN : Z := 11.
Definition EINTR : Z := 4.
Definition ENOENT : Z := 2.
Definition ENOTDIR : Z := 20.
Definition ECONNREFUSED : Z := 111.
Definition EINPROGRESS : Z := 115.

Inductive Answer :=
| AnswerNow (t : N)
| AnswerSend (r : result nat Z)
| AnswerReceive (r : result (list N) Z)
| AnswerPoll (r : result nat Z).

(** [FramedTransport] beside what its socket has taken, given and been polled for: the
    bytes buffered at each poll, and its timeout. *)
Record FramedTransport := mk_transport {
  input : list N;
  partial_deadline : option N;
  answers : list Answer;
  sent : list N;
  received : list N;
  polls : list (nat * option N)
}.

#[export] Instance FramedTransport_settable : Settable FramedTransport := λ t,
  mk_transport (input t) (partial_deadline t) (answers t) (sent t) (received t) (polls t).

Abbreviation client_m A := (stm FramedTransport (failure ClientStop) A).

Definition fail_with {A} (e : ClientError) : client_m A := raise (Failed e).

Definition of_client {A} (r : result A ClientError) : client_m A := of_result (map_err Failed r).

(** ** The socket *)

(** The next answer, when it is of the kind asked for. *)
Definition ask {A} (pick : Answer → option A) : client_m A := λ t,
  match answers t with
  | a :: rest =>
      match pick a with
      | Some x => (Ok x, t <| answers := rest |>)
      | None => (Err (Raise Blocked), t)
      end
  | [] => (Err (Raise Blocked), t)
  end.

Definition now : client_m N := ask (λ a, match a with AnswerNow t => Some t | _ => None end).

(** What is sent is the prefix of [bytes] the socket takes. *)
Definition send_io (bytes : list N) : client_m (result nat Z) :=
  r ← ask (λ a, match a with AnswerSend r => Some r | _ => None end);
  _ ← modify (set sent (λ l, l ++ match r with Ok n => take n bytes | Err _ => [] end));
  mret r.

Definition receive_io : client_m (result (list N) Z) :=
  r ← ask (λ a, match a with AnswerReceive r => Some r | _ => None end);
  _ ← modify (set received (λ l, l ++ match r with Ok bytes => bytes | Err _ => [] end));
  mret r.

(** [duration_timespec]'s [expect] is the [Panic]. *)
Definition poll_io (timeout : option N) : client_m (result nat Z) :=
  _ ← (match timeout with
       | Some d => _ ← expect (match timespec d with Ok t => Some t | Err _ => None end); mret tt
       | None => mret tt
       end);
  _ ← modify (λ t, t <| polls := polls t ++ [(length (input t), timeout)] |>);
  ask (λ a, match a with AnswerPoll r => Some r | _ => None end).

Definition client_io (phase : ClientPhase) (errno : Z) : ClientError := ClientIo phase (IoOs errno).

Definition remaining_at (deadline now : N) (phase : ClientPhase) : result N ClientError :=
  if (deadline <=? now)%N then Err (Timeout phase) else Ok (deadline - now)%N.

Definition ensure_before (deadline : N) (phase : ClientPhase) : client_m N :=
  t ← now; of_client (remaining_at deadline t phase).

(** [None] for no deadline. *)
Definition ensure_active (deadline : option N) (phase : ClientPhase) : client_m (option N) :=
  match deadline with Some d => r ← ensure_before d phase; mret (Some r) | None => mret None end.

Fixpoint poll_until (fuel : nat) (deadline : option N) (phase : ClientPhase) : client_m unit :=
  match fuel with
  | O => raise Spinning
  | S fuel' =>
      timeout ← ensure_active deadline phase;
      r ← poll_io timeout;
      match r with
      | Ok O => fail_with (Timeout phase)
      | Ok _ => _ ← ensure_active deadline phase; mret tt
      | Err errno => if decide (errno = EINTR) then poll_until fuel' deadline phase else fail_with (client_io phase errno)
      end
  end.

(** Each round of a loop takes an answer: as many rounds as there are answers. *)
Definition with_fuel {A} (f : nat → client_m A) : client_m A := λ t, f (S (length (answers t))) t.

(** ** Frames *)

Section client.
Context `{JsonErrors, !Wire Request, !Wire Response, !Wire Event}.

Fixpoint send_loop (fuel : nat) (rest : list N) (deadline : N) (phase : ClientPhase) : client_m unit :=
  match rest, fuel with
  | [], _ => mret tt
  | _, O => raise Spinning
  | _, S fuel' =>
      _ ← ensure_before deadline phase;
      r ← send_io rest;
      match r with
      | Ok O => fail_with (ClientIo phase IoWriteZero)
      | Ok n =>
          if n <=? length rest then send_loop fuel' (drop n rest) deadline phase
          else fail_with (ClientIo phase IoInvalidData)
      | Err errno =>
          if decide (errno = EINTR) then send_loop fuel' rest deadline phase
          else if decide (errno = EAGAIN) then
            _ ← with_fuel (λ n, poll_until n (Some deadline) phase);
            send_loop fuel' rest deadline phase
          else fail_with (client_io phase errno)
      end
  end.

(** An encoding error; the [expect] inside [encode] stays a [Panic]. *)
Definition encode_request (request : Request) (phase : ClientPhase) : result rstring (failure ClientStop) :=
  map_err (λ e, match e with
    | Raise (IpcFrameTooLarge _) => Raise (Failed (FrameTooLarge phase))
    | Raise _ => Raise (Failed (ClientIo phase IoInvalidData))
    | Panic => Panic
    end) (encode request).

Definition send_request (request : Request) (deadline : N) (phase : ClientPhase) : client_m unit := λ t,
  match encode_request request phase with
  | Ok frame => with_fuel (λ n, send_loop n (str_bytes frame) deadline phase) t
  | Err e => (Err e, t)
  end.

Inductive ReadBound := BoundDeadline (deadline : N) | BoundSubscription.

(** The bytes up to the first line feed, it included, and the rest. *)
Fixpoint split_line (bytes : list N) : option (list N * list N) :=
  match bytes with
  | [] => None
  | c :: bytes' =>
      if (c =? 10)%N then Some ([c], bytes')
      else '(line, rest) ← split_line bytes'; Some (c :: line, rest)
  end.

Definition take_line (line rest : list N) (t : FramedTransport) : FramedTransport :=
  let t := t <| input := rest |> in if decide (rest = []) then t <| partial_deadline := None |> else t.

(** Bytes received: the first of a frame starts its deadline. *)
Definition buffer_input (bytes : list N) : client_m unit :=
  t ← getS;
  if decide (input t = [])
  then n ← now; modify (λ t, t <| partial_deadline := Some (n + EXCHANGE_TIMEOUT)%N |> <| input := bytes |>)
  else modify (set input (λ l, l ++ bytes)).

Definition active_deadline (bound : ReadBound) (t : FramedTransport) : option N :=
  match bound with BoundDeadline d => Some d | BoundSubscription => partial_deadline t end.

Definition read_capacity (t : FramedTransport) : nat := (MAX_FRAME_BYTES - length (input t)) `min` READ_CHUNK_BYTES.

Fixpoint read_frame (fuel : nat) (bound : ReadBound) (phase : ClientPhase) : client_m (list N) :=
  match fuel with
  | O => raise Spinning
  | S fuel' =>
      t ← getS;
      match split_line (input t) with
      | Some (frame, rest) => _ ← modify (take_line frame rest); mret frame
      | None =>
          if MAX_FRAME_BYTES <=? length (input t) then fail_with (FrameTooLarge phase)
          else
            let deadline := active_deadline bound t in
            _ ← ensure_active deadline phase;
            r ← receive_io;
            match r with
            | Ok [] => fail_with (Eof phase)
            | Ok bytes =>
                if length bytes <=? read_capacity t
                then _ ← buffer_input bytes; read_frame fuel' bound phase
                else fail_with (ClientIo phase IoInvalidData)
            | Err errno =>
                if decide (errno = EINTR) then read_frame fuel' bound phase
                else if decide (errno = EAGAIN) then
                  _ ← with_fuel (λ n, poll_until n deadline phase);
                  read_frame fuel' bound phase
                else fail_with (client_io phase errno)
            end
      end
  end.

(** [decode_response] and [decode_event] *)
Definition decode_frame {T} `{!Wire T} (frame : list N) (phase : ClientPhase) : result T ClientError :=
  match from_utf8 frame with
  | None => Err (MalformedResponse phase)
  | Some text => map_err (λ _, MalformedResponse phase) (decode text)
  end.

Definition read_response (bound : ReadBound) (phase : ClientPhase) : client_m Response :=
  frame ← with_fuel (λ n, read_frame n bound phase); of_client (decode_frame frame phase).

Definition read_event (bound : ReadBound) (phase : ClientPhase) : client_m Event :=
  frame ← with_fuel (λ n, read_frame n bound phase); of_client (decode_frame frame phase).

(** ** The client's calls *)

Definition new_transport (answers : list Answer) : FramedTransport := mk_transport [] None answers [] [] [].

Definition complete_hello (client : rstring) : client_m unit :=
  t ← now;
  let deadline := (t + EXCHANGE_TIMEOUT)%N in
  _ ← send_request (ReqHello PROTOCOL_VERSION client) deadline HelloWrite;
  r ← read_response (BoundDeadline deadline) HelloRead;
  match r with
  | RespHello version _ =>
      if (version =? PROTOCOL_VERSION)%N then mret tt
      else fail_with (VersionMismatch PROTOCOL_VERSION version)
  | _ => fail_with (UnexpectedResponse HelloRead)
  end.

(** [Client::request] *)
Definition request (r : Request) : client_m Response :=
  match r with
  | ReqHello _ _ | ReqSubscribe => fail_with InvalidRequest
  | _ =>
      t ← now;
      let deadline := (t + EXCHANGE_TIMEOUT)%N in
      _ ← send_request r deadline RequestWrite;
      read_response (BoundDeadline deadline) ResponseRead
  end.

(** [Client::subscribe]: the initial state is the first pending event. *)
Definition subscribe : client_m Event :=
  t ← now;
  let deadline := (t + EXCHANGE_TIMEOUT)%N in
  _ ← send_request ReqSubscribe deadline SubscribeWrite;
  initial ← read_event (BoundDeadline deadline) InitialStateRead;
  match initial with EventState _ => mret initial | EventShutdown => fail_with (UnexpectedResponse InitialStateRead) end.

(** [Subscription]: the transport is the state of the monad. *)
Record Subscription := mk_subscription { pending : option Event; finished : bool }.

Definition ends (r : result Event ClientError) : bool :=
  match r with Ok EventShutdown | Err _ => true | Ok (EventState _) => false end.

(** [Iterator::next]: an error is an item; only a wait stops the call. *)
Definition next_item (s : Subscription) : client_m (option (result Event ClientError) * Subscription) := λ t,
  if finished s then (Ok (None, s), t)
  else
    match pending s with
    | Some event => (Ok (Some (Ok event), mk_subscription None (ends (Ok event))), t)
    | None =>
        match read_event BoundSubscription SubscriptionEvent t with
        | (Ok event, t') => (Ok (Some (Ok event), mk_subscription None (ends (Ok event))), t')
        | (Err (Raise (Failed e)), t') => (Ok (Some (Err e), mk_subscription None true), t')
        | (Err stop, t') => (Err stop, t')
        end
    end.

(** ** Connecting *)

Definition classify_connect_error (errno : Z) : ClientError :=
  if decide (errno = ENOENT ∨ errno = ENOTDIR) then MissingRealm
  else if decide (errno = ECONNREFUSED) then Refused
  else client_io Connect errno.

(** [ClientEndpoint::connect] once the socket and its address exist.  [connected] and
    [socket_error] are what the system calls of that name answer. *)
Definition connect (connected : result unit Z) (socket_error : result (result unit Z) Z) (client : rstring) :
    client_m unit :=
  started ← now;
  _ ← (match connected with
       | Ok _ => mret tt
       | Err errno =>
           if decide (errno = EAGAIN ∨ errno = EINPROGRESS) then
             _ ← with_fuel (λ n, poll_until n (Some (started + CONNECT_TIMEOUT)%N) Connect);
             match socket_error with
             | Ok (Ok _) => mret tt
             | Ok (Err errno) => fail_with (classify_connect_error errno)
             | Err errno => fail_with (client_io Connect errno)
             end
           else fail_with (classify_connect_error errno)
       end);
  complete_hello client.
End client.
