(* ===== verification/ClientSafety.v ===== *)
(** * The control client: what every exchange guarantees

    The specifications of the transport's loops, proved once for every list of
    answers: they end, they never panic, every wait is bounded, and the frames read
    are the lines of what the socket gave. *)

From Stdlib Require Import ZArith Lia Sorted.
From stdpp Require Import prelude list.
From S2P Require Import Prelude Layout Ledger Projection Keys State Backend Snapshot Visible Authority Hoare Session Utf8 Ipc Control ControlInv Timers Client.

(** ** Time and waits *)

Definition clocks (l : list Answer) : list N :=
  omap (λ a, match a with AnswerNow t => Some t | _ => None end) l.

(** What holds of a transport between two answers, [lo] being the last instant read. *)
Record transport_ok (lo : N) (t : FramedTransport) : Prop := {
  tr_clock : StronglySorted N.le (lo :: clocks (answers t));
  tr_input : length (input t) ≤ MAX_FRAME_BYTES;
  tr_partial : partial_deadline t = None ↔ input t = [];
  tr_deadline : ∀ p, partial_deadline t = Some p → (p <= lo + EXCHANGE_TIMEOUT)%N
}.

(** A bounded wait, and a wait that is unbounded only when nothing is buffered. *)
Definition bounded_wait (w : nat * option N) : Prop :=
  match w.2 with Some d => (0 < d <= EXCHANGE_TIMEOUT)%N | None => False end.

Definition patient_wait (w : nat * option N) : Prop :=
  match w.2 with Some d => (0 < d <= EXCHANGE_TIMEOUT)%N | None => w.1 = 0 end.

Lemma bounded_patient w : bounded_wait w → patient_wait w.
Proof. unfold bounded_wait, patient_wait. by destruct w.2. Qed.

(** What a piece of the transport's work leaves, whatever it ends in. *)
Record after (P : nat * option N → Prop) (lo : N) t (lo' : N) t' : Prop := {
  af_time : (lo <= lo')%N;
  af_ok : transport_ok lo' t';
  af_answers : length (answers t') ≤ length (answers t);
  af_polls : ∃ ws, polls t' = polls t ++ ws ∧ Forall P ws;
  af_received : received t `prefix_of` received t'
}.

Lemma after_refl P lo t : transport_ok lo t → after P lo t lo t.
Proof. intros Ht. split; try done. exists []. by rewrite app_nil_r. Qed.

(** Work on the transport's own data. *)
Lemma after_local P lo t t' :
  transport_ok lo t' → answers t' = answers t → polls t' = polls t → received t' = received t → after P lo t lo t'.
Proof. intros Ht Ea Ep Er. split; [done|done|by rewrite Ea| |by rewrite Er]. exists []. by rewrite app_nil_r. Qed.

Lemma after_trans P lo1 t1 lo2 t2 lo3 t3 : after P lo1 t1 lo2 t2 → after P lo2 t2 lo3 t3 → after P lo1 t1 lo3 t3.
Proof.
  intros [Ht1 _ Ha1 (ws1 & Hp1 & Hw1) Hr1] [Ht2 Hok Ha2 (ws2 & Hp2 & Hw2) Hr2].
  split; [lia|done|lia| |by etransitivity].
  exists (ws1 ++ ws2). rewrite Hp2, Hp1, <-app_assoc. split; [done|by apply Forall_app].
Qed.

Lemma after_mono (P P' : nat * option N → Prop) lo t lo' t' :
  (∀ w, P w → P' w) → after P lo t lo' t' → after P' lo t lo' t'.
Proof. intros HP [? ? ? (ws & ? & Hw) ?]. split; try done. exists ws. split; [done|]. by eapply Forall_impl. Qed.

(** [m] neither panics nor runs out of rounds. *)
Definition spec {A} (P : nat * option N → Prop) (lo : N) (m : stm FramedTransport (failure ClientStop) A)
    (Q : A → N → FramedTransport → Prop) (t : FramedTransport) : Prop :=
  wp m (λ a t', ∃ lo', after P lo t lo' t' ∧ Q a lo' t')
    (λ e t', e ≠ Spinning ∧ ∃ lo', after P lo t lo' t') t.

Lemma spec_mono {A} (P : nat * option N → Prop) lo (m : stm FramedTransport (failure ClientStop) A)
    (Q Q' : A → N → FramedTransport → Prop) t :
  spec P lo m Q t → (∀ a lo' t', after P lo t lo' t' → Q a lo' t' → Q' a lo' t') → spec P lo m Q' t.
Proof. intros Hm HQ. eapply wp_mono; [exact Hm| |done]. intros a t' (lo' & Ha & Hq). exists lo'. auto. Qed.

Lemma spec_bind {A C} P lo (m : stm FramedTransport (failure ClientStop) A)
    (k : A → stm FramedTransport (failure ClientStop) C) Q R t :
  spec P lo m Q t → (∀ a lo' t', after P lo t lo' t' → Q a lo' t' → spec P lo' (k a) R t') →
  spec P lo (a ← m; k a) R t.
Proof.
  intros Hm Hk. apply wp_bind. eapply wp_mono; [exact Hm| |done]. intros a t' (lo' & Ha & Hq).
  eapply wp_mono; [by apply (Hk a lo' t')| |].
  - intros c t'' (lo'' & Ha' & Hr). exists lo''. split; [by eapply after_trans|done].
  - intros e t'' (He & lo'' & Ha'). split; [done|]. exists lo''. by eapply after_trans.
Qed.

Lemma spec_ret {A} P lo (a : A) (Q : A → N → FramedTransport → Prop) t :
  transport_ok lo t → Q a lo t → spec P lo (mret a) Q t.
Proof. intros Ht Hq. exists lo. split; [by apply after_refl|done]. Qed.

Lemma spec_fail {A} P lo e (Q : A → N → FramedTransport → Prop) t : transport_ok lo t → spec P lo (fail_with e) Q t.
Proof. intros Ht. split; [done|]. exists lo. by apply after_refl. Qed.

Lemma spec_of_client {A} P lo (r : result A ClientError) (Q : A → N → FramedTransport → Prop) t :
  transport_ok lo t → (∀ a, r = Ok a → Q a lo t) → spec P lo (of_client r) Q t.
Proof. intros Ht Hq. destruct r as [a|e]; [by apply spec_ret; [|apply Hq]|by apply spec_fail]. Qed.

(** ** One answer *)

(** The rest of the answers, and the last instant then. *)
Lemma transport_next lo t a rest :
  transport_ok lo t → answers t = a :: rest →
  ∃ lo', (lo <= lo')%N ∧ transport_ok lo' (t <| answers := rest |>)
    ∧ match a with AnswerNow n => lo' = n | _ => lo' = lo end.
Proof.
  intros [Hc Hi Hp Hd] Ea. rewrite Ea in Hc. destruct a as [n|r|r|r].
  2-4: exists lo; split_and!; [done|by split|done].
  exists n. cbn in *. apply StronglySorted_inv in Hc as [Hc Hl].
  apply Forall_cons in Hl as [Hl _]. split_and!; [done|split; cbn; try done|done].
  intros p Hpd. specialize (Hd p Hpd). lia.
Qed.

Lemma ask_spec {A} P lo (pick : Answer → option A) t :
  transport_ok lo t →
  spec P lo (ask pick) (λ x lo' t', ∃ a, pick a = Some x ∧ answers t = a :: answers t'
    ∧ t' = t <| answers := answers t' |> ∧ match a with AnswerNow n => lo' = n | _ => lo' = lo end) t.
Proof.
  intros Ht. unfold spec, wp, ask. pose proof (after_refl P lo t Ht) as Hr.
  destruct (answers t) as [|a rest] eqn:Ea; [by eauto|].
  destruct (pick a) as [x|] eqn:Ex; [|by eauto].
  destruct (transport_next lo t a rest Ht Ea) as (lo' & Hl & Hok & Hlo). exists lo'. split.
  - split; [done|done|cbn; rewrite Ea; cbn; lia| |done]. exists []. by rewrite app_nil_r.
  - by exists a.
Qed.

Lemma now_spec P lo t :
  transport_ok lo t →
  spec P lo now (λ n lo' t', lo' = n ∧ t' = t <| answers := answers t' |> ∧ length (answers t') < length (answers t)) t.
Proof.
  intros Ht. eapply spec_mono; [by apply ask_spec|]. intros n lo' t' _ (a & Hp & Ea & Et & Hl).
  destruct a; simplify_eq/=. rewrite Ea. split_and!; [done|done|cbn; lia].
Qed.

(** Recording what the socket took or gave. *)
Lemma spec_record {A} P lo (m : stm FramedTransport (failure ClientStop) A) f Q t :
  transport_ok lo t →
  answers (f t) = answers t → polls (f t) = polls t → received t `prefix_of` received (f t) →
  spec P lo m Q (f t) → spec P lo (_ ← modify f; m) Q t.
Proof.
  intros Ht Ea Ew Er Hm. apply wp_modify. unfold spec in Hm.
  assert (∀ lo' t', after P lo (f t) lo' t' → after P lo t lo' t') as Hx.
  { intros lo' t' [? ? Ha (ws & Hw & ?) ?]. rewrite Ea in Ha. rewrite Ew in Hw. split; try done; [by exists ws|by etransitivity]. }
  eapply wp_mono; [exact Hm| |].
  - intros a t' (lo' & Ha & Hq). exists lo'. auto.
  - intros e t' (He & lo' & Ha). eauto.
Qed.

Lemma send_io_spec P lo bytes t :
  transport_ok lo t →
  spec P lo (send_io bytes) (λ r lo' t', lo' = lo ∧ length (answers t') < length (answers t)
    ∧ input t' = input t ∧ received t' = received t
    ∧ sent t' = sent t ++ match r with Ok n => take n bytes | Err _ => [] end) t.
Proof.
  intros Ht. unfold send_io. eapply spec_bind; [by apply ask_spec|].
  intros r lo' t' Ha (a & Hp & Ea & Et & Hl). destruct a as [|r'| |]; simplify_eq/=. rewrite Et.
  apply spec_record; [by rewrite <-Et; apply Ha|done|done|by cbn; try apply prefix_app_r|].
  apply spec_ret; [by rewrite Et in Ha; destruct Ha as [_ [] _ _ _]|].
  cbn. rewrite Ea. cbn. split_and!; [done|lia|done..].
Qed.

Lemma receive_io_spec P lo t :
  transport_ok lo t →
  spec P lo receive_io (λ r lo' t', lo' = lo ∧ length (answers t') < length (answers t)
    ∧ input t' = input t ∧ partial_deadline t' = partial_deadline t ∧ sent t' = sent t
    ∧ received t' = received t ++ match r with Ok bytes => bytes | Err _ => [] end) t.
Proof.
  intros Ht. unfold receive_io. eapply spec_bind; [by apply ask_spec|].
  intros r lo' t' Ha (a & Hp & Ea & Et & Hl). destruct a as [| |r'|]; simplify_eq/=. rewrite Et.
  apply spec_record; [by rewrite <-Et; apply Ha|done|done|by cbn; try apply prefix_app_r|].
  apply spec_ret; [by rewrite Et in Ha; destruct Ha as [_ [] _ _ _]|].
  cbn. rewrite Ea. cbn. split_and!; [done|lia|done..].
Qed.

Lemma short_timespec d : (d <= EXCHANGE_TIMEOUT)%N → is_ok (timespec d) = true.
Proof.
  intros Hd. unfold timespec. rewrite (proj2 (Z.leb_le _ _)); [done|].
  assert (d / 1000000000 <= 2)%N by (apply N.Div0.div_le_upper_bound; unfold EXCHANGE_TIMEOUT in Hd; lia).
  unfold i64_max. lia.
Qed.

(** The transport's own data is left alone. *)
Definition still (t t' : FramedTransport) : Prop :=
  input t' = input t ∧ partial_deadline t' = partial_deadline t ∧ received t' = received t ∧ sent t' = sent t.

#[export] Instance still_preorder : PreOrder still.
Proof. split; [by intros t|]. intros t1 t2 t3 (?&?&?&?) (?&?&?&?). split_and!; congruence. Qed.

Lemma poll_io_spec (P : nat * option N → Prop) lo timeout t :
  transport_ok lo t → P (length (input t), timeout) → (∀ d, timeout = Some d → (d <= EXCHANGE_TIMEOUT)%N) →
  spec P lo (poll_io timeout) (λ r lo' t', lo' = lo ∧ still t t' ∧ length (answers t') < length (answers t)) t.
Proof.
  intros Ht HP Hd. unfold poll_io.
  eapply spec_bind with (Q := λ _ lo' t', lo' = lo ∧ t' = t).
  { destruct timeout as [d|]; [|by apply spec_ret]. specialize (Hd d eq_refl). apply short_timespec in Hd.
    destruct (timespec d) as [ts|]; [|done]. by apply spec_ret. }
  intros _ lo' t' _ [-> ->]. apply wp_modify.
  assert (∀ lo' t', after P lo (t <| polls := polls t ++ [(length (input t), timeout)] |>) lo' t' → after P lo t lo' t') as Hx.
  { intros lo' t' [? ? Ha (ws & Hw & ?) ?]. split; try done. exists ((length (input t), timeout) :: ws).
    cbn in Hw. rewrite Hw, <-app_assoc. split; [done|by constructor]. }
  eapply wp_mono; [apply (ask_spec P lo); by destruct Ht| |].
  - intros r t' (lo' & Ha & a & Hp & Ea & Et & Hl). exists lo'. split; [by apply Hx|].
    cbn in *. rewrite Ea, Et. destruct a; simplify_eq/=. split_and!; [done|by split_and!|lia].
  - intros e t' (He & lo' & Ha). eauto.
Qed.

(** [ensure_before]: what is left of a deadline within reach is a bounded wait. *)
Lemma ensure_before_spec P lo d phase t :
  transport_ok lo t → (d <= lo + EXCHANGE_TIMEOUT)%N →
  spec P lo (ensure_before d phase)
    (λ r lo' t', (0 < r <= EXCHANGE_TIMEOUT)%N ∧ still t t' ∧ length (answers t') < length (answers t)) t.
Proof.
  intros Ht Hd. unfold ensure_before. eapply spec_bind; [by apply now_spec|].
  intros n lo' t' Ha (-> & Et & Hl). apply spec_of_client; [apply Ha|]. intros r. unfold remaining_at.
  destruct (N.leb_spec d n); [done|]. intros [= <-]. destruct Ha as [Hn _ _ _ _].
  split_and!; [lia|lia|rewrite Et; by split_and!|done].
Qed.

Lemma ensure_active_spec P lo deadline phase t :
  transport_ok lo t → (∀ d, deadline = Some d → d <= lo + EXCHANGE_TIMEOUT)%N →
  spec P lo (ensure_active deadline phase)
    (λ r lo' t', (is_Some r ↔ is_Some deadline) ∧ (∀ d, r = Some d → 0 < d <= EXCHANGE_TIMEOUT)%N
       ∧ still t t' ∧ length (answers t') ≤ length (answers t)) t.
Proof.
  intros Ht Hd. unfold ensure_active. destruct deadline as [d|].
  - eapply spec_bind; [by apply ensure_before_spec; [|apply Hd]|]. intros r lo' t' Ha (Hr & Hs & Hl).
    apply spec_ret; [apply Ha|]. split_and!; [split; eauto|by intros ? [= <-]|done|lia].
  - apply spec_ret; [done|]. split_and!; [done|done|done|lia].
Qed.

(** The waits a deadline allows: none at all without one, unless nothing is buffered. *)
Definition may_wait (deadline : option N) (t : FramedTransport) (P : nat * option N → Prop) : Prop :=
  (∀ b d, (0 < d <= EXCHANGE_TIMEOUT)%N → P (b, Some d)) ∧ (deadline = None → P (length (input t), None)).

Lemma poll_until_spec P deadline phase fuel lo t :
  transport_ok lo t → (∀ d, deadline = Some d → d <= lo + EXCHANGE_TIMEOUT)%N → may_wait deadline t P →
  length (answers t) < fuel →
  spec P lo (poll_until fuel deadline phase) (λ _ lo' t', still t t' ∧ length (answers t') < length (answers t)) t.
Proof.
  intros Ht Hd HP. revert lo t Ht Hd HP. induction fuel as [|fuel IH]; intros lo t Ht Hd HP Hf; [lia|].
  cbn [poll_until]. eapply spec_bind; [by apply ensure_active_spec|].
  intros timeout lo1 t1 Ha1 (Hs1 & Hb1 & Hst1 & Hl1).
  eapply spec_bind; [apply poll_io_spec; [apply Ha1| |]|].
  { destruct Hst1 as (Ei & _). rewrite Ei. destruct timeout as [d|]; [by apply HP, Hb1|].
    apply HP. destruct deadline; [|done]. by destruct (proj2 Hs1 ltac:(eauto)). }
  { intros d Hdd. by apply Hb1. }
  intros r lo2 t2 Ha2 (-> & Hst2 & Hl2). assert (∀ d, deadline = Some d → d <= lo1 + EXCHANGE_TIMEOUT)%N as Hd'.
  { intros d Hdd. specialize (Hd d Hdd). destruct Ha1. lia. }
  destruct r as [[|n]|errno].
  - apply spec_fail, Ha2.
  - eapply spec_bind; [apply ensure_active_spec; [apply Ha2|done]|]. intros _ lo3 t3 Ha3 (_ & _ & Hst3 & Hl3).
    apply spec_ret; [apply Ha3|]. split; [by do 2 (etransitivity; [eassumption|])|lia].
  - case_decide; [|apply spec_fail, Ha2]. assert (input t2 = input t) as Ei by (destruct Hst1, Hst2; congruence).
    eapply spec_mono; [apply IH; [apply Ha2|done|unfold may_wait; by rewrite Ei|lia]|].
    intros _ lo3 t3 _ [Hst3 Hl3]. split; [by do 2 (etransitivity; [eassumption|])|lia].
Qed.

Lemma spec_with_fuel {A} P lo (f : nat → stm FramedTransport (failure ClientStop) A) Q t :
  spec P lo (f (S (length (answers t)))) Q t → spec P lo (with_fuel f) Q t.
Proof. done. Qed.

(** ** Frames *)

Section frames.
Context `{JsonErrors, !Wire Request, !Wire Response, !Wire Event}.

Lemma send_loop_spec fuel rest deadline phase lo t :
  transport_ok lo t → (deadline <= lo + EXCHANGE_TIMEOUT)%N → length (answers t) < fuel →
  spec bounded_wait lo (send_loop fuel rest deadline phase)
    (λ _ lo' t', sent t' = sent t ++ rest ∧ input t' = input t ∧ received t' = received t) t.
Proof.
  revert rest lo t. induction fuel as [|fuel IH]; intros rest lo t Ht Hd Hf; [lia|].
  destruct rest as [|c rest]; cbn [send_loop]; [by apply spec_ret; [|rewrite app_nil_r]|].
  set (bytes := c :: rest) in *.
  eapply spec_bind; [by apply ensure_before_spec|]. intros _ lo1 t1 Ha1 (_ & (Ei1 & _ & Er1 & Es1) & Hl1).
  eapply spec_bind; [apply send_io_spec, Ha1|]. intros r lo2 t2 Ha2 (-> & Hl2 & Ei2 & Er2 & Es2).
  assert (deadline <= lo1 + EXCHANGE_TIMEOUT)%N as Hd1 by (destruct Ha1; lia).
  destruct r as [[|n]|errno].
  - apply spec_fail, Ha2.
  - destruct (Nat.leb_spec (S n) (length bytes)); [|apply spec_fail, Ha2].
    eapply spec_mono; [apply IH; [apply Ha2|done|lia]|]. intros _ lo3 t3 _ (Es3 & Ei3 & Er3).
    rewrite Es3, Es2, Es1, <-app_assoc, take_drop. split_and!; congruence.
  - rewrite app_nil_r in Es2.
    case_decide; [|case_decide; [|apply spec_fail, Ha2]].
    + eapply spec_mono; [apply IH; [apply Ha2|done|lia]|]. intros _ lo3 t3 _ (Es3 & Ei3 & Er3).
      split_and!; congruence.
    + eapply spec_bind.
      { apply spec_with_fuel, poll_until_spec; [apply Ha2|by intros ? [= <-]|by split|lia]. }
      intros _ lo3 t3 Ha3 ((Ei3 & _ & Er3 & Es3) & Hl3).
      eapply spec_mono; [apply IH; [apply Ha3|destruct Ha3; lia|lia]|]. intros _ lo4 t4 _ (Es4 & Ei4 & Er4).
      split_and!; congruence.
Qed.

(** A frame: one line feed, at its end, within the limit. *)
Definition is_line (frame : list N) : Prop :=
  length frame ≤ MAX_FRAME_BYTES ∧ ∃ body, frame = body ++ [10%N] ∧ 10%N ∉ body.

Lemma split_line_Some bytes line rest :
  split_line bytes = Some (line, rest) → bytes = line ++ rest ∧ ∃ body, line = body ++ [10%N] ∧ 10%N ∉ body.
Proof.
  revert line. induction bytes as [|c bytes IH]; intros line; cbn [split_line]; [done|].
  destruct (N.eqb_spec c 10) as [->|Hc].
  - intros [= <- <-]. split; [done|]. exists []. split; [done|by apply not_elem_of_nil].
  - destruct (split_line bytes) as [[line' rest']|]; [|done]. intros [= <- <-].
    destruct (IH line' eq_refl) as (-> & body & -> & Hb). split; [done|]. exists (c :: body). split; [done|].
    by apply not_elem_of_cons.
Qed.

Lemma split_line_line body rest : 10%N ∉ body → split_line (body ++ 10%N :: rest) = Some (body ++ [10%N], rest).
Proof.
  induction body as [|c body IH]; [done|]. intros [Hc Hb]%not_elem_of_cons. cbn.
  rewrite (proj2 (N.eqb_neq c 10)) by done. by rewrite IH.
Qed.

Lemma buffer_input_spec P lo bytes t :
  transport_ok lo t → length (input t) + length bytes ≤ MAX_FRAME_BYTES → bytes ≠ [] →
  spec P lo (buffer_input bytes)
    (λ _ lo' t', input t' = input t ++ bytes ∧ received t' = received t ∧ sent t' = sent t) t.
Proof.
  intros Ht Hl Hb. unfold buffer_input. apply wp_getS. case_decide as Hi.
  - eapply spec_bind; [by apply now_spec|]. intros n lo' t' Ha (-> & Et & Hlen).
    exists n. rewrite Et in *. destruct Ha as [_ [Hc _ _ _] _ _ _]. split; [|cbn; by rewrite Hi].
    apply after_local; [|done|done|done]. split; cbn; [done|rewrite Hi in Hl; cbn in Hl; lia|done|by intros ? [= <-]].
  - exists lo. split; [|done]. apply after_local; [|done|done|done]. destruct Ht as [Hc _ Hp Hd].
    split; cbn; [done|by rewrite length_app| |done]. split; [by intros ?%Hp|by intros [? _]%app_eq_nil].
Qed.

(** The waits a read may make. *)
Definition reads_within (bound : ReadBound) (lo : N) (P : nat * option N → Prop) : Prop :=
  (∀ b d, (0 < d <= EXCHANGE_TIMEOUT)%N → P (b, Some d))
  ∧ match bound with BoundDeadline d => (d <= lo + EXCHANGE_TIMEOUT)%N | BoundSubscription => P (0, None) end.

Lemma reads_later bound lo lo' P : (lo <= lo')%N → reads_within bound lo P → reads_within bound lo' P.
Proof. intros Hl [HP Hb]. split; [done|]. destruct bound; [lia|done]. Qed.

Lemma reads_deadline bound lo P t :
  reads_within bound lo P → transport_ok lo t →
  (∀ d, active_deadline bound t = Some d → d <= lo + EXCHANGE_TIMEOUT)%N ∧ may_wait (active_deadline bound t) t P.
Proof.
  intros [HP Hb] [_ _ Hp Hd]. destruct bound as [d|]; cbn; (split; [|split; [done|]]).
  - by intros ? [= <-].
  - done.
  - done.
  - intros ->%Hp. exact Hb.
Qed.

Lemma read_frame_spec P fuel bound phase lo t :
  transport_ok lo t → reads_within bound lo P → length (answers t) < fuel →
  spec P lo (read_frame fuel bound phase)
    (λ frame lo' t', is_line frame ∧ sent t' = sent t
       ∧ ∃ new, received t' = received t ++ new ∧ input t ++ new = frame ++ input t') t.
Proof.
  revert lo t. induction fuel as [|fuel IH]; intros lo t Ht Hb Hf; [lia|]. cbn [read_frame]. apply wp_getS.
  destruct (split_line (input t)) as [[frame rest]|] eqn:Hs.
  - apply split_line_Some in Hs as [Ei Hline]. destruct Ht as [Hc Hl Hp Hd].
    assert (transport_ok lo (take_line frame rest t)) as Hok.
    { unfold take_line. rewrite Ei, length_app in Hl. case_decide as Hr.
      - split; cbn; [done|lia|done|done].
      - split; cbn; [done|lia| |done]. split; [|done]. intros Hn%Hp. rewrite Ei in Hn. by apply app_eq_nil in Hn as [_ ?]. }
    apply wp_modify. exists lo. split.
    { apply after_local; [done|by unfold take_line; case_decide..]. }
    split_and!; [split; [rewrite Ei, length_app in Hl; lia|done]|by unfold take_line; case_decide|].
    exists []. rewrite !app_nil_r. split; [by unfold take_line; case_decide|]. rewrite Ei. by unfold take_line; case_decide.
  - destruct (Nat.leb_spec MAX_FRAME_BYTES (length (input t))) as [|Hlt]; [by apply spec_fail|]. cbv zeta.
    destruct (reads_deadline _ _ _ _ Hb Ht) as [Hd Hw].
    eapply spec_bind; [by apply ensure_active_spec|]. intros _ lo1 t1 Ha1 (_ & _ & (Ei1 & Ep1 & Er1 & Es1) & Hl1).
    eapply spec_bind; [apply receive_io_spec, Ha1|]. intros r lo2 t2 Ha2 (-> & Hl2 & Ei2 & Ep2 & Es2 & Er2).
    assert (reads_within bound lo1 P) as Hb1 by (eapply reads_later; [|done]; apply Ha1).
    assert (∀ lo3 t3, (lo1 <= lo3)%N → transport_ok lo3 t3 → input t3 = input t → received t3 = received t → sent t3 = sent t →
      length (answers t3) < fuel →
      spec P lo3 (read_frame fuel bound phase) (λ frame lo' t', is_line frame ∧ sent t' = sent t
       ∧ ∃ new, received t' = received t ++ new ∧ input t ++ new = frame ++ input t') t3) as Hloop.
    { intros lo3 t3 Hlo Hok Ei3 Er3 Es3 Hf3. rewrite <-Ei3, <-Er3, <-Es3. apply IH; [done|by eapply reads_later|done]. }
    destruct r as [[|c bytes]|errno].
    + apply spec_fail, Ha2.
    + destruct (Nat.leb_spec (length (c :: bytes)) (read_capacity t)) as [Hcap|]; [|apply spec_fail, Ha2].
      unfold read_capacity in Hcap.
      eapply spec_bind; [apply buffer_input_spec; [apply Ha2|rewrite Ei2, Ei1; lia|done]|].
      intros _ lo3 t3 Ha3 (Ei3 & Er3 & Es3).
      eapply spec_mono; [apply IH; [apply Ha3|by eapply reads_later; [apply Ha3|]|destruct Ha3; lia]|].
      intros frame lo4 t4 _ (Hline & Es4 & new & Er4 & Ei4). split_and!; [done|congruence|].
      exists ((c :: bytes) ++ new). rewrite Er4, Er3, Er2, Er1, <-app_assoc. split; [done|].
      rewrite <-Ei4, Ei3, Ei2, Ei1. by rewrite <-app_assoc.
    + rewrite app_nil_r in Er2. case_decide; [|case_decide; [|apply spec_fail, Ha2]].
      * apply Hloop; [done|apply Ha2|congruence..|lia].
      * eapply spec_bind.
        { apply spec_with_fuel, poll_until_spec; [apply Ha2| | |lia].
          - intros d Hdd. specialize (Hd d Hdd). destruct Ha1. lia.
          - unfold may_wait. rewrite Ei2, Ei1. exact Hw. }
        intros _ lo3 t3 Ha3 ((Ei3 & _ & Er3 & Es3) & Hl3). apply Hloop; [apply Ha3|apply Ha3|congruence..|lia].
Qed.

(** ** The calls *)

Context `{!WireText Request}.

Lemma spec_result {A C} P lo (r : result A (failure ClientStop)) (k : A → stm FramedTransport (failure ClientStop) C) Q t :
  transport_ok lo t → r ≠ Err Panic → r ≠ Err (Raise Spinning) → (∀ a, r = Ok a → spec P lo (k a) Q t) →
  spec P lo (λ t, match r with Ok a => k a t | Err e => (Err e, t) end) Q t.
Proof.
  intros Ht Hp Hs Hk. destruct r as [a|[e|]]; [by apply Hk| |done].
  split; [by intros ->|]. exists lo. by apply after_refl.
Qed.

Lemma encode_no_panic r phase :
  encode_request r phase ≠ Err Panic ∧ encode_request r phase ≠ Err (Raise Spinning)
  ∧ ∀ frame, encode_request r phase = Ok frame → encode r = Ok frame.
Proof.
  destruct (encode_bytes_ok r) as (o & Ho & _). unfold encode_bytes in Ho. unfold encode_request.
  destruct (encode r) as [frame|[[]|]]; cbn; [..|done]; (split_and!; [done|done|]); [by intros ? [= ->]|done|done].
Qed.

(** A request goes out whole before anything is read. *)
Lemma send_request_spec r deadline phase lo t :
  transport_ok lo t → (deadline <= lo + EXCHANGE_TIMEOUT)%N →
  spec bounded_wait lo (send_request r deadline phase)
    (λ _ lo' t', ∃ frame, encode r = Ok frame ∧ sent t' = sent t ++ str_bytes frame
       ∧ input t' = input t ∧ received t' = received t) t.
Proof.
  intros Ht Hd. destruct (encode_no_panic r phase) as (Hp & Hs & Hok).
  apply (spec_result bounded_wait lo (encode_request r phase)
    (λ frame, with_fuel (λ n, send_loop n (str_bytes frame) deadline phase))); [done..|].
  intros frame He. apply spec_with_fuel. eapply spec_mono; [apply send_loop_spec; [done|done|lia]|].
  intros _ lo' t' _ (? & ? & ?). exists frame. auto.
Qed.

Lemma read_spec {T} `{!Wire T} P bound phase lo t :
  transport_ok lo t → reads_within bound lo P →
  spec P lo (frame ← with_fuel (λ n, read_frame n bound phase); of_client (decode_frame (T:=T) frame phase))
    (λ v lo' t', sent t' = sent t ∧ ∃ frame new, is_line frame ∧ decode_frame frame phase = Ok v
       ∧ received t' = received t ++ new ∧ input t ++ new = frame ++ input t') t.
Proof.
  intros Ht Hb. eapply spec_bind; [apply spec_with_fuel, read_frame_spec; [done|done|lia]|].
  intros frame lo' t' Ha (Hline & Es & new & Er & Ei). apply spec_of_client; [apply Ha|].
  intros v Hv. split; [done|]. by exists frame, new.
Qed.

(** An exchange: the whole request, and the next line as the answer. *)
Definition exchanged {T} `{!Wire T} (r : Request) (phase : ClientPhase) (v : T) t t' : Prop :=
  ∃ frame line new, encode r = Ok frame ∧ sent t' = sent t ++ str_bytes frame
    ∧ is_line line ∧ decode_frame line phase = Ok v
    ∧ received t' = received t ++ new ∧ input t ++ new = line ++ input t'.

Lemma exchange_spec {T} `{!Wire T} r write read lo t :
  transport_ok lo t →
  spec bounded_wait lo
    (n ← now; _ ← send_request r (n + EXCHANGE_TIMEOUT)%N write;
     frame ← with_fuel (λ m, read_frame m (BoundDeadline (n + EXCHANGE_TIMEOUT)%N) read);
     of_client (decode_frame (T:=T) frame read))
    (λ v lo' t', exchanged r read v t t') t.
Proof.
  intros Ht. eapply spec_bind; [by apply now_spec|]. intros n lo1 t1 Ha1 (-> & Et1 & _).
  eapply spec_bind; [by apply send_request_spec; [apply Ha1|]|].
  intros _ lo2 t2 Ha2 (frame & He & Es2 & Ei2 & Er2).
  eapply spec_mono; [apply read_spec; [apply Ha2|split; [done|destruct Ha2; lia]]|].
  intros v lo3 t3 _ (Es3 & line & new & Hline & Hv & Er3 & Ei3).
  rewrite Et1 in Es2, Ei2, Er2. cbn in *. exists frame, line, new. split_and!; congruence.
Qed.

(** ** The subscription *)

(** The loop over the iterator, at most [n] items of it. *)
Fixpoint drain (n : nat) (s : Subscription) : stm FramedTransport (failure ClientStop) (list (result Event ClientError)) :=
  match n with
  | O => mret []
  | S n' =>
      x ← next_item s;
      match x.1 with
      | None => mret []
      | Some r => rs ← drain n' x.2; mret (r :: rs)
      end
  end.

(** Items read off the stream: the decoded lines in order, and an error at the end, if
    any; nothing comes after a shutdown. *)
Definition follows_stream (items : list (result Event ClientError)) t t' : Prop :=
  ∃ evs lines new tail, items = (Ok <$> evs) ++ tail ∧ (tail = [] ∨ ∃ e, tail = [Err e])
    ∧ received t' = received t ++ new ∧ concat lines `prefix_of` input t ++ new
    ∧ Forall2 (λ line ev, is_line line ∧ decode_frame line SubscriptionEvent = Ok ev) lines evs
    ∧ ∀ i, items !! i = Some (Ok EventShutdown) → S i = length items.

Lemma follows_nothing t t' : received t `prefix_of` received t' → follows_stream [] t t'.
Proof.
  intros [new Er]. exists [], [], new, []. split_and!; [done|by left|done|apply prefix_nil|done|done].
Qed.

Lemma drain_finished n s lo t : finished s = true → transport_ok lo t → spec patient_wait lo (drain n s) (λ items _ t', items = [] ∧ t' = t) t.
Proof.
  intros Hf Ht. destruct n as [|n]; cbn [drain]; [by apply spec_ret|].
  assert (next_item s t = (Ok (None, s), t)) as Hn by (unfold next_item; by rewrite Hf).
  apply wp_bind. eapply wp_eq; [exact Hn|]. by apply spec_ret.
Qed.

(** One item that is no pending event. *)
Lemma next_item_spec lo t :
  transport_ok lo t →
  spec patient_wait lo (next_item (mk_subscription None false))
    (λ x lo' t', ∃ r, x = (Some r, mk_subscription None (ends r))
       ∧ match r with
         | Ok ev => ∃ frame new, is_line frame ∧ decode_frame frame SubscriptionEvent = Ok ev
             ∧ received t' = received t ++ new ∧ input t ++ new = frame ++ input t'
         | Err _ => True
         end) t.
Proof.
  intros Ht. assert (reads_within BoundSubscription lo patient_wait) as Hb by by split.
  pose proof (read_spec (T:=Event) patient_wait BoundSubscription SubscriptionEvent lo t Ht Hb) as Hr.
  unfold spec, wp, next_item in *. cbn [finished pending]. unfold read_event.
  match goal with |- context [(?m ≫= ?k) t] => destruct ((m ≫= k) t) as [[ev|[[e| |]|]] t'] end.
  all: try exact Hr.
  - destruct Hr as (lo' & Ha & _ & frame & new & Hf). exists lo'. split; [done|]. exists (Ok ev). split; [done|].
    by exists frame, new.
  - destruct Hr as (_ & lo' & Ha). exists lo'. split; [done|]. by exists (Err e).
Qed.

Lemma drain_spec n lo t :
  transport_ok lo t →
  spec patient_wait lo (drain n (mk_subscription None false)) (λ items lo' t', follows_stream items t t') t.
Proof.
  revert lo t. induction n as [|n IH]; intros lo t Ht; cbn [drain]; [by apply spec_ret, follows_nothing|].
  eapply spec_bind; [by apply next_item_spec|]. intros x lo1 t1 Ha1 (r & -> & Hr). cbn [fst snd].
  destruct (ends r) eqn:He.
  - eapply spec_bind; [apply drain_finished; [done|apply Ha1]|]. intros rs lo2 t2 Ha2 [-> ->].
    apply spec_ret; [apply Ha2|]. destruct r as [ev|e].
    + destruct ev as [st|]; [done|]. destruct Hr as (frame & new & Hl & Hd & Er & Ei).
      exists [EventShutdown], [frame], new, []. split_and!; [done|by left|done| |by constructor; [|constructor]|].
      * cbn. rewrite app_nil_r, Ei. by apply prefix_app_r.
      * by intros [|i] Hi.
    + destruct (af_received _ _ _ _ _ Ha1) as [new Er]. exists [], [], new, [Err e].
      split_and!; [done|right; by exists e|done|apply prefix_nil|done|].
      by intros [|i] Hi.
  - destruct r as [[st|]|e]; try done. destruct Hr as (frame & new & Hl & Hd & Er & Ei).
    eapply spec_bind; [apply IH, Ha1|].
    intros rs lo2 t2 Ha2 (evs & lines & new' & tail & -> & Htail & Er' & Hpre & Hall & Hsh).
    apply spec_ret; [apply Ha2|]. exists (EventState st :: evs), (frame :: lines), (new ++ new'), tail.
    split_and!; [done|done|by rewrite Er', Er, app_assoc| |by constructor|].
    + cbn [concat]. rewrite app_assoc, Ei, <-app_assoc. by apply prefix_app.
    + intros [|i] Hi; [done|]. cbn in *. f_equal. by apply Hsh.
Qed.

(** ** Every call *)

Inductive ClientCall :=
| CallConnect (connected : result unit Z) (socket_error : result (result unit Z) Z) (client : rstring)
| CallHello (client : rstring)
| CallRequest (r : Request)
| CallSubscribe
| CallDrain (n : nat) (s : Subscription).

Definition run_client (c : ClientCall) : stm FramedTransport (failure ClientStop) unit :=
  match c with
  | CallConnect connected socket_error client => connect connected socket_error client
  | CallHello client => complete_hello client
  | CallRequest r => _ ← request r; mret tt
  | CallSubscribe => _ ← subscribe; mret tt
  | CallDrain n s => _ ← drain n s; mret tt
  end.

(** Only a subscription waits without a bound, and only with nothing buffered. *)
Definition wait_of (c : ClientCall) : nat * option N → Prop :=
  match c with CallDrain _ _ => patient_wait | _ => bounded_wait end.

Lemma hello_spec client lo t : transport_ok lo t → spec bounded_wait lo (complete_hello client) (λ _ _ _, True) t.
Proof.
  intros Ht. unfold complete_hello.
  eapply spec_bind; [by apply now_spec|]. intros n lo1 t1 Ha1 (-> & _ & _). cbv zeta.
  eapply spec_bind; [by apply send_request_spec; [apply Ha1|]|]. intros _ lo2 t2 Ha2 _.
  eapply spec_bind; [apply read_spec; [apply Ha2|split; [done|destruct Ha2; lia]]|].
  intros v lo3 t3 Ha3 _. destruct v; try apply spec_fail, Ha3. case_match; [by apply spec_ret; [apply Ha3|]|apply spec_fail, Ha3].
Qed.

Lemma connect_spec connected socket_error client lo t :
  transport_ok lo t → spec bounded_wait lo (connect connected socket_error client) (λ _ _ _, True) t.
Proof.
  intros Ht. unfold connect. eapply spec_bind; [by apply now_spec|]. intros n lo1 t1 Ha1 (-> & _ & _).
  eapply (spec_bind _ _ _ _ (λ _ _ _, True)); [|intros _ lo2 t2 Ha2 _; apply hello_spec, Ha2].
  destruct connected as [[]|errno]; [by apply spec_ret; [apply Ha1|]|].
  case_decide; [|apply spec_fail, Ha1].
  eapply spec_bind.
  { apply spec_with_fuel, poll_until_spec; [apply Ha1| |by split|lia].
    intros d [= <-]. unfold CONNECT_TIMEOUT, EXCHANGE_TIMEOUT. lia. }
  intros _ lo2 t2 Ha2 _. destruct socket_error as [[[]|e]|e]; [by apply spec_ret; [apply Ha2|]|apply spec_fail, Ha2..].
Qed.

Lemma request_spec r lo t :
  transport_ok lo t → spec bounded_wait lo (request r) (λ v _ t', exchanged r ResponseRead v t t') t.
Proof.
  intros Ht. pose proof (exchange_spec (T:=Response) r RequestWrite ResponseRead lo t Ht) as Hx.
  destruct r; try exact Hx; by apply spec_fail.
Qed.

Lemma subscribe_spec lo t :
  transport_ok lo t →
  spec bounded_wait lo subscribe (λ v _ t', exchanged ReqSubscribe InitialStateRead v t t' ∧ ∃ st, v = EventState st) t.
Proof.
  intros Ht. unfold subscribe, read_event.
  eapply spec_bind; [by apply now_spec|]. intros n lo1 t1 Ha1 (-> & Et1 & _). cbv zeta.
  eapply spec_bind; [by apply send_request_spec; [apply Ha1|]|]. intros _ lo2 t2 Ha2 (frame & He & Es2 & Ei2 & Er2).
  eapply spec_bind; [apply (read_spec (T:=Event)); [apply Ha2|split; [done|destruct Ha2; lia]]|].
  intros v lo3 t3 Ha3 (Es3 & line & new & Hline & Hv & Er3 & Ei3). rewrite Et1 in Es2, Ei2, Er2. cbn in *.
  destruct v as [st|]; [|apply spec_fail, Ha3]. apply spec_ret; [apply Ha3|]. split; [|by exists st].
  exists frame, line, new. split_and!; congruence.
Qed.

Lemma drain_any n s lo t : transport_ok lo t → spec patient_wait lo (drain n s) (λ _ _ _, True) t.
Proof.
  intros Ht. destruct (finished s) eqn:Hf.
  { eapply spec_mono; [by apply drain_finished|done]. }
  destruct s as [[ev|] f]; cbn in Hf; subst f; [|eapply spec_mono; [by apply drain_spec|done]].
  destruct n as [|n]; cbn [drain]; [by apply spec_ret|].
  apply wp_bind. eapply wp_eq; [reflexivity|]. cbn [fst snd].
  eapply (spec_bind _ _ _ _ (λ _ _ _, True)); [|intros rs lo' t' Ha _; by apply spec_ret; [apply Ha|]].
  destruct (ends (Ok ev)) eqn:He; [eapply spec_mono; [by apply drain_finished|done]|eapply spec_mono; [by apply drain_spec|done]].
Qed.

Lemma run_client_spec c lo t : transport_ok lo t → spec (wait_of c) lo (run_client c) (λ _ _ _, True) t.
Proof.
  intros Ht. destruct c; cbn [run_client wait_of].
  - by apply connect_spec.
  - by apply hello_spec.
  - eapply spec_bind; [by apply request_spec|]. intros v lo' t' Ha _. by apply spec_ret; [apply Ha|].
  - eapply spec_bind; [by apply subscribe_spec|]. intros v lo' t' Ha _. by apply spec_ret; [apply Ha|].
  - eapply spec_bind; [by apply drain_any|]. intros v lo' t' Ha _. by apply spec_ret; [apply Ha|].
Qed.

(** C34. Every call of the client ends and waits within bounds.  Whatever the socket and
    the clock answer, no call panics and no loop runs on without an answer; every poll
    of a connect, a handshake, a request or a subscribe has a timeout of at most the
    exchange's, and a subscription polls without one only while no part of a frame is
    buffered; and the buffer never exceeds a frame, with a deadline exactly while it is
    not empty. *)
Theorem client_calls_are_bounded c lo t :
  transport_ok lo t →
  match run_client c t with
  | (Err Panic, _) | (Err (Raise Spinning), _) => False
  | (_, t') => ∃ lo' ws, (lo <= lo')%N ∧ transport_ok lo' t'
      ∧ polls t' = polls t ++ ws ∧ Forall (wait_of c) ws
  end.
Proof.
  intros Ht. pose proof (run_client_spec c lo t Ht) as Hs. unfold spec, wp in Hs.
  destruct (run_client c t) as [[[]|[e|]] t']; [| |done].
  - destruct Hs as (lo' & [? ? _ (ws & ? & ?) _] & _). by exists lo', ws.
  - destruct Hs as (He & lo' & [? ? _ (ws & ? & ?) _]). destruct e; [|..|done]; by exists lo', ws.
Qed.

(** An answered request is an exchange: when [request] returns, it has sent exactly
    the one frame of the request, and the response is the decoding of the next line of
    what the socket gave, however that came in pieces; nothing of the rest is lost. *)
Theorem answered_request_is_exchange r lo t resp t' :
  transport_ok lo t → request r t = (Ok resp, t') → exchanged r ResponseRead resp t t'.
Proof.
  intros Ht Hr. pose proof (request_spec r lo t Ht) as Hs. unfold spec, wp in Hs. rewrite Hr in Hs.
  by destruct Hs as (lo' & _ & Hx).
Qed.

(** ** What a peer wrote is what the client reads *)

Lemma encode_utf8_lf c b : b ∈ encode_utf8 c → b = c ∨ (128 <= b)%N.
Proof.
  unfold encode_utf8. repeat case_match; intros Hb; apply list_elem_of_In in Hb; cbn in Hb;
    intuition (subst; auto using N.le_add_r); right; (etransitivity; [|apply N.le_add_r]); done.
Qed.

Lemma str_bytes_lf text : 10%N ∉ text → 10%N ∉ str_bytes text.
Proof.
  intros Ht (c & Hb & Hc)%list_elem_of_bind. apply encode_utf8_lf in Hb as [<-|]; [done|lia].
Qed.

(** The frame of a value serde_json writes as [text]. *)
Definition frame_of (text : rstring) : list N := str_bytes (text ++ [10%N]).

Lemma frame_of_line text : 10%N ∉ text → str_len text < MAX_FRAME_BYTES → is_line (frame_of text).
Proof.
  intros Ht Hl. unfold frame_of. rewrite str_bytes_app. split.
  - rewrite length_app, length_str_bytes. cbn. lia.
  - exists (str_bytes text). split; [done|by apply str_bytes_lf].
Qed.

Lemma decode_frame_of {T} `{!Wire T} (v : T) text phase :
  written_as v text → decode_frame (frame_of text) phase = Ok v.
Proof.
  intros [_ [Ht Hlf] Hr]. unfold decode_frame, frame_of.
  rewrite from_utf8_str_bytes by (by apply is_text_snoc_lf). unfold decode.
  rewrite trim_end_lf_snoc, trim_end_lf_id by done. by rewrite Hr.
Qed.

(** Lines cut a stream in one way. *)
Lemma line_prefix line rest frame stream :
  is_line line → is_line frame → line ++ rest `prefix_of` frame ++ stream → line = frame ∧ rest `prefix_of` stream.
Proof.
  intros [_ (b1 & -> & H1)] [_ (b2 & -> & H2)] [x Hx].
  assert (split_line (b2 ++ 10%N :: stream) = split_line (b1 ++ 10%N :: (rest ++ x))) as Hs.
  { f_equal. rewrite <-!app_assoc in Hx. exact Hx. }
  rewrite !split_line_line in Hs by done. injection Hs as Hl ->. apply app_inj_tail in Hl as [-> _].
  split; [done|]. by exists x.
Qed.

Lemma lines_prefix ls frames :
  Forall is_line ls → Forall is_line frames → concat ls `prefix_of` concat frames → ls `prefix_of` frames.
Proof.
  revert frames. induction ls as [|l ls IH]; intros frames Hl Hf Hp; [apply prefix_nil|].
  apply Forall_cons in Hl as [Hl Hls]. destruct frames as [|f frames].
  - destruct Hl as [_ (b & -> & _)]. destruct Hp as [x Hx]. cbn in Hx. by destruct b.
  - apply Forall_cons in Hf as [Hf Hfs]. apply line_prefix in Hp as [-> Hp]; [|done|done].
    by apply prefix_cons, IH.
Qed.

Lemma decoded_prefix ls (evs all : list Event) texts :
  Forall2 (λ line ev, is_line line ∧ decode_frame line SubscriptionEvent = Ok ev) ls evs →
  Forall2 (λ ev text, written_as ev text) all texts → ls `prefix_of` (frame_of <$> texts) →
  evs `prefix_of` all.
Proof.
  intros Hl. revert all texts. induction Hl as [|line ev ls evs [_ Hd] _ IH]; intros all texts Ha Hp; [apply prefix_nil|].
  destruct Ha as [|ev' text all texts Hw Ha]; [by apply prefix_nil_inv in Hp|].
  apply prefix_cons_inv_1 in Hp as Hx. apply prefix_cons_inv_2 in Hp. subst line.
  rewrite (decode_frame_of ev' text) in Hd by done. injection Hd as ->. by eapply prefix_cons, IH.
Qed.

End frames.

(** ** Witnesses *)

(** A codec with one word for each kind of message. *)
#[local] Instance demo_client_request : Wire Request := {|
  to_chunks _ := ([str_bytes (lit "ask")], None);
  from_str t := if decide (t = lit "ask") then Ok ReqGetHealth else Err false
|}.
#[local] Instance demo_client_response : Wire Response := {|
  to_chunks _ := ([str_bytes (lit "done")], None);
  from_str t := if decide (t = lit "done") then Ok RespOk else Err false
|}.
#[local] Instance demo_client_event : Wire Event := {|
  to_chunks _ := ([str_bytes (lit "bye")], None);
  from_str t := if decide (t = lit "bye") then Ok EventShutdown else Err false
|}.

#[local] Instance demo_client_text : WireText Request.
Proof. constructor. intros v. exists (lit "ask"). split; [by repeat constructor|done]. Qed.

(** A response that comes in two pieces, after a wait. *)
Definition demo_exchange : FramedTransport := new_transport
  [AnswerNow 5; AnswerNow 6; AnswerSend (Ok 4); AnswerNow 7; AnswerReceive (Err EAGAIN);
   AnswerNow 8; AnswerPoll (Err EINTR); AnswerNow 9; AnswerPoll (Ok 1); AnswerNow 10; AnswerNow 11;
   AnswerReceive (Ok (str_bytes (lit "don"))); AnswerNow 12; AnswerNow 13;
   AnswerReceive (Ok (str_bytes (lit "e" ++ [10%N]) ++ str_bytes (lit "b")))].

Lemma demo_exchange_ok : transport_ok 0 demo_exchange.
Proof. split; [repeat constructor; cbn; lia|cbn; lia|done|done]. Qed.

Definition demo_answered : result Response (failure ClientStop) * FramedTransport := request ReqBanish demo_exchange.

Lemma client_calls_are_bounded_witness :
  ∃ t', run_client (CallRequest ReqBanish) demo_exchange = (Ok tt, t') ∧ length (polls t') = 2
    ∧ (∃ lo, transport_ok lo t') ∧ Forall bounded_wait (polls t').
Proof.
  pose proof (client_calls_are_bounded (CallRequest ReqBanish) 0 demo_exchange demo_exchange_ok) as H.
  assert ((run_client (CallRequest ReqBanish) demo_exchange).1 = Ok tt
    ∧ length (polls (run_client (CallRequest ReqBanish) demo_exchange).2) = 2) as [E1 E2] by by vm_compute.
  destruct (run_client _ _) as [r t']. cbn in E1, E2. subst r. destruct H as (lo' & ws & _ & Hok & Hp & Hw).
  exists t'. split; [done|]. split; [done|]. split; [by exists lo'|]. by rewrite Hp.
Defined.

Lemma answered_request_is_exchange_witness :
  demo_answered.1 = Ok RespOk ∧ exchanged ReqBanish ResponseRead RespOk demo_exchange demo_answered.2.
Proof.
  assert (demo_answered.1 = Ok RespOk) as E by by vm_compute. split; [done|].
  apply (answered_request_is_exchange _ 0); [exact demo_exchange_ok|].
  change (demo_answered = (Ok RespOk, demo_answered.2)). rewrite <-E. by destruct demo_answered.
Defined.

Definition demo_stream : FramedTransport := new_transport
  [AnswerReceive (Ok (str_bytes (lit "by"))); AnswerNow 6; AnswerNow 7;
   AnswerReceive (Ok (str_bytes (lit "e" ++ [10%N])))].

