(* ===== verification/Worker.v ===== *)
(** * realm-session/src/worker.rs: the bounded worker

    Three threads share the worker: the event loop, which owns the handle
    [Worker] and calls its methods; the worker thread, which takes messages and
    answers each with a result; and the reaper, which waits for the children.
    They share bounded channels, a counter of owned children and the counter of
    an event descriptor.  A channel is a list with a capacity, the event counter
    is reset by a read, and spawns and file operations may fail.  Each method and
    each action of a thread on shared state is one step of the whole [System]. *)

From Stdlib Require Import ZArith Lia.
From stdpp Require Import prelude list.
From S2P Require Import Prelude Layout Ledger Projection Keys State Backend Snapshot Visible Authority Hoare.

(** ** Data *)

Definition MAX_WORKER_JOBS : nat := 256.
Definition MAX_WORKER_RESULTS : nat := 256.
#[global] Arguments MAX_WORKER_JOBS : simpl never.
#[global] Arguments MAX_WORKER_RESULTS : simpl never.

(** [WORKER_SHUTDOWN_TIMEOUT_MS], in nanoseconds. *)
Definition WORKER_SHUTDOWN_TIMEOUT : N := 2000000000.

Inductive WorkerCapacityResource := ResourceJobs | ResourceResults.

Record WorkerCapacityError := mk_capacity_error {
  resource : WorkerCapacityResource;
  limit : nat
}.

Inductive FixedConsumer := Terminal | Launcher.

Inductive ProcessJob :=
| JobSpawn (argv : list rstring)
| JobFixedConsumer (consumer : FixedConsumer).

Record SnapshotJob := mk_snapshot_job {
  job_sequence : option N;
  job_snapshot : SessionSnapshotV1
}.

Inductive WorkerMessage :=
| ReadSnapshot
| Process (job : ProcessJob)
| SnapshotAvailable
| Seal.

(** [std::io::Error]: the operating system's error number, or the one the source
    makes itself. *)
Inductive IoError := OsError (errno : Z) | EmptyArgv.

Inductive WorkerResult :=
| SnapshotRead (r : result (list N) IoError)
| SnapshotRequested
| ProcessDone (r : result unit IoError)
| SnapshotWritten (seq : option N) (r : result unit IoError)
| Fence.

Inductive FenceStatus := FencePending | Acknowledged | TimedOut.

Abbreviation WorkerReservation := nat (only parsing).

Inductive WorkerError :=
| WorkerDisconnected
| ReservationMismatch (reserved provided : nat)
| Sealed.

(** Where the worker thread is in its loop. *)
Inductive After := AfterRecv | AfterReply | AfterDone.

Inductive Thread :=
| Receiving                             (* [messages.recv()] *)
| Reading                               (* [read_snapshot_bounded] *)
| Running (job : ProcessJob)            (* [spawn_owned] *)
| Sending (r : WorkerResult) (k : After) (* [results.send] *)
| Notifying (k : After)                 (* the write to the event descriptor *)
| Awaiting                              (* [snapshots.recv()] *)
| Writing (job : SnapshotJob)           (* [write_snapshot_atomically] *)
| Stopped.

(** [struct Worker] with the other ends of what it holds: the channels, the
    event counter, the shared counter of children, the worker thread, and the
    reaper's channel and list of children. *)
Record System := mk_system {
  messages : list WorkerMessage;
  snapshot_reply : list (option SnapshotJob);
  results : list WorkerResult;
  event_counter : nat;
  pending_snapshot : option SnapshotJob;
  outstanding_process : nat;
  reserved_process : nat;
  sealed_at : option N;
  fence_acknowledged : bool;
  pending_result_notifications : nat;
  owned_children : nat;
  thread : Thread;
  child_channel : nat;
  live : nat
}.

#[export] Instance System_settable : Settable System := λ s,
  mk_system (messages s) (snapshot_reply s) (results s) (event_counter s) (pending_snapshot s)
    (outstanding_process s) (reserved_process s) (sealed_at s) (fence_acknowledged s)
    (pending_result_notifications s) (owned_children s) (thread s) (child_channel s) (live s).

Implicit Types s : System.

(** [Worker::start] *)
Definition start : System := {|
  messages := []; snapshot_reply := []; results := []; event_counter := 0;
  pending_snapshot := None; outstanding_process := 0; reserved_process := 0;
  sealed_at := None; fence_acknowledged := false; pending_result_notifications := 0;
  owned_children := 0; thread := Receiving; child_channel := 0; live := 0
|}.

(** ** The owner's methods *)

Abbreviation worker_m A := (stm System (failure WorkerError) A) (only parsing).

Definition checked_sub (a b : nat) : option nat := if b <=? a then Some (a - b) else None.

Definition stopped s : bool := match thread s with Stopped => true | _ => false end.

(** [SyncSender::try_send]: fails when the channel is full or its receiver is gone. *)
Definition try_send_message (msg : WorkerMessage) : worker_m unit := λ s,
  if (length (messages s) <? MAX_WORKER_JOBS + 2) && negb (stopped s)
  then (Ok tt, s <| messages := messages s ++ [msg] |>)
  else (Err (Raise WorkerDisconnected), s).

Definition is_sealed s : bool := bool_decide (is_Some (sealed_at s)).

Definition request_snapshot_read : worker_m unit :=
  s ← getS;
  if is_sealed s then raise Sealed else try_send_message ReadSnapshot.

Definition reserve_process_jobs (count : nat) :
    stm System (failure WorkerCapacityError) WorkerReservation :=
  s ← getS;
  let admitted := owned_children s + reserved_process s + count in
  if is_sealed s || (MAX_WORKER_JOBS <? admitted)
  then raise (mk_capacity_error ResourceJobs MAX_WORKER_JOBS)
  else
    _ ← modify (set reserved_process (λ r, r + count));
    mret count.

(** The reservation must belong to this worker: the [expect]. *)
Definition release (reservation : WorkerReservation) : worker_m unit :=
  s ← getS;
  r ← expect (checked_sub (reserved_process s) reservation);
  modify (λ s, s <| reserved_process := r |>).

Definition cancel (reservation : WorkerReservation) : worker_m unit := release reservation.

Fixpoint send_jobs (unsent : nat) (jobs : list ProcessJob) : worker_m unit :=
  match jobs with
  | [] => mret tt
  | job :: jobs' =>
      _ ← on_error (set owned_children (λ n, n - unsent)) (try_send_message (Process job));
      _ ← modify (set outstanding_process S);
      send_jobs (unsent - 1) jobs'
  end.

Definition commit (reservation : WorkerReservation) (jobs : list ProcessJob) : worker_m unit :=
  s ← getS;
  if is_sealed s then raise Sealed
  else if negb (length jobs =? reservation)
  then raise (ReservationMismatch reservation (length jobs))
  else
    _ ← release reservation;
    _ ← modify (set owned_children (λ n, n + reservation));
    send_jobs reservation jobs.

Definition submit_job (job : SnapshotJob) : worker_m unit :=
  s ← getS;
  if is_sealed s then raise Sealed
  else
    _ ← (if decide (pending_snapshot s = None) then try_send_message SnapshotAvailable else mret tt);
    modify (λ s, s <| pending_snapshot := Some job |>).

Definition submit_snapshot (seq : N) (snapshot : SessionSnapshotV1) : worker_m unit :=
  submit_job (mk_snapshot_job (Some seq) snapshot).

Definition submit_shutdown_snapshot (snapshot : SessionSnapshotV1) : worker_m unit :=
  submit_job (mk_snapshot_job None snapshot).

(** The reply channel holds one value; [take] empties the slot even on failure. *)
Definition answer_snapshot_request : worker_m unit := λ s,
  let job := pending_snapshot s in
  let s := s <| pending_snapshot := None |> in
  if (length (snapshot_reply s) <? 1) && negb (stopped s)
  then (Ok tt, s <| snapshot_reply := snapshot_reply s ++ [job] |>)
  else (Err (Raise WorkerDisconnected), s).

Definition seal (now : N) : worker_m unit :=
  s ← getS;
  if is_sealed s then mret tt
  else
    _ ← modify (λ s, s <| sealed_at := Some now |>);
    try_send_message Seal.

(** [drain_eventfd]: the read returns the counter and resets it. *)
Definition drain_eventfd s : System :=
  if pending_result_notifications s =? 0 then
    s <| pending_result_notifications := event_counter s |> <| event_counter := 0 |>
  else s.

Definition account (r : WorkerResult) : worker_m unit :=
  match r with
  | ProcessDone _ =>
      s ← getS;
      n ← expect (checked_sub (outstanding_process s) 1);
      modify (λ s, s <| outstanding_process := n |>)
  | Fence => modify (λ s, s <| fence_acknowledged := true |>)
  | _ => mret tt
  end.

Definition try_result : worker_m (option WorkerResult) :=
  _ ← modify drain_eventfd;
  s ← getS;
  if pending_result_notifications s =? 0 then mret None
  else
    match results s with
    | [] => raise WorkerDisconnected
    | r :: rest =>
        _ ← modify (λ s, s <| results := rest |> <| pending_result_notifications :=
                       pending_result_notifications s - 1 |>);
        _ ← account r;
        mret (Some r)
    end.

Definition has_results s : bool := 0 <? pending_result_notifications s.

Definition fence_deadline s : option N := (λ t, t + WORKER_SHUTDOWN_TIMEOUT)%N <$> sealed_at s.

Definition fence_status (now : N) s : FenceStatus :=
  if fence_acknowledged s then Acknowledged
  else
    match sealed_at s with
    | None => FencePending
    | Some t => if (t + WORKER_SHUTDOWN_TIMEOUT <=? now)%N then TimedOut else FencePending
    end.

(** ** The worker thread and the reaper *)

(** [match message] *)
Definition dispatch (msg : WorkerMessage) : Thread :=
  match msg with
  | ReadSnapshot => Reading
  | Process job => Running job
  | SnapshotAvailable => Sending SnapshotRequested AfterReply
  | Seal => Sending Fence AfterDone
  end.

Definition resume (k : After) : Thread :=
  match k with AfterRecv => Receiving | AfterReply => Awaiting | AfterDone => Stopped end.

(** [spawn_argv] refuses an empty vector; otherwise the system decides. *)
Definition spawn (job : ProcessJob) (outcome : result unit IoError) : result unit IoError :=
  match job with JobSpawn [] => Err EmptyArgv | _ => outcome end.

(** [spawn_owned]; [None] is [std::process::abort]. *)
Definition spawn_owned (child : result unit IoError) s : option (result unit IoError * System) :=
  match child with
  | Ok _ =>
      if child_channel s <? MAX_WORKER_JOBS
      then Some (Ok tt, s <| child_channel := S (child_channel s) |>) else None
  | Err e => Some (Err e, set owned_children (λ n, n - 1) s)
  end.

Inductive thread_step : System → System → Prop :=
| ThreadReceive s msg rest :
    thread s = Receiving → messages s = msg :: rest →
    thread_step s (s <| messages := rest |> <| thread := dispatch msg |>)
| ThreadRead s r :
    thread s = Reading → thread_step s (s <| thread := Sending (SnapshotRead r) AfterRecv |>)
| ThreadSpawn s job outcome r s' :
    thread s = Running job → spawn_owned (spawn job outcome) s = Some (r, s') →
    thread_step s (s' <| thread := Sending (ProcessDone r) AfterRecv |>)
| ThreadSend s r k :
    thread s = Sending r k → length (results s) < MAX_WORKER_RESULTS →
    thread_step s (s <| results := results s ++ [r] |> <| thread := Notifying k |>)
| ThreadNotify s k :
    thread s = Notifying k →
    thread_step s (set event_counter S s <| thread := resume k |>)
| ThreadNothing s rest :
    thread s = Awaiting → snapshot_reply s = None :: rest →
    thread_step s (s <| snapshot_reply := rest |> <| thread := Receiving |>)
| ThreadSnapshot s job rest :
    thread s = Awaiting → snapshot_reply s = Some job :: rest →
    thread_step s (s <| snapshot_reply := rest |> <| thread := Writing job |>)
| ThreadWrite s job r :
    thread s = Writing job →
    thread_step s (s <| thread := Sending (SnapshotWritten (job_sequence job) r) AfterRecv |>)
| ReaperTake s n :
    child_channel s = S n → thread_step s (s <| child_channel := n |> <| live := S (live s) |>)
| ReaperReap s n :
    live s = S n → thread_step s (set owned_children (λ c, c - 1) s <| live := n |>).
