(* ===== verification/WorkerSafety.v ===== *)
(** * The worker: invariant and guarantees

    Every interleaving of the owner's calls, the worker thread and the reaper.
    The owner holds its reservations, answers a snapshot request once, and calls
    nothing but [try_result] until the start-up read has come back, as the
    daemon's start-up does. *)

From Stdlib Require Import ZArith Lia.
From stdpp Require Import prelude list.
From S2P Require Import Prelude Layout Ledger Projection Keys State Backend Snapshot Visible Authority Hoare Worker.

(** ** Counting *)

Definition tally {A} (f : A → bool) (l : list A) : nat := sum_list_with (λ x, Nat.b2n (f x)) l.

Lemma tally_app {A} (f : A → bool) l k : tally f (l ++ k) = tally f l + tally f k.
Proof. apply sum_list_with_app. Qed.

Lemma tally_nil {A} (f : A → bool) : tally f [] = 0.
Proof. done. Qed.

Lemma tally_cons {A} (f : A → bool) x l : tally f (x :: l) = Nat.b2n (f x) + tally f l.
Proof. done. Qed.

Lemma tally_const {A B} (f : A → bool) (g : B → A) (b : bool) l :
  (∀ x, f (g x) = b) → tally f (g <$> l) = if b then length l else 0.
Proof.
  intros Hf. induction l as [|x l IH]; [by destruct b|].
  rewrite fmap_cons, tally_cons, Hf, IH. by destruct b.
Qed.

Definition is_process m := match m with Process _ => true | _ => false end.
Definition is_available m := match m with SnapshotAvailable => true | _ => false end.
Definition is_seal m := match m with Seal => true | _ => false end.
Definition is_read m := match m with ReadSnapshot => true | _ => false end.
Definition is_done r := match r with ProcessDone _ => true | _ => false end.
Definition is_requested r := match r with SnapshotRequested => true | _ => false end.
Definition is_fence r := match r with Fence => true | _ => false end.
Definition is_loaded r := match r with SnapshotRead _ => true | _ => false end.

Lemma length_messages l :
  length l = tally is_process l + tally is_available l + tally is_seal l + tally is_read l.
Proof. induction l as [|[] l IH]; [done|..]; rewrite !tally_cons; cbn; lia. Qed.

(** What the worker thread holds. *)
Definition runs (t : Thread) : nat := match t with Running _ => 1 | _ => 0 end.
Definition finishes (t : Thread) : nat :=
  match t with Sending r _ => Nat.b2n (is_done r) | _ => 0 end.
Definition loads (t : Thread) : nat :=
  match t with Reading => 1 | Sending r _ => Nat.b2n (is_loaded r) | _ => 0 end.
Definition notifies (t : Thread) : nat := match t with Notifying _ => 1 | _ => 0 end.

(** ** The invariant *)

Implicit Types s : System.

(** Every owned child is queued, being spawned, on its way to the reaper or
    alive there; every unfinished job is queued, being spawned or in a result. *)
Record jobs_wf s (held : list nat) : Prop := {
  jw_owned : owned_children s
    = tally is_process (messages s) + runs (thread s) + child_channel s + live s;
  jw_capacity : owned_children s + reserved_process s ≤ MAX_WORKER_JOBS;
  jw_held : sum_list held ≤ reserved_process s;
  jw_outstanding : outstanding_process s
    = tally is_process (messages s) + runs (thread s) + finishes (thread s) + tally is_done (results s)
}.

(** Every queued result is announced, but for the one being announced. *)
Record results_wf s : Prop := {
  rw_count : pending_result_notifications s + event_counter s + notifies (thread s)
    = length (results s);
  rw_capacity : length (results s) ≤ MAX_WORKER_RESULTS;
  rw_after : ∀ r k, thread s = Sending r k →
    k = match r with SnapshotRequested => AfterReply | Fence => AfterDone | _ => AfterRecv end
}.

(** The request for the snapshot: on its way to the owner, or to be answered. *)
Definition request_wf s (asked : bool) : Prop :=
  match thread s with
  | Notifying AfterReply => asked = false ∧ snapshot_reply s = []
      ∧ tally is_requested (results s) = 1 ∧ last (results s) = Some SnapshotRequested
  | Awaiting =>
      snapshot_reply s = [] ∧ Nat.b2n asked + tally is_requested (results s) = 1
      ∨ (∃ job, snapshot_reply s = [Some job]) ∧ asked = false ∧ tally is_requested (results s) = 0
  | _ => asked = false ∧ snapshot_reply s = [] ∧ tally is_requested (results s) = 0
  end.

(** The announcement or the request that the filled slot owes. *)
Definition waits s : nat :=
  match thread s with
  | Sending r _ => Nat.b2n (is_requested r)
  | Notifying AfterReply => 1
  | Awaiting => match snapshot_reply s with [] => 1 | _ => 0 end
  | _ => 0
  end.

Definition slot_wf s : Prop :=
  tally is_available (messages s) + waits s = if decide (pending_snapshot s = None) then 0 else 1.

Definition ending (t : Thread) : bool :=
  match t with Sending Fence _ | Notifying AfterDone | Stopped => true | _ => false end.

Definition seal_last (is_sealed : bool) (msgs : list WorkerMessage) : Prop :=
  if is_sealed then ∃ l, msgs = l ++ [Seal] ∧ tally is_seal l = 0 else tally is_seal msgs = 0.

Lemma seal_last_tail b msg rest :
  seal_last b (msg :: rest) → msg = Seal ∧ b = true ∧ rest = [] ∨ msg ≠ Seal ∧ seal_last b rest.
Proof.
  unfold seal_last. destruct b.
  - intros ([|x l] & Hl & Ht); injection Hl as -> ->; [by left|right]. rewrite tally_cons in Ht.
    split; [by intros ->|]. exists l. split; [done|lia].
  - rewrite tally_cons. intros Ht. right. split; [by intros ->|lia].
Qed.

(** The seal is the last message, the fence the last result. *)
Definition fence_wf s : Prop :=
  if ending (thread s) then
    is_sealed s = true ∧ messages s = []
    ∧ match thread s with
      | Sending _ _ => tally is_fence (results s) = 0 ∧ fence_acknowledged s = false
      | Notifying _ => tally is_fence (results s) = 1 ∧ last (results s) = Some Fence
                       ∧ fence_acknowledged s = false
      | _ => if fence_acknowledged s then results s = []
             else tally is_fence (results s) = 1 ∧ last (results s) = Some Fence
      end
  else
    fence_acknowledged s = false ∧ tally is_fence (results s) = 0
    ∧ seal_last (is_sealed s) (messages s).

Definition load_wf s (loading : bool) : Prop :=
  tally is_read (messages s) + loads (thread s) + tally is_loaded (results s) = Nat.b2n loading.

Record Run := mk_run {
  sys : System;
  reservations : list nat;
  asked : bool;
  loading : bool
}.

Record run_wf (r : Run) : Prop := {
  uw_jobs : jobs_wf (sys r) (reservations r);
  uw_results : results_wf (sys r);
  uw_request : request_wf (sys r) (asked r);
  uw_slot : slot_wf (sys r);
  uw_fence : fence_wf (sys r);
  uw_load : load_wf (sys r) (loading r)
}.

(** ** The worker thread and the reaper keep it *)

Lemma last_cons_ne {A} (x : A) l : l ≠ [] → last (x :: l) = last l.
Proof. by destruct l. Qed.

Arguments tally : simpl never.
Ltac tallies := cbn in *; rewrite ?tally_app, ?tally_cons, ?tally_nil in *; cbn in *.

Lemma thread_jobs s s' held : thread_step s s' → jobs_wf s held → jobs_wf s' held.
Proof.
  intros Hst [Ho Hc Hh Hu]. destruct Hst as [s msg rest Ht Hm|s r Ht|s job outcome r s' Ht Hsp|s r k Ht Hr|s k Ht|
    s rest Ht Hr|s job rest Ht Hr|s job r Ht|s n Hn|s n Hn].
  3: { unfold spawn_owned in Hsp. destruct (spawn job outcome);
         [destruct (_ <? _); [|done]|]; injection Hsp as <- <-; split; rewrite Ht in *; tallies; lia. }
  all: rewrite ?Ht in *; try rewrite ?Hm in *.
  1: destruct msg.
  all: try destruct k; split; tallies; lia.
Qed.

Lemma thread_results s s' : thread_step s s' → results_wf s → results_wf s'.
Proof.
  intros Hst [Hc Hl Ha]. destruct Hst as [s msg rest Ht Hm|s r Ht|s job outcome r s' Ht Hsp|s r k Ht Hr|s k Ht|
    s rest Ht Hr|s job rest Ht Hr|s job r Ht|s n Hn|s n Hn].
  3: { unfold spawn_owned in Hsp. destruct (spawn job outcome);
         [destruct (_ <? _); [|done]|]; injection Hsp as <- <-; rewrite Ht in *;
         split; cbn in *; [lia|done|by intros ? ? [= <- <-]|lia|done|by intros ? ? [= <- <-]]. }
  all: rewrite ?Ht in *.
  1: destruct msg.
  all: try destruct k; split; cbn in *; rewrite ?length_app; cbn; try lia; try done; by intros ? ? [= <- <-].
Qed.

Lemma thread_slot s s' asked :
  thread_step s s' → results_wf s → request_wf s asked → slot_wf s → slot_wf s'.
Proof.
  intros Hst [_ _ Ha] Hq Hw. unfold slot_wf, waits, request_wf in *.
  destruct Hst as [s msg rest Ht Hm|s r Ht|s job outcome r s' Ht Hsp|s r k Ht Hr|s k Ht|
    s rest Ht Hr|s job rest Ht Hr|s job r Ht|s n Hn|s n Hn].
  3: { unfold spawn_owned in Hsp. destruct (spawn job outcome);
         [destruct (_ <? _); [|done]|]; injection Hsp as <- <-; rewrite Ht in *; exact Hw. }
  all: cbn in *; rewrite ?Ht in *; try rewrite Hm in *; try rewrite Hr in *.
  1: destruct msg.
  all: try (specialize (Ha _ _ eq_refl); subst k; destruct r).
  all: try destruct k; tallies; try lia; try done.
  destruct Hq as (_ & -> & _). lia.
Qed.

Lemma thread_request s s' asked :
  thread_step s s' → results_wf s → request_wf s asked → request_wf s' asked.
Proof.
  intros Hst [_ _ Ha] Hq. unfold request_wf in *.
  destruct Hst as [s msg rest Ht Hm|s r Ht|s job outcome r s' Ht Hsp|s r k Ht Hr|s k Ht|
    s rest Ht Hr|s job rest Ht Hr|s job r Ht|s n Hn|s n Hn].
  3: { unfold spawn_owned in Hsp. destruct (spawn job outcome);
         [destruct (_ <? _); [|done]|]; injection Hsp as <- <-; rewrite Ht in *; exact Hq. }
  all: cbn in *; rewrite ?Ht in *; try rewrite Hm in *; try rewrite Hr in *.
  1: destruct msg.
  all: try (specialize (Ha _ _ eq_refl); subst k; destruct r).
  all: try destruct k; try done; cbn; rewrite ?tally_app, ?tally_cons, ?last_snoc; cbn.
  all: try (destruct Hq as (? & ? & ?); split_and!; try done; rewrite ?tally_nil; lia).
  - destruct Hq as (-> & ? & ? & _). by left.
  - by destruct Hq as [[? _]|([job [=]] & _)].
  - by destruct Hq as [[? _]|([job' [= -> ->]] & ? & ?)].
Qed.

Lemma thread_load s s' l : thread_step s s' → results_wf s → load_wf s l → load_wf s' l.
Proof.
  intros Hst [_ _ Ha] Hq. unfold load_wf in *.
  destruct Hst as [s msg rest Ht Hm|s r Ht|s job outcome r s' Ht Hsp|s r k Ht Hr|s k Ht|
    s rest Ht Hr|s job rest Ht Hr|s job r Ht|s n Hn|s n Hn].
  3: { unfold spawn_owned in Hsp. destruct (spawn job outcome);
         [destruct (_ <? _); [|done]|]; injection Hsp as <- <-; rewrite Ht in *; exact Hq. }
  all: cbn in *; rewrite ?Ht in *; try rewrite Hm in *; try rewrite Hr in *.
  1: destruct msg.
  all: try destruct k; tallies; lia.
Qed.

Lemma thread_fence s s' : thread_step s s' → results_wf s → fence_wf s → fence_wf s'.
Proof.
  intros Hst [_ _ Ha] Hq. unfold fence_wf, is_sealed in *.
  destruct Hst as [s msg rest Ht Hm|s r Ht|s job outcome r s' Ht Hsp|s r k Ht Hr|s k Ht|
    s rest Ht Hr|s job rest Ht Hr|s job r Ht|s n Hn|s n Hn].
  3: { unfold spawn_owned in Hsp. destruct (spawn job outcome);
         [destruct (_ <? _); [|done]|]; injection Hsp as <- <-; rewrite Ht in *; exact Hq. }
  all: cbn in *; rewrite ?Ht in *; try rewrite Hm in *; try rewrite Hr in *.
  - destruct Hq as (? & ? & [(-> & ? & ->)|[Hne Hl]]%seal_last_tail);
      [by cbn; split_and!|].
    destruct msg; try done; by split_and!.
  - done.
  - specialize (Ha _ _ eq_refl). subst k.
    destruct r; cbn in *; rewrite ?tally_app, ?tally_cons, ?last_snoc, ?tally_nil; cbn;
      destruct_and?; split_and!; try done; lia.
  - destruct k; cbn in *; [done|done|]. destruct Hq as (? & ? & ? & ? & ->). by split_and!.
  - done.
  - done.
  - done.
  - done.
  - done.
Qed.

(** ** The owner's calls keep it, and succeed *)

Lemma try_send_ok msg s :
  length (messages s) < MAX_WORKER_JOBS + 2 → stopped s = false →
  try_send_message msg s = (Ok tt, s <| messages := messages s ++ [msg] |>).
Proof.
  intros Hl Hs. unfold try_send_message. rewrite (proj2 (Nat.ltb_lt _ _)) by done. by rewrite Hs.
Qed.

Lemma send_jobs_ok jobs n s :
  length (messages s) + length jobs ≤ MAX_WORKER_JOBS + 2 → stopped s = false →
  send_jobs n jobs s = (Ok tt, s <| messages := messages s ++ (Process <$> jobs) |>
                                 <| outstanding_process := outstanding_process s + length jobs |>).
Proof.
  revert n s. induction jobs as [|job jobs IH]; intros n s Hl Hs; cbn [send_jobs].
  - cbn. rewrite app_nil_r, Nat.add_0_r. by destruct s.
  - cbn in Hl. unfold mbind, stm_bind, on_error. rewrite try_send_ok by (done || lia).
    cbn [modify]. rewrite IH; [|cbn; rewrite length_app; cbn; lia|done].
    cbn. rewrite <-app_assoc. by rewrite <-Nat.add_succ_comm.
Qed.

(** The state between start-up and the seal. *)
Record open_run (r : Run) : Prop := {
  or_wf : run_wf r;
  or_loaded : loading r = false;
  or_unsealed : is_sealed (sys r) = false
}.

Lemma open_stopped r : open_run r → stopped (sys r) = false ∧ tally is_seal (messages (sys r)) = 0
  ∧ ending (thread (sys r)) = false ∧ fence_acknowledged (sys r) = false
  ∧ tally is_fence (results (sys r)) = 0.
Proof.
  intros [Hw _ Hu]. pose proof (uw_fence r Hw) as Hf. unfold fence_wf in Hf. rewrite Hu in Hf.
  destruct (ending _) eqn:E; [by destruct Hf|]. destruct Hf as (? & ? & Hs).
  split_and!; try done. unfold stopped. by destruct (thread (sys r)).
Qed.

Lemma unread r : run_wf r → loading r = false → tally is_read (messages (sys r)) = 0.
Proof. intros Hw Hl. pose proof (uw_load r Hw) as H. unfold load_wf in H. rewrite Hl in H. cbn in H. lia. Qed.

(** There is room for the snapshot's announcement, the seal, and every reserved job. *)
Lemma open_room r :
  open_run r →
  length (messages (sys r)) + reserved_process (sys r)
    + (if decide (pending_snapshot (sys r) = None) then 1 else 0) ≤ S MAX_WORKER_JOBS.
Proof.
  intros Ho. pose proof (or_wf r Ho) as Hw. destruct (open_stopped r Ho) as (_ & Hs & _).
  pose proof (unread r Hw (or_loaded r Ho)) as Hr.
  pose proof (uw_slot r Hw) as Hp. unfold slot_wf in Hp. destruct (uw_jobs r Hw) as [Hj Hc _ _].
  rewrite length_messages. destruct (decide _); lia.
Qed.

Lemma seal_last_open msgs : tally is_seal msgs = 0 → seal_last false msgs.
Proof. done. Qed.

Lemma reserve_ok count r k s' :
  run_wf r → reserve_process_jobs count (sys r) = (k, s') →
  run_wf (mk_run s' (match k with Ok k => k :: reservations r | Err _ => reservations r end)
            (asked r) (loading r)) ∧ k ≠ Err Panic.
Proof.
  intros Hw. unfold reserve_process_jobs, mbind, stm_bind, getS.
  destruct (is_sealed (sys r)) eqn:Es; [intros [= <- <-]; by destruct r|].
  destruct (Nat.ltb_spec MAX_WORKER_JOBS (owned_children (sys r) + reserved_process (sys r) + count));
    [intros [= <- <-]; by destruct r|].
  intros [= <- <-]. split; [|done]. destruct Hw as [[] [] ? ? ? ?].
  split; try done. split; cbn; try done; lia.
Qed.

Lemma release_ok k held1 held2 s :
  jobs_wf s (held1 ++ k :: held2) →
  release k s = (Ok tt, s <| reserved_process := reserved_process s - k |>)
  ∧ jobs_wf (s <| reserved_process := reserved_process s - k |>) (held1 ++ held2).
Proof.
  intros [Ho Hc Hh Hu]. rewrite sum_list_with_app in Hh. cbn in Hh.
  unfold release, mbind, stm_bind, getS, checked_sub. rewrite (proj2 (Nat.leb_le _ _)) by lia.
  split; [done|]. split; cbn; try done; [lia|]. rewrite sum_list_with_app. lia.
Qed.

Lemma commit_ok k held1 held2 a jobs s x s' :
  run_wf (mk_run s (held1 ++ k :: held2) a false) → commit k jobs s = (x, s') →
  run_wf (mk_run s' (held1 ++ held2) a false)
  ∧ (x = Ok tt ∨ (x = Err (Raise Sealed) ∧ is_sealed s = true)
     ∨ (x = Err (Raise (ReservationMismatch k (length jobs))) ∧ length jobs ≠ k)).
Proof.
  intros Hw. unfold commit, mbind at 1, stm_bind at 1, getS.
  assert (run_wf (mk_run s (held1 ++ held2) a false)) as Hsame.
  { destruct Hw as [[Ho Hc Hh Hu] ? ? ? ? ?]. split; try done. split; try done. cbn in *.
    rewrite sum_list_with_app in *. cbn in Hh. lia. }
  destruct (is_sealed s) eqn:Es; [intros [= <- <-]; by split; [|right; left]|].
  destruct (Nat.eqb_spec (length jobs) k) as [Ek|Ek]; cbn [negb];
    [|intros [= <- <-]; by split; [|right; right]].
  assert (open_run (mk_run s (held1 ++ k :: held2) a false)) as Hop by done.
  pose proof (open_room _ Hop) as Hroom. destruct (open_stopped _ Hop) as (Hst & Hse & Hen & Hfa & Hff).
  destruct Hw as [Hj Hr Hq Hs Hf Hl]. cbn [sys reservations asked loading] in *.
  destruct (release_ok k held1 held2 s Hj) as [Hrel Hj']. unfold mbind, stm_bind. rewrite Hrel.
  cbn [modify]. pose proof (jw_held _ _ Hj) as Hh. rewrite sum_list_with_app in Hh. cbn in Hh.
  rewrite send_jobs_ok; [|cbn; lia|done]. intros [= <- <-]. split; [|by left].
  destruct Hj' as [Ho' Hc' Hh' Hu'], Hj as [Ho Hc _ Hu]. cbn in *.
  split; cbn; [split; cbn|by destruct Hr|done| | |].
  - rewrite tally_app, (tally_const _ _ true) by done. lia.
  - lia.
  - done.
  - rewrite tally_app, (tally_const _ _ true) by done. lia.
  - unfold slot_wf in *. cbn. rewrite tally_app, (tally_const _ _ false) by done. rewrite Nat.add_0_r. exact Hs.
  - unfold fence_wf, is_sealed in *. cbn. rewrite Hen, Es. split_and!; try done.
    apply seal_last_open. rewrite tally_app, (tally_const _ _ false) by done. lia.
  - unfold load_wf in *. cbn in *. rewrite tally_app, (tally_const _ _ false) by done. lia.
Qed.

Lemma cancel_ok k held1 held2 a s x s' :
  run_wf (mk_run s (held1 ++ k :: held2) a false) → cancel k s = (x, s') →
  run_wf (mk_run s' (held1 ++ held2) a false) ∧ x = Ok tt.
Proof.
  intros [Hj Hr Hq Hs Hf Hl] Hc. destruct (release_ok k held1 held2 s Hj) as [Hrel Hj'].
  unfold cancel in Hc. rewrite Hrel in Hc. injection Hc as <- <-. split; [|done].
  split; try done. by destruct Hr.
Qed.

Lemma submit_ok job held a s x s' :
  run_wf (mk_run s held a false) → submit_job job s = (x, s') →
  run_wf (mk_run s' held a false) ∧ (x = Ok tt ∨ (x = Err (Raise Sealed) ∧ is_sealed s = true)).
Proof.
  intros Hw. unfold submit_job, mbind at 1, stm_bind at 1, getS.
  destruct (is_sealed s) eqn:Es; [intros [= <- <-]; by split; [|right]|].
  assert (open_run (mk_run s held a false)) as Hop by done.
  pose proof (open_room _ Hop) as Hroom. destruct (open_stopped _ Hop) as (Hst & Hse & Hen & Hfa & Hff).
  destruct Hw as [Hj Hr Hq Hs Hf Hl]. cbn [sys reservations asked loading] in *.
  unfold slot_wf in Hs. destruct (decide (pending_snapshot s = None)) as [Hp|Hp].
  - unfold mbind, stm_bind. rewrite try_send_ok by (done || lia). intros [= <- <-]. split; [|by left].
    destruct Hj as [Ho Hc Hh Hu].
    split; cbn; [split; cbn; rewrite ?tally_app, ?tally_cons, ?tally_nil; cbn; lia|by destruct Hr|done| | |].
    + unfold slot_wf in *. cbn. rewrite tally_app, tally_cons, tally_nil. cbn.
      replace (waits (s <| messages := messages s ++ [SnapshotAvailable] |> <| pending_snapshot := Some job |>))
        with (waits s) by done. rewrite decide_False by done. lia.
    + unfold fence_wf, is_sealed in *. cbn. rewrite Hen, Es. split_and!; try done.
      apply seal_last_open. by rewrite tally_app, tally_cons, tally_nil, Hse.
    + unfold load_wf in *. cbn in *. rewrite tally_app, tally_cons, tally_nil. cbn. lia.
  - intros [= <- <-]. split; [|by left]. split; try done.
    + by destruct Hj.
    + by destruct Hr.
Qed.

Lemma answer_ok held s x s' :
  run_wf (mk_run s held true false) → answer_snapshot_request s = (x, s') →
  run_wf (mk_run s' held false false) ∧ x = Ok tt ∧ ∃ job, pending_snapshot s = Some job
    ∧ snapshot_reply s' = [Some job].
Proof.
  intros [Hj Hr Hq Hs Hf Hl]. cbn in *. unfold request_wf in Hq.
  assert (thread s = Awaiting ∧ snapshot_reply s = [] ∧ tally is_requested (results s) = 0) as (Ht & Hre & Hta).
  { destruct (thread s) as [| | | |[]| | |]; try (by destruct Hq).
    destruct Hq as [[? Hx]|(_ & ? & _)]; [|done]. cbn in Hx. split_and!; [done|done|lia]. }
  clear Hq. unfold slot_wf, waits in Hs. rewrite Ht, Hre in Hs. cbn in Hs.
  destruct (pending_snapshot s) as [job|] eqn:Hp; [|rewrite decide_True in Hs by done; lia].
  rewrite decide_False in Hs by done.
  unfold answer_snapshot_request, stopped. cbn. rewrite Hre, Ht, Hp. cbn. intros [= <- <-].
  split; [|split; [done|by exists job]].
  split; cbn; [by destruct Hj|by destruct Hr| | | |].
  - unfold request_wf. cbn. rewrite Ht. right. split_and!; [by exists job|done|done].
  - unfold slot_wf, waits. cbn. rewrite Ht, decide_True by done. lia.
  - unfold fence_wf, is_sealed in *. cbn in *. by rewrite Ht in *.
  - done.
Qed.

Lemma seal_ok now held a s x s' :
  run_wf (mk_run s held a false) → seal now s = (x, s') →
  run_wf (mk_run s' held a false) ∧ x = Ok tt
  ∧ sealed_at s' = Some (match sealed_at s with Some t => t | None => now end).
Proof.
  intros Hw. unfold seal, mbind at 1, stm_bind at 1, getS.
  destruct (is_sealed s) eqn:Es.
  { intros [= <- <-]. split_and!; [done|done|]. apply bool_decide_eq_true in Es as [t ->]. done. }
  assert (open_run (mk_run s held a false)) as Hop by done.
  pose proof (open_room _ Hop) as Hroom. destruct (open_stopped _ Hop) as (Hst & Hse & Hen & Hfa & Hff).
  destruct Hw as [Hj Hr Hq Hs Hf Hl]. cbn [sys reservations asked loading] in *.
  unfold mbind, stm_bind. cbn [modify].
  rewrite try_send_ok; [|cbn; destruct (decide _); lia|done].
  apply bool_decide_eq_false in Es. apply eq_None_not_Some in Es. rewrite Es.
  intros [= <- <-]. split_and!; [|done|done]. destruct Hj as [Ho Hc Hh Hu].
  split; cbn; [split; cbn; rewrite ?tally_app, ?tally_cons, ?tally_nil; cbn; lia|by destruct Hr|done| | |].
  - unfold slot_wf in *. cbn. rewrite tally_app, tally_cons, tally_nil. cbn. rewrite !Nat.add_0_r. exact Hs.
  - unfold fence_wf in *. cbn. rewrite Hen. split_and!; try done. by exists (messages s).
  - unfold load_wf in *. cbn in *. rewrite tally_app, tally_cons, tally_nil. cbn. lia.
Qed.

Lemma last_tally {A} (f : A → bool) x l : last l = Some x → f x = true → 1 ≤ tally f l.
Proof.
  intros Hl Hf. apply last_Some in Hl as [l' ->]. rewrite tally_app, tally_cons, Hf. cbn. lia.
Qed.

(** After the head of a queue is gone, its last element still is the last. *)
Lemma last_tail {A} (x y : A) l : last (x :: l) = Some y → l ≠ [] → last l = Some y.
Proof. by destruct l. Qed.

Definition asked_after (x : result (option WorkerResult) (failure WorkerError)) (asked : bool) : bool :=
  match x with Ok (Some SnapshotRequested) => true | _ => asked end.

Definition loading_after (x : result (option WorkerResult) (failure WorkerError)) (loading : bool) : bool :=
  match x with Ok (Some (SnapshotRead _)) => false | _ => loading end.

Lemma drain_ok r : run_wf r → run_wf (mk_run (drain_eventfd (sys r)) (reservations r) (asked r) (loading r)).
Proof.
  intros Hw. unfold drain_eventfd. destruct (Nat.eqb_spec (pending_result_notifications (sys r)) 0) as [E|];
    [|by destruct r].
  destruct Hw as [[] [] ? ? ? ?]. split; try done. split; cbn; try done. lia.
Qed.

(** One result is taken off the queue. *)
Definition take_result (r : WorkerResult) (rest : list WorkerResult) s : System :=
  let s := s <| results := rest |>
             <| pending_result_notifications := pending_result_notifications s - 1 |> in
  match r with
  | ProcessDone _ => s <| outstanding_process := outstanding_process s - 1 |>
  | Fence => s <| fence_acknowledged := true |>
  | _ => s
  end.

Lemma take_result_ok r rest s held a l :
  run_wf (mk_run s held a l) → results s = r :: rest → 1 ≤ pending_result_notifications s →
  run_wf (mk_run (take_result r rest s) held (asked_after (Ok (Some r)) a) (loading_after (Ok (Some r)) l)).
Proof.
  intros [Hj Hr Hq Hs Hf Hl] He Hp. cbn [sys reservations asked loading] in *.
  assert (notifies (thread s) = 1 → rest ≠ []) as Hrest.
  { intros Hn ->. pose proof (rw_count s Hr) as Hc. rewrite He, Hn in Hc. cbn in Hc. lia. }
  destruct Hj as [Ho Hc Hh Hu], Hr as [Hco Hca Ha]. rewrite He in *. cbn in Hco, Hca.
  split; cbn [sys reservations asked loading].
  - split; destruct r; cbn; rewrite ?tally_cons in Hu; cbn in Hu; lia.
  - split; [|destruct r; cbn; lia|by destruct r]. destruct r; cbn; lia.
  - unfold request_wf in *. rewrite He in Hq.
    replace (thread (take_result r rest s)) with (thread s) by (by destruct r).
    replace (snapshot_reply (take_result r rest s)) with (snapshot_reply s) by (by destruct r).
    replace (results (take_result r rest s)) with rest by (by destruct r).
    rewrite tally_cons in Hq. destruct (thread s) as [| | | |k| | |];
      try (destruct Hq as (-> & ? & ?); destruct r; cbn in *; split_and!; (done || lia)).
    + specialize (Hrest eq_refl). destruct k;
        try (destruct Hq as (-> & ? & ?); destruct r; cbn in *; split_and!; (done || lia)).
      destruct Hq as (-> & ? & Ht & Hla%last_tail); [|done].
      pose proof (last_tally is_requested _ _ Hla eq_refl). destruct r; cbn in *; split_and!; (done || lia).
    + destruct Hq as [[? Ht]|(? & -> & Ht)]; destruct r; cbn in *; try lia;
        first [left; split; [done|destruct a; cbn in *; lia]|right; split_and!; (done || lia)].
  - unfold slot_wf, waits in *. by destruct r.
  - unfold fence_wf, is_sealed in *. rewrite He in Hf.
    replace (thread (take_result r rest s)) with (thread s) by (by destruct r).
    replace (sealed_at (take_result r rest s)) with (sealed_at s) by (by destruct r).
    replace (messages (take_result r rest s)) with (messages s) by (by destruct r).
    replace (results (take_result r rest s)) with rest by (by destruct r).
    assert (fence_acknowledged (take_result r rest s) = fence_acknowledged s || is_fence r) as ->
      by (destruct r; cbn; by rewrite ?orb_false_r, ?orb_true_r).
    rewrite tally_cons in Hf. destruct (ending (thread s)) eqn:Een.
    + destruct Hf as (? & ? & Hf). split_and!; [done|done|].
      destruct (thread s) as [| | | |k| | |]; try done.
      * destruct Hf as [? ->]. destruct (is_fence r); cbn in *; [lia|done].
      * specialize (Hrest eq_refl). destruct Hf as (? & Hla%last_tail & ->); [|done].
        pose proof (last_tally is_fence _ _ Hla eq_refl). destruct (is_fence r); cbn in *; [lia|done].
      * destruct (fence_acknowledged s); [done|]. cbn. destruct Hf as [Ht Hla].
        destruct rest as [|r' rest].
        -- injection Hla as ->. done.
        -- apply last_tail in Hla; [|done]. pose proof (last_tally is_fence _ _ Hla eq_refl).
           destruct (is_fence r); cbn in *; [lia|by split].
    + destruct Hf as (-> & Ht & ?). destruct (is_fence r); cbn in *; [lia|]. by split_and!.
  - unfold load_wf in *. rewrite He, tally_cons in Hl.
    destruct r; cbn in *; try exact Hl. destruct l; cbn in *; lia.
Qed.

Lemma try_result_ok r x s' :
  run_wf r → try_result (sys r) = (x, s') →
  run_wf (mk_run s' (reservations r) (asked_after x (asked r)) (loading_after x (loading r)))
  ∧ ∃ o, x = Ok o ∧ (o = None → results (sys r) = [] ∨ notifies (thread (sys r)) = 1).
Proof.
  intros Hw%drain_ok. unfold try_result, mbind at 1, stm_bind at 1, modify at 1. cbv beta iota.
  unfold mbind at 1, stm_bind at 1, getS at 1.
  assert (results (drain_eventfd (sys r)) = results (sys r)
    ∧ thread (drain_eventfd (sys r)) = thread (sys r)) as [<- <-]
    by (unfold drain_eventfd; by case_match).
  assert (pending_result_notifications (drain_eventfd (sys r)) = 0 →
    event_counter (drain_eventfd (sys r)) = 0) as Hev.
  { unfold drain_eventfd. destruct (Nat.eqb_spec (pending_result_notifications (sys r)) 0); cbn; [done|lia]. }
  set (s := drain_eventfd (sys r)) in *. clearbody s.
  destruct (Nat.eqb_spec (pending_result_notifications s) 0) as [E|E].
  - intros [= <- <-]. split; [done|]. exists None. split; [done|]. intros _.
    pose proof (rw_count s (uw_results _ Hw)) as Hc. rewrite E, (Hev E) in Hc.
    destruct (thread s), (results s); cbn in *; auto; lia.
  - destruct (results s) as [|y rest] eqn:He.
    { pose proof (rw_count s (uw_results _ Hw)) as Hc. cbn in Hc. rewrite He in Hc. cbn in Hc. lia. }
    assert (account y (s <| results := rest |>
      <| pending_result_notifications := pending_result_notifications s - 1 |>) = (Ok tt, take_result y rest s)) as Hacc.
    { pose proof (jw_outstanding _ _ (uw_jobs _ Hw)) as Hu. cbn in Hu. rewrite He, tally_cons in Hu.
      destruct y; try done. destruct (outstanding_process s) as [|n] eqn:En; [cbn in Hu; lia|].
      unfold account, mbind, stm_bind, getS, take_result. cbn. by rewrite En. }
    unfold mbind, stm_bind. cbn [modify]. rewrite Hacc. intros [= <- <-].
    split; [|by exists (Some y)]. eapply take_result_ok in Hw; [done|done|lia].
Qed.

(** ** Runs *)

Inductive run_step : Run → Run → Prop :=
| StepThread s s' held a l :
    thread_step s s' → run_step (mk_run s held a l) (mk_run s' held a l)
| StepReserve count s held a x s' :
    reserve_process_jobs count s = (x, s') →
    run_step (mk_run s held a false)
      (mk_run s' (match x with Ok k => k :: held | Err _ => held end) a false)
| StepCancel k held1 held2 s a x s' :
    cancel k s = (x, s') →
    run_step (mk_run s (held1 ++ k :: held2) a false) (mk_run s' (held1 ++ held2) a false)
| StepCommit k jobs held1 held2 s a x s' :
    commit k jobs s = (x, s') →
    run_step (mk_run s (held1 ++ k :: held2) a false) (mk_run s' (held1 ++ held2) a false)
| StepSubmit job s held a x s' :
    submit_job job s = (x, s') → run_step (mk_run s held a false) (mk_run s' held a false)
| StepAnswer s held x s' :
    answer_snapshot_request s = (x, s') →
    run_step (mk_run s held true false) (mk_run s' held false false)
| StepSeal now s held a x s' :
    seal now s = (x, s') → run_step (mk_run s held a false) (mk_run s' held a false)
| StepResult s held a l x s' :
    try_result s = (x, s') →
    run_step (mk_run s held a l) (mk_run s' held (asked_after x a) (loading_after x l)).

(** A started worker whose start-up read is requested. *)
Definition run_start : Run := mk_run (snd (request_snapshot_read start)) [] false true.

Lemma run_start_wf : run_wf run_start.
Proof.
  assert (snd (request_snapshot_read start) = start <| messages := [ReadSnapshot] |>) as E by done.
  unfold run_start. rewrite E. split; cbn; try done.
  - split; cbn; unfold MAX_WORKER_JOBS; try done; lia.
  - split; cbn; unfold MAX_WORKER_RESULTS; try done; lia.
Qed.

(** The worker once the start-up read has come back and nothing else was asked. *)
Lemma Worker_start_wf : run_wf (mk_run start [] false false).
Proof. split; cbn; try done; split; cbn; unfold MAX_WORKER_JOBS, MAX_WORKER_RESULTS; try done; lia. Qed.

Lemma thread_ok s s' held a l : thread_step s s' → run_wf (mk_run s held a l) → run_wf (mk_run s' held a l).
Proof.
  intros Hst [Hj Hr Hq Hs Hf Hl]. cbn in *. split; cbn.
  - by eapply thread_jobs.
  - by eapply thread_results.
  - by eapply thread_request.
  - by eapply thread_slot.
  - by eapply thread_fence.
  - by eapply thread_load.
Qed.

Lemma run_step_wf r r' : run_step r r' → run_wf r → run_wf r'.
Proof.
  destruct 1 as [|count s held a x s' Hx|k held1 held2 s a x s' Hx|k jobs held1 held2 s a x s' Hx
    |job s held a x s' Hx|s held x s' Hx|now s held a x s' Hx|s held a l x s' Hx]; intros Hw.
  - by eapply thread_ok.
  - by apply (reserve_ok count (mk_run s held a false) x s' Hw).
  - by eapply cancel_ok.
  - by eapply commit_ok.
  - by eapply submit_ok.
  - by eapply answer_ok.
  - by eapply seal_ok.
  - by apply (try_result_ok (mk_run s held a l) x s' Hw).
Qed.

Lemma run_reachable_wf r : rtc run_step run_start r → run_wf r.
Proof.
  intros Hr. remember run_start as r0 eqn:E. assert (run_wf r0) as H0 by (subst; apply run_start_wf).
  clear E. induction Hr as [|? ? ? Hs _ IH]; [done|]. by apply IH, (run_step_wf _ _ Hs).
Qed.

(** What an acknowledged fence means. *)
Definition all_settled s : Prop :=
  messages s = [] ∧ results s = [] ∧ outstanding_process s = 0 ∧ pending_snapshot s = None
  ∧ thread s = Stopped.

Lemma acknowledged_settled r : run_wf r → fence_acknowledged (sys r) = true → all_settled (sys r).
Proof.
  intros [Hj Hr Hq Hs Hf Hl] Ha. unfold fence_wf in Hf. rewrite Ha in Hf.
  destruct (thread (sys r)) as [| | |[] ?|[]| | |] eqn:Ht; cbn in Hf; try (by destruct_and?).
  destruct Hf as (_ & Hm & Hre). unfold slot_wf, waits in Hs. rewrite Hm, Ht, tally_nil in Hs.
  destruct (decide _); [|done].
  destruct Hj as [_ _ _ Hu]. rewrite Hm, Hre, Ht, !tally_nil in Hu. by split_and!.
Qed.

(** C25. The worker keeps its promises in every interleaving of its owner, its
    thread and the reaper.  Live and reserved children never exceed the accepted
    number, and handing a child to the reaper never aborts the daemon.  Every
    call the owner may make succeeds while the worker is open: no [expect]
    fires, no channel is full or closed, every announced result is there.  The
    fence deadline never slides, and once the fence is acknowledged every message
    has run, every result was delivered and nothing is left to write. *)
Theorem worker_keeps_promises r :
  rtc run_step run_start r →
  let s := sys r in
  owned_children s + reserved_process s ≤ MAX_WORKER_JOBS
  ∧ (∀ job outcome, thread s = Running job → is_Some (spawn_owned (spawn job outcome) s))
  ∧ is_ok (fst (try_result s)) = true
  ∧ (loading r = false →
       (∀ k, k ∈ reservations r → fst (cancel k s) = Ok tt)
       ∧ (asked r = true → fst (answer_snapshot_request s) = Ok tt)
       ∧ (∀ now, fst (seal now s) = Ok tt
            ∧ (is_sealed s = true → fence_deadline (snd (seal now s)) = fence_deadline s))
       ∧ (is_sealed s = false →
            (∀ job, fst (submit_job job s) = Ok tt)
            ∧ ∀ k jobs, k ∈ reservations r → length jobs = k → fst (commit k jobs s) = Ok tt))
  ∧ (fence_acknowledged s = true → all_settled s).
Proof.
  intros Hr%run_reachable_wf s. split_and!.
  - apply (uw_jobs r Hr).
  - intros job outcome Ht. unfold spawn_owned. destruct (spawn job outcome); [|by eexists].
    rewrite (proj2 (Nat.ltb_lt _ _)); [by eexists|].
    destruct (uw_jobs r Hr) as [Ho Hc _ _]. fold s in Ho, Hc. rewrite Ht in Ho. cbn in Ho. lia.
  - destruct (try_result s) as [x s'] eqn:E. by destruct (try_result_ok r x s' Hr E) as (_ & o & -> & _).
  - intros Hl. destruct r as [s0 held a l]. cbn in s, Hl. subst l s. split_and!.
    + intros k (h1 & h2 & Hh)%list_elem_of_split. cbn in Hh. subst held.
      destruct (cancel k s0) as [x s'] eqn:E. by destruct (cancel_ok _ _ _ _ _ _ _ Hr E) as [_ ->].
    + cbn. intros ->. destruct (answer_snapshot_request s0) as [x s'] eqn:E.
      by destruct (answer_ok _ _ _ _ Hr E) as (_ & -> & _).
    + intros now. destruct (seal now s0) as [x s'] eqn:E.
      destruct (seal_ok _ _ _ _ _ _ Hr E) as (_ & -> & Hs'). split; [done|].
      intros [t Ht]%bool_decide_eq_true. unfold fence_deadline. cbn. by rewrite Hs', Ht.
    + intros Hse. cbn in Hse. split.
      * intros job. destruct (submit_job job s0) as [x s'] eqn:E.
        destruct (submit_ok _ _ _ _ _ _ Hr E) as (_ & [->|[_ ?]]); [done|congruence].
      * intros k jobs (h1 & h2 & Hh)%list_elem_of_split Hlen. cbn in Hh. subst held.
        destruct (commit k jobs s0) as [x s'] eqn:E.
        by destruct (commit_ok _ _ _ _ _ _ _ _ Hr E) as (_ & [->|[[_ ?]|[_ ?]]]); [|congruence|].
  - apply (acknowledged_settled r Hr).
Qed.

(** The start-up read comes back and two jobs are reserved. *)
Definition demo_loaded : System :=
  start <| results := [SnapshotRead (Ok [])] |> <| event_counter := 1 |>.
Definition demo_reserved : System := start <| reserved_process := 2 |>.

Lemma demo_worker_run : rtc run_step run_start (mk_run demo_reserved [2] false false).
Proof.
  eapply rtc_l; [by eapply StepThread, ThreadReceive|].
  eapply rtc_l; [by eapply StepThread, (ThreadRead _ (Ok []))|].
  eapply rtc_l; [eapply StepThread, ThreadSend; [done|apply Nat.ltb_lt; reflexivity]|].
  eapply rtc_l; [by eapply StepThread, ThreadNotify|].
  eapply rtc_l; [by apply (StepResult demo_loaded [] false true (Ok (Some (SnapshotRead (Ok [])))) start)|].
  apply rtc_once. by apply (StepReserve 2 start [] false (Ok 2) demo_reserved).
Qed.

Lemma worker_keeps_promises_witness :
  fst (commit 2 [JobSpawn [lit "foot"]; JobFixedConsumer Launcher] demo_reserved) = Ok tt.
Proof.
  destruct (worker_keeps_promises _ demo_worker_run) as (_ & _ & _ & Hc & _).
  destruct (Hc eq_refl) as (_ & _ & _ & Ho). destruct (Ho eq_refl) as [_ Hcommit].
  apply Hcommit; [left|reflexivity].
Defined.
