(* ===== verification/Server.v ===== *)
(** * realm-control/src/server.rs: the control server

    [ControlServer] keeps the connections, their tokens and reply receipts, and
    does one bounded piece of work per call.  The kernel's sockets are an
    argument of the calls that use them; the state machine of one connection is
    [ConnectionMachine] (Control.v).  [expect] ends in [Panic]. *)

From Stdlib Require Import ZArith Lia.
From stdpp Require Import prelude list gmap sorting.
From S2P Require Import Prelude Layout Ledger Projection Keys State Backend Snapshot Visible Authority Session Utf8 Ipc Control.

(** ** The kernel *)

Inductive Errno :=
| INTR | AGAIN | CONNABORTED | MFILE | NFILE | NOBUFS | NOMEM | CONNRESET | PIPE
| OtherErrno (code : N).

#[export] Instance Errno_eq_dec : EqDecision Errno.
Proof. solve_decision. Defined.

(** What the system calls of one service would return: [accept_with] on the
    listener, [socket_peercred]'s user, [recv] into a buffer of a given size,
    [send] of the given bytes. *)
Record Sockets := {
  accept_with : N → result N Errno;
  socket_peercred : N → result N Errno;
  recv : N → nat → result (list N) Errno;
  send : N → list N → result nat Errno
}.

(** POSIX: no call reports more bytes than it was given room for. *)
Record sockets_ok (io : Sockets) : Prop := {
  recv_within : ∀ fd room bytes, recv io fd room = Ok bytes → length bytes ≤ room;
  send_within : ∀ fd bytes count, send io fd bytes = Ok count → count ≤ length bytes
}.

(** ** Data *)

Definition CONNECTION_LIMIT : nat := 64.

(** Of the listener the server reads its descriptor and its directory's owner. *)
Record ActiveControlListener := {
  listener_fd : N;
  retained_euid : N
}.

Record PollInterest := mk_interest {
  interest_token : N;
  interest_fd : N;
  interest_readable : bool;
  interest_writable : bool
}.

Record ReadyEvent := {
  ready_token : N;
  readable : bool;
  terminal : bool;
  writable : bool
}.

Record ResponseReceipt := mk_receipt {
  receipt_connection : N;
  receipt_sequence : N
}.

#[export] Instance ResponseReceipt_eq_dec : EqDecision ResponseReceipt.
Proof. solve_decision. Defined.

Inductive ResponseSettlement := Pending | Drained | Closed.

#[export] Instance ResponseSettlement_eq_dec : EqDecision ResponseSettlement.
Proof. solve_decision. Defined.

Inductive ControlAction := ControlRequest (connection : N) (request : Request).

Inductive ControlError :=
| StaleConnection (connection : N)
| ResponseSequenceExhausted (connection : N)
| ResponseBarrierConflict (active requested : ResponseReceipt)
| ShuttingDown
| OutboundFramesTooLarge (connections : list N)
| PeerIo (connection : N) (source : Errno)
| ListenerIo (source : Errno)
| ListenerTerminal
| ResourceExhausted (source : Errno).

(** The sequences are [NonZeroU64]. *)
Record Connection := mk_connection {
  fd : N;
  token : N;
  machine : ConnectionMachine;
  next_response_sequence : option N;
  pending_response : option N;
  last_drained_response : option N
}.

#[export] Instance Connection_settable : Settable Connection := λ c,
  mk_connection (fd c) (token c) (machine c) (next_response_sequence c) (pending_response c)
    (last_drained_response c).

Record ControlServer := mk_server {
  listener : ActiveControlListener;
  listener_token : N;
  connections : gmap N Connection;
  next_connection_id : option N;
  next_token : option N;
  response_barrier : option ResponseReceipt;
  shutting_down : bool
}.

#[export] Instance ControlServer_settable : Settable ControlServer := λ s,
  mk_server (listener s) (listener_token s) (connections s) (next_connection_id s) (next_token s)
    (response_barrier s) (shutting_down s).

Implicit Types s : ControlServer.

Definition new (listener : ActiveControlListener) : ControlServer := {|
  listener := listener; listener_token := 0; connections := ∅;
  next_connection_id := Some 1%N; next_token := Some 1%N; response_barrier := None;
  shutting_down := false
|}.

(** ** The connections in key order *)

Definition entry_order (p q : N * Connection) : Prop := (p.1 <= q.1)%N.

#[export] Instance entry_order_dec : RelDecision entry_order.
Proof. intros p q. unfold entry_order. apply _. Defined.

Definition entries s : list (N * Connection) := merge_sort entry_order (map_to_list (connections s)).

Definition keys s : list N := (entries s).*1.

Definition remove (id : N) s : ControlServer := s <| connections := delete id (connections s) |>.

Definition put (id : N) c s : ControlServer := s <| connections := <[id := c]> (connections s) |>.

Definition is_close (a : MachineAction) : bool :=
  match a with ActClose _ => true | _ => false end.

(** ** Queries *)

Definition response_settlement (receipt : ResponseReceipt) s : ResponseSettlement :=
  match connections s !! receipt_connection receipt with
  | None => Closed
  | Some c =>
      if decide (pending_response c = Some (receipt_sequence receipt)) then Pending
      else match last_drained_response c with
           | Some drained => if (receipt_sequence receipt <=? drained)%N then Drained else Closed
           | None => Closed
           end
  end.

Definition has_output c : bool := bool_decide (is_Some (output_remaining (machine c))).

Definition peer_interest (barrier : option ResponseReceipt) (p : N * Connection) : option PollInterest :=
  let '(id, c) := p in
  let interest readable := Some (mk_interest (token c) (fd c) readable (has_output c)) in
  match barrier with
  | Some receipt =>
      if bool_decide (receipt_connection receipt = id)
         && bool_decide (pending_response c = Some (receipt_sequence receipt))
      then interest false else None
  | None => interest (input_enabled (machine c))
  end.

Definition poll_interests s : list PollInterest :=
  (if negb (shutting_down s) && bool_decide (response_barrier s = None)
   then [mk_interest (listener_token s) (listener_fd (listener s)) true false] else [])
  ++ omap (peer_interest (response_barrier s)) (entries s).

Definition connection_id_for_token (t : N) s : option N :=
  (λ p, p.2.1) <$> list_find (λ p : N * Connection, token p.2 = t) (entries s).

(** [Iterator::min] over the deadlines there are. *)
Definition min_of (deadlines : list N) : option N :=
  match deadlines with
  | [] => None
  | d :: rest => Some (foldl N.min d rest)
  end.

Definition next_deadline s : option N :=
  match response_barrier s with
  | Some receipt =>
      c ← connections s !! receipt_connection receipt;
      if decide (pending_response c = Some (receipt_sequence receipt))
      then Control.next_deadline (machine c) else None
  | None => min_of (omap (λ p, Control.next_deadline (machine p.2)) (entries s))
  end.

Definition is_shutdown_complete s : bool :=
  shutting_down s && bool_decide (connections s = ∅).

(** ** Operations *)

Section server.
Context `{JsonErrors, !Wire Request, !Wire Response, !Wire Event}.
Context (CARGO_PKG_VERSION : rstring).

Abbreviation method := (stm ControlServer (failure ControlError)).

(** [get_mut(..).expect(..)], then a method of its machine. *)
Definition on_machine (id : N) (f : ConnectionMachine → option (MachineAction * ConnectionMachine)) :
    method MachineAction :=
  s ← getS;
  c ← expect (connections s !! id);
  am ← expect (f (machine c));
  _ ← modify (put id (c <| machine := am.2 |>));
  mret am.1.

Definition expire_machine (now : N) c : MachineAction * Connection :=
  let '(a, m) := Control.expire now (machine c) in (a, c <| machine := m |>).

Definition expire (now : N) s : ControlServer :=
  let stepped := expire_machine now <$> connections s in
  let due := filter (λ p : N * (MachineAction * Connection), is_close p.2.1 = true) (map_to_list stepped) in
  foldr remove (s <| connections := snd <$> stepped |>) due.*1.

Definition apply_machine_action (id : N) (action : MachineAction) : method (option ControlAction) :=
  match action with
  | ActNone => mret None
  | ActRequest request => mret (Some (ControlRequest id request))
  | OutboundFrameTooLarge | ActClose _ => _ ← modify (remove id); mret None
  end.

Definition admit_connection (now : N) (accepted id t : N) s : ControlServer :=
  s <| next_connection_id := u64_checked_add id 1 |> <| next_token := u64_checked_add t 1 |>
    <| connections := <[id := mk_connection accepted t (Control.new now CARGO_PKG_VERSION)
                                (Some 1%N) None None]> (connections s) |>.

Definition accept_one (io : Sockets) (now : N) : method unit :=
  s ← getS;
  match accept_with io (listener_fd (listener s)) with
  | Err (INTR | AGAIN | CONNABORTED) => mret tt
  | Err ((MFILE | NFILE | NOBUFS | NOMEM) as error) => raise (ResourceExhausted error)
  | Err error => raise (ListenerIo error)
  | Ok accepted =>
      if negb (bool_decide (socket_peercred io accepted = Ok (retained_euid (listener s)))) then mret tt
      else if size (connections s) =? CONNECTION_LIMIT then mret tt
      else
        match next_connection_id s, next_token s with
        | Some id, Some t => modify (admit_connection now accepted id t)
        | _, _ => mret tt
        end
  end.

Definition receive_one (io : Sockets) (now : N) (id : N) : method (option ControlAction) :=
  s ← getS;
  c ← expect (connections s !! id);
  match recv io (fd c) MAX_FRAME_BYTES with
  | Ok [] => a ← on_machine id (λ m, Some (read_eof m)); apply_machine_action id a
  | Ok bytes => a ← on_machine id (ingest now bytes); apply_machine_action id a
  | Err (INTR | AGAIN) => mret None
  | Err CONNRESET => _ ← modify (remove id); mret None
  | Err error => _ ← modify (remove id); raise (PeerIo id error)
  end.

(** [pending_response.take()] once nothing is left to write *)
Definition take_drained c : Connection :=
  match output_remaining (machine c), pending_response c with
  | None, Some sequence => c <| pending_response := None |> <| last_drained_response := Some sequence |>
  | _, _ => c
  end.

Definition send_one (io : Sockets) (now : N) (id : N) : method (option ControlAction) :=
  s ← getS;
  c ← expect (connections s !! id);
  bytes ← expect (output_remaining (machine c));
  match send io (fd c) bytes with
  | Ok count =>
      a ← on_machine id (advance_output now count);
      _ ← (if is_close a then mret tt
           else s ← getS; c ← expect (connections s !! id); modify (put id (take_drained c)));
      apply_machine_action id a
  | Err (INTR | AGAIN) => mret None
  | Err (CONNRESET | PIPE) => _ ← modify (remove id); mret None
  | Err error => _ ← modify (remove id); raise (PeerIo id error)
  end.

(** While a barrier is up only its connection is served, and only for writing. *)
Definition service_barrier (io : Sockets) (now : N) (ready : ReadyEvent) (receipt : ResponseReceipt) :
    method (option ControlAction) :=
  s ← getS;
  if negb (bool_decide (response_settlement receipt s = Pending)) then mret None
  else
    match connections s !! receipt_connection receipt with
    | None => mret None
    | Some c =>
        if negb (token c =? ready_token ready)%N then mret None
        else if terminal ready then _ ← modify (remove (receipt_connection receipt)); mret None
        else if writable ready then send_one io now (receipt_connection receipt)
        else mret None
    end.

Definition service_listener (io : Sockets) (now : N) (ready : ReadyEvent) : method (option ControlAction) :=
  s ← getS;
  if shutting_down s then mret None
  else if terminal ready then raise ListenerTerminal
  else if negb (readable ready) then mret None
  else _ ← accept_one io now; mret None.

Definition service_peer (io : Sockets) (now : N) (ready : ReadyEvent) (id : N) : method (option ControlAction) :=
  s ← getS;
  match connections s !! id with
  | None => mret None
  | Some c =>
      if readable ready && input_enabled (machine c) then receive_one io now id
      else if terminal ready then _ ← modify (remove id); mret None
      else if writable ready && has_output c then send_one io now id
      else mret None
  end.

Definition service_one (io : Sockets) (now : N) (ready : ReadyEvent) : method (option ControlAction) :=
  _ ← modify (expire now);
  s ← getS;
  match response_barrier s with
  | Some receipt => service_barrier io now ready receipt
  | None =>
      if (ready_token ready =? listener_token s)%N then service_listener io now ready
      else match connection_id_for_token (ready_token ready) s with
           | Some id => service_peer io now ready id
           | None => mret None
           end
  end.

Definition complete_request (now : N) (id : N) (response : Response) : method ResponseReceipt :=
  s ← getS;
  if shutting_down s then raise ShuttingDown
  else
    match connections s !! id with
    | None => raise (StaleConnection id)
    | Some c =>
        match next_response_sequence c with
        | None => _ ← modify (remove id); raise (ResponseSequenceExhausted id)
        | Some sequence =>
            am ← expect (Control.complete_request now response (machine c));
            match am.1 with
            | OutboundFrameTooLarge => _ ← modify (remove id); raise (OutboundFramesTooLarge [id])
            | _ =>
                _ ← modify (put id (c <| machine := am.2 |> <| pending_response := Some sequence |>
                                      <| next_response_sequence := u64_checked_add sequence 1 |>));
                mret (mk_receipt id sequence)
            end
        end
    end.

Definition begin_response_barrier (receipt : ResponseReceipt) : method ResponseSettlement :=
  s ← getS;
  let settlement := response_settlement receipt s in
  if negb (bool_decide (settlement = Pending)) then mret settlement
  else
    match response_barrier s with
    | Some active =>
        if decide (active = receipt) then mret settlement
        else raise (ResponseBarrierConflict active receipt)
    | None => _ ← modify (set response_barrier (λ _, Some receipt)); mret settlement
    end.

Definition complete_subscribe (now : N) (id : N) (state : RealmState) : method unit :=
  s ← getS;
  if shutting_down s then raise ShuttingDown
  else
    match connections s !! id with
    | None => raise (StaleConnection id)
    | Some _ =>
        a ← on_machine id (Control.complete_subscribe now state);
        match a with
        | OutboundFrameTooLarge => _ ← modify (remove id); raise (OutboundFramesTooLarge [id])
        | _ => mret tt
        end
    end.

(** One method on each listed connection's machine; a closed one is removed. *)
Fixpoint each_machine (f : ConnectionMachine → option (MachineAction * ConnectionMachine)) (ids : list N) :
    method unit :=
  match ids with
  | [] => mret tt
  | id :: ids =>
      a ← on_machine id f;
      _ ← (if is_close a then modify (remove id) else mret tt);
      each_machine f ids
  end.

Definition subscribers s : list N :=
  (filter (λ p : N * Connection, phase (machine p.2) = Subscriber) (entries s)).*1.

Definition publish_state (now : N) (state : RealmState) : method unit :=
  s ← getS;
  if shutting_down s then raise ShuttingDown
  else if is_nil (subscribers s) then mret tt
  else
    frame ← expect (encode_bytes (EventState state));
    match frame with
    | None =>
        _ ← modify (λ s, foldr remove s (subscribers s));
        raise (OutboundFramesTooLarge (subscribers s))
    | Some frame => each_machine (λ m, Some (Control.publish_state now frame m)) (subscribers s)
    end.

Definition begin_shutdown (now : N) : method unit :=
  s ← getS;
  if shutting_down s then mret tt
  else
    _ ← modify (λ s, s <| response_barrier := None |> <| shutting_down := true |>);
    each_machine (Control.begin_shutdown now) (keys s).
End server.
