(* ===== verification/ServerConn.v ===== *)
(** * The control server: one connection's machine

    What each call of the server on a [ConnectionMachine] leaves behind: a machine
    that stays open and keeps its promises to the server (which request is pending,
    whether a reply is on its way out), or an action that closes it. *)

From Stdlib Require Import ZArith Lia.
From stdpp Require Import prelude list gmap sorting.
From S2P Require Import Prelude Layout Ledger Projection Keys State Backend Snapshot Visible Authority Session Utf8 Ipc Control ControlInv ControlConn Server.

Implicit Types (s : ControlServer) (m : ConnectionMachine).

(** ** A machine the server keeps *)

(** The messages of the terminal errors. *)
Definition terminal_messages : list rstring :=
  [lit "expected Hello"; lit "invalid request"; lit "duplicate Hello"].

Definition retained_ok m : Prop :=
  ∀ message, retained m = Some (TerminalError message) → message ∈ terminal_messages.

(** A reply is on its way out. *)
Definition replying m : Prop := phase m = Ready ∧ is_Some (output m).

(** serde_json renders the short terminal errors within the frame limit. *)
Class ErrorsFit `{JsonErrors, !Wire Response} : Prop := {
  errors_fit : ∀ message, message ∈ terminal_messages →
    ∃ frame, encode_bytes (RespError UnknownRequest message) = Some (Some frame)
}.

Section machine.
Context `{JsonErrors, !Wire Request, !Wire Response, !Wire Event}.
Context `{!WireText Response, !WireText Event, !ErrorsFit}.

Record live m : Prop := {
  lv_wf : machine_wf m;
  lv_open : phase m ≠ Closing;
  lv_retained : retained_ok m
}.

Lemma live_new now session : live (Control.new now session).
Proof. split; [apply new_wf|done|done]. Qed.

(** *** Reading *)

Lemma terminal_error_open now message m m' :
  message ∈ terminal_messages → queue_terminal_error now message m = Some m' →
  phase m' = CloseAfterReply ∧ retained m' = retained m.
Proof.
  intros Hin. unfold queue_terminal_error.
  destruct (errors_fit message Hin) as [frame ->]. by intros [= <-].
Qed.

(** What a call leaves unless it closes the connection. *)
Record tracked m (a : MachineAction) m' : Prop := {
  tr_open : phase m' ≠ Closing;
  tr_retained : retained_ok m';
  tr_output : phase m' = Ready → phase m = Ready ∧ output m' = output m;
  tr_request : ∀ r, a = ActRequest r → pending_subscribe m' = bool_decide (r = ReqSubscribe)
}.

Definition flow_tracked m (is_last : bool) (f : Flow) : Prop :=
  match f with
  | FlowReturn (a, _) => is_close a = true
  | FlowBreak m' => tracked m ActNone m'
  | FlowNext a m' => tracked m a m' ∧ (a = ActNone ∨ is_last = true)
  end.

Lemma tracked_late m a m' :
  phase m' = CloseAfterReply ∨ phase m' = SendingHello → retained_ok m' → a = ActNone →
  tracked m a m'.
Proof. intros Hp Hr ->. split; [by destruct Hp as [-> | ->]|done|by destruct Hp as [-> | ->]|done]. Qed.

Lemma lit_break_tracked now message is_last m f :
  message ∈ terminal_messages → retained_ok m →
  lit_break now message m = Some f → flow_tracked m is_last f.
Proof.
  intros Hin Hr (m' & [Hp Hr']%terminal_error_open & ->)%fmap_Some; [|done].
  apply tracked_late; [by left| |done]. intros msg. rewrite Hr'. apply Hr.
Qed.

Ltac message := unfold terminal_messages; set_solver.

Lemma ingest_frame_tracked now frame is_last m f :
  phase m ≠ Closing → retained_ok m →
  ingest_frame now frame ActNone is_last m = Some f → flow_tracked m is_last f.
Proof.
  intros Hc Hr. unfold ingest_frame, await_hello_frame, sending_hello_frame, ready_frame.
  assert (∀ r g, Some (FlowReturn (close r g)) = Some f → flow_tracked m is_last f) as Hclose
    by by intros r g [= <-].
  assert (phase m = SendingHello → ∀ r, (∀ msg, r = TerminalError msg → msg ∈ terminal_messages) →
    flow_tracked m is_last (if is_last then FlowNext ActNone (m <| retained := Some r |>)
      else FlowReturn (close ExcessPipeline (m <| retained := Some r |>)))) as Hk.
  { intros Hp r Hin. destruct is_last; [|done]. split; [|by left]. apply tracked_late; [by right| |done].
    intros msg [= ->]. by apply Hin. }
  destruct (phase m) eqn:Hp; try (by apply Hclose); destruct (decode_frame frame) as [req| |];
    try (by apply Hclose); try (by apply lit_break_tracked; [message|]).
  - destruct req; try (by apply lit_break_tracked; [message|]).
    intros ([a m'] & Hq & Hf)%bind_Some. revert Hq Hf. unfold queue_hello.
    intros ([bytes|] & _ & [= <- <-])%bind_Some; [|by intros [= <-]].
    destruct (_ =? _)%N; intros [= <-].
    + split; [|by left]. apply tracked_late; [by right|done|done].
    + apply tracked_late; [by left|done|done].
  - destruct req; intros [= <-]; (apply Hk; [done|]); intros msg [= <-]; message.
  - intros [= <-]. apply Hk; [done|]. intros msg [= <-]. message.
  - assert (Some (if is_last then FlowNext (ActRequest req) (begin_request req m)
      else FlowReturn (close ExcessPipeline (begin_request req m))) = Some f → flow_tracked m is_last f) as Hb.
    { intros [= <-]. destruct is_last; [|done]. split; [|by right].
      split; [by cbn; rewrite Hp|done|done|by intros r [= <-]]. }
    destruct req; try (by apply Hb). by apply lit_break_tracked; [message|].
Qed.

Lemma arm_partial_same now m :
  phase (arm_partial now m) = phase m ∧ output (arm_partial now m) = output m
  ∧ retained (arm_partial now m) = retained m.
Proof. unfold arm_partial. by case_match. Qed.

Lemma tracked_trans m1 m2 m3 a :
  tracked m1 ActNone m2 → tracked m2 a m3 → tracked m1 a m3.
Proof.
  intros [_ _ Ho1 _] [? ? Ho2 ?]. split; try done.
  intros [Hp2 ->]%Ho2. by apply Ho1.
Qed.

Lemma tracked_same m m' :
  phase m' = phase m → output m' = output m → retained m' = retained m →
  phase m ≠ Closing → retained_ok m → tracked m ActNone m'.
Proof.
  intros Hp Ho Hr Hc Hok. split; [congruence| |by rewrite Hp, Ho|done].
  intros msg. rewrite Hr. apply Hok.
Qed.

Lemma ingest_bytes_tracked now bytes action m a m' :
  phase m ≠ Closing → retained_ok m → action = ActNone ∨ bytes = [] →
  (∀ r, action = ActRequest r → pending_subscribe m = bool_decide (r = ReqSubscribe)) →
  ingest_bytes now bytes action m = Some (a, m') → is_close a = true ∨ tracked m a m'.
Proof.
  revert action m. induction bytes as [|byte bytes IH]; intros action m Hc Hr Ha Hs; cbn [ingest_bytes].
  { intros [= -> ->]. by right. }
  destruct Ha as [->|]; [|done]. case_match; [intros [= <- <-]; by left|]. cbv zeta.
  destruct (arm_partial_same now m) as (Ep & Eo & Er). set (m1 := arm_partial now m) in *.
  assert (∀ buffer p, tracked m ActNone (m1 <| input := buffer |> <| partial_deadline := p |>)) as Hk1
    by (intros; by apply tracked_same).
  destruct (push byte (input m1)) as [[|frame|] buffer].
  - intros Hb. apply IH in Hb; [|cbn; congruence|intros msg; cbn; rewrite Er; apply Hr|by left|done].
    destruct Hb as [|Hb]; [by left|right]. eapply tracked_trans; [|apply Hb]. by apply tracked_same.
  - intros (f & Hf & Hb)%bind_Some. specialize (Hk1 buffer None).
    apply ingest_frame_tracked in Hf; [|apply Hk1..].
    destruct f as [[a1 m2]|m2|a1 m2]; cbn in Hf.
    + injection Hb as -> ->. by left.
    + injection Hb as <- <-. right. by eapply tracked_trans.
    + destruct Hf as [Hf Hlast]. destruct bytes as [|b bytes].
      { injection Hb as <- <-. right. by eapply tracked_trans. }
      destruct Hlast as [->|]; [|done].
      apply IH in Hb; [|apply Hf..|by left|done]. destruct Hb as [|Hb]; [by left|right].
      eapply tracked_trans; [exact Hk1|]. by eapply tracked_trans.
  - intros [= <- <-]. by left.
Qed.

(** The request a call hands out is the one that is pending after it. *)
Definition asked (a : MachineAction) m' : Prop :=
  match a with
  | ActNone => request_pending m' = false
  | ActRequest r => request_pending m' = true ∧ pending_subscribe m' = bool_decide (r = ReqSubscribe)
  | _ => False
  end.

(** What a read or a write leaves, unless it closes the connection. *)
Record served m a m' : Prop := {
  sv_live : live m';
  sv_asked : asked a m';
  sv_subscriber : phase m = Subscriber →
    phase m' = Subscriber ∧ shutdown_deadline m' = shutdown_deadline m;
  sv_subscribed : phase m' = Subscriber → phase m = Subscriber;
  sv_replying : replying m → a = ActNone
}.

(** The machine agrees with the server on the shutdown. *)
Definition shutting_ok (shutting : bool) m : Prop :=
  if shutting then phase m = Subscriber ∧ is_Some (shutdown_deadline m)
  else Control.shutting_down m = false.

Lemma served_shutting m a m' b : live m → served m a m' → shutting_ok b m → shutting_ok b m'.
Proof.
  intros [Hm _ _] [[Hm' Hc' _] _ Hs Hs' _]. destruct b; cbn.
  - intros [Hp Hd]. destruct (Hs Hp) as [? ->]. done.
  - intros Hf. destruct (Control.shutting_down m') eqn:E; [|done]. exfalso.
    destruct (mw_shutting m' Hm' E) as [Hp'|]; [|done]. pose proof (Hs' Hp') as Hp.
    apply (mw_shutdown m' Hm' Hp') in E. destruct (Hs Hp) as [_ Ed]. rewrite Ed in E.
    apply (mw_shutdown m Hm Hp) in E. congruence.
Qed.

Lemma reading_idle m : live m → input_enabled m = true → request_pending m = false ∧ ¬ replying m.
Proof.
  intros [Hm _ _] He. unfold input_enabled, replying in *. destruct (read_half_closed m); [done|].
  destruct (decide (phase m = Ready)) as [Hp|Hp].
  - rewrite Hp in *. apply andb_true_iff in He as [[_ Hr]%andb_true_iff Ho%bool_decide_eq_true].
    apply negb_true_iff in Hr. split; [done|]. rewrite Ho. by intros [_ []].
  - split; [by apply not_pending|]. by intros [? _].
Qed.

Lemma live_ingest now bytes m :
  live m → input_enabled m = true →
  ∃ a m', ingest now bytes m = Some (a, m')
    ∧ (is_close a = true ∨ served m a m' ∧ ¬ replying m').
Proof.
  intros Hl He. pose proof Hl as [Hm Hc Hr]. pose proof (reading_idle m Hl He) as [Hpe Hre].
  destruct (ingest_ok now bytes m Hm He) as (a & m' & Hi & Hcase). exists a, m'. split; [done|].
  destruct Hcase as [[-> ->]|[(Ho & Hns & Hm' & Hf & Ha)|[r0 [= -> ->]]]]; [by right; split; [by split|]|..|by left].
  generalize Hi. unfold ingest at 1. destruct (is_nil bytes); [intros [= <- <-]; by right; split|].
  case_bool_decide; [done|]. destruct (_ || Control.shutting_down m); [intros [= <- <-]; by left|].
  intros [|[Ht1 Ht2 Ht3 Ht4]]%ingest_bytes_tracked; [by left| |done..|by left|done]. right.
  split; [|by intros [Hp' [? Ho']]; destruct (Ht3 Hp') as [? E]; congruence].
  split; [done| |done|by apply (ingest_keeps _ _ _ _ _ Hi)|by intros ?%Hre]. unfold asked. destruct a; try done.
  by split; [apply Ha|apply Ht4].
Qed.

Lemma live_read_eof m :
  live m → input_enabled m = true →
  is_close (read_eof m).1 = true ∨ served m (read_eof m).1 (read_eof m).2 ∧ ¬ replying (read_eof m).2.
Proof.
  intros Hl He. pose proof Hl as [Hm Hc Hr]. pose proof (reading_idle m Hl He) as [Hpe Hre].
  destruct (read_eof_ok m Hm He) as [Hm' [(r & E & _)|E]].
  - left. by rewrite E.
  - right. rewrite E in Hm' |- *. split; [|done]. by split; [split| | | |].
Qed.

(** *** Writing *)

Lemma output_idle m : live m → is_Some (output m) → request_pending m = false.
Proof.
  intros [Hm _ _] [c Ho]. destruct (request_pending m) eqn:E; [|done].
  destruct (pending_ready m Hm E) as (_ & _ & ? & _). congruence.
Qed.

Lemma output_done_tracked now (c : OutputCursor) m a m' :
  phase m ≠ Closing → retained_ok m →
  output_done now (class c) (m <| output := None |> <| output_deadline := None |>) = Some (a, m') →
  is_close a = true ∨ phase m' ≠ Closing ∧ retained_ok m'
    ∧ (∀ r, a = ActRequest r → pending_subscribe m' = bool_decide (r = ReqSubscribe))
    ∧ shutdown_deadline m' = shutdown_deadline m.
Proof.
  intros Hc Hr. unfold output_done. destruct (class c).
  - case_decide; [intros [= <- <-]; by left|]. cbn. destruct (retained m) as [[req|message]|] eqn:E.
    + intros [= <- <-]. right. split_and!; try done. by intros r [= <-].
    + intros (m1 & Hq & [= -> ->])%fmap_Some. right.
      pose proof (terminal_error_open _ _ _ _ (Hr _ E) Hq) as [Hp Hret].
      split_and!; [congruence|intros msg; by rewrite Hret|done|].
      revert Hq. unfold queue_terminal_error. intros ([bytes|] & He & [= <-])%bind_Some; [done|].
      destruct (errors_fit message (Hr _ E)). congruence.
    + cbn. destruct (read_half_closed m); intros [= <- <-]; [by left|]. by right.
  - cbn. destruct (read_half_closed m); intros [= <- <-]; [by left|]. by right.
  - unfold finish_subscriber_output. cbn. destruct (latest m); [intros [= <- <-]; by right|].
    destruct (Control.shutting_down m); intros [= <- <-]; [by left|by right].
  - unfold finish_subscriber_output. cbn. destruct (latest m); [intros [= <- <-]; by right|].
    destruct (Control.shutting_down m); intros [= <- <-]; [by left|by right].
  - intros [= <- <-]. by left.
  - intros [= <- <-]. by left.
Qed.

Lemma live_advance now count (c : OutputCursor) m :
  live m → output m = Some c → count ≤ length (remaining c) →
  ∃ a m', advance_output now count m = Some (a, m')
    ∧ (is_close a = true ∨ served m a m'
       ∧ (replying m' → replying m)
       ∧ (replying m → replying m' ∨ output m' = None ∧ count = length (remaining c))).
Proof.
  intros Hl Ho Hcount. pose proof Hl as [Hm Hc Hr].
  destruct (advance_output_ok now count c m Hm Ho Hcount) as (a & m' & Ha & Hm' & Hadv).
  exists a, m'. split; [done|]. pose proof (output_idle m Hl ltac:(by eexists)) as Hpe.
  destruct (mw_output m Hm c Ho) as [_ Hoff]. unfold remaining in *. rewrite length_drop in Hcount.
  unfold advanced in Hadv. destruct (Nat.eqb_spec (offset c + count) (length (out_bytes c))) as [Hend|Hend].
  2: { destruct Hadv as [-> (p & ->)]. right. split_and!; [split; [split; [done..|]|done|done|done|done]; by apply Hr| |].
       - intros [Hp _]. split; [done|by eexists].
       - intros [Hp _]. left. split; [done|by eexists]. }
  destruct Hadv as [Hf Hw]. revert Ha. unfold advance_output, advance. rewrite Ho.
  unfold remaining. rewrite length_drop, (proj2 (Nat.leb_le _ _)) by lia.
  cbn [offset out_bytes]. rewrite (proj2 (Nat.eqb_eq _ _)) by done. cbn.
  match goal with |- output_done _ _ (?x <| output := None |> <| output_deadline := None |>) = _ → _ =>
    assert (∃ p, x = m <| output_deadline := p |>) as [p ->]
      by (case_match; [by eexists|by exists (output_deadline m); destruct m]) end.
  change (m <| output_deadline := p |> <| output := None |> <| output_deadline := None |>)
    with (m <| output := None |> <| output_deadline := None |>).
  intros [|(Hc' & Hr' & Hreq & Hsd)]%output_done_tracked; [by left| |done..]. right.
  destruct Hw as [[? _]|Hw]; [done|]. unfold replying.
  destruct (phase m) eqn:Hp; try done.
  - destruct Hw as (_ & [(Hp' & Ho' & Hact)|([Hp'|?] & -> & Hpe')]); [| |done].
    + split_and!; [|by rewrite Ho'; intros [_ []]|by intros []].
      split; [by split| |congruence|congruence|intros []; congruence].
      destruct Hact as [[-> ?]|[[req ->] ?]]; [done|]. split; [done|by apply Hreq].
    + rewrite Hp'. split_and!; [by split; [split| |congruence|congruence|]|by intros []|by intros []].
  - destruct Hw as (-> & Hp' & Ho' & Hpe'). split_and!; [by split; [split| |congruence|congruence|]| |].
    + by rewrite Ho'; intros [_ []].
    + intros _. right. split; [done|]. lia.
  - destruct Hw as (-> & Hp' & Hpe' & _).
    split_and!; [by split; [split| | | |]|rewrite Hp'; by intros []|by intros []].
Qed.

(** *** Replies, publications and the shutdown *)

Lemma live_complete_request now response m :
  live m → request_pending m = true → pending_subscribe m = false →
  ∃ a m', Control.complete_request now response m = Some (a, m')
    ∧ (a = OutboundFrameTooLarge
       ∨ a = ActNone ∧ live m' ∧ request_pending m' = false ∧ replying m'
         ∧ Control.shutting_down m' = false).
Proof.
  intros Hl Hpe Hs. pose proof Hl as [Hm Hc Hr].
  destruct (complete_request_ok now response m Hm) as (a & m' & Hcr & Hm' & Hcase).
  exists a, m'. split; [done|].
  destruct (pending_ready m Hm Hpe) as (Hp & _ & _ & Hret).
  pose proof (before_subscription m Hm ltac:(congruence) Hc) as [_ _ Hsd].
  revert Hcr. unfold Control.complete_request. rewrite Hsd, Hpe, Hs. cbn.
  intros ([frame|] & _ & [= <- <-])%bind_Some; [right|by left].
  split_and!; [done| |done|split; [by cbn|by eexists]|done]. split; [done|done|]. intros msg. cbn. congruence.
Qed.

Lemma live_complete_subscribe now state m :
  live m → request_pending m = true → pending_subscribe m = true →
  ∃ a m', Control.complete_subscribe now state m = Some (a, m')
    ∧ (a = OutboundFrameTooLarge
       ∨ a = ActNone ∧ live m' ∧ request_pending m' = false ∧ ¬ replying m ∧ ¬ replying m'
         ∧ Control.shutting_down m' = false).
Proof.
  intros Hl Hpe Hs. pose proof Hl as [Hm Hc Hr].
  destruct (complete_subscribe_ok now state m Hm) as (a & m' & Hcr & Hm' & Hcase).
  exists a, m'. split; [done|].
  destruct (pending_ready m Hm Hpe) as (Hp & _ & Ho & Hret).
  pose proof (before_subscription m Hm ltac:(congruence) Hc) as [_ _ Hsd].
  revert Hcr. unfold Control.complete_subscribe. rewrite Hsd, Hpe, Hs. cbn.
  intros ([frame|] & _ & [= <- <-])%bind_Some; [right|by left]. unfold replying.
  split_and!; [done| |done|rewrite Ho; by intros [_ []]|by intros []|done]. split; [done|done|]. intros msg. cbn. congruence.
Qed.

(** What a publication or the shutdown leaves of the machine. *)
Record stepped m m' : Prop := {
  sp_live : live m';
  sp_pending : request_pending m' = request_pending m;
  sp_subscribe : pending_subscribe m' = pending_subscribe m;
  sp_replying : replying m' ↔ replying m
}.

Lemma stepped_refl m : live m → stepped m m.
Proof. by split. Qed.

Lemma live_publish now frame m :
  live m → Control.shutting_down m = false → is_close (Control.publish_state now frame m).1 = true
    ∨ (Control.publish_state now frame m).1 = ActNone ∧ stepped m (Control.publish_state now frame m).2
      ∧ shutting_ok false (Control.publish_state now frame m).2.
Proof.
  intros Hl Hs. pose proof Hl as [Hm Hc Hr].
  destruct (publish_state_ok now frame m Hm) as [Hm' _]. revert Hm'. unfold Control.publish_state.
  case_bool_decide as Hp; cbn; [|right; split_and!; [done|by apply stepped_refl|done]].
  rewrite Hs. destruct (_ || _); [by left|]. intros Hm'. right. revert Hm'.
  destruct (output m) as [c|] eqn:Ho; cbn; intros Hm'; (split_and!; [done| |done]);
    (split; [by split|done|done|]); unfold replying; cbn; rewrite Hp; by split; intros [].
Qed.

Lemma live_begin_shutdown now m :
  live m → Control.shutting_down m = false →
  ∃ a m', Control.begin_shutdown now m = Some (a, m')
    ∧ (is_close a = true
       ∨ a = ActNone ∧ stepped m m' ∧ phase m = Subscriber ∧ phase m' = Subscriber
         ∧ shutdown_deadline m' = Some (now + TERMINAL_TIMEOUT)%N).
Proof.
  intros Hl Hs. pose proof Hl as [Hm Hc Hr].
  destruct (shutting_down_ok now m Hm) as (a & m' & Hb & Hm' & _). exists a, m'. split; [done|].
  assert (shutdown_deadline m = None) as Hn.
  { apply eq_None_not_Some. intros Hsd. pose proof (mw_shutdown_phase m Hm Hsd) as Hp.
    apply (mw_shutdown m Hm Hp) in Hsd. congruence. }
  revert Hb. unfold Control.begin_shutdown. rewrite Hn, bool_decide_false by by intros [].
  rewrite bool_decide_false by done. cbn. case_bool_decide as Hp; [|intros [= <- <-]; by left].
  intros ([frame|] & _ & E)%bind_Some; [right|injection E as <- <-; by left].
  injection E as <- E. split; [done|].
  assert (∃ o l, m' = m <| Control.shutting_down := true |>
    <| shutdown_deadline := Some (now + TERMINAL_TIMEOUT)%N |> <| latest := l |> <| output := o |>) as (o & l & Em).
  { exists (output m'), (latest m'). rewrite <-E. by repeat case_match; destruct m. }
  rewrite Em in Hm' |- *. split_and!; try done. split; try done.
  unfold replying. cbn. rewrite Hp. by split; intros [].
Qed.
End machine.
