(* ===== verification/ServerInv.v ===== *)
(** * The control server: invariant

    The server with the requests it has handed out and the receipts it has issued,
    the invariant between the calls of the daemon's reactor, and its preservation
    by every operation. *)

From Stdlib Require Import ZArith Lia.
From stdpp Require Import prelude list gmap sorting.
From S2P Require Import Prelude Layout Ledger Projection Keys State Backend Snapshot Visible Authority Hoare Session Utf8 Ipc Control ControlInv ControlConn Server ServerConn.

Implicit Types (c : Connection) (m : ConnectionMachine).

(** ** Receipts *)

(** The last sequence issued on a connection, and the last one drained. *)
Definition issued c : N :=
  match next_response_sequence c with Some n => n - 1 | None => u64_max end.

Definition drained_upto c : N := default 0%N (last_drained_response c).

(** Every sequence issued is drained, except the one that is pending. *)
Record sequence_wf c : Prop := {
  sq_next : ∀ n, next_response_sequence c = Some n → (1 <= n <= u64_max)%N;
  sq_pending : match pending_response c with
    | Some q => q = issued c ∧ (0 < q)%N ∧ drained_upto c = (q - 1)%N
    | None => drained_upto c = issued c
    end
}.

(** A receipt of the connection. *)
Definition issued_by c (sequence : N) : Prop := (1 <= sequence <= issued c)%N.

Lemma settlement_issued r s c :
  connections s !! receipt_connection r = Some c → sequence_wf c → issued_by c (receipt_sequence r) →
  response_settlement r s =
    if decide (pending_response c = Some (receipt_sequence r)) then Pending else Drained.
Proof.
  intros Hc [_ Hp] [Hlo Hhi]. unfold response_settlement. rewrite Hc. case_decide as E; [done|].
  assert (receipt_sequence r <= drained_upto c)%N as Hd.
  { destruct (pending_response c) as [q|]; [|lia]. destruct Hp as (-> & ? & ->).
    assert (receipt_sequence r ≠ issued c) by congruence. lia. }
  unfold drained_upto in Hd. destruct (last_drained_response c) as [d|]; cbn in Hd; [|lia].
  by rewrite (proj2 (N.leb_le _ _)).
Qed.

Lemma settlement_closed r s :
  connections s !! receipt_connection r = None → response_settlement r s = Closed.
Proof. unfold response_settlement. by intros ->. Qed.

(** ** The invariant *)

Section server.
Context `{JsonErrors, !Wire Request, !Wire Response, !Wire Event}.
Context `{!WireText Response, !WireText Event, !ErrorsFit}.
Context (CARGO_PKG_VERSION : rstring).

(** The machine is in a state of its connection's own step relation. *)
Definition connection_runs m : Prop :=
  ∃ now conn, rtc conn_step (connect now CARGO_PKG_VERSION) conn ∧ ControlConn.machine conn = m.

Record connection_ok (owed : option Request) c : Prop := {
  ck_live : live (machine c);
  ck_runs : connection_runs (machine c);
  ck_sequence : sequence_wf c;
  ck_reply : is_Some (pending_response c) ↔ replying (machine c);
  ck_owed : match owed with
    | Some r => request_pending (machine c) = true
                ∧ pending_subscribe (machine c) = bool_decide (r = ReqSubscribe)
    | None => request_pending (machine c) = false
    end
}.

(** An identifier that was given out before. *)
Definition used (next : option N) (id : N) : Prop := (1 <= id)%N ∧ ∀ n, next = Some n → (id < n)%N.

Implicit Types (owed : gmap N Request) (receipts : list ResponseReceipt) (s : ControlServer).

Record server_wf owed receipts s : Prop := {
  sw_limit : size (connections s) ≤ CONNECTION_LIMIT;
  sw_id : ∀ id c, connections s !! id = Some c → used (next_connection_id s) id;
  sw_token : ∀ id c, connections s !! id = Some c → used (next_token s) (token c);
  sw_token_inj : ∀ id1 id2 c1 c2, connections s !! id1 = Some c1 → connections s !! id2 = Some c2 →
    token c1 = token c2 → id1 = id2;
  sw_next_id : ∀ n, next_connection_id s = Some n → (1 <= n)%N;
  sw_next_token : ∀ n, next_token s = Some n → (1 <= n)%N;
  sw_listener : listener_token s = 0%N;
  sw_connection : ∀ id c, connections s !! id = Some c → connection_ok (owed !! id) c;
  sw_owed : ∀ id, is_Some (owed !! id) → used (next_connection_id s) id;
  sw_receipt : ∀ r, r ∈ receipts → used (next_connection_id s) (receipt_connection r)
    ∧ ∀ c, connections s !! receipt_connection r = Some c → issued_by c (receipt_sequence r);
  sw_barrier : ∀ r, response_barrier s = Some r → used (next_connection_id s) (receipt_connection r)
    ∧ ∀ c, connections s !! receipt_connection r = Some c → issued_by c (receipt_sequence r);
  sw_unbarred : shutting_down s = true → response_barrier s = None;
  sw_shutting : ∀ id c, connections s !! id = Some c → shutting_ok (shutting_down s) (machine c)
}.

Lemma new_server_wf l : server_wf ∅ [] (Server.new l).
Proof.
  split; cbn; try done.
  - rewrite map_size_empty. unfold CONNECTION_LIMIT. lia.
  - by intros n [= <-].
  - by intros n [= <-].
  - intros id [? Hr]. by rewrite lookup_empty in Hr.
  - intros r Hr. by apply not_elem_of_nil in Hr.
Qed.

(** Connections may change in place or go; a barrier may be dropped, and the
    shutdown may begin. *)
Lemma server_wf_change owed owed' receipts s conns barrier shutting :
  server_wf owed receipts s →
  barrier = response_barrier s ∨ barrier = None → (shutting = true → barrier = None) →
  (∀ id, is_Some (owed' !! id) → used (next_connection_id s) id) →
  (∀ id c', conns !! id = Some c' → ∃ c, connections s !! id = Some c
     ∧ token c' = token c ∧ (issued c <= issued c')%N ∧ connection_ok (owed' !! id) c'
     ∧ shutting_ok shutting (machine c')) →
  server_wf owed' receipts
    (s <| connections := conns |> <| response_barrier := barrier |> <| shutting_down := shutting |>).
Proof.
  intros [Hlim Hid Htok Hinj Hni Hnt Hli Hco How Hre Hba Hub Hsh] Hbar Hnb Howed Hstep.
  assert (∀ r, used (next_connection_id s) (receipt_connection r)
    ∧ (∀ c, connections s !! receipt_connection r = Some c → issued_by c (receipt_sequence r)) →
    used (next_connection_id s) (receipt_connection r)
    ∧ (∀ c, conns !! receipt_connection r = Some c → issued_by c (receipt_sequence r))) as Hrec.
  { intros r [Hu Hi]. split; [done|]. intros c' Hc'. destruct (Hstep _ _ Hc') as (c & Hc & _ & Hle & _).
    destruct (Hi c Hc). split; lia. }
  split; cbn; try done.
  - etransitivity; [|exact Hlim]. rewrite <-!size_dom. apply subseteq_size.
    intros id. rewrite !elem_of_dom. intros [c' Hc']. destruct (Hstep _ _ Hc') as (c & ? & _). by eexists.
  - intros id c' Hc'. destruct (Hstep _ _ Hc') as (c & Hc & _). by eapply Hid.
  - intros id c' Hc'. destruct (Hstep _ _ Hc') as (c & Hc & -> & _). by eapply Htok.
  - intros id1 id2 c1' c2' Hc1 Hc2. destruct (Hstep _ _ Hc1) as (c1 & ? & -> & _).
    destruct (Hstep _ _ Hc2) as (c2 & ? & -> & _). by apply Hinj.
  - intros id c' Hc'. by destruct (Hstep _ _ Hc') as (c & _ & _ & _ & ? & _).
  - intros r Hr. by apply Hrec, Hre.
  - intros r Hr. apply Hrec, Hba. by destruct Hbar as [<-|E]; [|congruence].
  - intros id c' Hc'. by destruct (Hstep _ _ Hc') as (c & _ & _ & _ & _ & Hc2).
Qed.

Lemma server_wf_shrink owed owed' receipts s conns :
  server_wf owed receipts s →
  (∀ id, is_Some (owed' !! id) → used (next_connection_id s) id) →
  (∀ id c', conns !! id = Some c' → ∃ c, connections s !! id = Some c
     ∧ token c' = token c ∧ (issued c <= issued c')%N ∧ connection_ok (owed' !! id) c'
     ∧ shutting_ok (shutting_down s) (machine c')) →
  server_wf owed' receipts (s <| connections := conns |>).
Proof.
  intros Hw Ho Hstep.
  apply (server_wf_change owed owed' receipts s conns (response_barrier s) (shutting_down s)); try done.
  - by left.
  - apply (sw_unbarred _ _ _ Hw).
Qed.

Lemma server_wf_submap owed receipts s conns :
  server_wf owed receipts s → conns ⊆ connections s →
  server_wf owed receipts (s <| connections := conns |>).
Proof.
  intros Hw Hsub. eapply server_wf_shrink; [done|apply (sw_owed _ _ _ Hw)|].
  intros id c Hc. pose proof (lookup_weaken _ _ _ _ Hc Hsub) as Hc'. exists c.
  split_and!; [done|done|done|by apply (sw_connection _ _ _ Hw)|].
  by apply (sw_shutting _ _ _ Hw id).
Qed.

Lemma remove_wf owed receipts s id : server_wf owed receipts s → server_wf owed receipts (remove id s).
Proof. intros Hw. apply server_wf_submap; [done|]. apply delete_subseteq. Qed.

Lemma put_wf owed owed' receipts s id c c' :
  server_wf owed receipts s → connections s !! id = Some c → (∀ j, j ≠ id → owed' !! j = owed !! j) →
  token c' = token c → (issued c <= issued c')%N → connection_ok (owed' !! id) c' →
  shutting_ok (shutting_down s) (machine c') →
  server_wf owed' receipts (put id c' s).
Proof.
  intros Hw Hc Ho Ht Hi Hok Hsh. eapply server_wf_shrink; [done|..].
  - intros j Hj. destruct (decide (j = id)) as [->|Hne]; [by apply (sw_id _ _ _ Hw _ c)|].
    rewrite Ho in Hj by done. by apply (sw_owed _ _ _ Hw).
  - intros j c2. destruct (decide (j = id)) as [->|Hne].
    + rewrite lookup_insert_eq. intros [= <-]. by exists c.
    + rewrite lookup_insert_ne by done. intros Hc2. exists c2. rewrite Ho by done.
      split_and!; [done|done|done|by apply (sw_connection _ _ _ Hw)|].
      by apply (sw_shutting _ _ _ Hw j).
Qed.

(** A connection that is gone may be forgotten by those who owe it a reply. *)
Lemma owed_delete_wf owed receipts s id :
  server_wf owed receipts s → connections s !! id = None → server_wf (delete id owed) receipts s.
Proof.
  intros [Hlim Hid Htok Hinj Hni Hnt Hli Hco How Hre Hba Hub Hsh] Hn. split; try done.
  - intros j c Hc. rewrite lookup_delete_ne by congruence. by apply Hco.
  - intros j. rewrite lookup_delete_is_Some. intros [_ ?]. by apply How.
Qed.

(** ** From one state to the next *)

(** A connection before and after a call; [drains] says whether it may have
    written the last byte of a reply. *)
Record follows (drains : Prop) c c' : Prop := {
  fl_fd : fd c' = fd c;
  fl_token : token c' = token c;
  fl_issued : (issued c <= issued c')%N;
  fl_drained : drained_upto c' = drained_upto c ∨ (drained_upto c <= drained_upto c')%N ∧ drains
}.

Record evolves (drains : N → Connection → Prop) s s' : Prop := {
  ev_connection : ∀ id c', connections s' !! id = Some c' →
    (∃ c, connections s !! id = Some c ∧ follows (drains id c) c c')
    ∨ connections s !! id = None ∧ next_connection_id s = Some id;
  ev_used : ∀ id, used (next_connection_id s) id → used (next_connection_id s') id
}.

Definition drains_none (id : N) c : Prop := False.

Lemma follows_refl D c : follows D c c.
Proof. split; [done|done|lia|by left]. Qed.

Lemma evolves_submap D s s' :
  connections s' ⊆ connections s → next_connection_id s' = next_connection_id s → evolves D s s'.
Proof.
  intros Hsub Hn. split; [|by rewrite Hn]. intros id c Hc. left. exists c.
  split; [by eapply lookup_weaken|apply follows_refl].
Qed.

Lemma evolves_refl D s : evolves D s s.
Proof. by apply evolves_submap. Qed.

Lemma evolves_remove D s id : evolves D s (remove id s).
Proof. apply evolves_submap; [apply delete_subseteq|done]. Qed.

Lemma evolves_put (D : N → Connection → Prop) s id c c' :
  connections s !! id = Some c → follows (D id c) c c' → evolves D s (put id c' s).
Proof.
  intros Hc Hf. split; [|done]. intros j c2. cbn. destruct (decide (j = id)) as [->|].
  - rewrite lookup_insert_eq. intros [= <-]. left. by exists c.
  - rewrite lookup_insert_ne by done. intros ?. left. exists c2. split; [done|apply follows_refl].
Qed.

Lemma evolves_trans D1 D2 (D : N → Connection → Prop) s1 s2 s3 :
  next_connection_id s2 = next_connection_id s1 →
  (∀ id, is_Some (connections s1 !! id) → used (next_connection_id s1) id) →
  (∀ id c, D1 id c → D id c) →
  (∀ id c c', connections s1 !! id = Some c → connections s2 !! id = Some c' → D2 id c' → D id c) →
  evolves D1 s1 s2 → evolves D2 s2 s3 → evolves D s1 s3.
Proof.
  intros En Hid HD1 HD2 [Hc12 Hu12] [Hc23 Hu23]. split; [|by auto].
  intros id c3 Hc3. destruct (Hc23 id c3 Hc3) as [(c2 & Hc2 & [? ? ? Hd2])|[Hn2 Hx2]].
  - destruct (Hc12 id c2 Hc2) as [(c1 & Hc1 & [? ? ? Hd1])|[? ?]]; [|by right].
    left. exists c1. split; [done|]. split; [congruence|congruence|lia|].
    destruct Hd1 as [E1|[? ?]], Hd2 as [E2|[? ?]]; [left; congruence|right..]; (split; [lia|eauto]).
  - rewrite En in Hx2. destruct (connections s1 !! id) as [c1|] eqn:Hc1; [|by right].
    destruct (Hid id) as [_ Hlt]; [by eexists|]. specialize (Hlt id Hx2). lia.
Qed.

(** ** Expiry *)

(** The deadline of the connection has passed. *)
Definition overdue (now : N) c : bool := is_close (Control.expire now (machine c)).1.

Lemma expire_machine_spec now c :
  expire_machine now c = ((Control.expire now (machine c)).1,
    if overdue now c then c <| machine := (Control.expire now (machine c)).2 |> else c).
Proof.
  unfold expire_machine, overdue, Control.expire. destruct c. cbn.
  destruct (Control.next_deadline _) as [d|]; [|done]. by destruct (d <=? now)%N.
Qed.

Lemma foldr_remove ids s :
  connections (foldr remove s ids) = filter (λ p, p.1 ∉ ids) (connections s)
  ∧ foldr remove s ids <| connections := ∅ |> = s <| connections := ∅ |>.
Proof.
  induction ids as [|id ids [IH IHs]]; cbn.
  - split; [|by destruct s]. rewrite map_filter_id; [done|]. intros. apply not_elem_of_nil.
  - split; [|exact IHs]. rewrite IH. apply map_eq. intros j. apply option_eq. intros c.
    rewrite lookup_delete_Some, !map_lookup_filter_Some. cbn. rewrite not_elem_of_cons. naive_solver.
Qed.

Lemma expire_spec now s :
  expire now s = s <| connections := filter (λ p, overdue now p.2 = false) (connections s) |>.
Proof.
  unfold expire. set (due := (filter _ _).*1). set (stepped := s <| connections := _ |>).
  destruct (foldr_remove due stepped) as [Hc Hs].
  assert (connections (foldr remove stepped due)
    = filter (λ p, overdue now p.2 = false) (connections s)) as E.
  { rewrite Hc. apply map_eq. intros id. apply option_eq. intros c.
    rewrite !map_lookup_filter_Some. unfold stepped. cbn. rewrite !lookup_fmap.
    destruct (connections s !! id) as [c0|] eqn:Hc0; cbn; [|naive_solver].
    rewrite expire_machine_spec. cbn.
    assert (id ∈ due ↔ overdue now c0 = true) as ->.
    { unfold due. rewrite list_elem_of_fmap. setoid_rewrite list_elem_of_filter.
      split.
      - intros ([id' [a c1]] & -> & Ha & Hin). apply elem_of_map_to_list in Hin.
        cbn in *. rewrite lookup_fmap, Hc0 in Hin. cbn in Hin. rewrite expire_machine_spec in Hin.
        by injection Hin as <- _.
      - intros Ho. exists (id, expire_machine now c0). split; [done|]. split.
        + by rewrite expire_machine_spec.
        + apply elem_of_map_to_list. by rewrite lookup_fmap, Hc0. }
    destruct (overdue now c0) eqn:Ho; (split; [intros [[= <-] Hno]|intros [[= <-] Hno]]); try congruence.
    all: by split. }
  destruct (foldr remove stepped due) as [l t cs ni nt rb sd] eqn:Ef. cbn in E. subst cs.
  unfold stepped in Hs. destruct s. cbn in *. by simplify_eq.
Qed.

Lemma expire_lookup now s id c :
  connections (expire now s) !! id = Some c ↔ connections s !! id = Some c ∧ overdue now c = false.
Proof. rewrite expire_spec. cbn. by rewrite map_lookup_filter_Some. Qed.

Lemma expire_submap now s : connections (expire now s) ⊆ connections s.
Proof. rewrite expire_spec. apply map_filter_subseteq. Qed.

Lemma expire_wf owed receipts now s :
  server_wf owed receipts s → server_wf owed receipts (expire now s).
Proof. intros Hw. rewrite expire_spec. apply server_wf_submap; [done|]. apply map_filter_subseteq. Qed.

Lemma expire_evolves D now s : evolves D s (expire now s).
Proof. apply evolves_submap; [apply expire_submap|by rewrite expire_spec]. Qed.

Lemma remove_many_spec ids s :
  foldr remove s ids = s <| connections := filter (λ p, p.1 ∉ ids) (connections s) |>.
Proof.
  destruct (foldr_remove ids s) as [Hc Hs]. destruct (foldr remove s ids), s. cbn in *. by simplify_eq.
Qed.
End server.
