(* ===== verification/ServerOps.v ===== *)
(** * The control server: every operation keeps the invariant

    For each method a specification in the weakest precondition of Hoare.v: it
    does not panic, it keeps [server_wf], and [evolves] says how connections and
    receipts move.  A call for one peer leaves the rest of the server alone. *)

From Stdlib Require Import ZArith Lia.
From stdpp Require Import prelude list gmap sorting.
From S2P Require Import Prelude Layout Ledger Projection Keys State Backend Snapshot Visible Authority Hoare Session Utf8 Ipc Control ControlInv ControlConn Server ServerConn ServerInv.

Implicit Types (c : Connection) (m : ConnectionMachine) (s : ControlServer).

(** ** One peer's part of the server *)

(** The servers differ at most in the connection [id]. *)
Definition except (id : N) s s' : Prop := remove id s' = remove id s.

#[export] Instance except_equivalence id : Equivalence (except id).
Proof. unfold except. split; [done|congruence..]. Qed.

Lemma except_put id c s : except id s (put id c s).
Proof. unfold except, remove, put. cbn. by rewrite delete_insert_eq. Qed.

Lemma except_remove id s : except id s (remove id s).
Proof. unfold except, remove. cbn. by rewrite delete_delete_eq. Qed.

Lemma except_lookup id s s' j :
  except id s s' → j ≠ id → connections s' !! j = connections s !! j.
Proof.
  intros E Hj. apply (f_equal connections) in E. cbn in E.
  by rewrite <-(lookup_delete_ne _ id j), E, lookup_delete_ne.
Qed.

Lemma except_next id s s' : except id s s' → next_connection_id s' = next_connection_id s.
Proof. by intros E%(f_equal next_connection_id). Qed.

Lemma remove_except id s s' : except id s s' → remove id s' = remove id s.
Proof. done. Qed.

Lemma put_put id c c' s : put id c' (put id c s) = put id c' s.
Proof. unfold put. destruct s. cbn. by rewrite insert_insert_eq. Qed.

Lemma remove_put id c s : remove id (put id c s) = remove id s.
Proof. apply remove_except, except_put. Qed.

(** The requests owed a reply, after what a service reports. *)
Definition owed_after (owed : gmap N Request) (r : option ControlAction) : gmap N Request :=
  match r with Some (ControlRequest id request) => <[id := request]> owed | None => owed end.

(** From the shutdown on, every connection is a subscriber due at [deadline]. *)
Definition shut (deadline : N) s : Prop :=
  shutting_down s = true ∧ ∀ id c, connections s !! id = Some c →
    phase (machine c) = Subscriber ∧ shutdown_deadline (machine c) = Some deadline.

Lemma shut_submap d s s' :
  shut d s → connections s' ⊆ connections s → shutting_down s' = shutting_down s → shut d s'.
Proof.
  intros [Hs Hc] Hsub E. split; [congruence|]. intros id c Hc'. eapply Hc. by eapply lookup_weaken.
Qed.

(** The socket took all that was left of the frame on its way out. *)
Definition drains_sent (io : Sockets) (_ : N) c : Prop :=
  ∃ bytes, output_remaining (machine c) = Some bytes ∧ send io (fd c) bytes = Ok (length bytes).

Section server.
Context `{JsonErrors, !Wire Request, !Wire Response, !Wire Event}.
Context `{!WireText Response, !WireText Event, !ErrorsFit}.
Context (CARGO_PKG_VERSION : rstring).

Abbreviation wf := (server_wf CARGO_PKG_VERSION).
Implicit Types (owed : gmap N Request) (receipts : list ResponseReceipt).

Lemma wp_expect {A C} (o : option A) (a : A) (k : A → stm ControlServer (failure ControlError) C) Q R s :
  o = Some a → wp (k a) Q R s → wp (x ← expect o; k x) Q R s.
Proof. by intros ->. Qed.

Lemma wp_on_machine {C} id f c a m' (k : MachineAction → stm ControlServer (failure ControlError) C) Q R s :
  connections s !! id = Some c → f (machine c) = Some (a, m') →
  wp (k a) Q R (put id (c <| machine := m' |>) s) → wp (x ← on_machine id f; k x) Q R s.
Proof.
  intros Hc Hf HQ. unfold wp, on_machine, mbind, stm_bind, getS, expect, modify, mret, stm_ret in *.
  by rewrite Hc, Hf.
Qed.

(** A call on a machine is a step of its connection. *)
Lemma runs_step m m' :
  connection_runs CARGO_PKG_VERSION m →
  (∀ w d sh q r, ∃ w' d' sh' q' r', conn_step (mk_conn m w d sh q r) (mk_conn m' w' d' sh' q' r')) →
  connection_runs CARGO_PKG_VERSION m'.
Proof.
  intros (now & conn & Hr & <-) Hs. destruct conn as [m0 w d sh q r].
  destruct (Hs w d sh q r) as (w' & d' & sh' & q' & r' & Hst).
  eexists now, _. split; [eapply rtc_r; [exact Hr|exact Hst]|done].
Qed.

(** How the service of one peer ends. *)
Record quantum owed receipts (D : N → Connection → Prop) (id : N) s (r : option ControlAction) s' : Prop := {
  qu_wf : wf (owed_after owed r) receipts s';
  qu_evolves : evolves D s s';
  qu_except : except id s s';
  qu_action : ∀ i req, r = Some (ControlRequest i req) → i = id;
  qu_reply : ∀ c, connections s !! id = Some c → replying (machine c) → r = None;
  qu_shut : ∀ d, shut d s → shut d s';
  qu_fresh : r ≠ None → owed !! id = None ∧ is_Some (connections s' !! id)
}.

Definition failed owed receipts (D : N → Connection → Prop) (id : N) s (e : ControlError) s' : Prop :=
  wf owed receipts s' ∧ evolves D s s' ∧ s' = remove id s ∧ ∃ errno, e = PeerIo id errno.

Lemma quantum_none owed receipts D id s : wf owed receipts s → quantum owed receipts D id s None s.
Proof. intros Hw. by split; [|apply evolves_refl| | | | |]. Qed.

Lemma quantum_remove owed receipts D id s :
  wf owed receipts s → quantum owed receipts D id s None (remove id s).
Proof.
  intros Hw. split; [by apply remove_wf|apply evolves_remove|apply except_remove|done|done| |done].
  intros d Hs. eapply shut_submap; [done|apply delete_subseteq|done].
Qed.

Lemma failed_remove owed receipts D id s errno :
  wf owed receipts s → failed owed receipts D id s (PeerIo id errno) (remove id s).
Proof. intros Hw. split_and!; [by apply remove_wf|apply evolves_remove|done|by eexists]. Qed.

(** A closing action removes the connection, whatever was written back to it. *)
Lemma wp_close owed receipts D id s a c' R :
  wf owed receipts s → is_close a = true →
  wp (apply_machine_action id a) (quantum owed receipts D id s) R (put id c' s).
Proof.
  intros Hw Ha. destruct a as [| | |r]; try done. unfold apply_machine_action, wp, mbind, stm_bind, modify, mret, stm_ret.
  rewrite remove_put. by apply quantum_remove.
Qed.

(** Otherwise the connection goes on, and its request is owed a reply. *)
Lemma wp_served owed receipts (D : N → Connection → Prop) id s c a c' R :
  wf owed receipts s → connections s !! id = Some c → request_pending (machine c) = false →
  served (machine c) a (machine c') → connection_runs CARGO_PKG_VERSION (machine c') →
  sequence_wf c' → (is_Some (pending_response c') ↔ replying (machine c')) → follows (D id c) c c' →
  wp (apply_machine_action id a) (quantum owed receipts D id s) R (put id c' s).
Proof.
  intros Hw Hc Hpe Hsv Hruns Hseq Hrep Hf. pose proof Hsv as [Hl _ _ _ _].
  assert (owed !! id = None) as Ho.
  { pose proof (ck_owed _ _ _ (sw_connection _ _ _ _ Hw id c Hc)) as Ho.
    destruct (owed !! id); [|done]. destruct Ho. congruence. }
  assert (∀ r, asked a (machine c') → r = match a with ActRequest req => Some (ControlRequest id req) | _ => None end →
    quantum owed receipts D id s r (put id c' s)) as Hq.
  { intros r Has ->. split; [|by eapply evolves_put|apply except_put|by destruct a; intros ? ? [=]| | |].
    4: { intros _. split; [done|]. exists c'. apply lookup_insert_eq. }
    2: { intros c0. rewrite Hc. intros [= <-] Hre. by rewrite (sv_replying _ _ _ Hsv Hre). }
    2: { intros d [Hs Hd]. split; [done|]. intros j c0. cbn. destruct (decide (j = id)) as [->|].
         - rewrite lookup_insert_eq. intros [= <-]. destruct (Hd id c Hc) as [Hp <-].
           by apply (sv_subscriber _ _ _ Hsv).
         - rewrite lookup_insert_ne by done. apply Hd. }
    eapply put_wf; [done|done| |apply Hf|apply Hf| |].
    - intros j Hj. destruct a; try done. cbn. by rewrite lookup_insert_ne.
    - split; try done. destruct a; try done; cbn in *; [by rewrite Ho|by rewrite lookup_insert_eq].
    - eapply served_shutting; [apply (sw_connection _ _ _ _ Hw id c Hc)|done|]. by apply (sw_shutting _ _ _ _ Hw id). }
  pose proof (sv_asked _ _ _ Hsv). destruct a; try done; by apply Hq.
Qed.

Lemma receive_one_ok owed receipts D io now id s c :
  wf owed receipts s → connections s !! id = Some c → input_enabled (machine c) = true →
  wp (receive_one io now id) (quantum owed receipts D id s) (failed owed receipts D id s) s.
Proof.
  intros Hw Hc He. pose proof (sw_connection _ _ _ _ Hw id c Hc) as [Hl Hruns Hseq Hrep Howed].
  pose proof (reading_idle _ Hl He) as [Hpe Hre].
  assert (∀ a m', is_close a = true ∨ served (machine c) a m' ∧ ¬ replying m' →
    connection_runs CARGO_PKG_VERSION m' →
    wp (apply_machine_action id a) (quantum owed receipts D id s) (failed owed receipts D id s)
      (put id (c <| machine := m' |>) s)) as Hdone.
  { intros a m' Hcase Hruns'. destruct Hcase as [Ha|[Hs Hre']]; [by apply wp_close|].
    apply (wp_served _ _ _ _ _ c); try done; [by destruct Hseq|cbn; by rewrite Hrep|].
    split; [done|done|reflexivity|by left]. }
  unfold receive_one. apply wp_getS. eapply wp_expect; [done|].
  destruct (recv io (fd c) MAX_FRAME_BYTES) as [[|b bytes]|e].
  - apply (wp_on_machine _ _ c (read_eof (machine c)).1 (read_eof (machine c)).2); [done|by destruct (read_eof _)|].
    apply Hdone; [by apply live_read_eof|].
    eapply runs_step; [done|]. intros. repeat eexists. eapply StepEof; [done|]. apply surjective_pairing.
  - destruct (live_ingest now (b :: bytes) _ Hl He) as (a & m' & Hi & Hcase).
    eapply wp_on_machine; [done|exact Hi|]. apply Hdone; [done|].
    eapply runs_step; [done|]. intros. repeat eexists. by eapply StepIngest.
  - assert (wp (_ ← modify (remove id); raise (PeerIo id e)) (quantum owed receipts D id s)
      (failed owed receipts D id s) s) as Herr by by apply failed_remove.
    destruct e; try exact Herr; [by apply quantum_none|by apply quantum_none|by apply quantum_remove].
Qed.

(** *** Writing *)

Lemma take_drained_replying c :
  (is_Some (pending_response c) → is_Some (output (machine c))) → take_drained c = c.
Proof.
  unfold take_drained, output_remaining. destruct (output (machine c)); [done|]. cbn.
  destruct (pending_response c); [|done]. intros Hn. by destruct Hn; [eexists|].
Qed.

Lemma take_drained_machine c : machine (take_drained c) = machine c.
Proof. unfold take_drained. by repeat case_match. Qed.

(** The reply of the pending sequence is out. *)
Lemma drained_wf c m' q :
  sequence_wf c → pending_response c = Some q →
  let c' := c <| machine := m' |> <| pending_response := None |> <| last_drained_response := Some q |> in
  sequence_wf c' ∧ (drained_upto c <= drained_upto c')%N.
Proof.
  intros [Hn Hp] Hq. rewrite Hq in Hp. destruct Hp as (-> & ? & Hd). split; [by split|].
  rewrite Hd. change (drained_upto _) with (issued c) at 1. cbn. lia.
Qed.

Lemma send_one_ok owed receipts io now id s c :
  sockets_ok io → wf owed receipts s → connections s !! id = Some c → has_output c = true →
  wp (send_one io now id) (quantum owed receipts (drains_sent io) id s)
    (failed owed receipts (drains_sent io) id s) s.
Proof.
  intros Hio Hw Hc [bytes Hb]%bool_decide_eq_true.
  pose proof (sw_connection _ _ _ _ Hw id c Hc) as [Hl Hruns Hseq Hrep Howed].
  unfold send_one. apply wp_getS. eapply wp_expect; [done|]. eapply wp_expect; [done|].
  destruct (send io (fd c) bytes) as [count|e] eqn:Hsend.
  2: { assert (wp (_ ← modify (remove id); raise (PeerIo id e)) (quantum owed receipts (drains_sent io) id s)
         (failed owed receipts (drains_sent io) id s) s) as Herr by by apply failed_remove.
       destruct e; try exact Herr; [by apply quantum_none..|by apply quantum_remove|by apply quantum_remove]. }
  pose proof (send_within _ Hio _ _ _ Hsend) as Hcount.
  pose proof Hb as (cur & Ho & ->)%fmap_Some.
  destruct (live_advance now count cur _ Hl Ho Hcount) as (a & m' & Ha & Hcase).
  assert (connection_runs CARGO_PKG_VERSION m') as Hruns'.
  { eapply runs_step; [done|]. intros. repeat eexists. by eapply StepAdvance. }
  eapply wp_on_machine; [done|exact Ha|].
  destruct (is_close a) eqn:Hcl; [by apply wp_close|].
  destruct Hcase as [?|(Hs & Hre' & Hre)]; [done|].
  apply wp_bind, wp_getS. eapply wp_expect; [apply lookup_insert_eq|].
  set (c1 := c <| machine := m' |>). change (wp (apply_machine_action id a)
    (quantum owed receipts (drains_sent io) id s) (failed owed receipts (drains_sent io) id s)
    (put id (take_drained c1) (put id c1 s))). rewrite put_put.
  assert (sequence_wf (take_drained c1) ∧ (is_Some (pending_response (take_drained c1)) ↔ replying m')
    ∧ follows (drains_sent io id c) c (take_drained c1)) as (Hseq' & Hrep' & Hf).
  { destruct (output m') as [out|] eqn:Ho'.
    - rewrite take_drained_replying by (cbn; rewrite Ho'; by eexists).
      split_and!; [by destruct Hseq| |split; [done|done|reflexivity|by left]]. cbn. rewrite Hrep.
      split; [|done]. intros [?|[? _]]%Hre; [done|congruence].
    - destruct (pending_response c) as [q|] eqn:Hq.
      + destruct (drained_wf c m' q Hseq Hq) as [Hseq' Hle].
        assert (take_drained c1 = c1 <| pending_response := None |> <| last_drained_response := Some q |>) as ->.
        { unfold take_drained, output_remaining, c1. cbn. by rewrite Ho', Hq. }
        split_and!; [done| |].
        * unfold replying. rewrite Ho'. split; [by intros []|by intros [_ []]].
        * split; [done|done|reflexivity|right]. split; [done|]. exists (remaining cur). split; [done|].
          rewrite Hsend. f_equal. destruct Hre as [[_ Hx]|[_ ?]]; [by apply Hrep; eexists| |done].
          rewrite Ho' in Hx. by destruct Hx.
      + rewrite take_drained_replying by (cbn; rewrite Hq; by intros []).
        split_and!; [by destruct Hseq| |split; [done|done|reflexivity|by left]]. cbn. rewrite Hq.
        unfold replying. rewrite Ho'. split; [by intros []|by intros [_ []]]. }
  apply (wp_served _ _ _ _ _ c); rewrite ?take_drained_machine; try done.
  by apply output_idle; [|eexists].
Qed.

(** *** Admission *)

Lemma used_next next n id : next = Some n → used next id → used (u64_checked_add n 1) id.
Proof.
  intros -> [? Hlt]. specialize (Hlt n eq_refl). split; [done|].
  intros n' [-> _]%u64_checked_add_Some. lia.
Qed.

Lemma used_self next n : next = Some n → (1 <= n)%N → used (u64_checked_add n 1) n.
Proof. intros -> ?. split; [done|]. intros n' [-> _]%u64_checked_add_Some. lia. Qed.

Lemma fresh_connection_ok now accepted t :
  connection_ok CARGO_PKG_VERSION None
    (mk_connection accepted t (Control.new now CARGO_PKG_VERSION) (Some 1%N) None None).
Proof.
  split; cbn.
  - apply live_new.
  - exists now, (connect now CARGO_PKG_VERSION). by split.
  - split; [|done]. intros n [= <-]. by split.
  - split; [by intros []|by intros [? _]].
  - done.
Qed.

Lemma admission_wf owed receipts now accepted id t s :
  wf owed receipts s → size (connections s) < CONNECTION_LIMIT → shutting_down s = false →
  next_connection_id s = Some id → next_token s = Some t →
  let s' := admit_connection CARGO_PKG_VERSION now accepted id t s in
  wf owed receipts s' ∧ connections s !! id = None
  ∧ ∀ j, used (next_connection_id s) j → used (next_connection_id s') j ∧ j ≠ id.
Proof.
  intros [Hlim Hid Htok Hinj Hni Hnt Hli Hco How Hre Hba Hub Hsh] Hsize Hsd Ei Et. cbn.
  assert (∀ j, used (next_connection_id s) j → used (u64_checked_add id 1) j ∧ j ≠ id) as Hused.
  { intros j Hu. split; [by eapply used_next|]. destruct Hu as [_ Hlt]. specialize (Hlt id Ei). lia. }
  assert (connections s !! id = None) as Hfree.
  { destruct (connections s !! id) eqn:E; [|done]. by destruct (Hused id) as [_ ?]; [eapply Hid|]. }
  split; [|done]. split; cbn; try done.
  - rewrite map_size_insert_None by done. lia.
  - intros j c. destruct (decide (j = id)) as [->|].
    + intros _. apply (used_self (next_connection_id s)); auto.
    + rewrite lookup_insert_ne by done. intros Hc. eapply Hused, Hid, Hc.
  - intros j c. destruct (decide (j = id)) as [->|].
    + rewrite lookup_insert_eq. intros [= <-]. apply (used_self (next_token s)); auto.
    + rewrite lookup_insert_ne by done. intros Hc. by eapply used_next, Htok.
  - assert (∀ j c, connections s !! j = Some c → token c ≠ t) as Hne.
    { intros j c Hc. destruct (Htok j c Hc) as [_ Hlt]. specialize (Hlt t Et). lia. }
    intros j1 j2 c1 c2. destruct (decide (j1 = id)) as [->|], (decide (j2 = id)) as [->|];
      rewrite ?lookup_insert_eq, ?lookup_insert_ne by done; [done| | |apply Hinj].
    + intros [= <-] Hc2 Et2. by destruct (Hne j2 c2 Hc2).
    + intros Hc1 [= <-] Et1. by destruct (Hne j1 c1 Hc1).
  - intros n [-> _]%u64_checked_add_Some. lia.
  - intros n [-> _]%u64_checked_add_Some. lia.
  - intros j c. destruct (decide (j = id)) as [->|].
    + rewrite lookup_insert_eq. intros [= <-].
      destruct (owed !! id) as [r|] eqn:E; [|apply fresh_connection_ok].
      by destruct (Hused id) as [_ ?]; [apply How; eexists|].
    + rewrite lookup_insert_ne by done. apply Hco.
  - intros j Hj. by apply Hused, How.
  - intros r Hr. destruct (Hre r Hr) as [Hu Hi]. destruct (Hused _ Hu). split; [done|].
    intros c. by rewrite lookup_insert_ne; [apply Hi|].
  - intros r Hr. destruct (Hba r Hr) as [Hu Hi]. destruct (Hused _ Hu). split; [done|].
    intros c. by rewrite lookup_insert_ne; [apply Hi|].
  - intros j c. destruct (decide (j = id)) as [->|].
    + rewrite lookup_insert_eq. intros [= <-]. by rewrite Hsd.
    + rewrite lookup_insert_ne by done. apply Hsh.
Qed.

(** A service of the listener: at most one connection is admitted. *)
Definition admitted owed receipts s s' : Prop :=
  wf owed receipts s' ∧ evolves drains_none s s' ∧ connections s ⊆ connections s'
  ∧ (shutting_down s = false ∨ s' = s).

Lemma admitted_refl owed receipts s : wf owed receipts s → admitted owed receipts s s.
Proof. intros Hw. split_and!; [done|apply evolves_refl|done|by right]. Qed.

Lemma accept_one_ok owed receipts io now s :
  wf owed receipts s → shutting_down s = false →
  wp (accept_one CARGO_PKG_VERSION io now) (λ _ s', admitted owed receipts s s')
    (λ e s', s' = s ∧ ∃ errno, e = ListenerIo errno ∨ e = ResourceExhausted errno) s.
Proof.
  intros Hw Hsd. pose proof (admitted_refl owed receipts s Hw) as Hsame.
  unfold accept_one. apply wp_getS. destruct (accept_with io _) as [accepted|e].
  2: { destruct e; try exact Hsame; (split; [done|]); eexists; by (left + right). }
  destruct (negb _); [exact Hsame|].
  destruct (Nat.eqb_spec (size (connections s)) CONNECTION_LIMIT); [exact Hsame|].
  destruct (next_connection_id s) as [id|] eqn:Ei; [|exact Hsame].
  destruct (next_token s) as [t|] eqn:Et; [|exact Hsame].
  destruct (admission_wf owed receipts now accepted id t s) as (Hw' & Hfree & Hused); try done.
  { pose proof (sw_limit _ _ _ _ Hw). lia. }
  change (admitted owed receipts s (admit_connection CARGO_PKG_VERSION now accepted id t s)). split_and!; [done| | |by left].
  - split.
    + intros j c. cbn. destruct (decide (j = id)) as [->|]; [by right|].
      rewrite lookup_insert_ne by done. intros Hc. left. exists c. split; [done|apply follows_refl].
    + intros j Hj. by apply Hused.
  - by apply insert_subseteq.
Qed.

(** *** One service *)

Lemma entries_elem s id c : (id, c) ∈ entries s ↔ connections s !! id = Some c.
Proof.
  unfold entries. rewrite <-elem_of_map_to_list. apply elem_of_Permutation_proper, merge_sort_Permutation.
Qed.

Lemma keys_NoDup s : NoDup (keys s).
Proof.
  unfold keys, entries. rewrite (merge_sort_Permutation entry_order (map_to_list (connections s))).
  apply NoDup_fst_map_to_list.
Qed.

Lemma connection_id_for_token_Some t s id :
  connection_id_for_token t s = Some id → ∃ c, connections s !! id = Some c ∧ token c = t.
Proof.
  unfold connection_id_for_token. intros ([i [id' c]] & Hf & ->)%fmap_Some.
  apply list_find_Some in Hf as (Hl & Ht & _). exists c. split; [|done].
  apply entries_elem. by eapply list_elem_of_lookup_2.
Qed.

(** What a service reports and leaves, from the server expiry left. *)
Inductive serviced owed receipts (io : Sockets) (ready : ReadyEvent) s
    (r : result (option ControlAction) ControlError) s' : Prop :=
| ServicedPeer id c :
    connections s !! id = Some c → token c = ready_token ready →
    (∀ b, response_barrier s = Some b → id = receipt_connection b) →
    match r with
    | Ok a => quantum owed receipts (drains_sent io) id s a s'
    | Err e => failed owed receipts (drains_sent io) id s e s'
    end → serviced owed receipts io ready s r s'
| ServicedListener :
    ready_token ready = listener_token s → response_barrier s = None →
    admitted owed receipts s s' →
    match r with
    | Ok a => a = None
    | Err e => s' = s ∧ ∀ id errno, e ≠ PeerIo id errno
    end → serviced owed receipts io ready s r s'
| ServicedNothing :
    wf owed receipts s → s' = s → r = Ok None → serviced owed receipts io ready s r s'.

Lemma has_output_replying c : replying (machine c) → has_output c = true.
Proof.
  intros [_ [out Ho]]. unfold has_output, output_remaining. rewrite Ho. by apply bool_decide_eq_true; eexists.
Qed.

Lemma settlement_Pending r s :
  response_settlement r s = Pending →
  ∃ c, connections s !! receipt_connection r = Some c ∧ pending_response c = Some (receipt_sequence r).
Proof.
  unfold response_settlement. destruct (connections s !! _) as [c|]; [|done].
  case_decide; [by exists c|]. by repeat case_match.
Qed.

Lemma service_one_ok owed receipts io now ready s :
  sockets_ok io → wf owed receipts s →
  wp (service_one CARGO_PKG_VERSION io now ready)
    (λ a s', serviced owed receipts io ready (expire now s) (Ok a) s')
    (λ e s', serviced owed receipts io ready (expire now s) (Err e) s') s.
Proof.
  intros Hio Hw0. unfold service_one. apply wp_modify, wp_getS.
  pose proof (expire_wf _ _ _ now _ Hw0) as Hw. set (s1 := expire now s) in *. clearbody s1.
  assert (serviced owed receipts io ready s1 (Ok None) s1) as Hnone by by apply ServicedNothing.
  assert (∀ id c, connections s1 !! id = Some c → token c = ready_token ready →
    (∀ b, response_barrier s1 = Some b → id = receipt_connection b) → has_output c = true → wp (send_one io now id) (λ a s', serviced owed receipts io ready s1 (Ok a) s')
      (λ e s', serviced owed receipts io ready s1 (Err e) s') s1) as Hsend.
  { intros id c Hc Ht Hb Ho. eapply wp_mono; [by eapply send_one_ok| |]; intros; by apply (ServicedPeer _ _ _ _ _ _ _ id c). }
  assert (∀ id c, connections s1 !! id = Some c → token c = ready_token ready →
    (∀ b, response_barrier s1 = Some b → id = receipt_connection b) →
    serviced owed receipts io ready s1 (Ok None) (remove id s1)) as Hremove.
  { intros id c Hc Ht Hb. apply (ServicedPeer _ _ _ _ _ _ _ id c); [done..|]. by apply quantum_remove. }
  destruct (response_barrier s1) as [receipt|] eqn:Hb.
  - unfold service_barrier. apply wp_getS. case_bool_decide as Hp; [|exact Hnone]. cbn.
    destruct (settlement_Pending _ _ Hp) as (c & Hc & Hpend). rewrite Hc.
    destruct (N.eqb_spec (token c) (ready_token ready)) as [Ht|]; [|exact Hnone]. cbn.
    assert (∀ b, Some receipt = Some b → receipt_connection receipt = receipt_connection b) as Hb'
      by by intros b [= <-].
    destruct (terminal ready); [eapply Hremove; eauto|].
    destruct (writable ready); [|exact Hnone]. eapply Hsend; [done|done|exact Hb'|].
    apply has_output_replying, (ck_reply _ _ _ (sw_connection _ _ _ _ Hw _ c Hc)). by eexists.
  - destruct (N.eqb_spec (ready_token ready) (listener_token s1)) as [Ht|].
    + unfold service_listener. apply wp_getS. destruct (shutting_down s1) eqn:Hsd; [exact Hnone|].
      destruct (terminal ready).
      { apply wp_raise, ServicedListener; [done|done|by apply admitted_refl|done]. }
      destruct (readable ready); [|exact Hnone]. cbn. apply wp_bind.
      eapply wp_mono; [by eapply accept_one_ok| |].
      * intros [] s' Had. apply wp_ret. by apply ServicedListener.
      * intros e s' [-> (errno & He)]. apply ServicedListener; [done|done|by apply admitted_refl|].
        split; [done|]. intros id e'. by destruct He as [-> | ->].
    + destruct (connection_id_for_token _ _) as [id|] eqn:Hid; [|exact Hnone].
      destruct (connection_id_for_token_Some _ _ _ Hid) as (c & Hc & Ht).
      unfold service_peer. apply wp_getS. rewrite Hc.
      destruct (readable ready && input_enabled (machine c)) eqn:Hr.
      { apply andb_true_iff in Hr as [_ Hr]. eapply wp_mono; [by eapply receive_one_ok| |];
          intros; apply (ServicedPeer _ _ _ _ _ _ _ id c); try done; congruence. }
      destruct (terminal ready); [by eapply Hremove|].
      destruct (writable ready && has_output c) eqn:Hwr; [|exact Hnone].
      apply andb_true_iff in Hwr as [_ Hwr]. by eapply Hsend.
Qed.

(** *** Replies *)

(** A server with a request outstanding is not shutting down, unless the peer is gone. *)
Lemma owed_connection owed receipts id req s c :
  wf owed receipts s → owed !! id = Some req → connections s !! id = Some c →
  shutting_down s = false ∧ live (machine c) ∧ request_pending (machine c) = true
  ∧ pending_subscribe (machine c) = bool_decide (req = ReqSubscribe).
Proof.
  intros Hw Ho Hc. pose proof (sw_connection _ _ _ _ Hw id c Hc) as [Hl _ _ _ Howed].
  rewrite Ho in Howed. destruct Howed as [Hpe Hsub]. split_and!; try done.
  pose proof (sw_shutting _ _ _ _ Hw id c Hc) as Hsh. destruct (shutting_down s); [|done]. destruct Hsh as [Hp _].
  rewrite (not_pending _ (lv_wf _ Hl)) in Hpe; congruence.
Qed.

Lemma receipt_cons_wf owed receipts r s c :
  wf owed receipts s → connections s !! receipt_connection r = Some c → issued_by c (receipt_sequence r) →
  wf owed (r :: receipts) s.
Proof.
  intros [Hlim Hid Htok Hinj Hni Hnt Hli Hco How Hre Hba Hub Hsh] Hc Hi. split; try done.
  intros r' [->|Hr]%elem_of_cons; [|by apply Hre]. split; [by eapply Hid|].
  intros c'. rewrite Hc. by intros [= <-].
Qed.

(** The next sequence of a connection with no reply outstanding. *)
Lemma next_sequence_wf c m' n :
  sequence_wf c → next_response_sequence c = Some n → pending_response c = None →
  let c' := c <| machine := m' |> <| pending_response := Some n |>
              <| next_response_sequence := u64_checked_add n 1 |> in
  sequence_wf c' ∧ issued c = (n - 1)%N ∧ issued c' = n ∧ (1 <= n)%N ∧ drained_upto c' = drained_upto c.
Proof.
  intros [Hn Hp] En Ep. rewrite Ep in Hp. destruct (Hn n En) as [Hlo Hhi].
  assert (issued (c <| machine := m' |> <| pending_response := Some n |>
    <| next_response_sequence := u64_checked_add n 1 |>) = n) as Hi.
  { unfold issued. cbn. destruct (u64_checked_add n 1) as [n'|] eqn:E.
    - apply u64_checked_add_Some in E as [-> _]. lia.
    - unfold u64_checked_add in E. destruct (N.leb_spec (n + 1) u64_max); [done|]. lia. }
  assert (issued c = (n - 1)%N) as Hi0 by (unfold issued; by rewrite En).
  cbv zeta. split_and!; try done. split; cbn.
  - intros n' [-> ?]%u64_checked_add_Some. lia.
  - rewrite Hi. split_and!; [done|lia|]. by rewrite <-Hi0, <-Hp.
Qed.

Record replied owed receipts id s (r : ResponseReceipt) s' : Prop := {
  rp_wf : wf (delete id owed) (r :: receipts) s';
  rp_evolves : evolves drains_none s s';
  rp_except : except id s s';
  rp_connection : receipt_connection r = id;
  rp_pending : response_settlement r s' = Pending
}.

(** An error means the peer is gone, or has to go. *)
Record refused owed receipts id s s' : Prop := {
  rf_wf : wf (delete id owed) receipts s';
  rf_evolves : evolves drains_none s s';
  rf_except : except id s s';
  rf_gone : connections s' !! id = None
}.

Lemma refused_gone owed receipts id s :
  wf owed receipts s → connections s !! id = None → refused owed receipts id s s.
Proof. intros Hw Hn. split; [by apply owed_delete_wf|apply evolves_refl|done|done]. Qed.

Lemma refused_remove owed receipts id s :
  wf owed receipts s → refused owed receipts id s (remove id s).
Proof.
  intros Hw. assert (connections (remove id s) !! id = None) as Hn by apply lookup_delete_eq.
  split; [apply owed_delete_wf; [by apply remove_wf|done]|apply evolves_remove|apply except_remove|done].
Qed.

Lemma complete_request_server_ok owed receipts now id response req s :
  wf owed receipts s → owed !! id = Some req → req ≠ ReqSubscribe →
  wp (complete_request now id response) (replied owed receipts id s)
    (λ _ s', refused owed receipts id s s') s.
Proof.
  intros Hw Ho Hreq. unfold complete_request. apply wp_getS.
  destruct (connections s !! id) as [c|] eqn:Hc.
  2: { by destruct (shutting_down s); apply wp_raise, refused_gone. }
  destruct (owed_connection _ _ _ _ _ _ Hw Ho Hc) as (-> & Hl & Hpe & Hsub).
  rewrite bool_decide_false in Hsub by done.
  destruct (next_response_sequence c) as [n|] eqn:En; [|by apply refused_remove].
  pose proof (sw_connection _ _ _ _ Hw id c Hc) as [_ Hruns Hseq Hrep _].
  destruct (live_complete_request now response _ Hl Hpe Hsub) as (a & m' & Ha & Hcase).
  eapply wp_expect; [exact Ha|]. cbn.
  destruct Hcase as [->|(-> & Hl' & Hpe' & Hre' & Hsh')]; [by apply refused_remove|].
  assert (pending_response c = None) as Ep.
  { apply eq_None_not_Some. intros [_ Hout]%Hrep. pose proof (output_idle _ Hl Hout). congruence. }
  destruct (next_sequence_wf c m' n Hseq En Ep) as (Hseq' & Hi & Hi' & Hn1 & Hd).
  set (c' := c <| machine := m' |> <| pending_response := Some n |>
    <| next_response_sequence := u64_checked_add n 1 |>) in *.
  apply wp_modify, wp_ret. change (put id _ s) with (put id c' s).
  assert (wf (delete id owed) receipts (put id c' s)) as Hw'.
  { eapply put_wf; [done|done| |done|lia| |].
    - intros j Hj. by rewrite lookup_delete_ne.
    - split; try done.
      + eapply runs_step; [done|]. intros. repeat eexists. by eapply StepComplete.
      + rewrite lookup_delete_eq. cbn. done.
    - by destruct (owed_connection _ _ _ _ _ _ Hw Ho Hc) as [-> _]. }
  split; try done.
  - apply (receipt_cons_wf _ _ _ _ c'); [done|by apply lookup_insert_eq|]. split; cbn; lia.
  - eapply evolves_put; [done|]. split; [done|done|lia|by left].
  - apply except_put.
  - unfold response_settlement. cbn. by rewrite lookup_insert_eq, decide_True.
Qed.

Lemma complete_subscribe_server_ok owed receipts now id state s :
  wf owed receipts s → owed !! id = Some ReqSubscribe →
  wp (complete_subscribe now id state)
    (λ _ s', wf (delete id owed) receipts s' ∧ evolves drains_none s s' ∧ except id s s'
       ∧ ∃ c, connections s' !! id = Some c ∧ phase (machine c) = Subscriber)
    (λ _ s', refused owed receipts id s s') s.
Proof.
  intros Hw Ho. unfold complete_subscribe. apply wp_getS.
  destruct (connections s !! id) as [c|] eqn:Hc.
  2: { by destruct (shutting_down s); apply wp_raise, refused_gone. }
  destruct (owed_connection _ _ _ _ _ _ Hw Ho Hc) as (-> & Hl & Hpe & Hsub).
  rewrite bool_decide_true in Hsub by done.
  pose proof (sw_connection _ _ _ _ Hw id c Hc) as [_ Hruns Hseq Hrep _].
  destruct (live_complete_subscribe now state _ Hl Hpe Hsub) as (a & m' & Ha & Hcase).
  eapply wp_on_machine; [done|exact Ha|].
  destruct Hcase as [->|(-> & Hl' & Hpe' & Hre & Hre' & Hsh')].
  { unfold wp, mbind, stm_bind, modify, raise, throw. rewrite remove_put. by apply refused_remove. }
  apply wp_ret. split_and!.
  - eapply put_wf; [done|done| |done|reflexivity| |].
    + intros j Hj. by rewrite lookup_delete_ne.
    + split; try done; [|by destruct Hseq|cbn; by rewrite Hrep|by rewrite lookup_delete_eq].
      eapply runs_step; [done|]. intros. repeat eexists. by eapply StepSubscribe.
    + by destruct (owed_connection _ _ _ _ _ _ Hw Ho Hc) as [-> _].
  - eapply evolves_put; [done|]. split; [done|done|reflexivity|by left].
  - apply except_put.
  - eexists. split; [apply lookup_insert_eq|]. cbn.
    revert Ha. unfold Control.complete_subscribe. case_match; [intros [= <-]; congruence|].
    by intros ([frame|] & _ & [= <-])%bind_Some.
Qed.

(** *** Publication and shutdown *)

(** What [each_machine] makes of one connection. *)
Definition each_connection (f : ConnectionMachine → option (MachineAction * ConnectionMachine)) c :
    option Connection :=
  am ← f (machine c);
  if is_close am.1 then None else Some (c <| machine := am.2 |>).

Lemma each_machine_spec f ids s :
  NoDup ids → (∀ id, id ∈ ids → ∃ c, connections s !! id = Some c ∧ is_Some (f (machine c))) →
  ∃ conns, each_machine f ids s = (Ok tt, s <| connections := conns |>)
    ∧ ∀ id, conns !! id = if decide (id ∈ ids) then connections s !! id ≫= each_connection f
                          else connections s !! id.
Proof.
  revert s. induction ids as [|id ids IH]; intros s Hnd Hf.
  { exists (connections s). split; [by destruct s|]. intros id. by rewrite decide_False by apply not_elem_of_nil. }
  apply NoDup_cons in Hnd as [Hni Hnd].
  destruct (Hf id) as (c & Hc & [[a m'] Ha]); [left|].
  set (s1 := if is_close a then remove id (put id (c <| machine := m' |>) s) else put id (c <| machine := m' |>) s).
  assert (each_machine f (id :: ids) s = each_machine f ids s1) as E1.
  { cbn [each_machine]. unfold on_machine, mbind, stm_bind, getS, expect, modify, mret, stm_ret.
    rewrite Hc, Ha. cbn. unfold s1. by destruct (is_close a). }
  assert (s1 = s <| connections := connections s1 |>) as Es1 by (unfold s1; by destruct (is_close a)).
  assert (∀ j, connections s1 !! j = if decide (j = id) then each_connection f c else connections s !! j) as Hs1.
  { intros j. unfold s1, each_connection. rewrite Ha. cbn.
    destruct (is_close a); cbn; destruct (decide (j = id)) as [->|];
      by rewrite ?lookup_delete_eq, ?lookup_delete_ne, ?lookup_insert_eq, ?lookup_insert_ne by done. }
  destruct (IH s1 Hnd) as (conns & E2 & Hconns).
  { intros j Hj. rewrite Hs1, decide_False by set_solver. apply Hf. by right. }
  exists conns. rewrite E1, E2. split; [f_equal; rewrite Es1; by destruct s|].
  intros j. rewrite Hconns, Hs1. destruct (decide (j = id)) as [->|Hj].
  - rewrite decide_False by done. rewrite decide_True by left. by rewrite Hc.
  - destruct (decide (j ∈ ids)); [by rewrite decide_True by by right|].
    by rewrite decide_False by by intros [?|?]%elem_of_cons.
Qed.

Lemma each_connection_Some f c c' :
  each_connection f c = Some c' →
  ∃ a m', f (machine c) = Some (a, m') ∧ is_close a = false ∧ c' = c <| machine := m' |>.
Proof.
  unfold each_connection. intros ([a m'] & Ha & E)%bind_Some. cbn in E.
  destruct (is_close a) eqn:Hcl; [done|]. injection E as <-. by exists a, m'.
Qed.

Lemma stepped_connection (r : option Request) c m' :
  connection_ok CARGO_PKG_VERSION r c → stepped (machine c) m' → connection_runs CARGO_PKG_VERSION m' →
  connection_ok CARGO_PKG_VERSION r (c <| machine := m' |>).
Proof.
  intros [Hl Hruns Hseq Hrep Howed] [Hl' Hp Hs Hr] Hruns'. split; cbn; try done.
  - by destruct Hseq.
  - by rewrite Hr.
  - by rewrite Hp, Hs.
Qed.

Lemma subscribers_elem s id :
  id ∈ subscribers s ↔ ∃ c, connections s !! id = Some c ∧ phase (machine c) = Subscriber.
Proof.
  unfold subscribers. rewrite list_elem_of_fmap. split.
  - intros ([i c] & -> & [Hp Hin]%list_elem_of_filter). exists c. by rewrite <-entries_elem.
  - intros (c & Hc%entries_elem & Hp). exists (id, c). split; [done|]. by apply list_elem_of_filter.
Qed.

Lemma subscribers_NoDup s : NoDup (subscribers s).
Proof.
  unfold subscribers. pose proof (keys_NoDup s) as Hnd. unfold keys in Hnd.
  eapply sublist_NoDup; [exact Hnd|]. apply fmap_sublist, sublist_filter.
Qed.

Lemma publish_state_server_ok owed receipts now state s :
  wf owed receipts s →
  wp (publish_state now state)
    (λ _ s', wf owed receipts s' ∧ evolves drains_none s s' ∧ shutting_down s = false)
    (λ e s', wf owed receipts s' ∧ evolves drains_none s s'
       ∧ (e = ShuttingDown ∨ e = OutboundFramesTooLarge (subscribers s))) s.
Proof.
  intros Hw. unfold publish_state. apply wp_getS. destruct (shutting_down s) eqn:Hsd.
  { apply wp_raise. split_and!; [done|apply evolves_refl|by left]. }
  destruct (is_nil (subscribers s)).
  { apply wp_ret. split_and!; [done|apply evolves_refl|done]. }
  destruct (encode_bytes_ok (EventState state)) as (frame & He & _).
  eapply wp_expect; [exact He|]. destruct frame as [frame|].
  2: { apply wp_modify, wp_raise. rewrite remove_many_spec. split_and!;
         [|apply evolves_submap; [apply map_filter_subseteq|done]|by right].
       apply server_wf_submap; [done|]. apply map_filter_subseteq. }
  destruct (each_machine_spec (λ m, Some (Control.publish_state now frame m)) (subscribers s) s)
    as (conns & E & Hconns); [apply subscribers_NoDup| |].
  { intros id (c & Hc & _)%subscribers_elem. by exists c. }
  unfold wp. rewrite E.
  assert (∀ id c', conns !! id = Some c' → ∃ c, connections s !! id = Some c
    ∧ fd c' = fd c ∧ token c' = token c ∧ issued c' = issued c ∧ drained_upto c' = drained_upto c
    ∧ connection_ok CARGO_PKG_VERSION (owed !! id) c' ∧ shutting_ok false (machine c')) as Hstep.
  { intros id c' Hc'. rewrite Hconns in Hc'. case_decide as Hin.
    - apply bind_Some in Hc' as (c & Hc & (a & m' & [= Ha] & Hcl & ->)%each_connection_Some).
      pose proof (sw_connection _ _ _ _ Hw id c Hc) as Hok.
      pose proof (sw_shutting _ _ _ _ Hw id c Hc) as Hsh. rewrite Hsd in Hsh.
      destruct (live_publish now frame (machine c) (ck_live _ _ _ Hok) Hsh) as [Hx|(_ & Hst & Hsh')];
        rewrite Ha in *; cbn in *; [congruence|].
      exists c. split_and!; try done. apply stepped_connection; [done|done|].
      eapply runs_step; [apply Hok|]. intros. repeat eexists. by eapply StepPublish.
    - exists c'. split_and!; try done; [by apply (sw_connection _ _ _ _ Hw)|].
      pose proof (sw_shutting _ _ _ _ Hw id c' Hc') as Hsh. by rewrite Hsd in Hsh. }
  split_and!; [| |done].
  - eapply server_wf_shrink; [done|apply (sw_owed _ _ _ _ Hw)|]. intros id c' Hc'.
    destruct (Hstep id c' Hc') as (c & Hc & _ & Ht & Hi & _ & Hok & Hsh). exists c. rewrite Hi, Hsd.
    by split_and!.
  - split; [|done]. intros id c' Hc'. destruct (Hstep id c' Hc') as (c & Hc & Hf & Ht & Hi & Hd & _).
    left. exists c. split; [done|]. split; [done|done|by rewrite Hi|by left].
Qed.

Lemma begin_shutdown_server_ok owed receipts now s :
  wf owed receipts s →
  wp (begin_shutdown now)
    (λ _ s', wf owed receipts s' ∧ evolves drains_none s s' ∧ shutting_down s' = true
       ∧ (shutting_down s = false → shut (now + TERMINAL_TIMEOUT) s'))
    (λ _ _, False) s.
Proof.
  intros Hw. unfold begin_shutdown. apply wp_getS. destruct (shutting_down s) eqn:Hsd.
  { apply wp_ret. split_and!; [done|apply evolves_refl|done|done]. }
  apply wp_modify. set (s1 := s <| response_barrier := None |> <| shutting_down := true |>).
  assert (∀ id c, connections s !! id = Some c → ∃ a m', Control.begin_shutdown now (machine c) = Some (a, m')
    ∧ (is_close a = true ∨ a = ActNone ∧ stepped (machine c) m' ∧ phase (machine c) = Subscriber
       ∧ phase m' = Subscriber ∧ shutdown_deadline m' = Some (now + TERMINAL_TIMEOUT)%N)) as Hlive.
  { intros id c Hc. apply live_begin_shutdown; [apply (sw_connection _ _ _ _ Hw id c Hc)|].
    pose proof (sw_shutting _ _ _ _ Hw id c Hc) as Hsh. by rewrite Hsd in Hsh. }
  assert (∀ id, id ∈ keys s ↔ is_Some (connections s !! id)) as Hkeys.
  { intros id. unfold keys. rewrite list_elem_of_fmap. split.
    - intros ([i c] & -> & Hc%entries_elem). by eexists.
    - intros [c Hc%entries_elem]. by exists (id, c). }
  destruct (each_machine_spec (Control.begin_shutdown now) (keys s) s1) as (conns & E & Hconns); [apply keys_NoDup| |].
  { intros id [c Hc]%Hkeys. destruct (Hlive id c Hc) as (a & m' & Ha & _). exists c. split; [done|]. by rewrite Ha. }
  unfold wp. change (each_machine (Control.begin_shutdown now) (keys s) (s <| response_barrier := None |> <| shutting_down := true |>))
    with (each_machine (Control.begin_shutdown now) (keys s) s1). rewrite E.
  assert (∀ id c', conns !! id = Some c' → ∃ c, connections s !! id = Some c
    ∧ fd c' = fd c ∧ token c' = token c ∧ issued c' = issued c ∧ drained_upto c' = drained_upto c
    ∧ connection_ok CARGO_PKG_VERSION (owed !! id) c' ∧ phase (machine c') = Subscriber
    ∧ shutdown_deadline (machine c') = Some (now + TERMINAL_TIMEOUT)%N) as Hstep.
  { intros id c'. rewrite Hconns. change (connections s1) with (connections s).
    destruct (connections s !! id) as [c|] eqn:Hc; [|by case_decide].
    rewrite decide_True by (apply Hkeys; by eexists). cbn.
    intros (a & m' & Ha & Hcl & ->)%each_connection_Some.
    destruct (Hlive id c Hc) as (a' & m'' & Ha' & Hcase). rewrite Ha in Ha'. injection Ha' as <- <-.
    destruct Hcase as [?|(_ & Hst & _ & Hp & Hd)]; [congruence|]. exists c. split_and!; try done.
    pose proof (sw_connection _ _ _ _ Hw id c Hc) as Hok. apply stepped_connection; [done|done|].
    eapply runs_step; [apply Hok|]. intros. repeat eexists. by eapply StepShutdown. }
  split_and!; [| |done|].
  - apply (server_wf_change _ owed owed receipts s conns None true); try done; [by right|apply (sw_owed _ _ _ _ Hw)|].
    intros id c' Hc'. destruct (Hstep id c' Hc') as (c & Hc & _ & Ht & Hi & _ & Hok & Hp & Hd). exists c.
    rewrite Hi. split_and!; [done..|split; [done|by eexists]].
  - split; [|done]. intros id c' Hc'. destruct (Hstep id c' Hc') as (c & Hc & Hf & Ht & Hi & Hd & _).
    left. exists c. split; [done|]. split; [done|done|by rewrite Hi|by left].
  - intros _. split; [done|]. intros id c' Hc'. destruct (Hstep id c' Hc') as (c & _ & _ & _ & _ & _ & _ & ? & ?).
    by split.
Qed.

Lemma begin_response_barrier_ok owed receipts r s :
  wf owed receipts s →
  wp (begin_response_barrier r)
    (λ settlement s', wf owed receipts s' ∧ evolves drains_none s s' ∧ connections s' = connections s
       ∧ settlement = response_settlement r s
       ∧ (settlement = Pending → response_barrier s' = Some r) ∧ (settlement ≠ Pending → s' = s)
       ∧ shutting_down s' = shutting_down s)
    (λ e s', s' = s ∧ ∃ active, response_barrier s = Some active ∧ active ≠ r
       ∧ e = ResponseBarrierConflict active r) s.
Proof.
  intros Hw. unfold begin_response_barrier. apply wp_getS. case_bool_decide as Hp; cbn [negb].
  2: { apply wp_ret. split_and!; try done. apply evolves_refl. }
  destruct (response_barrier s) as [active|] eqn:Hb.
  { case_decide as E.
    - subst active. apply wp_ret. split_and!; try done. apply evolves_refl.
    - apply wp_raise. split; [done|]. by exists active. }
  apply wp_modify, wp_ret. destruct (settlement_Pending _ _ Hp) as (c & Hc & Hpend).
  split_and!; try done; try (by apply evolves_submap).
  pose proof Hw as [Hlim Hid Htok Hinj Hni Hnt Hli Hco How Hre Hba Hub Hsh]. split; try done.
  - intros r' [= <-]. split; [by eapply Hid|]. intros c'. cbn. rewrite Hc. intros [= <-].
    pose proof (sq_pending _ (ck_sequence _ _ _ (Hco _ _ Hc))) as Hq. rewrite Hpend in Hq.
    destruct Hq as (-> & ? & _). split; lia.
  - cbn. intros Hsd. pose proof (Hsh _ _ Hc) as Hs. rewrite Hsd in Hs. destruct Hs as [Hph _].
    pose proof (proj1 (ck_reply _ _ _ (Hco _ _ Hc)) ltac:(by eexists)) as [? _]. congruence.
Qed.
End server.
