(* ===== verification/ServerSafety.v ===== *)
(** * The control server: what every run guarantees

    The server under a reactor that completes the requests it was handed, as a
    step relation over sockets that behave arbitrarily within POSIX, and the
    theorems about its runs. *)

From Stdlib Require Import ZArith Lia.
From stdpp Require Import prelude list gmap sorting.
From S2P Require Import Prelude Layout Ledger Projection Keys State Backend Snapshot Visible Authority Hoare Session Utf8 Ipc Control ControlInv ControlConn Server ServerConn ServerInv ServerOps.

(** The server, the requests handed out and not yet answered, and the receipts
    issued so far. *)
Record World := mk_world {
  server : ControlServer;
  owed : gmap N Request;
  receipts : list ResponseReceipt
}.

Section world.
Context `{JsonErrors, !Wire Request, !Wire Response, !Wire Event}.
Context (CARGO_PKG_VERSION : rstring).

Definition start (l : ActiveControlListener) : World := mk_world (Server.new l) ∅ [].

(** The reactor answers a request with the call that fits it: a subscription with
    the state, any other request with a response. *)
Inductive server_step : World → World → Prop :=
| StepService io now ready r s' w :
    sockets_ok io → service_one CARGO_PKG_VERSION io now ready (server w) = (r, s') →
    server_step w (mk_world s'
      (match r with Ok a => owed_after (owed w) a | Err _ => owed w end) (receipts w))
| StepExpireAll now w :
    server_step w (mk_world (expire now (server w)) (owed w) (receipts w))
| StepReply now id response req r s' w :
    owed w !! id = Some req → req ≠ ReqSubscribe →
    complete_request now id response (server w) = (r, s') →
    server_step w (mk_world s' (delete id (owed w))
      (match r with Ok receipt => receipt :: receipts w | Err _ => receipts w end))
| StepSubscribed now id state r s' w :
    owed w !! id = Some ReqSubscribe →
    complete_subscribe now id state (server w) = (r, s') →
    server_step w (mk_world s' (delete id (owed w)) (receipts w))
| StepBarrier receipt r s' w :
    begin_response_barrier receipt (server w) = (r, s') →
    server_step w (mk_world s' (owed w) (receipts w))
| StepPublishAll now state r s' w :
    publish_state now state (server w) = (r, s') →
    server_step w (mk_world s' (owed w) (receipts w))
| StepShutdownAll now r s' w :
    begin_shutdown now (server w) = (r, s') →
    server_step w (mk_world s' (owed w) (receipts w)).

Context `{!WireText Response, !WireText Event, !ErrorsFit}.

Definition world_wf (w : World) : Prop := server_wf CARGO_PKG_VERSION (owed w) (receipts w) (server w).

(** The step wrote the last byte of the reply on its way to [id]. *)
Definition drained_by (w w' : World) (id : N) (c : Connection) : Prop :=
  ∃ io now ready r, sockets_ok io
    ∧ service_one CARGO_PKG_VERSION io now ready (server w) = (r, server w')
    ∧ token c = ready_token ready ∧ drains_sent io id c.

Lemma serviced_evolves o rs io ready s r s' :
  serviced CARGO_PKG_VERSION o rs io ready s r s' →
  evolves (λ id c, token c = ready_token ready ∧ drains_sent io id c) s s'.
Proof.
  intros [id c Hc Ht _ Hr|_ _ (_ & Hev & _ & _) _|_ -> _]; [|by destruct Hev as [Hc Hu]; split;
    [intros id c' Hc'; destruct (Hc id c' Hc') as [(c & ? & [? ? ? [?|[_ []]]])|?]; [left; exists c|by right];
     split; [done|]; by split; [| | |left]|]|apply evolves_refl].
  destruct r as [a|e]; [|destruct Hr as (_ & _ & -> & _); apply evolves_remove].
  destruct Hr as [_ [Hev Hu] Hex _ _ _ _]. split; [|done]. intros j c' Hc'.
  destruct (decide (j = id)) as [->|Hj].
  - destruct (Hev id c' Hc') as [(c0 & Hc0 & [? ? ? Hd])|?]; [left|by right].
    exists c0. split; [done|]. rewrite Hc in Hc0. injection Hc0 as <-.
    split; [done..|]. destruct Hd as [?|[? ?]]; [by left|right]. by split_and!.
  - rewrite (except_lookup id s s') in Hc' by done. left. exists c'. split; [done|apply follows_refl].
Qed.

Lemma serviced_wf o rs io ready s r s' :
  serviced CARGO_PKG_VERSION o rs io ready s r s' →
  server_wf CARGO_PKG_VERSION (match r with Ok a => owed_after o a | Err _ => o end) rs s'.
Proof.
  intros [id c _ _ _ Hr|_ _ (Hw & _) Hr|Hw -> ->]; [|by destruct r as [a|]; [rewrite Hr|]|done].
  destruct r; by destruct Hr.
Qed.

Lemma service_serviced o rs io now ready s r s' :
  sockets_ok io → server_wf CARGO_PKG_VERSION o rs s →
  service_one CARGO_PKG_VERSION io now ready s = (r, s') →
  ∃ r', serviced CARGO_PKG_VERSION o rs io ready (expire now s) r' s'
    ∧ r = match r' with Ok a => Ok a | Err e => Err (Raise e) end.
Proof.
  intros Hio Hw Hr. pose proof (wp_run _ _ _ _ _ _ (service_one_ok _ o rs io now ready s Hio Hw) Hr) as Hs.
  destruct r as [a|[e|]]; [by exists (Ok a)|by exists (Err e)|done].
Qed.

Lemma evolves_used s s' D id :
  evolves D s s' → used (next_connection_id s) id → connections s !! id = None → connections s' !! id = None.
Proof.
  intros [Hc Hu] [_ Hlt] Hn. destruct (connections s' !! id) as [c'|] eqn:E; [|done].
  destruct (Hc id c' E) as [(c & ? & _)|[_ Hx]]; [congruence|]. specialize (Hlt id Hx). lia.
Qed.

(** Every step keeps the invariant, and replies drain only in a service. *)
Lemma step_wf w w' :
  world_wf w → server_step w w' →
  world_wf w' ∧ evolves (drained_by w w') (server w) (server w').
Proof.
  intros Hw Hst. assert (∀ s', evolves drains_none (server w) s' → evolves (drained_by w w') (server w) s') as Hnone.
  { intros s' [Hc Hu]. split; [|done]. intros id c' Hc'.
    destruct (Hc id c' Hc') as [(c & ? & [? ? ? [?|[_ []]]])|?]; [left; exists c|by right].
    split; [done|]. by split; [| | |left]. }
  destruct Hst as [io now ready r s' w Hio Hr|now w|now id resp req r s' w Ho Hq Hr|now id st r s' w Ho Hr
    |rc r s' w Hr|now st r s' w Hr|now r s' w Hr]; unfold world_wf in *; cbn [server owed receipts] in *.
  - destruct (service_serviced _ _ _ _ _ _ _ _ Hio Hw Hr) as (r' & Hs & ->). split.
    + apply serviced_wf in Hs. by destruct r'.
    + eapply evolves_trans; [| | | |apply (expire_evolves drains_none)|by eapply serviced_evolves].
      * by rewrite expire_spec.
      * intros id [c Hc]. by apply (sw_id _ _ _ _ Hw id c).
      * by intros id c [].
      * intros id c c' Hc [Hc' _]%expire_lookup [Ht Hd]. rewrite Hc in Hc'. injection Hc' as <-.
        by exists io, now, ready, (match r' with Ok a => Ok a | Err e => Err (Raise e) end).
  - split; [by apply expire_wf|apply Hnone, expire_evolves].
  - pose proof (wp_run _ _ _ _ _ _ (complete_request_server_ok _ _ _ now _ resp _ _ Hw Ho Hq) Hr) as Hp.
    destruct r as [rc|[e|]]; [destruct Hp|destruct Hp|done]; by split; [|apply Hnone].
  - pose proof (wp_run _ _ _ _ _ _ (complete_subscribe_server_ok _ _ _ now _ st _ Hw Ho) Hr) as Hp.
    destruct r as [rc|[e|]]; [destruct Hp as (? & ? & _)|destruct Hp|done]; by split; [|apply Hnone].
  - pose proof (wp_run _ _ _ _ _ _ (begin_response_barrier_ok _ _ _ rc _ Hw) Hr) as Hp.
    destruct r as [rc'|[e|]]; [destruct Hp as (? & ? & _)|destruct Hp as [-> _]|done];
      (split; [done|]); [by apply Hnone|apply evolves_refl].
  - pose proof (wp_run _ _ _ _ _ _ (publish_state_server_ok _ _ _ now st _ Hw) Hr) as Hp.
    destruct r as [rc'|[e|]]; [destruct Hp as (? & ? & _)|destruct Hp as (? & ? & _)|done];
      (split; [done|]); by apply Hnone.
  - pose proof (wp_run _ _ _ _ _ _ (begin_shutdown_server_ok _ _ _ now _ Hw) Hr) as Hp.
    destruct r as [rc'|[e|]]; [destruct Hp as (? & ? & _)|done|done]. by split; [|apply Hnone].
Qed.

Lemma world_reachable l w : rtc server_step (start l) w → world_wf w.
Proof.
  intros Hr. assert (world_wf (start l)) as Hs by apply new_server_wf. revert Hs.
  induction Hr as [w|w1 w2 w3 Hst _ IH]; [done|]. intros Hw. by apply IH, (step_wf w1).
Qed.

Lemma wp_no_panic {A} (m : stm ControlServer (failure ControlError) A) Q R s :
  wp m Q R s → (m s).1 ≠ Err Panic.
Proof. unfold wp. by destruct (m s) as [[|[]] ?]. Qed.

(** ** Theorems *)

(** C26. The control server never panics and stays within its bounds: in every
    reachable state no call of the reactor panics, at most 64 connections are
    open, their tokens are distinct and none is the listener's, and no closed
    connection is kept. *)
Theorem server_stays_sound l w :
  rtc server_step (start l) w →
  let s := server w in
  (∀ io now ready, sockets_ok io → (service_one CARGO_PKG_VERSION io now ready s).1 ≠ Err Panic)
  ∧ (∀ now id response req, owed w !! id = Some req → req ≠ ReqSubscribe →
       (complete_request now id response s).1 ≠ Err Panic)
  ∧ (∀ now id state, owed w !! id = Some ReqSubscribe → (complete_subscribe now id state s).1 ≠ Err Panic)
  ∧ (∀ now state, (publish_state now state s).1 ≠ Err Panic)
  ∧ (∀ now, (begin_shutdown now s).1 = Ok tt)
  ∧ size (connections s) ≤ CONNECTION_LIMIT
  ∧ (∀ id c, connections s !! id = Some c → token c ≠ listener_token s ∧ phase (machine c) ≠ Closing)
  ∧ (∀ id1 id2 c1 c2, connections s !! id1 = Some c1 → connections s !! id2 = Some c2 →
       token c1 = token c2 → id1 = id2).
Proof.
  intros Hw%world_reachable s. split_and!.
  - intros io now ready Hio. eapply wp_no_panic, (service_one_ok _ _ _ io now ready _ Hio Hw).
  - intros now id resp req Ho Hq. eapply wp_no_panic, (complete_request_server_ok _ _ _ now _ resp _ _ Hw Ho Hq).
  - intros now id st Ho. eapply wp_no_panic, (complete_subscribe_server_ok _ _ _ now _ st _ Hw Ho).
  - intros now st. eapply wp_no_panic, (publish_state_server_ok _ _ _ now st _ Hw).
  - intros now. pose proof (begin_shutdown_server_ok _ _ _ now _ Hw) as Hp. unfold wp in Hp.
    fold s in Hp. by destruct (begin_shutdown now s) as [[[]|[]] ?].
  - apply (sw_limit _ _ _ _ Hw).
  - intros id c Hc. split; [|apply (sw_connection _ _ _ _ Hw id c Hc)].
    unfold s. rewrite (sw_listener _ _ _ _ Hw). destruct (sw_token _ _ _ _ Hw id c Hc). lia.
  - apply (sw_token_inj _ _ _ _ Hw).
Qed.

(** C27. The server refines its connections: whatever the reactor and the sockets
    do, the machine of every open connection is in a state that connection reaches
    on its own, by the calls its specification allows, so that the guarantees of a
    connection hold of each; and the reactor owes a reply exactly to the
    connections whose machine has a request pending. *)
Theorem server_refines_connections l w :
  rtc server_step (start l) w →
  ∀ id c, connections (server w) !! id = Some c →
    (∃ now conn, rtc conn_step (connect now CARGO_PKG_VERSION) conn ∧ ControlConn.machine conn = machine c)
    ∧ (request_pending (machine c) = true ↔ is_Some (owed w !! id))
    ∧ (owed w !! id = Some ReqSubscribe ↔ request_pending (machine c) = true ∧ pending_subscribe (machine c) = true).
Proof.
  intros Hw%world_reachable id c Hc. destruct (sw_connection _ _ _ _ Hw id c Hc) as [_ Hr _ _ Ho].
  split; [exact Hr|]. destruct (owed w !! id) as [req|].
  - destruct Ho as [-> ->]. rewrite bool_decide_eq_true. naive_solver.
  - rewrite Ho. split; [split; [done|by intros []]|naive_solver].
Qed.

Lemma settlement_Drained r s :
  response_settlement r s = Drained →
  ∃ c, connections s !! receipt_connection r = Some c
    ∧ pending_response c ≠ Some (receipt_sequence r) ∧ (receipt_sequence r <= drained_upto c)%N.
Proof.
  unfold response_settlement, drained_upto. destruct (connections s !! _) as [c|]; [|done].
  case_decide as Hp; [done|]. destruct (last_drained_response c) as [d|] eqn:Hd; [|done].
  destruct (N.leb_spec (receipt_sequence r) d); [|done]. intros _. exists c. by rewrite Hd.
Qed.

(** Receipts settle once and truthfully: a receipt is pending when it is
    issued, reads closed exactly when its connection is gone, and goes from
    pending to drained only when the socket has taken the last byte of the frame
    on its way out; closed receipts stay closed and drained ones are never
    pending again. *)
Theorem receipts_settle l w w' r :
  rtc server_step (start l) w → server_step w w' → r ∈ receipts w' →
  let before := response_settlement r (server w) in
  let after := response_settlement r (server w') in
  (r ∉ receipts w → after = Pending)
  ∧ (after = Closed ↔ connections (server w') !! receipt_connection r = None)
  ∧ (r ∈ receipts w →
       (before = Closed → after = Closed) ∧ (before = Drained → after ≠ Pending)
       ∧ (before = Pending → after = Drained →
            ∃ c, connections (server w) !! receipt_connection r = Some c
              ∧ drained_by w w' (receipt_connection r) c)).
Proof.
  intros Hw%world_reachable Hst Hr'. pose proof (step_wf w w' Hw Hst) as [Hw' [Hev Hu]].
  cbv zeta. split_and!.
  - destruct Hst as [| |now id resp req res s' w Ho Hq Hres| | | |]; try done. cbn in *. intros Hr.
    pose proof (wp_run _ _ _ _ _ _ (complete_request_server_ok _ _ _ now _ resp _ _ Hw Ho Hq) Hres) as Hp.
    destruct res as [rc|]; [|done]. apply elem_of_cons in Hr' as [->|]; [apply Hp|done].
  - split; [|apply settlement_closed]. intros Ha. destruct (connections _ !! _) as [c|] eqn:Hc; [|done].
    rewrite (settlement_issued r _ c Hc) in Ha; [by case_decide| |].
    + apply (sw_connection _ _ _ _ Hw' _ c Hc).
    + by apply (sw_receipt _ _ _ _ Hw' r Hr').
  - intros Hr. destruct (sw_receipt _ _ _ _ Hw r Hr) as [Hused Hiss].
    destruct (connections (server w) !! receipt_connection r) as [c|] eqn:Hc.
    2: { pose proof (evolves_used _ (server w') _ _ (Build_evolves _ _ _ Hev Hu) Hused Hc) as Hn.
         rewrite !settlement_closed by done. done. }
    pose proof (ck_sequence _ _ _ (sw_connection _ _ _ _ Hw _ c Hc)) as Hseq.
    rewrite (settlement_issued r _ c Hc Hseq (Hiss c eq_refl)).
    destruct (connections (server w') !! receipt_connection r) as [c'|] eqn:Hc'.
    2: { rewrite (settlement_closed r (server w')) by done. split_and!; [by case_decide|done|done]. }
    destruct (Hev _ _ Hc') as [(c0 & Hc0 & [_ _ _ Hd])|[? _]]; [|congruence].
    rewrite Hc in Hc0. injection Hc0 as <-.
    pose proof (ck_sequence _ _ _ (sw_connection _ _ _ _ Hw' _ c' Hc')) as Hseq'.
    destruct (sw_receipt _ _ _ _ Hw' r Hr') as [_ Hiss'].
    rewrite (settlement_issued r _ c' Hc' Hseq' (Hiss' c' Hc')).
    pose proof (sq_pending _ Hseq) as Hq. pose proof (sq_pending _ Hseq') as Hq'.
    split_and!; [by case_decide| |].
    + case_decide as Hp; [done|]. intros _. case_decide as Hp'; [|done]. rewrite Hp' in Hq'.
      destruct Hq' as (_ & ? & Hd'). assert (receipt_sequence r <= drained_upto c)%N; [|lia].
      destruct (Hiss c eq_refl). destruct (pending_response c) as [q|]; [|lia].
      assert (receipt_sequence r ≠ q) by congruence. destruct Hq as (? & ? & ?). lia.
    + case_decide as Hp; [|done]. intros _. case_decide as Hp'; [done|]. intros _. exists c. split; [done|].
      destruct Hd as [E|[_ ?]]; [|done]. exfalso. rewrite Hp in Hq. destruct Hq as (_ & ? & Hdc).
      destruct (Hiss' c' Hc') as [_ Hle]. destruct (pending_response c') as [q|]; [|lia].
      assert (receipt_sequence r ≠ q) by congruence. destruct Hq' as (? & ? & ?). lia.
Qed.

(** Peers are isolated: a ready event touches at most the connection its token
    names, apart from expiry; a request is handed out only for that connection,
    a peer's I/O error costs that peer alone, and only the listener's token can
    fail the server as a whole, which then keeps every connection. *)
Theorem peers_are_isolated l w io now ready res s' :
  rtc server_step (start l) w → sockets_ok io →
  service_one CARGO_PKG_VERSION io now ready (server w) = (res, s') →
  let s1 := expire now (server w) in
  (∀ id c, connections s1 !! id = Some c → token c ≠ ready_token ready → connections s' !! id = Some c)
  ∧ match res with
    | Ok (Some (ControlRequest id req)) =>
        ∃ c, connections s1 !! id = Some c ∧ token c = ready_token ready
    | Ok None => True
    | Err (Raise (PeerIo id _)) =>
        s' = remove id s1 ∧ ∃ c, connections s1 !! id = Some c ∧ token c = ready_token ready
    | Err (Raise _) => s' = s1 ∧ ready_token ready = listener_token s1
    | Err Panic => False
    end.
Proof.
  intros Hw%world_reachable Hio Hr. cbv zeta.
  destruct (service_serviced _ _ _ _ _ _ _ _ Hio Hw Hr) as (r' & Hs & ->). set (s1 := expire now (server w)) in *.
  destruct Hs as [id c Hc Ht _ Hres|Ht _ (_ & _ & Hsub & _) Hres|_ -> ->]; [| |done].
  - destruct r' as [a|e].
    + destruct Hres as [_ _ Hex Hact _ _ _]. split.
      * intros j c' Hc' Hne. rewrite (except_lookup id s1 s'); [done|done|congruence].
      * destruct a as [[i req]|]; [|done]. rewrite (Hact i req eq_refl). by exists c.
    + destruct Hres as (_ & _ & -> & errno & ->). split; [|by split; [|exists c]].
      intros j c' Hc' Hne. cbn. rewrite lookup_delete_ne; [done|congruence].
  - split; [intros j c' Hc' _; by eapply lookup_weaken|].
    destruct r' as [a|e]; [by rewrite Hres|]. destruct Hres as [-> Hne].
    destruct e; try done. by destruct (Hne connection source).
Qed.

(** ** The barrier *)

Lemma omap_unique {A B} (f : A → option B) (l : list A) x y :
  NoDup l → x ∈ l → f x = Some y → (∀ z, z ∈ l → z ≠ x → f z = None) → omap f l = [y].
Proof.
  induction l as [|z l IH]; intros Hnd Hx Hf Hz; [by apply not_elem_of_nil in Hx|].
  apply NoDup_cons in Hnd as [Hni Hnd]. cbn. apply elem_of_cons in Hx as [<-|Hx].
  - rewrite Hf. f_equal. clear IH. induction l as [|z l IHl]; [done|]. cbn.
    rewrite Hz; [|by right; left|set_solver]. apply IHl; [set_solver|by inv Hnd|].
    intros z' [->|?]%elem_of_cons; apply Hz; set_solver.
  - rewrite Hz; [|by left|congruence]. apply IH; [done|done|done|]. intros z' ? ?. apply Hz; [by right|done].
Qed.

Lemma entries_NoDup s : NoDup (entries s).
Proof. eapply NoDup_fmap_1, keys_NoDup. Qed.

Lemma expire_settlement now r s :
  response_settlement r (expire now s) = Closed ∨ response_settlement r (expire now s) = response_settlement r s.
Proof.
  destruct (connections (expire now s) !! receipt_connection r) as [c|] eqn:Hc; [right|by left; apply settlement_closed].
  pose proof Hc as [Hc' _]%expire_lookup. unfold response_settlement. by rewrite Hc, Hc'.
Qed.

(** The barrier's connection names the server's deadline, and is gone by then. *)
Lemma barrier_deadline w r :
  world_wf w → response_barrier (server w) = Some r → response_settlement r (server w) = Pending →
  ∃ c dl, connections (server w) !! receipt_connection r = Some c ∧ replying (machine c)
    ∧ next_deadline (server w) = Some dl
    ∧ ∀ now, (dl <= now)%N → response_settlement r (expire now (server w)) = Closed.
Proof.
  intros Hw Hb Hp. destruct (settlement_Pending _ _ Hp) as (c & Hc & Hpend).
  pose proof (sw_connection _ _ _ _ Hw _ c Hc) as [Hl _ _ Hrep _].
  assert (replying (machine c)) as Hre by (apply Hrep; by eexists).
  destruct (waiting_deadline (machine c) (lv_wf _ Hl)) as [dl Hdl].
  { destruct Hre as [_ [out Ho]]. do 4 right. by rewrite Ho. }
  exists c, dl. split_and!; [done|done|unfold next_deadline; rewrite Hb, Hc; cbn; by rewrite decide_True|].
  intros now Hnow. apply settlement_closed.
  destruct (connections (expire now (server w)) !! receipt_connection r) as [c'|] eqn:Hc'; [|done].
  apply expire_lookup in Hc' as [Hc' Ho]. rewrite Hc in Hc'. injection Hc' as <-.
  unfold overdue, Control.expire in Ho. by rewrite Hdl, (proj2 (N.leb_le _ _)) in Ho.
Qed.

(** A response barrier is exclusive and bounded: while its reply is pending the
    server polls exactly that connection, for writing only; it hands out no
    request, admits nobody and touches no other connection; it has a deadline, and
    at the deadline the barrier is settled. *)
Theorem barrier_is_exclusive l w r :
  rtc server_step (start l) w → response_barrier (server w) = Some r →
  response_settlement r (server w) = Pending →
  ∃ c dl, connections (server w) !! receipt_connection r = Some c
    ∧ poll_interests (server w) = [mk_interest (token c) (fd c) false true]
    ∧ next_deadline (server w) = Some dl
    ∧ (∀ now, (dl <= now)%N → response_settlement r (expire now (server w)) = Closed)
    ∧ ∀ io now ready res s', sockets_ok io →
        service_one CARGO_PKG_VERSION io now ready (server w) = (res, s') →
        (∀ a, res = Ok a → a = None)
        ∧ ∀ j, j ≠ receipt_connection r → connections s' !! j = connections (expire now (server w)) !! j.
Proof.
  intros Hw%world_reachable Hb Hp.
  destruct (barrier_deadline w r Hw Hb Hp) as (c & dl & Hc & Hre & Hnext & Hclosed).
  assert (pending_response c = Some (receipt_sequence r)) as Hpend.
  { destruct (settlement_Pending _ _ Hp) as (c' & Hc' & ?). congruence. }
  exists c, dl. split_and!; [done| |done|done|].
  - unfold poll_interests. rewrite Hb, bool_decide_false, andb_false_r by done. cbn.
    apply (omap_unique _ _ (receipt_connection r, c)).
    + apply entries_NoDup.
    + by apply entries_elem.
    + cbn. rewrite !bool_decide_true by done. cbn. by rewrite has_output_replying.
    + intros [id c'] Hin%entries_elem Hne. cbn. case_bool_decide as E; [|done].
      subst id. rewrite Hc in Hin. injection Hin as <-. done.
  - intros io now ready res s' Hio Hr.
    destruct (service_serviced _ _ _ _ _ _ _ _ Hio Hw Hr) as (r' & Hs & ->).
    assert (response_barrier (expire now (server w)) = Some r) as Hb1 by by rewrite expire_spec.
    destruct Hs as [id c1 Hc1 _ Hid Hres|_ Hn _ _|_ -> ->]; [|congruence|by split; [intros a [= <-]|]].
    rewrite (Hid r Hb1) in *. clear Hid. destruct r' as [a|e].
    + destruct Hres as [_ _ Hex _ Hq _]. split; [|intros j Hj; by apply (except_lookup (receipt_connection r))].
      intros a' [= <-]. apply (Hq c1 Hc1). apply expire_lookup in Hc1 as [Hc1 _]. congruence.
    + destruct Hres as (_ & _ & -> & _). split; [done|]. intros j Hj. cbn. by rewrite lookup_delete_ne.
Qed.

(** ** The shutdown *)

Lemma shut_step d w w' :
  world_wf w → shut d (server w) → server_step w w' → shut d (server w').
Proof.
  intros Hw Hs Hst. pose proof Hs as [Hsd _].
  destruct Hst as [io now ready r s' w Hio Hr|now w|now id resp req r s' w Ho Hq Hr|now id st r s' w Ho Hr
    |rc r s' w Hr|now st r s' w Hr|now r s' w Hr]; cbn [server] in *.
  - assert (shut d (expire now (server w))) as Hs1
      by (eapply shut_submap; [done|apply expire_submap|by rewrite expire_spec]).
    destruct (service_serviced _ _ _ _ _ _ _ _ Hio Hw Hr) as (r' & Hx & _).
    destruct Hx as [id c1 _ _ _ Hres|_ _ (_ & _ & _ & [Hf| ->]) _|_ -> _]; [| |done|done].
    + destruct r'; [by apply Hres|]. destruct Hres as (_ & _ & -> & _).
      eapply shut_submap; [done|apply delete_subseteq|done].
    + destruct Hs1; congruence.
  - eapply shut_submap; [done|apply expire_submap|by rewrite expire_spec].
  - revert Hr. unfold complete_request, getS, mbind, stm_bind. rewrite Hsd. by intros [= _ <-].
  - revert Hr. unfold complete_subscribe, getS, mbind, stm_bind. rewrite Hsd. by intros [= _ <-].
  - pose proof (wp_run _ _ _ _ _ _ (begin_response_barrier_ok _ _ _ rc _ Hw) Hr) as Hp.
    destruct r as [rc'|[e|]]; [|by destruct Hp as [-> _]|done].
    destruct Hp as (_ & _ & E & _ & _ & _ & Esd). eapply shut_submap; [done|by rewrite E|done].
  - revert Hr. unfold publish_state, getS, mbind, stm_bind. rewrite Hsd. by intros [= _ <-].
  - revert Hr. unfold begin_shutdown, getS, mbind, stm_bind. rewrite Hsd. by intros [= _ <-].
Qed.

Lemma min_of_le (l : list N) d : d ∈ l → ∃ x, min_of l = Some x ∧ (x <= d)%N.
Proof.
  intros Hd. destruct l as [|y l]; [by apply not_elem_of_nil in Hd|]. cbn. eexists. split; [done|].
  assert (∀ acc, foldl N.min acc l <= acc ∧ ∀ x, x ∈ l → foldl N.min acc l <= x)%N as Hf.
  { clear. induction l as [|z l IH]; intros acc; cbn; [split; [lia|intros x Hx; by apply not_elem_of_nil in Hx]|].
    destruct (IH (N.min acc z)) as [Ha Hx]. split; [lia|]. intros x [->|?]%elem_of_cons; [lia|by apply Hx]. }
  destruct (Hf y) as [Ha Hx]. apply elem_of_cons in Hd as [->|Hd]; [done|by apply Hx].
Qed.

Lemma shut_due d w id c :
  world_wf w → shut d (server w) → connections (server w) !! id = Some c →
  ∃ x, Control.next_deadline (machine c) = Some x ∧ (x <= d)%N.
Proof.
  intros Hw [_ Hs] Hc. destruct (Hs id c Hc) as [Hp Hd]. unfold Control.next_deadline.
  rewrite decide_False by congruence. rewrite Hd. apply fold_deadline_le. by left.
Qed.

(** At its deadline the shutdown is complete; before, it names one. *)
Lemma shut_expired d w now :
  world_wf w → shut d (server w) → (d <= now)%N → is_shutdown_complete (expire now (server w)) = true.
Proof.
  intros Hw Hs Hnow. pose proof Hs as [Hsd _]. unfold is_shutdown_complete.
  replace (shutting_down (expire now (server w))) with true by by rewrite expire_spec.
  apply bool_decide_eq_true, map_empty. intros id.
  destruct (connections (expire now (server w)) !! id) as [c|] eqn:Hc; [|done].
  apply expire_lookup in Hc as [Hc Ho]. destruct (shut_due _ _ _ _ Hw Hs Hc) as (x & Hx & Hle).
  unfold overdue, Control.expire in Ho. rewrite Hx, (proj2 (N.leb_le _ _)) in Ho by lia. done.
Qed.

Lemma shut_named d w :
  world_wf w → shut d (server w) → is_shutdown_complete (server w) = false →
  ∃ dl, next_deadline (server w) = Some dl ∧ (dl <= d)%N.
Proof.
  intros Hw Hs. pose proof Hs as [Hsd _]. unfold is_shutdown_complete. rewrite Hsd. cbn.
  intros Hne%bool_decide_eq_false. unfold next_deadline. rewrite (sw_unbarred _ _ _ _ Hw Hsd).
  destruct (map_choose _ Hne) as (id & c & Hc). destruct (shut_due _ _ _ _ Hw Hs Hc) as (x & Hx & Hle).
  destruct (min_of_le (omap (λ p : N * Connection, Control.next_deadline (machine p.2)) (entries (server w))) x)
    as (y & Hy & ?); [|exists y; split; [done|lia]].
  apply list_elem_of_omap. exists (id, c). split; [by apply entries_elem|done].
Qed.

(** C28. The shutdown is bounded: once it begins no connection outlives its terminal
    timeout, however peers, sockets and the reactor behave; until the server is
    empty it names a deadline within that bound to wake up at. *)
Theorem shutdown_drains l w t r s' w' :
  rtc server_step (start l) w → shutting_down (server w) = false → begin_shutdown t (server w) = (r, s') →
  rtc server_step (mk_world s' (owed w) (receipts w)) w' →
  shutting_down (server w') = true
  ∧ (∀ now, (t + TERMINAL_TIMEOUT <= now)%N → is_shutdown_complete (expire now (server w')) = true)
  ∧ (is_shutdown_complete (server w') = false →
       ∃ dl, next_deadline (server w') = Some dl ∧ (dl <= t + TERMINAL_TIMEOUT)%N).
Proof.
  intros Hw%world_reachable Hsd Hr Hrun.
  pose proof (wp_run _ _ _ _ _ _ (begin_shutdown_server_ok _ _ _ t _ Hw) Hr) as Hp.
  destruct r as [[]|[e|]]; [|done|done]. destruct Hp as (Hw1 & _ & _ & Hs1). specialize (Hs1 Hsd).
  assert (world_wf w' ∧ shut (t + TERMINAL_TIMEOUT) (server w')) as [Hw' Hs'].
  { change (world_wf (mk_world s' (owed w) (receipts w))) in Hw1.
    change (shut (t + TERMINAL_TIMEOUT) (server (mk_world s' (owed w) (receipts w)))) in Hs1.
    revert Hw1 Hs1. induction Hrun as [w2|w2 w3 w4 Hst _ IH]; [done|]. intros Hw2 Hs2.
    apply IH; [by apply (step_wf w2)|by eapply shut_step]. }
  pose proof Hs' as [Hsd' _]. split_and!; [done| |by apply shut_named].
  intros now Hnow. by apply (shut_expired (t + TERMINAL_TIMEOUT)).
Qed.
End world.

(** ** A demo run

    The codec of the connection's demo; sockets that accept one user's peers,
    deliver the given bytes and take everything. *)
#[local] Existing Instances demo_request demo_response demo_event demo_response_text demo_event_text.

#[local] Instance demo_errors_fit : ErrorsFit.
Proof. constructor. intros message _. exists (lit "r" ++ [10%N]). by vm_compute. Qed.

Definition demo_io (bytes : list N) : Sockets := {|
  accept_with _ := Ok 7%N; socket_peercred _ := Ok 1000%N;
  recv _ room := Ok (take room bytes); send _ bytes := Ok (length bytes)
|}.

Lemma demo_io_ok bytes : sockets_ok (demo_io bytes).
Proof.
  split.
  - intros fd room received [= <-]. rewrite length_take. lia.
  - by intros fd sent count [= <-].
Qed.

Definition demo_listener : ActiveControlListener := {| listener_fd := 3; retained_euid := 1000 |}.

Definition demo_serve (bytes : list N) (now : N) (ready : ReadyEvent) (w : World) : World :=
  let rs := service_one (lit "1") (demo_io bytes) now ready (server w) in
  mk_world rs.2 (match rs.1 with Ok a => owed_after (owed w) a | Err _ => owed w end) (receipts w).

Lemma demo_serve_step bytes now ready w : server_step (lit "1") w (demo_serve bytes now ready w).
Proof. eapply StepService; [apply demo_io_ok|apply surjective_pairing]. Qed.

Definition reads (t : N) : ReadyEvent := {| ready_token := t; readable := true; terminal := false; writable := false |}.
Definition writes (t : N) : ReadyEvent := {| ready_token := t; readable := false; terminal := false; writable := true |}.

Definition demo_asking : World :=
  demo_serve (lit "g" ++ [10%N]) 8 (reads 1)
    (demo_serve [] 7 (writes 1)
       (demo_serve (lit "h" ++ [10%N]) 6 (reads 1) (demo_serve [] 5 (reads 0) (start demo_listener)))).

Definition demo_reply := complete_request 9 1 RespOk (server demo_asking).
Definition demo_receipt : ResponseReceipt := mk_receipt 1 1.
Definition demo_replied : World := mk_world demo_reply.2 (delete 1%N (owed demo_asking)) [demo_receipt].
Definition demo_barred : World :=
  mk_world (begin_response_barrier demo_receipt (server demo_replied)).2 (owed demo_replied) (receipts demo_replied).

Lemma demo_asking_reachable : rtc (server_step (lit "1")) (start demo_listener) demo_asking.
Proof.
  do 4 (eapply rtc_r; [|apply demo_serve_step]). apply rtc_refl.
Qed.

Lemma demo_replied_reachable : rtc (server_step (lit "1")) (start demo_listener) demo_replied.
Proof.
  eapply rtc_r; [apply demo_asking_reachable|].
  apply (StepReply (lit "1") 9 1 RespOk ReqGetState (Ok demo_receipt)); [by vm_compute|done|].
  change (demo_reply = (Ok demo_receipt, demo_reply.2)). rewrite (surjective_pairing demo_reply) at 1.
  done.
Qed.

Lemma demo_barred_reachable : rtc (server_step (lit "1")) (start demo_listener) demo_barred.
Proof.
  eapply rtc_r; [apply demo_replied_reachable|]. eapply StepBarrier, surjective_pairing.
Qed.

Lemma server_stays_sound_witness :
  size (connections (server demo_asking)) = 1 ∧ size (connections (server demo_asking)) ≤ CONNECTION_LIMIT.
Proof.
  split; [by vm_compute|].
  destruct (server_stays_sound (lit "1") demo_listener demo_asking demo_asking_reachable)
    as (_ & _ & _ & _ & _ & Hs & _). exact Hs.
Defined.

Lemma server_refines_connections_witness :
  ∃ c, connections (server demo_asking) !! 1%N = Some c ∧ request_pending (machine c) = true.
Proof.
  destruct (connections (server demo_asking) !! 1%N) as [c|] eqn:Hc.
  - exists c. split; [done|].
    destruct (server_refines_connections (lit "1") demo_listener demo_asking demo_asking_reachable 1%N c Hc)
      as (_ & [_ Hr] & _). apply Hr.
    exists ReqGetState. by vm_compute.
  - exfalso. apply (f_equal (λ o : option Connection, bool_decide (o = None))) in Hc. by vm_compute in Hc.
Defined.

Lemma receipts_settle_witness :
  let w' := demo_serve [] 10 (writes 1) demo_replied in
  ∃ c, connections (server demo_replied) !! 1%N = Some c ∧ drained_by (lit "1") demo_replied w' 1%N c.
Proof.
  cbv zeta.
  destruct (receipts_settle (lit "1") demo_listener demo_replied (demo_serve [] 10 (writes 1) demo_replied)
    demo_receipt demo_replied_reachable (demo_serve_step _ _ _ _) ltac:(left)) as (_ & _ & Hs).
  destruct (Hs ltac:(left)) as (_ & _ & Hd). apply Hd; by vm_compute.
Defined.

Lemma barrier_is_exclusive_witness :
  ∃ c dl, poll_interests (server demo_barred) = [mk_interest (token c) (fd c) false true]
    ∧ next_deadline (server demo_barred) = Some dl.
Proof.
  destruct (barrier_is_exclusive (lit "1") demo_listener demo_barred demo_receipt demo_barred_reachable
    ltac:(by vm_compute) ltac:(by vm_compute)) as (c & dl & _ & Hp & Hd & _). exists c, dl. split; [exact Hp|exact Hd].
Defined.

Lemma peers_are_isolated_witness :
  let s := expire 10 (server demo_asking) in
  connections (server (demo_serve [] 10 (reads 2) demo_asking)) !! 1%N = connections s !! 1%N.
Proof.
  cbv zeta.
  destruct (peers_are_isolated (lit "1") demo_listener demo_asking (demo_io []) 10 (reads 2) _ _
    demo_asking_reachable (demo_io_ok []) (surjective_pairing _)) as [Hp _].
  destruct (connections (expire 10 (server demo_asking)) !! 1%N) as [c|] eqn:Hc.
  - apply (Hp 1%N c Hc). intros Ht. apply (f_equal (λ o : option Connection, token <$> o)) in Hc.
    cbn in Hc. rewrite Ht in Hc. by vm_compute in Hc.
  - exfalso. apply (f_equal (λ o : option Connection, bool_decide (o = None))) in Hc. by vm_compute in Hc.
Defined.

Lemma shutdown_drains_witness :
  is_shutdown_complete (expire 100000009 (begin_shutdown 9 (server demo_asking)).2) = true.
Proof.
  destruct (shutdown_drains (lit "1") demo_listener demo_asking 9 _ _ _ demo_asking_reachable
    ltac:(by vm_compute) (surjective_pairing _) (rtc_refl _ _)) as (_ & Hd & _).
  apply Hd. vm_compute. discriminate.
Defined.
