(* ===== verification/Dispatch.v ===== *)
(** * realm-session/src/runtime.rs: translating a control request

    [dispatch_request] runs one request of the control protocol on the session and
    says how it is to be answered: at once, as a subscription, when the staged
    action completes, or by the barrier of a quit. *)

From Stdlib Require Import ZArith Lia.
From stdpp Require Import prelude list gmap sorting.
From S2P Require Import Prelude Layout Ledger Projection Keys State Backend Snapshot Visible Authority Hoare AuthorityInv Session Reduce SessionInv Finalize Turns Actions SessionSafety Timers Persistence Utf8 Ipc Control Worker Server.

(** ** Errors *)

(** The errors of the endpoint and the theme are of components that are not
    modelled; their payloads are left out. *)
Inductive RuntimeError :=
| RuntimeSession (e : SessionEventError)
| RuntimeFatalAction (e : SessionActionError)
| RuntimeBackend (e : BackendError)
| RuntimeEndpoint
| RuntimeWorkerCapacity (e : WorkerCapacityError)
| RuntimeWorker (e : WorkerError)
| RuntimeIo (e : IoFault)
| RuntimeControl (e : ControlError)
| RuntimeConfiguration (message : rstring)
| RuntimeTheme
| RuntimePersistence (e : PersistCompletionError)
| RuntimeInvariant (what : rstring).

(** [{kind:?}] and [{resource:?}] of the derived [Debug]. *)
Definition protocol_kind_name (kind : BackendProtocolErrorKind) : rstring :=
  match kind with
  | TruncatedPayload => lit "TruncatedPayload"
  | TruncatedAncillary => lit "TruncatedAncillary"
  | InvalidFraming => lit "InvalidFraming"
  | InvalidObjectOrder => lit "InvalidObjectOrder"
  end.

Definition capacity_resource_name (resource : BackendCapacityResource) : rstring :=
  match resource with
  | ManagedWindows => lit "ManagedWindows"
  | ConfiguredBindings => lit "ConfiguredBindings"
  | Outputs => lit "Outputs"
  | Seats => lit "Seats"
  | InputDevices => lit "InputDevices"
  | LibinputDevices => lit "LibinputDevices"
  | ObjectOrdinals => lit "ObjectOrdinals"
  | PolicyFacts => lit "PolicyFacts"
  | PolicyEffects => lit "PolicyEffects"
  | PolicyTextBytes => lit "PolicyTextBytes"
  | RetainedBytes => lit "RetainedBytes"
  | RetainedDescriptors => lit "RetainedDescriptors"
  | PolicyTurnIds => lit "PolicyTurnIds"
  end.

(** [BackendError::to_string] *)
Definition backend_error_text (e : BackendError) : rstring :=
  match e with
  | Unsupported capability => lit "backend cannot honour capability " ++ capability
  | ErrDisconnected => lit "backend disconnected"
  | Unavailable message => lit "backend unavailable: " ++ message
  | Io message => lit "backend I/O failed: " ++ message
  | Protocol kind => lit "backend protocol violation: " ++ protocol_kind_name kind
  | Capacity resource limit => lit "backend capacity exceeded for " ++ capacity_resource_name resource
      ++ lit ": limit " ++ decimal limit
  end.

(** [SessionActionError::to_string] *)
Definition action_error_text (e : SessionActionError) : rstring :=
  match e with
  | NotReady => lit "session is not ready for actions"
  | InvalidSpawnCommand => lit "spawn command requires a nonempty program"
  | Action_BackendTicketExhausted => lit "backend response ticket space is exhausted"
  | Action_Backend e => backend_error_text e
  end.

(** ** Dispatch *)

Inductive RequestDispatch :=
| DispatchImmediate (response : Response) (update : SessionUpdate)
| DispatchSubscribe (state : RealmState)
| DispatchPending (ticket : BackendTicket)
| DispatchQuit (update : SessionUpdate).

Definition application_error (kind : ErrorKind) (message : rstring) : RequestDispatch :=
  DispatchImmediate (RespError kind message) unchanged.

Definition action_result (r : result SessionUpdate SessionActionError) :
    result RequestDispatch RuntimeError :=
  match r with
  | Ok update =>
      match up_pending_action update with
      | Some ticket => Ok (DispatchPending ticket)
      | None => Ok (DispatchImmediate RespOk update)
      end
  | Err InvalidSpawnCommand => Ok (application_error BadArgument (action_error_text InvalidSpawnCommand))
  | Err NotReady => Ok (application_error BackendRefused (action_error_text NotReady))
  | Err (Action_Backend (Io _ | Unsupported _) as e) =>
      Ok (application_error BackendRefused (action_error_text e))
  | Err e => Err (RuntimeFatalAction e)
  end.

Section dispatch.
Context {B : Type} `{WmBackend B}.
Context (CARGO_PKG_VERSION : rstring).
Implicit Types s : Session (B:=B).

(** [Session::health] *)
Definition health (uptime : N) s : SessionHealth :=
  mk_health CARGO_PKG_VERSION PROTOCOL_VERSION (s_backend_name s) (s_capabilities s) (s_bound_interfaces s)
    (s_layer_shell_served s) (s_degraded_codes s) uptime.

Abbreviation dispatch_m A := (stm (Session (B:=B)) (failure RuntimeError) A).

Definition act (m : action_m SessionUpdate) : dispatch_m RequestDispatch :=
  r ← attempt m; of_result (action_result r).

Definition invalid_orbit (number : nat) : RequestDispatch :=
  application_error NoSuchOrbit (lit "invalid one-based orbit " ++ decimal (N.of_nat number)).

(** A request about the orbit of a one-based number. *)
Definition on_orbit (number : nat) (k : OrbitId → dispatch_m RequestDispatch) : dispatch_m RequestDispatch :=
  match from_human number with
  | Some orbit => k orbit
  | None => mret (invalid_orbit number)
  end.

Definition immediate_with (f : Session → Response) : dispatch_m RequestDispatch :=
  s ← getS; mret (DispatchImmediate (f s) unchanged).

Definition show_ledger (selected : option OrbitId) : dispatch_m RequestDispatch :=
  immediate_with (λ s, RespLedger (visible_ledger s selected)).

Definition dispatch_request (request : Request) (uptime : N) : dispatch_m RequestDispatch :=
  match request with
  | ReqHello _ _ => mret (application_error UnknownRequest (lit "Hello is only valid during handshake"))
  | ReqGetState => immediate_with (λ s, RespState (s_state s))
  | ReqGetKeymap => immediate_with (λ s, RespKeymap (s_keymap s))
  | ReqGetHealth => immediate_with (λ s, RespHealth (health uptime s))
  | ReqSubscribe => s ← getS; mret (DispatchSubscribe (s_state s))
  | ReqSwitchOrbit number => on_orbit number (λ o, act (perform (SwitchOrbit o)))
  | ReqMoveToOrbit number => on_orbit number (λ o, act (perform (MoveFocusedToOrbit o)))
  | ReqFocus direction => act (perform (FocusStep direction))
  | ReqSwap direction => act (perform (SwapStep direction))
  | ReqBanish => act request_close_focused
  | ReqStow => act (perform ToggleStow)
  | ReqFullscreen => act (perform ToggleFullscreen)
  | ReqSetLayout layout => act (perform (SetLayout layout))
  | ReqUndo => act (perform Undo)
  | ReqReloadTheme =>
      mret (application_error UnknownRequest (lit "theme reload is retired; apply themes through realmctl"))
  | ReqSpawn argv => act (request_spawn argv)
  | ReqShowLedger None => show_ledger None
  | ReqShowLedger (Some number) => on_orbit number (λ o, show_ledger (Some o))
  | ReqQuit => u ← zoom id (λ s _, s) RuntimeSession begin_direct_quit; mret (DispatchQuit u)
  end.
End dispatch.

(** ** What a dispatch does *)

(** The update of an action: no completion, no quit, no timer, and nothing else
    besides the ticket when the action is pending. *)
Record prompt (u : SessionUpdate) : Prop := {
  pr_timer : up_repeat_timer u = Timer_Preserve;
  pr_completion : up_action_completion u = None;
  pr_effects : quit_points (up_effects u) = [];
  pr_pending : ∀ k, up_pending_action u = Some k → u = unchanged <| up_pending_action := Some k |>
}.

(** An action's error that ends the daemon. *)
Definition fatal_action (e : SessionActionError) : bool :=
  match e with
  | NotReady | InvalidSpawnCommand | Action_Backend (Io _ | Unsupported _) => false
  | _ => true
  end.

Section dispatched.
Context {B : Type} `{WmBackend B}.
Context (CARGO_PKG_VERSION : rstring).
Implicit Types s : Session (B:=B).

(** What [dispatch_request] leaves of a live session. *)
Definition dispatched (request : Request) s (d : RequestDispatch) s' : Prop :=
  session_wf s' ∧
  match d with
  | DispatchImmediate _ u => request ≠ ReqSubscribe ∧ moves u s s' ∧ promised u s s' ∧ prompt u
      ∧ up_pending_action u = None
  | DispatchSubscribe st => request = ReqSubscribe ∧ s' = s ∧ st = s_state s
  | DispatchPending k => request ≠ ReqSubscribe ∧ moves unchanged s s'
      ∧ promised (unchanged <| up_pending_action := Some k |>) s s'
  | DispatchQuit u => request = ReqQuit ∧ moves u s s' ∧ u = direct_quit ∧ s_phase s' = PhaseQuitPending
      ∧ ledger_snapshot s' = ledger_snapshot s
  end.

Lemma prompt_unchanged : prompt unchanged.
Proof. by split. Qed.

Lemma prompt_pending k : prompt (unchanged <| up_pending_action := Some k |>).
Proof. split; try done. by intros k' [= <-]. Qed.

Lemma prompt_installed p st : prompt (unchanged <| up_persistence := p |> <| up_state := st |>).
Proof. by split. Qed.

Hint Resolve prompt_unchanged prompt_pending prompt_installed : core.

Lemma perform_prompt a s u s' : perform a s = (Ok u, s') → prompt u.
Proof.
  unfold perform, stage_ledger_update, mbind at 1, stm_bind at 1, getS at 1.
  destruct (not_ready s); [done|]. unfold stage_policy_ledger_update, mbind at 1, stm_bind at 1, getS at 1.
  cbv zeta. destruct (decide _); [by intros [= <- <-]|]. destruct (t_projection_required _).
  - intros (k & s1 & _ & (x & s2 & _ & Hx)%stm_bind_Ok)%stm_bind_Ok. by injection Hx as <- <-.
  - intros (b & s1 & _ & (x & s2 & _ & (st & s3 & _ & (a' & s4 & _ & Hx)%stm_bind_Ok)%stm_bind_Ok)%stm_bind_Ok)%stm_bind_Ok.
    by injection Hx as <- <-.
Qed.

Lemma request_close_prompt s u s' : request_close_focused s = (Ok u, s') → prompt u.
Proof.
  unfold request_close_focused, mbind at 1, stm_bind at 1, getS at 1.
  destruct (not_ready s); [done|]. destruct (focused _); [|by intros [= <- <-]].
  intros (k & s1 & _ & (x & s2 & _ & (y & s3 & _ & Hx)%stm_bind_Ok)%stm_bind_Ok)%stm_bind_Ok.
  by injection Hx as <- <-.
Qed.

Lemma request_spawn_prompt argv s u s' : request_spawn argv s = (Ok u, s') → prompt u.
Proof.
  unfold request_spawn, mbind, stm_bind, getS. destruct (not_ready s); [done|].
  destruct argv as [|[|]]; [done|done|]. by intros [= <- <-].
Qed.

Lemma act_ok request m s :
  session_wf s → request ≠ ReqSubscribe →
  wp m (ended s) (λ _ s', untouched s s') s → (∀ u s', m s = (Ok u, s') → prompt u) →
  wp (act m) (dispatched request s) (λ e _, ∃ a, e = RuntimeFatalAction a ∧ fatal_action a = true) s.
Proof.
  intros Hs Hr Hm Hp. unfold act. apply wp_bind, wp_attempt.
  eapply wp_mono; [apply wp_conj; [exact Hm|exact Hp]| |].
  - intros u s' [[Hwf Hmv Hpm] Hpr]. apply wp_of_result; cbn.
    + destruct (up_pending_action u) as [k|] eqn:Hk; intros d [= <-]; (split; [done|]).
      * apply (pr_pending _ Hpr) in Hk as ->. split_and!; [done| |done]. by destruct Hmv.
      * by split_and!.
    + by destruct (up_pending_action u).
  - intros e s' Hu. pose proof (untouched_moves _ _ Hu). pose proof (untouched_promised _ _ Hu).
    apply wp_of_result.
    + intros d Hd. assert (∃ resp, d = DispatchImmediate resp unchanged) as [resp ->].
      { destruct e as [| | |[]]; cbn in Hd; try done; injection Hd as <-; by eexists. }
      split; [apply Hu|]. by split_and!.
    + intros e' He. destruct e as [| | |[]]; try done; injection He as <-; by eexists.
Qed.

Lemma immediate_ok request s resp :
  session_wf s → request ≠ ReqSubscribe → dispatched request s (DispatchImmediate resp unchanged) s.
Proof.
  intros Hs Hr. split; [done|]. split_and!; [done|apply moves_refl|by apply promised_unchanged|done|done].
Qed.

Lemma on_orbit_ok request number s k R :
  session_wf s → request ≠ ReqSubscribe →
  (∀ o, o < ORBIT_COUNT → wp (k o) (dispatched request s) R s) →
  wp (on_orbit number k) (dispatched request s) R s.
Proof.
  intros Hs Hr Hk. unfold on_orbit. destruct (from_human number) as [o|] eqn:Ho.
  - apply Hk. destruct number as [|i]; [done|]. cbn in Ho. unfold OrbitId_new in Ho.
    destruct (Nat.ltb_spec i ORBIT_COUNT); [|done]. by injection Ho as <-.
  - apply wp_ret. by apply immediate_ok.
Qed.

Lemma dispatch_request_ok request uptime s :
  session_wf s → s_phase s = Live →
  wp (dispatch_request CARGO_PKG_VERSION request uptime) (dispatched request s)
    (λ e _, ∃ a, e = RuntimeFatalAction a ∧ fatal_action a = true) s.
Proof.
  intros Hs Hlive.
  assert (∀ a, request ≠ ReqSubscribe → ledger_action_valid a → wp (act (perform a)) (dispatched request s)
    (λ e _, ∃ a, e = RuntimeFatalAction a ∧ fatal_action a = true) s) as Hp.
  { intros a Hr Hv. apply act_ok; [done|done|by apply perform_ok|apply perform_prompt]. }
  destruct request as [| | | | |n|n|dir|dir| | | |lay| | |argv|[n|]|]; cbn [dispatch_request];
    try (by apply wp_ret, immediate_ok); try (by apply Hp); try (by apply wp_getS, wp_ret, immediate_ok).
  - apply wp_getS, wp_ret. by split.
  - apply on_orbit_ok; [done|done|]. intros o Ho. by apply Hp.
  - apply on_orbit_ok; [done|done|]. intros o Ho. by apply Hp.
  - apply act_ok; [done|done|by apply request_close_focused_ok|apply request_close_prompt].
  - apply act_ok; [done|done|by apply request_spawn_ok|apply request_spawn_prompt].
  - apply on_orbit_ok; [done|done|]. intros o Ho. by apply wp_getS, wp_ret, immediate_ok.
  - apply wp_bind, wp_zoom. eapply wp_mono; [by apply begin_direct_quit_ok| |by intros e s' [_ []]].
    intros u s' (Hwf & Hm & Hled & Hq). destruct (Hq Hlive) as [-> Hph]. apply wp_ret. by split_and!.
Qed.

(** Requests that only read. *)
Definition is_query (request : Request) : bool :=
  match request with
  | ReqHello _ _ | ReqGetState | ReqGetKeymap | ReqGetHealth | ReqSubscribe | ReqReloadTheme | ReqShowLedger _ => true
  | _ => false
  end.

(** A dispatch that answers at once, or subscribes, and asks for nothing else. *)
Definition at_once (d : RequestDispatch) : Prop :=
  match d with DispatchImmediate _ u => u = unchanged | DispatchSubscribe _ => True | _ => False end.

Lemma act_refused (m : action_m (B:=B) SessionUpdate) s :
  m s = (Err (Raise NotReady), s) → ∃ d, act m s = (Ok d, s) ∧ at_once d.
Proof. intros Hm. unfold act, mbind, stm_bind, attempt. rewrite Hm. by eexists. Qed.

Lemma on_orbit_at_once number k s :
  (∀ o, ∃ d, k o s = (Ok d, s) ∧ at_once d) → ∃ d, on_orbit (B:=B) number k s = (Ok d, s) ∧ at_once d.
Proof. intros Hk. unfold on_orbit. destruct (from_human number); [apply Hk|by eexists]. Qed.

Lemma busy_at_once request uptime s :
  is_query request = true ∨ not_ready s = true → request ≠ ReqQuit →
  ∃ d, dispatch_request CARGO_PKG_VERSION request uptime s = (Ok d, s) ∧ at_once d.
Proof.
  intros Hb Hq. destruct (is_query request) eqn:Hr.
  - destruct request as [| | | | |n|n|dir|dir| | | |lay| | |argv|[n|]|]; try done; cbn [dispatch_request];
      try (by eexists). apply on_orbit_at_once. intros o. by eexists.
  - destruct Hb as [|Hb]; [done|].
    assert (∀ a, ∃ d, act (perform a) s = (Ok d, s) ∧ at_once d) as Hp.
    { intros a. apply act_refused. unfold perform, stage_ledger_update, mbind, stm_bind, getS. by rewrite Hb. }
    destruct request as [| | | | |n|n|dir|dir| | | |lay| | |argv|[n|]|]; try done; cbn [dispatch_request]; try apply Hp.
    + apply on_orbit_at_once. intros o. apply Hp.
    + apply on_orbit_at_once. intros o. apply Hp.
    + apply act_refused. unfold request_close_focused, mbind, stm_bind, getS. by rewrite Hb.
    + apply act_refused. unfold request_spawn, mbind, stm_bind, getS. by rewrite Hb.
Qed.

(** C32. Requests are dispatched safely.  On a live session no request panics: it is
    answered at once with what the session's methods did, subscribes to the current
    state, waits for the ticket of the action it started, or begins the quit, in each
    case with the session's invariant kept; the only errors are of actions the
    backend cannot carry out.  A query, and any action while one is under way, is
    answered at once and leaves the session exactly as it was. *)
Theorem requests_are_dispatched request uptime s :
  session_wf s → s_phase s = Live →
  wp (dispatch_request CARGO_PKG_VERSION request uptime) (dispatched request s)
    (λ e _, ∃ a, e = RuntimeFatalAction a ∧ fatal_action a = true) s
  ∧ (is_query request = true ∨ not_ready s = true → request ≠ ReqQuit →
     ∃ d, dispatch_request CARGO_PKG_VERSION request uptime s = (Ok d, s) ∧ at_once d).
Proof. intros Hs Hl. split; [by apply dispatch_request_ok|apply busy_at_once]. Qed.
End dispatched.

(** The demo session is asked for its state. *)
Lemma requests_are_dispatched_witness :
  ∃ d, dispatch_request (lit "1") ReqGetState 0 demo_live = (Ok d, demo_live) ∧ at_once d.
Proof.
  assert (s_phase demo_live = Live) as Hl by (vm_compute; reflexivity).
  pose proof (requests_are_dispatched (lit "1") ReqGetState 0 demo_live demo_live_wf Hl) as [_ Hq].
  apply Hq; [by left|done].
Defined.
