(* ===== verification/Runtime.v ===== *)
(** * realm-session/src/runtime.rs: the daemon's owners

    [RuntimeOwners] holds the session, the control server, the worker, the timers,
    the clock and the persistence coordinator, and its methods carry what one
    component reports to the others.  A component's method runs on its field by
    [zoom].  What the kernel, the sampler's mailbox and the wall clock answer is
    the argument [Kernel]. *)

From Stdlib Require Import ZArith Lia.
From stdpp Require Import prelude list gmap sorting.
From S2P Require Import Prelude Layout Ledger Projection Keys State Backend Snapshot Visible Authority Hoare Session BackendTurn Modules Timers Persistence Utf8 Ipc Control Worker Server Dispatch.

(** What the system answers during a call.  [eventfd_write] is the write of the
    sampler's stop descriptor: [Ok 8], [AGAIN] and anything else.  [wall_clock] is
    read where an expired clock or a sample is taken up, [wall_clock_then] where the
    session's update is handled. *)
Inductive EventWrite := EventWritten | EventAgain | EventPartial | EventFailed (errno : Z).

Record Kernel := mk_kernel {
  sockets : Sockets;
  timerfd_settime : result unit Z;
  read_repeat : TimerRead;
  read_clock : TimerRead;
  eventfd_write : EventWrite;
  latest_sample : result (option ModuleSnapshot) IoFault;
  wall_clock : Z;
  wall_clock_then : Z
}.

(** ** The clock *)

Record ClockRuntime := mk_clock {
  ck_module : ClockModule;
  ck_dirty : bool;
  ck_sampler : option ModuleSnapshot;
  ck_sampler_dirty : bool
}.

#[export] Instance ClockRuntime_settable : Settable ClockRuntime := λ c,
  mk_clock (ck_module c) (ck_dirty c) (ck_sampler c) (ck_sampler_dirty c).

Definition ClockRuntime_system (timezone : ClockModule) : ClockRuntime := mk_clock timezone false None false.

Section runtime.
Context {B : Type} `{WmBackend B}.
Context `{JsonErrors, !Wire Request, !Wire Response, !Wire Event}.
Context (CARGO_PKG_VERSION : rstring).

(** [sampler_stopped] is what the owner keeps of the sampler. *)
Record RuntimeOwners := mk_owners {
  o_session : Session (B:=B);
  o_control : ControlServer;
  o_worker : System;
  o_timers : SessionTimers;
  o_clock : ClockRuntime;
  o_sampler_stopped : bool;
  o_persistence : PersistenceCoordinator;
  o_pending_request : option (BackendTicket * N);
  o_quit_receipt : option ResponseReceipt;
  o_worker_sealed : bool;
  o_shutdown_started : bool;
  o_exit_started : bool;
  o_started_at : N
}.

#[export] Instance RuntimeOwners_settable : Settable RuntimeOwners := λ o,
  mk_owners (o_session o) (o_control o) (o_worker o) (o_timers o) (o_clock o) (o_sampler_stopped o)
    (o_persistence o) (o_pending_request o) (o_quit_receipt o) (o_worker_sealed o)
    (o_shutdown_started o) (o_exit_started o) (o_started_at o).

Implicit Types o : RuntimeOwners.

Definition RuntimeOwners_new (session : Session (B:=B)) (control : ControlServer) (worker : System)
    (timers : SessionTimers) (clock : ClockRuntime) (persistence : PersistenceCoordinator) (started_at : N) :
    RuntimeOwners :=
  mk_owners session control worker timers clock false persistence None None false false false started_at.

Abbreviation runtime_m A := (stm RuntimeOwners (failure RuntimeError) A).

(** The components of the owners. *)
Definition on_session {E A} (wrap : E → RuntimeError) (m : stm Session (failure E) A) : runtime_m A :=
  zoom o_session (λ s o, o <| o_session := s |>) wrap m.

Definition on_control {A} (m : stm ControlServer (failure ControlError) A) : runtime_m A :=
  zoom o_control (λ s o, o <| o_control := s |>) RuntimeControl m.

(** The same where the caller looks at the error. *)
Definition try_control {A} (m : stm ControlServer (failure ControlError) A) :
    runtime_m (result A ControlError) :=
  zoom o_control (λ s o, o <| o_control := s |>) RuntimeControl (attempt m).

Definition on_worker {E A} (wrap : E → RuntimeError) (m : stm System (failure E) A) : runtime_m A :=
  zoom o_worker (λ w o, o <| o_worker := w |>) wrap m.

Definition on_timers {A} (m : stm SessionTimers (failure IoFault) A) : runtime_m A :=
  zoom o_timers (λ t o, o <| o_timers := t |>) RuntimeIo m.

(** An infallible method, its result paired with the component it leaves. *)
Definition step_session {A} (f : Session → A * Session) : runtime_m A := λ o,
  let '(a, s) := f (o_session o) in (Ok a, o <| o_session := s |>).

Definition step_persistence {A} (f : PersistenceCoordinator → A * PersistenceCoordinator) : runtime_m A := λ o,
  let '(a, c) := f (o_persistence o) in (Ok a, o <| o_persistence := c |>).

(** ** Clock and sampler *)

(** [update_clock_module] *)
Definition update_clock_module (sampled : option ModuleSnapshot) (clock : BarModule) (s : Session (B:=B)) :
    SessionUpdate * Session (B:=B) :=
  update_modules (match sampled with Some snapshot => modules snapshot clock | None => [clock] end) s.

(** What a method of the clock may change. *)
Record Ticking := mk_ticking { tk_clock : ClockRuntime; tk_session : Session (B:=B) }.

#[export] Instance Ticking_settable : Settable Ticking := λ c, mk_ticking (tk_clock c) (tk_session c).

Abbreviation clock_m A := (stm Ticking (failure RuntimeError) A).

Definition on_clock {A} (m : clock_m A) : runtime_m A :=
  zoom (λ o, mk_ticking (o_clock o) (o_session o))
    (λ c o, o <| o_clock := tk_clock c |> <| o_session := tk_session c |>) id m.

(** [self.module.render(now)?], then the session's modules. *)
Definition publish_clock (wall : Z) : clock_m SessionUpdate := λ c,
  match render (ck_module (tk_clock c)) wall with
  | Some m =>
      let '(u, s) := update_clock_module (ck_sampler (tk_clock c)) m (tk_session c) in
      (Ok u, c <| tk_session := s |>)
  | None => (Err (Raise (RuntimeIo IoInvalidData)), c)
  end.

Definition set_clock (f : ClockRuntime → ClockRuntime) : clock_m unit := modify (set tk_clock f).

(** [ClockRuntime::tick] *)
Definition tick (wall : Z) : clock_m SessionUpdate :=
  c ← getS;
  if has_active_backend_transaction (tk_session c)
  then _ ← set_clock (set ck_dirty (λ _, true)); mret unchanged
  else _ ← set_clock (set ck_dirty (λ _, false)); publish_clock wall.

(** [ClockRuntime::accept_sampler] *)
Definition accept_sampler (wall : Z) (snapshot : ModuleSnapshot) : clock_m SessionUpdate :=
  _ ← set_clock (set ck_sampler (λ _, Some snapshot));
  c ← getS;
  if has_active_backend_transaction (tk_session c)
  then _ ← set_clock (set ck_sampler_dirty (λ _, true)); mret unchanged
  else _ ← set_clock (set ck_sampler_dirty (λ _, false)); publish_clock wall.

(** [ClockRuntime::fold_if_clean] *)
Definition fold_if_clean (wall : Z) (update : SessionUpdate) : clock_m SessionUpdate :=
  c ← getS;
  if negb (ck_dirty (tk_clock c)) && negb (ck_sampler_dirty (tk_clock c))
     || has_active_backend_transaction (tk_session c)
  then mret update
  else
    _ ← set_clock (λ k, k <| ck_dirty := false |> <| ck_sampler_dirty := false |>);
    clock_update ← publish_clock wall;
    mret (match up_state clock_update with
          | Some _ => update <| up_state := up_state clock_update |>
          | None => update
          end).

(** [ModuleSampler::stop] *)
Definition stop_sampler (write : EventWrite) : runtime_m unit :=
  o ← getS;
  if o_sampler_stopped o then mret tt
  else
    _ ← modify (λ o, o <| o_sampler_stopped := true |>);
    match write with
    | EventWritten | EventAgain => mret tt
    | EventPartial => raise (RuntimeIo IoWriteZero)
    | EventFailed errno => raise (RuntimeIo (IoOs errno))
    end.

(** ** Applying an update *)

(** The process jobs of an effect, and what it asks of the quit. *)
Definition effect_jobs (e : SessionEffect) : list ProcessJob :=
  match e with
  | Effect_Spawn argv => [JobSpawn argv]
  | Effect_Terminal => [JobFixedConsumer Worker.Terminal]
  | Effect_Launcher => [JobFixedConsumer Launcher]
  | Effect_ReloadTheme | Effect_QuitPending _ => []
  end.

Definition more_than_one_quit : RuntimeError :=
  RuntimeInvariant (lit "one update contained more than one Quit barrier").

(** The loop over the effects: the jobs in order, and the quit. *)
Fixpoint drain_effects (k : Kernel) (effects : list SessionEffect) (jobs : list ProcessJob)
    (quit : option QuitAfter) : runtime_m (list ProcessJob * option QuitAfter) :=
  match effects with
  | [] => mret (jobs, quit)
  | Effect_QuitPending after :: effects' =>
      _ ← stop_sampler (eventfd_write k);
      if bool_decide (is_Some quit) then raise more_than_one_quit
      else drain_effects k effects' jobs (Some after)
  | e :: effects' => drain_effects k effects' (jobs ++ effect_jobs e) quit
  end.

Definition reserve (jobs : list ProcessJob) : runtime_m (option WorkerReservation) :=
  if decide (jobs = []) then mret None
  else r ← on_worker RuntimeWorkerCapacity (reserve_process_jobs (length jobs)); mret (Some r).

Definition cancel_reservation (reservation : option WorkerReservation) : runtime_m unit :=
  match reservation with Some r => on_worker RuntimeWorker (cancel r) | None => mret tt end.

(** The errors that close one peer only. *)
Definition peer_local_completion (e : ControlError) : bool :=
  match e with
  | StaleConnection _ | ResponseSequenceExhausted _ | OutboundFramesTooLarge _ => true
  | _ => false
  end.

Definition outbound_too_large (e : ControlError) : bool :=
  match e with OutboundFramesTooLarge _ => true | _ => false end.

(** Publish, unless some subscriber's frame is too large, which costs only it. *)
Definition publish_update (now : N) (state : option RealmState) (reservation : option WorkerReservation) :
    runtime_m unit :=
  match state with
  | None => mret tt
  | Some state =>
      r ← try_control (publish_state now state);
      match r with
      | Ok _ => mret tt
      | Err e =>
          if outbound_too_large e then mret tt
          else _ ← cancel_reservation reservation; raise (RuntimeControl e)
      end
  end.

Definition answer_requester (now : N) (requester : option (N * Response))
    (reservation : option WorkerReservation) : runtime_m (option ResponseReceipt) :=
  match requester with
  | None => mret None
  | Some (connection, response) =>
      r ← try_control (complete_request now connection response);
      match r with
      | Ok receipt => mret (Some receipt)
      | Err e =>
          if peer_local_completion e then mret None
          else _ ← cancel_reservation reservation; raise (RuntimeControl e)
      end
  end.

Definition commit_jobs (reservation : option WorkerReservation) (jobs : list ProcessJob) : runtime_m unit :=
  match reservation with Some r => on_worker RuntimeWorker (commit r jobs) | None => mret tt end.

Definition begin_terminal_worker (now : N) : runtime_m unit :=
  o ← getS;
  if o_worker_sealed o then mret tt
  else
    _ ← (match shutdown_snapshot (o_persistence o) with
         | Some snapshot => on_worker RuntimeWorker (submit_shutdown_snapshot snapshot)
         | None => mret tt
         end);
    _ ← on_worker RuntimeWorker (seal now);
    modify (λ o, o <| o_worker_sealed := true |>).

Definition begin_shutdown (k : Kernel) (now : N) : runtime_m unit :=
  o ← getS;
  if o_shutdown_started o then mret tt
  else
    _ ← modify (λ o, o <| o_quit_receipt := None |>);
    _ ← on_control (Server.begin_shutdown now);
    update ← step_session Session.begin_shutdown;
    _ ← on_timers (apply_repeat (timerfd_settime k) (up_repeat_timer update));
    modify (λ o, o <| o_shutdown_started := true |>).

(** Where a quit waits for the reply to its requester. *)
Definition begin_quit_barrier (k : Kernel) (now : N) (after : QuitAfter) (receipt : option ResponseReceipt) :
    runtime_m unit :=
  match after, receipt with
  | NoRequester, _ | _, None => begin_shutdown k now
  | _, Some receipt =>
      _ ← modify (λ o, o <| o_quit_receipt := Some receipt |>);
      settlement ← on_control (begin_response_barrier receipt);
      if negb (bool_decide (settlement = Server.Pending)) then begin_shutdown k now else mret tt
  end.

Definition apply_update (k : Kernel) (now : N) (update : SessionUpdate) (requester : option (N * Response)) :
    runtime_m unit :=
  _ ← on_timers (apply_repeat (timerfd_settime k) (up_repeat_timer update));
  jq ← drain_effects k (up_effects update) [] None;
  reservation ← reserve jq.1;
  _ ← step_persistence (Persistence.observe (up_persistence update) now);
  _ ← publish_update now (up_state update) reservation;
  receipt ← answer_requester now requester reservation;
  _ ← commit_jobs reservation jq.1;
  match jq.2 with
  | Some after => _ ← begin_terminal_worker now; begin_quit_barrier k now after receipt
  | None => mret tt
  end.

(** The requester of a completed action, and its answer. *)
Definition completion_response (r : result unit SessionActionError) : Response :=
  match r with
  | Ok _ => RespOk
  | Err e => RespError BackendRefused (action_error_text e)
  end.

Definition take_requester (completion : option ActionCompletion) : runtime_m (option (N * Response)) :=
  match completion with
  | None => mret None
  | Some c =>
      o ← getS;
      _ ← modify (λ o, o <| o_pending_request := None |>);
      match o_pending_request o with
      | None => raise (RuntimeInvariant (lit "action completion had no pending control requester"))
      | Some (ticket, connection) =>
          if decide (ticket = completion_ticket c)
          then mret (Some (connection, completion_response (completion_result c)))
          else raise (RuntimeInvariant (lit "action completion ticket did not match its requester"))
      end
  end.

Definition handle_session_update (k : Kernel) (now : N) (update : SessionUpdate) : runtime_m unit :=
  update ← on_clock (fold_if_clean (wall_clock_then k) update);
  requester ← take_requester (up_action_completion update);
  apply_update k now update requester.

(** ** Control *)

(** Milliseconds since the daemon started, at most [u64::MAX]. *)
Definition uptime_millis (now started_at : N) : N := N.min ((now - started_at) / 1000000) u64_max.

(** A second admitted request would replace the first. *)
Definition admit_pending (ticket : BackendTicket) (connection : N) : runtime_m unit :=
  o ← getS;
  _ ← modify (λ o, o <| o_pending_request := Some (ticket, connection) |>);
  match o_pending_request o with
  | Some _ => raise (RuntimeInvariant (lit "a second control request replaced an admitted request"))
  | None => mret tt
  end.

Definition subscribe_connection (now connection : N) (state : RealmState) : runtime_m unit :=
  r ← try_control (complete_subscribe now connection state);
  match r with
  | Ok _ => mret tt
  | Err e => if peer_local_completion e then mret tt else raise (RuntimeControl e)
  end.

Definition handle_control_action (k : Kernel) (now : N) (action : ControlAction) : runtime_m unit :=
  let '(ControlRequest connection request) := action in
  o ← getS;
  d ← on_session id (dispatch_request CARGO_PKG_VERSION request (uptime_millis now (o_started_at o)));
  match d with
  | DispatchImmediate response update => apply_update k now update (Some (connection, response))
  | DispatchSubscribe state => subscribe_connection now connection state
  | DispatchPending ticket => admit_pending ticket connection
  | DispatchQuit update => apply_update k now update (Some (connection, RespOk))
  end.

(** A failed peer is reported and forgotten. *)
Definition service_control (k : Kernel) (now : N) (ready : ReadyEvent) : runtime_m unit :=
  r ← try_control (service_one CARGO_PKG_VERSION (sockets k) now ready);
  match r with
  | Ok (Some action) => handle_control_action k now action
  | Ok None | Err (PeerIo _ _) => mret tt
  | Err e => raise (RuntimeControl e)
  end.

Definition expire_control (now : N) : runtime_m unit :=
  modify (λ o, o <| o_control := Server.expire now (o_control o) |>).

(** ** The other services *)

Definition service_backend (k : Kernel) (now : N) (ready : BackendReady) : runtime_m bool :=
  o ← getS;
  match s_phase (o_session o) with
  | PhaseQuitPending | Authority.ShuttingDown => mret false
  | _ =>
      turn ← on_session RuntimeSession (backend_turn ready now);
      match turn with
      | TurnIdle | TurnProgressed => mret false
      | TurnUpdated update => _ ← handle_session_update k now update; mret false
      | TurnExitComplete => mret true
      end
  end.

Definition advance_shutdown (k : Kernel) (now : N) : runtime_m unit :=
  o ← getS;
  _ ← (match o_quit_receipt o with
       | Some receipt =>
           if negb (bool_decide (response_settlement receipt (o_control o) = Server.Pending))
           then begin_shutdown k now else mret tt
       | None => mret tt
       end);
  o ← getS;
  if o_shutdown_started o && negb (o_exit_started o) && is_shutdown_complete (o_control o)
     && match fence_status now (o_worker o) with FencePending => false | _ => true end
  then
    _ ← on_session RuntimeSession begin_exit_session;
    modify (λ o, o <| o_exit_started := true |>)
  else mret tt.

(** [take_due] panics when the sequence numbers are used up. *)
Definition submit_due_snapshot (now : N) : runtime_m unit :=
  o ← getS;
  if o_worker_sealed o then mret tt
  else
    due ← expect (take_due now (o_persistence o));
    _ ← modify (λ o, o <| o_persistence := due.2 |>);
    match due.1 with
    | Some request => on_worker RuntimeWorker (submit_snapshot (sequence request) (req_snapshot request))
    | None => mret tt
    end.

Definition complete_write (now seq : N) (r : result unit IoError) : runtime_m unit :=
  let completion := match r with Ok _ => Succeeded | Err _ => Failed end in
  c ← step_persistence (complete seq completion now);
  of_result (map_err RuntimePersistence c).

Definition service_worker (now : N) : runtime_m unit :=
  r ← on_worker RuntimeWorker try_result;
  match r with
  | None => mret tt
  | Some (SnapshotRead _) =>
      raise (RuntimeInvariant (lit "startup snapshot result reached the live loop"))
  | Some SnapshotRequested => on_worker RuntimeWorker answer_snapshot_request
  | Some (SnapshotWritten (Some seq) r) => complete_write now seq r
  | Some (SnapshotWritten None _ | ProcessDone _ | Fence) => mret tt
  end.

Definition service_repeat (k : Kernel) (now : N) : runtime_m unit :=
  expired ← on_timers (consume_repeat (read_repeat k));
  if expired : bool then
    update ← on_session RuntimeSession fire_key_repeat;
    handle_session_update k now update
  else mret tt.

Definition service_clock (k : Kernel) (now : N) : runtime_m unit :=
  expired ← on_timers (consume_clock (read_clock k) (timerfd_settime k) (wall_clock k));
  if expired : bool then update ← on_clock (tick (wall_clock k)); handle_session_update k now update
  else mret tt.

Definition service_sampler (k : Kernel) (now : N) : runtime_m unit :=
  o ← getS;
  if decide (s_phase (o_session o) = Live) then
    sample ← of_result (map_err RuntimeIo (latest_sample k));
    match sample with
    | Some snapshot => update ← on_clock (accept_sampler (wall_clock k) snapshot); handle_session_update k now update
    | None => mret tt
    end
  else mret tt.

(** ** The poll loop *)

Definition next_deadline o : option N :=
  min_of (option_list (Server.next_deadline (o_control o))
          ++ option_list (if o_worker_sealed o then None else deadline (o_persistence o))
          ++ option_list (fence_deadline (o_worker o))).

(** [PollFlags] *)
Record PollFlags := mk_flags { ev_in : bool; ev_out : bool; ev_err : bool; ev_hup : bool; ev_nval : bool }.

Definition is_empty_flags (f : PollFlags) : bool :=
  negb (ev_in f || ev_out f || ev_err f || ev_hup f || ev_nval f).

Inductive PollSource :=
| PollBackend | PollRepeat | PollClock | PollSampler | PollWorker | PollControl (token : N).

#[export] Instance PollSource_eq_dec : EqDecision PollSource.
Proof. solve_decision. Defined.

Definition NOT_READY : BackendReady := mk_ready false false false.

Definition validate_poll_events (f : PollFlags) : result unit RuntimeError :=
  if ev_nval f then Err (RuntimeIo IoInvalidInput) else Ok tt.

Definition backend_ready (f : PollFlags) : result BackendReady RuntimeError :=
  try _ := validate_poll_events f in Ok (mk_ready (ev_in f) (ev_err f || ev_hup f) (ev_out f)).

Definition poll_timeout (immediate : bool) (deadline : option N) (now : N) :
    result (option Timespec) RuntimeError :=
  if immediate then Ok (Some Timespec_default)
  else match deadline with
       | Some d => try t := map_err RuntimeIo (timespec (d - now)) in Ok (Some t)
       | None => Ok None
       end.

Definition backend_quantum_due (enabled ready immediate : bool) : bool := enabled && (ready || immediate).

Definition backend_enabled (p : SessionLifecyclePhase) : bool :=
  match p with Live | Exiting => true | _ => false end.

(** The descriptors polled, in order, each for reading and writing as asked. *)
Definition poll_sources o : list (PollSource * (bool * bool)) :=
  let phase := s_phase (o_session o) in
  let interest := backend_poll_interest (o_session o) in
  (if backend_enabled phase
   then [(PollBackend, (Backend.readable interest, Backend.writable interest))] else [])
  ++ [(PollRepeat, (true, false)); (PollClock, (true, false))]
  ++ (if decide (phase = Live) then [(PollSampler, (true, false))] else [])
  ++ [(PollWorker, (true, false))]
  ++ ((λ i, (PollControl (interest_token i), (interest_readable i, interest_writable i)))
        <$> poll_interests (o_control o)).

(** The sources with events, in the order they were polled. *)
Definition ready_sources (sources : list (PollSource * (bool * bool))) (events : list PollFlags) :
    list (PollSource * PollFlags) :=
  filter (λ p, is_empty_flags p.2 = false) (zip sources.*1 events).

Definition ready_for (ready : list (PollSource * PollFlags)) (source : PollSource) : option PollFlags :=
  (λ p, p.2.2) <$> list_find (λ p, p.1 = source) ready.

(** The first ready connection or listener: one control quantum a turn. *)
Definition first_control (ready : list (PollSource * PollFlags)) : option (N * PollFlags) :=
  head (omap (λ p, match p.1 with PollControl token => Some (token, p.2) | _ => None end) ready).

Definition control_event (token : N) (f : PollFlags) : ReadyEvent :=
  Build_ReadyEvent token (ev_in f) (ev_err f || ev_hup f) (ev_out f).

(** What [poll] answers, once it is not interrupted. *)
Abbreviation Poll := (list (PollSource * (bool * bool)) → option Timespec → result (list PollFlags) Z)
  (only parsing).

Definition when (c : bool) (m : runtime_m unit) : runtime_m unit := if c then m else mret tt.

(** The services after the backend's, each at most once. *)
Definition service_ready (k : Kernel) (clock : nat → N) (ready : list (PollSource * PollFlags)) : runtime_m unit :=
  let is_ready source := bool_decide (is_Some (ready_for ready source)) in
  _ ← when (is_ready PollRepeat) (service_repeat k (clock 2));
  _ ← when (is_ready PollClock) (service_clock k (clock 3));
  _ ← when (is_ready PollSampler) (service_sampler k (clock 4));
  o ← getS;
  _ ← when (has_results (o_worker o) || is_ready PollWorker) (service_worker (clock 5));
  _ ← (match first_control ready with
       | Some (token, f) =>
           _ ← of_result (validate_poll_events f);
           service_control k (clock 6) (control_event token f)
       | None => mret tt
       end);
  advance_shutdown k (clock 7).

(** One turn of [run_combined_loop]: whether the loop returns.  [clock i] is the
    [i]-th instant read in the turn. *)
Definition loop_turn (k : Kernel) (clock : nat → N) (poll : Poll) : runtime_m bool :=
  let now := clock 0 in
  _ ← expire_control now;
  _ ← submit_due_snapshot now;
  _ ← advance_shutdown k now;
  o ← getS;
  let interest := backend_poll_interest (o_session o) in
  let enabled := backend_enabled (s_phase (o_session o)) in
  let immediately := enabled && immediate interest || has_results (o_worker o) in
  timeout ← of_result (poll_timeout immediately (next_deadline o) now);
  events ← of_result (map_err (λ errno, RuntimeIo (IoOs errno)) (poll (poll_sources o) timeout));
  let ready := ready_sources (poll_sources o) events in
  let backend_events := ready_for ready PollBackend in
  r ← (match backend_events with
       | Some f => if immediate interest then mret NOT_READY else of_result (backend_ready f)
       | None => mret NOT_READY
       end);
  if backend_quantum_due enabled (bool_decide (is_Some backend_events)) (immediate interest) then
    finished ← service_backend k (clock 1) r;
    if finished : bool then mret true
    else
      o ← getS;
      if immediate (backend_poll_interest (o_session o)) then mret false
      else _ ← service_ready k clock ready; mret false
  else _ ← service_ready k clock ready; mret false.
End runtime.
