(* ===== verification/RuntimeControl.v ===== *)
(** * The control server as the daemon uses it

    The facts about the server's calls that the daemon relies on beyond the
    server's own guarantees: which errors a call can end in, which of its fields
    it leaves alone, and when it hands out a request. *)

From Stdlib Require Import ZArith Lia.
From stdpp Require Import prelude list gmap sorting.
From S2P Require Import Prelude Layout Ledger Projection Keys State Backend Snapshot Visible Authority Hoare Session Utf8 Ipc Control ControlInv ControlConn Server ServerConn ServerInv ServerOps ServerSafety Timers Persistence Worker Dispatch Runtime.

(** ** What a call leaves alone *)

Definition steady (s s' : ControlServer) : Prop :=
  shutting_down s' = shutting_down s ∧ response_barrier s' = response_barrier s.

#[export] Instance steady_preorder : PreOrder steady.
Proof. split; [by intros s|]. intros s1 s2 s3 [? ?] [? ?]. split; congruence. Qed.

Lemma steady_remove id s : steady s (remove id s).
Proof. done. Qed.

Lemma steady_put id c s : steady s (put id c s).
Proof. done. Qed.

Lemma steady_expire now s : steady s (Server.expire now s).
Proof. by rewrite expire_spec. Qed.

Lemma steady_foldr_remove ids s : steady s (foldr remove s ids).
Proof. induction ids as [|id ids IH]; [done|]. cbn. etransitivity; [exact IH|apply steady_remove]. Qed.

#[export] Hint Resolve steady_remove steady_put steady_expire steady_foldr_remove : core.

(** The errors that concern one peer, and the listener's. *)
Definition service_fault (e : ControlError) : bool :=
  match e with PeerIo _ _ | ListenerIo _ | ListenerTerminal | ResourceExhausted _ => true | _ => false end.

Section control.
Context `{JsonErrors, !Wire Request, !Wire Response, !Wire Event}.
Context (CARGO_PKG_VERSION : rstring).

Lemma service_one_raises io now ready :
  raises (λ e, service_fault e = true) (service_one CARGO_PKG_VERSION io now ready).
Proof.
  unfold service_one, service_barrier, service_listener, service_peer, send_one, receive_one, accept_one,
    apply_machine_action, on_machine. walk.
Qed.

Lemma service_one_steady io now ready : frames steady (service_one CARGO_PKG_VERSION io now ready).
Proof.
  unfold service_one, service_barrier, service_listener, service_peer, send_one, receive_one, accept_one,
    apply_machine_action, on_machine. walk; auto. done.
Qed.

Lemma each_machine_steady f ids : frames steady (each_machine f ids).
Proof. induction ids as [|id ids IH]; cbn [each_machine]; unfold on_machine; walk; auto. Qed.

Lemma complete_request_steady now id response : frames steady (complete_request now id response).
Proof. unfold complete_request. walk; auto; done. Qed.

Lemma complete_subscribe_steady now id state : frames steady (complete_subscribe now id state).
Proof. unfold complete_subscribe, on_machine. walk; auto. Qed.

Lemma publish_state_steady now state : frames steady (publish_state now state).
Proof. unfold publish_state. walk; auto. apply each_machine_steady. Qed.

(** ** The errors of a server that is not shutting down *)

Lemma complete_request_errors now id response s e s' :
  shutting_down s = false → complete_request now id response s = (Err (Raise e), s') →
  peer_local_completion e = true.
Proof.
  intros Hs. unfold complete_request, mbind at 1, stm_bind at 1, getS at 1. rewrite Hs.
  intros Hr. match type of Hr with ?m s = _ => assert (raises (λ e, peer_local_completion e = true) m) as Hm end;
    [walk|by apply Hm in Hr].
Qed.

Lemma complete_subscribe_errors now id state s e s' :
  shutting_down s = false → complete_subscribe now id state s = (Err (Raise e), s') →
  peer_local_completion e = true.
Proof.
  intros Hs. unfold complete_subscribe, mbind at 1, stm_bind at 1, getS at 1. rewrite Hs.
  intros Hr. match type of Hr with ?m s = _ => assert (raises (λ e, peer_local_completion e = true) m) as Hm end;
    [unfold on_machine; walk|by apply Hm in Hr].
Qed.

Lemma each_machine_raises P f ids : raises P (each_machine f ids).
Proof. induction ids as [|id ids IH]; cbn [each_machine]; unfold on_machine; walk; auto. Qed.

Lemma publish_state_errors now state s e s' :
  shutting_down s = false → publish_state now state s = (Err (Raise e), s') →
  outbound_too_large e = true.
Proof.
  intros Hs. unfold publish_state, mbind at 1, stm_bind at 1, getS at 1. rewrite Hs.
  intros Hr. match type of Hr with ?m s = _ => assert (raises (λ e, outbound_too_large e = true) m) as Hm end;
    [walk; apply each_machine_raises|by apply Hm in Hr].
Qed.

(** ** The calls on a server that keeps its invariant *)

Context `{!WireText Response, !WireText Event, !ErrorsFit}.
Abbreviation wf := (server_wf CARGO_PKG_VERSION).

Lemma wp_publish_state owed receipts now state s :
  wf owed receipts s → shutting_down s = false →
  wp (publish_state now state) (λ _ s', wf owed receipts s' ∧ steady s s')
    (λ e s', (wf owed receipts s' ∧ steady s s') ∧ outbound_too_large e = true) s.
Proof.
  intros Hw Hs. eapply wp_mono.
  - apply (wp_frame steady); [apply publish_state_steady|]. eapply wp_conj_error; [by apply publish_state_server_ok|].
    intros e s'. by apply (publish_state_errors now state s).
  - intros _ s' [(? & _ & _) ?]. done.
  - intros e s' [[(? & _ & _) ?] ?]. done.
Qed.

Lemma wp_reply owed receipts now id response req s :
  wf owed receipts s → owed !! id = Some req → req ≠ ReqSubscribe → shutting_down s = false →
  wp (complete_request now id response)
    (λ r s', (wf (delete id owed) (r :: receipts) s' ∧ response_settlement r s' = Server.Pending) ∧ steady s s')
    (λ e s', (wf (delete id owed) receipts s' ∧ steady s s') ∧ peer_local_completion e = true) s.
Proof.
  intros Hw Ho Hr Hs. eapply wp_mono.
  - apply (wp_frame steady); [apply complete_request_steady|].
    eapply wp_conj_error; [by eapply complete_request_server_ok|].
    intros e s'. by apply (complete_request_errors now id response s).
  - intros r s' [[] ?]. by split_and!.
  - intros e s' [[[] ?] ?]. by split_and!.
Qed.

Lemma wp_subscribe owed receipts now id state s :
  wf owed receipts s → owed !! id = Some ReqSubscribe → shutting_down s = false →
  wp (complete_subscribe now id state) (λ _ s', wf (delete id owed) receipts s' ∧ steady s s')
    (λ e s', (wf (delete id owed) receipts s' ∧ steady s s') ∧ peer_local_completion e = true) s.
Proof.
  intros Hw Ho Hs. eapply wp_mono.
  - apply (wp_frame steady); [apply complete_subscribe_steady|].
    eapply wp_conj_error; [by eapply complete_subscribe_server_ok|].
    intros e s'. by apply (complete_subscribe_errors now id state s).
  - intros r s' [(? & _) ?]. done.
  - intros e s' [[[] ?] ?]. by split_and!.
Qed.

Lemma wp_barrier owed receipts r s :
  wf owed receipts s → response_barrier s = None →
  wp (begin_response_barrier r)
    (λ settlement s', wf owed receipts s' ∧ shutting_down s' = shutting_down s
       ∧ if decide (settlement = Server.Pending) then response_barrier s' = Some r else s' = s)
    (λ _ _, False) s.
Proof.
  intros Hw Hb. eapply wp_mono; [by apply begin_response_barrier_ok| |].
  - intros st s' (? & _ & _ & _ & Hp & Hn & ?). split_and!; [done|done|]. case_decide; [by apply Hp|by apply Hn].
  - intros e s' (_ & active & Ha & _). congruence.
Qed.

(** A request is handed out only by a server that is neither shutting down nor
    behind a barrier, for a connection that is owed nothing else. *)
Definition handed_out (owed : gmap N Request) (a : option ControlAction) (s' : ControlServer) : Prop :=
  match a with
  | Some (ControlRequest id _) => owed !! id = None ∧ shutting_down s' = false ∧ response_barrier s' = None
  | None => True
  end.

Lemma barred_service owed receipts io now ready s b a s' :
  sockets_ok io → wf owed receipts s → response_barrier s = Some b →
  service_one CARGO_PKG_VERSION io now ready s = (Ok a, s') → a = None.
Proof.
  intros Hio Hw0 Hb. unfold service_one, mbind at 1, stm_bind at 1, modify at 1, mbind at 1, stm_bind at 1, getS at 1.
  pose proof (expire_wf _ _ _ now _ Hw0) as Hw.
  assert (response_barrier (Server.expire now s) = Some b) as Hb1 by by rewrite expire_spec.
  rewrite Hb1. generalize dependent (Server.expire now s). intros s1 Hw Hb1.
  unfold service_barrier, mbind at 1, stm_bind at 1, getS at 1. case_bool_decide as Hp; [|by intros [= <- _]]. cbn [negb].
  destruct (settlement_Pending _ _ Hp) as (c & Hc & Hpend). rewrite Hc.
  destruct (_ =? _)%N; [|by intros [= <- _]]. cbn [negb].
  destruct (terminal ready); [by intros [= <- _]|]. destruct (writable ready); [|by intros [= <- _]].
  assert (replying (machine c)) as Hre
    by (apply (ck_reply _ _ _ (sw_connection _ _ _ _ Hw _ c Hc)); by eexists).
  intros Hs. pose proof (wp_run _ _ _ _ _ _ (send_one_ok _ _ _ io now _ _ c Hio Hw Hc (has_output_replying c Hre)) Hs) as Hq.
  by eapply (qu_reply _ _ _ _ _ _ _ _ Hq c).
Qed.

(** The deadline of a shutdown survives the services. *)
Lemma shut_service owed receipts io now ready d s r s' :
  sockets_ok io → wf owed receipts s → shut d s →
  service_one CARGO_PKG_VERSION io now ready s = (r, s') → shut d s'.
Proof.
  intros Hio Hw Hs Hr. change s' with (ServerSafety.server (ServerSafety.mk_world s' (match r with Ok a => owed_after owed a | Err _ => owed end) receipts)).
  eapply (shut_step CARGO_PKG_VERSION d (ServerSafety.mk_world s owed receipts)); [done|done|]. by eapply StepService.
Qed.

Lemma wp_service owed receipts io now ready s :
  sockets_ok io → wf owed receipts s →
  wp (service_one CARGO_PKG_VERSION io now ready)
    (λ a s', wf (owed_after owed a) receipts s' ∧ steady s s' ∧ handed_out owed a s'
       ∧ ∀ d, shut d s → shut d s')
    (λ e s', wf owed receipts s' ∧ steady s s' ∧ service_fault e = true ∧ ∀ d, shut d s → shut d s') s.
Proof.
  intros Hio Hw. eapply wp_mono.
  - apply wp_traced, (wp_frame steady); [apply service_one_steady|].
    eapply raises_wp; [apply service_one_raises|by apply service_one_ok].
  - intros a s' [[Hs Hst] Hr].
    assert (∀ d, shut d s → shut d s') as Hsh by (intros d Hd; by eapply shut_service).
    pose proof (serviced_wf _ _ _ _ _ _ _ _ Hs) as Hw'. split_and!; [done|done| |done].
    destruct a as [[id req]|]; [|done]. cbn.
    destruct (response_barrier s) as [b|] eqn:Hb.
    { by pose proof (barred_service _ _ _ _ _ _ _ _ _ Hio Hw Hb Hr). }
    destruct Hst as [_ Hb']. destruct Hs as [id' c _ _ _ Hq|_ _ _ ?|_ _ ?]; [|done|done].
    pose proof (qu_action _ _ _ _ _ _ _ _ Hq id req eq_refl) as <-.
    destruct (qu_fresh _ _ _ _ _ _ _ _ Hq) as [Ho [c' Hc']]; [done|].
    split_and!; [done| |congruence]. cbn [owed_after] in Hw'.
    apply (owed_connection _ _ _ id req s' c' Hw'); [apply lookup_insert_eq|done].
  - intros e s' [[[Hs He] Hst] Hr]. split_and!; [|done|done|].
    + exact (serviced_wf _ _ _ _ _ _ _ _ Hs).
    + intros d Hd. by eapply shut_service.
Qed.

Lemma shut_expire now d s : shut d s → shut d (Server.expire now s).
Proof. intros Hs. eapply shut_submap; [done|apply expire_submap|by rewrite expire_spec]. Qed.
End control.
