(* ===== verification/Pipeline.v ===== *)
(** * From the coordinator to the disk

    A snapshot goes from the persistence coordinator through the worker's slot, its
    reply channel and its thread to the file, and the answer comes back through the
    results.  The pipeline invariant says where it is, for every interleaving of
    the event loop and the worker thread: the number the coordinator waits for is
    on its way exactly once, and after the seal the last snapshot is the final one. *)

From Stdlib Require Import ZArith Lia.
From stdpp Require Import prelude list.
From S2P Require Import Prelude Layout Ledger Projection Keys State Backend Snapshot Visible Authority Hoare Persistence Worker WorkerSafety.

Implicit Types (w : System) (c : PersistenceCoordinator).

(** ** What is on its way *)

Definition writing (t : Thread) : list SnapshotJob := match t with Writing job => [job] | _ => [] end.

(** The snapshots handed to the worker and not yet written, next one first. *)
Definition unwritten w : list SnapshotJob :=
  writing (thread w) ++ omap id (snapshot_reply w) ++ option_list (pending_snapshot w).

Definition answer_of (r : WorkerResult) : option (option N * result unit IoError) :=
  match r with SnapshotWritten seq x => Some (seq, x) | _ => None end.

Definition answering (t : Thread) : list (option N * result unit IoError) :=
  match t with Sending r _ => option_list (answer_of r) | _ => [] end.

(** The writes the event loop has not been told of, oldest first. *)
Definition answers w : list (option N * result unit IoError) :=
  omap answer_of (results w) ++ answering (thread w).

(** The file, and whether the last write to it failed. *)
Record Disk := mk_disk { contents : option SessionSnapshotV1; last_failed : bool }.

Definition written_by (job : SnapshotJob) (x : result unit IoError) (d : Disk) : Disk :=
  match x with
  | Ok _ => mk_disk (Some (job_snapshot job)) false
  | Err _ => mk_disk (contents d) true
  end.

(** What a step of the thread does to the file. *)
Definition disk_after w w' (d : Disk) : Disk :=
  match thread w, thread w' with
  | Writing job, Sending (SnapshotWritten _ x) _ => written_by job x d
  | _, _ => d
  end.

Lemma thread_writes w w' d :
  thread_step w w' →
  unwritten w' = unwritten w ∧ answers w' = answers w ∧ disk_after w w' d = d
  ∨ ∃ job x, unwritten w = job :: unwritten w' ∧ answers w' = answers w ++ [(job_sequence job, x)]
      ∧ disk_after w w' d = written_by job x d.
Proof.
  intros Hst. unfold unwritten, answers, disk_after.
  destruct Hst as [w msg rest Ht Hm|w r Ht|w job outcome r w' Ht Hsp|w r k Ht Hr|w k Ht|
    w rest Ht Hr|w job rest Ht Hr|w job r Ht|w n Hn|w n Hn].
  - left. rewrite Ht. by destruct msg.
  - left. by rewrite Ht.
  - left. rewrite Ht. cbn. unfold spawn_owned in Hsp.
    destruct (spawn job outcome); [case_match; [|done]|]; by simplify_eq.
  - left. rewrite Ht. cbn. rewrite omap_app. split_and!; [done| |by destruct k].
    cbn. destruct (answer_of r); cbn; by rewrite ?app_nil_r.
  - left. rewrite Ht. by destruct k.
  - left. by rewrite Ht, Hr.
  - left. by rewrite Ht, Hr.
  - right. exists job, r. rewrite Ht. cbn. by rewrite !app_nil_r.
  - left. cbn. by destruct (thread w) as [| | |[]| | | |].
  - left. cbn. by destruct (thread w) as [| | |[]| | | |].
Qed.

(** The thread neither seals the worker nor sees the fence acknowledged. *)
Lemma thread_seal w w' :
  thread_step w w' → sealed_at w' = sealed_at w ∧ fence_acknowledged w' = fence_acknowledged w.
Proof.
  destruct 1 as [| |w job outcome r w' _ Hsp| | | | | | |]; try done.
  unfold spawn_owned in Hsp. destruct (spawn job outcome); [case_match; [|done]|]; by simplify_eq.
Qed.

(** ** What the owner's calls leave alone *)

Record quiet w w' : Prop := {
  qt_thread : thread w' = thread w;
  qt_results : results w' = results w;
  qt_reply : snapshot_reply w' = snapshot_reply w;
  qt_pending : pending_snapshot w' = pending_snapshot w;
  qt_sealed : sealed_at w' = sealed_at w;
  qt_fence : fence_acknowledged w' = fence_acknowledged w
}.

#[export] Instance quiet_preorder : PreOrder quiet.
Proof. split; [by intros w; split|]. intros w1 w2 w3 [] []. split; congruence. Qed.

Lemma quiet_unwritten w w' : quiet w w' → unwritten w' = unwritten w.
Proof. intros [Ht Hr Hp Hs Hx Hf]. unfold unwritten. congruence. Qed.

Lemma quiet_answers w w' : quiet w w' → answers w' = answers w.
Proof. intros [Ht Hr Hp Hs Hx Hf]. unfold answers. congruence. Qed.

Lemma try_send_quiet msg : frames quiet (try_send_message msg).
Proof. intros w. unfold try_send_message. by destruct (_ && _). Qed.

Lemma reserve_quiet count : frames quiet (reserve_process_jobs count).
Proof. unfold reserve_process_jobs. walk. done. Qed.

Lemma release_quiet r : frames quiet (release r).
Proof. unfold release. walk. done. Qed.

Lemma send_jobs_quiet n jobs : frames quiet (send_jobs n jobs).
Proof.
  revert n. induction jobs as [|job jobs IH]; intros n; cbn [send_jobs]; walk; [|done|apply IH].
  apply frames_on_error; [apply _|done|apply try_send_quiet].
Qed.

Lemma commit_quiet r jobs : frames quiet (commit r jobs).
Proof. unfold commit. walk; (apply release_quiet || apply send_jobs_quiet || done). Qed.

Lemma submit_effect job w w' :
  submit_job job w = (Ok tt, w') →
  thread w' = thread w ∧ results w' = results w ∧ snapshot_reply w' = snapshot_reply w
  ∧ pending_snapshot w' = Some job ∧ sealed_at w' = sealed_at w ∧ fence_acknowledged w' = fence_acknowledged w.
Proof.
  unfold submit_job, mbind at 1, stm_bind at 1, getS at 1. destruct (is_sealed w); [done|].
  intros (x & w1 & H1 & [= <-])%stm_bind_Ok.
  assert (quiet w w1) as [? ? ? ? ? ?]; [|by split_and!].
  destruct (decide _); [|by injection H1 as <- <-]. pose proof (try_send_quiet SnapshotAvailable w) as Hq.
  by rewrite H1 in Hq.
Qed.

Lemma submit_unwritten job w w' :
  submit_job job w = (Ok tt, w') →
  unwritten w' = writing (thread w) ++ omap id (snapshot_reply w) ++ [job] ∧ answers w' = answers w.
Proof. intros (Ht & Hr & Hp & Hs & _)%submit_effect. unfold unwritten, answers. by rewrite Ht, Hr, Hp, Hs. Qed.

Lemma seal_effect now w w' :
  seal now w = (Ok tt, w') → unwritten w' = unwritten w ∧ answers w' = answers w
    ∧ fence_acknowledged w' = fence_acknowledged w.
Proof.
  unfold seal, mbind at 1, stm_bind at 1, getS at 1. destruct (is_sealed w); [by intros [= <-]|].
  unfold mbind, stm_bind, modify. intros Hs. pose proof (try_send_quiet Seal (w <| sealed_at := Some now |>)) as Hq.
  rewrite Hs in Hq. split_and!; [by apply quiet_unwritten in Hq|by apply quiet_answers in Hq|apply (qt_fence _ _ Hq)].
Qed.

Lemma answer_effect w job w' :
  answer_snapshot_request w = (Ok tt, w') → pending_snapshot w = Some job →
  unwritten w' = unwritten w ∧ answers w' = answers w ∧ sealed_at w' = sealed_at w
  ∧ fence_acknowledged w' = fence_acknowledged w.
Proof.
  unfold answer_snapshot_request, unwritten, answers. intros Ha Hp. rewrite Hp in Ha.
  destruct (_ && _); [|done]. injection Ha as <-. cbn. rewrite omap_app, Hp. cbn. by rewrite app_nil_r.
Qed.

(** A result taken is the oldest answer, if it is one. *)
Lemma try_result_effect w r w' :
  try_result w = (Ok r, w') →
  unwritten w' = unwritten w ∧ sealed_at w' = sealed_at w
  ∧ answers w = option_list (r ≫= answer_of) ++ answers w'
  ∧ fence_acknowledged w' = match r with Some Fence => true | _ => fence_acknowledged w end
  ∧ pending_snapshot w' = pending_snapshot w.
Proof.
  unfold try_result, mbind at 1, stm_bind at 1, modify at 1. cbv beta iota.
  unfold mbind at 1, stm_bind at 1, getS at 1.
  assert (quiet w (drain_eventfd w)) as Hq by (unfold drain_eventfd; by case_match).
  rewrite <-(quiet_unwritten _ _ Hq), <-(quiet_answers _ _ Hq), <-(qt_sealed _ _ Hq), <-(qt_fence _ _ Hq), <-(qt_pending _ _ Hq).
  generalize (drain_eventfd w). clear w Hq. intros w.
  destruct (_ =? 0); [by intros [= <- <-]|]. destruct (results w) as [|x rest] eqn:Hre; [done|].
  intros ([] & w1 & [= <-] & (y & w2 & Hx & [= <- <-])%stm_bind_Ok)%stm_bind_Ok.
  assert (unwritten w2 = unwritten w ∧ sealed_at w2 = sealed_at w ∧ results w2 = rest ∧ thread w2 = thread w
    ∧ fence_acknowledged w2 = match x with Fence => true | _ => fence_acknowledged w end
    ∧ pending_snapshot w2 = pending_snapshot w) as (-> & -> & Hr & Ht & Hf & Hp).
  { destruct x; cbn [account] in Hx; try (injection Hx as _ <-; by split_and!).
    revert Hx. unfold mbind, stm_bind, getS, expect, modify. cbn. destruct (checked_sub _ 1); [|done].
    intros [= _ <-]. by split_and!. }
  unfold answers. rewrite Hre, Hr, Ht, Hp. cbn. split_and!; [done|done| |exact Hf|done].
  by destruct (answer_of x).
Qed.

Lemma try_result_head w r w' : try_result w = (Ok (Some r), w') → ∃ rest, results w = r :: rest.
Proof.
  unfold try_result, mbind at 1, stm_bind at 1, modify at 1. cbv beta iota.
  unfold mbind at 1, stm_bind at 1, getS at 1.
  assert (results (drain_eventfd w) = results w) as <- by (unfold drain_eventfd; by case_match).
  destruct (_ =? 0); [done|]. destruct (results _) as [|x rest]; [done|].
  intros ([] & w1 & _ & (y & w2 & _ & [= <- _])%stm_bind_Ok)%stm_bind_Ok. by exists rest.
Qed.

(** ** The invariant *)

(** The numbers on their way: in answers, then in jobs. *)
Definition numbers w : list N := omap id ((answers w).*1 ++ (job_sequence <$> unwritten w)).

(** Before the seal, the snapshot in flight is a job or an answer; afterwards the
    last job is the final snapshot, until its write is attempted. *)
Record pipeline (sealed : bool) (final : option SessionSnapshotV1) c w (d : Disk) : Prop := {
  pl_numbers : numbers w = [] ∨ ∃ r, in_flight c = Some r ∧ numbers w = [sequence r];
  pl_open : sealed = false →
    match in_flight c with
    | None => unwritten w = [] ∧ answers w = [] ∧ contents d = persisted c
    | Some r =>
        unwritten w = [mk_snapshot_job (Some (sequence r)) (req_snapshot r)] ∧ answers w = []
          ∧ contents d = persisted c
        ∨ ∃ x, unwritten w = [] ∧ answers w = [(Some (sequence r), x)]
            ∧ contents d = match x with Ok _ => Some (req_snapshot r) | Err _ => persisted c end
    end;
  pl_sealed : sealed = true →
    (∃ pre snapshot, final = Some snapshot ∧ unwritten w = pre ++ [mk_snapshot_job None snapshot])
    ∨ unwritten w = [] ∧ (contents d = final ∨ last_failed d = true)
}.

Lemma pipeline_start p : pipeline false p (Persistence.new p) Worker.start (mk_disk p false).
Proof. split; [by left|done|done]. Qed.

Lemma pipeline_thread b f c w w' d :
  thread_step w w' → pipeline b f c w d → pipeline b f c w' (disk_after w w' d).
Proof.
  intros Hst [Hn Ho Hs]. destruct (thread_writes w w' d Hst) as [(Eu & Ea & ->)|(job & x & Eu & Ea & ->)].
  { split; [|intros Hb; specialize (Ho Hb)|intros Hb; specialize (Hs Hb)]; unfold numbers; by rewrite ?Eu, ?Ea. }
  split.
  - replace (numbers w') with (numbers w); [done|]. unfold numbers. rewrite Eu, Ea, fmap_app. cbn.
    by rewrite <-app_assoc.
  - intros Hb. specialize (Ho Hb). destruct (in_flight c) as [r|].
    + destruct Ho as [(Eu' & Ea' & Ed)|(y & Eu' & _)]; rewrite Eu' in Eu; [|done]. injection Eu as <- <-.
      right. exists x. rewrite Ea, Ea'. split_and!; [done|done|by destruct x].
    + destruct Ho as (Eu' & _). by rewrite Eu' in Eu.
  - intros Hb. destruct (Hs Hb) as [(pre & snapshot & Hf & Eu')|[Eu' _]]; rewrite Eu' in Eu; [|done].
    destruct pre as [|job' pre]; injection Eu as Ej Er.
    + right. split; [done|]. rewrite Hf, <-Ej. destruct x; [by left|by right].
    + left. by exists pre, snapshot.
Qed.

Lemma pipeline_quiet b f c w w' d : quiet w w' → pipeline b f c w d → pipeline b f c w' d.
Proof.
  intros Hq [Hn Ho Hs]. pose proof (quiet_unwritten _ _ Hq) as Eu. pose proof (quiet_answers _ _ Hq) as Ea.
  split; [|intros Hb; specialize (Ho Hb)|intros Hb; specialize (Hs Hb)]; unfold numbers; by rewrite ?Eu, ?Ea.
Qed.

Lemma pipeline_moved b f c w w' d :
  unwritten w' = unwritten w → answers w' = answers w → pipeline b f c w d → pipeline b f c w' d.
Proof.
  intros Eu Ea [Hn Ho Hs].
  split; [|intros Hb; specialize (Ho Hb)|intros Hb; specialize (Hs Hb)]; unfold numbers; by rewrite ?Eu, ?Ea.
Qed.

(** What only the coordinator does. *)
Lemma pipeline_coordinator b f f' c c' w d :
  in_flight c' = in_flight c → persisted c' = persisted c → (b = true → f' = f) →
  pipeline b f c w d → pipeline b f' c' w d.
Proof.
  intros Ei Ep Hf [Hn Ho Hs]. split; rewrite ?Ei, ?Ep; [done|done|]. intros Hb. rewrite Hf by done. by apply Hs.
Qed.

(** ** The event loop keeps it *)

Lemma take_due_effect now c r c' :
  take_due now c = Some (Some r, c') →
  in_flight c = None ∧ in_flight c' = Some r ∧ persisted c' = persisted c.
Proof.
  unfold take_due. destruct (in_flight c) as [r0|]; [done|]. destruct (dirty c) as [d|]; [|done].
  destruct (_ <? _)%N; [done|]. intros (next & _ & [= <- <-])%bind_Some. done.
Qed.

Lemma take_due_nothing now c c' : take_due now c = Some (None, c') → c' = c.
Proof.
  unfold take_due. destruct (in_flight c) as [r0|]; [by intros [= <-]|]. destruct (dirty c) as [d|]; [|by intros [= <-]].
  destruct (_ <? _)%N; [by intros [= <-]|]. by intros (next & _ & [=])%bind_Some.
Qed.

Lemma observe_steady snapshot now c :
  in_flight (observe snapshot now c).2 = in_flight c ∧ persisted (observe snapshot now c).2 = persisted c.
Proof. unfold observe. by repeat case_match. Qed.

(** A due snapshot is handed over while nothing is on its way. *)
Lemma pipeline_submit f now r c c' w w' d :
  take_due now c = Some (Some r, c') → submit_snapshot (sequence r) (req_snapshot r) w = (Ok tt, w') →
  pipeline false f c w d → pipeline false f c' w' d.
Proof.
  intros (Hi & Hi' & Hp)%take_due_effect [Eu Ea]%submit_unwritten [_ Ho _].
  specialize (Ho eq_refl). rewrite Hi in Ho. destruct Ho as (Eu0 & Ea0 & Ed).
  unfold unwritten in Eu0. apply app_eq_nil in Eu0 as [Ew [Er _]%app_eq_nil]. rewrite Ew, Er in Eu. cbn in Eu.
  rewrite Ea0 in Ea. split; [|intros _; rewrite Hi'|done].
  - right. exists r. split; [done|]. unfold numbers. by rewrite Eu, Ea.
  - left. by rewrite Hp.
Qed.

Lemma pipeline_seal f now c w w1 w' d :
  held c = f →
  match shutdown_snapshot c with
  | Some snapshot => submit_shutdown_snapshot snapshot w = (Ok tt, w1)
  | None => w1 = w
  end → seal now w1 = (Ok tt, w') → pipeline false f c w d → pipeline true f c w' d.
Proof.
  intros Hf Hw (Eu' & Ea' & _)%seal_effect [Hn Ho _]. specialize (Ho eq_refl). unfold held in Hf.
  apply (pipeline_moved _ _ _ w1); [done|done|]. clear w' Eu' Ea'.
  destruct (shutdown_snapshot c) as [snapshot|] eqn:Hsh.
  - apply submit_unwritten in Hw as [Eu Ea]. split; [|done|].
    2: { intros _. left. eexists _, snapshot. split; [done|]. rewrite Eu. by rewrite app_assoc. }
    unfold numbers in *. rewrite Eu, Ea. unfold unwritten in Hn. rewrite !fmap_app, !omap_app in *.
    cbn [fmap list_fmap job_sequence omap list_omap option_list] in *.
    destruct (pending_snapshot w) as [job|] eqn:Hpd; [|exact Hn].
    assert (writing (thread w) ++ omap id (snapshot_reply w) = [] ∧ answers w = []) as [E ->].
    { unfold unwritten in Ho. rewrite Hpd in Ho. cbn [option_list] in Ho. rewrite app_assoc in Ho.
      destruct (in_flight c) as [r|].
      - destruct Ho as [(E & Ea0 & _)|(x & E & _)]; [|by apply app_eq_nil in E as [_ ?]].
        split; [|done]. by apply (app_inj_tail _ []) in E as [-> _].
      - destruct Ho as (E & _). by apply app_eq_nil in E as [_ ?]. }
    apply app_eq_nil in E as [-> ->]. by left.
  - subst w1. unfold shutdown_snapshot in Hsh. destruct (dirty c); [done|].
    destruct (in_flight c); [done|]. destruct Ho as (Eu & Ea & Ed). split; [by left; unfold numbers; rewrite Eu, Ea|done|].
    intros _. right. split; [done|]. left. congruence.
Qed.

(** The answer the coordinator waits for: no completion is refused. *)
Lemma pipeline_complete b f now q x c c' w w' d res :
  answers w = (Some q, x) :: answers w' → unwritten w' = unwritten w →
  complete q (match x with Ok _ => Succeeded | Err _ => Failed end) now c = (res, c') →
  pipeline b f c w d → res = Ok tt ∧ pipeline b f c' w' d.
Proof.
  intros Ea Eu Hc [Hn Ho Hs]. unfold numbers in Hn. rewrite Ea in Hn. cbn in Hn.
  destruct Hn as [Hn|(r & Hi & Hn)]; [done|]. injection Hn as Hq Hn. subst q.
  assert (res = Ok tt ∧ in_flight c' = None
    ∧ persisted c' = match x with Ok _ => Some (req_snapshot r) | Err _ => persisted c end) as (-> & Hi' & Hp').
  { unfold complete in Hc. rewrite Hi, N.eqb_refl in Hc.
    destruct x; [|destruct (dirty c); repeat case_match]; injection Hc as <- <-; cbn; repeat case_match; done. }
  split; [done|]. split.
  - left. unfold numbers. by rewrite Eu.
  - intros Hb. specialize (Ho Hb). rewrite Hi in Ho. rewrite Hi', Hp', Eu.
    destruct Ho as [(_ & Ea0 & _)|(y & Eu0 & Ea0 & Ed)]; rewrite Ea0 in Ea; [done|]. by injection Ea as <- <-.
  - rewrite Eu. exact Hs.
Qed.

(** The answer to the final write, which nobody waits for. *)
Lemma pipeline_final_answer b f x c w w' d :
  answers w = (None, x) :: answers w' → unwritten w' = unwritten w →
  pipeline b f c w d → pipeline b f c w' d.
Proof.
  intros Ea Eu [Hn Ho Hs]. split; [| |by rewrite Eu].
  - unfold numbers in *. by rewrite Ea, <-Eu in Hn.
  - intros Hb. specialize (Ho Hb). destruct (in_flight c) as [r|].
    + destruct Ho as [(_ & Ea0 & _)|(y & _ & Ea0 & _)]; by rewrite Ea0 in Ea.
    + destruct Ho as (_ & Ea0 & _). by rewrite Ea0 in Ea.
Qed.

(** Once the fence is acknowledged, the final snapshot is in the file, or its
    write failed. *)
Lemma pipeline_fenced f c w d held a l :
  run_wf (mk_run w held a l) → fence_acknowledged w = true → pipeline true f c w d →
  contents d = f ∨ last_failed d = true.
Proof.
  intros Hw Hf [_ _ Hs]. destruct (acknowledged_settled _ Hw Hf) as (_ & _ & _ & Hp & Ht). cbn in Hp, Ht.
  pose proof (uw_request _ Hw) as Hq. unfold request_wf in Hq. cbn in Hq. rewrite Ht in Hq.
  destruct Hq as (_ & Hr & _). destruct (Hs eq_refl) as [(pre & snapshot & _ & Eu)|[_ ?]]; [|done].
  unfold unwritten in Eu. rewrite Ht, Hr, Hp in Eu. by destruct pre.
Qed.
