(* ===== verification/RuntimeInv.v ===== *)
(** * The daemon's owners: what holds between their calls

    The invariant ties the components together: whom the server still owes an
    answer is the requester of the session's pending action, the coordinator holds
    the snapshot the session last showed, the kernel's repeat timer is armed when
    the session repeats a key, and the flags of the owners name the session's
    phase. *)

From Stdlib Require Import ZArith Lia.
From stdpp Require Import prelude list gmap sorting.
From S2P Require Import Prelude Layout Ledger Projection Keys State Backend Snapshot Visible Authority Hoare AuthorityInv Session Reduce SessionInv Finalize Turns Actions BackendTurn Modules Timers Persistence Utf8 Ipc Control ControlInv ControlConn Worker WorkerSafety Server ServerConn ServerInv ServerOps ServerSafety Dispatch Runtime RuntimeControl Pipeline.

(** ** Why the daemon may fail *)

(** The errors a daemon may end in: of the backend or its events, an action the
    backend cannot carry out, too many children, the operating system, and the
    listener. *)
Definition runtime_cause (e : RuntimeError) : bool :=
  match e with
  | RuntimeSession e => event_fault e
  | RuntimeFatalAction e => fatal_action e
  | RuntimeWorkerCapacity _ | RuntimeIo _ => true
  | RuntimeControl (ListenerIo _ | ListenerTerminal | ResourceExhausted _) => true
  | _ => false
  end.

Section inv.
Context {B : Type} `{WmBackend B}.
Context `{JsonErrors, !Wire Request, !Wire Response, !Wire Event}.
Context (CARGO_PKG_VERSION : rstring).
Implicit Types (s : Session (B:=B)) (o : RuntimeOwners (B:=B)).

(** ** What the other owners see of the session *)

Record same_view s s' : Prop := {
  vw_phase : s_phase s' = s_phase s;
  vw_owner : SessionInv.owner s' = SessionInv.owner s;
  vw_shown : SessionInv.shown s' = SessionInv.shown s;
  vw_target : s_repeat_target s' = s_repeat_target s;
  vw_bindings : s_bindings s' = s_bindings s;
  vw_attempted : s_exit_attempted s' = s_exit_attempted s
}.

#[export] Instance same_view_preorder : PreOrder same_view.
Proof. split; [by intros s; split|]. intros s1 s2 s3 [] []. split; congruence. Qed.

Lemma same_view_private s s' : only_private s s' → s_active s' = s_active s → same_view s s'.
Proof.
  intros Hp Ha. pose proof (only_private_shown _ _ Hp) as Hs.
  apply only_private_fields in Hp as (_ & ? & _ & ? & _ & _ & ? & _ & _ & ? & _).
  split; try done. unfold SessionInv.owner. by rewrite Ha.
Qed.

Lemma update_modules_view ms s :
  session_wf s →
  let '(u, s') := update_modules ms s in
  session_wf s' ∧ same_view s s' ∧ u = unchanged <| up_state := up_state u |>
  ∧ (s_phase s ≠ Live → u = unchanged ∧ s' = s) ∧ s_state s' = default (s_state s) (up_state u).
Proof.
  intros Hs. pose proof (update_modules_ok ms s Hs) as Hok. unfold update_modules in *.
  destruct (not_ready s) eqn:Hr; [by split_and!; [| | | |]|].
  assert (s_phase s = Live) as Hp by apply (proj1 (not_ready_false s) Hr).
  case_decide; [by split_and!; [| | | |]|]. cbn [fst snd] in *. destruct Hok as [Hwf _ _].
  by split_and!.
Qed.

(** What an update reports of the way from [s] to [s'], apart from whose action it
    completes. *)
Record reported (u : SessionUpdate) s s' : Prop := {
  re_live : s_phase s = Live;
  re_wf : session_wf s';
  re_timer : SessionInv.follows (up_repeat_timer u) s s';
  re_quit : match quit_points (up_effects u) with
    | [] => s_phase s' = Live
    | [after] => s_phase s' = PhaseQuitPending
    | _ => False
    end;
  re_shown : SessionInv.shown s' = option_or (up_persistence u) (SessionInv.shown s);
  re_bindings : s_bindings s' = s_bindings s;
  re_attempted : s_exit_attempted s' = s_exit_attempted s
}.

Lemma ended_reported u s s' : s_phase s = Live → ended s u s' → reported u s s'.
Proof.
  intros Hp [Hwf [Hb Hph _ _ Hex _ Hf _] [_ Hq _ Hsh]]. split; try done.
  - destruct (quit_points (up_effects u)) as [|after [|? ?]]; [|by destruct Hq as (_ & ? & _)|done].
    rewrite Hp in Hq, Hph. by destruct (s_phase s'); try (cbn in Hph; lia).
  - destruct Hex as [?|[_ Hx]]; [done|congruence].
Qed.

(** A new picture changes nothing of what is reported. *)
Lemma reported_view u st s s' s'' :
  reported u s s' → session_wf s'' → same_view s' s'' → reported (u <| up_state := st |>) s s''.
Proof.
  intros [Hl Hw Ht Hq Hsh Hb Ha] Hw' [Hp _ Hsh' Ht' Hb' Ha']. split; cbn; try congruence.
  - unfold SessionInv.follows in *. cbn. by rewrite Ht'.
  - by rewrite Hp.
Qed.

(** ** The components *)

(** Whom the server owes an answer. *)
Definition owes (pending : option (BackendTicket * N)) (owed : gmap N Request) : Prop :=
  match pending with
  | None => owed = ∅
  | Some (_, connection) => ∃ request, owed = {[connection := request]} ∧ request ≠ ReqSubscribe
  end.

Definition control_phase (p : SessionLifecyclePhase) (pending : option (BackendTicket * N))
    (receipt : option ResponseReceipt) (now : N) (owed : gmap N Request) (c : ControlServer) : Prop :=
  match p with
  | Live => owes pending owed ∧ receipt = None ∧ shutting_down c = false ∧ response_barrier c = None
  | PhaseQuitPending => shutting_down c = false ∧ ∃ r, receipt = Some r ∧ response_barrier c = Some r
  | Authority.ShuttingDown | Exiting | ExitComplete =>
      receipt = None ∧ ∃ t, (t <= now)%N ∧ shut (t + TERMINAL_TIMEOUT) c
  | InitialReplay | FinalizingReplay => False
  end.

Definition control_ok (p : SessionLifecyclePhase) (pending : option (BackendTicket * N))
    (receipt : option ResponseReceipt) (now : N) (c : ControlServer) : Prop :=
  ∃ owed receipts, server_wf CARGO_PKG_VERSION owed receipts c ∧ control_phase p pending receipt now owed c.

(** A server as open as it was, for a session in the same phase. *)
Lemma control_phase_kept p pending receipt now owed c c' :
  steady c c' → (∀ dl, shut dl c → shut dl c') →
  control_phase p pending receipt now owed c → control_phase p pending receipt now owed c'.
Proof.
  intros [Hsd Hb] Hsh. unfold control_phase. rewrite Hsd, Hb.
  destruct p; try done; intros (? & t & ? & ?); (split; [done|]); exists t; auto.
Qed.

Definition worker_ok (now : N) (sealed : bool) (w : System) : Prop :=
  run_wf (mk_run w [] false false) ∧ is_sealed w = sealed ∧ ∀ t, sealed_at w = Some t → (t <= now)%N.

Definition persist_ok (now : N) (sealed : bool) (latest : option SessionSnapshotV1)
    (c : PersistenceCoordinator) (w : System) (d : Disk) : Prop :=
  (∃ saved requests, Persistence.world_wf (Persistence.mk_world c saved latest requests now))
  ∧ pipeline sealed latest c w d.

Lemma persist_later now now' sealed latest c w d :
  (now <= now')%N → persist_ok now sealed latest c w d → persist_ok now' sealed latest c w d.
Proof.
  intros Hn [(saved & requests & [Hl Hd Hs Hnu Hf Hy]) Hp]. split; [|done]. exists saved, requests.
  split; try done. intros d0 Hd0. destruct (Hy d0 Hd0). cbn in *. split; [lia|done].
Qed.

Lemma persist_start now p : persist_ok now false p (Persistence.new p) Worker.start (mk_disk p false).
Proof. split; [exists p, []; apply start_wf|apply pipeline_start]. Qed.

Lemma persist_observe now snapshot x latest c c' w d :
  observe snapshot now c = (x, c') → persist_ok now false latest c w d →
  persist_ok now false (option_or snapshot latest) c' w d.
Proof.
  intros Ho [(saved & requests & Hw) Hp]. split.
  - exists saved, requests. eapply observe_ok; [exact Hw|done|exact Ho].
  - destruct (observe_steady snapshot now c) as [Hi Hs]. rewrite Ho in Hi, Hs.
    by eapply pipeline_coordinator; [..|exact Hp].
Qed.

Definition timer_ok s (t : SessionTimers) : Prop :=
  timer_armed (repeat_timer t) = bool_decide (is_Some (s_repeat_target s)).

Definition exited (now : N) (c : ControlServer) (w : System) : Prop :=
  is_shutdown_complete c = true ∧ fence_status now w ≠ FencePending.

(** What the owners have settled about session [s] at time [now]. *)
Record settled (now : N) (d : Disk) s o : Prop := {
  sd_control : control_ok (s_phase s) (o_pending_request o) (o_quit_receipt o) now (o_control o);
  sd_worker : worker_ok now (quitting (s_phase s)) (o_worker o);
  sd_persistence : persist_ok now (quitting (s_phase s)) (SessionInv.shown s) (o_persistence o) (o_worker o) d;
  sd_timer : timer_ok s (o_timers o);
  sd_pending : s_phase s = Live → fst <$> o_pending_request o = SessionInv.owner s;
  sd_sealed : o_worker_sealed o = quitting (s_phase s);
  sd_shutdown : o_shutdown_started o = (4 <=? phase_rank (s_phase s));
  sd_exit : o_exit_started o = (5 <=? phase_rank (s_phase s));
  sd_exited : 5 ≤ phase_rank (s_phase s) → exited now (o_control o) (o_worker o);
  sd_sane : repeats_sane s;
  sd_attempted : phase_rank (s_phase s) ≤ 4 → s_exit_attempted s = false
}.

Definition runtime_wf (now : N) (d : Disk) o : Prop :=
  session_wf (o_session o) ∧ settled now d (o_session o) o.
End inv.
