(* ===== verification/RuntimeOps.v ===== *)
(** * The daemon's owners: carrying out an update

    Each step of [apply_update] against the books the owners keep: what the session
    showed, whether the timer is armed, which reservation is held, who is owed an
    answer. *)

From Stdlib Require Import ZArith Lia.
From stdpp Require Import prelude list gmap sorting.
From S2P Require Import Prelude Layout Ledger Projection Keys State Backend Snapshot Visible Authority Hoare AuthorityInv Session Reduce SessionInv Finalize Turns Actions BackendTurn Modules Timers Persistence Utf8 Ipc Control ControlInv ControlConn Worker WorkerSafety Server ServerConn ServerInv ServerOps ServerSafety Dispatch Runtime RuntimeControl Pipeline RuntimeInv.

(** The books of owners that are not quitting. *)
Record Books {B : Type} := mk_books {
  b_session : Session (B:=B);
  b_pending : option (BackendTicket * N);
  b_shown : option SessionSnapshotV1;
  b_armed : bool;
  b_held : list nat;
  b_owed : gmap N Request;
  b_receipts : list ResponseReceipt
}.

#[export] Instance Books_settable {B} : Settable (Books (B:=B)) := λ b,
  mk_books B (b_session b) (b_pending b) (b_shown b) (b_armed b) (b_held b) (b_owed b) (b_receipts b).

Definition repeating {B} (s : Session (B:=B)) : bool := bool_decide (is_Some (s_repeat_target s)).

Section ops.
Context {B : Type} `{WmBackend B}.
Context `{JsonErrors, !Wire Request, !Wire Response, !Wire Event}.
Context `{!WireText Response, !WireText Event, !ErrorsFit}.
Context (CARGO_PKG_VERSION : rstring).
Implicit Types (s : Session (B:=B)) (o : RuntimeOwners (B:=B)) (b : Books (B:=B)).

(** [m] does not panic, and fails only for a cause. *)
Definition safe {A} (m : stm (RuntimeOwners (B:=B)) (failure RuntimeError) A) (Q : A → RuntimeOwners (B:=B) → Prop) o : Prop :=
  wp m Q (λ e _, runtime_cause e = true) o.

Lemma safe_bind {A C} (m : stm (RuntimeOwners (B:=B)) (failure RuntimeError) A)
    (k : A → stm (RuntimeOwners (B:=B)) (failure RuntimeError) C) Q R o :
  safe m Q o → (∀ a o', Q a o' → safe (k a) R o') → safe (a ← m; k a) R o.
Proof. intros Hm Hk. apply wp_bind. eapply wp_mono; [exact Hm|exact Hk|done]. Qed.

Lemma safe_mono {A} (m : stm (RuntimeOwners (B:=B)) (failure RuntimeError) A) Q R o :
  safe m Q o → (∀ a o', Q a o' → R a o') → safe m R o.
Proof. intros Hm Hq. by eapply wp_mono. Qed.

Record open_books (now : N) (d : Disk) b o : Prop := {
  ob_session : o_session o = b_session b;
  ob_pending : o_pending_request o = b_pending b;
  ob_control : server_wf CARGO_PKG_VERSION (b_owed b) (b_receipts b) (o_control o)
    ∧ shutting_down (o_control o) = false ∧ response_barrier (o_control o) = None;
  ob_worker : run_wf (mk_run (o_worker o) (b_held b) false false) ∧ is_sealed (o_worker o) = false;
  ob_persistence : persist_ok now false (b_shown b) (o_persistence o) (o_worker o) d;
  ob_timer : timer_armed (repeat_timer (o_timers o)) = b_armed b;
  ob_flags : o_worker_sealed o = false ∧ o_shutdown_started o = false ∧ o_exit_started o = false
    ∧ o_quit_receipt o = None
}.

(** ** The steps *)

Lemma arm_ok now d b o k timer s s' :
  open_books now d b o → SessionInv.follows timer s s' → b_armed b = repeating s →
  safe (on_timers (apply_repeat (timerfd_settime k) timer))
    (λ _, open_books now d (b <| b_armed := repeating s' |>)) o.
Proof.
  intros [] Hf Ha. apply wp_zoom. unfold wp.
  assert (∀ delay interval, timer = Timer_Arm delay interval →
     delay = KEY_REPEAT_DELAY_MS ∧ interval = (1000 / KEY_REPEAT_RATE_HZ)%N) as Hd.
  { intros delay interval ->. by destruct Hf as (? & ? & _). }
  pose proof (apply_repeat_spec (timerfd_settime k) timer (o_timers o) Hd) as Hs.
  destruct (apply_repeat _ _ _) as [[[]|[e|]] ts]; [|by destruct Hs as (? & _ & ->)|done].
  destruct Hs as [Hs _]. split; try done. cbn. rewrite Hs. unfold repeating in *.
  destruct timer as [|delay interval|]; cbn in *.
  - by rewrite ob_timer0, Ha, Hf.
  - symmetry. apply bool_decide_eq_true. by destruct Hf as (_ & _ & ? & _).
  - by rewrite Hf.
Qed.

Lemma stop_sampler_ok now d b o write :
  open_books now d b o → safe (stop_sampler write) (λ _, open_books now d b) o.
Proof.
  intros []. unfold stop_sampler. apply wp_getS. destruct (o_sampler_stopped o); [by split|].
  by destruct write.
Qed.

(** The quits among the effects come out, and nothing else of the owners changes. *)
Lemma drain_effects_ok now d b o k effects jobs quit :
  open_books now d b o → length (option_list quit ++ quit_points effects) ≤ 1 →
  safe (drain_effects k effects jobs quit)
    (λ jq o', open_books now d b o' ∧ jq.2 = head (option_list quit ++ quit_points effects)) o.
Proof.
  revert jobs quit o. induction effects as [|e effects IH]; intros jobs quit o Hb Hl.
  { cbn. split; [done|]. by destruct quit. }
  destruct e as [argv| | | |after]; cbn [drain_effects]; try (by apply (IH _ quit)).
  eapply safe_bind; [by apply stop_sampler_ok|]. intros [] o' Hb'.
  destruct quit as [q|]; [cbn in Hl; lia|]. by apply (IH _ (Some after)).
Qed.

Lemma reserve_jobs_ok now d b o jobs :
  open_books now d b o → b_held b = [] →
  safe (reserve jobs)
    (λ r o', open_books now d (b <| b_held := option_list r |>) o'
       ∧ r = if decide (jobs = []) then None else Some (length jobs)) o.
Proof.
  intros [] Hh. unfold reserve. destruct (decide (jobs = [])) as [->|Hj].
  { cbn. split; [|done]. destruct b; cbn in *; subst. by split. }
  apply wp_bind, wp_zoom. unfold wp.
  pose proof (reserve_quiet (length jobs) (o_worker o)) as Hq.
  destruct ob_worker0 as [Hw Hse].
  destruct (reserve_process_jobs (length jobs) (o_worker o)) as [x w'] eqn:E.
  destruct (WorkerSafety.reserve_ok _ (mk_run _ _ false false) _ _ Hw E) as [Hw' Hx]. cbn in Hw', Hq.
  assert (x = Ok (length jobs) ∨ ∃ e, x = Err e) as [->|[[e|] ->]]; [|cbn|done|done].
  { destruct x; [left|right; eauto]. revert E. unfold reserve_process_jobs, mbind, stm_bind, getS.
    destruct (_ || _); [done|]. by intros [= <- _]. }
  rewrite Hh in Hw'. split; [|done]. split; try done.
  - split; [done|]. cbn. unfold is_sealed in *. by rewrite (qt_sealed _ _ Hq).
  - destruct ob_persistence0 as [? ?]. split; [done|]. by eapply pipeline_quiet.
Qed.

Lemma open_later now now' d b o : (now <= now')%N → open_books now d b o → open_books now' d b o.
Proof.
  intros Hn []. split; try done. by eapply persist_later.
Qed.

Lemma observe_step_ok now d b o snapshot :
  open_books now d b o →
  safe (step_persistence (Persistence.observe snapshot now))
    (λ _, open_books now d (b <| b_shown := option_or snapshot (b_shown b) |>)) o.
Proof.
  intros []. unfold step_persistence, safe, wp.
  destruct (observe snapshot now (o_persistence o)) as [x c] eqn:E. split; try done. cbn.
  by eapply persist_observe.
Qed.

Lemma publish_update_ok now d b o state reservation :
  open_books now d b o → safe (publish_update now state reservation) (λ _, open_books now d b) o.
Proof.
  intros Ho. unfold publish_update. destruct state as [state|]; [|done].
  destruct Ho as [? ? (Hw & Hs & Hb) ? ? ? ?].
  apply wp_bind, wp_zoom, wp_attempt. eapply wp_mono; [by apply wp_publish_state| |].
  - intros _ c (Hw' & Hs' & Hb'). apply wp_ret. split; try done. cbn. by rewrite Hs', Hb'.
  - intros e c [(Hw' & Hs' & Hb') He]. rewrite He. apply wp_ret. split; try done. cbn. by rewrite Hs', Hb'.
Qed.

(** The requester is answered and owed nothing any more. *)
Definition answered (requester : option (N * Response)) (receipt : option ResponseReceipt) b : Books :=
  b <| b_owed := match requester with Some (id, _) => delete id (b_owed b) | None => b_owed b end |>
    <| b_receipts := option_list receipt ++ b_receipts b |>.

Lemma answer_requester_ok now d b o requester reservation :
  open_books now d b o →
  (∀ id response, requester = Some (id, response) →
     ∃ request, b_owed b !! id = Some request ∧ request ≠ ReqSubscribe) →
  safe (answer_requester now requester reservation)
    (λ receipt o', open_books now d (answered requester receipt b) o'
       ∧ ∀ r, receipt = Some r → response_settlement r (o_control o') = Server.Pending) o.
Proof.
  intros Ho Hr. unfold answer_requester. destruct requester as [[id response]|]; [|by apply wp_ret; split; [destruct Ho|]].
  destruct (Hr id response eq_refl) as (request & Hid & Hns).
  destruct Ho as [? ? (Hw & Hs & Hb) ? ? ? ?].
  apply wp_bind, wp_zoom, wp_attempt. eapply wp_mono; [by eapply wp_reply| |].
  - intros r c ((Hw' & Hp) & Hs' & Hb'). apply wp_ret. split; [split; try done; cbn; by rewrite Hs', Hb'|by intros _ [= <-]].
  - intros e c [(Hw' & Hs' & Hb') He]. rewrite He. apply wp_ret.
    split; [split; try done; cbn; by rewrite Hs', Hb'|done].
Qed.

Lemma commit_jobs_ok now d b o reservation jobs :
  open_books now d b o → b_held b = option_list reservation →
  reservation = (if decide (jobs = []) then None else Some (length jobs)) →
  safe (commit_jobs reservation jobs) (λ _, open_books now d (b <| b_held := [] |>)) o.
Proof.
  intros [] Hh Hr. unfold commit_jobs. destruct reservation as [r|]; cbn in Hh.
  2: { cbn. destruct b; cbn in *; subst. by split. }
  destruct ob_worker0 as [Hw Hse]. rewrite Hh in Hw. case_decide; [done|]. injection Hr as ->.
  apply wp_zoom. unfold wp. pose proof (commit_quiet (length jobs) jobs (o_worker o)) as Hq.
  destruct (commit (length jobs) jobs (o_worker o)) as [x w'] eqn:E.
  destruct (commit_ok _ [] [] _ _ _ _ _ Hw E) as (Hw' & [->|[[_ ?]|[_ ?]]]); [|congruence|done]. cbn in Hq, Hw'.
  split; try done.
  - split; [done|]. cbn. unfold is_sealed in *. by rewrite (qt_sealed _ _ Hq).
  - destruct ob_persistence0 as [? ?]. split; [done|]. by eapply pipeline_quiet.
Qed.

(** ** Quitting *)

(** The worker is sealed with the last snapshot; the requester of the quit may
    still wait for its reply. *)
Record closing (now : N) (d : Disk) o : Prop := {
  cl_session : session_wf (o_session o);
  cl_phase : s_phase (o_session o) = PhaseQuitPending;
  cl_control : ∃ owed receipts, server_wf CARGO_PKG_VERSION owed receipts (o_control o);
  cl_open : shutting_down (o_control o) = false;
  cl_worker : worker_ok now true (o_worker o);
  cl_persistence : persist_ok now true (SessionInv.shown (o_session o)) (o_persistence o) (o_worker o) d;
  cl_timer : timer_ok (o_session o) (o_timers o);
  cl_flags : o_worker_sealed o = true ∧ o_shutdown_started o = false ∧ o_exit_started o = false;
  cl_sane : repeats_sane (o_session o);
  cl_attempted : s_exit_attempted (o_session o) = false
}.

Lemma seal_worker_ok now d latest c w :
  run_wf (mk_run w [] false false) → is_sealed w = false → persist_ok now false latest c w d →
  ∃ w1 w', match shutdown_snapshot c with
    | Some snapshot => submit_shutdown_snapshot snapshot w = (Ok tt, w1)
    | None => w1 = w
    end ∧ seal now w1 = (Ok tt, w') ∧ worker_ok now true w' ∧ persist_ok now true latest c w' d.
Proof.
  intros Hw Hs [(saved & requests & Hpw) Hp].
  assert (∃ w1, match shutdown_snapshot c with
    | Some snapshot => submit_shutdown_snapshot snapshot w = (Ok tt, w1)
    | None => w1 = w
    end ∧ run_wf (mk_run w1 [] false false) ∧ is_sealed w1 = false) as (w1 & Hsub & Hw1 & Hs1).
  { destruct (shutdown_snapshot c) as [snapshot|]; [|by exists w].
    destruct (submit_shutdown_snapshot snapshot w) as [x w1] eqn:E. exists w1.
    destruct (submit_ok _ _ _ _ _ _ Hw E) as (? & [->|[_ ?]]); [|congruence].
    split_and!; [done|done|]. apply submit_effect in E as (_ & _ & _ & _ & E & _).
    unfold is_sealed in *. by rewrite E. }
  destruct (seal now w1) as [x w'] eqn:E.
  destruct (seal_ok _ _ _ _ _ _ Hw1 E) as (Hw' & -> & Hse).
  apply bool_decide_eq_false, eq_None_not_Some in Hs1. rewrite Hs1 in Hse.
  exists w1, w'. split_and!; [done|done| |].
  - split_and!; [done|unfold is_sealed; by rewrite Hse|]. rewrite Hse. by intros t [= <-].
  - split; [by exists saved, requests|]. eapply pipeline_seal; [|exact Hsub|exact E|exact Hp].
    exact (wf_latest _ Hpw).
Qed.

Lemma begin_terminal_worker_ok now d b o :
  open_books now d b o → b_held b = [] → b_armed b = repeating (b_session b) →
  b_shown b = SessionInv.shown (b_session b) → session_wf (b_session b) →
  s_phase (b_session b) = PhaseQuitPending → repeats_sane (b_session b) → s_exit_attempted (b_session b) = false →
  safe (begin_terminal_worker now)
    (λ _ o', closing now d o' ∧ o_control o' = o_control o ∧ o_quit_receipt o' = o_quit_receipt o) o.
Proof.
  intros [Hse _ (Hc & Hsd & _) [Hw Hs] Hp Ht (Hf1 & Hf2 & Hf3 & _)] Hh Ha Hsh Hwf Hph Hsa Hat.
  unfold begin_terminal_worker. apply wp_getS. rewrite Hf1.
  rewrite Hh in Hw. rewrite Hsh in Hp.
  destruct (seal_worker_ok now d _ _ _ Hw Hs Hp) as (w1 & w' & Hsub & Hsl & Hw' & Hp').
  assert (∀ o1, o1 = o <| o_worker := w1 |> →
    safe (_ ← on_worker RuntimeWorker (seal now); modify (λ o, o <| o_worker_sealed := true |>))
    (λ _ o', closing now d o' ∧ o_control o' = o_control o ∧ o_quit_receipt o' = o_quit_receipt o) o1) as Hrest.
  { intros o1 ->. apply wp_bind, wp_zoom. eapply wp_eq; [exact Hsl|].
    split; [|done]. rewrite <-Hse in *. unfold repeating in Ha.
    split; try done; cbn; [by eexists _, _|]. unfold timer_ok. cbn. congruence. }
  destruct (shutdown_snapshot (o_persistence o)) as [snapshot|].
  - apply wp_bind, wp_zoom. eapply wp_eq; [exact Hsub|]. by apply Hrest.
  - subst w1. apply Hrest. by destruct o.
Qed.

Lemma begin_shutdown_session s :
  session_wf s → s_phase s = PhaseQuitPending →
  let '(u, s') := Session.begin_shutdown s in
  session_wf s' ∧ up_repeat_timer u = Timer_Disarm ∧ s_phase s' = Authority.ShuttingDown
  ∧ s_repeat_target s' = None ∧ SessionInv.shown s' = SessionInv.shown s
  ∧ s_bindings s' = s_bindings s ∧ s_exit_attempted s' = s_exit_attempted s.
Proof.
  intros Hs Hp. pose proof (begin_shutdown_ok s Hs) as [Hw _]. unfold Session.begin_shutdown in *.
  rewrite Hp in *. split_and!; try done. unfold SessionInv.shown. cbn. by rewrite Hp.
Qed.

Lemma begin_shutdown_closing now d o k :
  closing now d o →
  wp (begin_shutdown k now)
    (λ _ o', runtime_wf CARGO_PKG_VERSION now d o' ∧ s_phase (o_session o') = Authority.ShuttingDown)
    (λ e _, ∃ errno, timerfd_settime k = Err errno ∧ e = RuntimeIo (IoOs errno)) o.
Proof.
  intros [Hs Hph (owed & receipts & Hc) Hsd Hw Hp Ht (Hf1 & Hf2 & Hf3) Hsa Hat].
  unfold begin_shutdown. apply wp_getS. rewrite Hf2. apply wp_modify.
  apply wp_bind, wp_zoom. eapply wp_mono; [by eapply begin_shutdown_server_ok| |done].
  intros [] c (Hc' & _ & _ & Hshut). specialize (Hshut Hsd).
  apply wp_bind. unfold step_session, wp at 1. cbn [o_session].
  pose proof (begin_shutdown_session _ Hs Hph) as Hb. cbn.
  destruct (Session.begin_shutdown (o_session o)) as [u s'].
  destruct Hb as (Hs' & Hu & Hph' & Hrt & Hsh & Hbi & Hat').
  apply wp_bind, wp_zoom. unfold wp. rewrite Hu. cbn.
  destruct (timerfd_settime k) as [[]|errno]; [|by exists errno]. cbn.
  split; [|done]. split; [done|]. cbn. split; cbn; rewrite ?Hph', ?Hsh; try done.
  - exists owed, receipts. split; [done|]. split; [done|]. by exists now.
  - unfold timer_ok. cbn. by rewrite Hrt.
  - cbn. lia.
  - unfold repeats_sane. rewrite Hbi. exact Hsa.
  - congruence.
Qed.

Lemma begin_shutdown_runtime now d o k :
  closing now d o → safe (begin_shutdown k now) (λ _, runtime_wf CARGO_PKG_VERSION now d) o.
Proof.
  intros Hc. eapply wp_mono; [by apply begin_shutdown_closing|by intros _ o' [? _]|by intros e o' (errno & _ & ->)].
Qed.

Lemma begin_quit_barrier_ok now d o k after receipt :
  closing now d o → o_quit_receipt o = None → response_barrier (o_control o) = None →
  safe (begin_quit_barrier k now after receipt) (λ _, runtime_wf CARGO_PKG_VERSION now d) o.
Proof.
  intros Hcl Hq Hb. unfold begin_quit_barrier.
  destruct receipt as [r|]; [|destruct after; by apply begin_shutdown_runtime].
  assert (safe (_ ← modify (λ o, o <| o_quit_receipt := Some r |>);
    settlement ← on_control (begin_response_barrier r);
    if negb (bool_decide (settlement = Server.Pending)) then begin_shutdown k now else mret tt)
    (λ _, runtime_wf CARGO_PKG_VERSION now d) o) as Hgo;
    [|destruct after; [by apply begin_shutdown_runtime|exact Hgo|exact Hgo]].
  pose proof Hcl as [Hs Hph (owed & receipts & Hc) Hsd Hw Hp Ht (Hf1 & Hf2 & Hf3) Hsa Hat].
  apply wp_modify, wp_bind, wp_zoom. eapply wp_mono; [by eapply wp_barrier| |done].
  intros settlement c (Hc' & Hsd' & Hset). case_bool_decide as Hpe; cbn.
  - rewrite decide_True in Hset by done. split; [done|].
    split; cbn; rewrite ?Hph; try done; [|cbn; lia].
    exists owed, receipts. split; [done|]. split; [by rewrite Hsd'|]. by exists r.
  - rewrite decide_False in Hset by done. subst c. apply begin_shutdown_runtime.
    split; try done. by eexists _, _.
Qed.

(** ** Applying an update *)

(** The books of a live session [s]. *)
Record balanced s b : Prop := {
  ba_held : b_held b = [];
  ba_armed : b_armed b = repeating s;
  ba_shown : b_shown b = SessionInv.shown s;
  ba_sane : repeats_sane s;
  ba_attempted : s_exit_attempted s = false
}.

Lemma open_books_live now d b o :
  open_books now d b o → session_wf (b_session b) → s_phase (b_session b) = Live → balanced (b_session b) b →
  fst <$> b_pending b = SessionInv.owner (b_session b) → owes (b_pending b) (b_owed b) →
  runtime_wf CARGO_PKG_VERSION now d o.
Proof.
  intros [Hse Hpe (Hc & Hsd & Hba) [Hw Hs] Hp Ht (Hf1 & Hf2 & Hf3 & Hq)] Hwf Hph [Hh Ha Hsh Hsa Hat] Hpo Ho.
  rewrite <-Hse, <-Hpe in *. rewrite Hh in Hw. rewrite Hsh in Hp.
  split; [done|]. split; rewrite ?Hph; try done; [| | |cbn; lia].
  - exists (b_owed b), (b_receipts b). done.
  - split_and!; [done|done|]. intros t Hst. unfold is_sealed in Hs. by rewrite Hst in Hs.
  - unfold timer_ok. rewrite Ht. exact Ha.
Qed.

Lemma live_open_books now d o s :
  settled CARGO_PKG_VERSION now d s o → s_phase s = Live →
  ∃ owed receipts,
    let b := mk_books B (o_session o) (o_pending_request o) (SessionInv.shown s) (repeating s) [] owed receipts in
    open_books now d b o ∧ balanced s b ∧ owes (o_pending_request o) owed
    ∧ fst <$> o_pending_request o = SessionInv.owner s.
Proof.
  intros [(owed & receipts & Hc & Hctl) (Hw & Hs & _) Hp Ht Hpo Hf1 Hf2 Hf3 _ Hsa Hat] Hph.
  rewrite Hph in *. destruct Hctl as (Ho & Hq & Hsd & Hb). exists owed, receipts.
  split_and!; [by split| |done|by apply Hpo]. split; try done. apply Hat. cbn. lia.
Qed.

Lemma apply_update_ok now d b o k u s requester :
  open_books now d b o → reported u s (b_session b) → balanced s b →
  (s_phase (b_session b) = Live → fst <$> b_pending b = SessionInv.owner (b_session b)) →
  (∀ id response, requester = Some (id, response) →
     ∃ request, b_owed b !! id = Some request ∧ request ≠ ReqSubscribe) →
  owes (b_pending b) (b_owed (answered requester None b)) →
  safe (apply_update k now u requester) (λ _, runtime_wf CARGO_PKG_VERSION now d) o.
Proof.
  intros Ho [Hlive Hwf Hti Hq Hsh Hbi Hat] [Hh Ha Hbs Hsa Hatt] Hpo Hr Hown. unfold apply_update.
  assert (repeats_sane (b_session b)) as Hsa' by (unfold repeats_sane; by rewrite Hbi).
  assert (length (quit_points (up_effects u)) ≤ 1) as Hl by (destruct (quit_points _) as [|? [|]]; cbn; [lia|lia|done]).
  eapply safe_bind; [by eapply arm_ok|]. intros [] o1 Ho1.
  eapply safe_bind; [by eapply (drain_effects_ok _ _ _ _ k _ [] None)|]. intros [jobs quit] o2 [Ho2 Hqu]. cbn [snd fst] in *.
  eapply safe_bind; [by eapply (reserve_jobs_ok _ _ _ _ jobs)|]. intros reservation o3 [Ho3 Hres].
  eapply safe_bind; [by eapply observe_step_ok|]. intros x o4 Ho4. cbn beta in Ho4.
  eapply safe_bind; [by eapply publish_update_ok|]. intros [] o5 Ho5.
  eapply safe_bind; [by eapply answer_requester_ok|]. intros receipt o6 [Ho6 _].
  eapply safe_bind; [by eapply commit_jobs_ok|]. intros [] o7 Ho7. cbn [snd].
  destruct (quit_points (up_effects u)) as [|after [|]]; cbn in Hqu; subst quit; [| |done].
  - eapply open_books_live; [exact Ho7|..]; cbn; try done; [split; cbn; try done; congruence|by apply Hpo].
  - eapply safe_bind; [eapply begin_terminal_worker_ok; [exact Ho7|..]; cbn; try done; congruence|].
    intros [] o8 (Hcl & Hc & Hrc). apply begin_quit_barrier_ok; [done| |].
    + rewrite Hrc. apply Ho7.
    + rewrite Hc. apply Ho7.
Qed.
End ops.
