(* ===== verification/RuntimeSteps.v ===== *)
(** * The daemon's owners: every service keeps the invariant

    Each method of the owners, run at an instant no earlier than the last, neither
    panics nor breaks [runtime_wf], and it fails only for a cause. *)

From Stdlib Require Import ZArith Lia.
From stdpp Require Import prelude list gmap sorting.
From S2P Require Import Prelude Layout Ledger Projection Keys State Backend Snapshot Visible Authority Hoare AuthorityInv Session Reduce SessionInv Finalize Turns Actions BackendTurn Modules Timers Persistence Utf8 Ipc Control ControlInv ControlConn Worker WorkerSafety Server ServerConn ServerInv ServerOps ServerSafety Dispatch Runtime RuntimeControl Pipeline RuntimeInv RuntimeOps.

Section steps.
Context {B : Type} `{WmBackend B}.
Context `{JsonErrors, !Wire Request, !Wire Response, !Wire Event}.
Context `{!WireText Response, !WireText Event, !ErrorsFit}.
Context (CARGO_PKG_VERSION : rstring).
Implicit Types (s : Session (B:=B)) (o : RuntimeOwners (B:=B)).

Abbreviation wf := (runtime_wf CARGO_PKG_VERSION).
Abbreviation settled := (settled CARGO_PKG_VERSION).

(** ** An update on its way *)

(** Whose action an update completes. *)
Definition completes (u : SessionUpdate) s s' : Prop :=
  match up_action_completion u with
  | Some c => SessionInv.owner s = Some (completion_ticket c) ∧ (s_phase s' = Live → SessionInv.owner s' = None)
  | None => s_phase s' = Live → SessionInv.owner s' = SessionInv.owner s
  end.

(** A live session may report anything; one that quits has nothing to report. *)
Definition arrived (u : SessionUpdate) s s' : Prop :=
  session_wf s' ∧
  if decide (s_phase s = Live) then reported u s s' ∧ completes u s s' else u = unchanged ∧ s' = s.

Lemma ended_arrived u s s' :
  session_wf s' → s_phase s = Live → ended s u s' → up_pending_action u = None → arrived u s s'.
Proof.
  intros Hs Hp He Hn. split; [done|]. rewrite decide_True by done. split; [by apply ended_reported|].
  destruct He as [_ _ [Ho _ _ _]]. unfold completes. rewrite Hn in Ho.
  destruct (up_action_completion u); [|by intros _]. destruct Ho as (? & _ & ? & _). by split.
Qed.

Lemma arrived_unchanged s : session_wf s → arrived unchanged s s.
Proof.
  intros Hs. destruct (decide (s_phase s = Live)).
  - apply ended_arrived; [done|done|by apply ended_refl|done].
  - split; [done|]. by rewrite decide_False.
Qed.

Lemma update_modules_arrived ms s :
  session_wf s → let '(u, s') := update_modules ms s in arrived u s s'.
Proof.
  intros Hs. pose proof (update_modules_view ms s Hs) as Hv. pose proof (update_modules_ok ms s Hs) as He.
  destruct (update_modules ms s) as [u s']. cbn in He. destruct Hv as (Hs' & _ & Hu & Hn & _).
  destruct (decide (s_phase s = Live)) as [Hp|Hp].
  - apply ended_arrived; [done|done|done|by rewrite Hu].
  - destruct (Hn Hp) as [-> ->]. by apply arrived_unchanged.
Qed.

(** The session and the clock are not among what is settled. *)
Lemma settled_apart now d s o s' c : settled now d s o → settled now d s (o <| o_clock := c |> <| o_session := s' |>).
Proof. by intros []. Qed.

Lemma settled_session now d s o s' : settled now d s o → settled now d s (o <| o_session := s' |>).
Proof. by intros []. Qed.

(** ** The clock *)

(** A method of the clock that leaves an arrived update. *)
Abbreviation clocked m s c :=
  (wp m (λ u c', arrived u s (tk_session c')) (λ e _, runtime_cause e = true) c).

Lemma publish_clock_ok wall (c : Ticking (B:=B)) :
  session_wf (tk_session c) →
  wp (publish_clock wall)
    (λ u c', arrived u (tk_session c) (tk_session c') ∧ same_view (tk_session c) (tk_session c')
       ∧ u = unchanged <| up_state := up_state u |>) (λ e _, runtime_cause e = true) c.
Proof.
  intros Hs. unfold publish_clock, wp, update_clock_module. destruct (render _ _) as [m|]; [|done].
  match goal with |- context [update_modules ?ms _] => set (l := ms) end.
  pose proof (update_modules_view l _ Hs) as Hv. pose proof (update_modules_arrived l _ Hs) as Ha.
  destruct (update_modules l (tk_session c)) as [u s']. by destruct Hv as (_ & Hv & Hu & _).
Qed.

Lemma publish_clock_arrives s wall c :
  session_wf s → tk_session c = s → clocked (publish_clock wall) s c.
Proof. intros Hs <-. eapply wp_mono; [by apply publish_clock_ok| |done]. by intros u c' [? _]. Qed.

(** A new picture rides on an update that has arrived. *)
Lemma arrived_folded u cu s s1 s2 :
  arrived u s s1 → arrived cu s1 s2 → same_view s1 s2 →
  arrived (match up_state cu with Some _ => u <| up_state := up_state cu |> | None => u end) s s2.
Proof.
  intros [_ Hu] [Hs2 Hc] Hv. split; [done|]. destruct (decide (s_phase s = Live)) as [Hp|Hp].
  - destruct Hu as [Hr Ho].
    assert (∀ st, reported (u <| up_state := st |>) s s2 ∧ completes (u <| up_state := st |>) s s2) as Hst.
    { intros st. split; [by eapply reported_view|]. unfold completes in *. cbn. destruct Hv as [-> -> _ _ _ _]. done. }
    destruct (up_state cu) as [st|]; [apply Hst|]. specialize (Hst (up_state u)). by destruct u.
  - destruct Hu as [-> ->]. rewrite decide_False in Hc by done. by destruct Hc as [-> ->].
Qed.

Lemma fold_if_clean_arrives s u wall c :
  arrived u s (tk_session c) → clocked (fold_if_clean wall u) s c.
Proof.
  intros Ha. unfold fold_if_clean. apply wp_getS. destruct (_ || _); [by apply wp_ret|].
  apply wp_modify, wp_bind. eapply wp_mono; [apply publish_clock_ok, Ha| |done].
  intros cu c' (Ha' & Hv & _). apply wp_ret. by eapply arrived_folded.
Qed.

Lemma tick_arrives wall c : session_wf (tk_session c) → clocked (tick wall) (tk_session c) c.
Proof.
  intros Hs. unfold tick. apply wp_getS. destruct (has_active_backend_transaction _).
  - by apply wp_modify, wp_ret, arrived_unchanged.
  - apply wp_modify. by apply publish_clock_arrives.
Qed.

Lemma accept_sampler_arrives wall snapshot c :
  session_wf (tk_session c) → clocked (accept_sampler wall snapshot) (tk_session c) c.
Proof.
  intros Hs. unfold accept_sampler. apply wp_modify, wp_getS. destruct (has_active_backend_transaction _).
  - by apply wp_modify, wp_ret, arrived_unchanged.
  - apply wp_modify. by apply publish_clock_arrives.
Qed.

(** The owners when the clock ran. *)
Lemma on_clock_ok now d s o m :
  settled now d s o → clocked m s (mk_ticking (o_clock o) (o_session o)) →
  safe (on_clock m) (λ u o', settled now d s o' ∧ arrived u s (o_session o')) o.
Proof.
  intros Hse Hm. apply wp_zoom. eapply wp_mono; [exact Hm| |done].
  intros u c' Ha. split; [by apply settled_apart|done].
Qed.

(** ** Session updates *)

Lemma apply_update_unchanged now k o : apply_update k now unchanged None o = (Ok tt, o).
Proof. by destruct o. Qed.

Lemma handle_session_update_ok now d s u o k :
  settled now d s o → arrived u s (o_session o) →
  safe (handle_session_update k now u) (λ _, wf now d) o.
Proof.
  intros Hse Ha. unfold handle_session_update.
  eapply safe_bind; [by eapply on_clock_ok, fold_if_clean_arrives|]. clear u o Hse Ha. intros u o [Hse [Hs Ha]].
  case_decide as Hp; [|destruct Ha as [-> <-]; apply wp_bind, wp_ret; unfold safe, wp; by rewrite apply_update_unchanged].
  destruct Ha as [Hr Hc]. destruct (live_open_books _ _ _ _ _ Hse Hp) as (owed & receipts & Hb & Hba & Ho & Hf).
  unfold completes in Hc. destruct (up_action_completion u) as [c|] eqn:Ec; cbn [take_requester].
  - destruct Hc as [Hc Hnone]. rewrite Hc in Hf. destruct (o_pending_request o) as [[ticket connection]|] eqn:Ep; [|done].
    injection Hf as ->. apply wp_bind, wp_getS, wp_modify. rewrite Ep, decide_True by done. apply wp_ret.
    destruct Ho as (request & -> & Hns).
    eapply (apply_update_ok _ now d (mk_books B (o_session o) None _ _ _ _ _)); [|exact Hr|destruct Hba; by split|..]; cbn.
    + destruct Hb. split; try done; exact ob_control.
    + intros Hl. by rewrite Hnone.
    + intros id response [= <- <-]. exists request. split; [apply lookup_singleton_eq|done].
    + apply delete_singleton_eq.
  - apply wp_bind, wp_ret. eapply apply_update_ok; [exact Hb|exact Hr|exact Hba|..]; cbn; try done.
    intros Hl. by rewrite Hc.
Qed.

(** ** Time passes *)

Lemma fence_later now now' w :
  (now <= now')%N → fence_status now w ≠ FencePending → fence_status now' w ≠ FencePending.
Proof.
  intros Hn. unfold fence_status. destruct (fence_acknowledged w); [done|]. destruct (sealed_at w) as [t|]; [|done].
  destruct (N.leb_spec (t + WORKER_SHUTDOWN_TIMEOUT) now); [intros _|done].
  by rewrite (proj2 (N.leb_le _ _)) by lia.
Qed.

Lemma settled_later now now' d s o : (now <= now')%N → settled now d s o → settled now' d s o.
Proof.
  intros Hn [(owed & receipts & Hw & Hc) (Hwk & Hse & Hat) Hp Ht Hpo Hf1 Hf2 Hf3 Hex Hsa Hatt].
  split; try done.
  - exists owed, receipts. split; [done|]. destruct (s_phase s); try done;
      destruct Hc as (? & t & ? & ?); (split; [done|]); exists t; (split; [lia|done]).
  - split_and!; [done|done|]. intros t Hst. specialize (Hat t Hst). lia.
  - by eapply persist_later.
  - intros Hr. destruct (Hex Hr) as [? ?]. split; [done|by eapply fence_later].
Qed.

Lemma wf_later now now' d o : (now <= now')%N → wf now d o → wf now' d o.
Proof. intros Hn [Hs Hse]. split; [done|by eapply settled_later]. Qed.

(** ** The timers *)

Lemma fire_key_repeat_shape s u s' :
  fire_key_repeat s = (Ok u, s') → up_pending_action u = None ∧ (s_phase s ≠ Live → u = unchanged ∧ s' = s).
Proof.
  unfold fire_key_repeat, mbind at 1, stm_bind at 1, getS at 1.
  destruct (not_ready s) eqn:Hr; [by intros [= <- <-]|]. apply not_ready_false in Hr as [Hp _].
  intros Hf. split; [|done]. revert Hf. destruct (s_repeat_target s); [|by intros [= <- _]].
  destruct (s_bindings s !! _); [|by intros [= <- _]]. destruct (_ || _ || _); [by intros [= <- _]|].
  cbv zeta. destruct (_ && _).
  - intros (x1 & s1 & _ & Hf)%stm_bind_Ok. revert Hf. intros (x2 & s2 & _ & Hf)%stm_bind_Ok. revert Hf.
    intros (x3 & s3 & _ & Hf)%stm_bind_Ok. revert Hf. intros (x4 & s4 & _ & Hf)%stm_bind_Ok. by injection Hf as <- _.
  - intros (x1 & s1 & _ & Hf)%stm_bind_Ok. revert Hf. intros (x2 & s2 & _ & Hf)%stm_bind_Ok. by injection Hf as <- _.
Qed.

Lemma fire_key_repeat_faults : raises (λ e, event_fault e = true) fire_key_repeat.
Proof.
  assert (raises (λ e, event_fault e = true) (Session.snapshot : stm (Session (B:=B)) _ _)) as Hsn.
  { intros s e s'. unfold Session.snapshot. by repeat case_match. }
  assert (raises (λ e, event_fault e = true) (Session.publish false : stm (Session (B:=B)) _ _)) as Hpu.
  { intros s e s'. unfold Session.publish. by case_match. }
  assert (raises (λ e, event_fault e = true) (allocate_event_ticket : stm (Session (B:=B)) _ _)) as Hal.
  { intros s e s'. unfold allocate_event_ticket, allocate_ticket. repeat case_match; by intros [= <- _]. }
  assert (∀ A (f : B → result A BackendError * B), raises (λ e, event_fault e = true) (call_m Event_Backend f)) as Hca.
  { intros A f s e s'. unfold call_m. destruct (call f s) as [[a|x] s1]; [done|]. by intros [= <- _]. }
  unfold fire_key_repeat, submit_staged. walk; auto. intros s e s'. apply Hca.
Qed.

Lemma service_repeat_ok now d o k :
  wf now d o → safe (service_repeat k now) (λ _, wf now d) o.
Proof.
  intros [Hs Hse]. unfold service_repeat. apply wp_bind, wp_zoom, wp_of_result; [|by intros].
  intros expired _. destruct expired; [|apply wp_ret; by destruct o].
  apply wp_bind, wp_zoom. cbn [o_session].
  eapply wp_mono; [eapply wp_conj, fire_key_repeat_shape; eapply raises_wp;
    [apply fire_key_repeat_faults|by apply fire_key_repeat_ok]| |by intros e s' [_ ?]].
  intros u s' [(Hs' & Hm & Hpr) [Hn Hu]]. specialize (Hpr (sd_sane _ _ _ _ _ Hse)).
  apply (handle_session_update_ok now d (o_session o)); [by destruct Hse|].
  destruct (decide (s_phase (o_session o) = Live)) as [Hp|Hp].
  - apply ended_arrived; [done|done|by split|done].
  - destruct (Hu Hp) as [-> ->]. by apply arrived_unchanged.
Qed.

Lemma service_clock_ok now d o k :
  wf now d o → safe (service_clock k now) (λ _, wf now d) o.
Proof.
  intros [Hs Hse]. unfold service_clock. apply wp_bind, wp_zoom. unfold consume_clock.
  apply wp_bind, wp_of_result; [|by intros]. intros expired _.
  assert (∀ ts, repeat_timer ts = repeat_timer (o_timers o) → wf now d (o <| o_timers := ts |>)) as Hts.
  { intros ts Ht. split; [done|]. destruct Hse. split; try done. unfold timer_ok. cbn. by rewrite Ht. }
  destruct expired; [|apply wp_bind, wp_ret, wp_ret, wp_ret; by apply Hts].
  apply wp_bind. unfold wp at 1. pose proof (arm_next_clock_spec (timerfd_settime k) (wall_clock k) (o_timers o)) as Ha.
  destruct (arm_next_clock _ _ _) as [[[]|[e|]] ts]; [|done|done]. destruct Ha as (_ & Ht & _). apply wp_ret.
  destruct (Hts ts Ht) as [Hs' Hse']. eapply safe_bind; [eapply on_clock_ok; [exact Hse'|by apply tick_arrives]|].
  intros u o' [Hse2 Ha']. by eapply handle_session_update_ok.
Qed.

Lemma service_sampler_ok now d o k :
  wf now d o → safe (service_sampler k now) (λ _, wf now d) o.
Proof.
  intros Hw. unfold service_sampler. apply wp_getS. case_decide; [|by apply wp_ret].
  apply wp_bind, wp_of_result; [|intros e; destruct (latest_sample k); [done|by intros [= <-]]].
  intros sample _. destruct sample as [snapshot|]; [|by apply wp_ret].
  destruct Hw as [Hs Hse]. eapply safe_bind; [eapply on_clock_ok; [exact Hse|by apply accept_sampler_arrives]|].
  intros u o' [Hse' Ha']. by eapply handle_session_update_ok.
Qed.

(** ** The backend *)

Lemma settled_view now d s s' o : same_view s s' → settled now d s o → settled now d s' o.
Proof.
  intros [Hp Ho Hsh Ht Hb Ha] [Hc Hw Hpe Hti Hpo Hf1 Hf2 Hf3 Hex Hsa Hat].
  unfold timer_ok, repeats_sane in *. split; rewrite ?Hp, ?Ho, ?Hsh, ?Hb, ?Ha; try done.
  - unfold timer_ok. by rewrite Ht.
  - unfold repeats_sane. by rewrite Hb.
Qed.

Lemma settled_started now d s o : settled now d s o → starting (s_phase s) = false.
Proof. intros [(owed & receipts & _ & Hc) _ _ _ _ _ _ _ _ _ _]. by destruct (s_phase s). Qed.

Lemma untouched_view s s' : untouched s s' → same_view s s'.
Proof. intros [_ [Hp _ _] Ha _ _]. by apply same_view_private. Qed.

Lemma exit_completes now d s s1 o :
  settled now d s o → s_phase s = Exiting → same_view s s1 → settled now d (s1 <| s_phase := ExitComplete |>) o.
Proof.
  intros Hse Hp Hv. pose proof (settled_view _ _ _ _ _ Hv Hse) as [Hc Hw Hpe Hti Hpo Hf1 Hf2 Hf3 Hex Hsa Hat].
  assert (s_phase s1 = Exiting) as Hp1 by (rewrite <-Hp; apply Hv).
  rewrite Hp1 in *. unfold SessionInv.shown in Hpe. rewrite Hp1 in Hpe.
  split; cbn; try done; [|lia]. intros _. apply Hex. cbn. lia.
Qed.

Lemma service_backend_runtime now d o k ready :
  wf now d o → s_phase (o_session o) ≠ ExitComplete →
  safe (service_backend k now ready)
    (λ finished o', wf now d o' ∧ (finished = true → s_phase (o_session o') = ExitComplete)) o.
Proof.
  intros [Hs Hse] Hne. unfold service_backend. apply wp_getS.
  pose proof (settled_started _ _ _ _ Hse) as Hst.
  assert (∀ (finished : bool) s', session_wf s' → settled now d s' o → finished = false ∨ s_phase s' = ExitComplete →
    safe (mret finished) (λ (finished : bool) o', wf now d o' ∧ (finished = true → s_phase (o_session o') = ExitComplete))
      (o <| o_session := s' |>)) as Hret.
  { intros finished s' Hs' Hse' Hf. apply wp_ret. split; [split; [done|by apply settled_session]|].
    by destruct Hf as [->|]. }
  assert (safe (turn ← on_session RuntimeSession (backend_turn ready now);
    match turn with
    | TurnIdle | TurnProgressed => mret false
    | TurnUpdated update => _ ← handle_session_update k now update; mret false
    | TurnExitComplete => mret true
    end) (λ finished o', wf now d o' ∧ (finished = true → s_phase (o_session o') = ExitComplete)) o) as Hturn.
  { apply wp_bind, wp_zoom. eapply wp_mono; [by apply backend_turn_ok| |].
    2: { intros e s' (_ & _ & He). by rewrite decide_False in He. }
    intros turn s' (Hs' & _ & Ht). destruct turn as [| |u|]; cbn in Ht.
    - destruct Ht as [-> _]. apply Hret; [done|done|by left].
    - apply Hret; [done| |by left]. eapply settled_view; [by apply untouched_view|done].
    - destruct Ht as (Hq & Hn & s1 & Hu & Hm & Hpr).
      assert (s_phase (o_session o) = Live) as Hp by (by destruct (s_phase (o_session o))).
      apply (safe_bind _ _ (λ _, wf now d)); [|intros [] o' Hw; apply wp_ret; by split].
      apply (handle_session_update_ok now d (o_session o)); [by apply settled_session|].
      apply ended_arrived; [done|done| |done]. split; [done| |by eapply promised_after_untouched].
      pose proof Hu as [_ [Hpv Hk Htu] _ _ _]. eapply moves_after_private; [done|lia|done|done].
    - destruct Ht as (Hp & Hp' & s1 & Hu & ->). apply Hret; [done| |by right].
      eapply exit_completes; [done|done|by apply untouched_view]. }
  destruct (s_phase (o_session o)); try done;
    (apply wp_ret; split; [by split|done]).
Qed.
End steps.
