(* ===== verification/RuntimeServices.v ===== *)
(** * The daemon's owners: the worker, the quit and the control connections

    The services that need more than the session: the worker's results, the steps
    of a quit, and the requests of control connections. *)

From Stdlib Require Import ZArith Lia.
From stdpp Require Import prelude list gmap sorting.
From S2P Require Import Prelude Layout Ledger Projection Keys State Backend Snapshot Visible Authority Hoare AuthorityInv Session Reduce SessionInv Finalize Turns Actions BackendTurn Modules Timers Persistence Utf8 Ipc Control ControlInv ControlConn Worker WorkerSafety Server ServerConn ServerInv ServerOps ServerSafety Dispatch Runtime RuntimeControl Pipeline RuntimeInv RuntimeOps RuntimeSteps.

Section services.
Context {B : Type} `{WmBackend B}.
Context `{JsonErrors, !Wire Request, !Wire Response, !Wire Event}.
Context `{!WireText Response, !WireText Event, !ErrorsFit}.
Context (CARGO_PKG_VERSION : rstring).
Implicit Types (s : Session (B:=B)) (o : RuntimeOwners (B:=B)).

Abbreviation wf := (runtime_wf CARGO_PKG_VERSION).
Abbreviation settled := (settled CARGO_PKG_VERSION).

(** ** The worker *)

(** The worker and the coordinator may change while what they hold stays settled. *)
Lemma settled_worker now d s o w c :
  settled now d s o → worker_ok now (quitting (s_phase s)) w →
  persist_ok now (quitting (s_phase s)) (SessionInv.shown s) c w d →
  (fence_status now (o_worker o) ≠ FencePending → fence_status now w ≠ FencePending) →
  settled now d s (o <| o_worker := w |> <| o_persistence := c |>).
Proof. intros [? ? ? ? ? ? ? ? Hex ? ?] ? ? Hf. split; try done. intros Hr. destruct (Hex Hr). split; [done|by apply Hf]. Qed.

Lemma persist_moved now sealed latest c w w' d :
  unwritten w' = unwritten w → answers w' = answers w →
  persist_ok now sealed latest c w d → persist_ok now sealed latest c w' d.
Proof. intros Eu Ea [? ?]. split; [done|]. by eapply pipeline_moved. Qed.

Lemma persist_complete now sealed latest q x c c' w w' d res :
  answers w = (Some q, x) :: answers w' → unwritten w' = unwritten w →
  complete q (match x with Ok _ => Succeeded | Err _ => Failed end) now c = (res, c') →
  persist_ok now sealed latest c w d → res = Ok tt ∧ persist_ok now sealed latest c' w' d.
Proof.
  intros Ea Eu Hc [(saved & requests & Hw) Hp].
  destruct (pipeline_complete _ _ _ _ _ _ _ _ _ _ _ Ea Eu Hc Hp) as [-> Hp']. split; [done|]. split; [|done].
  eexists _, requests. eapply complete_ok; [exact Hw|done|exact Hc].
Qed.

Lemma fence_kept now w w' :
  sealed_at w' = sealed_at w → (fence_acknowledged w = true → fence_acknowledged w' = true) →
  fence_status now w ≠ FencePending → fence_status now w' ≠ FencePending.
Proof.
  intros Es Ef. unfold fence_status. rewrite Es. destruct (fence_acknowledged w); [by rewrite Ef|].
  by destruct (fence_acknowledged w').
Qed.

Lemma service_worker_ok now d o :
  wf now d o → safe (service_worker now) (λ _, wf now d) o.
Proof.
  intros [Hs Hse]. unfold service_worker. apply wp_bind, wp_zoom.
  destruct (sd_worker _ _ _ _ _ Hse) as (Hw & Hsl & Hst). pose proof (sd_persistence _ _ _ _ _ Hse) as Hp.
  unfold wp at 1. destruct (try_result (o_worker o)) as [x w'] eqn:E.
  destruct (try_result_ok (mk_run _ _ _ _) _ _ Hw E) as (Hw' & r & -> & _). cbn [sys reservations asked loading] in Hw'.
  pose proof (try_result_effect _ _ _ E) as (Eu & Es & Ea & Ef & Ep).
  assert (is_sealed w' = quitting (s_phase (o_session o))) as Hsl' by (unfold is_sealed in *; by rewrite Es).
  assert (∀ w2, run_wf (mk_run w2 [] false false) → sealed_at w2 = sealed_at w' → worker_ok now (quitting (s_phase (o_session o))) w2) as Hok.
  { intros w2 Hw2 Es2. split_and!; [done|unfold is_sealed in *; by rewrite Es2|]. rewrite Es2, Es. exact Hst. }
  assert (fence_acknowledged (o_worker o) = true → fence_acknowledged w' = true) as Hf
    by (intros Hf; rewrite Ef; by destruct r as [[]|]).
  assert (∀ c, run_wf (mk_run w' [] false false) →
    persist_ok now (quitting (s_phase (o_session o))) (SessionInv.shown (o_session o)) c w' d →
    wf now d (o <| o_worker := w' |> <| o_persistence := c |>)) as Hgo.
  { intros c Hw2 Hp2. split; [done|]. apply settled_worker; [done|by apply Hok|done|by apply fence_kept]. }
  assert (run_wf (mk_run w' [] false false) → answers (o_worker o) = answers w' → wf now d (o <| o_worker := w' |>)) as Hsame.
  { intros Hw2 Ea2. apply (Hgo (o_persistence o)); [done|]. by eapply persist_moved. }
  destruct r as [[loaded| |y|[q|] y|]|]; cbn [asked_after loading_after] in Hw'; cbn in Ea.
  - destruct (try_result_head _ _ _ E) as [rest Hr]. pose proof (uw_load _ Hw) as Hl.
    unfold load_wf in Hl. cbn in Hl. rewrite Hr, tally_cons in Hl. cbn in Hl. lia.
  - apply wp_zoom. unfold wp. change (o_worker (o <| o_worker := w' |>)) with w'. destruct (answer_snapshot_request w') as [x w2] eqn:E2.
    destruct (answer_ok _ _ _ _ Hw' E2) as (Hw2 & -> & job & Hj & _).
    destruct (answer_effect _ _ _ E2 Hj) as (Eu2 & Ea2 & Es2 & Ef2).
    split; [done|]. apply (settled_worker now d _ o w2 (o_persistence o)); [done|by apply Hok| |].
    + eapply persist_moved; [| |exact Hp]; congruence.
    + apply fence_kept; [congruence|]. rewrite Ef2. exact Hf.
  - by apply Hsame.
  - unfold complete_write. apply wp_bind. unfold step_persistence, wp at 1.
    change (o_persistence (o <| o_worker := w' |>)) with (o_persistence o).
    destruct (complete q _ now (o_persistence o)) as [res c'] eqn:Ec.
    destruct (persist_complete _ _ _ _ _ _ _ _ _ _ _ Ea Eu Ec Hp) as [-> Hp']. apply (Hgo c'); done.
  - apply (Hgo (o_persistence o)); [done|]. destruct Hp as [? Hp]. split; [done|]. by eapply pipeline_final_answer.
  - by apply Hsame.
  - by apply Hsame.
Qed.

(** ** Quitting *)

Lemma quit_closing now d o r :
  wf now d o → o_quit_receipt o = Some r → closing CARGO_PKG_VERSION now d o.
Proof.
  intros [Hs [(owed & receipts & Hw & Hc) Hwk Hp Ht Hpo Hf1 Hf2 Hf3 Hex Hsa Hat]] Hr. rewrite Hr in Hc.
  assert (s_phase (o_session o) = PhaseQuitPending) as Hph
    by (destruct (s_phase (o_session o)); try done; first [by destruct Hc as (_ & ? & _)|by destruct Hc]).
  rewrite Hph in *. destruct Hc as [Hsd _].
  split; try done; [by eexists _, _|]. apply Hat. cbn. lia.
Qed.

Lemma exit_session_ok s :
  session_wf s → s_phase s = Authority.ShuttingDown → s_exit_attempted s = false →
  wp begin_exit_session
    (λ _ s', session_wf s' ∧ s_phase s' = Exiting ∧ SessionInv.shown s' = SessionInv.shown s
       ∧ s_repeat_target s' = s_repeat_target s ∧ s_bindings s' = s_bindings s)
    (λ e _, ∃ b, e = Event_Backend b) s.
Proof.
  intros Hs Hp Ha. unfold begin_exit_session. apply wp_getS. rewrite Ha, bool_decide_false by (intros Hn; by apply Hn).
  apply wp_modify, wp_bind, wp_call_m; [|by intros e; exists e]. intros u b _. cbv beta. unfold wp. cbn [modify].
  edestruct (late_phase_ok s (s <| s_backend := b |> <| s_exit_attempted := true |> <| s_phase := Exiting |>)
    Exiting true) as [? _]; [done|by left|rewrite Hp; cbn; lia|by exists b|by right|].
  split_and!; try done. unfold SessionInv.shown. cbn. by rewrite Hp.
Qed.

Lemma try_exit_exits now d o :
  wf now d o →
  wp (if o_shutdown_started o && negb (o_exit_started o) && is_shutdown_complete (o_control o)
          && match fence_status now (o_worker o) with FencePending => false | _ => true end
        then _ ← on_session RuntimeSession begin_exit_session; modify (λ o, o <| o_exit_started := true |>)
        else mret tt)
    (λ _ o', wf now d o' ∧ (s_phase (o_session o') = s_phase (o_session o) ∨ s_phase (o_session o') = Exiting))
    (λ e _, ∃ b, e = RuntimeSession (Event_Backend b)) o.
Proof.
  intros Hw. destruct (_ && _) eqn:Hg; [|apply wp_ret; split; [done|by left]].
  apply andb_true_iff in Hg as [[[Hst Hex%negb_true_iff]%andb_true_iff Hco]%andb_true_iff Hfe].
  destruct Hw as [Hs [(owed & receipts & Hw & Hc) Hwk Hp Ht Hpo Hf1 Hf2 Hf3 Hexd Hsa Hat]].
  assert (s_phase (o_session o) = Authority.ShuttingDown) as Hph.
  { rewrite Hf2 in Hst. rewrite Hf3 in Hex. by destruct (s_phase (o_session o)). }
  rewrite Hph in *. apply wp_bind, wp_zoom. eapply wp_mono; [apply exit_session_ok; [done|done|apply Hat; cbn; lia]| |by intros e s' [b ->]; exists b].
  intros [] s' (Hs' & Hp' & Hsh & Htg & Hbi).
  unfold wp; cbn [modify]. split; [|right; exact Hp']. split; [done|]. split; cbn; rewrite ?Hp', ?Hsh; try done.
  - by exists owed, receipts.
  - unfold timer_ok in *. cbn. by rewrite Htg.
  - intros _. split; [done|]. by destruct (fence_status now (o_worker o)).
  - unfold repeats_sane. rewrite Hbi. exact Hsa.
  - cbn. lia.
Qed.

Lemma advance_shutdown_ok now d o k :
  wf now d o → safe (advance_shutdown k now) (λ _, wf now d) o.
Proof.
  intros Hw. unfold advance_shutdown. apply wp_getS.
  apply (safe_bind _ _ (λ _, wf now d)).
  2: { intros [] o' Hw'. apply wp_getS. eapply wp_mono; [by apply (try_exit_exits now d)|by intros _ o2 [? _]|by intros e o2 [b ->]]. }
  destruct (o_quit_receipt o) as [r|] eqn:Hr; [|by apply wp_ret].
  destruct (negb _); [|by apply wp_ret]. eapply begin_shutdown_runtime, quit_closing; done.
Qed.

(** ** Snapshots that are due, and deadlines *)

(** It panics only when the sequence numbers are used up. *)
Definition sequence_left o : Prop := (next_sequence (o_persistence o) < u64_max)%N.

Lemma take_due_exhausted now c : take_due now c = None → (u64_max <= next_sequence c)%N.
Proof.
  unfold take_due. destruct (in_flight c); [done|]. destruct (dirty c); [|done]. destruct (_ <? _)%N; [done|].
  unfold u64_checked_add, mbind, option_bind. destruct (N.leb_spec (next_sequence c + 1) u64_max); [done|lia].
Qed.

Lemma submit_due_ok now d o :
  wf now d o →
  match submit_due_snapshot now o with
  | (Ok _, o') => wf now d o'
  | (Err (Raise e), _) => runtime_cause e = true
  | (Err Panic, _) => ¬ sequence_left o
  end.
Proof.
  intros [Hs Hse]. unfold submit_due_snapshot, mbind at 1, stm_bind at 1, getS at 1. rewrite (sd_sealed _ _ _ _ _ Hse).
  destruct (quitting (s_phase (o_session o))) eqn:Hq; [done|].
  pose proof (sd_persistence _ _ _ _ _ Hse) as [(saved & requests & Hpw) Hp]. rewrite Hq in Hp.
  pose proof (sd_worker _ _ _ _ _ Hse) as (Hw & Hsl & Hst). rewrite Hq in Hsl.
  destruct (take_due now (o_persistence o)) as [[due c]|] eqn:Ed.
  2: { apply take_due_exhausted in Ed. unfold mbind, stm_bind, expect, sequence_left. cbn. lia. }
  pose proof (take_due_ok _ _ _ _ _ _ _ _ Hpw (N.le_refl now) Ed) as Hpw'.
  unfold mbind, stm_bind, expect. destruct due as [r|]; cbn.
  - unfold on_worker, zoom. change (o_worker (o <| o_persistence := c |>)) with (o_worker o).
    destruct (submit_snapshot _ _ (o_worker o)) as [x w'] eqn:Es.
    destruct (submit_ok _ _ _ _ _ _ Hw Es) as (Hw' & [->|[_ ?]]); [|congruence].
    pose proof (submit_effect _ _ _ Es) as (_ & _ & _ & _ & Esl & Ef).
    split; [done|]. apply (settled_worker now d (o_session o) o w' c); [done|rewrite Hq..|].
    + split_and!; [done|unfold is_sealed in *; by rewrite Esl|by rewrite Esl].
    + split; [by eexists _, _|]. by eapply pipeline_submit.
    + apply fence_kept; [done|by rewrite Ef].
  - apply take_due_nothing in Ed as ->. by destruct o.
Qed.

Lemma complete_kept c c' : (∀ d, shut d c → shut d c') → is_shutdown_complete c = true → is_shutdown_complete c' = true.
Proof.
  unfold is_shutdown_complete. intros Hsh [Hs He%bool_decide_eq_true]%andb_true_iff.
  assert (∀ d, shut d c) as Hc by (intros d; split; [done|intros id c0 Hc0; by rewrite He, lookup_empty in Hc0]).
  apply andb_true_iff. split; [apply (Hsh 0%N), Hc|]. apply bool_decide_eq_true, map_empty. intros id.
  destruct (connections c' !! id) as [c0|] eqn:Hc0; [|done].
  destruct (proj2 (Hsh 0%N (Hc _)) id c0 Hc0) as [_ E0]. destruct (proj2 (Hsh 1%N (Hc _)) id c0 Hc0) as [_ E1]. congruence.
Qed.

(** The server may change while it stays as open as it was. *)
Lemma settled_control now d s o c owed receipts :
  settled now d s o → control_phase (s_phase s) (o_pending_request o) (o_quit_receipt o) now owed (o_control o) →
  server_wf CARGO_PKG_VERSION owed receipts c → steady (o_control o) c → (∀ dl, shut dl (o_control o) → shut dl c) →
  settled now d s (o <| o_control := c |>).
Proof.
  intros [_ Hwk Hp Ht Hpo Hf1 Hf2 Hf3 Hexd Hsa Hat] Hc Hw Hst Hsh. split; try done.
  - exists owed, receipts. split; [done|]. by eapply control_phase_kept.
  - intros Hr. destruct (Hexd Hr). split; [|done]. by eapply complete_kept.
Qed.

Lemma expire_control_ok now d o : wf now d o → safe (expire_control now) (λ _, wf now d) o.
Proof.
  intros [Hs Hse]. unfold expire_control. split; [done|].
  destruct (sd_control _ _ _ _ _ Hse) as (owed & receipts & Hw & Hc).
  eapply settled_control; [done|exact Hc|by apply expire_wf|apply steady_expire|]. intros dl. apply shut_expire.
Qed.

(** ** Control connections *)

(** A step that leaves the snapshot and the repeat alone keeps the books. *)
Lemma balanced_same s s' b :
  s_bindings s' = s_bindings s → s_repeat_target s' = s_repeat_target s → SessionInv.shown s' = SessionInv.shown s →
  s_exit_attempted s' = s_exit_attempted s → balanced s b → balanced s' b.
Proof.
  intros Hb Ht Hs Ha [? Har Hsh Hsa ?]. split; [done|..|congruence].
  - rewrite Har. unfold repeating. by rewrite Ht.
  - by rewrite Hsh.
  - unfold repeats_sane. by rewrite Hb.
Qed.

Section admitted.
Context (now : N) (d : Disk) (o : RuntimeOwners (B:=B)) (id : N) (request : Request).
Context (owed : gmap N Request) (receipts : list ResponseReceipt).
Abbreviation before := (o_session o).
Abbreviation books := (mk_books B before (o_pending_request o) (SessionInv.shown before) (repeating before) [] (<[id := request]> owed) receipts).
Context (Hs : session_wf before) (Hlive : s_phase before = Live).
Context (Hopen : open_books CARGO_PKG_VERSION now d books o) (Hba : balanced before books).
Context (Hnew : owed !! id = None) (Howes : owes (o_pending_request o) owed).
Context (Hpo : fst <$> o_pending_request o = SessionInv.owner before).

Lemma open_session s' : open_books CARGO_PKG_VERSION now d (books <| b_session := s' |>) (o <| o_session := s' |>).
Proof. by destruct Hopen. Qed.

Lemma immediate_answer_ok k s' response u :
  request ≠ ReqSubscribe → session_wf s' → moves u before s' → promised u before s' → prompt u → up_pending_action u = None →
  safe (apply_update k now u (Some (id, response))) (λ _, wf now d) (o <| o_session := s' |>).
Proof.
  intros Hns Hs' Hm Hpr Hpt Hn.
  eapply (apply_update_ok _ now d (books <| b_session := s' |>)); [apply open_session|by apply ended_reported|..]; cbn.
  - by destruct Hba.
  - intros _. destruct Hpr as [Ho _ _ _]. rewrite (pr_completion _ Hpt), Hn in Ho. by rewrite Ho.
  - intros id' response' [= <- <-]. exists request. split; [apply lookup_insert_eq|done].
  - by rewrite delete_insert_id.
Qed.

Lemma subscribe_ok state :
  request = ReqSubscribe → safe (subscribe_connection now id state) (λ _, wf now d) o.
Proof.
  intros Hr. unfold subscribe_connection. destruct Hopen as [? ? (Hw & Hsd & Hb) ? ? ? ?].
  assert (∀ c, server_wf CARGO_PKG_VERSION (delete id (<[id := request]> owed)) receipts c → steady (o_control o) c →
    wf now d (o <| o_control := c |>)) as Hgo.
  { intros c Hc [Hsd' Hb']. eapply (open_books_live _ _ _ (books <| b_owed := owed |>)); cbn; try done.
    - split; try done. cbn. rewrite delete_insert_id in Hc by done. by rewrite Hsd', Hb'.
    - by destruct Hba. }
  apply wp_bind, wp_zoom, wp_attempt.
  eapply wp_mono; [apply (wp_subscribe CARGO_PKG_VERSION (<[id := request]> owed) receipts); [exact Hw|rewrite <-Hr; apply lookup_insert_eq|done]| |].
  - intros _ c [Hc Hst]. apply wp_ret. by apply Hgo.
  - intros e c [[Hc Hst] He]. rewrite He. apply wp_ret. by apply Hgo.
Qed.

Lemma admit_pending_ok s' ticket :
  request ≠ ReqSubscribe → session_wf s' → moves unchanged before s' →
  promised (unchanged <| up_pending_action := Some ticket |>) before s' →
  safe (admit_pending ticket id) (λ _, wf now d) (o <| o_session := s' |>).
Proof.
  intros Hns Hs' Hm [[Hnone Hsome] Hq _ Hsh]. unfold admit_pending. apply wp_getS, wp_modify. cbn [o_pending_request].
  change (o_pending_request (o <| o_session := s' |>)) with (o_pending_request o).
  rewrite Hnone in Hpo. destruct (o_pending_request o) as [p|] eqn:Hp; [done|]. apply wp_ret.
  assert (s_phase s' = Live) as Hlive'.
  { pose proof (mv_phase _ _ _ Hm) as Hph. cbn in Hq. rewrite Hlive in Hq, Hph. destruct (s_phase s'); cbn in *; (done || lia). }
  eapply (open_books_live _ _ _ (books <| b_session := s' |> <| b_pending := Some (ticket, id) |>)); cbn; try done.
  - by destruct Hopen.
  - apply (balanced_same before); [by destruct Hm..|exact Hsh| |by destruct Hba].
    destruct (mv_exit _ _ _ Hm) as [?|[_ ?]]; [done|congruence].
  - exists request. unfold owes in Howes. by rewrite Howes.
Qed.

Lemma quit_ok k s' :
  request = ReqQuit → session_wf s' → moves direct_quit before s' → s_phase s' = PhaseQuitPending →
  ledger_snapshot s' = ledger_snapshot before →
  safe (apply_update k now direct_quit (Some (id, RespOk))) (λ _, wf now d) (o <| o_session := s' |>).
Proof.
  intros Hr Hs' Hm Hq Hl.
  eapply (apply_update_ok _ now d (books <| b_session := s' |>) _ _ _ before); [apply open_session| |by destruct Hba|..]; cbn.
  - destruct Hm as [? ? ? ? Hex ? ? ?]. split; try done.
    + unfold SessionInv.shown. by rewrite Hq, Hl, Hlive.
    + destruct Hex as [?|[_ ?]]; [done|congruence].
  - congruence.
  - intros id' response' [= <- <-]. exists request. split; [apply lookup_insert_eq|by rewrite Hr].
  - by rewrite delete_insert_id.
Qed.

Lemma handle_control_action_ok k :
  safe (handle_control_action CARGO_PKG_VERSION k now (ControlRequest id request)) (λ _, wf now d) o.
Proof.
  unfold handle_control_action. apply wp_getS, wp_bind, wp_zoom.
  eapply wp_mono; [by apply dispatch_request_ok| |by intros e s' (a & -> & ?)].
  intros [response u|state|ticket|u] s' [Hs' Hd].
  - destruct Hd as (? & ? & ? & ? & ?). by apply immediate_answer_ok.
  - destruct Hd as (Hr & -> & ->). replace (o <| o_session := before |>) with o by (by destruct o). by apply subscribe_ok.
  - destruct Hd as (? & ? & ?). by apply admit_pending_ok.
  - destruct Hd as (? & ? & -> & ? & ?). by apply quit_ok.
Qed.
End admitted.

Lemma service_control_ok now d o k ready :
  sockets_ok (sockets k) → wf now d o → safe (service_control CARGO_PKG_VERSION k now ready) (λ _, wf now d) o.
Proof.
  intros Hio [Hs Hse]. unfold service_control.
  destruct (sd_control _ _ _ _ _ Hse) as (owed & receipts & Hw & Hc).
  apply wp_bind, wp_zoom, wp_attempt. eapply wp_mono; [by apply wp_service| |].
  - intros [[id request]|] c (Hw' & [Hsd Hb] & Hh & Hsh); [|apply wp_ret; split; [done|by eapply settled_control]].
    destruct Hh as (Hnew & Hsd' & Hb'). cbn [owed_after] in Hw'.
    assert (s_phase (o_session o) = Live) as Hlive.
    { destruct (s_phase (o_session o)); try done.
      - destruct Hc as (_ & r & _ & Hr). congruence.
      - destruct Hc as (_ & t & _ & Hr & _). congruence.
      - destruct Hc as (_ & t & _ & Hr & _). congruence.
      - destruct Hc as (_ & t & _ & Hr & _). congruence. }
    rewrite Hlive in Hc. destruct Hc as (Ho & _).
    destruct (live_open_books _ _ _ _ _ Hse Hlive) as (owed' & receipts' & [? ? _ ? ? ? ?] & Hba & _ & Hpo).
    eapply (handle_control_action_ok now d (o <| o_control := c |>) id request owed receipts); try done.
    by destruct Hba.
  - intros e c (Hw' & Hst & He & Hsh). destruct e; try done; apply wp_ret. split; [done|by eapply settled_control].
Qed.
End services.
