(* ===== verification/RuntimeSafety.v ===== *)
(** * The daemon: what every run guarantees

    The owners and the worker thread as a step relation: the event loop makes one
    service call at a time, at instants that never go back, and the thread moves
    between calls.  One turn of the loop is such a sequence of calls. *)

From Stdlib Require Import ZArith Lia.
From stdpp Require Import prelude list gmap sorting.
From S2P Require Import Prelude Layout Ledger Projection Keys State Backend Snapshot Visible Authority Hoare AuthorityInv Session Reduce SessionInv Finalize Turns Actions SessionSafety BackendTurn Modules Timers Persistence Utf8 Ipc Control ControlInv ControlConn Worker WorkerSafety Server ServerConn ServerInv ServerOps ServerSafety Dispatch Runtime RuntimeControl Pipeline RuntimeInv RuntimeOps RuntimeSteps RuntimeServices.

(** ** The calls of the event loop *)

Inductive Call :=
| CallExpireControl | CallSubmitDue | CallAdvance | CallServiceBackend (ready : BackendReady)
| CallRepeat | CallClock | CallSampler | CallWorker | CallControl (ready : ReadyEvent).

(** The daemon, the file, and the last instant. *)
Record Daemon {B : Type} := mk_daemon {
  owners : RuntimeOwners (B:=B);
  file : Disk;
  instant : N
}.

Section runs.
Context {B : Type} `{WmBackend B}.
Context `{JsonErrors, !Wire Request, !Wire Response, !Wire Event}.
Context (CARGO_PKG_VERSION : rstring).
Implicit Types (s : Session (B:=B)) (o : RuntimeOwners (B:=B)) (w : Daemon (B:=B)).

Abbreviation runtime_m A := (stm (RuntimeOwners (B:=B)) (failure RuntimeError) A).

Definition run_call (k : Kernel) (now : N) (c : Call) : runtime_m unit :=
  match c with
  | CallExpireControl => expire_control now
  | CallSubmitDue => submit_due_snapshot now
  | CallAdvance => advance_shutdown k now
  | CallServiceBackend ready => _ ← service_backend k now ready; mret tt
  | CallRepeat => service_repeat k now
  | CallClock => service_clock k now
  | CallSampler => service_sampler k now
  | CallWorker => service_worker now
  | CallControl ready => service_control CARGO_PKG_VERSION k now ready
  end.

(** The loop services the backend only while it polls it. *)
Definition callable o (c : Call) : Prop :=
  match c with CallServiceBackend _ => backend_enabled (s_phase (o_session o)) = true | _ => True end.

Inductive daemon_step : Daemon (B:=B) → Daemon (B:=B) → Prop :=
| StepCall k now c w o' :
    (instant w <= now)%N → sockets_ok (sockets k) → callable (owners w) c →
    run_call k now c (owners w) = (Ok tt, o') → daemon_step w (mk_daemon B o' (file w) now)
| StepWorkerThread w x :
    thread_step (o_worker (owners w)) x →
    daemon_step w (mk_daemon B (owners w <| o_worker := x |>) (disk_after (o_worker (owners w)) x (file w)) (instant w)).

(** A daemon as the event loop finds it: a live session that repeats no key, a new
    server, a worker whose start-up read came back, and the coordinator holding the
    session's snapshot. *)
Record launched w : Prop := {
  la_owners : ∃ session listener worker timers clock persistence started_at,
    owners w = RuntimeOwners_new session (Server.new listener) worker timers clock persistence started_at;
  la_session : session_wf (o_session (owners w)) ∧ s_phase (o_session (owners w)) = Live
    ∧ SessionInv.owner (o_session (owners w)) = None ∧ s_repeat_target (o_session (owners w)) = None
    ∧ s_exit_attempted (o_session (owners w)) = false ∧ repeats_sane (o_session (owners w));
  la_worker : run_wf (mk_run (o_worker (owners w)) [] false false) ∧ is_sealed (o_worker (owners w)) = false;
  la_timers : timer_armed (repeat_timer (o_timers (owners w))) = false;
  la_persistence : persist_ok (instant w) false (SessionInv.shown (o_session (owners w)))
    (o_persistence (owners w)) (o_worker (owners w)) (file w)
}.

Context `{!WireText Response, !WireText Event, !ErrorsFit}.

Definition daemon_wf w : Prop := runtime_wf CARGO_PKG_VERSION (instant w) (file w) (owners w).

Lemma launched_wf w : launched w → daemon_wf w.
Proof.
  intros [(session & listener & worker & timers & clock & persistence & started_at & E)
    (Hs & Hl & Ho & Ht & Ha & Hr) [Hw Hse] Hti Hp].
  split; [done|]. rewrite E in *. cbn in *. split; cbn; rewrite ?Hl; try done.
  - exists ∅, []. split; [apply new_server_wf|done].
  - split_and!; [done|done|]. intros t Hst. unfold is_sealed in Hse. by rewrite Hst in Hse.
  - unfold timer_ok. by rewrite Hti, Ht.
  - cbn. lia.
Qed.

(** Every call is safe, but for the sequence numbers of the snapshots. *)
Lemma call_ok k now c w :
  daemon_wf w → (instant w <= now)%N → sockets_ok (sockets k) → callable (owners w) c →
  match run_call k now c (owners w) with
  | (Ok _, o') => runtime_wf CARGO_PKG_VERSION now (file w) o'
  | (Err (Raise e), _) => runtime_cause e = true
  | (Err Panic, _) => c = CallSubmitDue ∧ ¬ sequence_left (owners w)
  end.
Proof.
  intros Hw Hn Hio Hc. eapply wf_later in Hw; [|exact Hn].
  assert (∀ m : runtime_m unit, safe m (λ _, runtime_wf CARGO_PKG_VERSION now (file w)) (owners w) →
    match m (owners w) with
    | (Ok _, o') => runtime_wf CARGO_PKG_VERSION now (file w) o'
    | (Err (Raise e), _) => runtime_cause e = true
    | (Err Panic, _) => c = CallSubmitDue ∧ ¬ sequence_left (owners w)
    end) as Hs.
  { intros m. unfold safe, wp. by destruct (m (owners w)) as [[|[]] ?]. }
  destruct c; cbn [run_call].
  - by apply Hs, expire_control_ok.
  - pose proof (submit_due_ok _ _ _ _ Hw) as Hsd. by destruct (submit_due_snapshot _ _) as [[|[]] ?].
  - by apply Hs, advance_shutdown_ok.
  - apply Hs. eapply safe_bind; [apply (service_backend_runtime CARGO_PKG_VERSION now (file w)); [done|]|by intros f o' [? _]].
    intros Hp. cbn in Hc. by rewrite Hp in Hc.
  - by apply Hs, service_repeat_ok.
  - by apply Hs, service_clock_ok.
  - by apply Hs, service_sampler_ok.
  - by apply Hs, service_worker_ok.
  - by apply Hs, service_control_ok.
Qed.

Lemma thread_keeps w x :
  daemon_wf w → thread_step (o_worker (owners w)) x →
  daemon_wf (mk_daemon B (owners w <| o_worker := x |>) (disk_after (o_worker (owners w)) x (file w)) (instant w)).
Proof.
  intros [Hs [Hc (Hw & Hse & Hat) [Hpw Hp] Ht Hpo Hf1 Hf2 Hf3 Hex Hsa Hatt]] Hst.
  destruct (thread_seal _ _ Hst) as [Es Ef]. split; [done|]. split; cbn; try done.
  - split_and!; [by eapply thread_ok|unfold is_sealed in *; by rewrite Es|by rewrite Es].
  - split; [done|]. by eapply pipeline_thread.
  - intros Hr. destruct (Hex Hr). split; [done|]. by apply (fence_kept _ (o_worker (owners w))); [|rewrite Ef|].
Qed.

Lemma daemon_step_wf w w' : daemon_step w w' → daemon_wf w → daemon_wf w'.
Proof.
  destruct 1 as [k now c w o' Hn Hio Hc Hr|w x Hst]; intros Hw; [|by apply thread_keeps].
  pose proof (call_ok k now c w Hw Hn Hio Hc) as Hok. by rewrite Hr in Hok.
Qed.

Lemma daemon_steps_wf w0 w : rtc daemon_step w0 w → daemon_wf w0 → daemon_wf w.
Proof. induction 1 as [|w1 w2 w3 Hst _ IH]; [done|]. intros Hw. by apply IH, (daemon_step_wf w1). Qed.

Lemma daemon_reachable w0 w : launched w0 → rtc daemon_step w0 w → daemon_wf w.
Proof.
  intros Hl%launched_wf Hr. by eapply daemon_steps_wf.
Qed.

(** ** A turn of the loop *)

Section turn.
Context (w0 : Daemon (B:=B)) (k : Kernel) (clock : nat → N).
Context (Hwf : daemon_wf w0) (Hio : sockets_ok (sockets k)).
Context (Hstart : (instant w0 <= clock 0)%N) (Hclock : ∀ i, (clock i <= clock (S i))%N).

Lemma clock_le i j : i ≤ j → (clock i <= clock j)%N.
Proof. induction 1 as [|j _ IH]; [lia|]. specialize (Hclock j). lia. Qed.

(** What calls up to the [i]-th instant of the turn have led to. *)
Definition reached (i : nat) o : Prop :=
  ∃ t, (instant w0 <= t <= clock i)%N ∧ rtc daemon_step w0 (mk_daemon B o (file w0) t).

Lemma reached_later i j o : i ≤ j → reached i o → reached j o.
Proof. intros Hij (t & Ht & Hr). exists t. split; [|done]. pose proof (clock_le i j Hij). lia. Qed.

Lemma reached_start : reached 0 (owners w0).
Proof. exists (instant w0). split; [lia|]. by destruct w0. Qed.

Lemma reached_call i c o o' :
  reached i o → callable o c → run_call k (clock i) c o = (Ok tt, o') → reached i o'.
Proof.
  intros (t & Ht & Hr) Hc Hrun. exists (clock i). split; [lia|].
  eapply rtc_r; [exact Hr|]. eapply (StepCall k (clock i) c (mk_daemon B o (file w0) t)); try done. cbn. lia.
Qed.

Lemma reached_wf i o : reached i o → runtime_wf CARGO_PKG_VERSION (clock i) (file w0) o.
Proof.
  intros (t & Ht & Hr). apply (wf_later CARGO_PKG_VERSION t); [lia|].
  apply (daemon_steps_wf _ _ Hr Hwf).
Qed.

Lemma turn_call i c o :
  reached i o → callable o c → (c = CallSubmitDue → sequence_left o) →
  safe (run_call k (clock i) c) (λ _, reached i) o.
Proof.
  intros Hr Hc Hseq. pose proof (call_ok k (clock i) c (mk_daemon B o (file w0) (clock i))) as Hok.
  specialize (Hok (reached_wf i o Hr) (N.le_refl _) Hio Hc). cbn [owners file] in Hok. unfold safe, wp.
  destruct (run_call k (clock i) c o) as [[[]|[e|]] o'] eqn:E; [by eapply reached_call|done|].
  destruct Hok as [-> Hn]. by apply Hn, Hseq.
Qed.

Lemma turn_when i j (b : bool) c o :
  i ≤ j → reached i o → callable o c → c ≠ CallSubmitDue →
  safe (when b (run_call k (clock j) c)) (λ _, reached j) o.
Proof.
  intros Hij Hr Hc Hne. apply (reached_later _ j) in Hr; [|done].
  destruct b; [by apply turn_call|by apply wp_ret].
Qed.

Lemma validate_cause f e : validate_poll_events f = Err e → runtime_cause e = true.
Proof. unfold validate_poll_events. destruct (ev_nval f); [by intros [= <-]|done]. Qed.

Lemma service_ready_ok ready o :
  reached 1 o → safe (service_ready CARGO_PKG_VERSION k clock ready) (λ _, reached 7) o.
Proof.
  intros Hr. unfold service_ready. cbv zeta.
  eapply safe_bind; [by apply (turn_when 1 2 _ CallRepeat); auto|]. intros [] o2 Hr2.
  eapply safe_bind; [by apply (turn_when 2 3 _ CallClock); auto|]. intros [] o3 Hr3.
  eapply safe_bind; [by apply (turn_when 3 4 _ CallSampler); auto|]. intros [] o4 Hr4.
  apply wp_getS. eapply safe_bind; [by apply (turn_when 4 5 _ CallWorker); auto|]. intros [] o5 Hr5.
  eapply (safe_bind _ _ (λ _, reached 6)).
  - apply (reached_later _ 6) in Hr5; [|lia]. destruct (first_control ready) as [[token f]|]; [|by apply wp_ret].
    apply wp_bind, wp_of_result; [intros _ _|apply validate_cause].
    by apply (turn_call 6 (CallControl _)).
  - intros [] o6 Hr6. apply (reached_later _ 7) in Hr6; [|lia]. by apply (turn_call 7 CallAdvance).
Qed.

Lemma turn_backend r o :
  reached 1 o → backend_enabled (s_phase (o_session o)) = true →
  safe (service_backend k (clock 1) r)
    (λ finished o', reached 1 o' ∧ (finished = true → s_phase (o_session o') = ExitComplete)) o.
Proof.
  intros Hr He. eapply wp_mono; [apply wp_traced, (service_backend_runtime CARGO_PKG_VERSION (clock 1) (file w0))| |by intros e o' [? _]].
  - by apply reached_wf.
  - intros Hp. by rewrite Hp in He.
  - intros finished o' [[_ Hf] Hrun]. split; [|done].
    eapply (reached_call 1 (CallServiceBackend r)); [done|done|]. cbn. unfold mbind, stm_bind. by rewrite Hrun.
Qed.

Lemma poll_timeout_cause b d now e : poll_timeout b d now = Err e → runtime_cause e = true.
Proof.
  unfold poll_timeout. destruct b; [done|]. destruct d as [d|]; [|done]. unfold timespec.
  destruct (_ <=? _)%Z; cbn; [done|by intros [= <-]].
Qed.

Lemma loop_turn_ok poll :
  sequence_left (owners w0) →
  safe (loop_turn CARGO_PKG_VERSION k clock poll)
    (λ finished o', reached 7 o' ∧ (finished = true → s_phase (o_session o') = ExitComplete)) (owners w0).
Proof.
  intros Hseq. unfold loop_turn. cbv zeta. pose proof reached_start as Hr.
  eapply (safe_bind _ _ (λ _ o, reached 0 o ∧ sequence_left o)).
  { eapply wp_mono; [apply wp_traced, (turn_call 0 CallExpireControl); [done|done|done]| |by intros e o' [? _]].
    intros [] o' [Hr' [= <-]]. by split. }
  intros [] o1 [Hr1 Hs1]. eapply safe_bind; [by apply (turn_call 0 CallSubmitDue)|]. intros [] o2 Hr2.
  eapply safe_bind; [by apply (turn_call 0 CallAdvance)|]. intros [] o Hr3. apply wp_getS.
  apply wp_bind, wp_of_result; [intros timeout _|intros e; apply poll_timeout_cause].
  apply wp_bind, wp_of_result; [intros events _|intros e; destruct (poll _ _); cbn; [done|by intros [= <-]]].
  set (ready := ready_sources _ _).
  assert (∀ f e, backend_ready f = Err e → runtime_cause e = true) as Hbr.
  { intros f e. unfold backend_ready. destruct (validate_poll_events f) as [|e'] eqn:E; cbn; [done|].
    intros [= <-]. by eapply validate_cause. }
  eapply (safe_bind _ _ (λ _ o', o' = o)).
  { destruct (ready_for ready PollBackend) as [f|]; [|by apply wp_ret]. destruct (immediate _); [by apply wp_ret|].
    apply wp_of_result; [by intros|apply Hbr]. }
  intros r _ ->. apply (reached_later _ 1) in Hr3; [|lia].
  destruct (backend_quantum_due _ _ _) eqn:Hd.
  - apply andb_true_iff in Hd as [He _]. eapply safe_bind; [by apply turn_backend|].
    intros [] o4 [Hr4 Hf]; [apply wp_ret; split; [by apply (reached_later 1); [lia|]|by apply Hf]|].
    apply wp_getS. destruct (immediate _); [apply wp_ret; split; [by apply (reached_later 1); [lia|]|done]|].
    eapply safe_bind; [by apply service_ready_ok|]. intros [] o5 Hr5. by apply wp_ret.
  - eapply safe_bind; [by apply service_ready_ok|]. intros [] o5 Hr5. by apply wp_ret.
Qed.
End turn.

(** ** Theorems *)

(** C3. The daemon fails only for a cause, and a turn of its loop is a run of single
    services.  From every state a launched daemon reaches, whatever the kernel, the
    peers, the backend, the poll and the worker thread do, a turn of the loop never
    panics while snapshot numbers are left; it succeeds by service calls at instants
    of the turn, and returns only once the exit is complete; and when it fails, the
    error is the backend's or its events', an action the backend cannot carry out,
    too many children, the operating system's, or the listener's: none of the
    daemon's own invariants, and no error of one peer. *)
Theorem daemon_fails_only_for_cause w0 w k (clock : nat → N) poll :
  launched w0 → rtc daemon_step w0 w → sockets_ok (sockets k) → sequence_left (owners w) →
  (instant w <= clock 0%nat)%N → (∀ i, (clock i <= clock (S i))%N) →
  match loop_turn CARGO_PKG_VERSION k clock poll (owners w) with
  | (Ok finished, o') =>
      (finished = true → s_phase (o_session o') = ExitComplete)
      ∧ ∃ t, (instant w <= t <= clock 7%nat)%N ∧ rtc daemon_step w (mk_daemon B o' (file w) t)
  | (Err (Raise e), _) => runtime_cause e = true
  | (Err Panic, _) => False
  end.
Proof.
  intros Hl Hr Hio Hseq Hs Hc. pose proof (daemon_reachable _ _ Hl Hr) as Hw.
  pose proof (loop_turn_ok w k clock Hw Hio Hs Hc poll Hseq) as Ht. unfold safe, wp in Ht.
  destruct (loop_turn _ _ _ _ _) as [[f|[e|]] o']; [|done|done]. destruct Ht as [Hre Hf]. by split.
Qed.

(** C6. Nobody waits in vain.  In a live daemon every connection whose request is not
    answered yet is the one requester of the action the backend is working on, which
    the daemon remembers under the ticket the session waits for; and while the
    session has no such action, no connection waits. *)
Theorem nobody_waits_in_vain w0 w :
  launched w0 → rtc daemon_step w0 w →
  let o := owners w in
  s_phase (o_session o) = Live →
  fst <$> o_pending_request o = SessionInv.owner (o_session o)
  ∧ ∀ id c, connections (o_control o) !! id = Some c → request_pending (machine c) = true →
      ∃ ticket, o_pending_request o = Some (ticket, id) ∧ SessionInv.owner (o_session o) = Some ticket.
Proof.
  intros Hl Hr o Hlive. destruct (daemon_reachable _ _ Hl Hr) as [_ Hse]. fold o in Hse.
  pose proof (sd_pending _ _ _ _ _ Hse Hlive) as Hpo. split; [done|]. intros id c Hc Hp.
  destruct (sd_control _ _ _ _ _ Hse) as (owed & receipts & Hw & Hph). unfold control_phase in Hph. rewrite Hlive in Hph.
  destruct Hph as (Ho & _). pose proof (sw_connection _ _ _ _ Hw id c Hc) as [_ _ _ _ Hok].
  destruct (owed !! id) as [request|] eqn:Hid; [|congruence].
  destruct (o_pending_request o) as [[ticket connection]|]; cbn in Ho.
  - destruct Ho as (request' & -> & _). apply lookup_singleton_Some in Hid as [-> _]. by exists ticket.
  - by rewrite Ho, lookup_empty in Hid.
Qed.


(** C12. The exit leaves nothing behind.  Once the session asks the backend to exit, no
    control connection is open; when the worker acknowledged its fence, it has
    stopped with no job, result or snapshot left and the file contains the session's
    last snapshot, unless the last write failed; otherwise the worker's shutdown
    timeout has passed since it was sealed. *)
Theorem exit_leaves_nothing_behind w0 w :
  launched w0 → rtc daemon_step w0 w →
  let o := owners w in
  s_phase (o_session o) = Exiting ∨ s_phase (o_session o) = ExitComplete →
  connections (o_control o) = ∅
  ∧ if fence_acknowledged (o_worker o)
    then all_settled (o_worker o)
      ∧ (contents (file w) = Some (ledger_snapshot (o_session o)) ∨ last_failed (file w) = true)
    else ∃ t, sealed_at (o_worker o) = Some t ∧ (t + WORKER_SHUTDOWN_TIMEOUT <= instant w)%N.
Proof.
  intros Hl Hr o Hph. destruct (daemon_reachable _ _ Hl Hr) as [_ Hse]. fold o in Hse.
  destruct (sd_exited _ _ _ _ _ Hse) as [Hco Hf]; [by destruct Hph as [->| ->]; cbn; lia|].
  apply andb_true_iff in Hco as [_ He%bool_decide_eq_true]. split; [done|].
  destruct (sd_worker _ _ _ _ _ Hse) as (Hw & _). destruct (sd_persistence _ _ _ _ _ Hse) as [_ Hp].
  assert (SessionInv.shown (o_session o) = Some (ledger_snapshot (o_session o))) as Hsh
    by (unfold SessionInv.shown; by destruct Hph as [->| ->]).
  assert (quitting (s_phase (o_session o)) = true) as Hq by (by destruct Hph as [->| ->]).
  rewrite Hsh, Hq in Hp. unfold fence_status in Hf. destruct (fence_acknowledged (o_worker o)) eqn:Ef.
  - split; [by apply (acknowledged_settled (mk_run (o_worker o) [] false false))|]. by eapply pipeline_fenced.
  - destruct (sealed_at (o_worker o)) as [t|]; [|done]. exists t. split; [done|].
    by destruct (N.leb_spec (t + WORKER_SHUTDOWN_TIMEOUT) (instant w)).
Qed.

(** C30. A quit is not held up by its requester.  While the requester's reply is on its
    way the server names a deadline, and once that deadline has passed, or the reply
    has drained, or its connection is gone, expiring the connections and advancing
    the shutdown starts it; only the kernel can refuse to disarm the repeat timer, or
    the backend to exit when nothing is left to wait for. *)
Theorem quit_reaches_shutdown w0 w k :
  launched w0 → rtc daemon_step w0 w → s_phase (o_session (owners w)) = PhaseQuitPending →
  ∃ r, o_quit_receipt (owners w) = Some r
    ∧ (response_settlement r (o_control (owners w)) = Server.Pending →
         is_Some (Server.next_deadline (o_control (owners w))))
    ∧ ∀ now, (instant w <= now)%N →
        (∀ dl, response_settlement r (o_control (owners w)) = Server.Pending →
           Server.next_deadline (o_control (owners w)) = Some dl → (dl <= now)%N) →
        match (_ ← expire_control now; advance_shutdown k now) (owners w) with
        | (Ok _, o') => s_phase (o_session o') = Authority.ShuttingDown ∨ s_phase (o_session o') = Exiting
        | (Err (Raise e), _) => (∃ errno, timerfd_settime k = Err errno ∧ e = RuntimeIo (IoOs errno))
            ∨ ∃ b, e = RuntimeSession (Event_Backend b)
        | (Err Panic, _) => False
        end.
Proof.
  intros Hl Hr Hph. pose proof (daemon_reachable _ _ Hl Hr) as Hw. set (o := owners w) in *.
  destruct (sd_control _ _ _ _ _ (proj2 Hw)) as (owed & receipts & Hsw & Hc).
  change (o_session (owners w)) with (o_session o) in Hc. unfold control_phase in Hc. rewrite Hph in Hc.
  destruct Hc as (Hsd & r & Hq & Hb). fold o in Hq. exists r. split; [exact Hq|].
  pose proof (barrier_deadline CARGO_PKG_VERSION (ServerSafety.mk_world (o_control o) owed receipts) r Hsw Hb) as Hbar.
  cbn [server] in Hbar. split; [intros Hp; destruct (Hbar Hp) as (c & dl & _ & _ & -> & _); by exists dl|].
  intros now Hnow Hdl.
  assert (response_settlement r (Server.expire now (o_control o)) ≠ Server.Pending) as Hset.
  { destruct (expire_settlement now r (o_control o)) as [->|E]; [done|]. rewrite E. intros Hp.
    destruct (Hbar Hp) as (c & dl & _ & _ & Hnd & Hcl).
    specialize (Hcl now (Hdl dl Hp Hnd)). cbn [server] in Hcl. congruence. }
  pose proof (expire_control_ok CARGO_PKG_VERSION now (file w) o (wf_later _ _ _ _ _ Hnow Hw)) as Hex.
  enough (wp (advance_shutdown k now)
    (λ _ o', s_phase (o_session o') = Authority.ShuttingDown ∨ s_phase (o_session o') = Exiting)
    (λ e _, (∃ errno, timerfd_settime k = Err errno ∧ e = RuntimeIo (IoOs errno)) ∨ ∃ b, e = RuntimeSession (Event_Backend b))
    (o <| o_control := Server.expire now (o_control o) |>)) as Hgo by exact Hgo.
  unfold advance_shutdown. apply wp_getS.
  change (o_quit_receipt (o <| o_control := Server.expire now (o_control o) |>)) with (o_quit_receipt o). rewrite Hq.
  change (o_control (o <| o_control := Server.expire now (o_control o) |>)) with (Server.expire now (o_control o)).
  rewrite bool_decide_false by done. cbn [negb]. apply wp_bind. eapply wp_mono.
  - eapply begin_shutdown_closing, quit_closing; [exact Hex|exact Hq].
  - intros _ o' [Hw' Hp']. apply wp_getS. eapply wp_mono; [by apply try_exit_exits| |by intros e o2 ?; right].
    intros _ o2 [_ Ho]. by rewrite Hp' in Ho.
  - intros e o' He. by left.
Qed.

(** How long a daemon that shuts down may wait before it asks the backend to exit. *)
Definition SHUTDOWN_BOUND : N := N.max TERMINAL_TIMEOUT WORKER_SHUTDOWN_TIMEOUT.

(** C31. A shutdown reaches the exit in bounded time.  While it waits, the loop has a
    deadline to wake up at within the bound; at the bound, expiring the connections
    and advancing the shutdown asks the backend to exit, and nothing but the
    backend's refusal is left to fail. *)
Theorem shutdown_reaches_exit w0 w k now :
  launched w0 → rtc daemon_step w0 w → s_phase (o_session (owners w)) = Authority.ShuttingDown →
  (instant w + SHUTDOWN_BOUND <= now)%N →
  (∃ dl, Runtime.next_deadline (owners w) = Some dl ∧ (dl <= instant w + SHUTDOWN_BOUND)%N)
  ∧ match (_ ← expire_control now; advance_shutdown k now) (owners w) with
    | (Ok _, o') => s_phase (o_session o') = Exiting
    | (Err (Raise e), _) => ∃ b, e = RuntimeSession (Event_Backend b)
    | (Err Panic, _) => False
    end.
Proof.
  intros Hl Hr Hph Hnow. destruct (daemon_reachable _ _ Hl Hr) as [Hs Hse]. set (o := owners w) in *.
  destruct (sd_control _ _ _ _ _ Hse) as (owed & receipts & Hw & Hc). unfold control_phase in Hc. rewrite Hph in Hc.
  destruct Hc as (Hq & t & Ht & Hshut).
  destruct (sd_worker _ _ _ _ _ Hse) as (_ & Hsl & Hat). rewrite Hph in Hsl.
  apply bool_decide_eq_true in Hsl as [ts Hts]. specialize (Hat ts Hts). unfold SHUTDOWN_BOUND in *.
  split.
  { assert (∃ x, Runtime.next_deadline o = Some x ∧ (x <= ts + WORKER_SHUTDOWN_TIMEOUT)%N) as (x & Hx & Hle).
    - apply min_of_le, elem_of_app. right. apply elem_of_app. right. unfold fence_deadline. rewrite Hts. by left.
    - exists x. split; [done|lia]. }
  assert (is_shutdown_complete (Server.expire now (o_control o)) = true) as Hco.
  { apply (shut_expired CARGO_PKG_VERSION (t + TERMINAL_TIMEOUT) (ServerSafety.mk_world (o_control o) owed receipts)); [done|done|lia]. }
  assert (fence_status now (o_worker o) ≠ FencePending) as Hf.
  { unfold fence_status. destruct (fence_acknowledged _); [done|]. rewrite Hts. by rewrite (proj2 (N.leb_le _ _)) by lia. }
  change (expire_control now) with (modify (λ o : RuntimeOwners (B:=B), o <| o_control := Server.expire now (o_control o) |>)
    : stm _ (failure RuntimeError) _).
  enough (wp (advance_shutdown k now) (λ _ o', s_phase (o_session o') = Exiting)
    (λ e _, ∃ b, e = RuntimeSession (Event_Backend b)) (o <| o_control := Server.expire now (o_control o) |>)) as Hgo
    by exact Hgo.
  set (o1 := o <| o_control := Server.expire now (o_control o) |>).
  assert (o_quit_receipt o1 = None ∧ is_shutdown_complete (o_control o1) = true ∧ o_worker o1 = o_worker o
    ∧ o_shutdown_started o1 = true ∧ o_exit_started o1 = false ∧ o_session o1 = o_session o) as (E1 & E2 & E3 & E4 & E5 & E6).
  { split_and!; try done; [change (o_shutdown_started o = true)|change (o_exit_started o = false)];
      by rewrite ?(sd_shutdown _ _ _ _ _ Hse), ?(sd_exit _ _ _ _ _ Hse), Hph. }
  clearbody o1. unfold advance_shutdown. apply wp_getS. rewrite E1. apply wp_bind, wp_ret, wp_getS.
  rewrite E2, E3, E4, E5. cbn [negb andb].
  replace (match fence_status now (o_worker o) with FencePending => false | _ => true end) with true
    by (by destruct (fence_status now (o_worker o))).
  apply wp_bind, wp_zoom. rewrite E6. eapply wp_mono; [apply exit_session_ok; [done|done|]| |].
  - apply (sd_attempted _ _ _ _ _ Hse). rewrite Hph. cbn. lia.
  - intros [] s' (_ & Hp' & _). exact Hp'.
  - by intros e s' [b ->]; exists b.
Qed.
End runs.

(** ** A demo daemon

    The demo session with the demo codec; a client connects, asks to quit and is
    answered, and the daemon shuts down. *)
#[local] Existing Instances demo_request demo_response demo_event demo_response_text demo_event_text demo_errors_fit.

Definition demo_kernel (bytes : list N) : Kernel := {|
  sockets := demo_io bytes; timerfd_settime := Ok tt; read_repeat := ReadAgain; read_clock := ReadAgain;
  eventfd_write := EventWritten; latest_sample := Ok None; wall_clock := 0; wall_clock_then := 0
|}.

Definition demo_coordinator : PersistenceCoordinator :=
  (Persistence.observe (SessionInv.shown demo_live) 0 (Persistence.new None)).2.

Definition demo_daemon : Daemon (B:=DemoBackend) :=
  mk_daemon DemoBackend
    (RuntimeOwners_new demo_live (Server.new demo_listener) Worker.start (mk_timers disarmed disarmed)
       (ClockRuntime_system (λ _, Some (lit "00:00"))) demo_coordinator 0)
    (mk_disk None false) 0.

Lemma demo_live_sane : repeats_sane demo_live.
Proof.
  assert (forallb (λ p, negb (repeatable p.2) || action_repeats (action p.2)) (map_to_list (s_bindings demo_live)) = true) as Hf
    by (vm_compute; reflexivity).
  intros id c Hc Hr. apply elem_of_map_to_list, list_elem_of_In in Hc.
  rewrite forallb_forall in Hf. specialize (Hf _ Hc). cbn in Hf. by rewrite Hr in Hf.
Qed.

Lemma demo_coordinator_ok : persist_ok 0 false (SessionInv.shown demo_live) demo_coordinator Worker.start (mk_disk None false).
Proof.
  unfold demo_coordinator. generalize (SessionInv.shown demo_live). intros shown.
  assert (option_or shown None = shown) as <- by by destruct shown.
  eapply persist_observe; [|apply persist_start]. destruct shown; apply surjective_pairing.
Qed.

Lemma demo_launched : launched demo_daemon.
Proof.
  assert (s_phase demo_live = Live ∧ SessionInv.owner demo_live = None ∧ s_repeat_target demo_live = None
    ∧ s_exit_attempted demo_live = false) as (H1 & H2 & H3 & H4) by (vm_compute; split_and!; reflexivity).
  unfold demo_daemon, RuntimeOwners_new.
  split; cbn [owners file instant o_session o_worker o_timers o_persistence].
  - by eexists _, _, _, _, _, _, _.
  - exact (conj demo_live_wf (conj H1 (conj H2 (conj H3 (conj H4 demo_live_sane))))).
  - split; [exact Worker_start_wf|reflexivity].
  - reflexivity.
  - exact demo_coordinator_ok.
Qed.

Definition demo_call (bytes : list N) (now : N) (c : Call) (w : Daemon (B:=DemoBackend)) : Daemon :=
  mk_daemon DemoBackend (run_call (lit "1") (demo_kernel bytes) now c (owners w)).2 (file w) now.

Lemma demo_step bytes now c w :
  (instant w <= now)%N → callable (owners w) c → (run_call (lit "1") (demo_kernel bytes) now c (owners w)).1 = Ok tt →
  daemon_step (lit "1") w (demo_call bytes now c w).
Proof.
  intros Hn Hc Hr. apply (StepCall _ (demo_kernel bytes) now c); [done|apply demo_io_ok|done|].
  rewrite <-Hr. apply surjective_pairing.
Qed.

Definition demo_asked_quit : Daemon :=
  demo_call (lit "q" ++ [10%N]) 8 (CallControl (reads 1))
    (demo_call [] 7 (CallControl (writes 1))
       (demo_call (lit "h" ++ [10%N]) 6 (CallControl (reads 1)) (demo_call [] 5 (CallControl (reads 0)) demo_daemon))).

Definition demo_shutting : Daemon :=
  demo_call [] 10 CallAdvance (demo_call [] 9 (CallControl (writes 1)) demo_asked_quit).

Definition demo_exiting : Daemon :=
  demo_call [] 10000000000 CallAdvance (demo_call [] 10000000000 CallExpireControl demo_shutting).

Example demo_phases :
  (λ w, s_phase (o_session (owners w))) <$> [demo_asked_quit; demo_shutting; demo_exiting]
  = [PhaseQuitPending; Authority.ShuttingDown; Exiting].
Proof. vm_compute. reflexivity. Qed.

Lemma demo_asked_reachable : rtc (daemon_step (lit "1")) demo_daemon demo_asked_quit.
Proof.
  do 4 (eapply rtc_r; [|by apply demo_step; [vm_compute|done|vm_compute; reflexivity]]). apply rtc_refl.
Qed.

Lemma demo_shutting_reachable : rtc (daemon_step (lit "1")) demo_daemon demo_shutting.
Proof.
  do 2 (eapply rtc_r; [|by apply demo_step; [vm_compute|done|vm_compute; reflexivity]]). apply demo_asked_reachable.
Qed.

Lemma demo_exiting_reachable : rtc (daemon_step (lit "1")) demo_daemon demo_exiting.
Proof.
  do 2 (eapply rtc_r; [|by apply demo_step; [vm_compute|done|vm_compute; reflexivity]]). apply demo_shutting_reachable.
Qed.

Lemma daemon_fails_only_for_cause_witness :
  match loop_turn (lit "1") (demo_kernel []) (λ _, 1%N) (λ l _, Ok ((λ _, mk_flags false false false false false) <$> l))
    (owners demo_daemon) with
  | (Ok finished, o') =>
      (finished = true → s_phase (o_session o') = ExitComplete)
      ∧ ∃ t, (0 <= t <= 1)%N ∧ rtc (daemon_step (lit "1")) demo_daemon (mk_daemon DemoBackend o' (file demo_daemon) t)
  | (Err (Raise e), _) => runtime_cause e = true
  | (Err Panic, _) => False
  end.
Proof.
  apply (daemon_fails_only_for_cause (lit "1") demo_daemon demo_daemon (demo_kernel []) (λ _, 1%N)
    (λ l _, Ok ((λ _, mk_flags false false false false false) <$> l)));
    [exact demo_launched|apply rtc_refl|apply demo_io_ok|done|done|done].
Defined.

Lemma nobody_waits_in_vain_witness :
  fst <$> o_pending_request (owners demo_daemon) = SessionInv.owner (o_session (owners demo_daemon)).
Proof.
  refine (proj1 (nobody_waits_in_vain (lit "1") demo_daemon demo_daemon demo_launched (rtc_refl _ _) _)).
  vm_compute. reflexivity.
Defined.


Lemma exit_leaves_nothing_behind_witness : connections (o_control (owners demo_exiting)) = ∅.
Proof.
  assert (s_phase (o_session (owners demo_exiting)) = Exiting) as Hp by (vm_compute; reflexivity).
  pose proof (exit_leaves_nothing_behind (lit "1") demo_daemon demo_exiting demo_launched demo_exiting_reachable
    (or_introl Hp)) as Hx. apply proj1 in Hx. exact Hx.
Defined.

Lemma quit_reaches_shutdown_witness :
  ∃ r, o_quit_receipt (owners demo_asked_quit) = Some r.
Proof.
  assert (s_phase (o_session (owners demo_asked_quit)) = PhaseQuitPending) as Hp by (vm_compute; reflexivity).
  pose proof (quit_reaches_shutdown (lit "1") demo_daemon demo_asked_quit (demo_kernel []) demo_launched
    demo_asked_reachable Hp) as [r Hx]. apply proj1 in Hx. by exists r.
Defined.

Lemma shutdown_reaches_exit_witness :
  ∃ dl, Runtime.next_deadline (owners demo_shutting) = Some dl ∧ (dl <= 10 + SHUTDOWN_BOUND)%N.
Proof.
  assert (s_phase (o_session (owners demo_shutting)) = Authority.ShuttingDown) as Hp by (vm_compute; reflexivity).
  pose proof (shutdown_reaches_exit (lit "1") demo_daemon demo_shutting (demo_kernel []) (10 + SHUTDOWN_BOUND)%N
    demo_launched demo_shutting_reachable Hp (N.le_refl _)) as Hx. apply proj1 in Hx. exact Hx.
Defined.
