(* ===== verification/Handoff.v ===== *)
(** * realm-session/src/runtime.rs: the degradation handoff

    The session launcher leaves a small record of what the session lacks, which the
    daemon reads once at its start.  The file's name, metadata and bytes are what the
    system answers; everything the code decides about them is here. *)

From Stdlib Require Import ZArith Lia.
From stdpp Require Import prelude list.
From S2P Require Import Prelude Layout Ledger Projection Text Utf8.

Definition MAX_DEGRADED_HANDOFF_BYTES : N := 4096.

Definition KNOWN_DEGRADED_CODES : list rstring :=
  [lit "NO-SESSION-BUS"; lit "NO-DBUS-ACTIVATION"; lit "NO-SYSTEMD-USER"; lit "NO-DISPLAY-PROBE";
   lit "NO-XWAYLAND"; lit "NO-GSETTINGS"; lit "NO-CURSOR-THEME"].

Definition u32_max : N := 4294967295.

(** [symlink_metadata]: the kind, the permission bits, the owner and the length. *)
Record HandoffMetadata := mk_metadata {
  md_regular : bool;
  md_mode : N;
  md_own : bool;
  md_len : N
}.

(** The file a path names.  [hf_exact] says that the path is absolute and its parent the
    runtime directory's [realm], [hf_name] is the file name where it is UTF-8; the
    errors are the texts the system gives them. *)
Record HandoffFile := mk_handoff {
  hf_exact : bool;
  hf_name : option rstring;
  hf_metadata : result HandoffMetadata rstring;
  hf_open : result unit rstring;
  hf_read : result (list N) rstring
}.

Definition ok_or {A} (o : option A) (message : rstring) : result A rstring :=
  match o with Some a => Ok a | None => Err message end.

Definition is_ascii (bytes : list N) : bool := forallb (λ c, c <? 128)%N bytes.

(** The loop over the lines after the incarnation. *)
Fixpoint read_codes (ls codes : list rstring) : result (list rstring) rstring :=
  match ls with
  | [] => Ok codes
  | line :: ls' =>
      try code := ok_or (strip_prefix (lit "code=") line) (lit "handoff contains an unknown record field") in
      ensure bool_decide (code ∈ KNOWN_DEGRADED_CODES) else lit "handoff contains unknown code " ++ code;
      ensure bool_decide (code ∉ codes) else lit "handoff repeats code " ++ code;
      read_codes ls' (codes ++ [code])
  end.

Definition read_record (path_pid : N) (record : rstring) : result (list rstring) rstring :=
  let ls := lines record in
  ensure bool_decide (head ls = Some (lit "version=1")) else lit "handoff version is not 1";
  let ls := tail ls in
  try pid := ok_or (line ← head ls; strip_prefix (lit "pid=") line) (lit "handoff lacks its incarnation pid") in
  try record_pid := ok_or (parse_uint u32_max pid) (lit "handoff has an invalid incarnation pid") in
  ensure bool_decide (record_pid = path_pid) else lit "handoff pid does not match its file name";
  read_codes (tail ls) [].

Definition read_degraded_handoff (f : HandoffFile) : result (list rstring) rstring :=
  ensure hf_exact f else lit "path is not the exact absolute Realm runtime handoff path";
  try file_name := ok_or (hf_name f) (lit "handoff file name is not UTF-8") in
  try path_pid := ok_or (strip_prefix (lit "degraded.") file_name) (lit "handoff file name lacks its incarnation pid") in
  try path_pid := ok_or (parse_uint u32_max path_pid) (lit "handoff file name has an invalid incarnation pid") in
  try metadata := map_err (app (lit "cannot inspect handoff: ")) (hf_metadata f) in
  ensure md_regular metadata else lit "handoff is not a regular file";
  ensure (N.land (md_mode metadata) 511 =? 384)%N else lit "handoff mode is not 0600";
  ensure md_own metadata else lit "handoff is not owned by the session user";
  ensure negb (MAX_DEGRADED_HANDOFF_BYTES <? md_len metadata)%N else lit "handoff exceeds 4096 bytes";
  try _ := map_err (app (lit "cannot open handoff: ")) (hf_open f) in
  try content := map_err (app (lit "cannot read handoff: ")) (hf_read f) in
  let bytes := take (N.to_nat (MAX_DEGRADED_HANDOFF_BYTES + 1)) content in
  ensure negb (MAX_DEGRADED_HANDOFF_BYTES <? N.of_nat (length bytes))%N else lit "handoff grew beyond 4096 bytes";
  ensure is_ascii bytes else lit "handoff is not ASCII";
  try record := ok_or (from_utf8 bytes) (lit "handoff is not UTF-8") in
  read_record path_pid record.

(** [load_degraded_handoff]: the variable may be unset, and a rejected file is dropped. *)
Definition load_degraded_handoff (f : option HandoffFile) : option (list rstring) :=
  file ← f; match read_degraded_handoff file with Ok codes => Some codes | Err _ => None end.

(** ** What is accepted *)

Lemma ok_or_Ok {A} (o : option A) m a : ok_or o m = Ok a ↔ o = Some a.
Proof. destruct o; cbn; naive_solver. Qed.

Lemma read_codes_Ok ls codes cs :
  NoDup codes → (∀ c, c ∈ codes → c ∈ KNOWN_DEGRADED_CODES) →
  read_codes ls codes = Ok cs ↔
  ∃ new, cs = codes ++ new ∧ ls = (app (lit "code=") <$> new)
    ∧ NoDup cs ∧ ∀ c, c ∈ cs → c ∈ KNOWN_DEGRADED_CODES.
Proof.
  revert codes. induction ls as [|line ls IH]; intros codes Hnd Hk; cbn [read_codes].
  - split.
    + intros [= <-]. exists []. by rewrite app_nil_r.
    + intros (new & -> & Hl & _). destruct new; [by rewrite app_nil_r|done].
  - rewrite rbind_Ok. setoid_rewrite ok_or_Ok. setoid_rewrite ensure_Ok. setoid_rewrite ensure_Ok.
    setoid_rewrite bool_decide_eq_true. split.
    + intros (code & Hc & Hin & Hni & Hr). apply strip_prefix_Some in Hc as ->.
      apply IH in Hr as (new & -> & -> & Hcs & Hall).
      * exists (code :: new). by rewrite <-app_assoc in *.
      * apply NoDup_app. split_and!; [done| |by apply NoDup_singleton]. set_solver.
      * set_solver.
    + intros (new & -> & Hl & Hcs & Hall). destruct new as [|code new]; [done|]. injection Hl as -> ->.
      exists code. split; [by apply strip_prefix_Some|]. split; [apply Hall; set_solver|].
      replace (codes ++ code :: new) with ((codes ++ [code]) ++ new) in * by (by rewrite <-app_assoc).
      apply NoDup_app in Hcs as (Hcs & Hd & Hn). pose proof Hcs as (_ & Hx & _)%NoDup_app.
      split; [intros Hin; apply (Hx code); set_solver|].
      apply IH; [done|set_solver|]. exists new. split_and!; try done.
      apply NoDup_app. by split_and!.
Qed.

(** The lines of a record of incarnation [pid]. *)
Definition record_lines (pid : rstring) (codes : list rstring) : list rstring :=
  lit "version=1" :: (lit "pid=" ++ pid) :: (app (lit "code=") <$> codes).

Lemma read_record_Ok path_pid record codes :
  read_record path_pid record = Ok codes ↔
  ∃ pid, lines record = record_lines pid codes ∧ parse_uint u32_max pid = Some path_pid
    ∧ NoDup codes ∧ ∀ c, c ∈ codes → c ∈ KNOWN_DEGRADED_CODES.
Proof.
  unfold read_record, record_lines. cbv zeta. rewrite ensure_Ok, bool_decide_eq_true, rbind_Ok.
  destruct (lines record) as [|v ls]; cbn [head tail]; [split; [by intros [? _]|by intros (? & ? & _)]|].
  setoid_rewrite ok_or_Ok. setoid_rewrite rbind_Ok. setoid_rewrite ok_or_Ok. setoid_rewrite ensure_Ok.
  setoid_rewrite bool_decide_eq_true. split.
  - intros ([= ->] & pid & Hp & n & Hn & -> & Hc). destruct ls as [|l ls]; [done|].
    change (strip_prefix (lit "pid=") l = Some pid) in Hp. apply strip_prefix_Some in Hp as ->. cbn [tail] in Hc.
    apply read_codes_Ok in Hc as (new & -> & -> & Hnd & Hk); [|by apply NoDup_nil_2|set_solver]. by exists pid.
  - intros (pid & [= -> ->] & Hn & Hnd & Hk). split; [done|]. exists pid. split; [by apply strip_prefix_Some|].
    exists path_pid. split_and!; [done|done|]. cbn [tail].
    apply read_codes_Ok; [by apply NoDup_nil_2|set_solver|]. by exists codes.
Qed.

(** C33. The handoff is accepted exactly when it is one.  The codes the daemon starts with
    are those of a private regular file of the session's user, at the one path of its
    incarnation and at most 4096 ASCII bytes long, whose lines are the version, the
    incarnation of its name and known codes without repetition, in the file's order;
    every other file is rejected. *)
Theorem handoff_accepted_exactly f codes :
  read_degraded_handoff f = Ok codes ↔
  ∃ path_pid pid metadata bytes record,
    hf_exact f = true ∧ hf_name f = Some (lit "degraded." ++ path_pid)
    ∧ hf_metadata f = Ok metadata ∧ md_regular metadata = true ∧ N.land (md_mode metadata) 511 = 384%N
    ∧ md_own metadata = true ∧ (md_len metadata <= 4096)%N
    ∧ hf_open f = Ok tt ∧ hf_read f = Ok bytes ∧ length bytes ≤ N.to_nat 4096
    ∧ is_ascii bytes = true ∧ from_utf8 bytes = Some record
    ∧ lines record = record_lines pid codes
    ∧ is_Some (parse_uint u32_max pid) ∧ parse_uint u32_max pid = parse_uint u32_max path_pid
    ∧ NoDup codes ∧ ∀ c, c ∈ codes → c ∈ KNOWN_DEGRADED_CODES.
Proof.
  unfold read_degraded_handoff. rewrite ensure_Ok. setoid_rewrite rbind_Ok. setoid_rewrite ok_or_Ok.
  split.
  - intros (He & name & Hn & Hr). apply rbind_Ok in Hr as (p & Hp%ok_or_Ok%strip_prefix_Some & Hr). subst name.
    apply rbind_Ok in Hr as (path_pid & Hpp%ok_or_Ok & Hr). apply rbind_Ok in Hr as (md & Hmd & Hr).
    destruct (hf_metadata f) as [md'|] eqn:Em; [|done]. injection Hmd as ->.
    apply ensure_Ok in Hr as [Hreg Hr]. apply ensure_Ok in Hr as [Hmode%N.eqb_eq Hr]. apply ensure_Ok in Hr as [Hown Hr].
    apply ensure_Ok in Hr as [Hlen%negb_true_iff%N.ltb_ge Hr]. apply rbind_Ok in Hr as ([] & Ho & Hr).
    destruct (hf_open f) as [[]|] eqn:Eo; [|done]. apply rbind_Ok in Hr as (content & Hc & Hr).
    destruct (hf_read f) as [content'|] eqn:Er; [|done]. injection Hc as ->. cbv zeta in Hr.
    apply ensure_Ok in Hr as [Hl%negb_true_iff%N.ltb_ge Hr].
    assert (length content ≤ N.to_nat 4096) as Hle.
    { rewrite length_take in Hl. unfold MAX_DEGRADED_HANDOFF_BYTES in Hl. lia. }
    rewrite take_ge in Hr by (unfold MAX_DEGRADED_HANDOFF_BYTES; lia).
    apply ensure_Ok in Hr as [Ha Hr]. apply rbind_Ok in Hr as (record & Hu%ok_or_Ok & Hr).
    apply read_record_Ok in Hr as (pid & Hls & Hpid & Hnd & Hk).
    exists p, pid, md, content, record. rewrite Hpid, Hpp. split_and!; try done.
  - intros (p & pid & md & content & record & He & Hn & Hmd & Hreg & Hmode & Hown & Hlen & Ho & Hr & Hle & Ha & Hu
      & Hls & [n Hpid] & Heq & Hnd & Hk).
    split; [done|]. exists (lit "degraded." ++ p). split; [done|].
    rewrite (proj2 (strip_prefix_Some _ _ p) eq_refl). cbn [ok_or rbind]. rewrite <-Heq, Hpid, Hmd, Ho, Hr. cbn [ok_or map_err rbind].
    cbv zeta. rewrite take_ge by (unfold MAX_DEGRADED_HANDOFF_BYTES; lia).
    rewrite !ensure_Ok. split_and!; [done|by apply N.eqb_eq|done|by apply negb_true_iff, N.ltb_ge| |done|].
    + apply negb_true_iff, N.ltb_ge. unfold MAX_DEGRADED_HANDOFF_BYTES. lia.
    + rewrite Hu. cbn [ok_or rbind]. apply read_record_Ok. by exists pid.
Qed.
