(* ===== verification/Startup.v ===== *)
(** * realm-session/src/runtime.rs and snapshot.rs: from the process start to the loop

    The snapshot is read through the worker, the session connects and replays what
    the compositor shows, and only then the listener opens and the event loop gets
    its owners.  What each wait ends with is an argument: for the worker the poll's
    answer and how far its thread came meanwhile, for the backend the poll's answer
    and the instants read.  A list of them that ends early leaves the daemon
    waiting. *)

From Stdlib Require Import ZArith Lia Sorted.
From stdpp Require Import prelude list gmap sorting.
From S2P Require Import Prelude Layout Ledger Projection Keys State Backend Snapshot Visible Authority Hoare AuthorityInv Session Reduce SessionInv Finalize Turns Actions SessionSafety BackendTurn Text Modules Timers Persistence Utf8 Ipc Control Worker WorkerSafety Server ServerSafety Dispatch Runtime RuntimeControl Pipeline RuntimeInv RuntimeOps RuntimeSteps RuntimeServices RuntimeSafety.

(** ** snapshot.rs *)

Inductive SnapshotLoad :=
| Fresh
| Recovered (snapshot : SessionSnapshotV1)
| Rejected (error : SessionSnapshotError).

(** [error.kind() == io::ErrorKind::NotFound]: the error number [ENOENT]. *)
Definition is_not_found (e : IoError) : bool :=
  match e with OsError errno => bool_decide (errno = 2%Z) | EmptyArgv => false end.

(** An [io::Error] of the worker as one of the runtime. *)
Definition io_fault (e : IoError) : IoFault :=
  match e with OsError errno => IoOs errno | EmptyArgv => IoInvalidInput end.

Section snapshot.
(** [serde_json::from_slice] up to the value handed to the visitors. *)
Context (from_slice : list N → result Json JsonError).

Definition snapshot_from_bytes (bytes : list N) : result SessionSnapshotV1 SessionSnapshotError :=
  try j := map_err Encoding (from_slice bytes) in from_json j.

Definition classify_snapshot_read (read : result (list N) IoError) : result SnapshotLoad IoError :=
  match read with
  | Err e => if is_not_found e then Ok Fresh else Err e
  | Ok bytes =>
      match snapshot_from_bytes bytes with
      | Ok snapshot => Ok (Recovered snapshot)
      | Err e => Ok (Rejected e)
      end
  end.

Definition loaded (load : SnapshotLoad) : option SessionSnapshotV1 :=
  match load with Recovered snapshot => Some snapshot | Fresh | Rejected _ => None end.

(** ** The snapshot read *)

Record WorkerWait := mk_worker_wait { ww_thread : System → System; ww_poll : result PollFlags Z }.

Definition EINTR : Z := 4.

Definition terminal_descriptor : rstring := lit "worker event descriptor became terminal during startup".

Definition worker_polled (p : result PollFlags Z) : result unit RuntimeError :=
  match p with
  | Err errno => if decide (errno = EINTR) then Ok tt else Err (RuntimeIo (IoOs errno))
  | Ok f =>
      if ev_nval f then Err (RuntimeIo IoInvalidInput)
      else if ev_err f || ev_hup f then Err (RuntimeInvariant terminal_descriptor)
      else Ok tt
  end.

Abbreviation loading A := (stm System (failure RuntimeError) A).

Definition in_worker {A} (m : stm System (failure WorkerError) A) : loading A :=
  zoom id (λ w _, w) RuntimeWorker m.

(** The head of the loop: a result ends it. *)
Definition load_pass : loading (option (option SessionSnapshotV1)) :=
  r ← in_worker try_result;
  match r with
  | None => mret None
  | Some (SnapshotRead read) =>
      load ← of_result (map_err (λ e, RuntimeIo (io_fault e)) (classify_snapshot_read read));
      mret (Some (loaded load))
  | Some _ => raise (RuntimeInvariant (lit "non-snapshot worker result preceded startup snapshot read"))
  end.

Fixpoint load_loop (waits : list WorkerWait) : loading (option (option SessionSnapshotV1)) :=
  r ← load_pass;
  match r, waits with
  | Some snapshot, _ => mret (Some snapshot)
  | None, [] => mret None
  | None, x :: waits' =>
      _ ← modify (ww_thread x);
      _ ← of_result (worker_polled (ww_poll x));
      load_loop waits'
  end.

(** [thread] is what the worker's thread did before the first look. *)
Definition load_startup_snapshot (thread : System → System) (waits : list WorkerWait) :
    loading (option (option SessionSnapshotV1)) :=
  _ ← in_worker request_snapshot_read;
  _ ← modify thread;
  load_loop waits.

(** ** The replay before the listener *)

Section recovery.
Context {B : Type} `{WmBackend B}.

Implicit Types s : Session (B:=B).

Record Recovery := mk_recovery { rv_session : Session (B:=B); rv_persistence : PersistenceCoordinator }.

#[export] Instance Recovery_settable : Settable Recovery := λ r, mk_recovery (rv_session r) (rv_persistence r).

(** The poll of the backend, once it is not interrupted, and two clock reads. *)
Record Pass := mk_pass {
  ps_poll : bool * bool → result PollFlags Z;
  ps_turn : N;
  ps_observed : N
}.

Abbreviation recovery A := (stm Recovery (failure RuntimeError) A).

Definition recovery_ready (interest : BackendPollInterest) (p : Pass) : result BackendReady RuntimeError :=
  if immediate interest then Ok NOT_READY
  else match ps_poll p (Backend.readable interest, Backend.writable interest) with
       | Ok f => backend_ready f
       | Err errno => Err (RuntimeIo (IoOs errno))
       end.

(** Work that only a requested action leaves. *)
Definition action_only (u : SessionUpdate) : bool :=
  bool_decide (is_Some (up_pending_action u)) || bool_decide (is_Some (up_action_completion u))
  || negb (bool_decide (up_effects u = [])).

Definition recover_pass (p : Pass) : recovery unit :=
  r ← getS;
  ready ← of_result (recovery_ready (backend_poll_interest (rv_session r)) p);
  turn ← zoom rv_session (λ s r, r <| rv_session := s |>) RuntimeSession (backend_turn ready (ps_turn p));
  match turn with
  | TurnIdle | TurnProgressed => mret tt
  | TurnUpdated u =>
      if action_only u then raise (RuntimeInvariant (lit "pre-listener recovery exposed action-only work"))
      else modify (λ r, r <| rv_persistence := (observe (up_persistence u) (ps_observed p) (rv_persistence r)).2 |>)
  | TurnExitComplete => raise (RuntimeInvariant (lit "backend exited during pre-listener recovery"))
  end.

(** [true] once the session is live. *)
Fixpoint recover_until_live (passes : list Pass) : recovery bool :=
  r ← getS;
  match s_phase (rv_session r) with
  | Live => mret true
  | InitialReplay | FinalizingReplay =>
      match passes with
      | [] => mret false
      | p :: passes' => _ ← recover_pass p; recover_until_live passes'
      end
  | _ => raise (RuntimeInvariant (lit "pre-listener recovery left a startup phase"))
  end.

(** ** [run_daemon_with] up to the loop *)

(** What the system answers on the way.  [bt_endpoint] is preparing and binding the
    socket, [bt_thread] and [bt_waits] belong to the snapshot read. *)
Record Boot := mk_boot {
  bt_started_at : N;
  bt_endpoint : result unit unit;
  bt_worker : result unit IoFault;
  bt_thread : System → System;
  bt_waits : list WorkerWait;
  bt_backend : result B BackendError;
  bt_degraded : option (list rstring);
  bt_passes : list Pass;
  bt_timezone : ClockModule;
  bt_wall : Z;
  bt_observed : N;
  bt_listener : result ActiveControlListener unit;
  bt_settime : result unit Z;
  bt_timer_wall : Z;
  bt_sampler : result unit IoFault;
  bt_ready : result unit IoFault
}.

Definition or_fail {A E} (wrap : E → RuntimeError) (r : result A E) : result A (failure RuntimeError) :=
  map_err (λ e, Raise (wrap e)) r.

Definition timer_failure (e : failure IoFault) : failure RuntimeError :=
  match e with Raise e => Raise (RuntimeIo e) | Panic => Panic end.

(** The daemon on its live session. *)
Definition open_owners (b : Boot) (worker : System) (r : Recovery) : result RuntimeOwners (failure RuntimeError) :=
  let '(ticked, t) := tick (bt_wall b) (mk_ticking (ClockRuntime_system (bt_timezone b)) (rv_session r)) in
  try update := ticked in
  let persistence := (observe (up_persistence update) (bt_observed b) (rv_persistence r)).2 in
  try listener := or_fail (λ _, RuntimeEndpoint) (bt_listener b) in
  let '(armed, timers) := SessionTimers_new (bt_settime b) (bt_timer_wall b) in
  try _ := map_err timer_failure armed in
  try _ := or_fail RuntimeIo (bt_sampler b) in
  let owners := RuntimeOwners_new (tk_session t) (Server.new listener) worker timers (tk_clock t) persistence
    (bt_started_at b) in
  try _ := or_fail RuntimeIo (bt_ready b) in
  Ok owners.

(** [None] while it waits for the worker or the backend. *)
Definition run_daemon_with (b : Boot) : result (option RuntimeOwners) (failure RuntimeError) :=
  try _ := or_fail (λ _, RuntimeEndpoint) (bt_endpoint b) in
  try _ := or_fail RuntimeIo (bt_worker b) in
  let '(read, worker) := load_startup_snapshot (bt_thread b) (bt_waits b) Worker.start in
  try read := read in
  match read with
  | None => Ok None
  | Some recovered =>
      try backend := or_fail RuntimeBackend (bt_backend b) in
      try session := or_fail RuntimeBackend
        (connect_with_snapshot_and_keymap backend recovered Keymap_default (bt_degraded b)) in
      let '(live, r) := recover_until_live (bt_passes b) (mk_recovery session (Persistence.new recovered)) in
      try live := live in
      if live : bool then try owners := open_owners b worker r in Ok (Some owners) else Ok None
  end.

(** ** The snapshot read comes back *)

(** How far the worker's thread is with the one read it was asked for. *)
Inductive Stage :=
| Asked | ReadingFile
| Answering (r : result (list N) IoError) | Signalling (r : result (list N) IoError)
| Answered (r : result (list N) IoError).

Definition at_stage (x : Stage) : System :=
  match x with
  | Asked => Worker.start <| messages := [ReadSnapshot] |>
  | ReadingFile => Worker.start <| thread := Reading |>
  | Answering r => Worker.start <| thread := Sending (SnapshotRead r) AfterRecv |>
  | Signalling r => Worker.start <| results := [SnapshotRead r] |> <| thread := Notifying AfterRecv |>
  | Answered r => Worker.start <| results := [SnapshotRead r] |> <| event_counter := 1 |>
  end.

Definition stage_left (x : Stage) : nat :=
  match x with Asked => 4 | ReadingFile => 3 | Answering _ => 2 | Signalling _ => 1 | Answered _ => 0 end.

Lemma stage_step x w : thread_step (at_stage x) w → ∃ y, w = at_stage y ∧ stage_left x = S (stage_left y).
Proof.
  intros Hst. remember (at_stage x) as w0 eqn:E.
  destruct Hst as [w msg rest Ht Hm|w r Ht|w job outcome r w' Ht Hsp|w r k Ht Hr|w k Ht|
    w rest Ht Hr|w job rest Ht Hr|w job r Ht|w n Hn|w n Hn];
    subst; destruct x as [| |r1|r1|r1]; cbn in *; try done.
  - injection Hm as <- <-. by exists ReadingFile.
  - by exists (Answering r).
  - injection Ht as <- <-. by exists (Signalling r1).
  - injection Ht as <-. by exists (Answered r1).
Qed.

Lemma stage_steps x w : rtc thread_step (at_stage x) w → ∃ y, w = at_stage y ∧ stage_left y ≤ stage_left x.
Proof.
  intros Hr. remember (at_stage x) as w0 eqn:E. revert x E.
  induction Hr as [w|w0 w1 w2 Hst _ IH]; intros x ->; [by exists x|].
  destruct (stage_step _ _ Hst) as (y & -> & Hy). destruct (IH y eq_refl) as (z & -> & Hz).
  exists z. split; [done|lia].
Qed.

Lemma stage_goes_on x : stage_left x ≠ 0 → ∃ w, thread_step (at_stage x) w.
Proof.
  destruct x as [| |r|r|r]; intros Hx; try done; eexists.
  - by eapply ThreadReceive.
  - by apply (ThreadRead _ (Err EmptyArgv)).
  - eapply ThreadSend; [done|]. cbn. unfold MAX_WORKER_RESULTS. lia.
  - by eapply ThreadNotify.
Qed.

Lemma load_pass_stage x :
  load_pass (at_stage x) = match x with
    | Answered r =>
        (map_err (λ e, Raise (RuntimeIo (io_fault e))) (rbind (classify_snapshot_read r) (λ l, Ok (Some (loaded l)))),
         Worker.start)
    | _ => (Ok None, at_stage x)
    end.
Proof.
  destruct x as [| |r|r|r]; try reflexivity. unfold load_pass, in_worker, mbind, stm_bind.
  assert (zoom id (λ w _ : System, w) RuntimeWorker try_result (at_stage (Answered r))
    = (Ok (Some (SnapshotRead r)), Worker.start)) as -> by reflexivity.
  by destruct (classify_snapshot_read r).
Qed.

(** The thread moves as the worker's thread does. *)
Definition honest (thread : System → System) : Prop := ∀ w, rtc thread_step w (thread w).

(** What the start-up may fail with, beyond the causes of a running daemon. *)
Definition startup_cause (e : RuntimeError) : bool :=
  match e with
  | RuntimeEndpoint | RuntimeBackend _ => true
  | RuntimeInvariant what => bool_decide (what = terminal_descriptor)
  | _ => runtime_cause e
  end.

(** What the read of the snapshot may leave: the worker as new. *)
Definition read_back (r : result (option (option SessionSnapshotV1)) (failure RuntimeError)) (w : System) : Prop :=
  match r with
  | Ok None => ∃ y, w = at_stage y
  | Ok (Some recovered) => w = Worker.start
      ∧ ∃ read load, classify_snapshot_read read = Ok load ∧ recovered = loaded load
  | Err (Raise e) => startup_cause e = true
  | Err Panic => False
  end.

Lemma worker_polled_cause p e : worker_polled p = Err e → startup_cause e = true.
Proof.
  unfold worker_polled. destruct p as [f|errno]; [|case_decide; [done|by intros [= <-]]].
  destruct (ev_nval f); [by intros [= <-]|]. destruct (ev_err f || ev_hup f); [|done].
  intros [= <-]. by apply bool_decide_eq_true.
Qed.

Lemma load_loop_ok waits x :
  Forall (honest ∘ ww_thread) waits → let '(r, w) := load_loop waits (at_stage x) in read_back r w.
Proof.
  revert x. induction waits as [|y waits IH]; intros x Hh; cbn [load_loop];
    unfold mbind, stm_bind; rewrite load_pass_stage;
    (destruct x as [| |r|r|r]; try (by eexists); [..|cbn; destruct (classify_snapshot_read r) as [load|e] eqn:Hc; cbn; eauto; fail]).
  all: apply Forall_cons in Hh as [Hy Hh].
  all: match goal with |- context [modify _ ?s] => destruct (stage_steps _ _ (Hy s)) as (z & Ez & _) end.
  all: unfold modify; rewrite Ez; cbn.
  all: destruct (worker_polled (ww_poll y)) as [[]|e] eqn:Hp; cbn; [by apply IH|by eapply worker_polled_cause].
Qed.

Lemma load_startup_ok thread waits :
  honest thread → Forall (honest ∘ ww_thread) waits →
  let '(r, w) := load_startup_snapshot thread waits Worker.start in read_back r w.
Proof.
  intros Ht Hw. change (load_startup_snapshot thread waits Worker.start) with (load_loop waits (thread (at_stage Asked))).
  destruct (stage_steps _ _ (Ht (at_stage Asked))) as (y & -> & _). by apply load_loop_ok.
Qed.

(** ** The replay reaches the live session *)

(** The session and the coordinator before the listener opens. *)
Record recovering (recovered : option SessionSnapshotV1) (now : N) (r : Recovery) : Prop := {
  rg_session : session_wf (rv_session r);
  rg_phase : quitting (s_phase (rv_session r)) = false;
  rg_owner : SessionInv.owner (rv_session r) = None;
  rg_repeat : s_repeat_target (rv_session r) = None;
  rg_exit : s_exit_attempted (rv_session r) = false;
  rg_sane : repeats_sane (rv_session r);
  rg_persistence : persist_ok now false (option_or (SessionInv.shown (rv_session r)) recovered)
    (rv_persistence r) Worker.start (mk_disk recovered false)
}.

Lemma recovering_view recovered now r s' :
  recovering recovered now r → session_wf s' → same_view (rv_session r) s' →
  recovering recovered now (r <| rv_session := s' |>).
Proof.
  intros [Hs Hp Ho Ht He Hsa Hpe] Hs' [Vp Vo Vs Vt Vb Va].
  split; cbn; [done|by rewrite Vp|by rewrite Vo|by rewrite Vt|by rewrite Va|unfold repeats_sane; by rewrite Vb|by rewrite Vs].
Qed.

Lemma recovering_later recovered now now' r :
  (now <= now')%N → recovering recovered now r → recovering recovered now' r.
Proof. intros Hn []. split; try done. by eapply persist_later. Qed.

(** The snapshot an update carries is the one shown from then on. *)
Lemma option_or_shown {A} (a b c : option A) : option_or a (option_or b c) = option_or (option_or a b) c.
Proof. by destruct a. Qed.

Lemma recovery_moves s u s' :
  starting (s_phase s) = true → SessionInv.owner s = None → s_repeat_target s = None → s_exit_attempted s = false →
  moves u s s' → promised u s s' → up_pending_action u = None →
  action_only u = false ∧ quitting (s_phase s') = false ∧ SessionInv.owner s' = None
  ∧ s_repeat_target s' = None ∧ s_exit_attempted s' = false ∧ s_bindings s' = s_bindings s
  ∧ SessionInv.shown s' = option_or (up_persistence u) (SessionInv.shown s).
Proof.
  intros Hst Ho Ht Hex [Hb _ _ _ Hat _ Hf _] [Hpo Hpq Hpj Hps] Hpa.
  assert (s_phase s ≠ Live ∧ s_phase s ≠ Authority.ShuttingDown ∧ quitting (s_phase s) = false) as (Hl & Hsd & Hq)
    by (by destruct (s_phase s)).
  assert (up_effects u = []) as He by (destruct (decide (up_effects u = [])) as [|Hne]; [done|by apply Hpj in Hne]).
  rewrite He in Hpq. rewrite Hpa in Hpo.
  assert (up_action_completion u = None) as Hc.
  { destruct (up_action_completion u) as [c|]; [|done]. destruct Hpo as (Hoc & _). congruence. }
  rewrite Hc in Hpo. unfold action_only. rewrite Hpa, Hc, He. split_and!; try done; [cbn in Hpq; congruence|congruence| |].
  - unfold SessionInv.follows in Hf. destruct (up_repeat_timer u); [congruence|by destruct Hf as (_ & _ & _ & ?)|done].
  - destruct Hat as [->|[_ ?]]; done.
Qed.

Lemma recover_pass_ok recovered now p r :
  recovering recovered now r → starting (s_phase (rv_session r)) = true → (now <= ps_observed p)%N →
  wp (recover_pass p) (λ _, recovering recovered (ps_observed p)) (λ e _, startup_cause e = true) r.
Proof.
  intros Hr Hst Hn. eapply recovering_later in Hr; [|exact Hn]. unfold recover_pass. apply wp_getS, wp_bind, wp_of_result.
  - intros ready _. apply wp_bind, wp_zoom. cbn [rv_session].
    eapply wp_mono; [apply backend_turn_ok, Hr| |].
    + intros t s' (Hs' & _ & Ht). destruct t as [| |u|]; cbn [turn_took] in Ht.
      * destruct Ht as [-> _]. apply wp_ret. by destruct r.
      * apply wp_ret. apply recovering_view; [done|done|by apply untouched_view].
      * destruct Ht as (_ & Hpa & s1 & Hu & Hm & Hpm).
        destruct Hr as [Hs Hp Ho Htg He Hsa Hpe].
        pose proof (untouched_view _ _ Hu) as [Vp Vo Vs Vt Vb Va].
        destruct (recovery_moves s1 u s') as (Ha & Hq & Ho' & Ht' & He' & Hb' & Hsh); try congruence.
        rewrite Ha. unfold wp, modify. split; cbn; try done.
        { unfold repeats_sane. by rewrite Hb', Vb. }
        destruct (Persistence.observe (up_persistence u) (ps_observed p) (rv_persistence r)) as [x c'] eqn:Eo.
        rewrite Hsh, Vs, <-option_or_shown. by eapply persist_observe.
      * destruct Ht as (Hp & _). by rewrite Hp in Hst.
    + intros e s' (_ & _ & He). case_decide as Hp; [by rewrite Hp in Hst|]. cbn. exact He.
  - intros e He. unfold recovery_ready in He. destruct (immediate _); [done|].
    destruct (ps_poll p _) as [f|errno]; [|by injection He as <-].
    unfold backend_ready, validate_poll_events in He. destruct (ev_nval f); [by injection He as <-|done].
Qed.

Lemma recover_until_live_ok recovered passes now r :
  recovering recovered now r → StronglySorted N.le (now :: (ps_observed <$> passes)) →
  wp (recover_until_live passes)
    (λ live r', ∃ now', now' ∈ now :: (ps_observed <$> passes) ∧ recovering recovered now' r'
       ∧ (live = true → s_phase (rv_session r') = Live))
    (λ e _, startup_cause e = true) r.
Proof.
  revert now r. induction passes as [|p passes IH]; intros now r Hr Hso; cbn [recover_until_live]; apply wp_getS.
  all: pose proof (rg_phase _ _ _ Hr) as Hq.
  all: destruct (s_phase (rv_session r)) eqn:Hp; try done; try (apply wp_ret; exists now; by split_and!; [left| |]).
  all: apply StronglySorted_inv in Hso as [Hso Hall].
  all: apply wp_bind; eapply wp_mono; [apply (recover_pass_ok recovered now); [done|by rewrite Hp|]| |done];
    [by apply Forall_cons in Hall as [? _]|].
  all: intros [] r' Hr'; eapply wp_mono; [by eapply IH| |done].
  all: intros live r'' (now' & Hin & Hw & Hl); exists now'; split_and!; [by right|done|done].
Qed.

(** ** The loop gets its owners *)

Lemma from_bytes_restorable bytes sn : snapshot_from_bytes bytes = Ok sn → restorable sn.
Proof.
  unfold snapshot_from_bytes, from_json. intros (j & _ & E)%rbind_Ok. apply rbind_Ok in E as (s' & Hd & E).
  destruct (dec_snapshot j) as [s|] eqn:Ej; [|done]. injection Hd as <-. apply rbind_unit_Ok in E as [Hv E].
  injection E as <-. destruct (dec_snapshot_history _ _ Ej). split_and!; [by apply validate_Ok|done|done|].
  by eapply dec_snapshot_next.
Qed.

Lemma loaded_restorable read load sn :
  classify_snapshot_read read = Ok load → loaded load = Some sn → restorable sn.
Proof.
  unfold classify_snapshot_read. destruct read as [bytes|e]; [|by case_match; intros [= <-]].
  destruct (snapshot_from_bytes bytes) as [s|] eqn:E; intros [= <-]; [|done]. intros [= <-]. by eapply from_bytes_restorable.
Qed.

Lemma default_repeats_sane s : s_bindings s = list_to_map (zip (binding_ids (bindings Keymap_default)) (bindings Keymap_default)) →
  repeats_sane s.
Proof.
  intros E id c Hc Hr. rewrite E in Hc. apply elem_of_list_to_map_2, list_elem_of_In in Hc.
  assert (forallb (λ p : BackendBindingId * _, negb (repeatable p.2) || action_repeats (action p.2))
    (zip (binding_ids (bindings Keymap_default)) (bindings Keymap_default)) = true) as Hf by (vm_compute; reflexivity).
  rewrite forallb_forall in Hf. specialize (Hf _ Hc). cbn in Hf. by rewrite Hr in Hf.
Qed.

Lemma connected_recovering recovered s now :
  (∀ sn, recovered = Some sn → restorable sn) → connected recovered Keymap_default s →
  recovering recovered now (mk_recovery s (Persistence.new recovered)).
Proof.
  intros Hre Hc. pose proof (connected_wf _ _ _ Hre Hc) as Hs. destruct Hc as [_ Hp [_ Ha] _ Hr _ He Hb].
  split; cbn; [done|by rewrite Hp|unfold SessionInv.owner; by rewrite Ha|done|done|by apply default_repeats_sane|].
  unfold SessionInv.shown. rewrite Hp. apply persist_start.
Qed.

Lemma new_timers_idle answer now :
  match SessionTimers_new answer now with
  | (Ok _, ts) => timer_armed (repeat_timer ts) = false
  | (Err (Raise _), _) => True
  | (Err Panic, _) => False
  end.
Proof.
  unfold SessionTimers_new. pose proof (arm_next_clock_spec answer now (mk_timers disarmed disarmed)) as H0.
  destruct (arm_next_clock _ _ _) as [[[]|[e|]] ts]; [|done|done]. destruct H0 as (_ & -> & _). done.
Qed.

Lemma tick_quiet wall (c : Ticking (B:=B)) :
  session_wf (tk_session c) →
  wp (tick wall) (λ u c', session_wf (tk_session c') ∧ same_view (tk_session c) (tk_session c') ∧ up_persistence u = None)
    (λ e _, runtime_cause e = true) c.
Proof.
  intros Hs. unfold tick. apply wp_getS. destruct (has_active_backend_transaction _).
  - by apply wp_modify, wp_ret.
  - apply wp_modify. eapply wp_mono; [by apply publish_clock_ok| |done].
    intros u c' ([Hs' _] & Hv & ->). by split_and!.
Qed.

Lemma sorted_snoc (l : list N) n :
  StronglySorted N.le (l ++ [n]) → StronglySorted N.le (0%N :: l) ∧ Forall (λ m, m <= n)%N (0%N :: l).
Proof.
  intros Hs. assert (StronglySorted N.le l ∧ Forall (λ m, m <= n)%N l) as [Hl Hn].
  { induction l as [|x l IH]; [by repeat constructor|]. apply StronglySorted_inv in Hs as [Hs Hx].
    destruct (IH Hs). apply Forall_app in Hx as [? Hx]. split; constructor; try done.
    by apply Forall_cons in Hx as [? _]. }
  split; constructor; try done; [apply Forall_forall; intros; lia|lia].
Qed.

(** The thread moves as it does, and the clock does not go back. *)
Record orderly (b : Boot) : Prop := {
  or_thread : honest (bt_thread b);
  or_waits : Forall (honest ∘ ww_thread) (bt_waits b);
  or_clock : StronglySorted N.le ((ps_observed <$> bt_passes b) ++ [bt_observed b])
}.

Lemma open_owners_ok b recovered now r :
  recovering recovered now r → (now <= bt_observed b)%N → s_phase (rv_session r) = Live →
  match open_owners b Worker.start r with
  | Ok o => launched (mk_daemon B o (mk_disk recovered false) (bt_observed b))
  | Err (Raise e) => startup_cause e = true
  | Err Panic => False
  end.
Proof.
  intros Hr Hn Hp. eapply recovering_later in Hr; [|exact Hn]. unfold open_owners.
  pose proof (tick_quiet (bt_wall b) (mk_ticking (ClockRuntime_system (bt_timezone b)) (rv_session r)) (rg_session _ _ _ Hr)) as Ht.
  unfold wp in Ht. destruct (tick _ _) as [[u|[e|]] t]; cbn; [|by destruct e|done].
  destruct Ht as (Hs' & Hv & Hu). cbn in Hv. eapply recovering_view in Hr; [|exact Hs'|exact Hv].
  destruct (bt_listener b) as [listener|]; cbn; [|done].
  pose proof (new_timers_idle (bt_settime b) (bt_timer_wall b)) as Hti.
  destruct (SessionTimers_new _ _) as [[[]|[e|]] timers]; cbn; [|done|done].
  destruct (bt_sampler b); cbn; [|done]. destruct (bt_ready b); cbn; [|done].
  assert (s_phase (tk_session t) = Live) as Hp' by (rewrite (vw_phase _ _ Hv); exact Hp).
  destruct Hr as [Hs Hq Ho Hrt He Hsa Hpe]. cbn in *. split; cbn.
  - by repeat eexists.
  - by split_and!.
  - split; [apply Worker_start_wf|done].
  - exact Hti.
  - rewrite Hu. revert Hpe. unfold SessionInv.shown. by rewrite Hp'.
Qed.

(** C2. The start-up reaches the loop in the state the daemon's guarantees start from.
    Whatever the file, the kernel, the compositor and the worker's thread answer,
    starting never panics and trips none of its own invariants; when it ends it
    hands the event loop a launched daemon: a live session that repeats no key and
    owes nobody an answer, an idle worker, and a coordinator that holds the session's
    snapshot, dirty unless the file has it. *)
Theorem startup_reaches_the_loop b :
  orderly b →
  match run_daemon_with b with
  | Ok (Some o) => ∃ read load, classify_snapshot_read read = Ok load
      ∧ launched (mk_daemon B o (mk_disk (loaded load) false) (bt_observed b))
  | Ok None => True
  | Err (Raise e) => startup_cause e = true
  | Err Panic => False
  end.
Proof.
  intros [Ht Hw Hc]. unfold run_daemon_with.
  destruct (bt_endpoint b), (bt_worker b); cbn [or_fail map_err rbind]; try done.
  pose proof (load_startup_ok _ _ Ht Hw) as Hl.
  destruct (load_startup_snapshot _ _ _) as [[[recovered|]|[e|]] w]; cbn [read_back rbind] in *; try done.
  destruct Hl as (-> & read & load & Hread & ->).
  destruct (bt_backend b) as [backend|]; cbn [or_fail map_err rbind]; [|done].
  destruct (connect_with_snapshot_and_keymap _ _ _ _) as [s|] eqn:Hs; cbn [or_fail map_err rbind]; [|done]. apply connect_connected in Hs.
  assert (recovering (loaded load) 0 (mk_recovery s (Persistence.new (loaded load)))) as Hr
    by (apply connected_recovering; [intros sn; by eapply loaded_restorable|done]).
  destruct (sorted_snoc _ _ Hc) as [Hso Hall].
  pose proof (recover_until_live_ok _ (bt_passes b) 0 _ Hr Hso) as Hlive. unfold wp in Hlive.
  destruct (recover_until_live _ _) as [[[]|[e|]] r]; cbn; [|done|exact Hlive|exact Hlive].
  destruct Hlive as (now & Hin & Hr' & Hp). rewrite Forall_forall in Hall.
  pose proof (open_owners_ok b _ now r Hr' (Hall now Hin) (Hp eq_refl)) as Hop.
  destruct (open_owners _ _ _) as [o|e]; cbn; [by eauto|exact Hop].
Qed.

(** ** The read does not wait for ever *)

(** The snapshot read ends.  From the request on, the worker's thread can always
    take its next step until the answer is signalled, and signals it after four; and
    a poll that reports a signalled worker ends the wait: the next pass of the loop
    returns the snapshot, or the error with which the file could not be read, and
    leaves the worker as new. *)
Theorem startup_read_ends thread x rest :
  honest thread → honest (ww_thread x) → worker_polled (ww_poll x) = Ok tt →
  (∀ w, rtc thread_step (at_stage Asked) w →
     event_counter w ≠ 0 ∨ ∃ w', thread_step w w')
  ∧ (∀ n w, nsteps thread_step n (at_stage Asked) w → n ≤ 4)
  ∧ (event_counter (ww_thread x (thread (at_stage Asked))) ≠ 0 →
     let '(r, w) := load_startup_snapshot thread (x :: rest) Worker.start in
     w = Worker.start ∧ ∃ read, r = map_err (λ e, Raise (RuntimeIo (io_fault e)))
       (rbind (classify_snapshot_read read) (λ l, Ok (Some (loaded l))))).
Proof.
  intros Ht Hx Hp. split_and!.
  - intros w (y & -> & _)%stage_steps. destruct (decide (stage_left y = 0)) as [Hy|Hy].
    + left. by destruct y.
    + right. by apply stage_goes_on.
  - intros n w Hn. assert (∀ y, nsteps thread_step n (at_stage y) w → n ≤ stage_left y) as Hle; [|by apply (Hle Asked)].
    clear Hn. induction n as [|n IH]; intros y Hn; [lia|].
    inversion Hn as [|? ? w1 ? Hst Hr]; subst. destruct (stage_step _ _ Hst) as (z & -> & ->). apply IH in Hr. lia.
  - change (load_startup_snapshot thread (x :: rest) Worker.start) with (load_loop (x :: rest) (thread (at_stage Asked))).
    destruct (stage_steps _ _ (Ht (at_stage Asked))) as (y & -> & _).
    destruct (stage_steps _ _ (Hx (at_stage y))) as (z & Ez & _). rewrite Ez. intros Hc.
    assert (∃ r, z = Answered r) as [r ->] by (destruct z; try done; by eexists).
    assert (∀ r', let '(a, w) := load_loop rest (at_stage (Answered r')) in
      w = Worker.start ∧ a = map_err (λ e, Raise (RuntimeIo (io_fault e)))
        (rbind (classify_snapshot_read r') (λ l, Ok (Some (loaded l))))) as Hdone.
    { intros r'. destruct rest; cbn [load_loop]; unfold mbind, stm_bind; rewrite load_pass_stage;
        by destruct (classify_snapshot_read r'). }
    cbn [load_loop]; unfold mbind at 1, stm_bind at 1; rewrite load_pass_stage.
    destruct y as [| |r1|r1|r1]; cbn [fst snd]. 
    1-4: unfold mbind, stm_bind, modify; rewrite Ez; cbn [of_result]; rewrite Hp; cbn;
      specialize (Hdone r); destruct (load_loop rest _) as [a w]; destruct Hdone as [-> ->]; by eauto.
    destruct (classify_snapshot_read r1) eqn:E; cbn; (split; [done|]); exists r1; by rewrite E.
Qed.
End recovery.
End snapshot.

(** ** A demo start

    The file is missing, and the backend replays two windows and then the workarea. *)
Record ScriptBackend := mk_script { script : list BackendEvent }.

#[local] Instance ScriptBackend_ops : WmBackend ScriptBackend := {|
  wm_name _ := lit "script";
  wm_connect b := (Ok (Backend.mk_connection (mk_capabilities true true true true true []) [] false), b);
  wm_assign_window id w b := (Ok tt, b);
  wm_configure_bindings specs b := (Ok tt, b);
  wm_request_policy_turn b := (Ok tt, b);
  wm_respond_policy_turn id k r b := (Ok Complete, b);
  wm_begin_exit_session p b := (Ok tt, b);
  wm_poll_interest b := Backend.mk_interest true false false;
  wm_service r now b := (Ok (head (script b)), mk_script (tail (script b)))
|}.

(** The worker's thread doing its one read, from wherever it can. *)
Definition run_read (r : result (list N) IoError) (w : System) : System :=
  match thread w, messages w with
  | Receiving, ReadSnapshot :: rest =>
      if length (results w) <? MAX_WORKER_RESULTS
      then w <| messages := rest |> <| results := results w ++ [SnapshotRead r] |> <| event_counter := S (event_counter w) |>
      else w
  | _, _ => w
  end.

Lemma run_read_honest r : honest (run_read r).
Proof.
  intros w. unfold run_read. destruct (thread w) eqn:Ht; try done. destruct (messages w) as [|[]] eqn:Hm; try done.
  destruct (Nat.ltb_spec (length (results w)) MAX_WORKER_RESULTS); [|done].
  eapply rtc_l; [by apply (ThreadReceive w ReadSnapshot l)|].
  eapply rtc_l; [by apply (ThreadRead _ r)|].
  eapply rtc_l; [by eapply ThreadSend|].
  eapply rtc_l; [by eapply ThreadNotify|]. destruct w. cbn in *. subst. apply rtc_refl.
Qed.

Definition demo_missing : System → System := run_read (Err (OsError 2)).
Definition demo_readable : PollFlags := mk_flags true false false false false.
Definition demo_pass (now : N) : Pass := mk_pass (λ _, Ok demo_readable) now now.

Definition demo_boot : Boot (B:=ScriptBackend) := {|
  bt_started_at := 0; bt_endpoint := Ok tt; bt_worker := Ok tt;
  bt_thread := id; bt_waits := [mk_worker_wait demo_missing (Ok demo_readable)];
  bt_backend := Ok (mk_script [PolicyTurn demo_replay; PolicyTurn demo_workarea]); bt_degraded := None;
  bt_passes := [demo_pass 1; demo_pass 2]; bt_timezone := (λ _, Some (lit "00:00")); bt_wall := 0; bt_observed := 3;
  bt_listener := Ok demo_listener; bt_settime := Ok tt; bt_timer_wall := 0; bt_sampler := Ok tt; bt_ready := Ok tt
|}.

Definition demo_from_slice (bytes : list N) : result Json JsonError := Err InvalidValue.

Lemma demo_boot_orderly : orderly demo_boot.
Proof.
  split; cbn; [by intros w; apply rtc_refl|by apply Forall_singleton, run_read_honest|].
  repeat constructor; lia.
Qed.

Lemma startup_reaches_the_loop_witness :
  ∃ o, run_daemon_with demo_from_slice demo_boot = Ok (Some o)
    ∧ ∃ load, launched (mk_daemon ScriptBackend o (mk_disk (loaded load) false) 3).
Proof.
  assert (match run_daemon_with demo_from_slice demo_boot with Ok (Some _) => true | _ => false end = true) as Hr
    by (vm_compute; reflexivity).
  pose proof (startup_reaches_the_loop demo_from_slice demo_boot demo_boot_orderly) as Hl.
  destruct (run_daemon_with demo_from_slice demo_boot) as [[o|]|e]; [|discriminate Hr|discriminate Hr].
  exists o. split; [reflexivity|]. destruct Hl as (read & load & _ & Hl). exists load. exact Hl.
Defined.

Lemma startup_read_ends_witness :
  ∃ read, (load_startup_snapshot demo_from_slice id [mk_worker_wait demo_missing (Ok demo_readable)] Worker.start).1
    = map_err (λ e, Raise (RuntimeIo (io_fault e)))
        (rbind (classify_snapshot_read demo_from_slice read) (λ l, Ok (Some (loaded l)))).
Proof.
  destruct (startup_read_ends demo_from_slice id (mk_worker_wait demo_missing (Ok demo_readable)) [])
    as (_ & _ & Hend).
  - intros w. apply rtc_refl.
  - apply run_read_honest.
  - reflexivity.
  - assert (event_counter (ww_thread (mk_worker_wait demo_missing (Ok demo_readable)) (id (at_stage Asked))) ≠ 0) as Hc
      by (vm_compute; lia).
    specialize (Hend Hc). destruct (load_startup_snapshot _ _ _ _) as [r w]. destruct Hend as (_ & read & Hr).
    exists read. exact Hr.
Defined.
