(* ===== verification/GenRecords.v ===== *)
(** * realm-theme/src/generation.rs: the records of the generation store

    The texts the store keeps on disk: leases, the publication order, the manifest and
    the receipt of a generation, the pointer.  Each is written by an [encode] and read
    by a strict parser; the parsers read their lines from an iterator, which is the
    state of the monad. *)

From Stdlib Require Import ZArith Lia.
From stdpp Require Import prelude list sorting.
From S2P Require Import Prelude Hoare Utf8 Text.

Implicit Types (s t value : list N) (ls : list (list N)).

(** ** Characters and numbers *)

Definition is_digit (c : N) : bool := ((48 <=? c) && (c <=? 57))%N.
Definition is_lower_hex (c : N) : bool := is_digit c || ((97 <=? c) && (c <=? 102))%N.
Definition is_alphanumeric (c : N) : bool :=
  is_digit c || ((65 <=? c) && (c <=? 90))%N || ((97 <=? c) && (c <=? 122))%N.

(** The order of [str], which for UTF-8 is that of the scalar values. *)
Fixpoint str_ltb s t : bool :=
  match s, t with
  | _, [] => false
  | [], _ :: _ => true
  | c :: s', d :: t' => (c <? d)%N || ((c =? d)%N && str_ltb s' t')
  end.

Definition lower_hex (len : nat) value : bool := (str_len value =? len) && forallb is_lower_hex (str_bytes value).
Definition lower_hex_32 value : bool := lower_hex 32 value.
Definition sha256_digest value : bool := lower_hex 64 value.

Definition not_canonical (field : rstring) : rstring := field ++ lit " is not canonical decimal".

Definition leading_zero value : bool := (1 <? str_len value) && starts_with (lit "0") value.

Definition canonical_u32 value (field : rstring) : result N rstring :=
  if bool_decide (value = []) || leading_zero value then Err (not_canonical field)
  else match parse_uint u32_max value with Some n => Ok n | None => Err (not_canonical field) end.

Definition canonical_u64 value (field : rstring) : result N rstring :=
  if bool_decide (value = []) || negb (forallb is_digit (str_bytes value)) || leading_zero value
  then Err (not_canonical field)
  else match parse_uint u64_max value with Some n => Ok n | None => Err (not_canonical field) end.

Definition canonical_positive_u64 value (field : rstring) : result N rstring :=
  try n := canonical_u64 value field in
  ensure negb (n =? 0)%N else field ++ lit " must be positive";
  Ok n.

Definition canonical_boot_id value : bool :=
  (str_len value =? 36)
  && forallb (λ '(index, c), if bool_decide (index ∈ [8; 13; 18; 23]) then (c =? 45)%N else is_lower_hex c)
       (imap pair (str_bytes value)).

Definition cgroup_byte (c : N) : bool := is_alphanumeric c || bool_decide (c ∈ [95; 46; 58; 64; 37; 43; 45]%N).

Definition normalized_cgroup_path value : bool :=
  bool_decide (value ≠ []) && bool_decide (value ≠ lit "none")
  && forallb (λ component, bool_decide (component ≠ []) && bool_decide (component ∉ [lit "."; lit ".."])
       && forallb cgroup_byte (str_bytes component)) (split_by (λ c, c =? 47)%N value).

Definition ends_with_slash s : bool := bool_decide (last s = Some 47%N).

Definition path_byte (c : N) : bool := is_alphanumeric c || bool_decide (c ∈ [46; 95; 45; 47]%N).

Definition reserved_components : list rstring :=
  [lit "."; lit ".."; lit "manifest"; lit "receipt"; lit "seal"; lit "activation.lock"].

Definition safe_component (component : rstring) : bool :=
  bool_decide (component ∉ reserved_components) && negb (starts_with (lit ".staging-") component).

(** [path.contains] of two slashes. *)
Fixpoint double_slash s : bool :=
  match s with
  | c :: (d :: _) as s' => ((c =? 47) && (d =? 47))%N || double_slash s'
  | _ => false
  end.

Definition components (path : rstring) : list rstring := split_by (λ c, c =? 47)%N path.

Definition safe_output_path (path : rstring) : bool :=
  bool_decide (path ≠ []) && forallb path_byte (str_bytes path)
  && negb (starts_with (lit "/") path) && negb (ends_with_slash path) && negb (double_slash path)
  && forallb safe_component (components path).

(** ** Identifiers *)

(** [GenerationId]: a string that [parse] has accepted. *)
Definition GenerationId : Type := list N.

Definition GenerationId_parse value : result GenerationId rstring :=
  if lower_hex 32 value then Ok value else Err (lit "generation id must be 128-bit lowercase hex").

(** ** Lines *)

Definition line_reader A := stm (list rstring) rstring A.

Definition next_line : line_reader (option rstring) := λ ls,
  match ls with l :: ls' => (Ok (Some l), ls') | [] => (Ok None, []) end.

Definition of_parse {A} (r : result A rstring) : line_reader A := λ ls, (r, ls).

Definition expect_that (c : bool) (message : rstring) : line_reader unit := of_parse (require c message).

Definition record_value (name : rstring) : line_reader rstring :=
  line ← next_line;
  match line with
  | None => throw (lit "manifest ended before required record")
  | Some line =>
      match strip_prefix (name ++ lit " ") line with
      | Some ((_ :: _) as value) => mret value
      | _ => throw (lit "expected " ++ name ++ lit " record")
      end
  end.

(** [text[..text.len() - 1].split('\n')] after the checks on [\r] and the last line. *)
Definition text_lines (text message : rstring) : result (list rstring) rstring :=
  ensure negb (bool_decide (13%N ∈ text)) && bool_decide (last text = Some 10%N) else message;
  Ok (split_by (λ c, c =? 10)%N (removelast text)).

Definition utf8_text (raw : list N) (message : rstring) : result rstring rstring :=
  match from_utf8 raw with Some text => Ok text | None => Err message end.

(** A line of a record. *)
Definition line (name value : rstring) : rstring := name ++ lit " " ++ value ++ [10%N].

(** ** Leases *)

Record LeaseRecord := mk_lease {
  le_generation : GenerationId;
  le_pid : N;
  le_start_time : N;
  le_boot_id : rstring;
  le_owner_uid : N
}.

#[export] Instance LeaseRecord_eq_dec : EqDecision LeaseRecord.
Proof. solve_decision. Defined.

Definition LeaseRecord_encode (r : LeaseRecord) : list N :=
  str_bytes (lit "realm-generation-lease-v1" ++ [10%N]
    ++ line (lit "generation") (le_generation r)
    ++ line (lit "pid") (decimal (le_pid r))
    ++ line (lit "start-time") (decimal (le_start_time r))
    ++ line (lit "boot-id") (le_boot_id r)
    ++ line (lit "owner-uid") (decimal (le_owner_uid r))).

Definition parse_lease_lines : line_reader LeaseRecord :=
  version ← next_line;
  _ ← expect_that (bool_decide (version = Some (lit "realm-generation-lease-v1")))
        (lit "unsupported generation lease version");
  value ← record_value (lit "generation"); generation ← of_parse (GenerationId_parse value);
  value ← record_value (lit "pid"); pid ← of_parse (canonical_u32 value (lit "lease PID"));
  value ← record_value (lit "start-time"); start_time ← of_parse (canonical_u64 value (lit "lease start time"));
  boot_id ← record_value (lit "boot-id");
  _ ← expect_that (canonical_boot_id boot_id) (lit "lease boot ID is malformed");
  value ← record_value (lit "owner-uid"); owner_uid ← of_parse (canonical_u32 value (lit "lease owner UID"));
  extra ← next_line;
  _ ← expect_that (bool_decide (extra = None)) (lit "generation lease has extra records");
  mret (mk_lease generation pid start_time boot_id owner_uid).

Definition LeaseRecord_parse (raw : list N) : result LeaseRecord rstring :=
  try text := utf8_text raw (lit "generation lease is not UTF-8") in
  try ls := text_lines text (lit "generation lease must use LF-terminated lines") in
  (parse_lease_lines ls).1.

Inductive LifecycleOwnerKind := SystemdScope | ProcessGroup.

#[export] Instance LifecycleOwnerKind_eq_dec : EqDecision LifecycleOwnerKind.
Proof. solve_decision. Defined.

Record LifecycleLeaseRecord := mk_lifecycle_lease {
  ll_generation : GenerationId;
  ll_launch : GenerationId;
  ll_pid : N;
  ll_start_time : N;
  ll_boot_id : rstring;
  ll_owner_uid : N;
  ll_owner_kind : LifecycleOwnerKind;
  ll_unit : rstring;
  ll_unit_invocation : rstring;
  ll_process_group : N;
  ll_cgroup : rstring;
  ll_cgroup_device : N;
  ll_cgroup_inode : N
}.

Definition owner_kind_text (k : LifecycleOwnerKind) : rstring :=
  match k with SystemdScope => lit "systemd-scope" | ProcessGroup => lit "process-group" end.

Definition LifecycleLeaseRecord_encode (r : LifecycleLeaseRecord) : list N :=
  str_bytes (lit "realm-generation-lifecycle-lease-v1" ++ [10%N]
    ++ line (lit "generation") (ll_generation r)
    ++ line (lit "launch") (ll_launch r)
    ++ line (lit "pid") (decimal (ll_pid r))
    ++ line (lit "start-time") (decimal (ll_start_time r))
    ++ line (lit "boot-id") (ll_boot_id r)
    ++ line (lit "owner-uid") (decimal (ll_owner_uid r))
    ++ line (lit "owner-kind") (owner_kind_text (ll_owner_kind r))
    ++ line (lit "unit") (ll_unit r)
    ++ line (lit "unit-invocation") (ll_unit_invocation r)
    ++ line (lit "process-group") (decimal (ll_process_group r))
    ++ line (lit "cgroup") (ll_cgroup r)
    ++ line (lit "cgroup-device") (decimal (ll_cgroup_device r))
    ++ line (lit "cgroup-inode") (decimal (ll_cgroup_inode r))).

(** The two conditions on the identity of the owner. *)
Definition systemd_identity (launch unit invocation : rstring) (process_group : N) (cgroup : rstring)
    (cgroup_device cgroup_inode : N) : bool :=
  (process_group =? 0)%N && bool_decide (unit = lit "realm-launch-" ++ launch ++ lit ".scope")
  && lower_hex_32 invocation && normalized_cgroup_path cgroup
  && negb (cgroup_device =? 0)%N && negb (cgroup_inode =? 0)%N.

Definition process_group_identity (unit invocation : rstring) (pid process_group : N) (cgroup : rstring)
    (cgroup_device cgroup_inode : N) : bool :=
  bool_decide (unit = lit "none") && bool_decide (invocation = lit "none") && (process_group =? pid)%N
  && bool_decide (cgroup = lit "none") && (cgroup_device =? 0)%N && (cgroup_inode =? 0)%N.

Definition parse_lifecycle_lines : line_reader LifecycleLeaseRecord :=
  version ← next_line;
  _ ← expect_that (bool_decide (version = Some (lit "realm-generation-lifecycle-lease-v1")))
        (lit "unsupported lifecycle lease version");
  value ← record_value (lit "generation"); generation ← of_parse (GenerationId_parse value);
  value ← record_value (lit "launch"); launch ← of_parse (GenerationId_parse value);
  value ← record_value (lit "pid"); pid ← of_parse (canonical_u32 value (lit "lifecycle lease PID"));
  _ ← expect_that (negb (pid =? 0)%N) (lit "lifecycle lease PID must be positive");
  value ← record_value (lit "start-time");
  start_time ← of_parse (canonical_positive_u64 value (lit "lifecycle lease start time"));
  boot_id ← record_value (lit "boot-id");
  _ ← expect_that (canonical_boot_id boot_id) (lit "lifecycle lease boot ID is malformed");
  value ← record_value (lit "owner-uid"); owner_uid ← of_parse (canonical_u32 value (lit "lifecycle lease owner UID"));
  value ← record_value (lit "owner-kind");
  owner_kind ← (if decide (value = lit "systemd-scope") then mret SystemdScope
                else if decide (value = lit "process-group") then mret ProcessGroup
                else throw (lit "lifecycle lease owner kind is malformed"));
  unit ← record_value (lit "unit");
  invocation ← record_value (lit "unit-invocation");
  value ← record_value (lit "process-group");
  process_group ← of_parse (canonical_u32 value (lit "lifecycle lease process group"));
  cgroup ← record_value (lit "cgroup");
  value ← record_value (lit "cgroup-device");
  cgroup_device ← of_parse (canonical_u64 value (lit "lifecycle lease cgroup device"));
  value ← record_value (lit "cgroup-inode");
  cgroup_inode ← of_parse (canonical_u64 value (lit "lifecycle lease cgroup inode"));
  extra ← next_line;
  _ ← expect_that (bool_decide (extra = None)) (lit "lifecycle lease has extra records");
  _ ← (match owner_kind with
       | SystemdScope =>
           expect_that (systemd_identity launch unit invocation process_group cgroup cgroup_device cgroup_inode)
             (lit "systemd lifecycle lease identity is malformed")
       | ProcessGroup =>
           expect_that (process_group_identity unit invocation pid process_group cgroup cgroup_device cgroup_inode)
             (lit "process group lifecycle lease identity is malformed")
       end);
  mret (mk_lifecycle_lease generation launch pid start_time boot_id owner_uid owner_kind unit invocation
          process_group cgroup cgroup_device cgroup_inode).

Definition LifecycleLeaseRecord_parse (raw : list N) : result LifecycleLeaseRecord rstring :=
  try text := utf8_text raw (lit "lifecycle lease is not UTF-8") in
  try ls := text_lines text (lit "lifecycle lease must use LF-terminated lines") in
  (parse_lifecycle_lines ls).1.

Inductive ParsedLeaseRecord :=
| ParsedProcess (r : LeaseRecord)
| ParsedLifecycle (r : LifecycleLeaseRecord).

Definition ParsedLeaseRecord_parse (raw : list N) : result ParsedLeaseRecord rstring :=
  let first := head (split_by (λ c, c =? 10)%N raw) in
  if decide (first = Some (lit "realm-generation-lease-v1"))
  then try r := LeaseRecord_parse raw in Ok (ParsedProcess r)
  else if decide (first = Some (lit "realm-generation-lifecycle-lease-v1"))
  then try r := LifecycleLeaseRecord_parse raw in Ok (ParsedLifecycle r)
  else Err (lit "unsupported generation lease version").

Definition ParsedLeaseRecord_encode (r : ParsedLeaseRecord) : list N :=
  match r with ParsedProcess r => LeaseRecord_encode r | ParsedLifecycle r => LifecycleLeaseRecord_encode r end.

(** What an inventory takes from the bytes of an entry: at most 4096 of them, which are
    the canonical ones of the record they spell. *)
Definition read_lease_record (raw : list N) : result ParsedLeaseRecord rstring :=
  ensure length raw <=? N.to_nat 4096 else lit "generation lease inventory entry exceeds 4096 bytes";
  try record := ParsedLeaseRecord_parse raw in
  ensure bool_decide (ParsedLeaseRecord_encode record = raw) else lit "generation lease inventory entry is not canonical";
  Ok record.

Definition lifecycle_matches_process (lifecycle : LifecycleLeaseRecord) (process : LeaseRecord) : bool :=
  bool_decide (ll_generation lifecycle = le_generation process) && (ll_pid lifecycle =? le_pid process)%N
  && (ll_start_time lifecycle =? le_start_time process)%N
  && bool_decide (ll_boot_id lifecycle = le_boot_id process) && (ll_owner_uid lifecycle =? le_owner_uid process)%N.

(** ** The publication order *)

(** A [BTreeMap] is the list of its entries in the order of their keys. *)
Record PublicationOrder := mk_order { next_sequence : N; sequences : list (GenerationId * N) }.

#[export] Instance PublicationOrder_eq_dec : EqDecision PublicationOrder.
Proof. solve_decision. Defined.

Definition PublicationOrder_empty : PublicationOrder := mk_order 1 [].

Definition map_get {A} (key : rstring) (m : list (rstring * A)) : option A :=
  snd <$> find (λ kv, bool_decide (kv.1 = key)) m.

(** [BTreeMap::insert]; the value it replaces is dropped here and asked for by [map_get]. *)
Fixpoint map_insert {A} (key : rstring) (value : A) (m : list (rstring * A)) : list (rstring * A) :=
  match m with
  | [] => [(key, value)]
  | (k, v) :: m' =>
      if str_ltb key k then (key, value) :: m
      else if decide (key = k) then (key, value) :: m'
      else (k, v) :: map_insert key value m'
  end.

Definition order_line (entry : GenerationId * N) : rstring :=
  line (lit "generation") (entry.1 ++ lit " " ++ decimal entry.2).

Definition PublicationOrder_encode (o : PublicationOrder) : list N :=
  str_bytes (lit "realm-generation-publication-order-v1" ++ [10%N]
    ++ line (lit "next-sequence") (decimal (next_sequence o))
    ++ concat (order_line <$> sequences o)).

(** One line of the loop. *)
Definition parse_order_line (l : rstring) : result (GenerationId * N) rstring :=
  match split_by (λ c, c =? 32)%N l with
  | name :: fields =>
      ensure bool_decide (name = lit "generation") else lit "expected publication generation record";
      match fields with
      | [] => Err (lit "publication generation record lacks an identifier")
      | id :: fields =>
          try generation := GenerationId_parse id in
          match fields with
          | [] => Err (lit "publication generation record lacks a sequence")
          | value :: fields =>
              try sequence := canonical_positive_u64 value (lit "publication sequence") in
              ensure bool_decide (fields = []) else lit "publication generation record has extra fields";
              Ok (generation, sequence)
          end
      end
  | [] => Err (lit "expected publication generation record")
  end.

(** The loop; the entries read so far are in [acc], whose last is the previous one. *)
Fixpoint parse_order_lines (next : N) (acc : list (GenerationId * N)) ls : result (list (GenerationId * N)) rstring :=
  match ls with
  | [] => Ok acc
  | l :: ls' =>
      try entry := parse_order_line l in
      ensure match last acc with Some prior => str_ltb prior.1 entry.1 | None => true end
        else lit "publication generation records are not strictly ordered";
      ensure (entry.2 <? next)%N else lit "publication sequence is not below next sequence";
      ensure bool_decide (entry.2 ∉ (snd <$> acc)) else lit "publication sequence is duplicated";
      ensure bool_decide (map_get entry.1 acc = None) else lit "publication generation is duplicated";
      parse_order_lines next (acc ++ [entry]) ls'
  end.

Definition parse_order_head : line_reader N :=
  version ← next_line;
  _ ← expect_that (bool_decide (version = Some (lit "realm-generation-publication-order-v1")))
        (lit "unsupported publication order version");
  value ← record_value (lit "next-sequence");
  of_parse (canonical_positive_u64 value (lit "publication next sequence")).

Definition PublicationOrder_parse (raw : list N) : result PublicationOrder rstring :=
  try text := utf8_text raw (lit "publication order is not UTF-8") in
  try ls := text_lines text (lit "publication order must use LF-terminated lines") in
  match parse_order_head ls with
  | (Ok next, ls') => try entries := parse_order_lines next [] ls' in Ok (mk_order next entries)
  | (Err e, _) => Err e
  end.

Definition reserve_sequence (o : PublicationOrder) : result (N * PublicationOrder) rstring :=
  match u64_checked_add (next_sequence o) 1 with
  | Some next => Ok (next_sequence o, mk_order next (sequences o))
  | None => Err (lit "publication sequence space is exhausted")
  end.

Definition parse_pointer_record (bytes : list N) (name : rstring) : result GenerationId rstring :=
  try record := utf8_text bytes (name ++ lit " is not UTF-8") in
  ensure bool_decide (last record = Some 10%N) else name ++ lit " must end in one LF";
  GenerationId_parse (removelast record).

(** ** Publications and manifests *)

Definition digest_fields : list rstring :=
  [lit "palette-sha256"; lit "catalogue-sha256"; lit "templates-sha256"; lit "renderer-sha256"; lit "launch-profile-sha256"].

Record GenerationPublication := mk_publication {
  input_digests : list rstring;
  outputs : list (rstring * list N)
}.

(** [sort_by] on the path, which is stable. *)
Fixpoint insert_output (o : rstring * list N) (os : list (rstring * list N)) : list (rstring * list N) :=
  match os with
  | [] => [o]
  | o' :: os' => if str_ltb o'.1 o.1 then o' :: insert_output o os' else o :: os
  end.

Definition sort_outputs (os : list (rstring * list N)) : list (rstring * list N) := foldr insert_output [] os.

(** The directories above a path. *)
Definition parent_paths (path : rstring) : list rstring :=
  let cs := components path in (λ n, join 47%N (take n cs)) <$> seq 1 (length cs - 1).

Fixpoint check_outputs (all os : list (rstring * list N)) : result unit rstring :=
  match os with
  | [] => Ok tt
  | (path, _) :: os' =>
      ensure safe_output_path path else lit "unsafe generation output path";
      ensure forallb (λ prefix, bool_decide (prefix ∉ (fst <$> all))) (parent_paths path)
        else lit "generation output paths collide";
      check_outputs all os'
  end.

(** The array of five digests is a list of that length. *)
Definition GenerationPublication_new (digests : list rstring) (os : list (rstring * list N)) :
    result GenerationPublication rstring :=
  ensure forallb sha256_digest digests else lit "generation input digest must be lowercase SHA-256 hex";
  let os := sort_outputs os in
  ensure bool_decide (os ≠ []) else lit "generation publication requires an output";
  ensure bool_decide (NoDup (fst <$> os)) else lit "generation output paths collide";
  try _ := check_outputs os os in
  Ok (mk_publication digests os).

Section digests.
(** [format!("{:x}", Sha256::digest(bytes))] *)
Variable digest_hex : list N → rstring.

Definition input_lines (digests : list rstring) : rstring :=
  concat ((λ '(field, digest), line field digest) <$> zip digest_fields digests).

Definition receipt_text (generation : GenerationId) (digests : list rstring) : rstring :=
  lit "realm-generation-receipt-v1" ++ [10%N] ++ line (lit "generation") generation ++ input_lines digests.

Definition receipt (p : GenerationPublication) (generation : GenerationId) : rstring :=
  receipt_text generation (input_digests p).

Definition output_line (path digest : rstring) : rstring := line (lit "output") (path ++ lit " " ++ digest).

Definition manifest (p : GenerationPublication) (generation : GenerationId) (receipt : rstring) : rstring :=
  lit "realm-generation-manifest-v1" ++ [10%N] ++ line (lit "generation") generation
  ++ input_lines (input_digests p) ++ line (lit "receipt-sha256") (digest_hex (str_bytes receipt))
  ++ concat ((λ '(path, bytes), output_line path (digest_hex bytes)) <$> outputs p).
End digests.

Record Manifest := mk_manifest {
  entries : list (rstring * rstring);
  mf_generation : GenerationId;
  mf_input_digests : list rstring;
  receipt_digest : rstring;
  raw_manifest : rstring
}.

Definition not_digest : rstring := lit "manifest digest must be lowercase SHA-256 hex".

Definition digest_value (field : rstring) : line_reader rstring :=
  digest ← record_value field; _ ← expect_that (sha256_digest digest) not_digest; mret digest.

Fixpoint digest_values (fields : list rstring) : line_reader (list rstring) :=
  match fields with
  | [] => mret []
  | field :: fields' => digest ← digest_value field; rest ← digest_values fields'; mret (digest :: rest)
  end.

Definition parse_output_line (l : rstring) : result (rstring * rstring) rstring :=
  match strip_prefix (lit "output ") l with
  | None => Err (lit "unexpected manifest record")
  | Some rest =>
      match split_once 32%N rest with
      | None => Err (lit "output record lacks digest")
      | Some (path, digest) =>
          ensure negb (bool_decide (path = [])) && safe_output_path path && sha256_digest digest
            else lit "unsafe manifest output record";
          Ok (path, digest)
      end
  end.

Fixpoint parse_output_lines (previous : option rstring) ls : result (list (rstring * rstring)) rstring :=
  match ls with
  | [] => Ok []
  | l :: ls' =>
      try entry := parse_output_line l in
      ensure match previous with Some last => str_ltb last entry.1 | None => true end
        else lit "manifest paths must be unique and sorted";
      try rest := parse_output_lines (Some entry.1) ls' in
      Ok (entry :: rest)
  end.

(** The records before the outputs: the generation, the five digests and the receipt's. *)
Definition parse_manifest_head : line_reader (GenerationId * list rstring * rstring) :=
  version ← next_line;
  _ ← expect_that (bool_decide (version = Some (lit "realm-generation-manifest-v1")))
        (lit "unsupported manifest version");
  value ← record_value (lit "generation"); generation ← of_parse (GenerationId_parse value);
  digests ← digest_values digest_fields;
  receipt ← digest_value (lit "receipt-sha256");
  mret (generation, digests, receipt).

Definition Manifest_parse (input : rstring) : result Manifest rstring :=
  try ls := text_lines input (lit "v1 manifest must use LF-terminated lines") in
  match parse_manifest_head ls with
  | (Ok (generation, digests, receipt), ls') =>
      try es := parse_output_lines None ls' in
      ensure bool_decide (es ≠ []) else lit "v1 manifest requires an output record";
      Ok (mk_manifest es generation digests receipt input)
  | (Err e, _) => Err e
  end.
