(* ===== verification/GenFormats.v ===== *)
(** * The records of the generation store: what the parsers accept

    Lines and numbers first; then, for each record, the texts its parser accepts.  Each
    is an exact description: a line carries one field, and a number has one spelling,
    but for the plus sign that [canonical_u32] lets pass. *)

From Stdlib Require Import ZArith Lia DecimalFacts DecimalPos DecimalN.
From stdpp Require Import prelude list sorting.
From S2P Require Import Prelude Hoare Utf8 Ipc Text GenRecords.

#[local] Arguments lit : simpl never.

(** ** Lines *)

Lemma split_by_ne f s : split_by f s ≠ [].
Proof. destruct s as [|c s]; cbn; [done|]. destruct (f c); [done|]. by destruct (split_by f s). Qed.

Lemma split_by_pieces f s : Forall (free f) (split_by f s).
Proof.
  induction s as [|c s IH]; cbn; [by repeat constructor|].
  destruct (f c) eqn:Hc; [by constructor; [constructor|]|].
  destruct (split_by f s); [by repeat constructor|]. apply Forall_cons in IH as [? ?].
  constructor; [by constructor|done].
Qed.

Lemma join_split_by c s : join c (split_by (λ d, d =? c)%N s) = s.
Proof.
  induction s as [|d s IH]; cbn; [done|]. destruct (N.eqb_spec d c) as [->|].
  - pose proof (split_by_ne (λ d, d =? c)%N s). cbn. rewrite IH. by destruct (split_by _ s).
  - pose proof (split_by_ne (λ d, d =? c)%N s). destruct (split_by _ s) as [|w [|w' ws]]; [done| |]; by rewrite <-IH.
Qed.

Lemma free_eqb c w : free (λ d, d =? c)%N w ↔ c ∉ w.
Proof.
  unfold free. rewrite Forall_forall. split.
  - intros Hw Hin. apply Hw in Hin. by rewrite N.eqb_refl in Hin.
  - intros Hn d Hd. apply N.eqb_neq. by intros ->.
Qed.

(** A text of lines, each with its line feed. *)
Definition unlines (ls : list rstring) : rstring := concat ((λ l, l ++ [10%N]) <$> ls).

Definition plain (l : rstring) : Prop := 10%N ∉ l ∧ 13%N ∉ l.

Lemma unlines_join ls : ls ≠ [] → unlines ls = join 10 ls ++ [10%N].
Proof.
  induction ls as [|l ls IH]; [done|]. intros _. destruct ls as [|l' ls]; [apply app_nil_r|].
  unfold unlines in *. cbn [fmap list_fmap concat] in *. rewrite IH by done.
  change (join 10 (l :: l' :: ls)) with (l ++ 10%N :: join 10 (l' :: ls)).
  by rewrite <-!app_assoc.
Qed.

Lemma elem_of_join c d ws : d ≠ c → d ∈ join c ws ↔ ∃ w, w ∈ ws ∧ d ∈ w.
Proof.
  intros Hne. induction ws as [|w ws IH]; [set_solver|]. destruct ws as [|w' ws]; [cbn; set_solver|].
  change (join c (w :: w' :: ws)) with (w ++ c :: join c (w' :: ws)). rewrite elem_of_app, elem_of_cons, IH. set_solver.
Qed.

Lemma text_lines_Ok text m ls :
  text_lines text m = Ok ls ↔ ls ≠ [] ∧ Forall plain ls ∧ text = unlines ls.
Proof.
  unfold text_lines. rewrite ensure_Ok, andb_true_iff, negb_true_iff, bool_decide_eq_false, bool_decide_eq_true. split.
  - intros [[Hcr Hlast] [= <-]]. pose proof (split_by_ne (λ c, c =? 10)%N (removelast text)) as Hne.
    pose proof (split_by_pieces (λ c, c =? 10)%N (removelast text)) as Hp.
    assert (text = removelast text ++ [10%N]) as Et.
    { destruct text as [|c text] using rev_ind; [done|]. rewrite last_snoc in Hlast. injection Hlast as ->.
      by rewrite removelast_last. }
    pose proof (join_split_by 10 (removelast text)) as Hj. split; [done|]. split.
    + apply Forall_forall. intros w Hw. rewrite Forall_forall in Hp. split; [by apply free_eqb, Hp|].
      intros Hin. apply Hcr. rewrite Et. apply elem_of_app. left. rewrite <-Hj. apply elem_of_join; [done|]. by exists w.
    + by rewrite unlines_join, Hj.
  - intros (Hne & Hp & ->). rewrite unlines_join by done. rewrite removelast_last, last_snoc.
    rewrite split_by_join; [|done|]. 2:{ eapply Forall_impl; [exact Hp|]. intros w [? _]. by apply free_eqb. }
    split; [|done]. split; [|done]. rewrite elem_of_app, elem_of_join by done. intros [(w & Hw & Hc)|Hc]; [|set_solver].
    rewrite Forall_forall in Hp. by apply (Hp w Hw).
Qed.

Lemma unlines_app ls ls' : unlines (ls ++ ls') = unlines ls ++ unlines ls'.
Proof. unfold unlines. by rewrite fmap_app, concat_app. Qed.

(** ** Readers *)

Lemma of_parse_Ok {A} (r : result A rstring) ls a ls' : of_parse r ls = (Ok a, ls') ↔ r = Ok a ∧ ls' = ls.
Proof. unfold of_parse. naive_solver. Qed.

Lemma expect_that_Ok c m ls u ls' : expect_that c m ls = (Ok u, ls') ↔ c = true ∧ ls' = ls.
Proof. unfold expect_that. rewrite of_parse_Ok, require_Ok. done. Qed.

Lemma next_line_Ok ls o ls' :
  next_line ls = (Ok o, ls') ↔ match o with Some l => ls = l :: ls' | None => ls = [] ∧ ls' = [] end.
Proof. destruct ls, o; cbn; naive_solver. Qed.

(** The line of a field. *)
Definition field (name value : rstring) : rstring := name ++ lit " " ++ value.

Lemma record_value_Ok name ls v ls' :
  record_value name ls = (Ok v, ls') ↔ ls = field name v :: ls' ∧ v ≠ [].
Proof.
  unfold record_value, field. split.
  - intros ([l|] & ls1 & Hl & Hv)%stm_bind_Ok; [|done]. apply next_line_Ok in Hl as ->.
    destruct (strip_prefix _ l) as [[|c v']|] eqn:E; [done| |done]. injection Hv as <- <-.
    apply strip_prefix_Some in E as ->. by rewrite <-app_assoc.
  - intros [-> Hv]. assert (strip_prefix (name ++ lit " ") (name ++ lit " " ++ v) = Some v) as E
      by (apply strip_prefix_Some; by rewrite <-app_assoc).
    unfold mbind, stm_bind. cbn [next_line]. rewrite E. by destruct v.
Qed.

Lemma bind_Ok {A B} (m : line_reader A) (k : A → line_reader B) ls b ls' :
  (a ← m; k a) ls = (Ok b, ls') ↔ ∃ a ls1, m ls = (Ok a, ls1) ∧ k a ls1 = (Ok b, ls').
Proof.
  split; [apply stm_bind_Ok|]. intros (a & ls1 & Hm & Hk). unfold mbind, stm_bind. by rewrite Hm.
Qed.

(** ** Numbers *)

Lemma parse_digits_is_digits max acc s n : parse_digits max acc s = Some n → forallb is_digit s = true.
Proof.
  revert acc. induction s as [|d s IH]; intros acc; cbn; [done|].
  unfold is_digit at 1. destruct ((48 <=? d) && (d <=? 57))%N; [|done]. destruct (_ <=? max)%N; [|done].
  intros H. by eapply IH.
Qed.

Lemma parse_digits_le max acc s n : parse_digits max acc s = Some n → (acc <= max)%N → (n <= max)%N.
Proof.
  revert acc. induction s as [|d s IH]; intros acc; cbn; [by intros [= <-]|].
  destruct (_ && _)%N; [|done]. destruct (N.leb_spec (acc * 10 + (d - 48)) max); [|done]. intros Hp _. by eapply IH.
Qed.

Lemma parse_digits_mono max max' acc s n :
  (max <= max')%N → parse_digits max acc s = Some n → parse_digits max' acc s = Some n.
Proof.
  intros Hle. revert acc. induction s as [|d s IH]; intros acc; cbn; [done|].
  destruct (_ && _)%N; [|done]. destruct (N.leb_spec (acc * 10 + (d - 48)) max); [|done].
  destruct (N.leb_spec (acc * 10 + (d - 48)) max'); [|lia]. apply IH.
Qed.

Lemma digits_uint s : forallb is_digit s = true → ∃ d, uint_chars d = s.
Proof.
  induction s as [|c s IH]; [by exists Decimal.Nil|]. cbn. intros [Hc Hs]%andb_true_iff.
  destruct (IH Hs) as [d <-]. unfold is_digit in Hc. apply andb_true_iff in Hc as [?%N.leb_le ?%N.leb_le].
  assert (c = 48 ∨ c = 49 ∨ c = 50 ∨ c = 51 ∨ c = 52 ∨ c = 53 ∨ c = 54 ∨ c = 55 ∨ c = 56 ∨ c = 57)%N as Hc by lia.
  destruct_or! Hc; subst c;
    [exists (Decimal.D0 d)|exists (Decimal.D1 d)|exists (Decimal.D2 d)|exists (Decimal.D3 d)|exists (Decimal.D4 d)
    |exists (Decimal.D5 d)|exists (Decimal.D6 d)|exists (Decimal.D7 d)|exists (Decimal.D8 d)|exists (Decimal.D9 d)]; done.
Qed.

Lemma parse_digits_value max d n : parse_digits max 0 (uint_chars d) = Some n → n = N.of_uint d.
Proof.
  intros Hp. apply (parse_digits_mono _ (N.max max (N.of_uint d))) in Hp; [|lia].
  rewrite parse_digits_uint in Hp by lia. by injection Hp.
Qed.

Lemma decimal_canonical n : decimal n = lit "0" ∨ ∃ c s, decimal n = c :: s ∧ c ≠ 48%N.
Proof.
  unfold decimal. pose proof (DecimalN.Unsigned.to_of (N.to_uint n)) as E0.
  rewrite DecimalN.Unsigned.of_to in E0. rewrite E0. unfold Decimal.unorm. destruct (Decimal.nzhead (N.to_uint n)) as [|d|d|d|d|d|d|d|d|d|d] eqn:E;
    [by left|by destruct (DecimalFacts.nzhead_nonzero (N.to_uint n) d)|right; by eexists _, _..].
Qed.

(** Digits without a leading zero are the decimal of their value. *)
Lemma parse_digits_decimal max s n :
  s ≠ [] → leading_zero s = false → parse_digits max 0 s = Some n → s = decimal n ∧ (n <= max)%N.
Proof.
  intros Hne Hz Hp. pose proof (parse_digits_le _ _ _ _ Hp). split; [|lia].
  destruct (digits_uint s) as [d <-]; [by eapply parse_digits_is_digits|].
  apply parse_digits_value in Hp as ->. unfold decimal. rewrite DecimalN.Unsigned.to_of. unfold Decimal.unorm.
  destruct d as [|d|d|d|d|d|d|d|d|d|d]; try done.
  destruct d as [|d|d|d|d|d|d|d|d|d|d]; [done|cbn in Hz; discriminate..].
Qed.

Lemma str_len_decimal n : str_len (decimal n) = length (decimal n).
Proof.
  unfold str_len. pose proof (decimal_digits n) as Hd. induction Hd as [|c s Hc _ IH]; [done|].
  cbn. rewrite IH. unfold len_utf8. destruct (N.ltb_spec c 128); [done|lia].
Qed.

Lemma decimal_leading n : leading_zero (decimal n) = false.
Proof.
  unfold leading_zero. destruct (decimal_canonical n) as [->|(c & s & -> & Hc)]; [done|].
  apply andb_false_iff. right. unfold starts_with. apply bool_decide_eq_false. intros [r Hr].
  apply strip_prefix_Some in Hr. by injection Hr as ->.
Qed.

(** A text of bytes below 128 is its bytes. *)
Definition ascii (s : rstring) : Prop := Forall (λ c, c < 128)%N s.

Lemma ascii_app s t : ascii (s ++ t) ↔ ascii s ∧ ascii t.
Proof. apply Forall_app. Qed.

Lemma ascii_bytes s : ascii s → str_bytes s = s.
Proof.
  induction 1 as [|c s Hc _ IH]; [done|]. change (encode_utf8 c ++ str_bytes s = c :: s). rewrite IH.
  unfold encode_utf8. by rewrite (proj2 (N.ltb_lt _ _) Hc).
Qed.

Lemma ascii_text s : ascii s → is_text s.
Proof.
  intros Hs. eapply Forall_impl; [exact Hs|]. intros c Hc. unfold is_char. cbn in Hc.
  apply orb_true_iff. left. apply N.ltb_lt. lia.
Qed.

Lemma decimal_ascii n : ascii (decimal n).
Proof. eapply Forall_impl; [apply decimal_digits|]. cbn. lia. Qed.

Lemma encode_utf8_small c : Forall (λ b, b < 128)%N (encode_utf8 c) → (c < 128)%N.
Proof.
  unfold encode_utf8. destruct (N.ltb_spec c 128); [done|].
  repeat case_match; intros [Hb _]%Forall_cons; cbn in Hb; exfalso; revert Hb;
    match goal with |- (?k + ?q < 128)%N → _ => generalize q; lia end.
Qed.

Lemma bytes_ascii P s : (∀ c, P c = true → (c < 128)%N) → forallb P (str_bytes s) = true → ascii s ∧ forallb P s = true.
Proof.
  intros HP Hs. assert (ascii s) as Ha.
  { apply Is_true_true_2, forallb_True in Hs. revert Hs. induction s as [|c s IH]; [by constructor|].
    change (str_bytes (c :: s)) with (encode_utf8 c ++ str_bytes s). intros [Hc Hs]%Forall_app.
    constructor; [|by apply IH]. apply encode_utf8_small. eapply Forall_impl; [exact Hc|].
    intros b Hb. apply HP. by apply Is_true_true in Hb. }
  split; [done|]. by rewrite ascii_bytes in Hs.
Qed.

Lemma is_digit_small c : is_digit c = true → (c < 128)%N.
Proof. unfold is_digit. intros [_ ?%N.leb_le]%andb_true_iff. lia. Qed.

Lemma is_lower_hex_small c : is_lower_hex c = true → (c < 128)%N.
Proof.
  unfold is_lower_hex. intros [?%is_digit_small|[_ ?%N.leb_le]%andb_true_iff]%orb_true_iff; [done|lia].
Qed.

Lemma is_alphanumeric_small c : is_alphanumeric c = true → (c < 128)%N.
Proof.
  unfold is_alphanumeric. intros [[?%is_digit_small|[_ ?%N.leb_le]%andb_true_iff]%orb_true_iff|[_ ?%N.leb_le]%andb_true_iff]%orb_true_iff;
    [done|lia..].
Qed.

Lemma canonical_u64_Ok v f n : canonical_u64 v f = Ok n ↔ v = decimal n ∧ (n <= u64_max)%N.
Proof.
  unfold canonical_u64. split.
  - destruct (bool_decide _) eqn:Hne; cbn; [done|]. apply bool_decide_eq_false in Hne.
    destruct (forallb is_digit (str_bytes v)) eqn:Hd; cbn; [|done].
    destruct (leading_zero v) eqn:Hz; [done|]. destruct (parse_uint u64_max v) as [k|] eqn:Hp; [|done]. intros [= <-].
    apply bytes_ascii in Hd as [_ Hd]; [|exact is_digit_small].
    assert (parse_digits u64_max 0 v = Some k) as Hk.
    { unfold parse_uint in Hp. destruct v as [|c v]; [done|]. cbn in Hd. apply andb_true_iff in Hd as [Hc _].
      destruct (decide (c = 43%N)) as [->|Hc43]; [done|].
      destruct c as [|p]; [done|]. do 6 (destruct p as [p|p|]; try exact Hp; try done). }
    by apply parse_digits_decimal.
  - intros [-> Hle]. rewrite bool_decide_eq_false_2 by apply decimal_nonempty.
    rewrite ascii_bytes by apply decimal_ascii. rewrite decimal_leading.
    assert (forallb is_digit (decimal n) = true) as ->.
    { apply Is_true_true, forallb_True. eapply Forall_impl; [apply decimal_digits|]. intros c Hc. apply Is_true_true. unfold is_digit.
      apply andb_true_iff. by rewrite !N.leb_le. }
    cbn. by rewrite parse_decimal.
Qed.

Lemma canonical_positive_u64_Ok v f n : canonical_positive_u64 v f = Ok n ↔ v = decimal n ∧ (0 < n <= u64_max)%N.
Proof.
  unfold canonical_positive_u64. rewrite rbind_Ok. setoid_rewrite ensure_Ok. setoid_rewrite canonical_u64_Ok.
  setoid_rewrite negb_true_iff. setoid_rewrite N.eqb_neq. split.
  - intros (k & [-> ?] & ? & [= ->]). split; [done|lia].
  - intros [-> ?]. exists n. split; [split; [done|lia]|]. split; [lia|done].
Qed.

(** The spellings of a number [canonical_u32] takes: the canonical one, or a plus sign
    and any digits. *)
Definition spells_u32 (v : rstring) (n : N) : Prop :=
  v = decimal n ∧ (n <= u32_max)%N ∨ ∃ d, v = 43%N :: d ∧ d ≠ [] ∧ parse_digits u32_max 0 d = Some n.

Lemma canonical_u32_Ok v f n : canonical_u32 v f = Ok n ↔ spells_u32 v n.
Proof.
  unfold canonical_u32, spells_u32. split.
  - destruct (bool_decide _) eqn:Hne; cbn; [done|]. apply bool_decide_eq_false in Hne.
    destruct (leading_zero v) eqn:Hz; [done|]. destruct (parse_uint u32_max v) as [k|] eqn:Hp; [|done]. intros [= <-].
    unfold parse_uint in Hp. destruct v as [|c v]; [done|].
    destruct (decide (c = 43%N)) as [->|Hc43]; [right; exists v; by destruct v|]. left.
    apply parse_digits_decimal; [done..|].
    destruct c as [|p]; [done|]. do 6 (destruct p as [p|p|]; try exact Hp; try done).
  - intros [[-> Hle]|(d & -> & Hd & Hp)].
    + rewrite bool_decide_eq_false_2 by apply decimal_nonempty. cbn. rewrite decimal_leading, parse_decimal by done. done.
    + rewrite bool_decide_eq_false_2 by done. unfold leading_zero, starts_with.
      rewrite (bool_decide_eq_false_2 (is_Some _)) by (intros [r Hr]; by apply strip_prefix_Some in Hr).
      rewrite andb_false_r. cbn. destruct d; [done|]. cbn in *. by rewrite Hp.
Qed.

Lemma spells_decimal n : (n <= u32_max)%N → spells_u32 (decimal n) n.
Proof. by left. Qed.

Lemma GenerationId_parse_Ok v g : GenerationId_parse v = Ok g ↔ v = g ∧ lower_hex_32 g = true.
Proof.
  unfold GenerationId_parse, lower_hex_32. destruct (lower_hex 32 v) eqn:E; split; [by intros [= <-]|by intros [-> _]|done|].
  intros [-> Hh]. by rewrite E in Hh.
Qed.

Lemma lower_hex_ascii len v : lower_hex len v = true → ascii v ∧ forallb is_lower_hex v = true ∧ length v = len.
Proof.
  unfold lower_hex. intros [Hl Hv]%andb_true_iff. apply Nat.eqb_eq in Hl.
  apply bytes_ascii in Hv as [Ha Hv]; [|exact is_lower_hex_small]. split_and!; [done|done|].
  by rewrite <-Hl, <-length_str_bytes, ascii_bytes.
Qed.

(** ** Printable fields *)

(** A text of printable ASCII: it is one line, and its bytes are its characters. *)
Definition graphic (s : rstring) : Prop := Forall (λ c, 32 <= c < 127)%N s.

Lemma graphic_app s t : graphic (s ++ t) ↔ graphic s ∧ graphic t.
Proof. apply Forall_app. Qed.

Lemma graphic_plain s : graphic s → plain s.
Proof. intros Hs. unfold graphic in Hs. rewrite Forall_forall in Hs. split; intros Hin%Hs; lia. Qed.

Lemma graphic_ascii s : graphic s → ascii s.
Proof. intros Hs. eapply Forall_impl; [exact Hs|]. cbn. lia. Qed.

Lemma forallb_graphic P s : (∀ c, P c = true → 32 <= c < 127)%N → forallb P s = true → graphic s.
Proof.
  intros HP Hs%Is_true_true_2%forallb_True. eapply Forall_impl; [exact Hs|]. intros c Hc. by apply HP, Is_true_true.
Qed.

Lemma is_digit_graphic c : is_digit c = true → (32 <= c < 127)%N.
Proof. unfold is_digit. rewrite andb_true_iff, !N.leb_le. lia. Qed.

Lemma is_lower_hex_graphic c : is_lower_hex c = true → (32 <= c < 127)%N.
Proof. unfold is_lower_hex, is_digit. rewrite orb_true_iff, !andb_true_iff, !N.leb_le. lia. Qed.

Lemma is_alphanumeric_graphic c : is_alphanumeric c = true → (32 <= c < 127)%N.
Proof. unfold is_alphanumeric, is_digit. rewrite !orb_true_iff, !andb_true_iff, !N.leb_le. lia. Qed.

Lemma hex_graphic len v : lower_hex len v = true → graphic v.
Proof. intros (_ & Hv & _)%lower_hex_ascii. eapply forallb_graphic; [exact is_lower_hex_graphic|done]. Qed.

Lemma decimal_graphic n : graphic (decimal n).
Proof. eapply Forall_impl; [apply decimal_digits|]. cbn. lia. Qed.

Lemma spells_graphic v n : spells_u32 v n → graphic v ∧ v ≠ [].
Proof.
  intros [[-> _]|(d & -> & _ & Hp)]; [split; [apply decimal_graphic|apply decimal_nonempty]|].
  split; [|done]. constructor; [lia|]. apply parse_digits_is_digits in Hp.
  by eapply forallb_graphic; [exact is_digit_graphic|].
Qed.

Lemma boot_id_graphic v : canonical_boot_id v = true → graphic v ∧ v ≠ [].
Proof.
  unfold canonical_boot_id. intros [Hl Hv]%andb_true_iff. apply Nat.eqb_eq in Hl.
  assert (forallb (λ c, (c =? 45)%N || is_lower_hex c) (str_bytes v) = true) as Hb.
  { apply Is_true_true, forallb_True, Forall_forall. intros c Hc. apply Is_true_true.
    apply list_elem_of_lookup in Hc as [i Hi].
    apply Is_true_true_2, forallb_True in Hv. rewrite Forall_forall in Hv.
    assert ((i, c) ∈ imap pair (str_bytes v)) as Hin.
    { apply list_elem_of_lookup. exists i. by rewrite list_lookup_imap, Hi. }
    apply Hv, Is_true_true in Hin. cbn in Hin. apply orb_true_iff. case_bool_decide; auto. }
  apply bytes_ascii in Hb as [Ha Hb].
  2:{ intros c [->%N.eqb_eq|Hc%is_lower_hex_small]%orb_true_iff; [lia|done]. }
  split; [|intros ->; done]. eapply forallb_graphic; [|exact Hb].
  intros c [->%N.eqb_eq|Hc%is_lower_hex_graphic]%orb_true_iff; [lia|done].
Qed.

Lemma hex_nonempty len v : len ≠ 0 → lower_hex len v = true → v ≠ [].
Proof. intros Hl (_ & _ & Hv)%lower_hex_ascii ->. by destruct len. Qed.

Lemma lit_graphic s : forallb (λ c, (32 <=? c)%N && (c <? 127)%N) (lit s) = true → graphic (lit s).
Proof. apply forallb_graphic. intros c. rewrite andb_true_iff, N.leb_le, N.ltb_lt. done. Qed.

Lemma field_graphic name v : graphic name → graphic v → graphic (field name v).
Proof. intros. unfold field. rewrite !graphic_app. split_and!; [done|by repeat constructor|done]. Qed.

(** The texts of graphic lines are read back as those lines. *)
Lemma graphic_lines_read ls m m' :
  ls ≠ [] → Forall graphic ls →
  (try text := utf8_text (str_bytes (unlines ls)) m in text_lines text m') = Ok ls.
Proof.
  intros Hne Hls. unfold utf8_text. rewrite from_utf8_str_bytes.
  - cbn. apply text_lines_Ok. split_and!; [done| |done]. eapply Forall_impl; [exact Hls|exact graphic_plain].
  - apply ascii_text. unfold unlines. clear Hne. induction Hls as [|l ls Hl _ IH]; [by constructor|].
    cbn [fmap list_fmap concat]. rewrite !ascii_app. split_and!; [by apply graphic_ascii|by repeat constructor|done].
Qed.

Lemma lines_read raw m m' ls :
  (try text := utf8_text raw m in text_lines text m') = Ok ls → raw = str_bytes (unlines ls).
Proof.
  rewrite rbind_Ok. unfold utf8_text. intros (text & Ht & Hl). destruct (from_utf8 raw) as [t|] eqn:Hu; [|done].
  injection Ht as ->. apply from_utf8_Some in Hu as [_ <-]. by apply text_lines_Ok in Hl as (_ & _ & ->).
Qed.

#[export] Hint Resolve graphic_plain field_graphic decimal_graphic decimal_nonempty : realm.

(** ** Reading *)

Lemma bind_step {A B} (m : line_reader A) (k : A → line_reader B) ls a ls1 :
  m ls = (Ok a, ls1) → (x ← m; k x) ls = k a ls1.
Proof. intros Hm. unfold mbind, stm_bind. by rewrite Hm. Qed.

Lemma bind_next {B} (k : option rstring → line_reader B) l ls : (x ← next_line; k x) (l :: ls) = k (Some l) ls.
Proof. done. Qed.

Lemma bind_end {B} (k : option rstring → line_reader B) : (x ← next_line; k x) [] = k None [].
Proof. done. Qed.

Lemma bind_value {B} (k : rstring → line_reader B) name v ls :
  v ≠ [] → (x ← record_value name; k x) (field name v :: ls) = k v ls.
Proof. intros Hv. by apply bind_step, record_value_Ok. Qed.

Lemma bind_parse {A B} (r : result A rstring) (k : A → line_reader B) a ls :
  r = Ok a → (x ← of_parse r; k x) ls = k a ls.
Proof. intros ->. done. Qed.

Lemma bind_expect {B} c m (k : unit → line_reader B) ls : c = true → (x ← expect_that c m; k x) ls = k tt ls.
Proof. intros ->. done. Qed.

(** What a successful reader has read. *)
Ltac inv_read :=
  repeat match goal with
  | H : mbind _ _ _ = (Ok _, _) |- _ => apply bind_Ok in H as (? & ? & ? & ?)
  | H : record_value _ _ = (Ok _, _) |- _ => apply record_value_Ok in H as [? ?]; subst
  | H : of_parse _ _ = (Ok _, _) |- _ => apply of_parse_Ok in H as [? ?]; subst
  | H : expect_that _ _ _ = (Ok _, _) |- _ => apply expect_that_Ok in H as [? ?]; subst
  | H : mret _ _ = (Ok _, _) |- _ => injection H as ? ?; subst
  | H : next_line _ = (Ok (Some _), _) |- _ => apply next_line_Ok in H; subst
  | H : next_line _ = (Ok None, _) |- _ => apply next_line_Ok in H as [? ?]; subst
  | H : GenerationId_parse _ = Ok _ |- _ => apply GenerationId_parse_Ok in H as [? ?]; subst
  | H : canonical_u32 _ _ = Ok _ |- _ => apply canonical_u32_Ok in H
  | H : canonical_u64 _ _ = Ok _ |- _ => apply canonical_u64_Ok in H as [? ?]; subst
  | H : canonical_positive_u64 _ _ = Ok _ |- _ => apply canonical_positive_u64_Ok in H as [? ?]; subst
  | H : bool_decide _ = true |- _ => apply bool_decide_eq_true in H; subst
  | H : negb _ = true |- _ => apply negb_true_iff in H
  end; subst.

(** A reader runs to its end. *)
Ltac read_on :=
  repeat first
    [ rewrite bind_next
    | rewrite bind_end
    | rewrite bind_value by eauto with realm
    | erewrite bind_parse by
        (first [apply GenerationId_parse_Ok|apply canonical_u32_Ok|apply canonical_u64_Ok|apply canonical_positive_u64_Ok];
         eauto with realm)
    | rewrite bind_expect by eauto with realm ].

Definition lease_wf (r : LeaseRecord) : Prop :=
  lower_hex_32 (le_generation r) = true ∧ (le_start_time r <= u64_max)%N ∧ canonical_boot_id (le_boot_id r) = true.

Definition lease_lines (r : LeaseRecord) (pid uid : rstring) : list rstring :=
  [lit "realm-generation-lease-v1"; field (lit "generation") (le_generation r); field (lit "pid") pid;
   field (lit "start-time") (decimal (le_start_time r)); field (lit "boot-id") (le_boot_id r);
   field (lit "owner-uid") uid].

Lemma parse_lease_lines_Ok ls r ls' :
  parse_lease_lines ls = (Ok r, ls') ↔
  ∃ pid uid, ls = lease_lines r pid uid ∧ ls' = [] ∧ lease_wf r
    ∧ spells_u32 pid (le_pid r) ∧ spells_u32 uid (le_owner_uid r).
Proof.
  split.
  - unfold parse_lease_lines. intros H. inv_read.
    by eexists _, _.
  - intros (pid & uid & -> & -> & (Hg & Hs & Hb) & Hp & Hu). unfold parse_lease_lines, lease_lines.
    pose proof (hex_nonempty 32 _ ltac:(done) Hg). pose proof (spells_graphic _ _ Hp) as [_ ?].
    pose proof (spells_graphic _ _ Hu) as [_ ?]. pose proof (boot_id_graphic _ Hb) as [_ ?].
    read_on. by destruct r.
Qed.

(** Lines of literals and printable fields. *)
Ltac graphics :=
  repeat match goal with
  | |- Forall graphic [] => apply Forall_nil_2
  | |- Forall graphic (_ :: _) => apply Forall_cons; split
  | |- graphic (lit _) => apply lit_graphic; reflexivity
  | |- graphic (field _ _) => apply field_graphic
  end; eauto with realm.

(** The parsers of records end with the lines. *)
Lemma read_record {A} (p : line_reader A) (P : list rstring → A → Prop) raw m m' a :
  (∀ ls a ls', p ls = (Ok a, ls') ↔ P ls a ∧ ls' = []) →
  (∀ ls a, P ls a → ls ≠ [] ∧ Forall graphic ls) →
  (try text := utf8_text raw m in try ls := text_lines text m' in (p ls).1) = Ok a ↔
  ∃ ls, raw = str_bytes (unlines ls) ∧ P ls a.
Proof.
  intros Hp Hg.
  assert ((try text := utf8_text raw m in try ls := text_lines text m' in (p ls).1)
    = (try ls := (try text := utf8_text raw m in text_lines text m') in (p ls).1)) as ->
    by by destruct (utf8_text raw m).
  rewrite rbind_Ok. split.
  - intros (ls & Hl & Ha). exists ls. split; [by eapply lines_read|].
    destruct (p ls) as [r ls'] eqn:E. cbn in Ha. subst r. by apply Hp in E as [? _].
  - intros (ls & -> & HP). exists ls. destruct (Hg _ _ HP) as [Hne Hgr]. split; [by apply graphic_lines_read|].
    by rewrite (proj2 (Hp ls a []) (conj HP eq_refl)).
Qed.

Definition lease_spelled (ls : list rstring) (r : LeaseRecord) : Prop :=
  ∃ pid uid, ls = lease_lines r pid uid ∧ lease_wf r ∧ spells_u32 pid (le_pid r) ∧ spells_u32 uid (le_owner_uid r).

Lemma lease_spelled_graphic ls r : lease_spelled ls r → ls ≠ [] ∧ Forall graphic ls.
Proof.
  intros (pid & uid & -> & (Hg & _ & Hb) & [Hp _]%spells_graphic & [Hu _]%spells_graphic). split; [done|].
  pose proof (hex_graphic _ _ Hg). pose proof (boot_id_graphic _ Hb) as [? _].
  unfold lease_lines. graphics.
Qed.

Lemma LeaseRecord_parse_Ok raw r :
  LeaseRecord_parse raw = Ok r ↔ ∃ ls, raw = str_bytes (unlines ls) ∧ lease_spelled ls r.
Proof.
  apply (read_record parse_lease_lines lease_spelled); [|apply lease_spelled_graphic].
  intros ls a ls'. rewrite parse_lease_lines_Ok. unfold lease_spelled. naive_solver.
Qed.

Lemma line_field name v : line name v = field name v ++ [10%N].
Proof. unfold line, field. by rewrite <-!app_assoc. Qed.

Lemma LeaseRecord_encode_lines r :
  LeaseRecord_encode r
  = str_bytes (unlines (lease_lines r (decimal (le_pid r)) (decimal (le_owner_uid r)))).
Proof.
  unfold LeaseRecord_encode, lease_lines, unlines. rewrite !line_field. cbn [fmap list_fmap concat].
  by rewrite app_nil_r, <-!app_assoc.
Qed.

Lemma cgroup_graphic v : normalized_cgroup_path v = true → graphic v.
Proof.
  unfold normalized_cgroup_path. rewrite !andb_true_iff. intros [_ Hv%Is_true_true_2%forallb_True].
  rewrite <-(join_split_by 47 v). revert Hv. generalize (split_by (λ c, c =? 47)%N v). intros ws Hw.
  induction Hw as [|w ws Hc Hw IH]; [by constructor|]. apply Is_true_true in Hc. rewrite !andb_true_iff in Hc.
  destruct Hc as [_ Hc]. apply bytes_ascii in Hc as [_ Hc].
  2:{ unfold cgroup_byte. intros c [?%is_alphanumeric_small|Hin%bool_decide_eq_true]%orb_true_iff; [done|]. set_unfold in Hin. lia. }
  assert (graphic w) as Hg.
  { eapply forallb_graphic; [|exact Hc]. unfold cgroup_byte.
    intros c [?%is_alphanumeric_graphic|Hin%bool_decide_eq_true]%orb_true_iff; [done|]. set_unfold in Hin. lia. }
  destruct ws as [|w' ws]; [done|]. change (graphic (w ++ 47%N :: join 47 (w' :: ws))).
  apply graphic_app. split; [done|]. constructor; [lia|done].
Qed.

Definition lifecycle_wf (r : LifecycleLeaseRecord) : Prop :=
  lower_hex_32 (ll_generation r) = true ∧ lower_hex_32 (ll_launch r) = true ∧ ll_pid r ≠ 0%N
  ∧ (0 < ll_start_time r <= u64_max)%N ∧ canonical_boot_id (ll_boot_id r) = true
  ∧ (ll_cgroup_device r <= u64_max)%N ∧ (ll_cgroup_inode r <= u64_max)%N
  ∧ match ll_owner_kind r with
    | SystemdScope => systemd_identity (ll_launch r) (ll_unit r) (ll_unit_invocation r) (ll_process_group r)
        (ll_cgroup r) (ll_cgroup_device r) (ll_cgroup_inode r)
    | ProcessGroup => process_group_identity (ll_unit r) (ll_unit_invocation r) (ll_pid r) (ll_process_group r)
        (ll_cgroup r) (ll_cgroup_device r) (ll_cgroup_inode r)
    end = true.

Definition lifecycle_lines (r : LifecycleLeaseRecord) (pid uid group : rstring) : list rstring :=
  [lit "realm-generation-lifecycle-lease-v1"; field (lit "generation") (ll_generation r);
   field (lit "launch") (ll_launch r); field (lit "pid") pid;
   field (lit "start-time") (decimal (ll_start_time r)); field (lit "boot-id") (ll_boot_id r);
   field (lit "owner-uid") uid; field (lit "owner-kind") (owner_kind_text (ll_owner_kind r));
   field (lit "unit") (ll_unit r); field (lit "unit-invocation") (ll_unit_invocation r);
   field (lit "process-group") group; field (lit "cgroup") (ll_cgroup r);
   field (lit "cgroup-device") (decimal (ll_cgroup_device r));
   field (lit "cgroup-inode") (decimal (ll_cgroup_inode r))].

Definition lifecycle_spelled (ls : list rstring) (r : LifecycleLeaseRecord) : Prop :=
  ∃ pid uid group, ls = lifecycle_lines r pid uid group ∧ lifecycle_wf r
    ∧ spells_u32 pid (ll_pid r) ∧ spells_u32 uid (ll_owner_uid r) ∧ spells_u32 group (ll_process_group r).

Lemma identity_graphic r :
  lifecycle_wf r →
  (graphic (ll_unit r) ∧ ll_unit r ≠ []) ∧ (graphic (ll_unit_invocation r) ∧ ll_unit_invocation r ≠ [])
  ∧ (graphic (ll_cgroup r) ∧ ll_cgroup r ≠ []).
Proof.
  intros (_ & Hl & _ & _ & _ & _ & _ & Hid). destruct (ll_owner_kind r).
  - unfold systemd_identity in Hid. rewrite !andb_true_iff, bool_decide_eq_true in Hid.
    destruct Hid as [[[[[_ Hu] Hi] Hc] _] _]. split_and!.
    + rewrite Hu, !graphic_app. split_and!; [by apply lit_graphic|by eapply hex_graphic|by apply lit_graphic].
    + rewrite Hu. done.
    + by eapply hex_graphic.
    + by apply (hex_nonempty 32).
    + by apply cgroup_graphic.
    + intros Hn. by rewrite Hn in Hc.
  - unfold process_group_identity in Hid. rewrite !andb_true_iff, !bool_decide_eq_true in Hid.
    destruct Hid as [[[[[-> ->] _] ->] _] _]. by split_and!; try apply lit_graphic.
Qed.

Lemma parse_lifecycle_lines_Ok ls r ls' :
  parse_lifecycle_lines ls = (Ok r, ls') ↔ lifecycle_spelled ls r ∧ ls' = [].
Proof.
  unfold lifecycle_spelled. split.
  - unfold parse_lifecycle_lines. intros H. inv_read.
    match goal with H : context [decide (?v = lit "systemd-scope")] |- _ => rename H into Hk end.
    case_decide; [|case_decide; [|done]]; injection Hk as ? ?; subst; inv_read;
      (split; [|done]); eexists _, _, _; (split; [reflexivity|]); (split; [|by eauto]);
      unfold lifecycle_wf; cbn; split_and!; first [done|by apply N.eqb_neq|lia].
  - intros [(pid & uid & group & -> & Hwf & Hp & Hu & Hpg) ->].
    pose proof (identity_graphic r Hwf) as ([_ ?] & [_ ?] & [_ ?]).
    destruct Hwf as (Hg & Hl & Hpid & Hs & Hb & Hd & Hi & Hid).
    unfold parse_lifecycle_lines, lifecycle_lines.
    pose proof (hex_nonempty 32 _ ltac:(done) Hg). pose proof (hex_nonempty 32 _ ltac:(done) Hl).
    pose proof (spells_graphic _ _ Hp) as [_ ?]. pose proof (spells_graphic _ _ Hu) as [_ ?].
    pose proof (spells_graphic _ _ Hpg) as [_ ?]. pose proof (boot_id_graphic _ Hb) as [_ ?].
    assert ((ll_pid r =? 0)%N = false) as Hpid' by by apply N.eqb_neq.
    assert (negb (ll_pid r =? 0)%N = true) by by rewrite Hpid'.
    assert (owner_kind_text (ll_owner_kind r) ≠ []) by by destruct (ll_owner_kind r).
    read_on. destruct r as [g l p st b u k un inv pg cg cd ci]. cbn in *.
    destruct k; cbn; (erewrite bind_step by reflexivity); read_on; done.
Qed.

Lemma lifecycle_spelled_graphic ls r : lifecycle_spelled ls r → ls ≠ [] ∧ Forall graphic ls.
Proof.
  intros (pid & uid & group & -> & Hwf & [Hp _]%spells_graphic & [Hu _]%spells_graphic & [Hg _]%spells_graphic).
  split; [done|]. pose proof (identity_graphic r Hwf) as ([? _] & [? _] & [? _]).
  destruct Hwf as (Hgen & Hl & _ & _ & Hb & _). pose proof (hex_graphic _ _ Hgen). pose proof (hex_graphic _ _ Hl).
  pose proof (boot_id_graphic _ Hb) as [? _]. unfold lifecycle_lines. destruct (ll_owner_kind r); cbn [owner_kind_text]; graphics.
Qed.

Lemma LifecycleLeaseRecord_parse_Ok raw r :
  LifecycleLeaseRecord_parse raw = Ok r ↔ ∃ ls, raw = str_bytes (unlines ls) ∧ lifecycle_spelled ls r.
Proof.
  apply (read_record parse_lifecycle_lines lifecycle_spelled); [|apply lifecycle_spelled_graphic].
  intros ls a ls'. apply parse_lifecycle_lines_Ok.
Qed.

Lemma LifecycleLeaseRecord_encode_lines r :
  LifecycleLeaseRecord_encode r
  = str_bytes (unlines (lifecycle_lines r (decimal (ll_pid r)) (decimal (ll_owner_uid r)) (decimal (ll_process_group r)))).
Proof.
  unfold LifecycleLeaseRecord_encode, lifecycle_lines, unlines. rewrite !line_field. cbn [fmap list_fmap concat].
  by rewrite app_nil_r, <-!app_assoc.
Qed.

(** ** Leases, as an inventory reads them *)

Lemma spells_le v n : spells_u32 v n → (n <= u32_max)%N.
Proof. intros [[_ ?]|(d & _ & _ & Hp)]; [done|]. apply parse_digits_le in Hp; [done|]. by vm_compute. Qed.

Lemma unlines_ascii ls : Forall graphic ls → ascii (unlines ls).
Proof.
  induction 1 as [|l ls Hl _ IH]; [by constructor|]. unfold unlines in *. cbn [fmap list_fmap concat].
  rewrite !ascii_app. split_and!; [by apply graphic_ascii|by repeat constructor|done].
Qed.

Lemma first_line l ls : Forall graphic (l :: ls) → head (split_by (λ c, c =? 10)%N (str_bytes (unlines (l :: ls)))) = Some l.
Proof.
  intros Hg. rewrite ascii_bytes by by apply unlines_ascii. apply Forall_cons in Hg as [Hl _].
  change (unlines (l :: ls)) with ((l ++ [10%N]) ++ unlines ls). rewrite <-app_assoc. cbn [app].
  rewrite split_by_app; [done|by apply free_eqb, graphic_plain|done].
Qed.

Definition lease_record_wf (r : ParsedLeaseRecord) : Prop :=
  match r with
  | ParsedProcess r => lease_wf r ∧ (le_pid r <= u32_max)%N ∧ (le_owner_uid r <= u32_max)%N
  | ParsedLifecycle r => lifecycle_wf r ∧ (ll_pid r <= u32_max)%N ∧ (ll_owner_uid r <= u32_max)%N
      ∧ (ll_process_group r <= u32_max)%N
  end.

Lemma ParsedLeaseRecord_parse_wf raw r : ParsedLeaseRecord_parse raw = Ok r → lease_record_wf r.
Proof.
  unfold ParsedLeaseRecord_parse. case_decide.
  - rewrite rbind_Ok. intros (l & Hl & [= <-]). apply LeaseRecord_parse_Ok in Hl as (ls & _ & pid & uid & _ & Hwf & Hp & Hu).
    by split_and!; [|eapply spells_le..].
  - case_decide; [|done]. rewrite rbind_Ok. intros (l & Hl & [= <-]).
    apply LifecycleLeaseRecord_parse_Ok in Hl as (ls & _ & pid & uid & group & _ & Hwf & Hp & Hu & Hg).
    by split_and!; [|eapply spells_le..].
Qed.

Lemma ParsedLeaseRecord_parse_encode r : lease_record_wf r → ParsedLeaseRecord_parse (ParsedLeaseRecord_encode r) = Ok r.
Proof.
  unfold ParsedLeaseRecord_parse. destruct r as [r|r]; cbn [lease_record_wf ParsedLeaseRecord_encode].
  - intros (Hwf & Hp & Hu). pose proof (LeaseRecord_encode_lines r) as He.
    assert (lease_spelled (lease_lines r (decimal (le_pid r)) (decimal (le_owner_uid r))) r) as Hs
      by (eexists _, _; split_and!; [reflexivity|done|by apply spells_decimal..]).
    assert (LeaseRecord_parse (LeaseRecord_encode r) = Ok r) as Hr by (apply LeaseRecord_parse_Ok; by eexists).
    rewrite Hr. pose proof (lease_spelled_graphic _ _ Hs) as [_ Hg]. rewrite He. unfold lease_lines in *.
    rewrite first_line by done. by rewrite decide_True.
  - intros (Hwf & Hp & Hu & Hgr). pose proof (LifecycleLeaseRecord_encode_lines r) as He.
    assert (lifecycle_spelled (lifecycle_lines r (decimal (ll_pid r)) (decimal (ll_owner_uid r)) (decimal (ll_process_group r))) r) as Hs
      by (eexists _, _, _; split_and!; [reflexivity|done|by apply spells_decimal..]).
    assert (LifecycleLeaseRecord_parse (LifecycleLeaseRecord_encode r) = Ok r) as Hr
      by (apply LifecycleLeaseRecord_parse_Ok; by eexists).
    rewrite Hr. pose proof (lifecycle_spelled_graphic _ _ Hs) as [_ Hg]. rewrite He. unfold lifecycle_lines in *.
    rewrite first_line by done. rewrite decide_False by done. by rewrite decide_True.
Qed.

(** C40. A lease has one spelling.  An inventory reads a record from bytes exactly when the
    record is well formed and the bytes are its encoding, of at most 4096 bytes: no other
    text, field order, sign, leading zero or trailing line is taken for a lease, and every
    lease the store writes is read back as itself. *)
Theorem leases_are_canonical raw r :
  read_lease_record raw = Ok r ↔
  raw = ParsedLeaseRecord_encode r ∧ lease_record_wf r ∧ length raw ≤ N.to_nat 4096.
Proof.
  unfold read_lease_record. rewrite ensure_Ok, rbind_Ok, Nat.leb_le. setoid_rewrite ensure_Ok.
  setoid_rewrite bool_decide_eq_true. split.
  - intros (Hl & a & Ha & He & [= <-]). by split_and!; [|eapply ParsedLeaseRecord_parse_wf|].
  - intros (-> & Hwf & Hl). split; [done|]. exists r. split; [by apply ParsedLeaseRecord_parse_encode|done].
Qed.

(** ** The order of texts *)

Lemma str_ltb_irrefl s : str_ltb s s = false.
Proof. induction s as [|c s IH]; cbn; [done|]. by rewrite IH, N.ltb_irrefl, andb_false_r. Qed.

Lemma str_ltb_trans s t u : str_ltb s t = true → str_ltb t u = true → str_ltb s u = true.
Proof.
  revert t u. induction s as [|c s IH]; intros [|d t] [|e u]; cbn; try done.
  rewrite !orb_true_iff, !andb_true_iff, !N.ltb_lt, !N.eqb_eq.
  intros [?|[-> ?]] [?|[-> ?]]; [left; lia|by left|by left|]. right. split; [done|]. by eapply IH.
Qed.

Lemma str_ltb_total s t : str_ltb s t = false → str_ltb t s = false → s = t.
Proof.
  revert t. induction s as [|c s IH]; intros [|d t]; cbn; try done.
  rewrite !orb_false_iff, !andb_false_iff, !N.ltb_ge, !N.eqb_neq.
  intros [? Hst] [? Hts]. assert (c = d) as -> by lia. f_equal. apply IH; [by destruct Hst|by destruct Hts].
Qed.

Definition key_lt {A} (a b : rstring * A) : Prop := str_ltb a.1 b.1 = true.

#[export] Instance key_lt_trans {A} : Transitive (@key_lt A).
Proof. intros a b c. apply str_ltb_trans. Qed.

(** A [BTreeMap] as the list of its entries. *)
Definition sorted_map {A} (m : list (rstring * A)) : Prop := StronglySorted key_lt m.

Lemma order_sorted_snoc {A} (m : list (rstring * A)) e :
  sorted_map m → sorted_map (m ++ [e]) ↔ Forall (λ a, key_lt a e) m.
Proof.
  unfold sorted_map. induction m as [|a m IH]; cbn; intros Hm; [split; [done|by repeat constructor]|].
  apply StronglySorted_inv in Hm as [Hm Ha]. split.
  - intros [Hs Hall]%StronglySorted_inv. apply Forall_app in Hall as [_ [? _]%Forall_cons].
    constructor; [done|]. by apply IH.
  - intros [He Hall]%Forall_cons. constructor; [by apply IH|]. apply Forall_app. split; [done|by repeat constructor].
Qed.

Lemma map_get_Some {A} k (m : list (rstring * A)) v : sorted_map m → map_get k m = Some v ↔ (k, v) ∈ m.
Proof.
  unfold map_get. induction m as [|[k' v'] m IH]; cbn; intros Hm; [split; [done|set_solver]|].
  apply StronglySorted_inv in Hm as [Hm Ha]. case_bool_decide as Hk; cbn in Hk.
  - subst k'. cbn. split; [intros [= ->]; left|]. intros [Hin|Hin]%elem_of_cons; [by injection Hin as ->|].
    rewrite Forall_forall in Ha. apply Ha in Hin. unfold key_lt in Hin. cbn in Hin. by rewrite str_ltb_irrefl in Hin.
  - rewrite IH by done. rewrite elem_of_cons. naive_solver.
Qed.

Lemma map_get_None {A} k (m : list (rstring * A)) : map_get k m = None ↔ k ∉ (fst <$> m).
Proof.
  unfold map_get. induction m as [|[k' v'] m IH]; cbn; [split; [set_solver|done]|].
  case_bool_decide as Hk; cbn in Hk; [subst; split; [done|set_solver]|]. rewrite IH. set_solver.
Qed.

(** The order of the last key bounds all keys. *)
Lemma last_bounds {A} (m : list (rstring * A)) e :
  sorted_map m → match last m with Some p => str_ltb p.1 e.1 | None => true end = true ↔ Forall (λ a, key_lt a e) m.
Proof.
  destruct m as [|p m _] using rev_ind; intros Hm; [done|]. rewrite last_snoc.
  assert (sorted_map m) as Hm' by by eapply StronglySorted_app_1_l.
  apply order_sorted_snoc in Hm; [|done]. rewrite Forall_app, Forall_singleton. unfold key_lt at 2. split; [|by intros [_ ?]].
  intros Hp. split; [|done]. eapply Forall_impl; [exact Hm|]. intros a Ha. exact (str_ltb_trans _ _ _ Ha Hp).
Qed.

(** ** The publication order *)

Definition order_entry_wf (next : N) (e : GenerationId * N) : Prop :=
  lower_hex_32 e.1 = true ∧ (0 < e.2 < next)%N.

Definition order_wf (o : PublicationOrder) : Prop :=
  (0 < next_sequence o <= u64_max)%N ∧ sorted_map (sequences o) ∧ Forall (order_entry_wf (next_sequence o)) (sequences o)
  ∧ NoDup (snd <$> sequences o).

Definition entry_line (e : GenerationId * N) : rstring := field (lit "generation") (e.1 ++ lit " " ++ decimal e.2).

Lemma no_space_hex v : lower_hex_32 v = true → 32%N ∉ v.
Proof.
  intros (_ & Hv & _)%lower_hex_ascii. apply Is_true_true_2, forallb_True in Hv. intros Hin.
  rewrite Forall_forall in Hv. by apply Hv in Hin.
Qed.

Lemma no_space_decimal n : 32%N ∉ decimal n.
Proof. intros Hin. pose proof (decimal_digits n) as Hd. rewrite Forall_forall in Hd. apply Hd in Hin. lia. Qed.

Lemma parse_order_line_Ok l e :
  parse_order_line l = Ok e ↔ l = entry_line e ∧ lower_hex_32 e.1 = true ∧ (0 < e.2 <= u64_max)%N.
Proof.
  unfold parse_order_line. pose proof (join_split_by 32 l) as Hj. split.
  - destruct (split_by _ l) as [|name fields]; [done|]. rewrite ensure_Ok, bool_decide_eq_true. intros [-> H].
    destruct fields as [|id fields]; [done|]. apply rbind_Ok in H as (g & [-> Hg]%GenerationId_parse_Ok & H).
    destruct fields as [|v fields]; [done|]. apply rbind_Ok in H as (n & [-> Hn]%canonical_positive_u64_Ok & H).
    rewrite ensure_Ok, bool_decide_eq_true in H. destruct H as [-> [= <-]]. split; [|done]. by rewrite <-Hj.
  - intros (-> & Hg & Hn). clear Hj. destruct e as [g n]. cbn in *.
    change (entry_line (g, n)) with (join 32 [lit "generation"; g; decimal n]).
    rewrite split_by_join; [|done|].
    2:{ apply Forall_cons. split; [by repeat constructor|]. apply Forall_cons. split; [by apply free_eqb, no_space_hex|].
        apply Forall_cons. split; [apply free_eqb, no_space_decimal|by apply Forall_nil_2]. }
    rewrite ensure_Ok, bool_decide_eq_true. split; [done|].
    rewrite (proj2 (GenerationId_parse_Ok g g)) by done. cbn.
    by rewrite (proj2 (canonical_positive_u64_Ok (decimal n) (lit "publication sequence") n)) by done.
Qed.

Lemma parse_order_lines_Ok next acc ls es :
  (next <= u64_max)%N → sorted_map acc → Forall (order_entry_wf next) acc → NoDup (snd <$> acc) →
  parse_order_lines next acc ls = Ok es ↔
  ∃ new, es = acc ++ new ∧ ls = (entry_line <$> new)
    ∧ sorted_map es ∧ Forall (order_entry_wf next) es ∧ NoDup (snd <$> es).
Proof.
  intros Hnext. revert acc. induction ls as [|l ls IH]; intros acc Hs Hw Hn; cbn [parse_order_lines].
  { split; [intros [= <-]; exists []; by rewrite app_nil_r|]. intros (new & -> & Hl & _).
    destruct new; [by rewrite app_nil_r|done]. }
  rewrite rbind_Ok. setoid_rewrite ensure_Ok. setoid_rewrite ensure_Ok. setoid_rewrite ensure_Ok. setoid_rewrite ensure_Ok.
  setoid_rewrite bool_decide_eq_true. setoid_rewrite N.ltb_lt. setoid_rewrite parse_order_line_Ok.
  setoid_rewrite last_bounds; [|done]. split.
  - intros (e & (-> & Hg & Hpos) & Hlast & Hlt & Hfresh & _ & Hr). apply IH in Hr as (new & -> & -> & ? & ? & ?).
    + exists (e :: new). by rewrite <-app_assoc in *.
    + by apply order_sorted_snoc.
    + apply Forall_app. split; [done|]. repeat constructor; [done|lia|done].
    + rewrite fmap_app. apply NoDup_app. split_and!; [done|set_solver|apply NoDup_singleton].
  - intros (new & -> & Hl & Hs' & Hw' & Hn'). destruct new as [|e new]; [done|]. injection Hl as -> ->. exists e.
    replace (acc ++ e :: new) with ((acc ++ [e]) ++ new) in * by by rewrite <-app_assoc.
    apply Forall_app in Hw' as Hw2. destruct Hw2 as [Hwa _]. apply Forall_app in Hwa as Hwe.
    destruct Hwe as [_ [Hgp ?]%Forall_singleton].
    assert (sorted_map (acc ++ [e])) as Hsa by by eapply StronglySorted_app_1_l.
    assert (Forall (λ a, key_lt a e) acc) as Hb by by apply order_sorted_snoc.
    rewrite fmap_app in Hn'. apply NoDup_app in Hn' as Hx. destruct Hx as (Hna & _ & _).
    split_and!; [done|done|lia|lia|done|lia| | |].
    + rewrite fmap_app in Hna. apply NoDup_app in Hna as (_ & Hd & _). intros Hin. apply (Hd e.2); [done|]. cbn. set_solver.
    + apply map_get_None. intros ((k & v) & Hk & Hin)%list_elem_of_fmap. cbn in Hk. rewrite Forall_forall in Hb.
      apply Hb in Hin. unfold key_lt in Hin. cbn in Hin. subst k. by rewrite str_ltb_irrefl in Hin.
    + apply IH; [done..|]. exists new. rewrite fmap_app. split_and!; done.
Qed.

Definition order_lines (o : PublicationOrder) : list rstring :=
  lit "realm-generation-publication-order-v1" :: field (lit "next-sequence") (decimal (next_sequence o))
  :: (entry_line <$> sequences o).

Lemma order_encode_lines o : PublicationOrder_encode o = str_bytes (unlines (order_lines o)).
Proof.
  unfold PublicationOrder_encode, order_lines, unlines.
  assert (order_line <$> sequences o = ((λ l, l ++ [10%N]) <$> (entry_line <$> sequences o))) as ->.
  { rewrite <-list_fmap_compose. apply list_fmap_ext. intros _ e _. apply line_field. }
  cbn [fmap list_fmap concat]. by rewrite line_field, <-!app_assoc.
Qed.

Lemma entry_line_graphic next e : order_entry_wf next e → graphic (entry_line e).
Proof.
  intros [Hg _]. unfold entry_line. apply field_graphic; [by apply lit_graphic|]. rewrite !graphic_app.
  split_and!; [by eapply hex_graphic|by apply lit_graphic|apply decimal_graphic].
Qed.

Lemma order_lines_graphic o : order_wf o → Forall graphic (order_lines o).
Proof.
  intros (_ & _ & He & _). unfold order_lines. graphics. apply Forall_fmap. eapply Forall_impl; [exact He|].
  intros e. apply entry_line_graphic.
Qed.

Lemma parse_order_head_Ok ls n ls' :
  parse_order_head ls = (Ok n, ls') ↔
  ls = lit "realm-generation-publication-order-v1" :: field (lit "next-sequence") (decimal n) :: ls' ∧ (0 < n <= u64_max)%N.
Proof.
  unfold parse_order_head. split.
  - intros H. inv_read. done.
  - intros [-> Hn]. read_on. apply of_parse_Ok. by rewrite canonical_positive_u64_Ok.
Qed.

Lemma PublicationOrder_parse_Ok raw o : PublicationOrder_parse raw = Ok o ↔ raw = PublicationOrder_encode o ∧ order_wf o.
Proof.
  rewrite order_encode_lines. unfold PublicationOrder_parse. split.
  - rewrite rbind_Ok. intros (text & Ht & Hr). apply rbind_Ok in Hr as (ls & Hl & Hr).
    assert (raw = str_bytes (unlines ls)) as ->.
    { eapply (lines_read _ (lit "publication order is not UTF-8")). rewrite Ht. cbn. exact Hl. }
    destruct (parse_order_head ls) as [[n|] ls'] eqn:Eh; [|done]. apply parse_order_head_Ok in Eh as [-> Hn].
    apply rbind_Ok in Hr as (es & He & [= <-]). apply parse_order_lines_Ok in He as (new & -> & -> & ? & ? & ?);
      [|lia|by constructor|by constructor|by constructor]. split; [reflexivity|]. split; [exact Hn|]. split; [assumption|]. split; assumption.
  - intros [-> Hwf]. pose proof (order_lines_graphic o Hwf) as Hg. destruct Hwf as (Hn & Hs & He & Hd).
    pose proof (graphic_lines_read (order_lines o) (lit "publication order is not UTF-8")
      (lit "publication order must use LF-terminated lines") ltac:(done) Hg) as Hr.
    apply rbind_Ok in Hr as (text & Ht & Hl). rewrite Ht. cbn [rbind]. rewrite Hl. cbn [rbind].
    rewrite (proj2 (parse_order_head_Ok (order_lines o) (next_sequence o) (entry_line <$> sequences o))) by done.
    rewrite rbind_Ok. exists (sequences o). split; [|by destruct o].
    apply parse_order_lines_Ok; [lia|by constructor|by constructor|by constructor|].
    exists (sequences o). split; [reflexivity|]. split; [reflexivity|]. split; [exact Hs|]. split; [exact He|exact Hd].
Qed.

(** Reserving and recording a sequence keep the record well formed. *)
Lemma reserve_wf o n o' :
  order_wf o → reserve_sequence o = Ok (n, o') →
  order_wf o' ∧ sequences o' = sequences o ∧ n = next_sequence o ∧ next_sequence o' = (n + 1)%N
  ∧ Forall (λ e, (e.2 < n)%N) (sequences o).
Proof.
  intros (Hn & Hs & He & Hd). unfold reserve_sequence. destruct (u64_checked_add _ _) as [m|] eqn:Ea; [|done].
  intros [= <- <-]. apply u64_checked_add_Some in Ea as [-> Hm]. cbn. split_and!; try done.
  - split; cbn; [lia|]. split_and!; [done| |done]. eapply Forall_impl; [exact He|]. intros e [? ?]. split; [done|lia].
  - eapply Forall_impl; [exact He|]. intros e [_ ?]. lia.
Qed.


Lemma map_insert_Permutation {A} k (v : A) m : k ∉ (fst <$> m) → map_insert k v m ≡ₚ (k, v) :: m.
Proof.
  induction m as [|[k' v'] m IH]; cbn; [done|]. intros Hk. destruct (str_ltb k k'); [done|].
  rewrite decide_False by set_solver. rewrite IH by set_solver. apply Permutation_swap.
Qed.

Lemma map_insert_sorted {A} k (v : A) m : k ∉ (fst <$> m) → sorted_map m → sorted_map (map_insert k v m).
Proof.
  unfold sorted_map. induction m as [|[k' v'] m IH]; cbn; intros Hk Hm; [by repeat constructor|].
  pose proof Hm as Hm0. apply StronglySorted_inv in Hm as [Hm Ha]. destruct (str_ltb k k') eqn:Hlt.
  - constructor; [done|]. constructor; [done|]. eapply Forall_impl; [exact Ha|]. intros a Hka.
    exact (str_ltb_trans _ _ _ Hlt Hka).
  - rewrite decide_False by set_solver. constructor; [apply IH; [set_solver|done]|].
    rewrite map_insert_Permutation by set_solver. constructor; [|done]. unfold key_lt. cbn.
    destruct (str_ltb k' k) eqn:Hlt'; [done|].
    destruct Hk. cbn. rewrite (str_ltb_total _ _ Hlt Hlt'). by left.
Qed.

Lemma record_wf o g n :
  order_wf o → lower_hex_32 g = true → g ∉ (fst <$> sequences o) → (0 < n < next_sequence o)%N → n ∉ (snd <$> sequences o) →
  order_wf (mk_order (next_sequence o) (map_insert g n (sequences o))).
Proof.
  intros (Hn & Hs & He & Hd) Hg Hfresh Hlt Hnew. split; [done|]. split_and!; cbn.
  - by apply map_insert_sorted.
  - rewrite map_insert_Permutation by done. by constructor.
  - rewrite map_insert_Permutation by done. by constructor.
Qed.

Lemma PublicationOrder_empty_wf : order_wf PublicationOrder_empty.
Proof. split_and!; [by vm_compute|by vm_compute|constructor|constructor|constructor]. Qed.

(** ** Manifests *)

Lemma digest_values_Ok fields ls ds ls' :
  digest_values fields ls = (Ok ds, ls') ↔
  length ds = length fields ∧ ls = zip_with field fields ds ++ ls' ∧ Forall (λ d, sha256_digest d = true) ds.
Proof.
  revert ls ds. induction fields as [|f fields IH]; intros ls ds; cbn [digest_values].
  - split; [by intros [= <- <-]|]. intros (Hl & -> & _). by destruct ds.
  - unfold digest_value. split.
    + intros H. inv_read. match goal with H : digest_values _ _ = _ |- _ => apply IH in H as (? & -> & ?) end.
      cbn. by split_and!; [f_equal| |constructor].
    + intros (Hl & -> & Hd). destruct ds as [|d ds]; [done|]. apply Forall_cons in Hd as [Hd Hds]. injection Hl as Hl.
      cbn [zip_with app]. rewrite bind_Ok. exists d, (zip_with field fields ds ++ ls').
      pose proof (hex_nonempty 64 _ ltac:(done) Hd). split; [by read_on|].
      rewrite bind_Ok. exists ds, ls'. split; [by apply IH|done].
Qed.

Definition output_entry_wf (e : rstring * rstring) : Prop := safe_output_path e.1 = true ∧ sha256_digest e.2 = true.

Definition output_field (e : rstring * rstring) : rstring := field (lit "output") (e.1 ++ lit " " ++ e.2).

Lemma path_byte_graphic c : path_byte c = true → (32 < c < 127)%N.
Proof.
  unfold path_byte, is_alphanumeric, is_digit. intros [H|H%bool_decide_eq_true]%orb_true_iff; [|set_unfold in H; lia].
  rewrite !orb_true_iff, !andb_true_iff, !N.leb_le in H. lia.
Qed.

Lemma safe_path_bytes p :
  safe_output_path p = true → p ≠ [] ∧ ascii p ∧ forallb path_byte p = true.
Proof.
  unfold safe_output_path. rewrite !andb_true_iff, bool_decide_eq_true. intros [[[[[Hne Hb] _] _] _] _].
  apply bytes_ascii in Hb as [? ?]; [done|]. intros c Hc%path_byte_graphic. lia.
Qed.

Lemma safe_path_graphic p : safe_output_path p = true → graphic p ∧ 32%N ∉ p.
Proof.
  intros (_ & _ & Hp)%safe_path_bytes. split.
  - eapply forallb_graphic; [|exact Hp]. intros c Hc%path_byte_graphic. lia.
  - apply Is_true_true_2, forallb_True in Hp. rewrite Forall_forall in Hp.
    intros Hin%Hp%Is_true_true%path_byte_graphic. lia.
Qed.

Lemma parse_output_line_Ok l e : parse_output_line l = Ok e ↔ l = output_field e ∧ output_entry_wf e.
Proof.
  unfold parse_output_line, output_field, output_entry_wf. destruct e as [p d]. cbn [fst snd]. split.
  - destruct (strip_prefix (lit "output ") l) as [rest|] eqn:Er; [|done]. apply strip_prefix_Some in Er as ->.
    destruct (split_once 32 rest) as [[p' d']|] eqn:Es; [|done]. apply split_once_Some in Es as [-> _].
    rewrite ensure_Ok, !andb_true_iff. intros [[[_ ?] ?] [= <- <-]]. done.
  - intros (-> & Hp & Hd). pose proof (safe_path_graphic _ Hp) as [_ Hsp]. pose proof (safe_path_bytes _ Hp) as [Hne _].
    assert (strip_prefix (lit "output ") (field (lit "output") (p ++ lit " " ++ d)) = Some (p ++ 32%N :: d)) as ->
      by by apply strip_prefix_Some.
    rewrite (proj2 (split_once_Some 32 (p ++ 32%N :: d) p d)) by done.
    rewrite ensure_Ok. split; [|done]. by rewrite bool_decide_eq_false_2, Hp, Hd.
Qed.

Definition after_path (previous : option rstring) (e : rstring * rstring) : Prop :=
  match previous with Some last => str_ltb last e.1 = true | None => True end.

Lemma parse_output_lines_Ok previous ls es :
  parse_output_lines previous ls = Ok es ↔
  ls = (output_field <$> es) ∧ sorted_map es ∧ Forall output_entry_wf es ∧ Forall (after_path previous) es.
Proof.
  revert previous es. induction ls as [|l ls IH]; intros previous es; cbn [parse_output_lines].
  { split; [intros [= <-]; split_and!; done || constructor|]. by intros (?%eq_sym%fmap_nil_inv & _); subst. }
  rewrite rbind_Ok. setoid_rewrite ensure_Ok. setoid_rewrite rbind_Ok. setoid_rewrite IH. setoid_rewrite parse_output_line_Ok.
  split.
  - intros (e & (-> & He) & Hprev & rest & (-> & Hs & Hw & Ha) & [= <-]). split_and!; [done|by constructor|by constructor|].
    constructor; [by destruct previous|]. destruct previous as [p|]; [|by apply Forall_true].
    eapply Forall_impl; [exact Ha|]. intros a Hea. exact (str_ltb_trans _ _ _ Hprev Hea).
  - intros (Hl & Hs & Hw & Ha). destruct es as [|e es]; [done|]. injection Hl as -> ->. exists e.
    apply StronglySorted_inv in Hs as [Hs Hse]. apply Forall_cons in Hw as [? ?]. apply Forall_cons in Ha as [Hp ?].
    split; [done|]. split; [by destruct previous|]. by exists es.
Qed.

Definition manifest_lines (g : GenerationId) (ds : list rstring) (r : rstring) (es : list (rstring * rstring)) : list rstring :=
  lit "realm-generation-manifest-v1" :: field (lit "generation") g :: zip_with field digest_fields ds
  ++ field (lit "receipt-sha256") r :: (output_field <$> es).

Definition manifest_wf (g : GenerationId) (ds : list rstring) (r : rstring) (es : list (rstring * rstring)) : Prop :=
  lower_hex_32 g = true ∧ (length ds = length digest_fields ∧ Forall (λ d, sha256_digest d = true) ds)
  ∧ sha256_digest r = true ∧ es ≠ [] ∧ sorted_map es ∧ Forall output_entry_wf es.

Lemma parse_manifest_head_Ok ls g ds r ls' :
  parse_manifest_head ls = (Ok (g, ds, r), ls') ↔
  ls = lit "realm-generation-manifest-v1" :: field (lit "generation") g :: zip_with field digest_fields ds
    ++ field (lit "receipt-sha256") r :: ls'
  ∧ lower_hex_32 g = true ∧ (length ds = length digest_fields ∧ Forall (λ d, sha256_digest d = true) ds)
  ∧ sha256_digest r = true.
Proof.
  unfold parse_manifest_head, digest_value. split.
  - intros H. inv_read.
    match goal with H : digest_values _ _ = _ |- _ => apply digest_values_Ok in H as (? & -> & ?) end. done.
  - intros (-> & Hg & [Hl Hd] & Hr). pose proof (hex_nonempty 32 _ ltac:(done) Hg). pose proof (hex_nonempty 64 _ ltac:(done) Hr).
    read_on. erewrite bind_step by by apply digest_values_Ok.
    erewrite bind_step; [reflexivity|]. by read_on.
Qed.

Lemma sha_graphic v : sha256_digest v = true → graphic v.
Proof. apply hex_graphic. Qed.

Lemma output_field_graphic e : output_entry_wf e → graphic (output_field e).
Proof.
  intros [Hp Hd]. apply field_graphic; [by apply lit_graphic|]. rewrite !graphic_app.
  split_and!; [by apply safe_path_graphic|by apply lit_graphic|by apply sha_graphic].
Qed.

Lemma manifest_lines_graphic g ds r es : manifest_wf g ds r es → Forall graphic (manifest_lines g ds r es).
Proof.
  intros (Hg & [Hl Hd] & Hr & _ & _ & He). unfold manifest_lines. pose proof (hex_graphic _ _ Hg).
  pose proof (sha_graphic _ Hr). apply Forall_cons. split; [by apply lit_graphic|]. apply Forall_cons.
  split; [by graphics|]. apply Forall_app. split; [|apply Forall_cons; split; [by graphics|]].
  - assert (Forall graphic digest_fields) as Hf by (unfold digest_fields; graphics).
    revert Hl Hf. generalize digest_fields. induction Hd as [|d ds Hd _ IH]; intros [|f fs] Hl Hf; try done.
    apply Forall_cons in Hf as [Hf Hfs]. cbn. constructor; [|apply IH; [by injection Hl|done]].
    apply field_graphic; [done|by apply sha_graphic].
  - apply Forall_fmap. eapply Forall_impl; [exact He|]. intros e. apply output_field_graphic.
Qed.

Lemma Manifest_parse_Ok input m :
  Manifest_parse input = Ok m ↔
  raw_manifest m = input ∧ input = unlines (manifest_lines (mf_generation m) (mf_input_digests m) (receipt_digest m) (entries m))
  ∧ manifest_wf (mf_generation m) (mf_input_digests m) (receipt_digest m) (entries m).
Proof.
  unfold Manifest_parse. split.
  - rewrite rbind_Ok. intros (ls & (_ & _ & ->)%text_lines_Ok & Hr).
    destruct (parse_manifest_head ls) as [[[[g ds] r]|] ls'] eqn:Eh; [|done].
    apply parse_manifest_head_Ok in Eh as (-> & Hg & Hd & Hr').
    apply rbind_Ok in Hr as (es & He & Hr). rewrite ensure_Ok, bool_decide_eq_true in Hr. destruct Hr as [Hne [= <-]].
    apply parse_output_lines_Ok in He as (-> & Hs & Hw & _). split; [done|]. split; [done|]. destruct Hd. by split_and!.
  - intros (Hraw & Hin & Hwf). pose proof (manifest_lines_graphic _ _ _ _ Hwf) as Hg.
    rewrite (proj2 (text_lines_Ok input (lit "v1 manifest must use LF-terminated lines")
      (manifest_lines (mf_generation m) (mf_input_digests m) (receipt_digest m) (entries m)))).
    2:{ split_and!; [done| |done]. eapply Forall_impl; [exact Hg|exact graphic_plain]. }
    cbn [rbind]. destruct Hwf as (Hgen & Hd & Hr & Hne & Hs & Hw).
    rewrite (proj2 (parse_manifest_head_Ok _ (mf_generation m) (mf_input_digests m) (receipt_digest m) (output_field <$> entries m)))
      by done.
    rewrite rbind_Ok. exists (entries m). split; [apply parse_output_lines_Ok; split_and!; try done; by apply Forall_true|].
    rewrite ensure_Ok, bool_decide_eq_true. split; [done|]. rewrite <-Hraw. by destruct m.
Qed.

(** ** What a publication writes *)

Section digests.
Variable digest_hex : list N → rstring.

Lemma input_lines_unlines ds :
  length ds = length digest_fields → input_lines ds = unlines (zip_with field digest_fields ds).
Proof.
  unfold input_lines, unlines. generalize digest_fields. revert ds. 
  intros ds fs Hl. f_equal. revert fs Hl. induction ds as [|d ds IH]; intros [|f fs] Hl; try done.
  cbn. rewrite line_field. f_equal. apply IH. by injection Hl.
Qed.

Lemma manifest_unlines p g receipt :
  length (input_digests p) = length digest_fields →
  manifest digest_hex p g receipt
  = unlines (manifest_lines g (input_digests p) (digest_hex (str_bytes receipt))
      ((λ o, (o.1, digest_hex o.2)) <$> outputs p)).
Proof.
  intros Hl. unfold manifest, manifest_lines. rewrite input_lines_unlines by done.
  change (unlines (?a :: ?b :: ?c)) with ((a ++ [10%N]) ++ (b ++ [10%N]) ++ unlines c).
  rewrite unlines_app. change (unlines (?a :: ?c)) with ((a ++ [10%N]) ++ unlines c).
  rewrite !line_field, <-!app_assoc. do 7 f_equal. unfold unlines. f_equal. rewrite <-!list_fmap_compose.
  apply list_fmap_ext. intros _ [path bytes] _. apply line_field.
Qed.
End digests.
