(* ===== verification/GenStore.v ===== *)
(** * realm-theme/src/generation.rs: the generation store

    The store on a file system: publication, rollback, recovery, selection and garbage
    collection.  The file system is what the three directories of the store hold; every
    system call may fail, and each one that changes a directory leaves a new state of the
    disk, which is kept: a process that dies leaves one of them. *)

From Stdlib Require Import ZArith Lia.
From stdpp Require Import prelude list gmap sorting.
From S2P Require Import Prelude Authority Hoare Utf8 Text GenRecords.

(** ** The file system *)

(** A file name is a list of bytes. *)
Abbreviation name := (list N) (only parsing).

Inductive TreeNode := NodeFile (bytes : list N) | NodeDirectory | NodeOther.

#[export] Instance TreeNode_eq_dec : EqDecision TreeNode.
Proof. solve_decision. Defined.

(** What a directory holds, at every depth: the names from the directory down. *)
Abbreviation tree := (gmap (list (list N)) TreeNode) (only parsing).

(** An entry of a directory of the store; [private] is [validate_owned_mode] with the mode
    0600. *)
Inductive Entry :=
| File (private : bool) (bytes : list N)
| Tree (t : tree)
| Link
| Special.

Record Disk := mk_disk {
  d_root : gmap (list N) Entry;
  d_generations : gmap (list N) Entry;
  d_leases : gmap (list N) Entry
}.

#[export] Instance Disk_settable : Settable Disk := λ d, mk_disk (d_root d) (d_generations d) (d_leases d).

Inductive GenError := GenText (text : rstring) | GenOs (errno : Z).

#[export] Instance GenError_eq_dec : EqDecision GenError.
Proof. solve_decision. Defined.

Definition gen_text {A} (r : result A rstring) : result A GenError := map_err GenText r.

Definition ENOENT : Z := 2.
Definition EEXIST : Z := 17.
Definition ENOTDIR : Z := 20.
Definition ELOOP : Z := 40.
Definition EIO : Z := 5.

(** A system call that fails, and what a failed write has written. *)
Record Fault := mk_fault { errno : Z; written : nat }.

(** The store's process: the disk, how each system call ends, the random bytes it gets,
    and every state the disk has been in since. *)
Record Fs := mk_fs {
  disk : Disk;
  faults : list (option Fault);
  random : list (result (list N) Z);
  trail : list Disk
}.

#[export] Instance Fs_settable : Settable Fs := λ s, mk_fs (disk s) (faults s) (random s) (trail s).

Abbreviation gen_m A := (stm Fs (failure GenError) A).

Definition next_fault : gen_m (option Fault) := λ s,
  match faults s with f :: fs => (Ok f, s <| faults := fs |>) | [] => (Ok None, s) end.

(** A call without effect on the directories: [fsync], [flock], [open]. *)
Definition syscall : gen_m unit :=
  f ← next_fault; match f with Some f => raise (GenOs (errno f)) | None => mret tt end.

Definition put_disk (d : Disk) : gen_m unit := modify (λ s, s <| disk := d |> <| trail := trail s ++ [d] |>).

(** A call that changes a directory, or finds that it cannot. *)
Definition change (f : Disk → result Disk GenError) : gen_m unit :=
  _ ← syscall; s ← getS; d ← of_result (f (disk s)); put_disk d.

(** Reads change nothing: those of one function are one call that may fail. *)
Definition of_failure {A} (r : result A (failure GenError)) : gen_m A := λ s, (r, s).

Definition reading {A} (f : Disk → result A (failure GenError)) : gen_m A :=
  _ ← syscall; s ← getS; of_failure (f (disk s)).

Definition raising {A} (r : result A GenError) : result A (failure GenError) := map_err Raise r.

Definition reads {A} (f : Disk → result A GenError) : gen_m A := reading (λ d, raising (f d)).

(** ** Directories *)

(** [create], [rename], [unlink] on one directory. *)
Definition dir_create (n : name) (e : Entry) (dir : gmap (list N) Entry) : result (gmap (list N) Entry) GenError :=
  match dir !! n with Some _ => Err (GenOs EEXIST) | None => Ok (<[n := e]> dir) end.

Definition dir_rename (from to : name) (dir : gmap (list N) Entry) : result (gmap (list N) Entry) GenError :=
  match dir !! from with Some e => Ok (<[to := e]> (delete from dir)) | None => Err (GenOs ENOENT) end.

Definition dir_exchange (left right : name) (dir : gmap (list N) Entry) : result (gmap (list N) Entry) GenError :=
  match dir !! left, dir !! right with
  | Some l, Some r => Ok (<[left := r]> (<[right := l]> dir))
  | _, _ => Err (GenOs ENOENT)
  end.

Definition dir_unlink (n : name) (dir : gmap (list N) Entry) : result (gmap (list N) Entry) GenError :=
  match dir !! n with Some _ => Ok (delete n dir) | None => Err (GenOs ENOENT) end.

Definition on_root (f : gmap (list N) Entry → result (gmap (list N) Entry) GenError) : gen_m unit :=
  change (λ d, try dir := f (d_root d) in Ok (d <| d_root := dir |>)).
Definition on_generations (f : gmap (list N) Entry → result (gmap (list N) Entry) GenError) : gen_m unit :=
  change (λ d, try dir := f (d_generations d) in Ok (d <| d_generations := dir |>)).
Definition on_leases (f : gmap (list N) Entry → result (gmap (list N) Entry) GenError) : gen_m unit :=
  change (λ d, try dir := f (d_leases d) in Ok (d <| d_leases := dir |>)).

(** [write_all] through an open descriptor: what a failed one has written stays. *)
Definition write_through (put : list N → Disk → result Disk GenError) (bytes : list N) : gen_m unit :=
  f ← next_fault;
  s ← getS;
  match f with
  | None => d ← of_result (put bytes (disk s)); put_disk d
  | Some f => d ← of_result (put (take (written f) bytes) (disk s)); _ ← put_disk d; raise (GenOs (errno f))
  end.

Definition put_root (n : name) (bytes : list N) (d : Disk) : result Disk GenError :=
  Ok (d <| d_root := <[n := File true bytes]> (d_root d) |>).
Definition put_lease (n : name) (bytes : list N) (d : Disk) : result Disk GenError :=
  Ok (d <| d_leases := <[n := File true bytes]> (d_leases d) |>).

(** [write_synced_file] in the root and in the leases directory. *)
Definition write_root_file (n : name) (bytes : list N) : gen_m unit :=
  _ ← on_root (dir_create n (File true [])); _ ← write_through (put_root n) bytes; syscall.
Definition write_lease_file (n : name) (bytes : list N) : gen_m unit :=
  _ ← on_leases (dir_create n (File true [])); _ ← write_through (put_lease n) bytes; syscall.

(** [read_optional_regular_bytes] of one name. *)
Definition read_entry (e : option Entry) : result (option (list N)) GenError :=
  match e with
  | None => Ok None
  | Some (File _ bytes) => Ok (Some bytes)
  | Some Link => Err (GenOs ELOOP)
  | Some _ => Err (GenText (lit "manifest target is not a regular file"))
  end.

(** [validate_optional_control] at mode 0600; a file of another user counts as one with
    another mode. *)
Definition validate_optional_control (n : rstring) (d : Disk) : result bool GenError :=
  match d_root d !! str_bytes n with
  | None => Ok false
  | Some (File true _) => Ok true
  | Some (File false _) => Err (GenText (n ++ lit " has unsafe permissions"))
  | Some _ => Err (GenText (n ++ lit " has an unsafe file type"))
  end.

(** ** Trees *)

Section store.
(** [format!("{:x}", Sha256::digest(bytes))] *)
Variable digest_hex : list N → rstring.

Definition names (path : rstring) : list (list N) := str_bytes <$> components path.

(** [open_parent]: each component but the last is opened as a directory. *)
Fixpoint open_parent (t : tree) (above rest : list (list N)) : result unit GenError :=
  match rest with
  | [] | [_] => Ok tt
  | c :: rest' =>
      match t !! (above ++ [c]) with
      | Some NodeDirectory => open_parent t (above ++ [c]) rest'
      | None => Err (GenOs ENOENT)
      | Some _ => Err (GenOs ENOTDIR)
      end
  end.

(** [read_regular_bytes] below a generation. *)
Definition read_tree_file (t : tree) (path : rstring) : result (list N) GenError :=
  try _ := open_parent t [] (names path) in
  match t !! names path with
  | Some (NodeFile bytes) => Ok bytes
  | None => Err (GenText (lit "manifest target is absent"))
  | Some _ => Err (GenText (lit "manifest target is not a regular file"))
  end.

(** The names of an entry as text, joined. *)
Fixpoint texts (p : list (list N)) : option (list rstring) :=
  match p with
  | [] => Some []
  | c :: p' => s ← from_utf8 c; ss ← texts p'; Some (s :: ss)
  end.

(** [validate_directory_entries]: the recursion visits every entry of the tree, each after
    the directory above it. *)
Fixpoint validate_directory_entries (files directories : list rstring) (es : list (list (list N) * TreeNode)) :
    result unit GenError :=
  match es with
  | [] => Ok tt
  | (p, node) :: es' =>
      match texts p with
      | None => Err (GenText (lit "non-UTF-8 tree entry"))
      | Some cs =>
          let path := join 47%N cs in
          if bool_decide (path ∈ files) then
            ensure match node with NodeFile _ => true | _ => false end
              else GenText (lit "sealed tree contains a non-regular listed file");
            validate_directory_entries files directories es'
          else if bool_decide (path ∈ directories) then
            ensure bool_decide (node = NodeDirectory) else GenOs ENOTDIR;
            validate_directory_entries files directories es'
          else Err (GenText (lit "sealed tree contains an unlisted entry"))
      end
  end.

Definition validate_v1_tree (t : tree) (es : list (rstring * rstring)) : result unit GenError :=
  let files := [lit "manifest"; lit "receipt"; lit "seal"] ++ (fst <$> es) in
  let directories := es ≫= (λ e, parent_paths e.1) in
  validate_directory_entries files directories (map_to_list t).

Definition verify_v1_metadata (t : tree) (generation : GenerationId) (m : Manifest) : result unit GenError :=
  ensure bool_decide (generation = mf_generation m)
    else GenText (lit "generation directory does not match manifest identity");
  try bytes := read_tree_file t (lit "manifest") in
  ensure bool_decide (bytes = str_bytes (raw_manifest m)) else GenText (lit "manifest bytes changed after parsing");
  try receipt := read_tree_file t (lit "receipt") in
  ensure bool_decide (digest_hex receipt = receipt_digest m) else GenText (lit "receipt digest mismatch");
  ensure bool_decide (receipt = str_bytes (receipt_text (mf_generation m) (mf_input_digests m)))
    else GenText (lit "receipt does not match manifest inputs");
  try seal := read_tree_file t (lit "seal") in
  ensure bool_decide (seal = str_bytes (digest_hex (str_bytes (raw_manifest m)) ++ [10%N]))
    else GenText (lit "manifest seal mismatch");
  Ok tt.

Fixpoint verify_outputs (t : tree) (es : list (rstring * rstring)) : result unit GenError :=
  match es with
  | [] => Ok tt
  | (path, expected) :: es' =>
      try bytes := read_tree_file t path in
      ensure bool_decide (digest_hex bytes = expected) else GenText (lit "manifest digest mismatch");
      verify_outputs t es'
  end.

Definition verify_opened (t : tree) (generation : GenerationId) (m : Manifest) : result unit GenError :=
  try _ := verify_v1_metadata t generation m in
  try _ := validate_v1_tree t (entries m) in
  verify_outputs t (entries m).

Definition verify_opened_generation (t : tree) (generation : GenerationId) : result Manifest GenError :=
  try bytes := read_tree_file t (lit "manifest") in
  try text := gen_text (utf8_text bytes (lit "manifest is not UTF-8")) in
  try m := gen_text (Manifest_parse text) in
  try _ := verify_opened t generation m in
  Ok m.

Definition open_validated_generation (d : Disk) (generation : GenerationId) : result (tree * Manifest) GenError :=
  match d_generations d !! str_bytes generation with
  | Some (Tree t) => try m := verify_opened_generation t generation in Ok (t, m)
  | None => Err (GenOs ENOENT)
  | Some _ => Err (GenOs ENOTDIR)
  end.

Definition validate_generation (d : Disk) (generation : GenerationId) : result unit GenError :=
  try _ := open_validated_generation d generation in Ok tt.

(** ** The pointer and its journals *)

Inductive PointerJournalState :=
| Clean
| DiscardCurrent (name : rstring)
| RollbackCurrent (name : rstring)
| RollbackAbsent (name : rstring)
| DiscardPristine (current_name absent_name : rstring)
| CleanupCommitted (name : rstring) (previous : option GenerationId).

Record PointerJournalInventory := mk_inventory { in_current : option GenerationId; in_state : PointerJournalState }.

Record PointerJournalEntry := mk_journal { j_name : rstring; j_suffix : GenerationId; j_content : option GenerationId }.

Definition absent_current : GenError := GenText (lit "current generation is absent").

Definition resolve_current (d : Disk) : result GenerationId GenError :=
  try bytes := read_entry (d_root d !! str_bytes (lit "current")) in
  match bytes with
  | None => Err absent_current
  | Some bytes =>
      try generation := gen_text (parse_pointer_record bytes (lit "current")) in
      try _ := validate_generation d generation in
      Ok generation
  end.

(** The entries of the root whose name starts with [prefix], in the order of the reads. *)
Definition reserved_entries (prefix : rstring) (d : Disk) : list (list N * Entry) :=
  map_to_list (filter (λ '(n, _), str_bytes prefix `prefix_of` n) (d_root d)).

(** One reserved entry; [content] is what its record may hold. *)
Definition inspect_journal (kind : rstring) (content : list N → result (option GenerationId) GenError)
    (e : list N * Entry) : result PointerJournalEntry (failure GenError) :=
  try name := raising (gen_text (utf8_text e.1 (lit "reserved " ++ kind ++ lit " journal name is not UTF-8"))) in
  try id := match strip_prefix (lit "." ++ kind ++ lit "-") name with Some id => Ok id | None => Err Panic end in
  try suffix := raising (gen_text (GenerationId_parse id)) in
  try record := raising (read_entry (Some e.2)) in
  match record with
  | None => Err (Raise (GenText (kind ++ lit " journal disappeared during inventory")))
  | Some record => try c := raising (content record) in Ok (mk_journal name suffix c)
  end.

Fixpoint inspect_journals (kind : rstring) (content : list N → result (option GenerationId) GenError)
    (es : list (list N * Entry)) : result (list PointerJournalEntry) (failure GenError) :=
  match es with
  | [] => Ok []
  | e :: es' => try j := inspect_journal kind content e in try js := inspect_journals kind content es' in Ok (j :: js)
  end.

Definition current_content (record : list N) : result (option GenerationId) GenError :=
  try g := gen_text (parse_pointer_record record (lit "current journal")) in Ok (Some g).
Definition absent_content (record : list N) : result (option GenerationId) GenError :=
  ensure bool_decide (record = []) else GenText (lit "absent-pointer marker is malformed"); Ok None.
Definition committed_content (record : list N) : result (option GenerationId) GenError :=
  if decide (record = []) then Ok None
  else try g := gen_text (parse_pointer_record record (lit "committed journal")) in Ok (Some g).

(** The state the journals and the pointer spell. *)
Definition classify (d : Disk) (current : option GenerationId)
    (currents absents committeds : list PointerJournalEntry) : result PointerJournalState (failure GenError) :=
  let inconsistent (what : rstring) := Err (Raise (GenText what)) in
  match currents, absents, committeds with
  | [], [], [] => Ok Clean
  | [journal], [], [] =>
      match j_content journal with
      | None => Err Panic
      | Some staged =>
          match bool_decide (current = Some (j_suffix journal)), bool_decide (staged = j_suffix journal) with
          | false, true =>
              try _ := raising (validate_generation d (j_suffix journal)) in Ok (DiscardCurrent (j_name journal))
          | true, false => try _ := raising (validate_generation d staged) in Ok (RollbackCurrent (j_name journal))
          | _, _ => inconsistent (lit "current journal is inconsistent with current")
          end
      end
  | [], [journal], [] =>
      if decide (current = Some (j_suffix journal))
      then try _ := raising (validate_generation d (j_suffix journal)) in Ok (RollbackAbsent (j_name journal))
      else inconsistent (lit "absent journal is inconsistent with current")
  | [current_journal], [absent_journal], [] =>
      if bool_decide (current = None) && bool_decide (j_suffix current_journal = j_suffix absent_journal)
         && bool_decide (j_content current_journal = Some (j_suffix current_journal))
      then
        try _ := raising (validate_generation d (j_suffix current_journal)) in
        Ok (DiscardPristine (j_name current_journal) (j_name absent_journal))
      else inconsistent (lit "pristine pointer journals are inconsistent")
  | [], [], [journal] =>
      if bool_decide (current = Some (j_suffix journal)) && bool_decide (j_content journal ≠ Some (j_suffix journal))
      then
        try _ := raising (validate_generation d (j_suffix journal)) in
        try _ := raising (match j_content journal with Some previous => validate_generation d previous | None => Ok tt end) in
        Ok (CleanupCommitted (j_name journal) (j_content journal))
      else inconsistent (lit "committed journal is inconsistent with current")
  | _, _, _ => inconsistent (lit "pointer journal inventory is contradictory")
  end.

Definition read_pointer (d : Disk) : result (option GenerationId) GenError :=
  try bytes := read_entry (d_root d !! str_bytes (lit "current")) in
  match bytes with
  | None => Ok None
  | Some bytes => try g := gen_text (parse_pointer_record bytes (lit "current")) in Ok (Some g)
  end.

Definition inspect_pointer_journals (d : Disk) : result PointerJournalInventory (failure GenError) :=
  try currents := inspect_journals (lit "current") current_content (reserved_entries (lit ".current-") d) in
  try absents := inspect_journals (lit "absent") absent_content (reserved_entries (lit ".absent-") d) in
  try committeds := inspect_journals (lit "committed") committed_content (reserved_entries (lit ".committed-") d) in
  try current := raising (read_pointer d) in
  try _ := raising (match current with Some g => validate_generation d g | None => Ok tt end) in
  try state := classify d current currents absents committeds in
  Ok (mk_inventory current state).

(** ** Recovery *)

Definition sync_root : gen_m unit := syscall.
Definition rename_root (from to : rstring) : gen_m unit := on_root (dir_rename (str_bytes from) (str_bytes to)).
Definition exchange_root (left right : rstring) : gen_m unit := on_root (dir_exchange (str_bytes left) (str_bytes right)).
Definition unlink_root (n : rstring) : gen_m unit := on_root (dir_unlink (str_bytes n)).

(** [name.replacen(".absent-", ".current-", 1)]: the name starts with the pattern. *)
Definition replace_absent (n : rstring) : rstring :=
  match strip_prefix (lit ".absent-") n with Some id => lit ".current-" ++ id | None => n end.

Definition clean_pointer_staging (inventory : PointerJournalInventory) : gen_m unit :=
  match in_state inventory with
  | Clean => mret tt
  | DiscardCurrent name => _ ← unlink_root name; sync_root
  | RollbackCurrent name => _ ← rename_root name (lit "current"); sync_root
  | RollbackAbsent name =>
      let current_name := replace_absent name in
      _ ← rename_root (lit "current") current_name;
      _ ← sync_root;
      _ ← unlink_root name;
      _ ← unlink_root current_name;
      sync_root
  | DiscardPristine current_name absent_name =>
      _ ← unlink_root absent_name; _ ← unlink_root current_name; sync_root
  | CleanupCommitted name _ => _ ← unlink_root name; sync_root
  end.

(** The order in which [remove_tree_at] empties a directory: every entry after what is
    below it. *)
Fixpoint path_leb (p q : list (list N)) : bool :=
  match p, q with
  | [], _ => true
  | _, [] => false
  | c :: p', d :: q' => str_ltb c d || (bool_decide (c = d) && path_leb p' q')
  end.

Definition removal_order (t : tree) : list (list (list N)) :=
  reverse (merge_sort (λ p q, path_leb p q) (fst <$> map_to_list t)).

(** A change below one generation. *)
Definition on_tree (n : name) (f : tree → result tree GenError) : gen_m unit :=
  on_generations (λ dir,
    match dir !! n with
    | Some (Tree t) => try t := f t in Ok (<[n := Tree t]> dir)
    | Some _ => Err (GenOs ENOTDIR)
    | None => Err (GenOs ENOENT)
    end).

Fixpoint remove_entries (n : name) (ps : list (list (list N))) (t : tree) : gen_m unit :=
  match ps with
  | [] => mret tt
  | p :: ps' =>
      _ ← (if decide (t !! p = Some NodeDirectory) then syscall else mret tt);
      _ ← on_tree n (λ t, Ok (delete p t));
      remove_entries n ps' t
  end.

(** [remove_tree_at] in the generations directory. *)
Definition remove_tree_at (n : name) : gen_m unit :=
  e ← reads (λ d, Ok (d_generations d !! n));
  match e with
  | None => raise (GenOs ENOENT)
  | Some (Tree t) =>
      _ ← remove_entries n (removal_order t) t;
      _ ← syscall;
      on_generations (dir_unlink n)
  | Some _ => on_generations (dir_unlink n)
  end.

Definition staging_name (n : name) : bool :=
  match from_utf8 n with
  | Some s => match strip_prefix (lit ".staging-") s with Some id => is_ok (GenerationId_parse id) | None => false end
  | None => false
  end.

Fixpoint each (f : name → gen_m unit) (ns : list (list N)) : gen_m unit :=
  match ns with [] => mret tt | n :: ns' => _ ← f n; each f ns' end.

Definition clean_staging : gen_m unit :=
  staging ← reads (λ d, Ok (List.filter staging_name (fst <$> map_to_list (d_generations d))));
  _ ← each remove_tree_at staging;
  syscall.

Definition recover : gen_m GenerationId :=
  _ ← syscall;
  inventory ← reading inspect_pointer_journals;
  _ ← clean_staging;
  _ ← clean_pointer_staging inventory;
  reads resolve_current.

(** ** Publication *)

Inductive GenerationPublicationOutcome :=
| Committed (generation : GenerationId)
| CommittedWithCleanupPending (generation : GenerationId) (cause : GenError)
| OutcomeAmbiguous (candidate : GenerationId) (causes : list GenError).

Definition load_publication_order : gen_m PublicationOrder :=
  reads (λ d,
    try present := validate_optional_control (lit "publication-order") d in
    ensure present else GenText (lit "publication order is absent");
    try raw := read_entry (d_root d !! str_bytes (lit "publication-order")) in
    match raw with
    | None => Err (GenText (lit "publication order disappeared while reading"))
    | Some raw => gen_text (PublicationOrder_parse raw)
    end).

Fixpoint check_order_entries (order : PublicationOrder) (es : list (list N * Entry)) : result unit GenError :=
  match es with
  | [] => Ok tt
  | (n, e) :: es' =>
      try name := gen_text (utf8_text n (lit "generation name is not UTF-8 while validating publication order")) in
      try generation := gen_text (GenerationId_parse name) in
      ensure match e with Tree _ => true | _ => false end else GenText (lit "final generation is not a directory");
      ensure bool_decide (is_Some (map_get generation (sequences order)))
        else GenText (lit "final generation lacks a publication sequence");
      check_order_entries order es'
  end.

Definition validate_publication_order_complete (order : PublicationOrder) : gen_m unit :=
  reads (λ d, check_order_entries order (map_to_list (d_generations d))).

Definition clean_publication_order_staging : gen_m unit :=
  present ← reads (validate_optional_control (lit ".publication-order"));
  if (present : bool) then _ ← unlink_root (lit ".publication-order"); sync_root else mret tt.

Definition replace_publication_order (order : PublicationOrder) : gen_m unit :=
  _ ← write_root_file (str_bytes (lit ".publication-order")) (PublicationOrder_encode order);
  _ ← rename_root (lit ".publication-order") (lit "publication-order");
  sync_root.

Fixpoint validate_orphans (d : Disk) (ns : list (list N)) : result unit GenError :=
  match ns with
  | [] => Ok tt
  | n :: ns' =>
      try name := gen_text (utf8_text n (lit "unpointed generation name is not UTF-8")) in
      try generation := gen_text (GenerationId_parse name) in
      try _ := validate_generation d generation in
      validate_orphans d ns'
  end.

Definition validate_current_or_pristine : gen_m bool :=
  reads (λ d,
    match resolve_current d with
    | Ok _ => Ok true
    | Err e =>
        if decide (e = absent_current)
        then try _ := validate_orphans d (fst <$> map_to_list (d_generations d)) in Ok false
        else Err e
    end).

Definition hex_digit (n : N) : N := if (n <? 10)%N then (48 + n)%N else (87 + n)%N.

(** [random_generation_id]; a list of random bytes that ends is a [getrandom] that fails. *)
Definition random_generation_id : gen_m GenerationId :=
  s ← getS;
  match random s with
  | [] => raise (GenOs EIO)
  | r :: rest =>
      _ ← modify (λ s, s <| random := rest |>);
      match r with
      | Err e => raise (GenOs e)
      | Ok bytes => of_result (gen_text (GenerationId_parse (bytes ≫= (λ b, [hex_digit (N.shiftr b 4); hex_digit (N.land b 15)]))))
      end
  end.

(** The loop for an identifier that neither the order nor the directory has. *)
Fixpoint fresh_generation (tries : nat) (order : PublicationOrder) : gen_m GenerationId :=
  match tries with
  | O => raise (GenText (lit "generation id collision retry limit exhausted"))
  | S tries' =>
      candidate ← random_generation_id;
      if bool_decide (is_Some (map_get candidate (sequences order))) then fresh_generation tries' order
      else
        present ← reads (λ d, Ok (bool_decide (is_Some (d_generations d !! str_bytes candidate))));
        if (present : bool) then fresh_generation tries' order else mret candidate
  end.

(** [mkdirat] below the staging directory, when it is not there. *)
Definition make_directory (n : name) (p : list (list N)) : gen_m unit :=
  present ← reads (λ d, Ok (match d_generations d !! n with Some (Tree t) => bool_decide (is_Some (t !! p)) | _ => false end));
  if (present : bool) then mret tt
  else _ ← on_tree n (λ t, Ok (<[p := NodeDirectory]> t)); syscall.

Definition open_directory (n : name) (p : list (list N)) : gen_m unit :=
  reads (λ d,
    match d_generations d !! n with
    | Some (Tree t) =>
        match t !! p with Some NodeDirectory => Ok tt | Some _ => Err (GenOs ENOTDIR) | None => Err (GenOs ENOENT) end
    | _ => Err (GenOs ENOENT)
    end).

(** [write_synced_file] below the staging directory. *)
Definition write_tree_file (n : name) (p : list (list N)) (bytes : list N) : gen_m unit :=
  _ ← on_tree n (λ t, match t !! p with Some _ => Err (GenOs EEXIST) | None => Ok (<[p := NodeFile []]> t) end);
  _ ← write_through (λ bytes d,
        match d_generations d !! n with
        | Some (Tree t) => Ok (d <| d_generations := <[n := Tree (<[p := NodeFile bytes]> t)]> (d_generations d) |>)
        | _ => Err (GenOs ENOENT)
        end) bytes;
  syscall.

Fixpoint make_parents (n : name) (above rest : list (list N)) : gen_m unit :=
  match rest with
  | [] | [_] => mret tt
  | c :: rest' => _ ← make_directory n (above ++ [c]); _ ← open_directory n (above ++ [c]); make_parents n (above ++ [c]) rest'
  end.

Definition write_output (n : name) (path : rstring) (bytes : list N) : gen_m unit :=
  _ ← make_parents n [] (names path);
  _ ← write_tree_file n (names path) bytes;
  syscall.

Fixpoint write_outputs (n : name) (os : list (rstring * list N)) : gen_m unit :=
  match os with
  | [] => mret tt
  | (path, bytes) :: os' => _ ← write_output n path bytes; write_outputs n os'
  end.

(** The tree of a generation, from [mkdirat] to the [fsync] of the staging directory. *)
Definition write_generation (p : GenerationPublication) (generation : GenerationId) (staging : name) : gen_m unit :=
  _ ← on_generations (dir_create staging (Tree ∅));
  _ ← syscall;
  _ ← write_outputs staging (outputs p);
  let receipt := receipt p generation in
  _ ← write_tree_file staging [str_bytes (lit "receipt")] (str_bytes receipt);
  let manifest := manifest digest_hex p generation receipt in
  _ ← write_tree_file staging [str_bytes (lit "manifest")] (str_bytes manifest);
  _ ← write_tree_file staging [str_bytes (lit "seal")] (str_bytes (digest_hex (str_bytes manifest) ++ [10%N]));
  syscall.

(** What follows the [fsync] that commits the pointer: the marker, and its removal. *)
Definition finish_commit (generation : GenerationId) (cleanup_name : rstring) : gen_m GenerationPublicationOutcome :=
  let committed_marker := lit ".committed-" ++ generation in
  r ← attempt (_ ← rename_root cleanup_name committed_marker; sync_root);
  match r with
  | Err cause => mret (OutcomeAmbiguous generation [cause])
  | Ok _ =>
      r ← attempt (_ ← unlink_root committed_marker; sync_root);
      match r with
      | Err cause => mret (CommittedWithCleanupPending generation cause)
      | Ok _ => mret (Committed generation)
      end
  end.

(** The [fsync] itself; when it fails the pointer is put back. *)
Definition commit_pointer (generation : GenerationId) (rollback : gen_m unit) (cleanup_name : rstring) :
    gen_m GenerationPublicationOutcome :=
  r ← attempt sync_root;
  match r with
  | Err commit_error =>
      r ← attempt rollback;
      match r with
      | Ok _ => raise commit_error
      | Err rollback_error => mret (OutcomeAmbiguous generation [commit_error; rollback_error])
      end
  | Ok _ => finish_commit generation cleanup_name
  end.

Definition publish_generation_locked (p : GenerationPublication) (generation : GenerationId)
    (order : PublicationOrder) (had_current : bool) : gen_m GenerationPublicationOutcome :=
  let staging := str_bytes (lit ".staging-" ++ generation) in
  let pointer_staging := lit ".current-" ++ generation in
  let absent_marker := lit ".absent-" ++ generation in
  _ ← write_generation p generation staging;
  _ ← replace_publication_order order;
  _ ← on_generations (dir_rename staging (str_bytes generation));
  _ ← syscall;
  _ ← write_root_file (str_bytes pointer_staging) (str_bytes (generation ++ [10%N]));
  if had_current then
    _ ← sync_root;
    _ ← exchange_root pointer_staging (lit "current");
    commit_pointer generation (_ ← exchange_root pointer_staging (lit "current"); sync_root) pointer_staging
  else
    _ ← write_root_file (str_bytes absent_marker) [];
    _ ← sync_root;
    _ ← rename_root pointer_staging (lit "current");
    commit_pointer generation
      (_ ← rename_root (lit "current") pointer_staging; _ ← unlink_root absent_marker; sync_root) absent_marker.

Definition publish_allocated_locked (p : GenerationPublication) (had_current : bool) (order : PublicationOrder) :
    gen_m GenerationPublicationOutcome :=
  r ← of_result (gen_text (reserve_sequence order));
  let '(publication_sequence, order) := r in
  _ ← replace_publication_order order;
  generation ← fresh_generation 64 order;
  _ ← of_result (require (bool_decide (map_get generation (sequences order) = None))
        (GenText (lit "generation already has a publication sequence")));
  let order := mk_order (next_sequence order) (map_insert generation publication_sequence (sequences order)) in
  publish_generation_locked p generation order had_current.

(** [publish]; [capture] is what the caller renders. *)
Definition publish (capture : result GenerationPublication rstring) : gen_m GenerationPublicationOutcome :=
  _ ← syscall;
  inventory ← reading inspect_pointer_journals;
  _ ← clean_staging;
  _ ← clean_pointer_staging inventory;
  _ ← clean_publication_order_staging;
  had_current ← validate_current_or_pristine;
  order ← load_publication_order;
  _ ← validate_publication_order_complete order;
  p ← of_result (gen_text capture);
  publish_allocated_locked p had_current order.

Definition settled (s : PointerJournalState) : bool :=
  match s with Clean | CleanupCommitted _ _ => true | _ => false end.

Definition bootstrap_names : list (list N) :=
  str_bytes <$> [lit "activation.lock"; lit "generations"; lit "leases"; lit "publication-order"].

Definition validate_pristine_bootstrap_state : gen_m unit :=
  _ ← reads (λ d,
    ensure forallb (λ n, bool_decide (n ∈ bootstrap_names)) (fst <$> map_to_list (d_root d))
      else GenText (lit "absent current has retained generation evidence");
    ensure bool_decide (d_generations d = ∅) && bool_decide (d_leases d = ∅)
      else GenText (lit "absent current has retained generation evidence");
    Ok tt);
  order ← load_publication_order;
  of_result (require (bool_decide (order = PublicationOrder_empty))
    (GenText (lit "absent current has retained publication evidence"))).

Definition ensure_current (capture : result GenerationPublication rstring) : gen_m GenerationPublicationOutcome :=
  _ ← syscall;
  inventory ← reading inspect_pointer_journals;
  _ ← of_result (require (settled (in_state inventory)) (GenText (lit "pointer transaction requires exclusive recovery")));
  match in_current inventory with
  | Some current =>
      _ ← reads (λ d, validate_generation d current);
      mret (Committed current)
  | None =>
      _ ← of_result (require (match in_state inventory with Clean => true | _ => false end)
            (GenText (lit "absent current has pending recovery evidence")));
      _ ← validate_pristine_bootstrap_state;
      order ← load_publication_order;
      p ← of_result (gen_text capture);
      publish_allocated_locked p false order
  end.

Definition commit_existing_pointer_locked (generation : GenerationId) : gen_m GenerationPublicationOutcome :=
  let pointer_staging := lit ".current-" ++ generation in
  _ ← write_root_file (str_bytes pointer_staging) (str_bytes (generation ++ [10%N]));
  _ ← sync_root;
  _ ← exchange_root pointer_staging (lit "current");
  commit_pointer generation (_ ← exchange_root pointer_staging (lit "current"); sync_root) pointer_staging.

Definition rollback (generation : GenerationId) : gen_m GenerationPublicationOutcome :=
  _ ← syscall;
  inventory ← reading inspect_pointer_journals;
  _ ← reads (λ d, validate_generation d generation);
  _ ← clean_pointer_staging inventory;
  current ← reads resolve_current;
  if decide (current = generation) then mret (Committed generation)
  else commit_existing_pointer_locked generation.

(** ** Selection *)

(** What /proc says of a process. *)
Record ProcessIdentity := mk_process { pr_pid : N; pr_start_time : N; pr_boot_id : rstring; pr_owner_uid : N }.

Variable own_uid : N.

(** [LeaseRecord::for_process] *)
Definition for_process (generation : GenerationId) (r : result ProcessIdentity GenError) : result LeaseRecord GenError :=
  try p := r in
  ensure (pr_owner_uid p =? own_uid)%N else GenText (lit "lease target is not owned by the current user");
  Ok (mk_lease generation (pr_pid p) (pr_start_time p) (pr_boot_id p) (pr_owner_uid p)).

Fixpoint create_lease_locked (tries : nat) (record : LeaseRecord) : gen_m name :=
  match tries with
  | O => raise (GenText (lit "lease id collision retry limit exhausted"))
  | S tries' =>
      id ← random_generation_id;
      let n := str_bytes id in
      r ← attempt (write_lease_file n (LeaseRecord_encode record));
      match r with
      | Ok _ =>
          r ← attempt syscall;
          match r with
          | Ok _ => mret n
          | Err error =>
              _ ← attempt (F := GenError) (on_leases (dir_unlink n)); _ ← attempt (F := GenError) syscall; raise error
          end
      | Err error => if decide (error = GenOs EEXIST) then create_lease_locked tries' record else raise error
      end
  end.

(** [select_current_with_checkpoint]: the generation, and the name of its lease. *)
Definition select_current (identity : result ProcessIdentity GenError) : gen_m (GenerationId * name) :=
  _ ← syscall;
  inventory ← reading inspect_pointer_journals;
  _ ← of_result (require (settled (in_state inventory)) (GenText (lit "pointer transaction requires exclusive recovery")));
  match in_current inventory with
  | None => raise absent_current
  | Some generation =>
      _ ← reads (λ d, validate_generation d generation);
      record ← of_result (for_process generation identity);
      n ← create_lease_locked 64 record;
      mret (generation, n)
  end.

(** ** Garbage collection *)

Inductive LeaseLiveness := Live | Stale | Uncertain.

Record GenerationGcReport := mk_report { reclaimed_leases : nat; reclaimed_generations : nat }.

#[export] Instance GenerationGcReport_settable : Settable GenerationGcReport := λ r,
  mk_report (reclaimed_leases r) (reclaimed_generations r).

Definition MAX_LEASE_INVENTORY_ENTRIES : nat := N.to_nat 4096.
Definition MAX_LEASE_INVENTORY_BYTES : nat := N.to_nat 16777216.

Definition over_bounds : GenError := GenText (lit "generation lease inventory exceeds its scan bounds").

(** [read_validated_lease_inventory_entry] *)
Definition read_lease_entry (e : option Entry) : result ParsedLeaseRecord GenError :=
  match e with
  | Some (File true bytes) => gen_text (read_lease_record bytes)
  | Some (File false _) => Err (GenText (lit "generation lease inventory entry has unsafe permissions"))
  | Some _ => Err (GenText (lit "generation lease inventory entry has an unsafe file type"))
  | None => Err (GenOs ENOENT)
  end.

(** [gc_lease_inventory_preflight]: the canonical names, and whether a transfer is staged. *)
Fixpoint gc_lease_inventory_preflight (inventory_entries inventory_bytes : nat) (es : list (list N * Entry)) :
    result (list (list N) * bool) GenError :=
  match es with
  | [] => Ok ([], false)
  | (n, e) :: es' =>
      let size := match e with File _ bytes => length bytes | _ => 0 end in
      let inventory_entries := S inventory_entries in
      let inventory_bytes := inventory_bytes + size in
      ensure (inventory_entries <=? MAX_LEASE_INVENTORY_ENTRIES) && (inventory_bytes <=? MAX_LEASE_INVENTORY_BYTES)
        else over_bounds;
      ensure match e with File true _ => true | _ => false end
        else GenText (lit "generation lease inventory entry has unsafe permissions");
      ensure size <=? N.to_nat 4096 else GenText (lit "generation lease inventory entry exceeds 4096 bytes");
      try name := gen_text (utf8_text n (lit "generation lease inventory name is not UTF-8")) in
      if starts_with (lit ".lease-transfer-") name then
        try rest := gc_lease_inventory_preflight inventory_entries inventory_bytes es' in Ok (rest.1, true)
      else if is_ok (GenerationId_parse name) then
        try rest := gc_lease_inventory_preflight inventory_entries inventory_bytes es' in Ok (n :: rest.1, rest.2)
      else Err (GenText (lit "generation lease inventory contains an unknown name"))
  end.

Variable liveness : LeaseRecord → LeaseLiveness.

(** The loop over the canonical names: the generations in use, the stale leases, and
    whether one is uncertain. *)
Fixpoint survey_leases (d : Disk) (ns : list (list N)) : list GenerationId * list (list N) * bool :=
  match ns with
  | [] => ([], [], false)
  | n :: ns' =>
      let '(live, stale, uncertain) := survey_leases d ns' in
      match read_lease_entry (d_leases d !! n) with
      | Err _ => (live, stale, true)
      | Ok (ParsedProcess record) =>
          match liveness record with
          | Live => (le_generation record :: live, stale, uncertain)
          | Stale => (live, n :: stale, uncertain)
          | Uncertain => (le_generation record :: live, stale, true)
          end
      | Ok (ParsedLifecycle record) => (ll_generation record :: live, stale, true)
      end
  end.

Fixpoint remove_leases (report : GenerationGcReport) (ns : list (list N)) : gen_m GenerationGcReport :=
  match ns with
  | [] => mret report
  | n :: ns' =>
      r ← attempt (on_leases (dir_unlink n));
      match r with
      | Ok _ => _ ← syscall; remove_leases (report <| reclaimed_leases := S (reclaimed_leases report) |>) ns'
      | Err e => if decide (e = GenOs ENOENT) then remove_leases report ns' else raise e
      end
  end.

(** [reclaim_stale_leases_locked]: a read that fails makes the inventory uncertain. *)
Definition reclaim_stale_leases_locked : gen_m (GenerationGcReport * list GenerationId * bool) :=
  let report := mk_report 0 0 in
  preflight ← attempt (reads (λ d, gc_lease_inventory_preflight 0 0 (map_to_list (d_leases d))));
  match preflight with
  | Err _ => mret (report, [], true)
  | Ok (canonical_names, has_transfer_stage) =>
      if (has_transfer_stage : bool) then mret (report, [], true)
      else
        survey ← attempt (reads (λ d, Ok (survey_leases d canonical_names)));
        match survey with
        | Err _ => mret (report, [], true)
        | Ok (live, stale, uncertain) =>
            if (uncertain : bool) then mret (report, live, true)
            else report ← remove_leases report stale; mret (report, live, false)
        end
  end.

(** The candidates for removal, or [None] when a generation is malformed. *)
Fixpoint gc_candidates (d : Disk) (order : PublicationOrder) (live : list GenerationId) (es : list (list N * Entry)) :
    option (list (N * GenerationId)) :=
  match es with
  | [] => Some []
  | (n, e) :: es' =>
      rest ← gc_candidates d order live es';
      name ← from_utf8 n;
      match GenerationId_parse name with
      | Err _ => None
      | Ok generation =>
          if is_ok (validate_generation d generation) then
            if bool_decide (generation ∈ live) then Some rest
            else sequence ← map_get generation (sequences order); Some ((sequence, generation) :: rest)
          else None
      end
  end.

(** [sort_by_key] on the sequence, the newest first. *)
Fixpoint insert_candidate (c : N * GenerationId) (cs : list (N * GenerationId)) : list (N * GenerationId) :=
  match cs with
  | [] => [c]
  | c' :: cs' => if (c.1 <? c'.1)%N then c' :: insert_candidate c cs' else c :: cs
  end.

Definition sort_candidates (cs : list (N * GenerationId)) : list (N * GenerationId) := foldr insert_candidate [] cs.

Fixpoint remove_generations (report : GenerationGcReport) (cs : list (N * GenerationId)) : gen_m GenerationGcReport :=
  match cs with
  | [] => mret report
  | (_, generation) :: cs' =>
      _ ← remove_tree_at (str_bytes generation);
      _ ← syscall;
      remove_generations (report <| reclaimed_generations := S (reclaimed_generations report) |>) cs'
  end.

Definition garbage_collect : gen_m GenerationGcReport :=
  _ ← syscall;
  r ← reclaim_stale_leases_locked;
  let '(report, live, uncertain_lease) := r in
  if (uncertain_lease : bool) then mret report
  else
    inventory ← attempt (reading inspect_pointer_journals);
    match inventory with
    | Err _ => mret report
    | Ok inventory =>
        if settled (in_state inventory) then
          match in_current inventory with
          | None => mret report
          | Some current =>
              let previous := match in_state inventory with CleanupCommitted _ (Some g) => [g] | _ => [] end in
              let live := current :: previous ++ live in
              staged ← attempt (reads (validate_optional_control (lit ".publication-order")));
              match staged with
              | Ok false =>
                  order ← attempt load_publication_order;
                  match order with
                  | Err _ => mret report
                  | Ok order =>
                      complete ← attempt (validate_publication_order_complete order);
                      match complete with
                      | Err _ => mret report
                      | Ok _ =>
                          candidates ← reads (λ d, Ok (gc_candidates d order live (map_to_list (d_generations d))));
                          match candidates with
                          | None => mret report
                          | Some cs => remove_generations report (drop 2 (sort_candidates cs))
                          end
                      end
                  end
              | _ => mret report
              end
          end
        else mret report
    end.
End store.
