(* ===== verification/GenJournals.v ===== *)
(** * The generation store: what the inspection of the pointer accepts

    The pointer and its journals have six shapes.  The inspection accepts exactly them,
    and each says which generation recovery settles on. *)

From Stdlib Require Import ZArith Lia.
From stdpp Require Import prelude list gmap sorting.
From S2P Require Import Prelude Authority Hoare Utf8 Ipc Text GenRecords GenFormats GenStore.

#[local] Arguments lit : simpl never.

Lemma raising_Ok {A} (r : result A GenError) a : raising r = Ok a ↔ r = Ok a.
Proof. destruct r; cbn; naive_solver. Qed.

Lemma gen_text_Ok {A} (r : result A rstring) a : gen_text r = Ok a ↔ r = Ok a.
Proof. destruct r; cbn; naive_solver. Qed.

Lemma read_entry_Ok e b : read_entry (Some e) = Ok (Some b) ↔ ∃ p, e = File p b.
Proof. destruct e; cbn; naive_solver. Qed.

Section journals.
Variable digest_hex : list N → rstring.

Abbreviation inspect := (inspect_pointer_journals digest_hex).

Definition valid (d : Disk) (g : GenerationId) : Prop := validate_generation digest_hex d g = Ok tt.

Inductive Kind := KCurrent | KAbsent | KCommitted.

Definition kind_text (k : Kind) : rstring :=
  match k with KCurrent => lit "current" | KAbsent => lit "absent" | KCommitted => lit "committed" end.

Definition kind_prefix (k : Kind) : rstring := lit "." ++ kind_text k ++ lit "-".

(** The name of a journal, and the journals of a kind. *)
Definition journal_name (k : Kind) (g : GenerationId) : rstring := kind_prefix k ++ g.

Definition journals (k : Kind) (d : Disk) : gmap (list N) Entry :=
  filter (λ '(n, _), str_bytes (kind_prefix k) `prefix_of` n) (d_root d).

Definition pointer_name : list N := str_bytes (lit "current").

Definition pointer (d : Disk) : option Entry := d_root d !! pointer_name.

(** The entry holds the record of a generation. *)
Definition holds (e : option Entry) (g : GenerationId) : Prop :=
  ∃ p, e = Some (File p (str_bytes (g ++ [10%N]))) ∧ lower_hex_32 g = true.

Definition pointer_is (d : Disk) (v : option GenerationId) : Prop :=
  match v with Some g => holds (pointer d) g ∧ valid d g | None => pointer d = None end.

Definition pointer_record (g : GenerationId) : list N := str_bytes (g ++ [10%N]).

Definition one (k : Kind) (g : GenerationId) (p : bool) (bytes : list N) : gmap (list N) Entry :=
  {[str_bytes (journal_name k g) := File p bytes]}.

Definition journals_are (d : Disk) (currents absents committeds : gmap (list N) Entry) : Prop :=
  journals KCurrent d = currents ∧ journals KAbsent d = absents ∧ journals KCommitted d = committeds.

Definition previous_record (previous : option GenerationId) : list N :=
  match previous with Some a => pointer_record a | None => [] end.

Definition known (d : Disk) (g : GenerationId) : Prop := lower_hex_32 g = true ∧ valid d g.

(** The six shapes: what the inspection answers, what the pointer is, and the generation
    recovery settles on. *)
Inductive shape (d : Disk) : PointerJournalState → option GenerationId → option GenerationId → Prop :=
| shape_clean v : journals_are d ∅ ∅ ∅ → pointer_is d v → shape d Clean v v
| shape_discard v g p :
    journals_are d (one KCurrent g p (pointer_record g)) ∅ ∅ → pointer_is d v → v ≠ Some g → known d g →
    shape d (DiscardCurrent (journal_name KCurrent g)) v v
| shape_rollback v g p :
    journals_are d (one KCurrent g p (pointer_record v)) ∅ ∅ → pointer_is d (Some g) → v ≠ g → known d v →
    shape d (RollbackCurrent (journal_name KCurrent g)) (Some g) (Some v)
| shape_absent g p :
    journals_are d ∅ (one KAbsent g p []) ∅ → pointer_is d (Some g) →
    shape d (RollbackAbsent (journal_name KAbsent g)) (Some g) None
| shape_pristine g p q :
    journals_are d (one KCurrent g p (pointer_record g)) (one KAbsent g q []) ∅ → pointer_is d None → known d g →
    shape d (DiscardPristine (journal_name KCurrent g) (journal_name KAbsent g)) None None
| shape_committed g p previous :
    journals_are d ∅ ∅ (one KCommitted g p (previous_record previous)) → pointer_is d (Some g) →
    previous ≠ Some g → (∀ a, previous = Some a → known d a) →
    shape d (CleanupCommitted (journal_name KCommitted g) previous) (Some g) (Some g).

(** ** One record, one journal *)

Lemma hex_text g : lower_hex_32 g = true → is_text g ∧ 10%N ∉ g.
Proof.
  intros Hg. pose proof (hex_graphic _ _ Hg) as Hgr. split; [by apply ascii_text, graphic_ascii|].
  by apply graphic_plain in Hgr as [? _].
Qed.

Lemma parse_pointer_record_Ok bytes n g :
  parse_pointer_record bytes n = Ok g ↔ bytes = pointer_record g ∧ lower_hex_32 g = true.
Proof.
  unfold parse_pointer_record, pointer_record, utf8_text. split.
  - rewrite rbind_Ok. intros (t & Ht & Hr). destruct (from_utf8 bytes) as [t'|] eqn:Hu; [|done]. injection Ht as ->.
    apply from_utf8_Some in Hu as [_ <-]. rewrite ensure_Ok, bool_decide_eq_true in Hr. destruct Hr as [Hl [Hr Hh]%GenerationId_parse_Ok].
    split; [|done]. f_equal. destruct t as [|c t _] using rev_ind; [done|]. rewrite last_snoc in Hl. injection Hl as ->.
    by rewrite removelast_last in Hr; subst.
  - intros [-> Hg]. rewrite from_utf8_str_bytes by by apply is_text_snoc_lf, hex_text. cbn [rbind].
    rewrite ensure_Ok, last_snoc, bool_decide_eq_true, removelast_last. split; [done|]. by apply GenerationId_parse_Ok.
Qed.

Lemma kind_prefix_text k : ascii (kind_prefix k).
Proof. destruct k; by repeat constructor. Qed.

Lemma inspect_journal_Ok k content e j :
  inspect_journal (kind_text k) content e = Ok j ↔
  ∃ p b, e = (str_bytes (journal_name k (j_suffix j)), File p b) ∧ lower_hex_32 (j_suffix j) = true
    ∧ content b = Ok (j_content j) ∧ j_name j = journal_name k (j_suffix j).
Proof.
  unfold inspect_journal, journal_name. split.
  - rewrite rbind_Ok. intros (t & Ht%raising_Ok%gen_text_Ok & Hr). apply rbind_Ok in Hr as (id & Hid & Hr).
    destruct (strip_prefix _ t) as [id'|] eqn:Es; [|done]. injection Hid as ->. apply strip_prefix_Some in Es as ->.
    apply rbind_Ok in Hr as (g & [-> Hg]%raising_Ok%gen_text_Ok%GenerationId_parse_Ok & Hr).
    apply rbind_Ok in Hr as (b & Hb%raising_Ok & Hr). destruct b as [b|]; [|done].
    apply rbind_Ok in Hr as (c & Hc%raising_Ok & [= <-]). apply read_entry_Ok in Hb as [p Hp].
    unfold utf8_text in Ht. destruct (from_utf8 e.1) as [t|] eqn:Hu; [|done]. injection Ht as ->.
    apply from_utf8_Some in Hu as [_ Hu]. exists p, b. cbn. split_and!; try done. destruct e as [n e]. cbn in *. by subst.
  - intros (p & b & -> & Hg & Hc & Hn). cbn [fst snd]. unfold utf8_text. rewrite from_utf8_str_bytes.
    2:{ apply Forall_app. split; [apply ascii_text, kind_prefix_text|by apply hex_text]. }
    cbn [gen_text map_err raising rbind].
    rewrite (proj2 (strip_prefix_Some (lit "." ++ kind_text k ++ lit "-") (kind_prefix k ++ j_suffix j) (j_suffix j))) by done.
    cbn [rbind]. rewrite (proj2 (GenerationId_parse_Ok (j_suffix j) (j_suffix j))) by done. cbn. rewrite Hc. cbn.
    by destruct j; cbn in *; subst.
Qed.

Lemma inspect_journals_nil k content : inspect_journals (kind_text k) content (map_to_list (∅ : gmap (list N) Entry)) = Ok [].
Proof. by rewrite map_to_list_empty. Qed.

Lemma inspect_journals_one k content g p b c :
  lower_hex_32 g = true → content b = Ok c →
  inspect_journals (kind_text k) content (map_to_list (one k g p b)) = Ok [mk_journal (journal_name k g) g c].
Proof.
  intros Hg Hc. unfold one. rewrite map_to_list_singleton. cbn [inspect_journals].
  by rewrite (proj2 (inspect_journal_Ok k content (str_bytes (journal_name k g), File p b) (mk_journal (journal_name k g) g c)))
    by by exists p, b.
Qed.

(** What the journals are when the inspection reads none, or one. *)
Lemma inspect_journals_inv (k : Kind) (content : list N → result (option GenerationId) GenError) (m : gmap (list N) Entry) (js : list PointerJournalEntry) :
  inspect_journals (kind_text k) content (map_to_list m) = Ok js →
  match js with
  | [] => m = ∅
  | [j] => ∃ p b, m = one k (j_suffix j) p b ∧ lower_hex_32 (j_suffix j) = true ∧ content b = Ok (j_content j)
      ∧ j_name j = journal_name k (j_suffix j)
  | _ => True
  end.
Proof.
  destruct (map_to_list m) as [|e [|e' es]] eqn:Em; cbn [inspect_journals].
  - intros [= <-]. by apply map_to_list_empty_iff.
  - rewrite rbind_Ok. intros (j & (p & b & -> & Hg & Hc & Hn)%inspect_journal_Ok & [= <-]). exists p, b. split; [|done].
    rewrite <-(list_to_map_to_list m), Em. done.
  - rewrite rbind_Ok. intros (j & _ & Hr). apply rbind_Ok in Hr as (js' & Hr & [= <-]).
    apply rbind_Ok in Hr as (j' & _ & Hr). by apply rbind_Ok in Hr as (js'' & _ & [= <-]).
Qed.

Lemma current_content_Ok b c : current_content b = Ok c ↔ ∃ g, c = Some g ∧ b = pointer_record g ∧ lower_hex_32 g = true.
Proof.
  unfold current_content. rewrite rbind_Ok. setoid_rewrite gen_text_Ok. setoid_rewrite parse_pointer_record_Ok. naive_solver.
Qed.

Lemma absent_content_Ok b c : absent_content b = Ok c ↔ c = None ∧ b = [].
Proof. unfold absent_content. rewrite ensure_Ok, bool_decide_eq_true. naive_solver. Qed.

Lemma pointer_record_ne g : pointer_record g ≠ [].
Proof. unfold pointer_record. rewrite str_bytes_app. by destruct (str_bytes g). Qed.

Lemma committed_content_Ok b c :
  committed_content b = Ok c ↔ b = previous_record c ∧ ∀ a, c = Some a → lower_hex_32 a = true.
Proof.
  unfold committed_content, previous_record. case_decide as Hb.
  - split; [intros [= <-]; done|]. intros [-> _]. destruct c; [by apply pointer_record_ne in Hb|done].
  - rewrite rbind_Ok. setoid_rewrite gen_text_Ok. setoid_rewrite parse_pointer_record_Ok. split; [naive_solver|].
    intros [-> Hc]. destruct c as [a|]; [|done]. exists a. split; [split; [done|by apply Hc]|done].
Qed.

Lemma read_pointer_Ok d v : (read_pointer d = Ok v ∧ match v with Some g => valid d g | None => True end) ↔ pointer_is d v.
Proof.
  unfold read_pointer, pointer_is, holds, pointer, pointer_name.
  destruct (d_root d !! str_bytes (lit "current")) as [e|] eqn:E.
  - destruct e as [p b| | |]; cbn [read_entry rbind]; [|split; [by intros [? _]|destruct v; naive_solver]..].
    rewrite rbind_Ok. setoid_rewrite gen_text_Ok. setoid_rewrite parse_pointer_record_Ok. destruct v; naive_solver.
  - cbn [read_entry rbind]. destruct v; naive_solver.
Qed.

Lemma generation_valid_Ok d g u : validate_generation digest_hex d g = Ok u ↔ valid d g.
Proof. unfold valid. by destruct u. Qed.

(** ** The inspection *)

(** The lists the inspection reads, when the journals are known. *)
Lemma inspect_unfold d currents absents committeds current :
  inspect_journals (kind_text KCurrent) current_content (map_to_list (journals KCurrent d)) = Ok currents →
  inspect_journals (kind_text KAbsent) absent_content (map_to_list (journals KAbsent d)) = Ok absents →
  inspect_journals (kind_text KCommitted) committed_content (map_to_list (journals KCommitted d)) = Ok committeds →
  pointer_is d current →
  inspect d = (try state := classify digest_hex d current currents absents committeds in Ok (mk_inventory current state)).
Proof.
  intros Hc Ha Hm [Hr Hv]%read_pointer_Ok. unfold inspect_pointer_journals.
  change (reserved_entries (lit ".current-") d) with (map_to_list (journals KCurrent d)).
  change (reserved_entries (lit ".absent-") d) with (map_to_list (journals KAbsent d)).
  change (reserved_entries (lit ".committed-") d) with (map_to_list (journals KCommitted d)).
  change (lit "current") with (kind_text KCurrent). change (lit "absent") with (kind_text KAbsent).
  change (lit "committed") with (kind_text KCommitted). rewrite Hc, Ha, Hm, Hr. cbn [rbind raising map_err].
  destruct current as [g|]; [|done]. unfold valid in Hv. by rewrite Hv.
Qed.

Lemma holds_hex e g : holds e g → lower_hex_32 g = true.
Proof. by intros (p & _ & Hg). Qed.

Lemma inspect_of_shape d st current v : shape d st current v → inspect d = Ok (mk_inventory current st).
Proof.
  destruct 1 as [v [Ec [Ea Em]] Hp|v g p [Ec [Ea Em]] Hp Hne [Hg Hv]|v g p [Ec [Ea Em]] Hp Hne [Hg Hv]|g p [Ec [Ea Em]] Hp
    |g p q [Ec [Ea Em]] Hp [Hg Hv]|g p previous [Ec [Ea Em]] Hp Hne Hprev].
  - rewrite (inspect_unfold d [] [] [] v); [done|by rewrite ?Ec, ?Ea, ?Em, map_to_list_empty..|done].
  - rewrite (inspect_unfold d [mk_journal (journal_name KCurrent g) g (Some g)] [] [] v);
      [| |by rewrite ?Ec, ?Ea, ?Em, map_to_list_empty..|done].
    + cbn. rewrite bool_decide_eq_false_2, bool_decide_eq_true_2 by done. unfold valid in Hv. by rewrite Hv.
    + rewrite Ec. apply inspect_journals_one; [done|]. apply current_content_Ok. by exists g.
  - pose proof (holds_hex _ _ (proj1 Hp)) as Hhex.
    rewrite (inspect_unfold d [mk_journal (journal_name KCurrent g) g (Some v)] [] [] (Some g));
      [| |by rewrite ?Ec, ?Ea, ?Em, map_to_list_empty..|done].
    + cbn. rewrite bool_decide_eq_true_2, bool_decide_eq_false_2 by done. unfold valid in Hv. by rewrite Hv.
    + rewrite Ec. apply inspect_journals_one; [done|]. apply current_content_Ok. by exists v.
  - pose proof (holds_hex _ _ (proj1 Hp)) as Hhex. destruct Hp as [Hp Hv].
    rewrite (inspect_unfold d [] [mk_journal (journal_name KAbsent g) g None] [] (Some g));
      [|by rewrite ?Ec, ?Ea, ?Em, map_to_list_empty| |by rewrite ?Ec, ?Ea, ?Em, map_to_list_empty|done].
    + cbn. rewrite decide_True by done. unfold valid in Hv. by rewrite Hv.
    + rewrite Ea. apply inspect_journals_one; [done|]. by apply absent_content_Ok.
  - rewrite (inspect_unfold d [mk_journal (journal_name KCurrent g) g (Some g)] [mk_journal (journal_name KAbsent g) g None] [] None);
      [| | |by rewrite Em, map_to_list_empty|done].
    + cbn. rewrite !bool_decide_eq_true_2 by done. cbn. unfold valid in Hv. by rewrite Hv.
    + rewrite Ec. apply inspect_journals_one; [done|]. apply current_content_Ok. by exists g.
    + rewrite Ea. apply inspect_journals_one; [done|]. by apply absent_content_Ok.
  - pose proof (holds_hex _ _ (proj1 Hp)) as Hhex. pose proof (proj2 Hp) as Hv.
    rewrite (inspect_unfold d [] [] [mk_journal (journal_name KCommitted g) g previous] (Some g));
      [|by rewrite ?Ec, ?Ea, ?Em, map_to_list_empty..| |done].
    + cbn. rewrite !bool_decide_eq_true_2 by done. cbn. unfold valid in Hv. rewrite Hv. cbn.
      destruct previous as [a|]; [|done]. destruct (Hprev a eq_refl) as [_ Hva]. unfold valid in Hva. by rewrite Hva.
    + rewrite Em. apply inspect_journals_one; [done|]. apply committed_content_Ok. split; [done|].
      intros a Ha. by apply Hprev.
Qed.

Lemma shape_of_inspect d inv : inspect d = Ok inv → ∃ v, shape d (in_state inv) (in_current inv) v.
Proof.
  unfold inspect_pointer_journals.
  change (reserved_entries (lit ".current-") d) with (map_to_list (journals KCurrent d)).
  change (reserved_entries (lit ".absent-") d) with (map_to_list (journals KAbsent d)).
  change (reserved_entries (lit ".committed-") d) with (map_to_list (journals KCommitted d)).
  intros (currents & Hc & H)%rbind_Ok. apply rbind_Ok in H as (absents & Ha & H). apply rbind_Ok in H as (committeds & Hm & H).
  apply rbind_Ok in H as (current & Hr%raising_Ok & H). apply rbind_Ok in H as (u & Hv%raising_Ok & H).
  apply rbind_Ok in H as (st & Hst & [= <-]). cbn [in_state in_current].
  assert (pointer_is d current) as Hp.
  { apply read_pointer_Ok. split; [done|]. destruct current; [by apply generation_valid_Ok in Hv|done]. }
  apply (inspect_journals_inv KCurrent) in Hc. apply (inspect_journals_inv KAbsent) in Ha.
  apply (inspect_journals_inv KCommitted) in Hm.
  unfold classify in Hst.
  destruct currents as [|c [|]], absents as [|a [|]], committeds as [|m [|]]; try done.
  - injection Hst as <-. exists current. by apply shape_clean.
  - destruct Hm as (p & b & Em & Hg & [-> Hhex]%committed_content_Ok & Hn). destruct (_ && _) eqn:Hcond; [|done].
    apply andb_true_iff in Hcond as [->%bool_decide_eq_true Hne%bool_decide_eq_true].
    apply rbind_Ok in Hst as (? & _ & Hst). apply rbind_Ok in Hst as (u' & Hprev%raising_Ok & [= <-]).
    exists (Some (j_suffix m)). rewrite Hn. apply (shape_committed d (j_suffix m) p); [done|done|done|].
    intros y Hy. split; [by apply Hhex|]. rewrite Hy in Hprev. by apply generation_valid_Ok in Hprev.
  - destruct Ha as (p & b & Ea & Hg & [_ ->]%absent_content_Ok & Hn). case_decide as Hcur; [|done].
    apply rbind_Ok in Hst as (? & _ & [= <-]). exists None. rewrite Hn, Hcur in *. by apply (shape_absent d (j_suffix a) p).
  - destruct Hc as (p & b & Ec & Hg & (s & Hs & -> & Hhex)%current_content_Ok & Hn). rewrite Hs in Hst.
    destruct (bool_decide (current = _)) eqn:Hcur, (bool_decide (s = _)) eqn:Hsuf; try done;
      apply rbind_Ok in Hst as (? & Hvs%raising_Ok%generation_valid_Ok & [= <-]); rewrite Hn.
    + apply bool_decide_eq_true in Hcur. apply bool_decide_eq_false in Hsuf. subst current. exists (Some s).
      by apply (shape_rollback d s (j_suffix c) p).
    + apply bool_decide_eq_false in Hcur. apply bool_decide_eq_true in Hsuf. subst s. exists current.
      by apply (shape_discard d current (j_suffix c) p).
  - destruct Hc as (p & b & Ec & Hg & (s & Hs & -> & Hhex)%current_content_Ok & Hn).
    destruct Ha as (q & b' & Ea & Hg' & [_ ->]%absent_content_Ok & Hn').
    destruct (_ && _) eqn:Hcond; [|done]. rewrite !andb_true_iff, !bool_decide_eq_true in Hcond.
    destruct Hcond as [[-> Hsuf] Hcont]. apply rbind_Ok in Hst as (? & Hvs%raising_Ok%generation_valid_Ok & [= <-]).
    exists None. rewrite Hn, Hn', <-Hsuf in *. rewrite Hcont in Hs. injection Hs as <-.
    by apply (shape_pristine d (j_suffix c) p q).
Qed.

(** The generation recovery settles on. *)
Definition settles (v : option GenerationId) (d : Disk) : Prop := ∃ st current, shape d st current v.

Lemma inspect_accepts d : (∃ inv, inspect d = Ok inv) ↔ ∃ v, settles v d.
Proof.
  split.
  - intros [inv [v Hs]%shape_of_inspect]. by exists v, (in_state inv), (in_current inv).
  - intros (v & st & c & Hs). exists (mk_inventory c st). by eapply inspect_of_shape.
Qed.


(** ** The inspection does not panic *)

Lemma str_bytes_head t c rest : (c < 128)%N → str_bytes t = c :: rest → ∃ t', t = c :: t' ∧ str_bytes t' = rest.
Proof.
  intros Hc. destruct t as [|d t]; [done|]. change (str_bytes (d :: t)) with (encode_utf8 d ++ str_bytes t).
  unfold encode_utf8. destruct (N.ltb_spec d 128); [intros [= -> <-]; by exists t|].
  repeat case_match; intros [= <- _]; exfalso; revert Hc;
    match goal with |- (?k + ?q < 128)%N → _ => generalize q; lia end.
Qed.

Lemma ascii_prefix p t : ascii p → str_bytes p `prefix_of` str_bytes t → p `prefix_of` t.
Proof.
  intros Hp. rewrite ascii_bytes by done. revert t. induction Hp as [|c p Hc _ IH]; intros t [rest Ht]; [apply prefix_nil|].
  apply str_bytes_head in Ht as (t' & -> & Ht'); [|done]. apply prefix_cons, IH. by exists rest.
Qed.

Lemma raising_panic {A} (r : result A GenError) : raising r ≠ Err Panic.
Proof. by destruct r. Qed.

Lemma rbind_panic {A B} (r : result A (failure GenError)) (k : A → result B (failure GenError)) :
  r ≠ Err Panic → (∀ a, r = Ok a → k a ≠ Err Panic) → rbind r k ≠ Err Panic.
Proof. destruct r as [a|e]; cbn; [by auto|]. intros Hr _ [= ->]. by apply Hr. Qed.

Lemma inspect_journal_panic k content e :
  str_bytes (kind_prefix k) `prefix_of` e.1 → inspect_journal (kind_text k) content e ≠ Err Panic.
Proof.
  intros Hp. unfold inspect_journal. apply rbind_panic; [apply raising_panic|].
  intros t Ht%raising_Ok%gen_text_Ok. unfold utf8_text in Ht. destruct (from_utf8 e.1) as [t'|] eqn:Hu; [|done]. injection Ht as ->.
  apply from_utf8_Some in Hu as [_ Hu]. rewrite <-Hu in Hp. apply ascii_prefix in Hp as [id Hid]; [|apply kind_prefix_text].
  apply rbind_panic.
  { subst t. by rewrite (proj2 (strip_prefix_Some _ (kind_prefix k ++ id) id)). }
  intros x _. apply rbind_panic; [apply raising_panic|]. intros g _. apply rbind_panic; [apply raising_panic|].
  intros [b|] _; [|done]. apply rbind_panic; [apply raising_panic|done].
Qed.

Lemma inspect_journals_panic k content es :
  Forall (λ e, str_bytes (kind_prefix k) `prefix_of` e.1) es → inspect_journals (kind_text k) content es ≠ Err Panic.
Proof.
  induction 1 as [|e es He _ IH]; [done|]. cbn [inspect_journals]. apply rbind_panic; [by apply inspect_journal_panic|].
  intros j _. apply rbind_panic; [done|done].
Qed.

Lemma journals_prefix k d : Forall (λ e, str_bytes (kind_prefix k) `prefix_of` e.1) (map_to_list (journals k d)).
Proof.
  apply Forall_forall. intros [n e] Hin%elem_of_map_to_list. by apply map_lookup_filter_Some in Hin as [_ ?].
Qed.

Lemma inspect_never_panics d : inspect d ≠ Err Panic.
Proof.
  unfold inspect_pointer_journals.
  change (reserved_entries (lit ".current-") d) with (map_to_list (journals KCurrent d)).
  change (reserved_entries (lit ".absent-") d) with (map_to_list (journals KAbsent d)).
  change (reserved_entries (lit ".committed-") d) with (map_to_list (journals KCommitted d)).
  apply rbind_panic; [apply (inspect_journals_panic KCurrent), journals_prefix|]. intros currents Hc.
  apply rbind_panic; [apply (inspect_journals_panic KAbsent), journals_prefix|]. intros absents _.
  apply rbind_panic; [apply (inspect_journals_panic KCommitted), journals_prefix|]. intros committeds _.
  apply rbind_panic; [apply raising_panic|]. intros current _. apply rbind_panic; [apply raising_panic|]. intros _ _.
  apply rbind_panic; [|done]. apply (inspect_journals_inv KCurrent) in Hc. unfold classify.
  destruct currents as [|c [|]], absents as [|a [|]], committeds as [|m [|]]; try done.
  - destruct (_ && _); [|done]. apply rbind_panic; [apply raising_panic|]. intros _ _. by apply rbind_panic; [apply raising_panic|].
  - case_decide; [|done]. by apply rbind_panic; [apply raising_panic|].
  - destruct Hc as (p & b & _ & _ & (g & -> & _)%current_content_Ok & _).
    destruct (bool_decide (current = _)), (bool_decide (g = _)); try done; by apply rbind_panic; [apply raising_panic|].
  - destruct (_ && _); [|done]. by apply rbind_panic; [apply raising_panic|].
Qed.
End journals.
