(* ===== verification/GenSteps.v ===== *)
(** * The generation store: reasoning about its system calls

    [leaves]: what a method leaves on the disk, whatever it ends in, and what holds of
    every state of the disk on the way.  Then the trees it writes and removes. *)

From Stdlib Require Import ZArith Lia.
From stdpp Require Import prelude list gmap sorting.
From S2P Require Import Prelude Authority Hoare Utf8 Ipc Text GenRecords GenFormats GenStore GenJournals.

#[local] Arguments lit : simpl never.

(** Every state since is one of [I]. *)
Definition grew (I : Disk → Prop) (s s' : Fs) : Prop := ∃ new, trail s' = trail s ++ new ∧ Forall I new.

Lemma grew_refl I s : grew I s s.
Proof. exists []. by rewrite app_nil_r. Qed.

Lemma grew_same I s s' : trail s' = trail s → grew I s s'.
Proof. intros E. exists []. by rewrite app_nil_r. Qed.

Lemma grew_trans I s1 s2 s3 : grew I s1 s2 → grew I s2 s3 → grew I s1 s3.
Proof.
  intros (n1 & E1 & H1) (n2 & E2 & H2). exists (n1 ++ n2). rewrite E2, E1, <-app_assoc. split; [done|by apply Forall_app].
Qed.

Lemma grew_mono (I J : Disk → Prop) s s' : (∀ d, I d → J d) → grew I s s' → grew J s s'.
Proof. intros HI (n & E & H). exists n. split; [done|]. by eapply Forall_impl. Qed.

Definition leaves {A} (I : Disk → Prop) (m : gen_m A) (Q : A → Disk → Prop) (R : Disk → Prop) (s : Fs) : Prop :=
  wp m (λ a s', grew I s s' ∧ Q a (disk s')) (λ _ s', grew I s s' ∧ R (disk s')) s.

Section rules.
Context (I : Disk → Prop).
Implicit Types R : Disk → Prop.

Lemma leaves_mono {A} (m : gen_m A) (Q Q' : A → Disk → Prop) R R' s :
  leaves I m Q R s → (∀ a d, Q a d → Q' a d) → (∀ d, R d → R' d) → leaves I m Q' R' s.
Proof. intros Hm HQ HR. eapply wp_mono; [exact Hm|..]; naive_solver. Qed.

Lemma leaves_inv {A} (J : Disk → Prop) (m : gen_m A) (Q : A → Disk → Prop) R s :
  leaves J m Q R s → (∀ d, J d → I d) → leaves I m Q R s.
Proof. intros Hm HJ. eapply wp_mono; [exact Hm|..]; cbn; intros ? s' [Hg ?]; (split; [by eapply grew_mono|done]). Qed.

Lemma leaves_ret {A} (a : A) (Q : A → Disk → Prop) R s : Q a (disk s) → leaves I (mret a) Q R s.
Proof. intros HQ. apply wp_ret. split; [apply grew_refl|done]. Qed.

Lemma leaves_raise {A} e (Q : A → Disk → Prop) R s : R (disk s) → leaves I (raise e) Q R s.
Proof. intros HR. apply wp_raise. split; [apply grew_refl|done]. Qed.

Lemma leaves_bind {A B} (m : gen_m A) (k : A → gen_m B) (Q : A → Disk → Prop) (Q' : B → Disk → Prop) R s :
  leaves I m Q R s → (∀ a s', Q a (disk s') → leaves I (k a) Q' R s') → leaves I (a ← m; k a) Q' R s.
Proof.
  intros Hm Hk. apply wp_bind. eapply wp_mono; [exact Hm| |done]. intros a s' [Hg HQ].
  eapply wp_mono; [by apply Hk| |]; cbn; intros ? s'' [Hg' ?]; (split; [by eapply grew_trans|done]).
Qed.

Lemma leaves_getS {A} (k : Fs → gen_m A) (Q : A → Disk → Prop) R s : leaves I (k s) Q R s → leaves I (s ← getS; k s) Q R s.
Proof. done. Qed.

Lemma leaves_syscall (Q : unit → Disk → Prop) R s : Q tt (disk s) → R (disk s) → leaves I syscall Q R s.
Proof.
  intros HQ HR. unfold leaves, wp, syscall, next_fault, mbind, stm_bind.
  destruct (faults s) as [|[f|] fs] eqn:E; cbn; (split; [by apply grew_same|done]).
Qed.

Lemma leaves_put d (Q : unit → Disk → Prop) R s : I d → Q tt d → leaves I (put_disk d) Q R s.
Proof. intros HI HQ. split; [|done]. exists [d]. cbn. split; [done|by constructor]. Qed.

Lemma leaves_change (f : Disk → result Disk GenError) (Q : unit → Disk → Prop) R s :
  R (disk s) → (∀ d, f (disk s) = Ok d → I d ∧ Q tt d) → leaves I (change f) Q R s.
Proof.
  intros HR Hf. unfold change. eapply (leaves_bind _ _ (λ _ d, d = disk s)); [by apply leaves_syscall|].
  intros _ s' Hs'. apply wp_getS. rewrite Hs'.
  destruct (f (disk s)) as [d|e] eqn:E; cbn.
  - destruct (Hf d eq_refl). apply wp_bind. by apply leaves_put.
  - split; [apply grew_refl|]. by rewrite Hs'.
Qed.

Lemma leaves_reading {A} (f : Disk → result A (failure GenError)) (Q : A → Disk → Prop) R s :
  R (disk s) → f (disk s) ≠ Err Panic → (∀ a, f (disk s) = Ok a → Q a (disk s)) → leaves I (reading f) Q R s.
Proof.
  intros HR Hp Hf. unfold reading. eapply (leaves_bind _ _ (λ _ d, d = disk s)); [by apply leaves_syscall|].
  intros _ s' Hs'. apply wp_getS. unfold of_failure, wp. rewrite Hs'.
  destruct (f (disk s)) as [a|[e|]]; [|by split; [apply grew_refl|]|done].
  split; [apply grew_refl|]. by apply Hf.
Qed.

Lemma leaves_reads {A} (f : Disk → result A GenError) (Q : A → Disk → Prop) R s :
  R (disk s) → (∀ a, f (disk s) = Ok a → Q a (disk s)) → leaves I (reads f) Q R s.
Proof.
  intros HR Hf. apply leaves_reading; [done|apply raising_panic|]. intros a Ha%raising_Ok. by apply Hf.
Qed.

Lemma leaves_of_result {A} (r : result A GenError) (Q : A → Disk → Prop) R s :
  R (disk s) → (∀ a, r = Ok a → Q a (disk s)) → leaves I (of_result r) Q R s.
Proof. intros HR Hr. destruct r as [a|e]; [apply leaves_ret, Hr; done|by apply leaves_raise]. Qed.

Lemma leaves_attempt {A} (m : gen_m A) (Q : result A GenError → Disk → Prop) R s :
  leaves I m (λ a, Q (Ok a)) (λ d, ∀ e, Q (Err e) d) s → leaves I (attempt (F := GenError) m) Q R s.
Proof.
  intros Hm. apply wp_attempt. eapply wp_mono; [exact Hm|done|]. intros e s' [? HQ]. split; [done|apply HQ].
Qed.

Lemma leaves_write_through (put : list N → Disk → result Disk GenError) bytes (Q : unit → Disk → Prop) R s :
  R (disk s) → (∀ k d, put (take k bytes) (disk s) = Ok d → I d ∧ R d) → (∀ d, put bytes (disk s) = Ok d → I d ∧ Q tt d) →
  leaves I (write_through put bytes) Q R s.
Proof.
  intros HR Hpart Hfull. unfold write_through.
  eapply (leaves_bind _ _ (λ _ d, d = disk s)).
  { unfold leaves, wp, next_fault. destruct (faults s); (split; [by apply grew_same|done]). }
  intros f s' Hs'. apply wp_getS. rewrite Hs'.
  destruct f as [f|].
  - destruct (put (take (written f) bytes) (disk s)) as [d|e] eqn:E; cbn.
    + destruct (Hpart _ d E). apply wp_bind. apply (leaves_bind _ _ (λ _ d', d' = d)); [by apply leaves_put|].
      intros _ s'' E'. apply leaves_raise. by rewrite E'.
    + split; [apply grew_refl|]. by rewrite Hs'.
  - destruct (put bytes (disk s)) as [d|e] eqn:E; cbn.
    + destruct (Hfull d eq_refl). apply wp_bind. by apply leaves_put.
    + split; [apply grew_refl|]. by rewrite Hs'.
Qed.
End rules.

(** ** Work on one tree *)

(** Nothing but the entry [n] of the generations is changed. *)
Definition aside (n : list N) (d0 d : Disk) : Prop :=
  d_root d = d_root d0 ∧ d_leases d = d_leases d0 ∧ ∀ m, m ≠ n → d_generations d !! m = d_generations d0 !! m.

Lemma aside_refl n d : aside n d d.
Proof. done. Qed.

Lemma aside_insert n d0 d e : aside n d0 d → aside n d0 (d <| d_generations := <[n := e]> (d_generations d) |>).
Proof. intros (? & ? & Hm). split_and!; [done..|]. intros m Hne. cbn. rewrite lookup_insert_ne by done. by apply Hm. Qed.

Lemma aside_delete n d0 d : aside n d0 d → aside n d0 (d <| d_generations := delete n (d_generations d) |>).
Proof. intros (? & ? & Hm). split_and!; [done..|]. intros m Hne. cbn. rewrite lookup_delete_ne by done. by apply Hm. Qed.

Definition has_tree (n : list N) (d0 : Disk) (t : tree) (d : Disk) : Prop :=
  aside n d0 d ∧ d_generations d !! n = Some (Tree t).

Section trees.
Context (n : list N) (d0 : Disk).
Abbreviation I := (aside n d0).

Lemma on_tree_ok f t s (Q : unit → Disk → Prop) :
  has_tree n d0 t (disk s) → (∀ t' d, f t = Ok t' → has_tree n d0 t' d → Q tt d) → leaves I (on_tree n f) Q I s.
Proof.
  intros [Ha Ht] HQ. apply leaves_change; [done|]. intros d Hd. rewrite Ht in Hd. cbn [rbind] in Hd.
  apply rbind_Ok in Hd as (dir & Hd & [= <-]). apply rbind_Ok in Hd as (t' & Hf & [= <-]).
  split; [by apply aside_insert|]. apply (HQ t'); [done|]. split; [by apply aside_insert|]. cbn. by rewrite lookup_insert_eq.
Qed.

Lemma make_directory_ok p t s :
  has_tree n d0 t (disk s) →
  leaves I (make_directory n p) (λ _ d, ∃ t', has_tree n d0 t' d
    ∧ (t' = t ∨ t !! p = None ∧ t' = <[p := NodeDirectory]> t)) I s.
Proof.
  intros Ht. unfold make_directory.
  apply (leaves_bind _ _ _ (λ present d, has_tree n d0 t d ∧ present = bool_decide (is_Some (t !! p)))).
  { apply leaves_reads; [apply Ht|]. intros b [= <-]. split; [done|]. by rewrite (proj2 Ht). }
  intros b s1 [Ht1 ->]. case_bool_decide as Hp.
  - apply leaves_ret. exists t. split; [done|by left].
  - apply (leaves_bind _ _ _ (λ _ d, has_tree n d0 (<[p := NodeDirectory]> t) d)).
    { apply (on_tree_ok _ t); [done|]. by intros t' d [= <-] ?. }
    intros _ s2 Ht2. apply leaves_syscall; [|apply Ht2]. eexists. split; [done|right]. split; [|done].
    destruct (t !! p) eqn:E; [|done]. destruct Hp. by exists t0.
Qed.

Lemma open_directory_ok p t s :
  has_tree n d0 t (disk s) →
  leaves I (open_directory n p) (λ _ d, has_tree n d0 t d ∧ t !! p = Some NodeDirectory) I s.
Proof.
  intros Ht. apply leaves_reads; [apply Ht|]. intros u. rewrite (proj2 Ht). intros Hu. split; [done|].
  by destruct (t !! p) as [[]|].
Qed.

Lemma write_tree_file_ok p bytes t s :
  has_tree n d0 t (disk s) →
  leaves I (write_tree_file n p bytes) (λ _ d, has_tree n d0 (<[p := NodeFile bytes]> t) d ∧ t !! p = None) I s.
Proof.
  intros Ht. unfold write_tree_file.
  apply (leaves_bind _ _ _ (λ _ d, has_tree n d0 (<[p := NodeFile []]> t) d ∧ t !! p = None)).
  { apply (on_tree_ok _ t); [done|]. intros t' d Hf Hd. by destruct (t !! p); [|injection Hf as <-]. }
  intros _ s1 [Ht1 Hp]. apply (leaves_bind _ _ _ (λ _ d, has_tree n d0 (<[p := NodeFile bytes]> t) d)).
  - apply leaves_write_through; [apply Ht1|..].
    + intros k d. rewrite (proj2 Ht1). intros [= <-]. split; apply aside_insert, Ht1.
    + intros d. rewrite (proj2 Ht1). intros [= <-]. split; [apply aside_insert, Ht1|]. split; [apply aside_insert, Ht1|].
      cbn. by rewrite lookup_insert_eq, insert_insert_eq.
  - intros _ s2 Ht2. apply leaves_syscall; [done|apply Ht2].
Qed.

(** The directories above a path are there; nothing else is new. *)
Definition grown (p : list (list N)) (t t' : tree) : Prop :=
  (∀ k x, t !! k = Some x → t' !! k = Some x)
  ∧ ∀ k x, t' !! k = Some x → t !! k = Some x ∨ x = NodeDirectory ∧ ∃ i, k = take i p ∧ 0 < i < length p.

Lemma grown_refl p t : grown p t t.
Proof. split; [done|]. by left. Qed.

Lemma grown_trans p t1 t2 t3 : grown p t1 t2 → grown p t2 t3 → grown p t1 t3.
Proof.
  intros [Ha1 Hb1] [Ha2 Hb2]. split; [naive_solver|]. intros k x Hk. apply Hb2 in Hk as [Hk|Hk]; [by apply Hb1|by right].
Qed.

Lemma make_parents_ok above rest t s :
  has_tree n d0 t (disk s) →
  leaves I (make_parents n above rest) (λ _ d, ∃ t', has_tree n d0 t' d ∧ grown (above ++ rest) t t'
    ∧ ∀ i, length above < i < length (above ++ rest) → t' !! take i (above ++ rest) = Some NodeDirectory) I s.
Proof.
  revert above t s. induction rest as [|c rest IH]; intros above t s Ht; cbn [make_parents].
  { apply leaves_ret. exists t. split; [done|]. split; [apply grown_refl|]. intros i Hi. rewrite app_nil_r in Hi. lia. }
  destruct rest as [|c' rest].
  { apply leaves_ret. exists t. split; [done|]. split; [apply grown_refl|]. intros i Hi. rewrite length_app in Hi. cbn in Hi. lia. }
  apply (leaves_bind _ _ _ (λ _ d, ∃ t', has_tree n d0 t' d ∧ (t' = t ∨ t !! (above ++ [c]) = None ∧ t' = <[above ++ [c] := NodeDirectory]> t))).
  { by apply make_directory_ok. }
  intros _ s1 (t1 & Ht1 & Hc). apply (leaves_bind _ _ _ (λ _ d, has_tree n d0 t1 d ∧ t1 !! (above ++ [c]) = Some NodeDirectory)).
  { by apply open_directory_ok. }
  intros _ s2 [Ht2 Hdir].
  assert (grown (above ++ c :: c' :: rest) t t1) as Hg1.
  { destruct Hc as [->|[Hn ->]]; [apply grown_refl|]. split.
    - intros k x Hk. rewrite lookup_insert_ne; [done|]. by intros <-; rewrite Hn in Hk.
    - intros k x [[<- <-]|[_ Hk]]%lookup_insert_Some; [|by left]. right. split; [done|].
      exists (S (length above)). rewrite length_app. cbn. split; [|lia].
      rewrite take_app_ge by lia. by replace (S (length above) - length above) with 1 by lia. }
  eapply leaves_mono; [apply (IH (above ++ [c]) t1 s2 Ht2)| |done].
  intros [] d (t' & Ht' & Hg' & Hd'). rewrite <-app_assoc in *. cbn [app] in *. exists t'. split; [done|].
  split; [by eapply grown_trans|]. intros i Hi. destruct (decide (i = S (length above))) as [->|Hne].
  - rewrite take_app_ge by lia. replace (S (length above) - length above) with 1 by lia. cbn [take].
    destruct Hg' as [Hmono _]. by apply Hmono.
  - apply Hd'. rewrite length_app. cbn. lia.
Qed.

(** A tree that holds just these files, and the directories above them. *)
Record holds_files (files : list (rstring * list N)) (t : tree) : Prop := {
  hf_files : ∀ p b, (p, b) ∈ files → t !! names p = Some (NodeFile b);
  hf_parents : ∀ p b i, (p, b) ∈ files → 0 < i < length (names p) → t !! take i (names p) = Some NodeDirectory;
  hf_only : ∀ k x, t !! k = Some x →
    (∃ p b, (p, b) ∈ files ∧ k = names p ∧ x = NodeFile b)
    ∨ (x = NodeDirectory ∧ ∃ p b i, (p, b) ∈ files ∧ k = take i (names p) ∧ 0 < i < length (names p))
}.

Lemma holds_files_nil : holds_files [] ∅.
Proof. split; [set_solver|set_solver|]. intros k x Hk. by rewrite lookup_empty in Hk. Qed.

Lemma holds_files_snoc files p b t t' :
  holds_files files t → grown (names p) t t' →
  (∀ i, 0 < i < length (names p) → t' !! take i (names p) = Some NodeDirectory) → t' !! names p = None →
  holds_files (files ++ [(p, b)]) (<[names p := NodeFile b]> t').
Proof.
  intros [Hf Hp Ho] [Hmono Hnew] Hdirs Hfree.
  assert (∀ k x, t' !! k = Some x → (<[names p := NodeFile b]> t' : tree) !! k = Some x) as Hup.
  { intros k x Hk. rewrite lookup_insert_ne; [done|]. intros <-. by rewrite Hfree in Hk. }
  split.
  - intros q c [Hin|Hin%list_elem_of_singleton]%elem_of_app; [by apply Hup, Hmono, Hf|].
    injection Hin as -> ->. by rewrite lookup_insert_eq.
  - intros q c i [Hin|Hin%list_elem_of_singleton]%elem_of_app Hi; [by eapply Hup, Hmono, Hp|].
    injection Hin as -> ->. by apply Hup, Hdirs.
  - intros k x [[<- <-]|[_ Hk]]%lookup_insert_Some.
    + left. exists p, b. set_solver.
    + apply Hnew in Hk as [Hk|[-> (i & -> & Hi)]].
      * apply Ho in Hk as [(q & c & Hin & ? & ?)|[-> (q & c & i & Hin & ? & ?)]].
        -- left. exists q, c. set_solver.
        -- right. split; [done|]. exists q, c, i. set_solver.
      * right. split; [done|]. exists p, b, i. set_solver.
Qed.

Lemma write_output_ok p b files t s :
  has_tree n d0 t (disk s) → holds_files files t →
  leaves I (write_output n p b) (λ _ d, ∃ t', has_tree n d0 t' d ∧ holds_files (files ++ [(p, b)]) t') I s.
Proof.
  intros Ht Hf. unfold write_output.
  eapply leaves_bind; [apply (make_parents_ok [] (names p) t s Ht)|]. intros _ s1 (t1 & Ht1 & Hg & Hd). cbn [app length] in Hg, Hd.
  eapply leaves_bind; [by apply (write_tree_file_ok _ _ t1)|]. intros _ s2 [Ht2 Hfree].
  apply leaves_syscall; [|apply Ht2]. eexists. split; [done|]. by eapply holds_files_snoc.
Qed.

Lemma write_outputs_ok os files t s :
  has_tree n d0 t (disk s) → holds_files files t →
  leaves I (write_outputs n os) (λ _ d, ∃ t', has_tree n d0 t' d ∧ holds_files (files ++ os) t') I s.
Proof.
  revert files t s. induction os as [|[p b] os IH]; intros files t s Ht Hf; cbn [write_outputs].
  { apply leaves_ret. exists t. by rewrite app_nil_r. }
  eapply leaves_bind; [by apply (write_output_ok p b files t)|]. intros _ s1 (t1 & Ht1 & Hf1).
  eapply leaves_mono; [by apply (IH (files ++ [(p, b)]) t1)| |done]. intros [] d (t' & ? & Hf'). exists t'.
  by rewrite <-app_assoc in Hf'.
Qed.

(** One component: the names of the store's own files. *)
Lemma write_top_file_ok p b files t s :
  names p = [str_bytes p] → has_tree n d0 t (disk s) → holds_files files t →
  leaves I (write_tree_file n [str_bytes p] b) (λ _ d, ∃ t', has_tree n d0 t' d ∧ holds_files (files ++ [(p, b)]) t') I s.
Proof.
  intros Hp Ht Hf. eapply leaves_mono; [by apply (write_tree_file_ok _ _ t)| |done]. intros [] d [Ht' Hfree]. eexists. split; [done|].
  rewrite <-Hp in *. eapply holds_files_snoc; [done|apply grown_refl| |done]. rewrite Hp. cbn. lia.
Qed.

Variable digest_hex : list N → rstring.

(** The files of a generation. *)
Definition generation_files (p : GenerationPublication) (g : GenerationId) : list (rstring * list N) :=
  let receipt := receipt p g in
  let manifest := manifest digest_hex p g receipt in
  outputs p ++ [(lit "receipt", str_bytes receipt); (lit "manifest", str_bytes manifest);
    (lit "seal", str_bytes (digest_hex (str_bytes manifest) ++ [10%N]))].

Lemma write_generation_ok p g s :
  aside n d0 (disk s) →
  leaves I (write_generation digest_hex p g n)
    (λ _ d, ∃ t, has_tree n d0 t d ∧ holds_files (generation_files p g) t ∧ d_generations (disk s) !! n = None) I s.
Proof.
  intros Ha. unfold write_generation. cbv zeta.
  apply (leaves_bind _ _ _ (λ _ d, has_tree n d0 ∅ d ∧ d_generations (disk s) !! n = None)).
  { apply leaves_change; [done|]. intros d Hd. unfold dir_create in Hd. destruct (d_generations (disk s) !! n) eqn:E; [done|].
    injection Hd as <-. split; [by apply aside_insert|]. split; [|done]. split; [by apply aside_insert|].
    cbn. by rewrite lookup_insert_eq. }
  intros _ s1 [Ht1 Hn]. eapply leaves_bind; [apply (leaves_syscall _ (λ _ d, has_tree n d0 ∅ d)); [done|apply Ht1]|].
  intros [] s2 Ht2. eapply leaves_bind; [apply (write_outputs_ok (outputs p) [] ∅); [done|apply holds_files_nil]|].
  intros _ s3 (t3 & Ht3 & Hf3). eapply leaves_bind; [by apply (write_top_file_ok (lit "receipt") _ (outputs p) t3)|].
  intros _ s4 (t4 & Ht4 & Hf4). eapply leaves_bind; [by eapply (write_top_file_ok (lit "manifest") _ _ t4)|].
  intros _ s5 (t5 & Ht5 & Hf5). eapply leaves_bind; [by eapply (write_top_file_ok (lit "seal") _ _ t5)|].
  intros _ s6 (t6 & Ht6 & Hf6). apply leaves_syscall; [|apply Ht6]. exists t6. split; [done|]. split; [|done].
  unfold generation_files. by rewrite <-!app_assoc in Hf6.
Qed.
End trees.
