(* ===== verification/GenTrees.v ===== *)
(** * The generation store: what is published can be read back

    The tree a publication writes passes every check that selection, recovery and
    garbage collection make of a generation. *)

From Stdlib Require Import ZArith Lia.
From stdpp Require Import prelude list gmap sorting.
From S2P Require Import Prelude Authority Hoare Utf8 Ipc Text GenRecords GenFormats GenStore GenJournals GenSteps.

#[local] Arguments lit : simpl never.

(** ** Publications *)

Record publication_wf (p : GenerationPublication) : Prop := {
  pw_digests : length (input_digests p) = length digest_fields ∧ Forall (λ d, sha256_digest d = true) (input_digests p);
  pw_outputs : outputs p ≠ [];
  pw_sorted : sorted_map (outputs p);
  pw_safe : Forall (λ o, safe_output_path o.1 = true) (outputs p)
}.

Lemma insert_output_Permutation o os : insert_output o os ≡ₚ o :: os.
Proof. induction os as [|o' os IH]; cbn; [done|]. destruct (str_ltb _ _); [|done]. rewrite IH. apply Permutation_swap. Qed.

Lemma sort_outputs_Permutation os : sort_outputs os ≡ₚ os.
Proof. induction os as [|o os IH]; cbn; [done|]. by rewrite insert_output_Permutation, IH. Qed.

(** Sorted, for paths that may repeat. *)
Definition path_le (a b : rstring * list N) : Prop := str_ltb b.1 a.1 = false.

Lemma path_le_trans a b c : path_le a b → path_le b c → path_le a c.
Proof.
  unfold path_le. intros Hab Hbc. destruct (str_ltb c.1 a.1) eqn:E; [|done]. exfalso.
  destruct (str_ltb a.1 b.1) eqn:E'.
  - by rewrite (str_ltb_trans _ _ _ E E') in Hbc.
  - rewrite (str_ltb_total _ _ E' Hab) in E. by rewrite E in Hbc.
Qed.

Lemma insert_output_sorted o os : StronglySorted path_le os → StronglySorted path_le (insert_output o os).
Proof.
  induction os as [|o' os IH]; cbn; intros Hs; [by repeat constructor|].
  pose proof Hs as Hs0. apply StronglySorted_inv in Hs as [Hs Ha]. destruct (str_ltb o'.1 o.1) eqn:E.
  - constructor; [by apply IH|]. rewrite insert_output_Permutation. constructor; [|done]. unfold path_le.
    destruct (str_ltb o.1 o'.1) eqn:E'; [|done]. by rewrite <-(str_ltb_irrefl o.1), (str_ltb_trans _ _ _ E' E).
  - constructor; [done|]. constructor; [done|]. eapply Forall_impl; [exact Ha|]. intros a Hoa. by apply (path_le_trans o o' a).
Qed.

Lemma sort_outputs_sorted os : StronglySorted path_le (sort_outputs os).
Proof. induction os as [|o os IH]; cbn; [constructor|]. by apply insert_output_sorted. Qed.

Lemma sorted_distinct os : StronglySorted path_le os → NoDup (fst <$> os) → sorted_map os.
Proof.
  unfold sorted_map. induction 1 as [|o os Hs IH Ha]; intros Hd; [constructor|]. cbn in Hd. apply NoDup_cons in Hd as [Hn Hd].
  constructor; [by apply IH|]. apply Forall_forall. intros a Hin. rewrite Forall_forall in Ha. pose proof (Ha a Hin) as Hle.
  unfold key_lt, path_le in *. destruct (str_ltb o.1 a.1) eqn:E; [done|]. destruct Hn.
  rewrite (str_ltb_total _ _ E Hle). by apply list_elem_of_fmap_2.
Qed.

Lemma check_outputs_safe all os u : check_outputs all os = Ok u → Forall (λ o, safe_output_path o.1 = true) os.
Proof.
  induction os as [|[path b] os IH]; cbn; [constructor|]. rewrite ensure_Ok. intros [Hp Hr].
  apply ensure_Ok in Hr as [_ Hr]. constructor; [done|by apply IH].
Qed.

Lemma GenerationPublication_new_wf digests os p :
  length digests = length digest_fields → GenerationPublication_new digests os = Ok p → publication_wf p.
Proof.
  unfold GenerationPublication_new. intros Hl. cbv zeta. rewrite ensure_Ok. intros [Hd Hr].
  apply ensure_Ok in Hr as [Hne Hr]. apply ensure_Ok in Hr as [Hnd Hr]. apply rbind_Ok in Hr as (u & Hc & [= <-]).
  rewrite bool_decide_eq_true in Hne, Hnd. split; cbn.
  - split; [done|]. apply Is_true_true_2, forallb_True in Hd. eapply Forall_impl; [exact Hd|]. intros d. apply Is_true_true.
  - done.
  - apply sorted_distinct; [apply sort_outputs_sorted|done].
  - by eapply check_outputs_safe.
Qed.

(** ** Paths *)

Lemma components_text p : ascii p → Forall is_text (components p).
Proof.
  intros Hp. apply Forall_forall. intros w Hw. apply ascii_text. apply Forall_forall. intros c Hc.
  unfold ascii in Hp. rewrite Forall_forall in Hp. apply Hp. unfold components in Hw.
  rewrite <-(join_split_by 47 p). revert Hw Hc. generalize (split_by (λ c0, c0 =? 47)%N p). intros ws Hw Hc.
  induction ws as [|w' ws IH]; [set_solver|]. destruct ws as [|w'' ws].
  - apply list_elem_of_singleton in Hw as ->. done.
  - change (c ∈ w' ++ 47%N :: join 47 (w'' :: ws)). apply elem_of_app. apply elem_of_cons in Hw as [->|Hw]; [by left|].
    right. right. by apply IH.
Qed.

Lemma texts_names cs : Forall is_text cs → texts (str_bytes <$> cs) = Some cs.
Proof. induction 1 as [|c cs Hc _ IH]; [done|]. cbn. rewrite from_utf8_str_bytes by done. cbn. by rewrite IH. Qed.

(** A path is the join of any of its prefixes with the rest, and prefixes join to the
    paths above it. *)
Lemma names_join cs : cs ≠ [] → Forall (free (λ c, c =? 47)%N) cs → names (join 47 cs) = str_bytes <$> cs.
Proof. intros Hne Hcs. unfold names, components. by rewrite split_by_join. Qed.

Lemma components_free p : Forall (free (λ c, c =? 47)%N) (components p).
Proof. apply split_by_pieces. Qed.

Section validation.
Variable digest_hex : list N → rstring.
Hypothesis digests_are_hex : ∀ b, sha256_digest (digest_hex b) = true.

Lemma open_parent_ok (t : tree) above rest :
  (∀ i, length above < i < length (above ++ rest) → t !! take i (above ++ rest) = Some NodeDirectory) →
  open_parent t above rest = Ok tt.
Proof.
  revert above. induction rest as [|c rest IH]; intros above Hd; [done|]. destruct rest as [|c' rest]; [done|].
  cbn [open_parent]. pose proof (Hd (S (length above))) as H1. rewrite take_app_ge in H1 by lia.
  replace (S (length above) - length above) with 1 in H1 by lia. cbn [take] in H1. rewrite H1.
  - apply IH. rewrite <-app_assoc. cbn [app]. intros i Hi. apply Hd. rewrite !length_app in *. cbn in *. lia.
  - rewrite length_app. cbn. lia.
Qed.

Lemma read_held_file files t p b : holds_files files t → (p, b) ∈ files → read_tree_file t p = Ok b.
Proof.
  intros [Hf Hp _] Hin. unfold read_tree_file. rewrite (open_parent_ok t [] (names p)).
  - cbn. by rewrite (Hf p b Hin).
  - cbn. intros i Hi. by eapply Hp.
Qed.

Lemma held_entries_valid files t listed :
  holds_files files t → Forall (λ f, ascii f.1) files →
  (∀ p b, (p, b) ∈ files → p ∈ listed) → (∀ p, p ∈ listed → ∃ b, (p, b) ∈ files) →
  validate_directory_entries listed (files ≫= (λ f, parent_paths f.1)) (map_to_list t) = Ok tt.
Proof.
  intros [Hf Hpar Honly] Ha Hl Hl'.
  assert (∀ k x, (k, x) ∈ map_to_list t → t !! k = Some x) as Hin by (intros k x; apply elem_of_map_to_list).
  revert Hin. generalize (map_to_list t). intros l Hin. induction l as [|[k x] l IH]; [done|].
  cbn [validate_directory_entries].
  assert (t !! k = Some x) as Hk by (apply Hin; left).
  assert (∀ p b, (p, b) ∈ files → ascii p) as Hasc.
  { intros p b Hpb. rewrite Forall_forall in Ha. by apply (Ha (p, b)). }
  destruct (Honly k x Hk) as [(p & b & Hpb & -> & ->)|[-> (p & b & i & Hpb & -> & Hi)]].
  - unfold names at 1. rewrite texts_names by by eapply components_text, Hasc.
    unfold components at 1 2. rewrite !join_split_by. rewrite bool_decide_eq_true_2 by by eapply Hl. cbn.
    apply IH. intros; apply Hin; by right.
  - unfold names at 1. rewrite <-fmap_take, texts_names by by apply Forall_take; eapply components_text, Hasc.
    assert (take i (components p) ≠ []) as Hne.
    { unfold names in Hi. rewrite length_fmap in Hi. intros E%(f_equal length). rewrite length_take in E. change (length []) with 0 in E. lia. }
    assert (names (join 47 (take i (components p))) = take i (names p)) as Hnames.
    { rewrite names_join; [by rewrite fmap_take|done|apply Forall_take, components_free]. }
    rewrite bool_decide_eq_false_2.
    2:{ intros (b' & Hb')%Hl'. apply Hf in Hb'. rewrite Hnames in Hb'. by rewrite Hk in Hb'. }
    rewrite bool_decide_eq_true_2.
    2:{ apply list_elem_of_bind. exists (p, b). split; [|done]. unfold parent_paths. cbn. apply list_elem_of_fmap.
        exists i. split; [done|]. unfold names in Hi. rewrite length_fmap in Hi. unfold components in Hi. apply elem_of_seq. lia. }
    cbn. apply IH. intros; apply Hin; by right.
Qed.

(** The manifest a publication writes, as it is parsed. *)
Definition published_manifest (p : GenerationPublication) (g : GenerationId) : Manifest :=
  let text := manifest digest_hex p g (receipt p g) in
  mk_manifest ((λ o, (o.1, digest_hex o.2)) <$> outputs p) g (input_digests p) (digest_hex (str_bytes (receipt p g))) text.

Lemma published_manifest_wf p g :
  publication_wf p → lower_hex_32 g = true →
  manifest_wf g (input_digests p) (digest_hex (str_bytes (receipt p g))) ((λ o, (o.1, digest_hex o.2)) <$> outputs p).
Proof.
  intros [Hd Hne Hs Hsafe] Hg. split; [done|]. split; [done|]. split; [done|]. split_and!.
  - by destruct (outputs p).
  - unfold sorted_map in *. clear -Hs. induction Hs as [|o os _ IH Ha]; cbn; constructor; [done|].
    apply Forall_fmap. eapply Forall_impl; [exact Ha|done].
  - apply Forall_fmap. eapply Forall_impl; [exact Hsafe|]. intros o Ho. split; [done|]. apply digests_are_hex.
Qed.

Lemma published_manifest_parse p g :
  publication_wf p → lower_hex_32 g = true →
  Manifest_parse (manifest digest_hex p g (receipt p g)) = Ok (published_manifest p g).
Proof.
  intros Hp Hg. apply Manifest_parse_Ok. split; [done|]. cbn. split; [|by apply published_manifest_wf].
  apply manifest_unlines, Hp.
Qed.

Lemma manifest_text p g :
  publication_wf p → lower_hex_32 g = true → is_text (manifest digest_hex p g (receipt p g)).
Proof.
  intros Hp Hg. rewrite manifest_unlines by apply Hp. apply ascii_text, unlines_ascii, manifest_lines_graphic.
  by apply published_manifest_wf.
Qed.

(** What was published is valid. *)
Lemma published_tree_valid p g t :
  publication_wf p → lower_hex_32 g = true → holds_files (generation_files digest_hex p g) t →
  verify_opened_generation digest_hex t g = Ok (published_manifest p g).
Proof.
  intros Hp Hg Ht. pose proof (published_manifest_parse p g Hp Hg) as Hparse. pose proof (manifest_text p g Hp Hg) as Htext.
  assert (read_tree_file t (lit "manifest") = Ok (str_bytes (manifest digest_hex p g (receipt p g)))) as Hm.
  { eapply read_held_file; [exact Ht|]. unfold generation_files. set_solver. }
  assert (read_tree_file t (lit "receipt") = Ok (str_bytes (receipt p g))) as Hr.
  { eapply read_held_file; [exact Ht|]. unfold generation_files. set_solver. }
  assert (read_tree_file t (lit "seal") = Ok (str_bytes (digest_hex (str_bytes (manifest digest_hex p g (receipt p g))) ++ [10%N]))) as Hs.
  { eapply read_held_file; [exact Ht|]. unfold generation_files. set_solver. }
  unfold verify_opened_generation. rewrite Hm. cbn [rbind]. unfold utf8_text. rewrite from_utf8_str_bytes by done.
  cbn [gen_text map_err rbind]. rewrite Hparse. cbn [gen_text map_err rbind].
  assert (verify_opened digest_hex t g (published_manifest p g) = Ok tt) as ->; [|done].
  unfold verify_opened, verify_v1_metadata. cbn [mf_generation published_manifest].
  rewrite bool_decide_eq_true_2 by done. cbn [require rbind]. rewrite Hm. cbn [rbind].
  rewrite bool_decide_eq_true_2 by done. cbn [require rbind]. rewrite Hr. cbn [rbind].
  rewrite bool_decide_eq_true_2 by done. cbn [require rbind]. rewrite bool_decide_eq_true_2 by done. cbn [require rbind].
  rewrite Hs. cbn [rbind]. rewrite bool_decide_eq_true_2 by done. cbn [require rbind].
  rewrite rbind_unit_Ok. split.
  - unfold validate_v1_tree. cbn [entries published_manifest].
    assert (((λ o : rstring * list N, (o.1, digest_hex o.2)) <$> outputs p) ≫= (λ e, parent_paths e.1)
      = generation_files digest_hex p g ≫= (λ f, parent_paths f.1)) as ->.
    { unfold generation_files. rewrite bind_app. cbn [mbind list_bind fst].
      assert (parent_paths (lit "receipt") = []) as -> by done. assert (parent_paths (lit "manifest") = []) as -> by done.
      assert (parent_paths (lit "seal") = []) as -> by done. rewrite app_nil_r.
      generalize (outputs p). intros os. induction os as [|o os IH]; [done|]. cbn in IH |- *. by f_equal. }
    apply (held_entries_valid (generation_files digest_hex p g)); [exact Ht| | |].
    + unfold generation_files. apply Forall_app. split.
      * eapply Forall_impl; [apply (pw_safe p Hp)|]. intros o Ho. by apply safe_path_bytes in Ho as (_ & ? & _).
      * by repeat constructor.
    + unfold generation_files. intros q b [Hin|Hin]%elem_of_app.
      * apply elem_of_app. right. rewrite <-list_fmap_compose. apply list_elem_of_fmap. by exists (q, b).
      * apply elem_of_app. left. set_solver.
    + unfold generation_files. intros q [Hin|Hin]%elem_of_app.
      * rewrite !elem_of_cons in Hin. destruct Hin as [->|[->|[->|Hin]]]; [..|by apply elem_of_nil in Hin]; eexists; apply elem_of_app; right;
          [right; left|left|right; right; left].
      * rewrite <-list_fmap_compose in Hin. apply list_elem_of_fmap in Hin as ([q' b] & -> & Hin). exists b. set_solver.
  - cbn [entries published_manifest].
    assert (∀ o, o ∈ outputs p → read_tree_file t o.1 = Ok o.2) as Ho.
    { intros [q b] Hin. eapply read_held_file; [exact Ht|]. unfold generation_files. set_solver. }
    revert Ho. generalize (outputs p). intros os Ho. induction os as [|o os IH]; [done|]. cbn [fmap list_fmap verify_outputs].
    rewrite (Ho o) by by left. cbn [rbind]. rewrite bool_decide_eq_true_2 by done. cbn [require rbind]. apply IH. intros; apply Ho. by right.
Qed.
End validation.
