(* ===== verification/GenProtocol.v ===== *)
(** * The generation store: the pointer transaction

    How each call on the root directory moves the pointer and its journals, and what the
    transaction that commits a generation leaves, wherever it stops. *)

From Stdlib Require Import ZArith Lia.
From stdpp Require Import prelude list gmap sorting.
From S2P Require Import Prelude Authority Hoare Utf8 Ipc Text GenRecords GenFormats GenStore GenJournals GenSteps.

#[local] Arguments lit : simpl never.

(** ** The journals, as three maps *)

#[export] Instance Kind_eq_dec : EqDecision Kind.
Proof. solve_decision. Defined.

Abbreviation books := (gmap (list N) Entry * gmap (list N) Entry * gmap (list N) Entry)%type (only parsing).

Definition book (d : Disk) : books := (journals KCurrent d, journals KAbsent d, journals KCommitted d).

Definition on_book (k : Kind) (f : gmap (list N) Entry → gmap (list N) Entry) (b : books) : books :=
  match k with
  | KCurrent => (f b.1.1, b.1.2, b.2)
  | KAbsent => (b.1.1, f b.1.2, b.2)
  | KCommitted => (b.1.1, b.1.2, f b.2)
  end.

Definition journal (k : Kind) (g : GenerationId) : list N := str_bytes (journal_name k g).

(** A name that is neither the pointer's nor a journal's. *)
Definition plain_name (n : list N) : Prop := n ≠ pointer_name ∧ ∀ k, ¬ str_bytes (kind_prefix k) `prefix_of` n.

Lemma journal_prefix k k' g : str_bytes (kind_prefix k') `prefix_of` journal k g ↔ k' = k.
Proof.
  unfold journal, journal_name. rewrite str_bytes_app. split; [|by intros ->; apply prefix_app_r].
  intros Hp. destruct k, k'; try done; exfalso; revert Hp; cbn; intros Hp;
    repeat first [by apply prefix_cons_inv_1 in Hp|apply prefix_cons_inv_2 in Hp].
Qed.

Lemma pointer_no_prefix k : ¬ str_bytes (kind_prefix k) `prefix_of` pointer_name.
Proof. destruct k; intros Hp%prefix_cons_inv_1; done. Qed.

Lemma journal_not_pointer k g : journal k g ≠ pointer_name.
Proof. intros E. apply (pointer_no_prefix k). rewrite <-E. by apply journal_prefix. Qed.

Lemma journals_put k n e d d' :
  d_root d' = <[n := e]> (d_root d) →
  journals k d' = if decide (str_bytes (kind_prefix k) `prefix_of` n) then <[n := e]> (journals k d) else journals k d.
Proof.
  intros E. unfold journals. rewrite E. case_decide as Hp.
  - by apply map_filter_insert_True.
  - apply map_filter_insert_not. by intros.
Qed.

Lemma journals_del k n d d' : d_root d' = delete n (d_root d) → journals k d' = delete n (journals k d).
Proof. intros E. unfold journals. rewrite E. apply map_filter_delete. Qed.

Lemma journals_lookup k n d :
  str_bytes (kind_prefix k) `prefix_of` n → journals k d !! n = d_root d !! n.
Proof.
  intros Hp. unfold journals. destruct (d_root d !! n) as [e|] eqn:E.
  - by apply map_lookup_filter_Some.
  - apply map_lookup_filter_None. by left.
Qed.

Lemma journals_lookup_other k n d : ¬ str_bytes (kind_prefix k) `prefix_of` n → journals k d !! n = None.
Proof. intros Hp. apply map_lookup_filter_None. right. by intros. Qed.

Lemma book_put k g e d d' :
  d_root d' = <[journal k g := e]> (d_root d) → book d' = on_book k <[journal k g := e]> (book d) ∧ pointer d' = pointer d.
Proof.
  intros E. split.
  - unfold book. rewrite !(journals_put _ _ _ _ _ E).
    assert (∀ k', (if decide (str_bytes (kind_prefix k') `prefix_of` journal k g) then <[journal k g := e]> (journals k' d) else journals k' d)
      = if decide (k' = k) then <[journal k g := e]> (journals k' d) else journals k' d) as Hk.
    { intros k'. pose proof (journal_prefix k k' g). do 2 case_decide; naive_solver. }
    rewrite !Hk. by destruct k.
  - unfold pointer. rewrite E. apply lookup_insert_ne, journal_not_pointer.
Qed.

Lemma book_del k g d d' :
  d_root d' = delete (journal k g) (d_root d) → book d' = on_book k (delete (journal k g)) (book d) ∧ pointer d' = pointer d.
Proof.
  intros E. split.
  - unfold book. rewrite !(journals_del _ _ _ _ E).
    assert (∀ k', delete (journal k g) (journals k' d) = if decide (k' = k) then delete (journal k g) (journals k' d) else journals k' d) as Hk.
    { intros k'. case_decide as Hne; [done|]. apply delete_id, journals_lookup_other. by rewrite journal_prefix. }
    rewrite (Hk KCurrent), (Hk KAbsent), (Hk KCommitted). by destruct k.
  - unfold pointer. rewrite E. apply lookup_delete_ne, journal_not_pointer.
Qed.

Lemma book_put_pointer e d d' : d_root d' = <[pointer_name := e]> (d_root d) → book d' = book d ∧ pointer d' = Some e.
Proof.
  intros E. split.
  - unfold book. rewrite !(journals_put _ _ _ _ _ E). by rewrite !decide_False by apply pointer_no_prefix.
  - unfold pointer. by rewrite E, lookup_insert_eq.
Qed.

Lemma book_del_pointer d d' : d_root d' = delete pointer_name (d_root d) → book d' = book d ∧ pointer d' = None.
Proof.
  intros E. split.
  - unfold book. rewrite !(journals_del _ _ _ _ E).
    by rewrite !delete_id by apply journals_lookup_other, pointer_no_prefix.
  - unfold pointer. by rewrite E, lookup_delete_eq.
Qed.

Lemma book_put_plain n e d d' :
  plain_name n → d_root d' = <[n := e]> (d_root d) → book d' = book d ∧ pointer d' = pointer d.
Proof.
  intros [Hn Hp] E. split.
  - unfold book. rewrite !(journals_put _ _ _ _ _ E). by rewrite !decide_False by apply Hp.
  - unfold pointer. rewrite E. by apply lookup_insert_ne.
Qed.

Lemma book_del_plain n d d' :
  plain_name n → d_root d' = delete n (d_root d) → book d' = book d ∧ pointer d' = pointer d.
Proof.
  intros [Hn Hp] E. split.
  - unfold book. rewrite !(journals_del _ _ _ _ E). by rewrite !delete_id by apply journals_lookup_other, Hp.
  - unfold pointer. rewrite E. by apply lookup_delete_ne.
Qed.

Lemma book_journals d c a m : book d = (c, a, m) ↔ journals_are d c a m.
Proof. unfold book, journals_are. naive_solver. Qed.

Lemma book_lookup k g d c a m :
  book d = (c, a, m) → d_root d !! journal k g = match k with KCurrent => c | KAbsent => a | KCommitted => m end !! journal k g.
Proof.
  intros [Ec [Ea Em]]%book_journals. rewrite <-(journals_lookup k) by by apply journal_prefix. by destruct k; subst.
Qed.

(** ** Calls on the root *)

Lemma root_set d r : d_root (d <| d_root := r |>) = r.
Proof. done. Qed.


Record stage (G L : gmap (list N) Entry) (p : option Entry) (b : books) (d : Disk) : Prop := {
  st_generations : d_generations d = G;
  st_leases : d_leases d = L;
  st_pointer : pointer d = p;
  st_book : book d = b
}.

Lemma stage_here d : stage (d_generations d) (d_leases d) (pointer d) (book d) d.
Proof. done. Qed.

Definition entry_of (k : Kind) (g : GenerationId) (b : books) : option Entry :=
  match k with KCurrent => b.1.1 | KAbsent => b.1.2 | KCommitted => b.2 end !! journal k g.

Lemma stage_entry G L p b d k g : stage G L p b d → d_root d !! journal k g = entry_of k g b.
Proof. intros [_ _ _ Hb]. destruct b as [[c a] m]. by apply (book_lookup k g) in Hb. Qed.

(** Changes of the root that keep the stage in a known way. *)
Definition moves_to (p p' : option Entry) (b b' : books) (d : Disk) (r : gmap (list N) Entry) : Prop :=
  pointer d = p → book d = b → pointer (d <| d_root := r |>) = p' ∧ book (d <| d_root := r |>) = b'.

Section calls.
Context (I R : Disk → Prop) (G L : gmap (list N) Entry).

Lemma root_call f p b p' b' s (Q : unit → Disk → Prop) :
  stage G L p b (disk s) → R (disk s) →
  (∀ r, f (d_root (disk s)) = Ok r → moves_to p p' b b' (disk s) r) →
  (∀ d, stage G L p' b' d → I d ∧ Q tt d) →
  leaves I (on_root f) Q R s.
Proof.
  intros [Hg Hl Hp Hb] HR Hf Hd. apply leaves_change; [done|]. intros d Hr. apply rbind_Ok in Hr as (r & Hr & [= <-]).
  destruct (Hf r Hr Hp Hb) as [Hp' Hb']. by apply Hd.
Qed.

Lemma unlink_journal k g p b s (Q : unit → Disk → Prop) :
  stage G L p b (disk s) → R (disk s) →
  (∀ d, stage G L p (on_book k (delete (journal k g)) b) d → I d ∧ Q tt d) →
  leaves I (unlink_root (journal_name k g)) Q R s.
Proof.
  intros Hs HR Hd. eapply root_call; [done|done| |exact Hd].
  intros r Hr. unfold dir_unlink in Hr. change (str_bytes (journal_name k g)) with (journal k g) in Hr.
  destruct (_ !! _); [|done]. injection Hr as <-.
  intros Hp Hb. destruct (book_del k g (disk s) (disk s <| d_root := delete (journal k g) (d_root (disk s)) |>) (root_set _ _)) as [-> ->].
  by rewrite Hp, Hb.
Qed.

(** [rename] of a journal onto the pointer, of the pointer onto a journal, of a journal
    onto another; and the exchange of a journal with the pointer. *)
Lemma rename_to_pointer k g e p b s (Q : unit → Disk → Prop) :
  stage G L p b (disk s) → R (disk s) → entry_of k g b = Some e →
  (∀ d, stage G L (Some e) (on_book k (delete (journal k g)) b) d → I d ∧ Q tt d) →
  leaves I (rename_root (journal_name k g) (lit "current")) Q R s.
Proof.
  intros Hs HR He Hd. eapply root_call; [done|done| |exact Hd].
  pose proof (stage_entry _ _ _ _ _ k g Hs) as Hl. rewrite He in Hl. intros r Hr. unfold dir_rename in Hr.
  change (str_bytes (journal_name k g)) with (journal k g) in Hr. rewrite Hl in Hr. change (str_bytes (lit "current")) with pointer_name in Hr. injection Hr as <-. intros Hp Hb.
  set (d1 := disk s <| d_root := delete (journal k g) (d_root (disk s)) |>).
  destruct (book_del k g (disk s) d1 (root_set _ _)) as [E1 _].
  destruct (book_put_pointer e d1 (disk s <| d_root := <[pointer_name := e]> (delete (journal k g) (d_root (disk s))) |>) (root_set _ _))
    as [E2 E3]. by rewrite E2, E3, E1, Hb.
Qed.

Lemma rename_from_pointer k g e b s (Q : unit → Disk → Prop) :
  stage G L (Some e) b (disk s) → R (disk s) →
  (∀ d, stage G L None (on_book k <[journal k g := e]> b) d → I d ∧ Q tt d) →
  leaves I (rename_root (lit "current") (journal_name k g)) Q R s.
Proof.
  intros Hs HR Hd. eapply root_call; [done|done| |exact Hd].
  pose proof (st_pointer _ _ _ _ _ Hs) as Hl. unfold pointer in Hl. intros r Hr. unfold dir_rename in Hr.
  change (str_bytes (lit "current")) with pointer_name in Hr. change (str_bytes (journal_name k g)) with (journal k g) in Hr. rewrite Hl in Hr. injection Hr as <-. intros Hp Hb.
  set (d1 := disk s <| d_root := delete pointer_name (d_root (disk s)) |>).
  destruct (book_del_pointer (disk s) d1 (root_set _ _)) as [E1 E1'].
  destruct (book_put k g e d1 (disk s <| d_root := <[journal k g := e]> (delete pointer_name (d_root (disk s))) |>) (root_set _ _))
    as [E2 E3]. by rewrite E2, E3, E1, Hb.
Qed.

Lemma rename_journal k g k' g' e p b s (Q : unit → Disk → Prop) :
  stage G L p b (disk s) → R (disk s) → entry_of k g b = Some e →
  (∀ d, stage G L p (on_book k' <[journal k' g' := e]> (on_book k (delete (journal k g)) b)) d → I d ∧ Q tt d) →
  leaves I (rename_root (journal_name k g) (journal_name k' g')) Q R s.
Proof.
  intros Hs HR He Hd. eapply root_call; [done|done| |exact Hd].
  pose proof (stage_entry _ _ _ _ _ k g Hs) as Hl. rewrite He in Hl. intros r Hr. unfold dir_rename in Hr.
  change (str_bytes (journal_name k g)) with (journal k g) in Hr. rewrite Hl in Hr.
  change (str_bytes (journal_name k' g')) with (journal k' g') in Hr. injection Hr as <-. intros Hp Hb.
  set (d1 := disk s <| d_root := delete (journal k g) (d_root (disk s)) |>).
  destruct (book_del k g (disk s) d1 (root_set _ _)) as [E1 E1'].
  destruct (book_put k' g' e d1 (disk s <| d_root := <[journal k' g' := e]> (delete (journal k g) (d_root (disk s))) |>) (root_set _ _))
    as [E2 E3]. by rewrite E2, E3, E1, E1', Hb, Hp.
Qed.

Lemma exchange_with_pointer k g e e' b s (Q : unit → Disk → Prop) :
  stage G L (Some e') b (disk s) → R (disk s) → entry_of k g b = Some e →
  (∀ d, stage G L (Some e) (on_book k <[journal k g := e']> b) d → I d ∧ Q tt d) →
  leaves I (exchange_root (journal_name k g) (lit "current")) Q R s.
Proof.
  intros Hs HR He Hd. eapply root_call; [done|done| |exact Hd].
  pose proof (stage_entry _ _ _ _ _ k g Hs) as Hl. rewrite He in Hl. pose proof (st_pointer _ _ _ _ _ Hs) as Hl'.
  unfold pointer in Hl'. intros r Hr. unfold dir_exchange in Hr.
  change (str_bytes (journal_name k g)) with (journal k g) in Hr. change (str_bytes (lit "current")) with pointer_name in Hr.
  rewrite Hl, Hl' in Hr. injection Hr as <-. intros Hp Hb.
  set (d1 := disk s <| d_root := <[pointer_name := e]> (d_root (disk s)) |>).
  destruct (book_put_pointer e (disk s) d1 (root_set _ _)) as [E1 E1'].
  destruct (book_put k g e' d1 (disk s <| d_root := <[journal k g := e']> (<[pointer_name := e]> (d_root (disk s))) |>) (root_set _ _))
    as [E2 E3]. by rewrite E2, E3, E1, E1', Hb.
Qed.

Lemma unlink_plain n p b s (Q : unit → Disk → Prop) :
  plain_name (str_bytes n) → stage G L p b (disk s) → R (disk s) →
  (∀ d, stage G L p b d → I d ∧ Q tt d) → leaves I (unlink_root n) Q R s.
Proof.
  intros Hn Hs HR Hd. eapply root_call; [done|done| |exact Hd]. intros r Hr. unfold dir_unlink in Hr.
  destruct (_ !! _); [|done]. injection Hr as <-. intros Hp Hb.
  destruct (book_del_plain _ (disk s) (disk s <| d_root := delete (str_bytes n) (d_root (disk s)) |>) Hn (root_set _ _)) as [-> ->].
  by rewrite Hp, Hb.
Qed.

Lemma rename_plain n n' p b s (Q : unit → Disk → Prop) :
  plain_name (str_bytes n) → plain_name (str_bytes n') → stage G L p b (disk s) → R (disk s) →
  (∀ d, stage G L p b d → I d ∧ Q tt d) → leaves I (rename_root n n') Q R s.
Proof.
  intros Hn Hn' Hs HR Hd. eapply root_call; [done|done| |exact Hd]. intros r Hr. unfold dir_rename in Hr.
  destruct (d_root (disk s) !! str_bytes n) as [e|]; [|done]. injection Hr as <-. intros Hp Hb.
  set (d1 := disk s <| d_root := delete (str_bytes n) (d_root (disk s)) |>).
  destruct (book_del_plain _ (disk s) d1 Hn (root_set _ _)) as [E1 E1'].
  destruct (book_put_plain _ e d1 (disk s <| d_root := <[str_bytes n' := e]> (delete (str_bytes n) (d_root (disk s))) |>) Hn' (root_set _ _))
    as [E2 E3]. by rewrite E2, E3, E1, E1', Hb, Hp.
Qed.

(** A new file: a journal, which may be left empty or cut off, or any other. *)
Lemma write_journal k g bytes p b s (Q : unit → Disk → Prop) :
  stage G L p b (disk s) → R (disk s) →
  (∀ part d, part `prefix_of` bytes → stage G L p (on_book k <[journal k g := File true part]> b) d → I d ∧ R d) →
  (∀ d, stage G L p (on_book k <[journal k g := File true bytes]> b) d → Q tt d) →
  leaves I (write_root_file (journal k g) bytes) Q R s.
Proof.
  intros Hs HR Hpart HQ. unfold write_root_file.
  apply (leaves_bind _ _ _ (λ _ d, stage G L p (on_book k <[journal k g := File true []]> b) d)).
  { apply (root_call _ p b p (on_book k <[journal k g := File true []]> b)); [done|done| |].
    - intros r Hr. unfold dir_create in Hr. destruct (_ !! _); [done|]. injection Hr as <-. intros Hp Hb.
      destruct (book_put k g (File true []) (disk s)
        (disk s <| d_root := <[journal k g := File true []]> (d_root (disk s)) |>) (root_set _ _)) as [-> ->]. by rewrite Hp, Hb.
    - intros d Hd. split; [|exact Hd]. eapply Hpart; [apply prefix_nil|exact Hd]. }
  intros [] s1 Hs1.
  assert (∀ bs, stage G L p (on_book k <[journal k g := File true bs]> b)
    (disk s1 <| d_root := <[journal k g := File true bs]> (d_root (disk s1)) |>)) as Hput.
  { intros bs. destruct Hs1 as [? ? Hp1 Hb1].
    destruct (book_put k g (File true bs) (disk s1)
      (disk s1 <| d_root := <[journal k g := File true bs]> (d_root (disk s1)) |>) (root_set _ _)) as [E1 E2].
    split; [done|done|by rewrite E2|]. rewrite E1, Hb1. destruct k; cbn; by rewrite insert_insert_eq. }
  apply (leaves_bind _ _ _ (λ _ d, stage G L p (on_book k <[journal k g := File true bytes]> b) d)).
  - apply leaves_write_through.
    + eapply Hpart; [apply prefix_nil|exact Hs1].
    + intros i d [= <-]. eapply Hpart; [apply prefix_take|apply Hput].
    + intros d [= <-]. split; [eapply Hpart; [done|]|]; apply Hput.
  - intros [] s2 Hs2. apply leaves_syscall; [by apply HQ|]. by eapply Hpart.
Qed.

Lemma write_plain n bytes p b s (Q : unit → Disk → Prop) :
  plain_name n → stage G L p b (disk s) →
  (∀ d, stage G L p b d → I d ∧ R d ∧ Q tt d) → leaves I (write_root_file n bytes) Q R s.
Proof.
  intros Hn Hs Hd. unfold write_root_file.
  assert (∀ e d, stage G L p b d → stage G L p b (d <| d_root := <[n := e]> (d_root d) |>)) as Hput.
  { intros e d [? ? Hp Hb]. destruct (book_put_plain n e d (d <| d_root := <[n := e]> (d_root d) |>) Hn (root_set _ _)) as [E1 E2].
    split; [done|done|by rewrite E2|by rewrite E1]. }
  apply (leaves_bind _ _ _ (λ _ d, stage G L p b d)).
  { apply leaves_change; [by apply Hd|]. intros d Hr. apply rbind_Ok in Hr as (r & Hr & [= <-]). unfold dir_create in Hr.
    destruct (_ !! _); [done|]. injection Hr as <-. pose proof (Hput (File true []) _ Hs). by split; [apply Hd|]. }
  intros [] s1 Hs1. apply (leaves_bind _ _ _ (λ _ d, stage G L p b d)).
  - apply leaves_write_through; [by apply Hd|..].
    + intros i d [= <-]. by split; apply Hd, Hput.
    + intros d [= <-]. split; [by apply Hd, Hput|by apply Hput].
  - intros [] s2 Hs2. by apply leaves_syscall; apply Hd.
Qed.
End calls.

(** ** Where a stage settles *)

Definition no_books : books := (∅, ∅, ∅).
Definition single (k : Kind) (g : GenerationId) (e : Entry) : books := on_book k (λ _, {[journal k g := e]}) no_books.

Lemma single_delete k g e : on_book k (delete (journal k g)) (single k g e) = no_books.
Proof. destruct k; cbn; by rewrite delete_singleton_eq. Qed.

Lemma single_put k g e : on_book k <[journal k g := e]> no_books = single k g e.
Proof. by destruct k. Qed.

Lemma single_replace k g e e' : on_book k <[journal k g := e']> (single k g e) = single k g e'.
Proof. destruct k; cbn; by rewrite insert_singleton_eq. Qed.

Lemma single_entry k g e : entry_of k g (single k g e) = Some e.
Proof. destruct k; cbn; apply lookup_singleton_eq. Qed.

(** The two journals of a first commit. *)
Definition pristine_books (g : GenerationId) (e e' : Entry) : books :=
  ({[journal KCurrent g := e]}, {[journal KAbsent g := e']}, ∅).

Section settling.
Variable digest_hex : list N → rstring.

Abbreviation settles := (settles digest_hex).

(** A generation of the directory [G] that is valid. *)
Definition good (G : gmap (list N) Entry) (g : GenerationId) : Prop :=
  lower_hex_32 g = true ∧ valid digest_hex (mk_disk ∅ G ∅) g.

Lemma good_known G d g : d_generations d = G → good G g ↔ known digest_hex d g.
Proof.
  intros <-. unfold good, known, valid, validate_generation, open_validated_generation. done.
Qed.

Lemma good_entry G G' g : G !! str_bytes g = G' !! str_bytes g → good G g → good G' g.
Proof.
  intros E. unfold good, valid, validate_generation, open_validated_generation. cbn. by rewrite E.
Qed.

Definition points (G : gmap (list N) Entry) (p : option Entry) (v : option GenerationId) : Prop :=
  match v with Some g => holds p g ∧ good G g | None => p = None end.

Lemma points_is G L p b d v : stage G L p b d → points G p v ↔ pointer_is digest_hex d v.
Proof.
  intros [Hg _ <- _]. unfold points, pointer_is. destruct v as [g|]; [|done]. rewrite (good_known _ _ _ Hg). unfold known.
  pose proof (holds_hex (pointer d) g). naive_solver.
Qed.

Section stage.
Context (G L : gmap (list N) Entry).
Implicit Types (p : option Entry) (d : Disk) (g a : GenerationId).

Lemma settles_clean p d v : stage G L p no_books d → points G p v → settles v d.
Proof.
  intros Hs Hp. exists Clean, v. apply shape_clean; [by apply book_journals, Hs|by apply (points_is _ _ _ _ _ _ Hs)].
Qed.

Lemma settles_discard p d v g q :
  stage G L p (single KCurrent g (File q (pointer_record g))) d → points G p v → v ≠ Some g → good G g → settles v d.
Proof.
  intros Hs Hp Hne Hg. eexists _, v. apply (shape_discard _ _ _ g q); [by apply book_journals, Hs| |done|].
  - by apply (points_is _ _ _ _ _ _ Hs).
  - by apply (good_known _ _ _ (st_generations _ _ _ _ _ Hs)).
Qed.

Lemma settles_rollback p d a g q :
  stage G L p (single KCurrent g (File q (pointer_record a))) d → points G p (Some g) → a ≠ g → good G a → settles (Some a) d.
Proof.
  intros Hs Hp Hne Hg. eexists _, (Some g). apply (shape_rollback _ _ _ g q); [by apply book_journals, Hs| |done|].
  - by apply (points_is _ _ _ _ _ _ Hs).
  - by apply (good_known _ _ _ (st_generations _ _ _ _ _ Hs)).
Qed.

Lemma settles_absent p d g q :
  stage G L p (single KAbsent g (File q [])) d → points G p (Some g) → settles None d.
Proof.
  intros Hs Hp. eexists _, (Some g). apply (shape_absent _ _ g q); [by apply book_journals, Hs|].
  by apply (points_is _ _ _ _ _ _ Hs).
Qed.

Lemma settles_pristine d g q q' :
  stage G L None (pristine_books g (File q (pointer_record g)) (File q' [])) d →
  good G g → settles None d.
Proof.
  intros Hs Hg. eexists _, None. apply (shape_pristine _ _ g q q'); [by apply book_journals, Hs| |].
  - by apply (points_is _ _ _ _ _ None Hs).
  - by apply (good_known _ _ _ (st_generations _ _ _ _ _ Hs)).
Qed.

Lemma settles_committed p d g q previous :
  stage G L p (single KCommitted g (File q (previous_record previous))) d → points G p (Some g) → previous ≠ Some g →
  (∀ a, previous = Some a → good G a) → settles (Some g) d.
Proof.
  intros Hs Hp Hne Hprev. eexists _, (Some g). apply (shape_committed _ _ g q previous); [by apply book_journals, Hs| |done|].
  - by apply (points_is _ _ _ _ _ _ Hs).
  - intros a Ha. apply (good_known _ _ _ (st_generations _ _ _ _ _ Hs)). by apply Hprev.
Qed.
End stage.

(** A journal whose record was cut off. *)
Definition torn (d : Disk) : Prop :=
  ∃ g part, lower_hex_32 g = true ∧ part `prefix_of` pointer_record g ∧ part ≠ pointer_record g
    ∧ d_root d !! journal KCurrent g = Some (File true part).

(** What a call means for the pointer: [v] before it, [g] if it commits. *)
Definition fate (v : option GenerationId) (g : GenerationId) (d : Disk) : Prop :=
  settles v d ∨ settles (Some g) d ∨ torn d.

Definition outcome_ok (v : option GenerationId) (g : GenerationId) (o : GenerationPublicationOutcome) (d : Disk) : Prop :=
  match o with
  | Committed g' => g' = g ∧ settles (Some g) d ∧ book d = no_books
  | CommittedWithCleanupPending g' _ => g' = g ∧ settles (Some g) d
  | OutcomeAmbiguous g' _ => g' = g ∧ (settles v d ∨ settles (Some g) d)
  end.

Section transaction.
Context (G L : gmap (list N) Entry) (v : option GenerationId) (g : GenerationId).
Hypothesis new_good : good G g.
Hypothesis new_other : v ≠ Some g.
Hypothesis old_good : ∀ a, v = Some a → good G a.
Abbreviation I := (fate v g).

(** The kind of the journal that holds what was there before. *)
Definition undo_kind : Kind := match v with Some _ => KCurrent | None => KAbsent end.

Lemma settles_undo p d q :
  stage G L p (single undo_kind g (File q (previous_record v))) d → points G p (Some g) → settles v d.
Proof.
  unfold undo_kind, previous_record. destruct v as [a|]; intros Hs Hp.
  - eapply settles_rollback; [done|done|congruence|by apply old_good].
  - by eapply settles_absent.
Qed.

Lemma finish_commit_ok p q s (R : Disk → Prop) :
  stage G L p (single undo_kind g (File q (previous_record v))) (disk s) → points G p (Some g) →
  leaves I (finish_commit g (journal_name undo_kind g)) (outcome_ok v g) R s.
Proof.
  intros Hs Hp. unfold finish_commit. cbv zeta. change (lit ".committed-" ++ g) with (journal_name KCommitted g).
  assert (∀ d, stage G L p (single KCommitted g (File q (previous_record v))) d → settles (Some g) d) as Hcom
    by (intros d Hd; by eapply settles_committed).
  assert (∀ d, stage G L p no_books d → settles (Some g) d) as Hcl by (intros d Hd; by eapply settles_clean).
  apply (leaves_bind _ _ _ (λ r d, match r with
    | Ok _ => stage G L p (single KCommitted g (File q (previous_record v))) d
    | Err _ => settles v d ∨ settles (Some g) d end)).
  { apply leaves_attempt. eapply (leaves_bind _ _ _ (λ _ d, stage G L p (single KCommitted g (File q (previous_record v))) d)).
    - eapply rename_journal; [done| |apply single_entry|].
      + intros _. left. by eapply settles_undo.
      + rewrite single_delete, single_put. intros d Hd. split; [right; left; by apply Hcom|done].
    - intros [] s1 Hs1. apply leaves_syscall; [done|]. intros _. right. by apply Hcom. }
  intros [[]|e] s1 H1; [|by apply leaves_ret].
  apply (leaves_bind _ _ _ (λ r d, match r with
    | Ok _ => stage G L p no_books d
    | Err _ => settles (Some g) d end)).
  { apply leaves_attempt. eapply (leaves_bind _ _ _ (λ _ d, stage G L p no_books d)).
    - eapply unlink_journal; [done| |].
      + intros _. by apply Hcom.
      + rewrite single_delete. intros d Hd. split; [right; left; by apply Hcl|done].
    - intros [] s2 Hs2. apply leaves_syscall; [done|]. intros _. by apply Hcl. }
  intros [[]|e] s2 H2; apply leaves_ret; [|done]. split; [done|]. split; [by apply Hcl|apply H2].
Qed.

(** The commit itself, from the [fsync] on. *)
Lemma commit_pointer_ok rollback p q s :
  stage G L p (single undo_kind g (File q (previous_record v))) (disk s) → points G p (Some g) →
  (∀ s', stage G L p (single undo_kind g (File q (previous_record v))) (disk s') →
     leaves I rollback (λ _, settles v) (λ d, settles v d ∨ settles (Some g) d) s') →
  leaves I (commit_pointer g rollback (journal_name undo_kind g)) (outcome_ok v g) (λ d, settles v d ∨ torn d) s.
Proof.
  intros Hs Hp Hroll. unfold commit_pointer.
  apply (leaves_bind _ _ _ (λ _ d, stage G L p (single undo_kind g (File q (previous_record v))) d)).
  { apply leaves_attempt. by apply leaves_syscall. }
  intros [[]|e] s1 Hs1; [by eapply finish_commit_ok|].
  apply (leaves_bind _ _ _ (λ r d, match r with Ok _ => settles v d | Err _ => settles v d ∨ settles (Some g) d end)).
  { apply leaves_attempt. eapply leaves_mono; [by apply Hroll|done|]. intros d Hd _. exact Hd. }
  intros [[]|e'] s2 H2; [by apply leaves_raise; left|by apply leaves_ret].
Qed.
End transaction.
End settling.
