(* ===== verification/GenCommits.v ===== *)
(** * The generation store: the two transactions

    A commit over a pointer that is there, by exchange, and the first one, by rename: each
    is followed from its first call to its last, through every failure. *)

From Stdlib Require Import ZArith Lia.
From stdpp Require Import prelude list gmap sorting.
From S2P Require Import Prelude Authority Hoare Utf8 Ipc Text GenRecords GenFormats GenStore GenJournals GenSteps GenProtocol.

#[local] Arguments lit : simpl never.

Section commits.
Variable digest_hex : list N → rstring.

Abbreviation settles := (settles digest_hex).
Abbreviation good := (good digest_hex).
Abbreviation points := (points digest_hex).
Abbreviation fate := (fate digest_hex).
Abbreviation outcome_ok := (outcome_ok digest_hex).

(** What the journal with the new generation is while it is written. *)
Lemma journal_written G L p v g part d :
  good G g → points G p v → v ≠ Some g → part `prefix_of` pointer_record g →
  stage G L p (single KCurrent g (File true part)) d → settles v d ∨ torn d.
Proof.
  intros Hg Hp Hne Hpart Hd. destruct (decide (part = pointer_record g)) as [->|Htorn].
  - left. by eapply settles_discard.
  - right. exists g, part. split; [apply Hg|]. split; [done|]. split; [done|].
    by rewrite (stage_entry _ _ _ _ _ KCurrent g Hd), single_entry.
Qed.

Lemma failed_fate v g d : settles v d ∨ torn d → fate v g d.
Proof. unfold GenProtocol.fate. tauto. Qed.

Lemma write_pointer_journal G L p v g s :
  good G g → points G p v → v ≠ Some g → stage G L p no_books (disk s) →
  leaves (fate v g) (write_root_file (str_bytes (lit ".current-" ++ g)) (str_bytes (g ++ [10%N])))
    (λ _ d, stage G L p (single KCurrent g (File true (pointer_record g))) d) (λ d, settles v d ∨ torn d) s.
Proof.
  intros Hg Hp Hne Hs. change (str_bytes (lit ".current-" ++ g)) with (journal KCurrent g).
  eapply write_journal; [exact Hs|left; by eapply settles_clean|..]; rewrite ?single_put.
  - intros part d Hpart Hd. rewrite single_put in Hd.
    assert (settles v d ∨ torn d) as H by by eapply journal_written. split; [by apply failed_fate|done].
  - done.
Qed.

(** [commit_existing_pointer_locked], and the end of a publication over a pointer. *)
Lemma commit_existing_ok G L p a g s :
  good G g → points G p (Some a) → a ≠ g → stage G L p no_books (disk s) →
  leaves (fate (Some a) g) (commit_existing_pointer_locked g) (outcome_ok (Some a) g) (λ d, settles (Some a) d ∨ torn d) s.
Proof.
  intros Hg Hp Hne Hs. pose proof Hp as [(q & -> & Ha) Hga].
  assert (Some a ≠ Some g) as Hne' by congruence.
  assert (∀ b, Some a = Some b → good G b) as Hold by (by intros b [= <-]).
  set (old := File q (pointer_record a)). set (new := File true (pointer_record g)).
  assert (points G (Some new) (Some g)) as Hpn by (split; [by exists true; split; [|apply Hg]|done]).
  assert (∀ d, stage G L (Some old) (single KCurrent g new) d → settles (Some a) d) as Hbefore
    by (intros d Hd; by eapply settles_discard).
  assert (∀ d, stage G L (Some new) (single KCurrent g old) d → settles (Some a) d) as Hafter
    by (intros d Hd; eapply (settles_undo digest_hex G L (Some a) g); done).
  unfold commit_existing_pointer_locked. cbv zeta. change (lit ".current-" ++ g) with (journal_name KCurrent g).
  eapply leaves_bind; [by eapply write_pointer_journal|]. intros [] s1 Hs1.
  eapply (leaves_bind _ _ _ (λ _ d, stage G L (Some old) (single KCurrent g new) d)).
  { apply leaves_syscall; [done|left; by apply Hbefore]. }
  intros [] s2 Hs2. eapply (leaves_bind _ _ _ (λ _ d, stage G L (Some new) (single KCurrent g old) d)).
  { eapply exchange_with_pointer; [done|left; by apply Hbefore|apply single_entry|]. rewrite single_replace.
    intros d Hd. split; [left; by apply Hafter|done]. }
  intros [] s3 Hs3. eapply (commit_pointer_ok digest_hex G L (Some a) g Hne' Hold); [done|done|].
  intros s4 Hs4. eapply (leaves_bind _ _ _ (λ _ d, stage G L (Some old) (single KCurrent g new) d)).
  - eapply exchange_with_pointer; [done|left; by apply Hafter|apply single_entry|]. rewrite single_replace.
    intros d Hd. split; [left; by apply Hbefore|done].
  - intros [] s5 Hs5. apply leaves_syscall; [by apply Hbefore|left; by apply Hbefore].
Qed.

(** The first commit. *)
Definition commit_pristine (g : GenerationId) : gen_m GenerationPublicationOutcome :=
  let pointer_staging := lit ".current-" ++ g in
  let absent_marker := lit ".absent-" ++ g in
  _ ← write_root_file (str_bytes pointer_staging) (str_bytes (g ++ [10%N]));
  _ ← write_root_file (str_bytes absent_marker) [];
  _ ← sync_root;
  _ ← rename_root pointer_staging (lit "current");
  commit_pointer g
    (_ ← rename_root (lit "current") pointer_staging; _ ← unlink_root absent_marker; sync_root) absent_marker.

Lemma commit_pristine_ok G L g s :
  good G g → stage G L None no_books (disk s) →
  leaves (fate None g) (commit_pristine g) (outcome_ok None g) (λ d, settles None d ∨ torn d) s.
Proof.
  intros Hg Hs. assert (points G None None) as Hp by done.
  assert (None ≠ Some g) as Hne by done.
  assert (∀ b, None = Some b → good G b) as Hold by done.
  set (new := File true (pointer_record g)). set (marker := File true []).
  assert (points G (Some new) (Some g)) as Hpn by (split; [by exists true; split; [|apply Hg]|done]).
  assert (∀ d, stage G L None (single KCurrent g new) d → settles None d) as Hone
    by (intros d Hd; by eapply settles_discard).
  assert (∀ d, stage G L None (pristine_books g new marker) d → settles None d) as Hboth
    by (intros d Hd; by eapply settles_pristine).
  assert (∀ d, stage G L (Some new) (single KAbsent g marker) d → settles None d) as Hafter
    by (intros d Hd; by eapply settles_absent).
  unfold commit_pristine. cbv zeta. change (lit ".current-" ++ g) with (journal_name KCurrent g).
  change (lit ".absent-" ++ g) with (journal_name KAbsent g).
  eapply leaves_bind; [by eapply write_pointer_journal|]. intros [] s1 Hs1.
  eapply (leaves_bind _ _ _ (λ _ d, stage G L None (pristine_books g new marker) d)).
  { eapply (write_journal _ _ G L KAbsent g []); [exact Hs1|left; by apply Hone|..].
    - intros part d Hpart%prefix_nil_inv Hd. subst part. assert (settles None d) by by apply Hboth. by split; left.
    - done. }
  intros [] s2 Hs2. eapply (leaves_bind _ _ _ (λ _ d, stage G L None (pristine_books g new marker) d)).
  { apply leaves_syscall; [done|left; by apply Hboth]. }
  intros [] s3 Hs3. eapply (leaves_bind _ _ _ (λ _ d, stage G L (Some new) (single KAbsent g marker) d)).
  { eapply rename_to_pointer; [exact Hs3|left; by apply Hboth|apply (lookup_singleton_eq (journal KCurrent g) new)|].
    intros d Hd. cbn in Hd. rewrite delete_singleton_eq in Hd. by split; [left; apply Hafter|]. }
  intros [] s4 Hs4. eapply (commit_pointer_ok digest_hex G L None g Hne Hold); [done|done|].
  intros s5 Hs5. eapply (leaves_bind _ _ _ (λ _ d, stage G L None (pristine_books g new marker) d)).
  { eapply rename_from_pointer; [exact Hs5|left; by apply Hafter|]. intros d Hd. by split; [left; apply Hboth|]. }
  intros [] s6 Hs6. eapply (leaves_bind _ _ _ (λ _ d, stage G L None (single KCurrent g new) d)).
  { eapply unlink_journal; [exact Hs6|left; by apply Hboth|]. intros d Hd. cbn in Hd. rewrite delete_singleton_eq in Hd.
    by split; [left; apply Hone|]. }
  intros [] s7 Hs7. apply leaves_syscall; [by apply Hone|left; by apply Hone].
Qed.
End commits.
