(* ===== verification/GenRecovery.v ===== *)
(** * The generation store: cleaning up

    What recovery does to the store before anything else is done with it: staging trees
    go, the pointer settles, and no journal is left.  Nothing of it touches a generation. *)

From Stdlib Require Import ZArith Lia.
From stdpp Require Import prelude list gmap sorting.
From S2P Require Import Prelude Authority Hoare Utf8 Ipc Text GenRecords GenFormats GenStore GenJournals GenSteps GenProtocol.

#[local] Arguments lit : simpl never.

(** ** States that agree on the pointer and on every generation *)

Record alike (d0 d : Disk) : Prop := {
  al_pointer : pointer d = pointer d0;
  al_book : book d = book d0;
  al_generations : ∀ g, lower_hex_32 g = true → d_generations d !! str_bytes g = d_generations d0 !! str_bytes g
}.

Lemma alike_refl d : alike d d.
Proof. done. Qed.

Lemma alike_trans d1 d2 d3 : alike d1 d2 → alike d2 d3 → alike d1 d3.
Proof.
  intros [Hp Hb Hg] [Hp' Hb' Hg']. split; [by rewrite Hp', Hp|by rewrite Hb', Hb|].
  intros g Hhex. by rewrite (Hg' g Hhex), (Hg g Hhex).
Qed.

Lemma stage_alike G L p b d d' : stage G L p b d → stage G L p b d' → alike d d'.
Proof. intros [Hg _ Hp Hb] [Hg' _ Hp' Hb']. split; [congruence..|]. intros g _. congruence. Qed.

Lemma aside_alike n d0 d : (∀ g, lower_hex_32 g = true → str_bytes g ≠ n) → aside n d0 d → alike d0 d.
Proof.
  intros Hn (Hr & _ & Hg). split.
  - unfold pointer. by rewrite Hr.
  - unfold book, journals. by rewrite Hr.
  - intros g Hhex. by apply Hg, Hn.
Qed.

Lemma hex_head g : lower_hex_32 g = true → head g ≠ Some 46%N.
Proof. intros (_ & Hv & _)%lower_hex_ascii. destruct g as [|c g]; [done|]. by intros [= ->]. Qed.

Lemma not_staging g : lower_hex_32 g = true → staging_name (str_bytes g) = false.
Proof.
  intros Hg. unfold staging_name. rewrite from_utf8_str_bytes by by apply hex_text.
  destruct (strip_prefix _ g) as [id|] eqn:E; [|done]. apply strip_prefix_Some in E as ->. by apply hex_head in Hg.
Qed.

Lemma staging_other g g' : lower_hex_32 g = true → str_bytes g ≠ str_bytes (lit ".staging-" ++ g').
Proof.
  intros Hg E. pose proof (hex_head g Hg) as Hh. destruct g as [|c g]; [done|].
  change (str_bytes (lit ".staging-" ++ g')) with (46%N :: str_bytes (lit "staging-" ++ g')) in E.
  apply str_bytes_head in E as (t & Et & _); [|lia]. injection Et as ->. by apply Hh.
Qed.

Lemma hex_bytes_inj g g' : lower_hex_32 g = true → lower_hex_32 g' = true → str_bytes g = str_bytes g' → g = g'.
Proof. intros [Hg _]%hex_text [Hg' _]%hex_text E. apply (f_equal from_utf8) in E. rewrite !from_utf8_str_bytes in E by done. by injection E. Qed.

Lemma plain_order : plain_name (str_bytes (lit "publication-order")).
Proof. split; [done|]. intros []; by intros Hp%prefix_cons_inv_1. Qed.

Lemma plain_staged_order : plain_name (str_bytes (lit ".publication-order")).
Proof. split; [done|]. intros []; intros Hp%prefix_cons_inv_2; by apply prefix_cons_inv_1 in Hp. Qed.

Section recovery.
Variable digest_hex : list N → rstring.

Abbreviation settles := (settles digest_hex).
Abbreviation good := (good digest_hex).
Abbreviation points := (points digest_hex).

Lemma good_alike d0 d g : alike d0 d → good (d_generations d0) g → good (d_generations d) g.
Proof. intros Hd Hg. apply (good_entry _ (d_generations d0)); [|done]. symmetry. apply Hd, Hg. Qed.

Lemma points_alike d0 d v : alike d0 d → points (d_generations d0) (pointer d0) v → points (d_generations d) (pointer d) v.
Proof.
  intros Hd. unfold GenProtocol.points. rewrite (al_pointer _ _ Hd). destruct v; [|done]. intros [? ?]. split; [done|].
  by eapply good_alike.
Qed.

Lemma shape_alike d0 d st c v : alike d0 d → shape digest_hex d0 st c v → shape digest_hex d st c v.
Proof.
  intros Hd Hs.
  assert (∀ cs as_ ms, journals_are d0 cs as_ ms → journals_are d cs as_ ms) as Hj.
  { intros cs as_ ms Hj. apply book_journals. rewrite (al_book _ _ Hd). by apply book_journals. }
  assert (∀ w, pointer_is digest_hex d0 w → pointer_is digest_hex d w) as Hp.
  { intros w Hw. apply (points_is _ _ _ _ _ _ _ (stage_here d)). eapply points_alike; [exact Hd|].
    by apply (points_is _ _ _ _ _ _ _ (stage_here d0)). }
  assert (∀ g, known digest_hex d0 g → known digest_hex d g) as Hk.
  { intros g Hg. apply (good_known digest_hex (d_generations d)); [done|]. eapply good_alike; [exact Hd|].
    by apply (good_known digest_hex (d_generations d0) d0). }
  destruct Hs; by econstructor; eauto.
Qed.

Lemma settles_alike d0 d v : alike d0 d → settles v d0 → settles v d.
Proof. intros Hd (st & c & Hs). exists st, c. by eapply shape_alike. Qed.

(** ** Staging trees *)

Lemma remove_entries_ok n ps t s d0 :
  aside n d0 (disk s) → leaves (aside n d0) (remove_entries n ps t) (λ _, aside n d0) (aside n d0) s.
Proof.
  revert s. induction ps as [|p ps IH]; intros s Hs; cbn [remove_entries]; [by apply leaves_ret|].
  apply (leaves_bind _ _ _ (λ _, aside n d0)). { case_decide; [by apply leaves_syscall|by apply leaves_ret]. }
  intros [] s1 Hs1. apply (leaves_bind _ _ _ (λ _, aside n d0)); [|intros [] s2 Hs2; by apply IH].
  apply leaves_change; [done|]. intros d Hd. destruct (d_generations (disk s1) !! n) as [[]|] eqn:E; try done.
  injection Hd as <-. by split; apply aside_insert.
Qed.

Lemma remove_tree_at_ok n s d0 :
  aside n d0 (disk s) → leaves (aside n d0) (remove_tree_at n) (λ _, aside n d0) (aside n d0) s.
Proof.
  intros Hs. unfold remove_tree_at. apply (leaves_bind _ _ _ (λ _, aside n d0)); [by apply leaves_reads|]. intros e s1 Hs1.
  assert (∀ s', aside n d0 (disk s') → leaves (aside n d0) (on_generations (dir_unlink n)) (λ _, aside n d0) (aside n d0) s') as Hun.
  { intros s' Hs'. apply leaves_change; [done|]. intros d Hd. unfold dir_unlink in Hd. destruct (_ !! _); [|done].
    injection Hd as <-. by split; apply aside_delete. }
  destruct e as [[]|]; [by apply Hun| |by apply Hun..|by apply leaves_raise].
  apply (leaves_bind _ _ _ (λ _, aside n d0)); [by apply remove_entries_ok|]. intros [] s2 Hs2.
  apply (leaves_bind _ _ _ (λ _, aside n d0)); [by apply leaves_syscall|]. intros [] s3 Hs3. by apply Hun.
Qed.

Lemma clean_staging_ok s d0 :
  alike d0 (disk s) → leaves (alike d0) clean_staging (λ _, alike d0) (alike d0) s.
Proof.
  intros Hs. unfold clean_staging.
  apply (leaves_bind _ _ _ (λ ns d, alike d0 d ∧ Forall (λ n, staging_name n = true) ns)).
  { apply leaves_reads; [done|]. intros ns [= <-]. split; [done|]. apply Forall_forall. intros n Hn.
    apply list_elem_of_In, filter_In in Hn. apply Hn. }
  intros ns s1 [Hs1 Hns]. apply (leaves_bind _ _ _ (λ _, alike d0)); [|intros [] s2 Hs2; by apply leaves_syscall].
  revert s1 Hs1. induction Hns as [|n ns Hn _ IH]; intros s1 Hs1; cbn [each]; [by apply leaves_ret|].
  apply (leaves_bind _ _ _ (λ _, alike d0)); [|intros [] s2 Hs2; by apply IH].
  assert (∀ d, aside n (disk s1) d → alike d0 d) as Haside.
  { intros d Hd. eapply alike_trans; [exact Hs1|]. eapply aside_alike; [|exact Hd].
    intros g Hg E. by rewrite <-E, (not_staging g Hg) in Hn. }
  eapply leaves_inv; [|exact Haside]. eapply leaves_mono; [apply remove_tree_at_ok, aside_refl| |]; intros; by apply Haside.
Qed.

(** ** The pointer *)

(** No journal is left, and the pointer says [v]. *)
Definition clean (G L : gmap (list N) Entry) (v : option GenerationId) (d : Disk) : Prop :=
  ∃ p, stage G L p no_books d ∧ points G p v.

Lemma clean_settles G L v d : clean G L v d → settles v d.
Proof. intros (p & Hd & Hp). by eapply settles_clean. Qed.

Lemma shape_stage d st c v :
  shape digest_hex d st c v → points (d_generations d) (pointer d) c.
Proof. intros Hs. apply (points_is _ _ _ _ _ _ _ (stage_here d)). by destruct Hs. Qed.

Lemma replace_absent_name g : replace_absent (journal_name KAbsent g) = journal_name KCurrent g.
Proof. done. Qed.

Lemma end_clean G L p v s :
  stage G L p no_books (disk s) → points G p v → leaves (settles v) sync_root (λ _, clean G L v) (settles v) s.
Proof. intros Hs Hp. apply leaves_syscall; [by exists p|by eapply settles_clean]. Qed.

(** The call that removes the last journal, where the pointer already says [v]. *)
Lemma unlink_last G L p k g e v s :
  stage G L p (single k g e) (disk s) → points G p v → settles v (disk s) →
  leaves (settles v) (_ ← unlink_root (journal_name k g); sync_root) (λ _, clean G L v) (settles v) s.
Proof.
  intros Hs Hp Hv. eapply (leaves_bind _ _ _ (λ _ d, stage G L p no_books d)); [|intros [] s1 Hs1; by eapply end_clean].
  eapply (unlink_journal _ _ G L k g); [exact Hs|done|]. rewrite single_delete. intros d Hd. by split; [eapply settles_clean|].
Qed.

(** The two journals of a first commit go, the marker first. *)
Lemma discard_pristine_ok G L g q q' s :
  good G g → stage G L None (pristine_books g (File q (pointer_record g)) (File q' [])) (disk s) →
  leaves (settles None) (_ ← unlink_root (journal_name KAbsent g); _ ← unlink_root (journal_name KCurrent g); sync_root)
    (λ _, clean G L None) (settles None) s.
Proof.
  intros Hg Hs. set (old := File q (pointer_record g)) in *.
  assert (∀ d, stage G L None (single KCurrent g old) d → settles None d) as Hone by (intros d Hd; by eapply settles_discard).
  eapply (leaves_bind _ _ _ (λ _ d, stage G L None (single KCurrent g old) d)).
  - eapply (unlink_journal _ _ G L KAbsent g); [exact Hs|by eapply settles_pristine|]. intros d Hd. cbn in Hd.
    rewrite delete_singleton_eq in Hd. by split; [apply Hone|].
  - intros [] s1 Hs1. eapply unlink_last; [exact Hs1|done|by apply Hone].
Qed.

(** The pointer goes back into its journal, then both journals go. *)
Lemma rollback_absent_ok G L g q q' s :
  good G g → stage G L (Some (File q (pointer_record g))) (single KAbsent g (File q' [])) (disk s) → settles None (disk s) →
  leaves (settles None)
    (_ ← rename_root (lit "current") (journal_name KCurrent g); _ ← sync_root; _ ← unlink_root (journal_name KAbsent g);
     _ ← unlink_root (journal_name KCurrent g); sync_root) (λ _, clean G L None) (settles None) s.
Proof.
  intros Hg Hs Hv. set (old := File q (pointer_record g)) in *. set (two := pristine_books g old (File q' [])).
  assert (∀ d, stage G L None two d → settles None d) as Htwo by (intros d Hd; by eapply settles_pristine).
  eapply (leaves_bind _ _ _ (λ _ d, stage G L None two d)).
  { eapply (rename_from_pointer _ _ G L KCurrent g old); [exact Hs|done|]. intros d Hd. by split; [apply Htwo|]. }
  intros [] s1 Hs1. eapply (leaves_bind _ _ _ (λ _ d, stage G L None two d)); [apply leaves_syscall; [done|by apply Htwo]|].
  intros [] s2 Hs2. by eapply discard_pristine_ok.
Qed.

Lemma rollback_current_ok G L p a g q s :
  good G a → stage G L p (single KCurrent g (File q (pointer_record a))) (disk s) → settles (Some a) (disk s) →
  leaves (settles (Some a)) (_ ← rename_root (journal_name KCurrent g) (lit "current"); sync_root)
    (λ _, clean G L (Some a)) (settles (Some a)) s.
Proof.
  intros Ha Hs Hv. assert (points G (Some (File q (pointer_record a))) (Some a)) as Hp.
  { split; [|done]. by exists q; split; [|apply Ha]. }
  eapply (leaves_bind _ _ _ (λ _ d, stage G L (Some (File q (pointer_record a))) no_books d)).
  - eapply (rename_to_pointer _ _ G L KCurrent g); [exact Hs|done|apply single_entry|]. rewrite single_delete. intros d Hd.
    by split; [eapply settles_clean|].
  - intros [] s1 Hs1. by eapply end_clean.
Qed.

Lemma clean_pointer_staging_ok st c v s G L :
  shape digest_hex (disk s) st c v → d_generations (disk s) = G → d_leases (disk s) = L →
  leaves (settles v) (clean_pointer_staging (mk_inventory c st)) (λ _, clean G L v) (settles v) s.
Proof.
  intros Hs <- <-. set (G := d_generations (disk s)). set (L := d_leases (disk s)). pose proof (stage_here (disk s)) as Hhere.
  fold G L in Hhere. assert (settles v (disk s)) as Hv by by exists st, c. pose proof (shape_stage _ _ _ _ Hs) as Hp. fold G in Hp.
  assert (∀ g, known digest_hex (disk s) g → good G g) as Hgood by (intros g Hg; by apply (good_known digest_hex G (disk s))).
  unfold clean_pointer_staging. cbn [in_state].
  destruct Hs as [v Hj Hpt|v g q Hj Hpt Hne Hk|v g q Hj Hpt Hne Hk|g q Hj Hpt|g q q' Hj Hpt Hk|g q previous Hj Hpt Hne Hprev];
    apply book_journals in Hj; rewrite Hj in Hhere.
  - apply leaves_ret. by exists (pointer (disk s)).
  - eapply (unlink_last G L _ KCurrent g); [exact Hhere|exact Hp|exact Hv].
  - eapply rollback_current_ok; [by apply Hgood|exact Hhere|done].
  - destruct Hpt as [(q' & Hpq & Hhex) Hval]. rewrite Hpq in Hhere. rewrite replace_absent_name.
    eapply rollback_absent_ok; [by apply Hgood|exact Hhere|done].
  - rewrite Hpt in Hhere. eapply discard_pristine_ok; [by apply Hgood|exact Hhere].
  - eapply (unlink_last G L _ KCommitted g); [exact Hhere|exact Hp|exact Hv].
Qed.
End recovery.
