(* ===== verification/GenPublish.v ===== *)
(** * The generation store: what its operations leave

    Publication, rollback, recovery and selection, from the lock to the answer, through
    every failure of every system call. *)

From Stdlib Require Import ZArith Lia.
From stdpp Require Import prelude list gmap sorting.
From S2P Require Import Prelude Authority Hoare Utf8 Ipc Text GenRecords GenFormats GenStore GenJournals GenSteps GenTrees GenProtocol GenCommits GenRecovery.

#[local] Arguments lit : simpl never.

Section publish.
Variable digest_hex : list N → rstring.
Hypothesis digests_are_hex : ∀ b, sha256_digest (digest_hex b) = true.

Abbreviation settles := (settles digest_hex).
Abbreviation good := (good digest_hex).
Abbreviation points := (points digest_hex).
Abbreviation clean := (clean digest_hex).
Abbreviation outcome_ok := (outcome_ok digest_hex).

(** ** The publication order *)

Lemma clean_publication_order_staging_ok G L v s :
  clean G L v (disk s) → leaves (settles v) clean_publication_order_staging (λ _, clean G L v) (settles v) s.
Proof.
  intros Hs. pose proof (clean_settles _ _ _ _ _ Hs) as Hv. unfold clean_publication_order_staging.
  eapply (leaves_bind _ _ _ (λ _, clean G L v)); [by apply leaves_reads|]. intros [] s1 (p & Hs1 & Hp); [|apply leaves_ret; by exists p].
  assert (∀ d, stage G L p no_books d → settles v d) as Hset by (intros d Hd; by eapply settles_clean).
  eapply (leaves_bind _ _ _ (λ _ d, stage G L p no_books d)).
  - eapply unlink_plain; [apply plain_staged_order|exact Hs1|by apply Hset|]. intros d Hd. by split; [apply Hset|].
  - intros [] s2 Hs2. by eapply end_clean.
Qed.

Lemma replace_publication_order_ok G L v order s :
  clean G L v (disk s) → leaves (settles v) (replace_publication_order order) (λ _, clean G L v) (settles v) s.
Proof.
  intros (p & Hs & Hp). assert (∀ d, stage G L p no_books d → settles v d) as Hset by (intros d Hd; by eapply settles_clean).
  unfold replace_publication_order. eapply (leaves_bind _ _ _ (λ _ d, stage G L p no_books d)).
  { eapply write_plain; [apply plain_staged_order|exact Hs|]. intros d Hd. by pose proof (Hset d Hd). }
  intros [] s1 Hs1. eapply (leaves_bind _ _ _ (λ _ d, stage G L p no_books d)).
  - eapply rename_plain; [apply plain_staged_order|apply plain_order|exact Hs1|by apply Hset|]. intros d Hd.
    by split; [apply Hset|].
  - intros [] s2 Hs2. by eapply end_clean.
Qed.

(** ** The pointer, read back *)

Lemma resolve_clean G L v d :
  clean G L v d → resolve_current digest_hex d = match v with Some a => Ok a | None => Err absent_current end.
Proof.
  intros (p & Hd & Hp). unfold resolve_current. change (d_root d !! str_bytes (lit "current")) with (pointer d).
  rewrite (st_pointer _ _ _ _ _ Hd). destruct v as [a|].
  - destruct Hp as [(q & -> & Ha) Hg]. cbn [read_entry rbind].
    rewrite (proj2 (parse_pointer_record_Ok (str_bytes (a ++ [10%N])) (lit "current") a)) by done. cbn [gen_text map_err rbind].
    apply (good_known _ _ _ _ (st_generations _ _ _ _ _ Hd)) in Hg as [_ Hg]. unfold valid in Hg. by rewrite Hg.
  - by rewrite Hp.
Qed.

Lemma validate_current_or_pristine_ok G L v s :
  clean G L v (disk s) →
  leaves (settles v) (validate_current_or_pristine digest_hex)
    (λ b d, clean G L v d ∧ b = bool_decide (is_Some v)) (settles v) s.
Proof.
  intros Hs. apply leaves_reads; [by eapply clean_settles|]. intros b. rewrite (resolve_clean _ _ _ _ Hs). destruct v as [a|].
  - intros [= <-]. by split.
  - rewrite decide_True by done. rewrite rbind_Ok. intros (? & _ & [= <-]). by split.
Qed.

(** ** A fresh identifier *)

Lemma random_generation_id_ok (I R : Disk → Prop) d s :
  disk s = d → R d → leaves I random_generation_id (λ g d', d' = d ∧ lower_hex_32 g = true) R s.
Proof.
  intros Hs HR. unfold random_generation_id. apply leaves_getS. destruct (random s) as [|r rest]; [apply leaves_raise; congruence|].
  apply (leaves_bind _ _ _ (λ _ d', d' = d)). { by split; [apply grew_same|exact Hs]. }
  intros [] s1 Hs1. destruct r as [bytes|e]; [|apply leaves_raise; congruence].
  apply leaves_of_result; [congruence|]. intros g Hg%gen_text_Ok. split; [congruence|]. by apply GenerationId_parse_Ok in Hg as [_ ?].
Qed.

Lemma fresh_generation_ok (I R : Disk → Prop) tries order d s :
  disk s = d → R d →
  leaves I (fresh_generation tries order)
    (λ g d', d' = d ∧ lower_hex_32 g = true ∧ d_generations d !! str_bytes g = None) R s.
Proof.
  intros Hs HR. revert s Hs. induction tries as [|tries IH]; intros s Hs; cbn [fresh_generation]; [apply leaves_raise; congruence|].
  eapply leaves_bind; [by apply (random_generation_id_ok _ _ d)|]. intros g s1 [Hs1 Hg]. case_bool_decide; [by apply IH|].
  apply (leaves_bind _ _ _ (λ b d', d' = d ∧ b = bool_decide (is_Some (d_generations d !! str_bytes g)))).
  { apply leaves_reads; [congruence|]. intros b [= <-]. by rewrite Hs1. }
  intros b s2 [Hs2 ->]. case_bool_decide as Hn; [by apply IH|]. apply leaves_ret. split; [done|]. split; [done|].
  destruct (d_generations d !! str_bytes g) eqn:E; [|done]. by destruct Hn.
Qed.

(** ** Publication *)

(** A new tree under its final name: it is valid, and the others are what they were. *)
Lemma good_published p g t G :
  publication_wf p → lower_hex_32 g = true → holds_files (generation_files digest_hex p g) t →
  G !! str_bytes g = Some (Tree t) → good G g.
Proof.
  intros Hp Hg Ht E. split; [done|]. unfold valid, validate_generation, open_validated_generation. cbn [d_generations].
  rewrite E, (published_tree_valid digest_hex digests_are_hex p g t Hp Hg Ht). done.
Qed.

Lemma clean_alike G L L' v d0 d :
  clean G L v d0 → alike d0 d → d_leases d = L' → clean (d_generations d) L' v d.
Proof.
  intros (p & Hd0 & Hp) Hd HL. exists p. split.
  - split; [done|done|by rewrite (al_pointer _ _ Hd), (st_pointer _ _ _ _ _ Hd0)|by rewrite (al_book _ _ Hd), (st_book _ _ _ _ _ Hd0)].
  - rewrite <-(st_pointer _ _ _ _ _ Hd0), <-(al_pointer _ _ Hd). eapply points_alike; [exact Hd|].
    by rewrite (st_pointer _ _ _ _ _ Hd0), (st_generations _ _ _ _ _ Hd0).
Qed.

Lemma good_present G g : good G g → is_Some (G !! str_bytes g).
Proof.
  intros [_ Hg]. unfold valid, validate_generation, open_validated_generation in Hg. cbn [d_generations] in Hg.
  destruct (G !! str_bytes g); [done|discriminate].
Qed.

Lemma clean_other G L v d g : clean G L v d → G !! str_bytes g = None → v ≠ Some g.
Proof. intros (p & _ & Hp) Hg ->. destruct Hp as [_ [e He]%good_present]. congruence. Qed.

(** The tree is built and sealed under its staging name. *)
Lemma write_generation_settles (p : GenerationPublication) (g : GenerationId) (v : option GenerationId) (G L : gmap (list N) Entry) s :
  lower_hex_32 g = true → clean G L v (disk s) →
  let n : list N := str_bytes (lit ".staging-" ++ g) in
  leaves (settles v) (write_generation digest_hex p g n)
    (λ _ d, ∃ (G1 : gmap (list N) Entry) t, clean G1 L v d ∧ holds_files (generation_files digest_hex p g) t ∧ G1 !! n = Some (Tree t)
       ∧ (∀ m, m ≠ n → G1 !! m = G !! m)) (settles v) s.
Proof.
  intros Hg Hs n. pose proof (clean_settles _ _ _ _ _ Hs) as Hv. pose proof Hs as (q & Hst & _).
  assert (∀ d, aside n (disk s) d → alike (disk s) d) as Hal.
  { intros d. apply aside_alike. intros g' Hg'. by apply staging_other. }
  assert (∀ d, aside n (disk s) d → settles v d) as Hset by (intros d Hd; eapply settles_alike; [by apply Hal|done]).
  eapply leaves_inv; [|exact Hset]. eapply leaves_mono; [apply write_generation_ok, aside_refl| |exact Hset].
  intros [] d (t & [Ha Ht] & Hf & _). exists (d_generations d), t. destruct (Hal d Ha) as [? ? ?], Ha as (_ & HL & Hm).
  split_and!; [|done|done|].
  - eapply clean_alike; [exact Hs|done|]. by rewrite HL, (st_leases _ _ _ _ _ Hst).
  - intros m Hne. by rewrite Hm, (st_generations _ _ _ _ _ Hst).
Qed.

(** The rename that gives the tree its final name. *)
Lemma name_generation_settles (p : GenerationPublication) (g : GenerationId) (t : tree) (v : option GenerationId) (G G1 L : gmap (list N) Entry) s :
  publication_wf p → lower_hex_32 g = true → G !! str_bytes g = None → v ≠ Some g →
  holds_files (generation_files digest_hex p g) t →
  let n := str_bytes (lit ".staging-" ++ g) in
  G1 !! n = Some (Tree t) → (∀ m, m ≠ n → G1 !! m = G !! m) → clean G1 L v (disk s) →
  leaves (settles v) (on_generations (dir_rename n (str_bytes g)))
    (λ _ d, ∃ G2, clean G2 L v d ∧ good G2 g) (settles v) s.
Proof.
  intros Hp Hg Hfree Hne Hf n Ht Hm Hs. pose proof (clean_settles _ _ _ _ _ Hs) as Hv. pose proof Hs as (q & Hst & Hq).
  apply leaves_change; [done|]. intros d Hd. rewrite (st_generations _ _ _ _ _ Hst) in Hd. unfold dir_rename in Hd.
  rewrite Ht in Hd. injection Hd as <-. set (G2 := <[str_bytes g := Tree t]> (delete n G1)).
  assert (good G2 g) as Hgood. { eapply good_published; [done..|]. apply lookup_insert_eq. }
  assert (clean G2 L v (disk s <| d_generations := G2 |>)) as Hcl.
  { exists q. destruct Hst as [? ? Hq1 Hq2]. split; [done|]. destruct v as [a|]; [|done]. destruct Hq as [? Ha]. split; [done|].
    eapply good_entry; [|exact Ha]. unfold G2. pose proof (proj1 Ha) as Hhex. rewrite lookup_insert_ne, lookup_delete_ne; [done|..].
    - intros E. by apply (staging_other a g Hhex).
    - intros E. apply Hne. f_equal. by apply hex_bytes_inj. }
  split; [by eapply clean_settles|by exists G2].
Qed.

Definition publish_tail (g : GenerationId) (had_current : bool) : gen_m GenerationPublicationOutcome :=
  if had_current then commit_existing_pointer_locked g else commit_pristine g.

Lemma publish_tail_eq g (had_current : bool) :
  publish_tail g had_current =
  (let pointer_staging := lit ".current-" ++ g in
   let absent_marker := lit ".absent-" ++ g in
   _ ← write_root_file (str_bytes pointer_staging) (str_bytes (g ++ [10%N]));
   if had_current then
    _ ← sync_root;
    _ ← exchange_root pointer_staging (lit "current");
    commit_pointer g (_ ← exchange_root pointer_staging (lit "current"); sync_root) pointer_staging
   else
    _ ← write_root_file (str_bytes absent_marker) [];
    _ ← sync_root;
    _ ← rename_root pointer_staging (lit "current");
    commit_pointer g
      (_ ← rename_root (lit "current") pointer_staging; _ ← unlink_root absent_marker; sync_root) absent_marker).
Proof. by destruct had_current. Qed.

(** A commit of [g] where [v] was. *)
Definition commits (v : option GenerationId) (g : GenerationId) (m : gen_m GenerationPublicationOutcome) (s : Fs) : Prop :=
  leaves (fate digest_hex v g) m (outcome_ok v g) (λ d, settles v d ∨ torn d) s.

Lemma commits_step {A} v g (m : gen_m A) (k : A → gen_m GenerationPublicationOutcome) (Q : A → Disk → Prop) s :
  leaves (settles v) m Q (settles v) s → (∀ a s', Q a (disk s') → commits v g (k a) s') → commits v g (a ← m; k a) s.
Proof.
  intros Hm Hk. eapply leaves_bind; [|exact Hk]. eapply leaves_inv; [eapply leaves_mono; [exact Hm|done|by left]|by left].
Qed.

Lemma publish_tail_ok v g G L s :
  good G g → v ≠ Some g → clean G L v (disk s) → commits v g (publish_tail g (bool_decide (is_Some v))) s.
Proof.
  intros Hg Hne (p & Hs & Hp). destruct v as [a|]; cbn.
  - eapply commit_existing_ok; [done|done|congruence|done].
  - cbn in Hp. subst p. by eapply commit_pristine_ok.
Qed.

Lemma publish_generation_locked_ok p g order v G L s :
  publication_wf p → lower_hex_32 g = true → G !! str_bytes g = None → clean G L v (disk s) →
  commits v g (publish_generation_locked digest_hex p g order (bool_decide (is_Some v))) s.
Proof.
  intros Hp Hg Hfree Hs. pose proof (clean_other _ _ _ _ _ Hs Hfree) as Hne. unfold publish_generation_locked. cbv zeta.
  eapply commits_step; [by apply (write_generation_settles p g v G L)|]. intros [] s1 (G1 & t & Hs1 & Hf & Ht & Hm).
  eapply commits_step; [by apply (replace_publication_order_ok G1 L v)|]. intros [] s2 Hs2.
  eapply commits_step; [by apply (name_generation_settles p g t v G G1 L)|]. intros [] s3 (G2 & Hs3 & Hgood).
  eapply (commits_step _ _ _ _ (λ _, clean G2 L v)); [apply leaves_syscall; [done|by eapply clean_settles]|]. intros [] s4 Hs4.
  rewrite <-(publish_tail_eq g (bool_decide (is_Some v))). by eapply publish_tail_ok.
Qed.
End publish.
