(* ===== verification/GenCalls.v ===== *)
(** * The generation store: its operations, one by one

    Every operation takes the lock, inspects the pointer and its journals, and does its
    work.  From a store that settles on [v], what it leaves on the way and at the end. *)

From Stdlib Require Import ZArith Lia.
From stdpp Require Import prelude list gmap sorting.
From S2P Require Import Prelude Authority Hoare Utf8 Ipc Text GenRecords GenFormats GenStore GenJournals GenSteps GenTrees GenProtocol GenCommits GenRecovery GenPublish.

#[local] Arguments lit : simpl never.

(** What the caller renders is built by [GenerationPublication_new]. *)
Definition captured (capture : result GenerationPublication rstring) : Prop :=
  ∀ p, capture = Ok p →
    ∃ digests os, length digests = length digest_fields ∧ GenerationPublication_new digests os = Ok p.

Section calls.
Variable digest_hex : list N → rstring.
Variable own_uid : N.
Variable liveness : LeaseRecord → LeaseLiveness.
Hypothesis digests_are_hex : ∀ b, sha256_digest (digest_hex b) = true.

Abbreviation settles := (settles digest_hex).
Abbreviation good := (good digest_hex).
Abbreviation points := (points digest_hex).
Abbreviation clean := (clean digest_hex).
Abbreviation outcome_ok := (outcome_ok digest_hex).

(** The generations a publication may create in a store. *)
Definition fresh (d0 : Disk) (g : GenerationId) : Prop := lower_hex_32 g = true ∧ d_generations d0 !! str_bytes g = None.

(** A commit of one of [T], where [v] was. *)
Definition moves (T : GenerationId → Prop) (v : option GenerationId) (d : Disk) : Prop :=
  settles v d ∨ torn d ∨ ∃ g, T g ∧ settles (Some g) d.

Definition reaches (T : GenerationId → Prop) (v : option GenerationId) (o : GenerationPublicationOutcome) (d : Disk) : Prop :=
  ∃ g, T g ∧ outcome_ok v g o d.

Definition unmoved (v : option GenerationId) (d : Disk) : Prop := settles v d ∨ torn d.

Definition commits_one (T : GenerationId → Prop) (v : option GenerationId) (m : gen_m GenerationPublicationOutcome) (s : Fs) : Prop :=
  leaves (moves T v) m (reaches T v) (unmoved v) s.

Lemma commits_one_step {A} T v (m : gen_m A) (k : A → gen_m GenerationPublicationOutcome) (Q : A → Disk → Prop) s :
  leaves (settles v) m Q (settles v) s → (∀ a s', Q a (disk s') → commits_one T v (k a) s') → commits_one T v (a ← m; k a) s.
Proof.
  intros Hm Hk. eapply leaves_bind; [|exact Hk]. eapply leaves_inv; [eapply leaves_mono; [exact Hm|done|by left]|by left].
Qed.

Lemma commits_one_of (T : GenerationId → Prop) v g m s : T g → commits digest_hex v g m s → commits_one T v m s.
Proof.
  intros Hg Hm. eapply leaves_inv; [eapply leaves_mono; [exact Hm|by exists g|done]|].
  intros d [Hd|[Hd|Hd]]; [by left|right; right; by exists g|right; by left].
Qed.

Lemma commits_one_failed {A} T v (r : result A GenError) (k : A → gen_m GenerationPublicationOutcome) s :
  settles v (disk s) → (∀ a, r = Ok a → commits_one T v (k a) s) → commits_one T v (a ← of_result r; k a) s.
Proof. intros Hs Hk. destruct r as [a|e]; [by apply (Hk a)|]. by apply leaves_raise; left. Qed.

(** The inspection every operation starts with. *)
Lemma inspected {A} (I R : Disk → Prop) (k : PointerJournalInventory → gen_m A) (Q : A → Disk → Prop) v s :
  settles v (disk s) → R (disk s) →
  (∀ st c s', disk s' = disk s → shape digest_hex (disk s') st c v → leaves I (k (mk_inventory c st)) Q R s') →
  leaves I (_ ← syscall; inventory ← reading (inspect_pointer_journals digest_hex); k inventory) Q R s.
Proof.
  intros (st & c & Hs) HR Hk. eapply (leaves_bind _ _ _ (λ _ d, d = disk s)); [by apply leaves_syscall|]. intros [] s1 Hs1.
  eapply (leaves_bind _ _ _ (λ inv d, d = disk s ∧ inv = mk_inventory c st)).
  - apply leaves_reading; [by rewrite Hs1|apply inspect_never_panics|]. intros inv. rewrite Hs1, (inspect_of_shape _ _ _ _ _ Hs).
    by intros [= <-].
  - intros inv s2 [Hs2 ->]. apply Hk; [done|]. by rewrite Hs2.
Qed.

Lemma publish_allocated_locked_ok p order v G L s :
  publication_wf p → clean G L v (disk s) →
  commits_one (λ g, lower_hex_32 g = true ∧ G !! str_bytes g = None) v
    (publish_allocated_locked digest_hex p (bool_decide (is_Some v)) order) s.
Proof.
  intros Hp Hs. pose proof (clean_settles _ _ _ _ _ Hs) as Hv. unfold publish_allocated_locked.
  apply commits_one_failed; [done|]. intros [n o] _.
  eapply commits_one_step; [by apply (replace_publication_order_ok digest_hex G L v)|]. intros [] s1 Hs1.
  pose proof (clean_settles _ _ _ _ _ Hs1) as Hv1.
  eapply commits_one_step; [by apply (fresh_generation_ok _ _ 64 o (disk s1))|]. intros g s2 (Hs2 & Hg & Hfree). rewrite <-Hs2 in *.
  apply commits_one_failed; [done|]. intros [] _. cbv zeta.
  pose proof Hs1 as (q & Hst & _). rewrite (st_generations _ _ _ _ _ Hst) in Hfree.
  apply (commits_one_of _ v g); [done|]. by eapply publish_generation_locked_ok.
Qed.

Lemma captured_wf capture p : captured capture → capture = Ok p → publication_wf p.
Proof. intros Hc (ds & os & Hl & Hn)%Hc. by eapply GenerationPublication_new_wf. Qed.

Lemma commits_one_mono (T T' : GenerationId → Prop) v m s : (∀ g, T g → T' g) → commits_one T v m s → commits_one T' v m s.
Proof.
  intros HT Hm. eapply leaves_inv; [eapply leaves_mono; [exact Hm| |done]|].
  - intros o d (g & Hg & Ho). exists g. split; [by apply HT|done].
  - intros d [H|[H|(g & Hg & H)]]; [by left|by right; left|]. right; right. exists g. split; [by apply HT|done].
Qed.

(** The cleaning that publication and recovery start with. *)
Lemma clean_up {A} (I R : Disk → Prop) (k : unit → gen_m A) (Q : A → Disk → Prop) st c v s :
  shape digest_hex (disk s) st c v → (∀ d, settles v d → I d) → (∀ d, settles v d → R d) →
  (∀ s' G L, clean G L v (disk s') → (∀ g, lower_hex_32 g = true → G !! str_bytes g = d_generations (disk s) !! str_bytes g) →
     leaves I (k tt) Q R s') →
  leaves I (_ ← clean_staging; u ← clean_pointer_staging (mk_inventory c st); k u) Q R s.
Proof.
  intros Hsh HI HR Hk. assert (settles v (disk s)) as Hv by by exists st, c.
  assert (∀ d, alike (disk s) d → settles v d) as Hset by (intros d Hal; by eapply settles_alike).
  eapply leaves_bind; [eapply leaves_inv; [eapply leaves_mono; [apply (clean_staging_ok s (disk s)), alike_refl|done|]|]|].
  { intros d Hal. by apply HR, Hset. } { intros d Hal. by apply HI, Hset. }
  intros [] s2 Hal. eapply leaves_bind.
  { eapply leaves_inv; [|exact HI]. eapply leaves_mono;
      [apply (clean_pointer_staging_ok digest_hex st c v s2 (d_generations (disk s2)) (d_leases (disk s2)));
         [by eapply shape_alike|done|done]|done|exact HR]. }
  intros [] s3 Hs3. eapply Hk; [exact Hs3|]. intros g Hg. by apply Hal.
Qed.

(** Reads between the steps of a commit. *)
Lemma commits_one_reads {A} T v (f : Disk → result A GenError) (k : A → gen_m GenerationPublicationOutcome) G L s :
  clean G L v (disk s) → (∀ a s', clean G L v (disk s') → commits_one T v (k a) s') → commits_one T v (a ← reads f; k a) s.
Proof.
  intros Hs Hk. eapply (commits_one_step _ _ _ _ (λ _, clean G L v)); [|exact Hk]. apply leaves_reads; [by eapply clean_settles|done].
Qed.

Lemma publish_ok capture v s :
  captured capture → settles v (disk s) → commits_one (fresh (disk s)) v (publish digest_hex capture) s.
Proof.
  intros Hc Hs. unfold publish. apply (inspected _ _ _ _ v); [done|by left|]. intros st c s1 Hd Hsh.
  apply (clean_up _ _ _ _ st c v); [done|by left|by left|]. intros s3 G L Hs3 HG.
  eapply commits_one_step; [by eapply clean_publication_order_staging_ok|]. intros [] s4 Hs4.
  eapply commits_one_step; [by eapply validate_current_or_pristine_ok|]. intros b s5 [Hs5 ->].
  eapply commits_one_reads; [exact Hs5|]. intros order s6 Hs6.
  eapply commits_one_reads; [exact Hs6|]. intros [] s7 Hs7. apply commits_one_failed; [by eapply clean_settles|].
  intros p Hp%gen_text_Ok.
  apply (commits_one_mono (λ g, lower_hex_32 g = true ∧ G !! str_bytes g = None)).
  { intros g [Hg Hn]. split; [done|]. by rewrite <-Hd, <-HG. }
  eapply publish_allocated_locked_ok; [by eapply captured_wf|exact Hs7].
Qed.

(** A current generation is kept; in a pristine store one is published. *)
Lemma ensure_current_ok capture v s :
  captured capture → settles v (disk s) →
  leaves (moves (fresh (disk s)) v) (ensure_current digest_hex capture)
    (λ o d, (∃ g, v = Some g ∧ o = Committed g ∧ d = disk s) ∨ v = None ∧ reaches (fresh (disk s)) v o d) (unmoved v) s.
Proof.
  intros Hc Hs. apply (inspected _ _ _ _ v); [done|by left|]. intros st c s1 Hd Hsh. cbn [in_state in_current].
  assert (settles v (disk s1)) as Hv by by exists st, c.
  eapply (leaves_bind _ _ _ (λ _ d, d = disk s1 ∧ settled st = true)).
  { apply leaves_of_result; [by left|]. intros [] Hset. split; [done|]. by destruct (settled st). }
  intros [] s2 [Hs2 Hset]. destruct c as [current|].
  - assert (v = Some current) as -> by (inversion Hsh; subst; done).
    eapply (leaves_bind _ _ _ (λ _ d, d = disk s1)); [apply leaves_reads; [rewrite Hs2; by left|done]|].
    intros [] s3 Hs3. apply leaves_ret. left. exists current. split; [done|]. split; [done|congruence].
  - eapply (leaves_bind _ _ _ (λ _ d, d = disk s1 ∧ st = Clean)).
    { apply leaves_of_result; [rewrite Hs2; by left|]. intros [] Hst. split; [done|]. by destruct st. }
    intros [] s3 [Hs3 ->].
    assert (v = None ∧ clean (d_generations (disk s1)) (d_leases (disk s1)) None (disk s3)) as [-> Hcl].
    { inversion Hsh as [w Hj Hp| | | | |]; subst. split; [done|]. rewrite Hs3. apply book_journals in Hj. exists None.
      pose proof (stage_here (disk s1)) as Hh. rewrite Hj, Hp in Hh. done. }
    assert (fresh (disk s) = λ g, lower_hex_32 g = true ∧ d_generations (disk s1) !! str_bytes g = None) as Hfr by by rewrite Hd.
    eapply leaves_mono; [|intros o d Ho; right; split; [done|exact Ho]|done].
    change (commits_one (fresh (disk s)) None (_ ← validate_pristine_bootstrap_state; order ← load_publication_order;
      p ← of_result (gen_text capture); publish_allocated_locked digest_hex p (bool_decide (is_Some (None : option GenerationId))) order) s3).
    rewrite Hfr. eapply (commits_one_step _ _ _ _ (λ _, clean (d_generations (disk s1)) (d_leases (disk s1)) None)).
    { unfold validate_pristine_bootstrap_state. eapply (leaves_bind _ _ _ (λ _, clean (d_generations (disk s1)) (d_leases (disk s1)) None));
        [apply leaves_reads; [by eapply clean_settles|done]|]. intros [] s4 Hs4.
      eapply (leaves_bind _ _ _ (λ _, clean (d_generations (disk s1)) (d_leases (disk s1)) None));
        [apply leaves_reads; [by eapply clean_settles|done]|]. intros order s5 Hs5.
      apply leaves_of_result; [by eapply clean_settles|done]. }
    intros [] s4 Hs4. eapply commits_one_reads; [exact Hs4|]. intros order s5 Hs5.
    apply commits_one_failed; [by eapply clean_settles|]. intros p Hp%gen_text_Ok.
    eapply publish_allocated_locked_ok; [by eapply captured_wf|exact Hs5].
Qed.

(** A retained generation that was asked for. *)
Lemma rollback_ok g v s :
  lower_hex_32 g = true → settles v (disk s) →
  leaves (moves (eq g) v) (rollback digest_hex g)
    (λ o d, ∃ a, v = Some a ∧ outcome_ok v g o d) (unmoved v) s.
Proof.
  intros Hg Hs. apply (inspected _ _ _ _ v); [done|by left|]. intros st c s1 Hd Hsh.
  assert (settles v (disk s1)) as Hv by by exists st, c.
  eapply (leaves_bind _ _ _ (λ _ d, d = disk s1 ∧ valid digest_hex (disk s1) g)).
  { apply leaves_reads; [by left|]. intros [] Hval. done. }
  intros [] s2 [Hs2 Hval]. rewrite <-Hs2 in Hsh, Hval.
  assert (good (d_generations (disk s2)) g) as Hgood by by apply (good_known _ _ (disk s2)).
  eapply leaves_bind.
  { eapply leaves_inv; [eapply leaves_mono; [by apply (clean_pointer_staging_ok digest_hex st c v s2 (d_generations (disk s2)) (d_leases (disk s2)) Hsh)|done|by left]|by left]. }
  intros [] s3 Hs3. eapply (leaves_bind _ _ _ (λ a d, clean (d_generations (disk s2)) (d_leases (disk s2)) v d ∧ v = Some a)).
  { apply leaves_reads; [left; by eapply clean_settles|]. intros a Ha. rewrite (resolve_clean _ _ _ _ _ Hs3) in Ha. split; [done|].
    destruct v; [by injection Ha as ->|done]. }
  intros a s4 [(p & Hs4 & Hp) ->]. case_decide as Hag.
  - subst a. apply leaves_ret. exists g. split; [done|]. split; [done|]. split; [by eapply settles_clean|apply Hs4].
  - eapply leaves_inv; [eapply leaves_mono; [by eapply (commit_existing_ok digest_hex _ _ p a g s4)| |done]|].
    + intros o d Ho. by exists a.
    + intros d [H|[H|H]]; [by left|right; right; by exists g|by right; left].
Qed.

(** Recovery, where nothing fails, leaves no journal. *)
Lemma recover_ok v s :
  settles v (disk s) →
  leaves (settles v) (recover digest_hex)
    (λ g d, v = Some g ∧ clean (d_generations d) (d_leases d) v d) (settles v) s.
Proof.
  intros Hs. unfold recover. apply (inspected _ _ _ _ v); [exact Hs|exact Hs|]. intros st c s1 Hd Hsh.
  apply (clean_up _ _ _ _ st c v); [done..|]. intros s3 G L Hs3 HG.
  apply leaves_reads; [by eapply clean_settles|]. intros a Ha. rewrite (resolve_clean _ _ _ _ _ Hs3) in Ha.
  destruct v; [|done]. injection Ha as ->. split; [done|]. pose proof Hs3 as (p & [-> -> _ _] & _). done.
Qed.
End calls.
