(* ===== verification/GenCalm.v ===== *)
(** * The generation store: recovery that nothing disturbs

    When no system call fails, recovery ends, and answers the generation the store
    settles on. *)

From Stdlib Require Import ZArith Lia.
From stdpp Require Import prelude list gmap sorting.
From S2P Require Import Prelude Authority Hoare Utf8 Ipc Text GenRecords GenFormats GenStore GenJournals GenSteps GenTrees GenProtocol GenCommits GenRecovery GenPublish GenCalls.

#[local] Arguments lit : simpl never.

(** No system call fails from here on. *)
Definition calm (s : Fs) : Prop := Forall (eq None) (faults s).

Definition goes {A} (m : gen_m A) (Q : A → Disk → Prop) (s : Fs) : Prop :=
  ∃ a s', m s = (Ok a, s') ∧ calm s' ∧ Q a (disk s').

Lemma goes_mono {A} (m : gen_m A) (Q Q' : A → Disk → Prop) s : goes m Q s → (∀ a d, Q a d → Q' a d) → goes m Q' s.
Proof. intros (a & s' & E & Hc & HQ) H. exists a, s'. split; [done|]. split; [done|]. by apply H. Qed.

Lemma goes_ret {A} (a : A) (Q : A → Disk → Prop) s : calm s → Q a (disk s) → goes (mret a) Q s.
Proof. intros Hc HQ. by exists a, s. Qed.

Lemma goes_bind {A B} (m : gen_m A) (k : A → gen_m B) (Q : A → Disk → Prop) (Q' : B → Disk → Prop) s :
  goes m Q s → (∀ a s', calm s' → Q a (disk s') → goes (k a) Q' s') → goes (a ← m; k a) Q' s.
Proof.
  intros (a & s' & E & Hc & HQ) Hk. destruct (Hk a s' Hc HQ) as (b & s'' & E' & Hc' & HQ'). exists b, s''.
  unfold mbind, stm_bind. by rewrite E.
Qed.

Lemma goes_fault (Q : option Fault → Disk → Prop) s : calm s → Q None (disk s) → goes next_fault Q s.
Proof.
  unfold calm. intros Hc HQ. unfold next_fault, goes. destruct (faults s) as [|f fs] eqn:E.
  - exists None, s. split; [done|]. split; [|done]. unfold calm. by rewrite E.
  - apply Forall_cons in Hc as [<- Hc]. by eexists None, _.
Qed.

Lemma goes_syscall (Q : unit → Disk → Prop) s : calm s → Q tt (disk s) → goes syscall Q s.
Proof.
  intros Hc HQ. eapply goes_bind; [apply (goes_fault (λ f d, f = None ∧ d = disk s)); [done|done]|].
  intros f s' Hc' [-> Hd]. apply goes_ret; [done|]. by rewrite Hd.
Qed.

Lemma goes_change (f : Disk → result Disk GenError) d (Q : unit → Disk → Prop) s :
  calm s → f (disk s) = Ok d → Q tt d → goes (change f) Q s.
Proof.
  intros Hc Hf HQ. eapply goes_bind; [apply (goes_syscall (λ _ d', d' = disk s)); done|]. intros [] s' Hc' Hd.
  exists tt, (s' <| disk := d |> <| trail := trail s' ++ [d] |>). cbn. unfold getS, mbind, stm_bind. rewrite Hd, Hf. done.
Qed.

Lemma goes_reading {A} (f : Disk → result A (failure GenError)) a (Q : A → Disk → Prop) s :
  calm s → f (disk s) = Ok a → Q a (disk s) → goes (reading f) Q s.
Proof.
  intros Hc Hf HQ. eapply goes_bind; [apply (goes_syscall (λ _ d', d' = disk s)); done|]. intros [] s' Hc' Hd.
  exists a, s'. unfold getS, mbind, stm_bind, of_failure. rewrite Hd, Hf. done.
Qed.

Lemma goes_reads {A} (f : Disk → result A GenError) a (Q : A → Disk → Prop) s :
  calm s → f (disk s) = Ok a → Q a (disk s) → goes (reads f) Q s.
Proof. intros Hc Hf HQ. eapply goes_reading; [done| |exact HQ]. by rewrite Hf. Qed.

(** What a method leaves, when it gets to its end. *)
Lemma goes_leaves {A} I (m : gen_m A) (Q R : _) s :
  leaves I m Q R s → goes m (λ _ _, True) s → goes m Q s.
Proof.
  intros Hm (a & s' & E & Hc & _). unfold leaves, wp in Hm. rewrite E in Hm. exists a, s'. by destruct Hm.
Qed.

Lemma goes_root f r s : calm s → f (d_root (disk s)) = Ok r → goes (on_root f) (λ _ _, True) s.
Proof. intros Hc Hf. eapply goes_change; [done|by rewrite Hf|done]. Qed.

Section calls.
Context (G L : gmap (list N) Entry).

Lemma goes_unlink k g e p b s :
  calm s → stage G L p b (disk s) → entry_of k g b = Some e →
  goes (unlink_root (journal_name k g)) (λ _, stage G L p (on_book k (delete (journal k g)) b)) s.
Proof.
  intros Hc Hs He. eapply (goes_leaves (λ _, True)).
  - by eapply (unlink_journal _ (λ _, True) G L k g p b).
  - rewrite <-(stage_entry _ _ _ _ _ k g Hs) in He. eapply goes_root; [done|]. unfold dir_unlink.
    change (str_bytes (journal_name k g)) with (journal k g). by rewrite He.
Qed.

Lemma goes_rename_to k g e p b s :
  calm s → stage G L p b (disk s) → entry_of k g b = Some e →
  goes (rename_root (journal_name k g) (lit "current")) (λ _, stage G L (Some e) (on_book k (delete (journal k g)) b)) s.
Proof.
  intros Hc Hs He. eapply (goes_leaves (λ _, True)).
  - by eapply (rename_to_pointer _ (λ _, True) G L k g e p b).
  - rewrite <-(stage_entry _ _ _ _ _ k g Hs) in He. eapply goes_root; [done|]. unfold dir_rename.
    change (str_bytes (journal_name k g)) with (journal k g). by rewrite He.
Qed.

Lemma goes_rename_from k g e b s :
  calm s → stage G L (Some e) b (disk s) →
  goes (rename_root (lit "current") (journal_name k g)) (λ _, stage G L None (on_book k <[journal k g := e]> b)) s.
Proof.
  intros Hc Hs. eapply (goes_leaves (λ _, True)).
  - by eapply (rename_from_pointer _ (λ _, True) G L k g e b).
  - pose proof (st_pointer _ _ _ _ _ Hs) as He. eapply goes_root; [done|]. unfold dir_rename.
    change (d_root (disk s) !! str_bytes (lit "current")) with (pointer (disk s)). by rewrite He.
Qed.
End calls.

(** ** Staging trees *)

Lemma goes_remove_entries n ps t d s :
  calm s → has_tree n d t (disk s) →
  goes (remove_entries n ps t) (λ _ d', ∃ t', has_tree n d t' d') s.
Proof.
  intros Hc. assert (∀ t' s', calm s' → has_tree n d t' (disk s') →
    goes (remove_entries n ps t) (λ _ d', ∃ t', has_tree n d t' d') s') as H; [|by apply H].
  induction ps as [|p ps IH]; intros t' s' Hc' Ht; cbn [remove_entries]; [by apply goes_ret; [|exists t']|].
  eapply (goes_bind _ _ (λ _, has_tree n d t')). { case_decide; [by apply goes_syscall|by apply goes_ret]. }
  intros [] s1 Hc1 Ht1. eapply (goes_bind _ _ (λ _, has_tree n d (delete p t'))).
  - eapply goes_change; [done|by rewrite (proj2 Ht1)|]. split; [apply aside_insert, Ht1|]. cbn. by rewrite lookup_insert_eq.
  - intros [] s2 Hc2 Ht2. by eapply IH.
Qed.

Lemma goes_unlink_generation n d0 s :
  calm s → aside n d0 (disk s) → is_Some (d_generations (disk s) !! n) →
  goes (on_generations (dir_unlink n)) (λ _ d, aside n d0 d) s.
Proof.
  intros Hc Ha [e He]. eapply goes_change; [done|by unfold dir_unlink; rewrite He|]. by apply aside_delete.
Qed.

Lemma goes_remove_tree n s :
  calm s → is_Some (d_generations (disk s) !! n) → goes (remove_tree_at n) (λ _, aside n (disk s)) s.
Proof.
  intros Hc Hn. pose proof (aside_refl n (disk s)) as Ha. unfold remove_tree_at.
  eapply (goes_bind _ _ (λ e d, d = disk s ∧ e = d_generations d !! n)); [by eapply goes_reads|].
  intros e s1 Hc1 [Hd ->]. rewrite <-Hd in Hn, Ha. destruct (d_generations (disk s1) !! n) as [e|] eqn:E; [|by destruct Hn].
  assert (∀ s', calm s' → disk s' = disk s1 → goes (on_generations (dir_unlink n)) (λ _, aside n (disk s)) s') as Hun.
  { intros s' Hc' Hd'. apply goes_unlink_generation; [done|by rewrite Hd', Hd|by rewrite Hd', E]. }
  rewrite Hd in Ha. destruct e as [p b|t| |]; [by apply Hun| |by apply Hun..].
  eapply goes_bind; [apply (goes_remove_entries n _ t (disk s)); [done|by rewrite Hd in E |- *]|].
  intros [] s2 Hc2 (t2 & Ht2). eapply (goes_bind _ _ (λ _, has_tree n (disk s) t2)); [by apply goes_syscall|].
  intros [] s3 Hc3 [Ha3 Ht3]. apply goes_unlink_generation; [done|done|by rewrite Ht3].
Qed.

Lemma goes_clean_staging s : calm s → goes clean_staging (λ _, alike (disk s)) s.
Proof.
  intros Hc. eapply (goes_leaves (alike (disk s))); [apply (clean_staging_ok s (disk s)), alike_refl|]. unfold clean_staging.
  eapply (goes_bind _ _ (λ ns d, NoDup ns ∧ ∀ n, n ∈ ns → is_Some (d_generations d !! n))).
  { eapply goes_reads; [done|done|]. split.
    - apply NoDup_ListNoDup, List.NoDup_filter, NoDup_ListNoDup, NoDup_fst_map_to_list.
    - intros n Hn. apply list_elem_of_In, filter_In in Hn as [Hn%list_elem_of_In _].
      apply list_elem_of_fmap in Hn as ([n' e] & -> & He%elem_of_map_to_list). by exists e. }
  intros ns s1 Hc1 [Hnd Hns]. eapply (goes_bind _ _ (λ _ _, True)); [|intros [] s2 Hc2 _; by apply goes_syscall].
  revert s1 Hc1 Hns. induction Hnd as [|n ns Hn _ IH]; intros s1 Hc1 Hns; cbn [each]; [by apply goes_ret|].
  eapply goes_bind; [apply (goes_remove_tree n s1 Hc1), Hns; by left|]. intros [] s2 Hc2 (_ & _ & Hm). apply IH; [done|].
  intros m Hin. rewrite Hm; [apply Hns; by right|]. by intros ->.
Qed.

Section recovery.
Variable digest_hex : list N → rstring.

Abbreviation settles := (settles digest_hex).

Lemma goes_last G L k g e p s :
  calm s → stage G L p (single k g e) (disk s) → goes (_ ← unlink_root (journal_name k g); sync_root) (λ _ _, True) s.
Proof.
  intros Hc Hs. eapply goes_bind; [eapply (goes_unlink G L k g e); [done|exact Hs|apply single_entry]|].
  intros [] s1 Hc1 _. by apply goes_syscall.
Qed.

Lemma goes_discard_pristine G L g e e' s :
  calm s → stage G L None (pristine_books g e e') (disk s) →
  goes (_ ← unlink_root (journal_name KAbsent g); _ ← unlink_root (journal_name KCurrent g); sync_root) (λ _ _, True) s.
Proof.
  intros Hc Hs. eapply (goes_bind _ _ (λ _, stage G L None (single KCurrent g e))).
  - eapply goes_mono; [eapply (goes_unlink G L KAbsent g e'); [done|exact Hs|apply (lookup_singleton_eq (journal KAbsent g))]|].
    intros [] d Hd. cbn in Hd. by rewrite delete_singleton_eq in Hd.
  - intros [] s1 Hc1 Hs1. by eapply goes_last.
Qed.

Lemma goes_clean_pointer_staging st c v s :
  calm s → shape digest_hex (disk s) st c v → goes (clean_pointer_staging (mk_inventory c st)) (λ _ _, True) s.
Proof.
  intros Hc Hs. pose proof (stage_here (disk s)) as Hhere. unfold clean_pointer_staging. cbn [in_state].
  destruct Hs as [v Hj Hpt|v g q Hj Hpt Hne Hk|v g q Hj Hpt Hne Hk|g q Hj Hpt|g q q' Hj Hpt Hk|g q previous Hj Hpt Hne Hprev];
    apply book_journals in Hj; rewrite Hj in Hhere.
  - by apply goes_ret.
  - eapply (goes_last _ _ KCurrent g); [done|exact Hhere].
  - eapply goes_bind; [eapply (goes_rename_to _ _ KCurrent g); [done|exact Hhere|apply (lookup_singleton_eq (journal KCurrent g))]|].
    intros [] s1 Hc1 _. by apply goes_syscall.
  - destruct Hpt as [(q' & Hpq & Hhex) Hval]. rewrite Hpq in Hhere. rewrite replace_absent_name.
    eapply goes_bind; [by eapply (goes_rename_from _ _ KCurrent g)|]. intros [] s1 Hc1 Hs1. cbn in Hs1.
    eapply goes_bind; [by apply (goes_syscall (λ _, stage (d_generations (disk s)) (d_leases (disk s)) None
      (pristine_books g (File q' (str_bytes (g ++ [10%N]))) (File q []))))|].
    intros [] s2 Hc2 Hs2. by eapply goes_discard_pristine.
  - rewrite Hpt in Hhere. eapply goes_discard_pristine; [done|exact Hhere].
  - eapply (goes_last _ _ KCommitted g); [done|exact Hhere].
Qed.

Lemma goes_recover g s : calm s → settles (Some g) (disk s) → goes (recover digest_hex) (λ a d, a = g ∧ clean digest_hex (d_generations d) (d_leases d) (Some g) d) s.
Proof.
  intros Hc Hs. eapply goes_mono; [eapply goes_leaves; [by apply (recover_ok digest_hex (Some g) s)|]|].
  2:{ intros a d [[= ->] Hd]. done. }
  destruct Hs as (st & c & Hsh). unfold recover.
  eapply (goes_bind _ _ (λ _ d, d = disk s)); [by apply goes_syscall|]. intros [] s1 Hc1 Hd1. rewrite <-Hd1 in Hsh.
  eapply (goes_bind _ _ (λ inv d, inv = mk_inventory c st ∧ d = disk s1)).
  { eapply goes_reading; [done|by apply inspect_of_shape in Hsh|done]. }
  intros inv s2 Hc2 [-> Hd2]. rewrite <-Hd2 in Hsh. eapply goes_bind; [by apply goes_clean_staging|].
  intros [] s3 Hc3 Hal. assert (shape digest_hex (disk s3) st c (Some g)) as Hsh3 by by eapply shape_alike.
  eapply goes_bind.
  { eapply goes_leaves; [|by eapply goes_clean_pointer_staging].
    by apply (clean_pointer_staging_ok digest_hex st c (Some g) s3 (d_generations (disk s3)) (d_leases (disk s3))). }
  intros [] s4 Hc4 Hcl. eapply goes_reads; [done|by rewrite (resolve_clean _ _ _ _ _ Hcl)|done].
Qed.
End recovery.
