(* ===== verification/GenCollect.v ===== *)
(** * The generation store: leases and garbage collection

    A selection leaves a lease.  A collection removes only what nothing uses: stale
    leases, and generations that are not pointed at, not leased, and older than two others
    that are neither. *)

From Stdlib Require Import ZArith Lia.
From stdpp Require Import prelude list gmap sorting.
From S2P Require Import Prelude Authority Hoare Utf8 Ipc Text GenRecords GenFormats GenStore GenJournals GenSteps GenTrees GenProtocol GenCommits GenRecovery GenPublish GenCalls.

#[local] Arguments lit : simpl never.

(** ** Leases *)

(** Only leases are new; the ones that were there are kept. *)
Record leased (d0 d : Disk) : Prop := {
  le_root : d_root d = d_root d0;
  le_generations : d_generations d = d_generations d0;
  le_kept : ∀ n e, d_leases d0 !! n = Some e → d_leases d !! n = Some e
}.

Lemma leased_refl d : leased d d.
Proof. done. Qed.

Lemma leased_put d0 d n e : leased d0 d → d_leases d0 !! n = None → leased d0 (d <| d_leases := <[n := e]> (d_leases d) |>).
Proof.
  intros [Hr Hg Hk] Hn. split; [done..|]. intros m e' Hm. cbn. rewrite lookup_insert_ne; [by apply Hk|]. intros ->. congruence.
Qed.

Lemma leased_del d0 d n : leased d0 d → d_leases d0 !! n = None → leased d0 (d <| d_leases := delete n (d_leases d) |>).
Proof.
  intros [Hr Hg Hk] Hn. split; [done..|]. intros m e' Hm. cbn. rewrite lookup_delete_ne; [by apply Hk|]. intros ->. congruence.
Qed.

Lemma leased_alike d0 d : leased d0 d → alike d0 d.
Proof. intros [Hr Hg _]. split; [unfold pointer; by rewrite Hr|unfold book, journals; by rewrite Hr|]. intros g _. by rewrite Hg. Qed.

Lemma write_lease_file_ok n bytes d0 s :
  leased d0 (disk s) →
  leaves (leased d0) (write_lease_file n bytes)
    (λ _ d, leased d0 d ∧ d_leases d0 !! n = None ∧ d_leases d !! n = Some (File true bytes)) (leased d0) s.
Proof.
  intros Hs. unfold write_lease_file. eapply (leaves_bind _ _ _ (λ _ d, leased d0 d ∧ d_leases d0 !! n = None)).
  { apply leaves_change; [done|]. intros d Hd. unfold dir_create in Hd. destruct (d_leases (disk s) !! n) eqn:E; [done|].
    injection Hd as <-. assert (d_leases d0 !! n = None) as Hn.
    { destruct (d_leases d0 !! n) eqn:E'; [|done]. apply (le_kept _ _ Hs) in E'. congruence. }
    by split_and!; [apply leased_put..|]. }
  intros [] s1 [Hs1 Hn].
  eapply (leaves_bind _ _ _ (λ _ d, leased d0 d ∧ d_leases d0 !! n = None ∧ d_leases d !! n = Some (File true bytes))).
  - apply leaves_write_through; [done|..].
    + intros k d [= <-]. by split; apply leased_put.
    + intros d [= <-]. split; [by apply leased_put|]. split; [by apply leased_put|]. split; [done|]. cbn. apply lookup_insert_eq.
  - intros [] s2 Hs2. by apply leaves_syscall; [|apply Hs2].
Qed.

Lemma create_lease_locked_ok tries record d0 s :
  leased d0 (disk s) →
  leaves (leased d0) (create_lease_locked tries record)
    (λ n d, leased d0 d ∧ d_leases d0 !! n = None ∧ d_leases d !! n = Some (File true (LeaseRecord_encode record))) (leased d0) s.
Proof.
  revert s. induction tries as [|tries IH]; intros s Hs; cbn [create_lease_locked]; [by apply leaves_raise|].
  eapply leaves_bind; [by apply (random_generation_id_ok _ _ (disk s))|]. intros id s1 [Hs1 Hid]. rewrite <-Hs1 in Hs.
  set (n := str_bytes id). set (bytes := LeaseRecord_encode record).
  eapply (leaves_bind _ _ _ (λ r d, leased d0 d ∧ match r with
    | Ok _ => d_leases d0 !! n = None ∧ d_leases d !! n = Some (File true bytes) | Err _ => True end)).
  { apply leaves_attempt. eapply leaves_mono; [by apply write_lease_file_ok|done|done]. }
  intros [[]|e] s2 [Hs2 Hn].
  2:{ case_decide; [by apply IH|by apply leaves_raise]. }
  destruct Hn as [Hn Hb].
  eapply (leaves_bind _ _ _ (λ _ d, leased d0 d ∧ d_leases d0 !! n = None ∧ d_leases d !! n = Some (File true bytes))).
  { by apply leaves_attempt, leaves_syscall. }
  intros [[]|e] s3 (Hs3 & Hn3 & Hb3); [by apply leaves_ret|].
  eapply (leaves_bind _ _ _ (λ _, leased d0)).
  { apply leaves_attempt, leaves_change; [done|]. intros d Hd. unfold dir_unlink in Hd. rewrite Hb3 in Hd.
    injection Hd as <-. by split; apply leased_del. }
  intros _ s4 Hs4. eapply (leaves_bind _ _ _ (λ _, leased d0)); [by apply leaves_attempt, leaves_syscall|].
  intros _ s5 Hs5. by apply leaves_raise.
Qed.

(** ** The newest first *)

Lemma insert_candidate_Permutation c cs : insert_candidate c cs ≡ₚ c :: cs.
Proof. induction cs as [|c' cs IH]; cbn; [done|]. case_match; [|done]. rewrite IH. apply Permutation_swap. Qed.

Lemma sort_candidates_Permutation cs : sort_candidates cs ≡ₚ cs.
Proof. induction cs as [|c cs IH]; cbn; [done|]. by rewrite insert_candidate_Permutation, IH. Qed.

Definition newer_first (a b : N * GenerationId) : Prop := (b.1 <= a.1)%N.

Lemma insert_candidate_sorted c cs : StronglySorted newer_first cs → StronglySorted newer_first (insert_candidate c cs).
Proof.
  induction 1 as [|c' cs Hs IH Ha]; cbn; [by repeat constructor|]. destruct (N.ltb_spec c.1 c'.1) as [Hlt|Hle].
  - constructor; [done|]. rewrite insert_candidate_Permutation. constructor; [unfold newer_first; lia|done].
  - constructor; [by constructor|]. constructor; [done|]. eapply Forall_impl; [exact Ha|]. unfold newer_first. intros; lia.
Qed.

Lemma sort_candidates_sorted cs : StronglySorted newer_first (sort_candidates cs).
Proof. induction cs as [|c cs IH]; cbn; [constructor|]. by apply insert_candidate_sorted. Qed.

(** What is dropped has two others that are at least as new. *)
Lemma dropped_has_newer cs k g :
  NoDup (snd <$> cs) → (k, g) ∈ drop 2 (sort_candidates cs) →
  (k, g) ∈ cs ∧ ∃ k1 g1 k2 g2, (k1, g1) ∈ cs ∧ (k2, g2) ∈ cs ∧ g1 ≠ g2 ∧ g1 ≠ g ∧ g2 ≠ g ∧ (k <= k1)%N ∧ (k <= k2)%N.
Proof.
  intros Hnd. pose proof (sort_candidates_Permutation cs) as Hp. pose proof (sort_candidates_sorted cs) as Hs.
  rewrite <-Hp in Hnd. assert (∀ c, c ∈ sort_candidates cs → c ∈ cs) as Hin by (intros c; by rewrite Hp).
  destruct (sort_candidates cs) as [|[k1 g1] [|[k2 g2] rest]]; cbn [drop]; [by intros ?%elem_of_nil..|]. intros Hr.
  cbn in Hnd. apply NoDup_cons in Hnd as [Hn1 Hnd]. apply NoDup_cons in Hnd as [Hn2 _].
  apply StronglySorted_inv in Hs as [Hs H1]. apply StronglySorted_inv in Hs as [_ H2].
  rewrite Forall_forall in H1, H2. assert (g ∈ rest.*2) as Hg by by apply list_elem_of_fmap; exists (k, g).
  split; [apply Hin; set_solver|]. exists k1, g1, k2, g2. split; [apply Hin; set_solver|]. split; [apply Hin; set_solver|].
  split; [intros ->; apply Hn1; by left|]. split; [intros ->; apply Hn1; by right|]. split; [by intros ->|].
  split; [apply (H1 (k, g)); by right|by apply (H2 (k, g))].
Qed.

Lemma map_get_In {A} key (m : list (rstring * A)) a : map_get key m = Some a → (key, a) ∈ m.
Proof.
  unfold map_get. destruct (find _ m) as [[k v]|] eqn:E; [|done]. intros [= <-]. apply find_some in E as [Hin Hk].
  apply bool_decide_eq_true in Hk. cbn in *. subst. by apply list_elem_of_In.
Qed.

(** Sequences tell the generations of an order apart. *)
Lemma sequence_injective order g g' k :
  order_wf order → map_get g (sequences order) = Some k → map_get g' (sequences order) = Some k → g = g'.
Proof.
  intros (_ & _ & _ & Hnd) Hg%map_get_In Hg'%map_get_In. revert Hnd Hg Hg'. generalize (sequences order). intros m Hnd.
  induction m as [|[g0 k0] m IH]; [by intros ?%elem_of_nil|]. cbn in Hnd. apply NoDup_cons in Hnd as [Hn Hnd].
  assert (∀ a, (a, k0) ∈ m → False) as Hno by (intros a Ha; apply Hn, list_elem_of_fmap; by exists (a, k0)).
  intros [[= -> ->]|Hg]%elem_of_cons [Hg'|Hg']%elem_of_cons; [by injection Hg'|by apply Hno in Hg'| |by apply IH].
  injection Hg' as -> ->. by apply Hno in Hg.
Qed.

Section collect.
Variable digest_hex : list N → rstring.
Variable own_uid : N.
Variable liveness : LeaseRecord → LeaseLiveness.

Abbreviation settles := (settles digest_hex).
Abbreviation inspect := (inspect_pointer_journals digest_hex).

(** The generation a selection answers is the current one, it is valid, and the lease that
    holds it is on the disk. *)
Lemma select_current_ok identity v s :
  settles v (disk s) →
  leaves (leased (disk s)) (select_current digest_hex own_uid identity)
    (λ r d, leased (disk s) d ∧ v = Some r.1 ∧ known digest_hex d r.1 ∧
       ∃ p, identity = Ok p ∧ pr_owner_uid p = own_uid ∧ d_leases (disk s) !! r.2 = None ∧
         d_leases d !! r.2 = Some (File true (LeaseRecord_encode
           (mk_lease r.1 (pr_pid p) (pr_start_time p) (pr_boot_id p) (pr_owner_uid p)))))
    (leased (disk s)) s.
Proof.
  intros Hs. unfold select_current. apply (inspected _ _ _ _ _ v); [exact Hs|apply leased_refl|]. intros st c s1 Hd Hsh. cbn [in_state in_current].
  eapply (leaves_bind _ _ _ (λ _ d, d = disk s1 ∧ settled st = true)).
  { apply leaves_of_result; [by rewrite Hd|]. intros [] Hst. split; [done|]. by destruct (settled st). }
  intros [] s2 [Hs2 Hst]. destruct c as [g|]; [|apply leaves_raise; by rewrite Hs2, Hd].
  assert (v = Some g ∧ known digest_hex (disk s1) g) as [-> Hk].
  { pose proof (shape_stage _ _ _ _ _ Hsh) as [_ Hg]. apply (good_known digest_hex (d_generations (disk s1)) (disk s1)) in Hg; [|done].
    split; [|done]. inversion Hsh; subst; done. }
  eapply (leaves_bind _ _ _ (λ _ d, d = disk s)); [apply leaves_reads; rewrite Hs2, Hd; done|]. intros [] s3 Hs3.
  eapply (leaves_bind _ _ _ (λ record d, d = disk s ∧ ∃ p, identity = Ok p ∧ pr_owner_uid p = own_uid
    ∧ record = mk_lease g (pr_pid p) (pr_start_time p) (pr_boot_id p) (pr_owner_uid p))).
  { apply leaves_of_result; [by rewrite Hs3|]. intros record Hr. split; [done|]. unfold for_process in Hr.
    apply rbind_Ok in Hr as (p & -> & Hr). apply ensure_Ok in Hr as [Hu%N.eqb_eq [= <-]]. by exists p. }
  intros record s4 [Hs4 (p & -> & Hu & ->)].
  eapply leaves_bind; [apply (create_lease_locked_ok 64 _ (disk s)); by rewrite Hs4|].
  intros n s5 (Hs5 & Hn & Hb). apply leaves_ret. split; [done|]. split; [done|]. cbn. split; [|by exists p].
  apply (good_known _ (d_generations (disk s1))); [by rewrite (le_generations _ _ Hs5), Hd|]. by apply (good_known digest_hex (d_generations (disk s1)) (disk s1)).
Qed.

(** ** Garbage collection *)

(** A lease whose process is gone. *)
Definition stale_lease (d : Disk) (n : list N) : Prop :=
  ∃ r, read_lease_entry (d_leases d !! n) = Ok (ParsedProcess r) ∧ liveness r = Stale.

(** Every lease is a process record of a process that is there or gone. *)
Definition certain_lease (live : list GenerationId) (e : Entry) : Prop :=
  ∃ r, read_lease_entry (Some e) = Ok (ParsedProcess r) ∧ (liveness r = Live ∧ le_generation r ∈ live ∨ liveness r = Stale).

Lemma preflight_names i b es ns :
  gc_lease_inventory_preflight i b es = Ok (ns, false) → ns = fst <$> es.
Proof.
  revert i b ns. induction es as [|[n e] es IH]; intros i b ns; cbn -[MAX_LEASE_INVENTORY_ENTRIES MAX_LEASE_INVENTORY_BYTES N.to_nat].
  { by intros [= <-]. }
  rewrite ensure_Ok. intros [_ H]. apply ensure_Ok in H as [_ H]. apply ensure_Ok in H as [_ H].
  apply rbind_Ok in H as (name & _ & H). destruct (starts_with _ name).
  - by apply rbind_Ok in H as (rest & _ & [=]).
  - destruct (is_ok _); [|done]. apply rbind_Ok in H as ([ns' h] & Hr & [= <- Hh]). cbn in Hh. subst h.
    by rewrite (IH _ _ _ Hr).
Qed.

Lemma survey_certain d ns live stale :
  survey_leases liveness d ns = (live, stale, false) →
  (∀ n e, n ∈ ns → d_leases d !! n = Some e → certain_lease live e) ∧ (∀ n, n ∈ stale → n ∈ ns ∧ stale_lease d n).
Proof.
  revert live stale. induction ns as [|n ns IH]; intros live stale; cbn [survey_leases].
  { intros [= <- <-]. split; [by intros ? ? ?%elem_of_nil|by intros ? ?%elem_of_nil]. }
  destruct (survey_leases liveness d ns) as [[live' stale'] u]. destruct (read_lease_entry (d_leases d !! n)) as [[r|r]|] eqn:E; [|done..].
  destruct (liveness r) eqn:El; [| |done]; intros [= <- <- ->]; destruct (IH live' stale' eq_refl) as [Ha Hb]; split.
  - intros m e [->|Hm]%elem_of_cons He.
    + exists r. rewrite <-He. split; [done|]. left. split; [done|by left].
    + destruct (Ha m e Hm He) as (r' & Hr & [[? ?]|?]); exists r'; (split; [done|]); [left; split; [done|by right]|by right].
  - intros m [? ?]%Hb. split; [by right|done].
  - intros m e [->|Hm]%elem_of_cons He; [|by eapply Ha]. exists r. rewrite <-He. split; [done|by right].
  - intros m [->|Hm]%elem_of_cons; [split; [by left|by exists r]|]. apply Hb in Hm as [? ?]. split; [by right|done].
Qed.

Lemma gc_candidates_Some d order live es cs :
  NoDup (fst <$> es) → gc_candidates digest_hex d order live es = Some cs →
  (∀ n e, (n, e) ∈ es → ∃ g, n = str_bytes g ∧ known digest_hex d g)
  ∧ NoDup (snd <$> cs)
  ∧ (∀ k g, (k, g) ∈ cs → str_bytes g ∈ (fst <$> es) ∧ lower_hex_32 g = true ∧ g ∉ live ∧ map_get g (sequences order) = Some k).
Proof.
  revert cs. induction es as [|[n e] es IH]; intros cs Hnd; cbn [gc_candidates].
  { intros [= <-]. split; [by intros ? ? ?%elem_of_nil|]. split; [constructor|by intros ? ? ?%elem_of_nil]. }
  apply NoDup_cons in Hnd as [Hn Hnd]. intros (rest & Hr & H)%bind_Some. destruct (IH rest Hnd Hr) as (Hall & Hnd' & Hcs).
  apply bind_Some in H as (name & Hname & H). apply from_utf8_Some in Hname as [_ Hname].
  destruct (GenerationId_parse name) as [g|] eqn:Eg; [|done]. apply GenerationId_parse_Ok in Eg as [-> Hg].
  destruct (is_ok _) eqn:Ev; [|done]. assert (valid digest_hex d g) as Hv.
  { unfold valid. destruct (validate_generation digest_hex d g) as [[]|]; done. }
  assert (∀ m e', (m, e') ∈ (n, e) :: es → ∃ g, m = str_bytes g ∧ known digest_hex d g) as Hall'.
  { intros m e' [[= -> ->]|Hm]%elem_of_cons; [by exists g|by eapply Hall]. }
  case_bool_decide as Hl.
  - injection H as <-. split; [done|]. split; [done|]. intros k g' (? & ? & ? & ?)%Hcs. split; [by right|done].
  - apply bind_Some in H as (k & Hk & [= <-]). split; [done|]. split.
    + cbn. apply NoDup_cons. split; [|done]. intros ([k' g'] & -> & Hin)%list_elem_of_fmap. apply Hcs in Hin as [Hin _].
      cbn in *. by rewrite <-Hname in Hn.
    + intros k' g' [[= -> ->]|Hin]%elem_of_cons; [rewrite Hname; split; [by left|done]|]. apply Hcs in Hin as [? ?]. split; [by right|done].
Qed.

(** ** What a collection may remove *)

(** The publication order on the disk. *)
Definition ordered (d : Disk) (order : PublicationOrder) : Prop :=
  ∃ raw, d_root d !! str_bytes (lit "publication-order") = Some (File true raw) ∧ PublicationOrder_parse raw = Ok order.

(** A generation that neither the pointer, nor its journal, nor a lease needs. *)
Record unpinned (d : Disk) (g : GenerationId) : Prop := {
  un_hex : lower_hex_32 g = true;
  un_present : is_Some (d_generations d !! str_bytes g);
  un_pointer : ∃ st c v, shape digest_hex d st (Some c) v ∧ settled st = true ∧ g ≠ c
    ∧ ∀ name a, st = CleanupCommitted name (Some a) → g ≠ a;
  un_leases : ∀ n e, d_leases d !! n = Some e →
    ∃ r, read_lease_entry (Some e) = Ok (ParsedProcess r) ∧ (liveness r = Live ∧ le_generation r ≠ g ∨ liveness r = Stale)
}.

(** Every generation is valid, and two unpinned ones were published after this one. *)
Record expendable (d : Disk) (g : GenerationId) : Prop := {
  ex_unpinned : unpinned d g;
  ex_valid : ∀ n e, d_generations d !! n = Some e → ∃ g', n = str_bytes g' ∧ known digest_hex d g';
  ex_newer : ∃ order g1 g2 k k1 k2, ordered d order ∧ unpinned d g1 ∧ unpinned d g2 ∧ g1 ≠ g2
    ∧ map_get g (sequences order) = Some k ∧ map_get g1 (sequences order) = Some k1 ∧ map_get g2 (sequences order) = Some k2
    ∧ (k < k1)%N ∧ (k < k2)%N
}.

(** What a collection leaves, wherever it stops. *)
Record spared (d0 d : Disk) : Prop := {
  sp_root : d_root d = d_root d0;
  sp_leases : ∀ n, d_leases d !! n = d_leases d0 !! n ∨ d_leases d !! n = None ∧ stale_lease d0 n;
  sp_generations : ∀ n, d_generations d !! n = d_generations d0 !! n ∨ ∃ g, n = str_bytes g ∧ expendable d0 g
}.

Lemma spared_refl d : spared d d.
Proof. by split; [|left..]. Qed.

(** Before the first generation goes. *)
Definition unleased (d0 d : Disk) : Prop := spared d0 d ∧ d_generations d = d_generations d0.

Lemma inspect_same d0 d : d_root d = d_root d0 → d_generations d = d_generations d0 → inspect d = inspect d0.
Proof. destruct d0 as [r g l], d as [r' g' l']; cbn. by intros -> ->. Qed.

Lemma remove_leases_ok report ns d0 s :
  unleased d0 (disk s) → (∀ n, n ∈ ns → stale_lease d0 n) →
  leaves (unleased d0) (remove_leases report ns)
    (λ report' d, unleased d0 d ∧ reclaimed_generations report' = reclaimed_generations report) (unleased d0) s.
Proof.
  revert report s. induction ns as [|n ns IH]; intros report s Hs Hns; cbn [remove_leases]; [by apply leaves_ret|].
  assert (∀ m, m ∈ ns → stale_lease d0 m) as Hns' by (intros m Hm; apply Hns; by right).
  eapply (leaves_bind _ _ _ (λ _, unleased d0)).
  { apply leaves_attempt, leaves_change; [done|]. intros d Hd. unfold dir_unlink in Hd.
    destruct (d_leases (disk s) !! n) eqn:E; [|done]. injection Hd as <-.
    assert (unleased d0 (disk s <| d_leases := delete n (d_leases (disk s)) |>)) as H; [|done].
    destruct Hs as [[Hr Hl Hg] HG]. split; [|done]. split; [done| |done]. intros m. cbn. destruct (decide (m = n)) as [->|Hne].
    - right. rewrite lookup_delete_eq. split; [done|]. apply Hns. by left.
    - rewrite lookup_delete_ne by done. apply Hl. }
  intros [[]|e] s1 Hs1.
  - eapply (leaves_bind _ _ _ (λ _, unleased d0)); [by apply leaves_syscall|]. intros [] s2 Hs2.
    eapply leaves_mono; [by apply IH|done|done].
  - case_decide; [by apply IH|by apply leaves_raise].
Qed.

(** The leases are surveyed before any is removed. *)
Lemma reclaim_ok d0 s :
  disk s = d0 →
  leaves (unleased d0) (reclaim_stale_leases_locked liveness)
    (λ r d, unleased d0 d ∧ reclaimed_generations r.1.1 = 0
       ∧ (r.2 = false → ∀ n e, d_leases d0 !! n = Some e → certain_lease r.1.2 e)) (unleased d0) s.
Proof.
  intros Hs. assert (unleased d0 d0) as H0 by (split; [apply spared_refl|done]). unfold reclaim_stale_leases_locked. cbv zeta.
  eapply (leaves_bind _ _ _ (λ r d, d = d0 ∧ ∀ ns, r = Ok (ns, false) → ns = fst <$> map_to_list (d_leases d0))).
  { apply leaves_attempt, leaves_reads; [by rewrite Hs|]. intros [ns h]. rewrite Hs. intros Hp. split; [done|].
    intros ns' [= <- ->]. by eapply preflight_names. }
  intros [[ns h]|e] s1 [Hs1 Hns]; [|by apply leaves_ret; rewrite Hs1]. destruct h; [by apply leaves_ret; rewrite Hs1|].
  eapply (leaves_bind _ _ _ (λ r d, d = d0 ∧ ∀ a, r = Ok a → a = survey_leases liveness d0 ns)).
  { apply leaves_attempt, leaves_reads; [by rewrite Hs1|]. intros a [= <-]. split; [done|]. intros a' [= <-]. by rewrite Hs1. }
  intros [[[live stale] u]|e] s2 [Hs2 Ha]; [|by apply leaves_ret; rewrite Hs2].
  specialize (Ha _ eq_refl). destruct u; [by apply leaves_ret; rewrite Hs2|].
  symmetry in Ha. apply survey_certain in Ha as [Hlive Hstale].
  eapply leaves_bind; [apply (remove_leases_ok _ stale d0 s2); [by rewrite Hs2|intros n Hn; by apply Hstale]|].
  intros report s3 [Hs3 Hrep]. apply leaves_ret. split; [done|]. split; [done|]. intros _ n e He. apply (Hlive n e); [|done].
  rewrite (Hns ns eq_refl). apply list_elem_of_fmap. exists (n, e). split; [done|]. by apply elem_of_map_to_list.
Qed.

Lemma ordered_load d order :
  (try present := validate_optional_control (lit "publication-order") d in
    ensure present else GenText (lit "publication order is absent");
    try raw := read_entry (d_root d !! str_bytes (lit "publication-order")) in
    match raw with
    | None => Err (GenText (lit "publication order disappeared while reading"))
    | Some raw => gen_text (PublicationOrder_parse raw)
    end) = Ok order → ordered d order.
Proof.
  unfold validate_optional_control, ordered. destruct (d_root d !! _) as [[[] raw|t| |]|]; cbn; try done.
  rewrite gen_text_Ok. intros H. by exists raw.
Qed.

End collect.
