(* ===== verification/GenGarbage.v ===== *)
(** * The generation store: a whole collection

    [garbage_collect] from the lock to its report, and the store afterwards: it settles
    where it did. *)

From Stdlib Require Import ZArith Lia.
From stdpp Require Import prelude list gmap sorting.
From S2P Require Import Prelude Authority Hoare Utf8 Ipc Text GenRecords GenFormats GenStore GenJournals GenSteps GenTrees GenProtocol GenCommits GenRecovery GenPublish GenCalls GenCollect.

#[local] Arguments lit : simpl never.

Section garbage.
Variable digest_hex : list N → rstring.
Variable liveness : LeaseRecord → LeaseLiveness.

Abbreviation settles := (settles digest_hex).
Abbreviation spared := (spared digest_hex liveness).
Abbreviation unleased := (unleased digest_hex liveness).
Abbreviation unpinned := (unpinned digest_hex liveness).
Abbreviation expendable := (expendable digest_hex liveness).

Definition journal_previous (st : PointerJournalState) : list GenerationId :=
  match st with CleanupCommitted _ (Some g) => [g] | _ => [] end.

Lemma known_same d d' g : d_generations d = d_generations d' → known digest_hex d g → known digest_hex d' g.
Proof. intros E Hk. apply (good_known digest_hex (d_generations d')); [done|]. by apply (good_known digest_hex _ d). Qed.

(** The candidates are unpinned. *)
Lemma candidate_unpinned d0 d st c v live order cs k g :
  shape digest_hex d0 st (Some c) v → settled st = true →
  (∀ n e, d_leases d0 !! n = Some e → certain_lease liveness live e) →
  d_generations d = d_generations d0 →
  gc_candidates digest_hex d order (c :: journal_previous st ++ live) (map_to_list (d_generations d)) = Some cs →
  (k, g) ∈ cs → unpinned d0 g.
Proof.
  intros Hsh Hst Hlive Hgen Hcs Hin. apply gc_candidates_Some in Hcs as (_ & _ & Hcs); [|apply NoDup_fst_map_to_list].
  apply Hcs in Hin as (Hp & Hhex & Hl & _). rewrite elem_of_cons, elem_of_app in Hl. split; [done|..].
  - apply list_elem_of_fmap in Hp as ([n e] & Hn & He%elem_of_map_to_list). cbn in Hn. rewrite Hgen in He. rewrite Hn. by exists e.
  - exists st, c, v. split; [done|]. split; [done|]. split; [tauto|]. intros name a -> ->. apply Hl. right. left. by left.
  - intros n e He. destruct (Hlive n e He) as (r & Hr & [[H1 H2]|H1]); exists r; (split; [done|]); [left|by right].
    split; [done|]. intros <-. tauto.
Qed.

Lemma dropped_expendable d0 d st c v live order cs k g :
  shape digest_hex d0 st (Some c) v → settled st = true →
  (∀ n e, d_leases d0 !! n = Some e → certain_lease liveness live e) →
  d_generations d = d_generations d0 → ordered d0 order →
  gc_candidates digest_hex d order (c :: journal_previous st ++ live) (map_to_list (d_generations d)) = Some cs →
  (k, g) ∈ drop 2 (sort_candidates cs) → expendable d0 g.
Proof.
  intros Hsh Hst Hlive Hgen Hord Hcs Hin.
  pose proof (candidate_unpinned d0 d st c v live order cs) as Hun.
  assert (∀ k g, (k, g) ∈ cs → unpinned d0 g) as Hun' by (intros k' g'; by apply Hun). clear Hun.
  apply gc_candidates_Some in Hcs as (Hall & Hnd & Hget); [|apply NoDup_fst_map_to_list].
  apply dropped_has_newer in Hin as (Hin & k1 & g1 & k2 & g2 & H1 & H2 & H12 & H1g & H2g & Hk1 & Hk2); [|done].
  split; [by eapply Hun'| |].
  - intros n e He. rewrite <-Hgen in He. destruct (Hall n e) as (g' & -> & Hk); [by apply elem_of_map_to_list|].
    exists g'. split; [done|]. by eapply known_same.
  - pose proof Hord as (raw & _ & [_ Hwf]%PublicationOrder_parse_Ok).
    apply Hget in Hin as (_ & _ & _ & Hg). pose proof (Hget _ _ H1) as (_ & _ & _ & Hg1). pose proof (Hget _ _ H2) as (_ & _ & _ & Hg2).
    exists order, g1, g2, k, k1, k2. split; [done|]. split; [by eapply Hun'|]. split; [by eapply Hun'|].
    split; [done|]. split; [done|]. split; [done|]. split; [done|]. split.
    + destruct (decide (k = k1)) as [<-|]; [|lia]. destruct H1g. by eapply sequence_injective.
    + destruct (decide (k = k2)) as [<-|]; [|lia]. destruct H2g. by eapply sequence_injective.
Qed.

Lemma spared_aside d0 d d' g : spared d0 d → expendable d0 g → aside (str_bytes g) d d' → spared d0 d'.
Proof.
  intros [Hr Hl Hg] Hex (Hr' & Hl' & Hg'). split; [congruence|intros n; by rewrite Hl'|]. intros n.
  destruct (decide (n = str_bytes g)) as [->|Hne]; [right; by exists g|]. rewrite Hg' by done. apply Hg.
Qed.

Lemma remove_generations_ok d0 report cs s :
  spared d0 (disk s) → (∀ k g, (k, g) ∈ cs → expendable d0 g) →
  leaves (spared d0) (remove_generations report cs) (λ _, spared d0) (spared d0) s.
Proof.
  revert report s. induction cs as [|[k g] cs IH]; intros report s Hs Hcs; cbn [remove_generations]; [by apply leaves_ret|].
  assert (expendable d0 g) as Hg by (apply (Hcs k); by left).
  eapply (leaves_bind _ _ _ (λ _, spared d0)).
  { assert (∀ d, aside (str_bytes g) (disk s) d → spared d0 d) as Ha by (intros d; by apply spared_aside).
    eapply leaves_inv; [|exact Ha]. eapply leaves_mono; [apply remove_tree_at_ok, aside_refl| |exact Ha]. intros [] d. apply Ha. }
  intros [] s1 Hs1. eapply (leaves_bind _ _ _ (λ _, spared d0)); [by apply leaves_syscall|].
  intros [] s2 Hs2. apply IH; [done|]. intros k' g' Hin. apply (Hcs k'). by right.
Qed.

(** A pass that has not yet removed a generation may stop. *)
Lemma stops {A} d0 (a : A) s : unleased d0 (disk s) → leaves (spared d0) (mret a) (λ _, spared d0) (spared d0) s.
Proof. intros [Hs _]. by apply leaves_ret. Qed.

Lemma attempted_read {A B} d0 (m : gen_m A) (k : result A GenError → gen_m B) (Q : A → Prop) s :
  unleased d0 (disk s) →
  (∀ d, unleased d0 d → ∀ s', disk s' = d → leaves (spared d0) m (λ a d', d' = d ∧ Q a) (λ d', d' = d) s') →
  (∀ r s', unleased d0 (disk s') → (∀ a, r = Ok a → Q a) → leaves (spared d0) (k r) (λ _, spared d0) (spared d0) s') →
  leaves (spared d0) (r ← attempt m; k r) (λ _, spared d0) (spared d0) s.
Proof.
  intros Hs Hm Hk. eapply (leaves_bind _ _ _ (λ r d, unleased d0 d ∧ ∀ a, r = Ok a → Q a)).
  - apply leaves_attempt. eapply leaves_mono; [by apply (Hm (disk s) Hs)|..].
    + intros a d [-> HQ]. split; [done|]. by intros a' [= <-].
    + intros d -> e. by split.
  - intros r s' [Hs' HQ]. by apply Hk.
Qed.

Lemma garbage_collect_ok v s :
  settles v (disk s) →
  leaves (spared (disk s)) (garbage_collect digest_hex liveness) (λ _, spared (disk s)) (spared (disk s)) s.
Proof.
  intros Hset. set (d0 := disk s). assert (unleased d0 d0) as H0 by (split; [apply spared_refl|done]).
  unfold garbage_collect.
  eapply (leaves_bind _ _ _ (λ _ d, d = d0)); [by apply leaves_syscall; [|apply spared_refl]|]. intros [] s1 Hs1.
  eapply leaves_bind.
  { eapply leaves_inv; [eapply leaves_mono; [by apply (reclaim_ok digest_hex liveness d0 s1)|done|by intros d []]|by intros d []]. }
  intros [[report live] uncertain] s2 (Hs2 & _ & Hlive). cbn in Hlive. destruct uncertain; [by apply stops|]. specialize (Hlive eq_refl).
  eapply (attempted_read _ _ _ (λ inv, inspect_pointer_journals digest_hex d0 = Ok inv)); [done|..].
  { intros d [Hsp Hgen] s' Hd. apply leaves_reading; [done|apply inspect_never_panics|]. intros inv Hinv. split; [done|].
    rewrite Hd in Hinv. by rewrite (inspect_same digest_hex d0 d) in Hinv by (done || apply Hsp). }
  intros [inv|e] s3 Hs3 Hinv; [|by apply stops]. specialize (Hinv inv eq_refl). apply shape_of_inspect in Hinv as [w Hsh].
  destruct (settled (in_state inv)) eqn:Hst; [|by apply stops].
  destruct (in_current inv) as [current|] eqn:Hcur; [|by apply stops].
  eapply (attempted_read _ _ _ (λ _, True)); [done|..].
  { intros d _ s' Hd. by apply leaves_reads. }
  intros [[]|e] s4 Hs4 _; [by apply stops| |by apply stops].
  eapply (attempted_read _ _ _ (ordered d0)); [done|..].
  { intros d [Hsp _] s' Hd. apply leaves_reads; [done|]. intros order Ho. split; [done|]. rewrite Hd in Ho. apply ordered_load in Ho.
    unfold ordered in *. by rewrite (sp_root _ _ _ _ Hsp) in Ho. }
  intros [order|e] s5 Hs5 Hord; [|by apply stops]. specialize (Hord order eq_refl).
  eapply (attempted_read _ _ _ (λ _, True)); [done|..].
  { intros d _ s' Hd. by apply leaves_reads. }
  intros [[]|e] s6 Hs6 _; [|by apply stops].
  eapply (leaves_bind _ _ _ (λ r d, spared d0 d ∧ ∀ cs, r = Some cs → ∀ k g, (k, g) ∈ drop 2 (sort_candidates cs) → expendable d0 g)).
  { apply leaves_reads; [apply Hs6|]. intros r [= <-]. split; [apply Hs6|]. intros cs Hcs k g Hin.
    eapply (dropped_expendable d0 (disk s6) (in_state inv) current w live order cs k g); [done|done|done|apply Hs6|done|exact Hcs|done]. }
  intros [cs|] s7 [Hs7 Hcs]; [|by apply leaves_ret]. apply remove_generations_ok; [done|]. by apply Hcs.
Qed.

(** ** The pointer after a collection *)

Lemma expendable_not_needed d g :
  expendable d g → ∃ st c v, shape digest_hex d st (Some c) v ∧ settled st = true ∧ g ≠ c
    ∧ ∀ name a, st = CleanupCommitted name (Some a) → g ≠ a.
Proof. intros [[_ _ Hp _] _ _]. done. Qed.

Lemma shape_function d st c v st' c' v' :
  shape digest_hex d st c v → shape digest_hex d st' c' v' → st = st' ∧ c = c'.
Proof. intros H H'. apply inspect_of_shape in H, H'. rewrite H in H'. by injection H' as -> ->. Qed.

(** Where a settled store settles. *)
Lemma settled_current d st c v : shape digest_hex d st c v → settled st = true → v = c.
Proof. by destruct 1. Qed.

Lemma spared_shape d0 d st c v :
  spared d0 d → settled st = true → shape digest_hex d0 st c v → shape digest_hex d st c v.
Proof.
  intros [Hr _ Hg] Hst Hsh.
  assert (∀ g, lower_hex_32 g = true → c = Some g ∨ (∃ name, st = CleanupCommitted name (Some g)) →
    d_generations d !! str_bytes g = d_generations d0 !! str_bytes g) as Hkeep.
  { intros g Hhex Hneed. destruct (Hg (str_bytes g)) as [E|(g' & Hg' & Hex)]; [done|]. exfalso.
    apply hex_bytes_inj in Hg'; [subst g'|done|apply Hex].
    destruct (expendable_not_needed _ _ Hex) as (st' & c' & v' & Hsh' & _ & Hc & Hp).
    destruct (shape_function _ _ _ _ _ _ _ Hsh Hsh') as [<- ->].
    destruct Hneed as [[= ->]|[name Hn]]; [done|by eapply Hp]. }
  assert (pointer d = pointer d0) as Ep by (unfold pointer; by rewrite Hr).
  assert (∀ cs as_ ms, journals_are d0 cs as_ ms → journals_are d cs as_ ms) as Hj.
  { intros cs as_ ms Hj. apply book_journals. unfold book, journals. rewrite Hr. by apply book_journals. }
  assert (∀ g, lower_hex_32 g = true → c = Some g ∨ (∃ name, st = CleanupCommitted name (Some g)) →
    valid digest_hex d0 g → valid digest_hex d g) as Hval.
  { intros g Hhex Hneed Hv. apply (good_known digest_hex (d_generations d)); [done|].
    eapply good_entry; [symmetry; by apply Hkeep|]. by apply (good_known digest_hex (d_generations d0) d0). }
  assert (pointer_is digest_hex d0 c → pointer_is digest_hex d c) as Hp.
  { unfold pointer_is. rewrite Ep. destruct c as [g|]; [|done]. intros [Hh Hv]. split; [done|].
    apply Hval; [by eapply holds_hex|by left|done]. }
  destruct Hsh as [v Hj0 Hpt| | | | |g q previous Hj0 Hpt Hne Hprev]; try done.
  - apply shape_clean; auto.
  - eapply shape_committed; [by apply Hj|by apply Hp|done|]. intros a Ha. destruct (Hprev a Ha) as [Hhex Hv]. split; [done|].
    apply Hval; [done| |done]. right. exists (journal_name KCommitted g). by rewrite Ha.
Qed.

(** The store settles where it did. *)
Lemma spared_settles d0 d v : spared d0 d → settles v d0 → settles v d.
Proof.
  intros Hsp (st & c & Hsh). destruct (settled st) eqn:Hst.
  - exists st, c. by eapply spared_shape.
  - exists st, c. eapply (shape_alike digest_hex d0); [|done]. destruct Hsp as [Hr _ Hg]. split.
    + unfold pointer. by rewrite Hr.
    + unfold book, journals. by rewrite Hr.
    + intros g _. destruct (Hg (str_bytes g)) as [E|(g' & _ & Hex)]; [done|].
      destruct (expendable_not_needed _ _ Hex) as (st' & c' & v' & Hsh' & Hst' & _).
      destruct (shape_function _ _ _ _ _ _ _ Hsh Hsh') as [<- _]. congruence.
Qed.
End garbage.
