(* ===== verification/GenSafety.v ===== *)
(** * The generation store: its theorems

    What the store promises, over every sequence of failures: one call moves the pointer
    to the generation it was asked for or not at all, an interrupted call can be
    recovered, a selected generation survives collection, and what is written is read
    back. *)

From Stdlib Require Import ZArith Lia DecimalFacts.
From stdpp Require Import prelude list gmap sorting.
From S2P Require Import Prelude Authority Hoare Utf8 Ipc Text GenRecords GenFormats GenStore GenJournals GenSteps GenTrees GenProtocol GenCommits GenRecovery GenPublish GenCalls GenCalm GenCollect GenGarbage.

#[local] Arguments lit : simpl never.

(** ** One operation *)

Inductive StoreCall :=
| Publish (capture : result GenerationPublication rstring)
| EnsureCurrent (capture : result GenerationPublication rstring)
| RollbackTo (generation : GenerationId)
| Recover
| SelectCurrent (identity : result ProcessIdentity GenError)
| Collect.

Inductive StoreAnswer :=
| Outcome (outcome : GenerationPublicationOutcome)
| Recovered (generation : GenerationId)
| Selected (generation : GenerationId) (lease_name : list N)
| Collected (report : GenerationGcReport).

(** ** Lengths *)

Lemma nb_double d : Decimal.nb_digits (Decimal.Little.double d) ≤ S (Decimal.nb_digits d)
  ∧ Decimal.nb_digits (Decimal.Little.succ_double d) ≤ S (Decimal.nb_digits d).
Proof. induction d; cbn; lia. Qed.

Lemma nb_digits_size p : Decimal.nb_digits (Pos.to_little_uint p) ≤ Pos.size_nat p.
Proof.
  induction p as [p IH|p IH|]; cbn [Pos.to_little_uint Pos.size_nat]; [| |done];
    pose proof (nb_double (Pos.to_little_uint p)); lia.
Qed.

Lemma uint_chars_length d : length (uint_chars d) = Decimal.nb_digits d.
Proof. induction d; cbn; lia. Qed.

Lemma decimal_length n : length (decimal n) ≤ S (N.size_nat n).
Proof.
  unfold decimal. rewrite uint_chars_length. destruct n as [|p]; [cbn; lia|]. cbn [N.to_uint N.size_nat]. unfold Pos.to_uint.
  rewrite nb_digits_rev. pose proof (nb_digits_size p). lia.
Qed.

Lemma decimal_u64 n : (n <= u64_max)%N → length (decimal n) ≤ 65.
Proof.
  intros Hn. pose proof (decimal_length n) as Hd. enough (N.size_nat n ≤ 64) by lia.
  destruct n as [|p]; [cbn; lia|]. change 64 with (Pos.size_nat 18446744073709551615). cbn [N.size_nat].
  destruct (Pos.lt_total p 18446744073709551615) as [Hp|[->|Hp]]; [by apply Pos.size_nat_monotone|done|].
  exfalso. revert Hn Hp. unfold u64_max. lia.
Qed.

Lemma line_len key value : str_len (line key value) = str_len key + str_len value + 2.
Proof. unfold line. rewrite !str_len_app. change (str_len (lit " ")) with 1. change (str_len [10%N]) with 1. lia. Qed.

Lemma lease_encode_length r : lease_record_wf (ParsedProcess r) → length (LeaseRecord_encode r) ≤ N.to_nat 4096.
Proof.
  intros ((Hg & Hs & Hb) & Hp & Hu). unfold LeaseRecord_encode. rewrite length_str_bytes, !str_len_app, !line_len, !str_len_decimal.
  assert (str_len (le_generation r) = 32) as -> by by apply andb_true_iff in Hg as [?%Nat.eqb_eq _].
  assert (str_len (le_boot_id r) = 36) as -> by by apply andb_true_iff in Hb as [?%Nat.eqb_eq _].
  pose proof (decimal_u64 _ Hs). assert (le_pid r <= u64_max)%N as Hp' by (revert Hp; unfold u32_max, u64_max; lia).
  assert (le_owner_uid r <= u64_max)%N as Hu' by (revert Hu; unfold u32_max, u64_max; lia).
  pose proof (decimal_u64 _ Hp'). pose proof (decimal_u64 _ Hu').
  change (str_len (lit "realm-generation-lease-v1")) with 25. change (str_len (lit "generation")) with 10.
  change (str_len (lit "pid")) with 3. change (str_len (lit "start-time")) with 10. change (str_len (lit "boot-id")) with 7.
  change (str_len (lit "owner-uid")) with 9. change (str_len [10%N]) with 1. lia.
Qed.

Lemma publication_outputs digests os p : GenerationPublication_new digests os = Ok p → outputs p = sort_outputs os.
Proof.
  unfold GenerationPublication_new. cbv zeta. rewrite ensure_Ok. intros [_ H]. apply ensure_Ok in H as [_ H].
  apply ensure_Ok in H as [_ H]. by apply rbind_Ok in H as (u & _ & [= <-]).
Qed.

Section safety.
Variable digest_hex : list N → rstring.
Variable own_uid : N.
Variable liveness : LeaseRecord → LeaseLiveness.

Abbreviation settles := (settles digest_hex).

Definition run_store (c : StoreCall) : gen_m StoreAnswer :=
  match c with
  | Publish capture => o ← publish digest_hex capture; mret (Outcome o)
  | EnsureCurrent capture => o ← ensure_current digest_hex capture; mret (Outcome o)
  | RollbackTo g => o ← rollback digest_hex g; mret (Outcome o)
  | Recover => g ← recover digest_hex; mret (Recovered g)
  | SelectCurrent identity => r ← select_current digest_hex own_uid identity; mret (Selected r.1 r.2)
  | Collect => r ← garbage_collect digest_hex liveness; mret (Collected r)
  end.

(** What the types of the arguments say: a capture is a [GenerationPublication], which
    only its constructor builds, and a generation is a [GenerationId], which only its
    parser builds. *)
Definition store_call_ok (c : StoreCall) : Prop :=
  match c with
  | Publish capture | EnsureCurrent capture => captured capture
  | RollbackTo g => lower_hex_32 g = true
  | _ => True
  end.

(** The generations a call may make the current one. *)
Definition target (d0 : Disk) (c : StoreCall) (g : GenerationId) : Prop :=
  match c with
  | Publish _ | EnsureCurrent _ => fresh d0 g
  | RollbackTo g' => g' = g
  | _ => False
  end.

(** What an answer promises. *)
Definition promised (T : GenerationId → Prop) (v : option GenerationId) (a : StoreAnswer) (d : Disk) : Prop :=
  match a with
  | Outcome (Committed g) | Outcome (CommittedWithCleanupPending g _) => (T g ∨ v = Some g) ∧ settles (Some g) d
  | Outcome (OutcomeAmbiguous g _) => (T g ∨ v = Some g) ∧ (settles v d ∨ settles (Some g) d)
  | Recovered g => v = Some g ∧ settles v d ∧ book d = no_books
  | Selected g n => v = Some g ∧ settles v d ∧ known digest_hex d g ∧ is_Some (d_leases d !! n)
  | Collected _ => settles v d
  end.

Lemma leaves_answer {A} (I : Disk → Prop) (m : gen_m A) (f : A → StoreAnswer) (Q : A → Disk → Prop) (Q' : StoreAnswer → Disk → Prop) R s :
  leaves I m Q R s → (∀ a d, Q a d → Q' (f a) d) → leaves I (a ← m; mret (f a)) Q' R s.
Proof. intros Hm HQ. eapply leaves_bind; [exact Hm|]. intros a s' Ha. apply leaves_ret. by apply HQ. Qed.

Lemma outcome_promised (T : GenerationId → Prop) v g o d :
  T g ∨ v = Some g → outcome_ok digest_hex v g o d → promised T v (Outcome o) d.
Proof. destruct o; cbn; naive_solver. Qed.

Lemma run_store_ok c v s :
  (∀ b, sha256_digest (digest_hex b) = true) → store_call_ok c → settles v (disk s) →
  leaves (moves digest_hex (target (disk s) c) v) (run_store c) (promised (target (disk s) c) v) (unmoved digest_hex v) s.
Proof.
  intros Hhex Hc Hs. destruct c as [capture|capture|g| |identity|]; cbn [run_store target store_call_ok] in *.
  - eapply leaves_answer; [by apply publish_ok|]. intros o d (g & Hg & Ho). eapply outcome_promised; [by left|done].
  - eapply leaves_answer; [by apply ensure_current_ok|]. intros o d [(g & -> & -> & ->)|(_ & g & Hg & Ho)].
    + split; [by right|done].
    + eapply outcome_promised; [by left|done].
  - eapply leaves_answer; [by apply rollback_ok|]. intros o d (a & -> & Ho). eapply outcome_promised; [by left|done].
  - eapply leaves_answer; [eapply leaves_inv; [eapply leaves_mono; [by apply (recover_ok digest_hex v s)|done|by left]|by left]|].
    intros g d [-> Hd]. split; [done|]. split; [by eapply clean_settles|]. by destruct Hd as (p & [_ _ _ Hb] & _).
  - assert (∀ d, leased (disk s) d → settles v d) as Hl by (intros d Hd; eapply settles_alike; [by apply leased_alike|done]).
    eapply leaves_answer; [eapply leaves_inv; [eapply leaves_mono; [by apply (select_current_ok digest_hex own_uid identity v s)|done|]|]|].
    + intros d Hd. left. by apply Hl.
    + intros d Hd. left. by apply Hl.
    + intros [g n] d (Hd & -> & Hk & p & _ & _ & _ & Hn). cbn. split; [done|]. split; [by apply Hl|]. split; [done|by eexists].
  - assert (∀ d, spared digest_hex liveness (disk s) d → settles v d) as Hl by (intros d Hd; by eapply spared_settles).
    eapply leaves_answer; [eapply leaves_inv; [eapply leaves_mono; [by apply (garbage_collect_ok digest_hex liveness v s)|done|]|]|].
    + intros d Hd. left. by apply Hl.
    + intros d Hd. left. by apply Hl.
    + intros r d Hd. by apply Hl.
Qed.

(** What [leaves] says of a run. *)
Lemma leaves_run {A} (I : Disk → Prop) (m : gen_m A) (Q : A → Disk → Prop) R s r s' :
  leaves I m Q R s → m s = (r, s') →
  (∃ new, trail s' = trail s ++ new ∧ Forall I new)
  ∧ match r with Ok a => Q a (disk s') | Err (Raise _) => R (disk s') | Err Panic => False end.
Proof. intros Hm E. unfold leaves, wp in Hm. rewrite E in Hm. by destruct r as [a|[e|]]; [destruct Hm..|]. Qed.

(** C5. Every operation of the store is atomic.  The store settles on a generation, or on
    none, when that is what recovery would answer.  From a store that settles on [v], and
    however its system calls end, an operation never panics; every state the disk is in
    on the way, so every state a process that dies may leave, settles on [v], or on a
    generation the operation was to make current (a new one for a publication, the one
    asked for by a rollback, none for the others), or holds a journal that was cut off;
    a failure leaves the pointer where it was; and an answer is the truth: committed
    means the store settles there. *)
Theorem store_calls_are_atomic c v s r s' :
  (∀ b, sha256_digest (digest_hex b) = true) → store_call_ok c → settles v (disk s) → run_store c s = (r, s') →
  (∃ new, trail s' = trail s ++ new
    ∧ Forall (λ d, settles v d ∨ torn d ∨ ∃ g, target (disk s) c g ∧ settles (Some g) d) new)
  ∧ match r with
    | Ok a => promised (target (disk s) c) v a (disk s')
    | Err (Raise _) => settles v (disk s') ∨ torn (disk s')
    | Err Panic => False
    end.
Proof.
  intros Hhex Hc Hs E. pose proof (run_store_ok c v s Hhex Hc Hs) as Hrun. exact (leaves_run _ _ _ _ _ _ _ Hrun E).
Qed.

(** C9. An interrupted operation is recovered.  A process that dies in the middle of an
    operation, at any of the states the disk is in, leaves a store on which recovery, when
    nothing disturbs it, answers a generation and leaves no journal: the one that was
    current before or the one the operation was to make current.  The exceptions are a
    store without a generation, and a journal that was cut off while it was written. *)
Theorem interrupted_calls_are_recovered c v s r s' d :
  (∀ b, sha256_digest (digest_hex b) = true) → store_call_ok c → settles v (disk s) → run_store c s = (r, s') →
  d ∈ drop (length (trail s)) (trail s') →
  torn d ∨ settles None d
  ∨ ∃ g, (v = Some g ∨ target (disk s) c g) ∧
      ∀ random, ∃ s'', recover digest_hex (mk_fs d [] random []) = (Ok g, s'') ∧ settles (Some g) (disk s'')
        ∧ book (disk s'') = no_books.
Proof.
  intros Hhex Hc Hs E Hd. pose proof (run_store_ok c v s Hhex Hc Hs) as Hrun. destruct (leaves_run _ _ _ _ _ _ _ Hrun E) as [(new & Et & Hnew) _].
  rewrite Et, drop_app_length in Hd. rewrite Forall_forall in Hnew.
  assert (∀ g, settles (Some g) d → ∀ random, ∃ s'', recover digest_hex (mk_fs d [] random []) = (Ok g, s'')
    ∧ settles (Some g) (disk s'') ∧ book (disk s'') = no_books) as Hrec.
  { intros g Hg random. destruct (goes_recover digest_hex g (mk_fs d [] random [])) as (a & s'' & Er & _ & -> & Hcl); [constructor|done|].
    exists s''. split; [done|]. split; [by eapply clean_settles|]. by destruct Hcl as (p & [_ _ _ Hb] & _). }
  destruct (Hnew d Hd) as [H|[H|(g & Hg & H)]]; [|by left|].
  - right. destruct v as [g|]; [right|by left]. exists g. split; [by left|by apply Hrec].
  - right; right. exists g. split; [by right|by apply Hrec].
Qed.

(** ** A journal that was cut off *)

Lemma pointer_record_length g : lower_hex_32 g = true → length (pointer_record g) = 33.
Proof.
  intros (Ha & _ & Hl)%lower_hex_ascii. unfold pointer_record. rewrite ascii_bytes by (apply Forall_app; split; [done|by repeat constructor]).
  rewrite length_app, Hl. done.
Qed.

Lemma torn_refused d inv : torn d → inspect_pointer_journals digest_hex d ≠ Ok inv.
Proof.
  intros (g & part & Hg & Hpart & Hne & Hlook) [v Hsh]%shape_of_inspect.
  rewrite <-(journals_lookup KCurrent) in Hlook by by apply journal_prefix.
  assert (∀ a, lower_hex_32 a = true → part ≠ pointer_record a) as Hlen.
  { intros a Ha ->. apply Hne. destruct Hpart as [rest E]. pose proof (pointer_record_length g Hg) as Hlg.
    rewrite E, length_app, (pointer_record_length a Ha) in Hlg. destruct rest; [by rewrite app_nil_r in E|cbn in Hlg; lia]. }
  assert (∀ g0 p b, (one KCurrent g0 p b) !! journal KCurrent g = Some (File true part) → part = b) as Hone.
  { intros g0 p b H. unfold one in H. apply lookup_singleton_Some in H as [_ [= _ ->]]. done. }
  destruct Hsh as [v [Ec _]|v g0 q [Ec _] _ _ [Hk _]|v g0 q [Ec _] _ _ [Hk _]|g0 q [Ec _]|g0 q q' [Ec _] _ [Hk _]|g0 q previous [Ec _]];
    rewrite Ec in Hlook; try (by rewrite lookup_empty in Hlook); by apply Hone, Hlen in Hlook.
Qed.

Lemma refused {A} (I R : Disk → Prop) (k : PointerJournalInventory → gen_m A) (Q : A → Disk → Prop) s :
  R (disk s) → torn (disk s) →
  leaves I (_ ← syscall; inventory ← reading (inspect_pointer_journals digest_hex); k inventory) Q R s.
Proof.
  intros HR Ht. eapply (leaves_bind _ _ _ (λ _ d, d = disk s)); [by apply leaves_syscall|]. intros [] s1 Hs1.
  eapply (leaves_bind _ _ _ (λ _ _, False)); [|done]. apply leaves_reading; [by rewrite Hs1|apply inspect_never_panics|].
  intros inv. rewrite Hs1. by apply torn_refused.
Qed.

Lemma leaves_never {A B} (I : Disk → Prop) (m : gen_m A) (f : A → B) (Q : B → Disk → Prop) R s :
  leaves I m (λ _ _, False) R s → leaves I (a ← m; mret (f a)) Q R s.
Proof. intros Hm. by eapply leaves_bind; [exact Hm|]. Qed.

(** A collection of a store that the inspection refuses. *)
Lemma refused_collection s :
  torn (disk s) →
  leaves (unleased digest_hex liveness (disk s)) (garbage_collect digest_hex liveness)
    (λ report d, unleased digest_hex liveness (disk s) d ∧ reclaimed_generations report = 0)
    (unleased digest_hex liveness (disk s)) s.
Proof.
  intros Ht. set (d0 := disk s). assert (unleased digest_hex liveness d0 d0) as H0 by (split; [apply spared_refl|done]).
  unfold garbage_collect. eapply (leaves_bind _ _ _ (λ _ d, d = d0)); [by apply leaves_syscall|]. intros [] s1 Hs1.
  eapply leaves_bind; [by apply (reclaim_ok digest_hex liveness d0 s1)|].
  intros [[report live] uncertain] s2 (Hs2 & Hrep & _). cbn in Hrep. destruct uncertain; [by apply leaves_ret|].
  eapply (leaves_bind _ _ _ (λ r d, unleased digest_hex liveness d0 d ∧ is_ok r = false)).
  - apply leaves_attempt. eapply (leaves_mono _ _ (λ _ _, False)); [|done|intros d Hd e; by split; [exact Hd|]].
    apply leaves_reading; [done|apply inspect_never_panics|]. intros inv Hinv. destruct Hs2 as [Hsp Hgen].
    rewrite (inspect_same digest_hex d0 (disk s2)) in Hinv by (done || apply Hsp). by apply (torn_refused d0 inv).
  - intros [inv|e] s3 [Hs3 Hr]; [done|by apply leaves_ret].
Qed.

(** C36. A journal that was cut off stops the store for good.  A process that dies, or a
    disk that is full, while the record of a pointer journal is written leaves a file
    that no inspection accepts: after it every operation fails, whatever happens, except
    collection, which removes no generation, and the journal stays.  Only a hand that
    removes it helps. *)
Theorem torn_journal_stops_the_store c s r s' :
  torn (disk s) → run_store c s = (r, s') →
  torn (disk s') ∧ d_root (disk s') = d_root (disk s) ∧ d_generations (disk s') = d_generations (disk s)
  ∧ match r with
    | Ok a => ∃ report, a = Collected report ∧ reclaimed_generations report = 0
    | Err (Raise _) => True
    | Err Panic => False
    end.
Proof.
  intros Ht E. set (d0 := disk s). set (same d := d_root d = d_root d0 ∧ d_generations d = d_generations d0).
  assert (leaves same (run_store c)
    (λ a d, same d ∧ ∃ report, a = Collected report ∧ reclaimed_generations report = 0) same s) as H.
  { assert (∀ d, unleased digest_hex liveness d0 d → same d) as Hsame by (intros d [Hsp Hgen]; split; [apply Hsp|done]).
    assert (same d0) as H0 by done. destruct c; cbn [run_store]; [apply leaves_never; unfold publish, ensure_current, rollback, recover, select_current;
      apply refused; [exact H0|exact Ht]..|].
    eapply leaves_answer; [eapply leaves_inv; [eapply leaves_mono; [by apply refused_collection|done|exact Hsame]|exact Hsame]|].
    intros report d [Hd Hrep]. split; [by apply Hsame|by exists report]. }
  destruct (leaves_run _ _ _ _ _ _ _ H E) as [_ Hr].
  assert (same (disk s') ∧ match r with Ok a => ∃ report, a = Collected report ∧ reclaimed_generations report = 0
    | Err (Raise _) => True | Err Panic => False end) as [[Hroot Hgen] Ha].
  { destruct r as [a|[e|]]; [done|done|done]. }
  split_and!; [|done|done|done]. destruct Ht as (g & part & ? & ? & ? & Hlook). exists g, part. by rewrite Hroot.
Qed.

(** ** Leases and collection *)

(** C8. A collection spares what is used.  Wherever it stops, the root directory is what
    it was; a lease that is gone was a canonical process record of a process that is
    gone; and a generation that was touched was expendable: every lease was certain and
    none of a live process named it, neither the pointer nor its committed journal named
    it, every generation of the store was valid, and two more that nothing used were
    published after it.  The store settles where it did. *)
Theorem collections_spare_what_is_used v s r s' :
  settles v (disk s) → garbage_collect digest_hex liveness s = (r, s') →
  r ≠ Err Panic
  ∧ ∃ new, trail s' = trail s ++ new
    ∧ Forall (λ d, spared digest_hex liveness (disk s) d ∧ settles v d) (new ++ [disk s']).
Proof.
  intros Hs E. destruct (leaves_run _ _ _ _ _ _ _ (garbage_collect_ok digest_hex liveness v s Hs) E) as [(new & Et & Hnew) Hr].
  assert (∀ d, spared digest_hex liveness (disk s) d → spared digest_hex liveness (disk s) d ∧ settles v d) as Hset.
  { intros d Hd. split; [done|]. by eapply spared_settles. }
  split; [by destruct r as [|[|]]|]. exists new. split; [done|]. apply Forall_app. split; [by eapply Forall_impl|].
  apply Forall_singleton, Hset. by destruct r as [a|[e|]].
Qed.

Lemma read_own_lease r :
  lease_record_wf (ParsedProcess r) → read_lease_entry (Some (File true (LeaseRecord_encode r))) = Ok (ParsedProcess r).
Proof.
  intros Hr. cbn [read_lease_entry]. apply gen_text_Ok. unfold read_lease_record. apply ensure_Ok.
  split; [apply Nat.leb_le; by apply lease_encode_length|].
  change (LeaseRecord_encode r) with (ParsedLeaseRecord_encode (ParsedProcess r)).
  rewrite (ParsedLeaseRecord_parse_encode (ParsedProcess r) Hr). cbn [rbind]. by rewrite bool_decide_eq_true_2.
Qed.

(** What /proc says is in range. *)
Definition process_wf (p : ProcessIdentity) : Prop :=
  (pr_pid p <= u32_max)%N ∧ (pr_start_time p <= u64_max)%N ∧ canonical_boot_id (pr_boot_id p) = true ∧ (pr_owner_uid p <= u32_max)%N.

(** C37. A selected generation is kept.  A selection answers the current generation and
    leaves a lease.  In any later state of the store that still has that lease, whatever
    was published since, no collection touches the generation or the lease as long as the
    process is not known to be gone. *)
Theorem selected_generations_are_kept v p s g n s' w s2 r s3 :
  settles v (disk s) → process_wf p → select_current digest_hex own_uid (Ok p) s = (Ok (g, n), s') →
  settles w (disk s2) → d_leases (disk s2) !! n = d_leases (disk s') !! n →
  liveness (mk_lease g (pr_pid p) (pr_start_time p) (pr_boot_id p) (pr_owner_uid p)) ≠ Stale →
  garbage_collect digest_hex liveness s2 = (r, s3) →
  v = Some g ∧ ∃ new, trail s3 = trail s2 ++ new
    ∧ Forall (λ d, d_generations d !! str_bytes g = d_generations (disk s2) !! str_bytes g
                   ∧ d_leases d !! n = d_leases (disk s2) !! n) (new ++ [disk s3]).
Proof.
  intros Hs (Hpid & Hst & Hboot & Huid) Esel Hw Hn Hlive Egc.
  destruct (leaves_run _ _ _ _ _ _ _ (select_current_ok digest_hex own_uid (Ok p) v s Hs) Esel)
    as [_ (_ & Hv & [Hhex _] & p' & [= <-] & _ & _ & Hlease)]. cbn [fst snd] in *. split; [done|]. rewrite Hlease in Hn.
  set (record := mk_lease g (pr_pid p) (pr_start_time p) (pr_boot_id p) (pr_owner_uid p)) in *.
  assert (read_lease_entry (Some (File true (LeaseRecord_encode record))) = Ok (ParsedProcess record)) as Hread by by apply read_own_lease.
  destruct (leaves_run _ _ _ _ _ _ _ (garbage_collect_ok digest_hex liveness w s2 Hw) Egc) as [(new & Et & Hnew) Hr].
  assert (∀ d, spared digest_hex liveness (disk s2) d → d_generations d !! str_bytes g = d_generations (disk s2) !! str_bytes g
    ∧ d_leases d !! n = d_leases (disk s2) !! n) as Hkeep.
  { intros d [_ Hl Hg]. split.
    - destruct (Hg (str_bytes g)) as [E|(g' & Hg' & Hex)]; [done|]. apply hex_bytes_inj in Hg'; [subst g'|done|apply Hex].
      destruct (un_leases _ _ _ _ (ex_unpinned _ _ _ _ Hex) n _ Hn) as (r' & Hr' & H). rewrite Hread in Hr'. injection Hr' as <-.
      by destruct H as [[_ H]|H].
    - destruct (Hl n) as [E|[_ (r' & Hr' & H)]]; [done|]. rewrite Hn, Hread in Hr'. by injection Hr' as <-. }
  exists new. split; [done|]. apply Forall_app. split; [by eapply Forall_impl|]. apply Forall_singleton, Hkeep. by destruct r as [a|[e|]].
Qed.

(** ** What is accepted, and what is written *)

(** C38. The inspection accepts exactly the six inventories.  It answers a state and a
    current generation just when the pointer and the journals have the shape that state
    names, every generation they name being valid, and it never panics. *)
Theorem inspection_accepts_six_shapes d :
  inspect_pointer_journals digest_hex d ≠ Err Panic
  ∧ ∀ inv, inspect_pointer_journals digest_hex d = Ok inv ↔ ∃ v, shape digest_hex d (in_state inv) (in_current inv) v.
Proof.
  split; [apply inspect_never_panics|]. intros [c st]. split; [apply shape_of_inspect|].
  intros [v Hv]. by eapply inspect_of_shape.
Qed.

(** C39. A published tree can be read back.  Where a generation was written without
    failure, its tree passes every check that selection, recovery and collection make,
    its manifest is the one that was written, and every output reads as the bytes that
    were given. *)
Theorem written_generations_verify digests os p g n s s' :
  (∀ b, sha256_digest (digest_hex b) = true) → length digests = length digest_fields →
  GenerationPublication_new digests os = Ok p → lower_hex_32 g = true →
  write_generation digest_hex p g n s = (Ok tt, s') →
  ∃ t, d_generations (disk s') !! n = Some (Tree t)
    ∧ verify_opened_generation digest_hex t g = Ok (published_manifest digest_hex p g)
    ∧ ∀ path bytes, (path, bytes) ∈ os → read_tree_file t path = Ok bytes.
Proof.
  intros Hhex Hl Hp Hg E. pose proof (GenerationPublication_new_wf _ _ _ Hl Hp) as Hwf.
  destruct (leaves_run _ _ _ _ _ _ _ (write_generation_ok n (disk s) digest_hex p g s (aside_refl _ _)) E) as [_ (t & [_ Ht] & Hf & _)].
  exists t. split; [done|]. split; [by apply published_tree_valid|]. intros path bytes Hin.
  eapply read_held_file; [exact Hf|]. unfold generation_files. apply elem_of_app. left.
  by rewrite (publication_outputs _ _ _ Hp), sort_outputs_Permutation.
Qed.
End safety.

(** ** A store, from pristine *)

Definition demo_digest (bytes : list N) : rstring := replicate 64 48%N.

Lemma demo_digest_hex b : sha256_digest (demo_digest b) = true.
Proof. reflexivity. Qed.

Definition demo_outputs : list (rstring * list N) := [(lit "foot/foot.ini", [1; 2; 3]%N); (lit "apps.list", [])].

Definition demo_digests : list rstring := replicate (length digest_fields) (replicate 64 97%N).

Definition demo_capture : result GenerationPublication rstring := GenerationPublication_new demo_digests demo_outputs.

Lemma demo_captured : captured demo_capture.
Proof. intros p Hp. by exists demo_digests, demo_outputs. Qed.

Definition demo_pristine : Disk :=
  mk_disk {[str_bytes (lit "publication-order") := File true (PublicationOrder_encode PublicationOrder_empty)]} ∅ ∅.

Definition demo_id (n : N) : GenerationId := replicate 31 48%N ++ [(48 + n)%N].

(** Random bytes that spell the identifiers 1 and 2; [f] says which calls fail. *)
Definition demo_fs (d : Disk) (f : list (option Fault)) : Fs :=
  mk_fs d f [Ok (replicate 15 0%N ++ [1%N]); Ok (replicate 15 0%N ++ [2%N])] [].

Lemma run_eq {A B} (m : A * B) a : m.1 = a → m = (a, m.2).
Proof. by destruct m; cbn; intros ->. Qed.

(** Every call succeeds; and the disk is full when the journal of the pointer is written. *)
Definition demo_calm : Fs := demo_fs demo_pristine [].
Definition demo_disk_full : Fs := demo_fs demo_pristine (replicate 46 None ++ [Some (mk_fault 28 5)]).

Abbreviation demo_publish s := (run_store demo_digest 1000 (λ _, Live) (Publish demo_capture) s).
Abbreviation demo_done := ((demo_publish demo_calm).2).
Abbreviation demo_full := ((demo_publish demo_disk_full).2).

Lemma demo_pristine_settles : settles demo_digest None demo_pristine.
Proof. exists Clean, None. apply shape_clean; [split_and!; vm_compute; reflexivity|vm_compute; reflexivity]. Qed.

Lemma demo_done_run : (demo_publish demo_calm).1 = Ok (Outcome (Committed (demo_id 1))).
Proof. vm_compute. reflexivity. Qed.

Lemma demo_full_run : (demo_publish demo_disk_full).1 = Err (Raise (GenOs 28)).
Proof. vm_compute. reflexivity. Qed.

(** What a store looks like that settles on a generation without journals, as a test. *)
Definition settled_on (d : Disk) (g : GenerationId) : bool :=
  bool_decide (fst <$> map_to_list (journals KCurrent d) = []) && bool_decide (fst <$> map_to_list (journals KAbsent d) = [])
  && bool_decide (fst <$> map_to_list (journals KCommitted d) = [])
  && match pointer d with Some (File _ b) => bool_decide (b = pointer_record g) | _ => false end
  && lower_hex_32 g && is_ok (validate_generation demo_digest d g).

Lemma settled_on_settles d g : settled_on d g = true → settles demo_digest (Some g) d.
Proof.
  unfold settled_on. rewrite !andb_true_iff, !bool_decide_eq_true. intros [[[[[Hc Ha] Hm] Hp] Hg] Hv].
  apply fmap_nil_inv, map_to_list_empty_iff in Hc, Ha, Hm. exists Clean, (Some g). apply shape_clean; [done|]. split.
  - destruct (pointer d) as [[q b| | |]|]; try done. apply bool_decide_eq_true in Hp as ->. by exists q.
  - unfold valid. by destruct (validate_generation demo_digest d g) as [[]|].
Qed.

Lemma demo_done_settles : settles demo_digest (Some (demo_id 1)) (disk demo_done).
Proof. apply settled_on_settles. vm_compute. reflexivity. Qed.

(** A journal that was cut off after five bytes, as a test. *)
Lemma cut_off_torn d g :
  lower_hex_32 g = true →
  match d_root d !! journal KCurrent g with Some (File true b) => bool_decide (b = take 5 (pointer_record g)) | _ => false end = true →
  torn d.
Proof.
  intros Hg Hd. destruct (d_root d !! journal KCurrent g) as [[[] b| | |]|] eqn:E; try done. apply bool_decide_eq_true in Hd as ->. exists g, (take 5 (pointer_record g)). split; [done|]. split; [apply prefix_take|].
  split; [|done]. intros E'%(f_equal length). rewrite length_take, (pointer_record_length g Hg) in E'. cbn in E'. lia.
Qed.

Lemma demo_full_torn : torn (disk demo_full).
Proof. apply (cut_off_torn _ (demo_id 1)); vm_compute; reflexivity. Qed.

Definition demo_boot : rstring := replicate 8 48%N ++ [45%N] ++ replicate 4 48%N ++ [45%N] ++ replicate 4 48%N ++ [45%N]
  ++ replicate 4 48%N ++ [45%N] ++ replicate 12 48%N.

Definition demo_process : ProcessIdentity := mk_process 42 7 demo_boot 1000.

Definition demo_reader : Fs := demo_fs (disk demo_done) [].
Abbreviation demo_select := (select_current demo_digest 1000 (Ok demo_process) demo_reader).

Lemma demo_reader_settles : settles demo_digest (Some (demo_id 1)) (disk demo_reader).
Proof. apply settled_on_settles. vm_compute. reflexivity. Qed.

Lemma demo_select_run : demo_select.1 = Ok (demo_id 1, str_bytes (demo_id 1)).
Proof. vm_compute. reflexivity. Qed.

Lemma demo_select_settles : settles demo_digest (Some (demo_id 1)) (disk demo_select.2).
Proof. apply settled_on_settles. vm_compute. reflexivity. Qed.

Abbreviation demo_collect := (garbage_collect demo_digest (λ _, Live) demo_select.2).

Lemma demo_process_wf : process_wf demo_process.
Proof. split_and!; vm_compute; done. Qed.

(** The first publication, where the disk is full at its journal. *)
Lemma store_calls_are_atomic_witness :
  settles demo_digest None (disk demo_disk_full)
  ∧ (∃ new, trail demo_full = trail demo_disk_full ++ new
      ∧ Forall (λ d, settles demo_digest None d ∨ torn d
          ∨ ∃ g, target (disk demo_disk_full) (Publish demo_capture) g ∧ settles demo_digest (Some g) d) new)
  ∧ (settles demo_digest None (disk demo_full) ∨ torn (disk demo_full)).
Proof.
  split; [exact demo_pristine_settles|].
  exact (store_calls_are_atomic demo_digest 1000 (λ _, Live) (Publish demo_capture) None demo_disk_full _ _
    demo_digest_hex demo_captured demo_pristine_settles (run_eq _ _ demo_full_run)).
Defined.

(** A process that dies right after the first publication has put the pointer there. *)
Lemma interrupted_calls_are_recovered_witness :
  settles demo_digest None (disk demo_calm)
  ∧ (torn (disk demo_done) ∨ settles demo_digest None (disk demo_done)
     ∨ ∃ g, (None = Some g ∨ target (disk demo_calm) (Publish demo_capture) g) ∧
         ∀ random, ∃ s'', recover demo_digest (mk_fs (disk demo_done) [] random []) = (Ok g, s'')
           ∧ settles demo_digest (Some g) (disk s'') ∧ book (disk s'') = no_books).
Proof.
  split; [exact demo_pristine_settles|].
  apply (interrupted_calls_are_recovered demo_digest 1000 (λ _, Live) (Publish demo_capture) None demo_calm _ _ (disk demo_done)
    demo_digest_hex demo_captured demo_pristine_settles (run_eq _ _ demo_done_run)).
  apply (list_elem_of_lookup_2 _ 25). vm_compute. reflexivity.
Defined.

Abbreviation demo_retry := (run_store demo_digest 1000 (λ _, Live) Recover demo_full).

Lemma demo_retry_run :
  demo_retry.1 = Err (Raise (GenText (lit "current journal must end in one LF"))).
Proof. vm_compute. reflexivity. Qed.

Lemma torn_journal_stops_the_store_witness :
  torn (disk demo_full)
  ∧ torn (disk demo_retry.2) ∧ d_root (disk demo_retry.2) = d_root (disk demo_full)
  ∧ d_generations (disk demo_retry.2) = d_generations (disk demo_full) ∧ True.
Proof.
  split; [exact demo_full_torn|].
  exact (torn_journal_stops_the_store demo_digest 1000 (λ _, Live) Recover demo_full _ _ demo_full_torn (run_eq _ _ demo_retry_run)).
Defined.

Lemma demo_collect_run : demo_collect.1 = Ok (mk_report 0 0).
Proof. vm_compute. reflexivity. Qed.

Lemma collections_spare_what_is_used_witness :
  settles demo_digest (Some (demo_id 1)) (disk demo_select.2)
  ∧ ∃ new, trail demo_collect.2 = trail demo_select.2 ++ new
    ∧ Forall (λ d, spared demo_digest (λ _, Live) (disk demo_select.2) d ∧ settles demo_digest (Some (demo_id 1)) d)
        (new ++ [disk demo_collect.2]).
Proof.
  split; [exact demo_select_settles|].
  exact (proj2 (collections_spare_what_is_used demo_digest (λ _, Live) (Some (demo_id 1)) demo_select.2 _ _
    demo_select_settles (run_eq _ _ demo_collect_run))).
Defined.

(** The lease of the first selection, and a collection after it. *)
Lemma selected_generations_are_kept_witness :
  settles demo_digest (Some (demo_id 1)) (disk demo_reader)
  ∧ Some (demo_id 1) = Some (demo_id 1)
  ∧ ∃ new, trail demo_collect.2 = trail demo_select.2 ++ new
    ∧ Forall (λ d, d_generations d !! str_bytes (demo_id 1) = d_generations (disk demo_select.2) !! str_bytes (demo_id 1)
        ∧ d_leases d !! str_bytes (demo_id 1) = d_leases (disk demo_select.2) !! str_bytes (demo_id 1))
        (new ++ [disk demo_collect.2]).
Proof.
  split; [exact demo_reader_settles|].
  exact (selected_generations_are_kept demo_digest 1000 (λ _, Live) (Some (demo_id 1)) demo_process demo_reader
    (demo_id 1) (str_bytes (demo_id 1)) demo_select.2 (Some (demo_id 1)) demo_select.2 _ _
    demo_reader_settles demo_process_wf (run_eq _ _ demo_select_run) demo_select_settles eq_refl
    (λ E : Live = Stale, match E with eq_refl => I end) (run_eq _ _ demo_collect_run)).
Defined.

Abbreviation demo_written p := (write_generation demo_digest p (demo_id 1) (str_bytes (lit ".staging-" ++ demo_id 1)) demo_calm).

Definition demo_publication : GenerationPublication := mk_publication demo_digests (sort_outputs demo_outputs).

Lemma demo_publication_new : GenerationPublication_new demo_digests demo_outputs = Ok demo_publication.
Proof. vm_compute. reflexivity. Qed.

Lemma demo_written_run : (demo_written demo_publication).1 = Ok tt.
Proof. vm_compute. reflexivity. Qed.

Lemma written_generations_verify_witness :
  GenerationPublication_new demo_digests demo_outputs = Ok demo_publication
  ∧ ∃ t, d_generations (disk (demo_written demo_publication).2) !! str_bytes (lit ".staging-" ++ demo_id 1) = Some (Tree t)
    ∧ verify_opened_generation demo_digest t (demo_id 1) = Ok (published_manifest demo_digest demo_publication (demo_id 1))
    ∧ ∀ path bytes, (path, bytes) ∈ demo_outputs → read_tree_file t path = Ok bytes.
Proof.
  split; [exact demo_publication_new|].
  exact (written_generations_verify demo_digest demo_digests demo_outputs demo_publication (demo_id 1) _ demo_calm _
    demo_digest_hex eq_refl demo_publication_new eq_refl (run_eq _ _ demo_written_run)).
Defined.
